(* ===== verification/_CoqProject ===== *)
-Q . S2P
Prelude.v
Bytes.v
Crc.v
CommandFormat.v
HintFormat.v
Streams.v
Reader.v
KeyDir.v
Text.v
Names.v
Config.v
FileSystem.v
Lock.v
BTree.v
Engine.v
Load.v
Merge.v
MergeSteps.v
System.v
Log.v
Inv.v
EngineProofs.v
Replay.v
Recovery.v
Damage.v
Durability.v
Faults.v
FirstOpen.v
MergeFiles.v
MergeState.v
MergeCopy.v
MergePublish.v
MergeProofs.v
Interference.v
Phases.v
PhaseSteps.v
StaleReaders.v
SystemProofs.v
SystemTheorems.v
Keeps.v
Cut.v
CutOpen.v
CutMerge.v
CutTheorems.v
Closing.v
Interval.v
TypedStore.v
TypedMerge.v
Typing.v
Findings.v
KvStore.v
Threads.v
OneWriter.v
Protocol.v
Resp.v
RespProofs.v
Server.v
Connections.v
Turns.v
Repl.v
Programs.v
ServerMain.v
ClientServer.v
Testing.v
CodecTests.v
StoreTests.v
NetTests.v
IntegrationTests.v
ConcurrentTests.v
RandomTest.v
