(* ===== verification/Prelude.v ===== *)
(** * Verification of the [kvs] Bitcask store

    ** The program

    [kvs] (src/src) is a key/value store. Its engine, [Bitcask]
    (src/storage/bitcask.rs), appends records to an active log file that is sealed
    when it is full; an in-memory index maps each key to the place of its last
    record, so a read is one [pread]. A background merge copies the live records
    of the sealed files to new files with hint files beside them and deletes the
    old ones. [open] rebuilds the index from hint files and logs and cuts off a
    torn record at the end of the active file. A lock file gives a directory to one
    process and one engine. A second engine wraps the [sled] database; the enum
    [Store] chooses between them. A server offers the store over a protocol of its
    own and over the Redis protocol (RESP); there are a client and a REPL.

    ** The model

    Every operation is an executable Gallina function in a state and error monad
    [M S A := S -> outcome A * S] (this file), where [outcome] is a value, an [Err]
    with the program's own error type, or a [Panic]. Machine integers are [Z] with
    their width written out: [as_u32] is a cast, [u64_add] and [u64_sub] panic
    outside the range as in the dev profile. A byte string is a [list byte].

    - Prelude: errors, the monad, integers, slices, the tactics and hint databases.
    - Bytes: little-endian integers, [BytesUtil] (bytes_util.rs).
    - Crc: the checksum as a class [Crc32], an argument of every definition that
      uses it (crc32fast is not part of the sources), with CRC-32/IEEE as instance.
    - CommandFormat, HintFormat: the records of the log (command.rs) and of the hint
      files (index_value.rs).
    - Streams, Reader: byte streams, [RecordReader] (record_reader.rs).
    - KeyDir: the sharded, locked index (index.rs), with lock poisoning.
    - Text, Names: UTF-8, decimal numbers, trimming; the file names.
    - Config: config.rs, policy.rs and [StoreType].
    - FileSystem: what the code uses of the operating system. A [World] has a
      directory of names to inodes, inodes with the length of the prefix that is on
      stable storage, the [flock], a clock with its coming readings, and a schedule
      of faults that makes any system call fail, a write after some of its bytes.
    - Lock: [LockFile] (lock_file.rs).
    - BTree: a [BTreeMap] as an ascending association list.
    - Engine: [Shared], [WriterState] and the operations [set], [remove], [get]
      with sync, rotation, policies, the merge signal and mutex poisoning.
    - Load: [Loader::replay] and [Bitcask::open].
    - Merge: [run_compaction], [finish_output], [MergeOutput], the merge thread's
      turn and [Drop for Handle].
    - MergeSteps: the merge thread as a machine that is cut where it touches what
      the threads share, each step running the definitions of Merge.
    - System: an open store used by any number of threads while the merge thread
      runs; calls are cut where the code gives up what it holds, and an arbitrary
      schedule of actions interleaves them. [Spec] is the map they implement.
    - KvStore: the trait as the class [KvStore], its contract as [KvStoreLaws], the
      two engines and [Store] as instances; the sled database is a parameter, the
      class [SledDb], with what its documentation says as [SledDbLaws].
    - Threads: what a store promises to the threads that share it, as the classes
      [ThreadedStore] and [ThreadedLaws]; the instances are the store of System, the
      store over sled (cut between its calls of the database) and [Store].
    - Protocol, Resp: frames, requests, responses and error codes (network/).
    - Server: [execute], the connection handlers of kvs-server.rs and the client's
      [call].
    - Connections: the accept loop of kvs-server.rs: any number of connections of
      both protocols, one thread each, on one store with several threads (Threads);
      [handle] cut into turns around the call of the store.
    - Repl: the terminal and the logger (log.rs), [parse_command] (repl_helper.rs),
      the loops and commands of kvs.rs and kvs-client.rs.
    - Programs, ServerMain: [main] of kvs.rs, of kvs-client.rs and of kvs-server.rs.
      What the line editor, the command line parser and the socket calls return is
      an input; what is printed is state; a process that has ended leaves its
      directory to the next run.

    ** The specification and the invariants

    - Log: the store as a list of files of commands, [state_of] the map from keys to
      places and values that they replay to, [values] what a client sees.
    - Inv: [disk], what the directory holds of such a log, damaged hint files, torn
      tails and leftovers of a merge included; [engine], what the open store adds:
      the index is the index of the log, the writer is at the end of the active
      file, every file is readable through an open handle.

    ** What is proved

    - EngineProofs: [set], [remove] and [get] implement map update, deletion and
      lookup and keep [engine], through every policy and rotation; what a failed
      write leaves.
    - Replay, Recovery, FirstOpen: [open] on a directory at rest restores the map it
      stores, in whatever order the directory is listed, and holds the lock; on a
      directory without data files it gives an empty store.
    - Durability: after a crash (any prefix of the unsynced bytes of any file may be
      lost) [open] restores a prefix of the log with at least everything synced;
      under [SyncOnEveryPut] nothing is lost; closing and opening again loses
      nothing under any policy.
    - Faults: [set] and [remove] under every schedule of I/O errors are all or
      nothing, in memory and, after the process is killed, on disk; [get] returns
      the value or the error.
    - Damage: up to four consecutive bytes of a record that change on disk are
      noticed, given the burst detection of CRC-32, which is proved of CRC-32/IEEE;
      [get] returns [Corruption] and no other key is affected.
    - MergeSteps: the merge machine left alone computes [run_compaction], and ends
      whatever other threads do.
    - MergeFiles, MergeState, MergeCopy, MergePublish, MergeProofs: the invariant of a
      merge from its snapshot to the deletion of its sources; a merge that runs
      alone keeps the map, copies exactly the live records, stays within the ids it
      reserved and deletes its sources.
    - Interference, Phases, PhaseSteps, SystemProofs: the same invariant with writers
      beside the merge, one phase per place where the merge can be, and the
      simulation of every step of the system by the specification.
    - SystemTheorems: every run of the threads and the merge refines the map ([set]
      and [get] take effect at one point, [remove] at two); no call fails or waits for
      the merge; after a crash at any step the next [open] restores the log but for
      unsynced commands at its end.
    - Cut, CutOpen, CutMerge, CutTheorems: the same for a crash in the middle of a
      step: after any number of its system calls, the last one done in part, and then
      after any number of recoveries that are cut short and crashed in turn.
      [world_keeps] is the judgement for what code keeps of the directory whatever
      calls fail; [settled] is what every open keeps.
    - OneWriter: a key that one thread writes is an atomic register for all others,
      in every run of every store that satisfies [ThreadedLaws].
    - Interval: what [SyncOnInterval] promises, with the clock.
    - Closing: a merge left alone on a store with stale handles keeps the map; closing
      with a merge still due and opening again keeps the map; [open_for] is the
      invariant of a store that one thread uses.
    - Keeps, TypedStore, TypedMerge, Typing: the types of the state. From any
      directory, under any schedule of I/O errors, every run of the threads and the
      merge keeps every machine integer in its range, every key in its bucket and the
      readers in order, without the invariants above; [keeps P Q c] is the judgement.
    - StaleReaders: no merge of a process after the first one succeeds, because the
      handles of merged files stay in the readers map.
    - Findings: runs on which the code does not do what it means to: values lost or
      brought back by a merge, a [get] that never returns, two removes of one key
      that both succeed, a misplaced record after a failed write, a merge output that
      replaces the active file, a lock file that is written in part, a clock that
      goes back, garbage that a restart forgets.
    - KvStore, Server, Repl: refinement of the abstract map for every sequence of
      calls, for both protocols of the server and for a REPL session, proved once
      against [KvStoreLaws]; open and run end to end.
    - Programs: runs of [kvs] one after another on one directory print what they would
      on one map in memory; a session of [kvs-client] with a server prints what [kvs]
      prints ([repl_loop_alike] compares two ways to run the commands).
    - Connections: every run of the server with all its connections refines the map,
      and each connection has answered the frames of its own stream, in order, with
      the results of its own calls. ServerMain: the same for both engines from the start
      of the program on a directory to its end, which is the first error of accepting,
      and that its directory then has everything that took effect. Turns: the turns of a
      connection that is served alone are the loops of Server, and end on every stream.
    - ClientServer: the session of [kvs-client] on a connection of the running server,
      beside any other connections: the server has run the calls that were typed, and the
      client prints what [kvs] prints for the results that the store gave to them.
    - The codecs, scanners and parsers (CommandFormat, HintFormat, Reader, Protocol,
      RespProofs, Bytes): round trips, unique decodability, truncation,
      totality (no panic on any bytes) and which error is which.
    - KeyDir, Lock: the sharded index is one map; one engine per directory, one
      holder at a time.
    - Testing, CodecTests, StoreTests, NetTests, IntegrationTests: the unit tests of the
      sources and nineteen of the integration tests, translated and proved to pass on the
      model, which checks the model against the expectations of its authors.
      ConcurrentTests: the two tests with several threads, for both engines, proved for
      every schedule of their threads. RandomTest: the test that compares the store with a
      map over random calls, proved for every seed and number of calls.

    ** Fuel and bounds

    Loops over a stream take the number of its bytes plus one as fuel, and every
    turn consumes at least one byte; the theorems give results, never "if it does
    not run out". The retry loop of [get] needs one turn when no merge runs in
    between. [room n] says that counters and ids are [n] writes away from the end
    of [u64]; a record has less than [record_max = 2 ^ 33] bytes. Keys and values
    are bounded by what the 32-bit length fields of both record formats can hold
    ([fits], [small]).

    The counters of a concurrent run are bounded by [in_range] at every step
    ([bounded_run] for a store of any engine); the typing needs no such bound, only files of at most [i64::MAX] bytes.

    ** Not modelled

    Argument parsing (clap), the format of log lines and the levels below errors;
    [try_clone] of a socket, which is taken to succeed; benches, and the
    integration test that writes up to a million values until the directory shrinks. A run of the
    threads is without I/O errors up to the action that the crash cuts short, but for
    the theorem of Typing, which allows them everywhere. Faults that stop an open are
    of any kind but [UnexpectedEof], which the code takes for the end of a file. The
    directory itself is assumed durable: a rename, a creation or a deletion is not
    lost in a crash (the code does not sync the directory). The sessions of Programs
    are those of one thread: the merge that is due runs when the program ends; merges
    beside calls are the subject of System. *)

From Stdlib Require Import ZArith Lia Strings.Byte.
From stdpp Require Import base numbers list gmap strings.

Set Default Proof Using "Type".

(** ** Error values and outcomes *)

(** The kinds of [std::io::Error] the code distinguishes. [Other] stands for
    every kind the code passes on without looking at it. *)
Inductive ErrorKind : Type :=
| UnexpectedEof
| InvalidDataKind
| NotFound
| Other.

#[export] Instance ErrorKind_eq_dec : EqDecision ErrorKind.
Proof. solve_decision. Defined.

(** [KvsError] of src/storage/error.rs, constructor by constructor. The
    payloads of [Serde], [Clock] and [Utf8] are error values of other crates
    that the code only forwards. *)
Inductive KvsError : Type :=
| Io (kind : ErrorKind)
| Serde
| KeyNotFound
| UnexpectedCommandType
| Corruption
| Clock
| Utf8
| MissingDataFile (id : Z)
| LockPoisoned
| StoreLocked
| InvalidData (msg : list byte)
| ServerInternal
| EngineMismatch (found requested : list byte).

#[export] Instance byte_eq_dec : EqDecision byte := Byte.byte_eq_dec.

#[export] Instance KvsError_eq_dec : EqDecision KvsError.
Proof. solve_decision. Defined.

(** What running a piece of Rust code gives: a value, an error returned with
    [Result::Err], or a panic ([unwrap] on [None], an arithmetic overflow with
    the overflow checks of the dev profile, an index out of bounds). *)
Inductive outcome (A : Type) : Type :=
| Ok (a : A)
| Err (e : KvsError)
| Panic.
Arguments Ok {A} a.
Arguments Err {A} e.
Arguments Panic {A}.

#[export] Instance outcome_eq_dec {A} `{EqDecision A} : EqDecision (outcome A).
Proof. solve_decision. Defined.

(** ** A state and error monad

    [M S A] is code that mutates a value of type [S] (a cursor, the writer's
    state, the file system) and returns an [outcome A]. As in Rust, the
    mutations done before an [Err] stay. *)
Definition M (S A : Type) : Type := S -> outcome A * S.

Definition ret {S A} (a : A) : M S A := fun s => (Ok a, s).
Definition bind {S A B} (c : M S A) (k : A -> M S B) : M S B := fun s =>
  match c s with
  | (Ok a, s') => k a s'
  | (Err e, s') => (Err e, s')
  | (Panic, s') => (Panic, s')
  end.
Definition throw {S A} (e : KvsError) : M S A := fun s => (Err e, s).
Definition panic {S A} : M S A := fun s => (Panic, s).
Definition gets {S A} (f : S -> A) : M S A := fun s => (Ok (f s), s).
Definition modify {S} (f : S -> S) : M S unit := fun s => (Ok tt, f s).
Definition of_outcome {S A} (o : outcome A) : M S A := fun s => (o, s).

(** Running [c] on one component of a pair, the way a method of one struct
    runs while the other structs stay as they are. *)
Definition on_snd {X S A} (c : M S A) : M (X * S) A := fun xs =>
  let (r, s) := c (snd xs) in (r, (fst xs, s)).
Definition on_fst {X S A} (c : M X A) : M (X * S) A := fun xs =>
  let (r, x) := c (fst xs) in (r, (x, snd xs)).

(** [match r { Ok(a) => k a, Err(e) => h e }]: the mutations of [c] are kept. *)
Definition mcatch {S A B} (c : M S A) (k : A -> M S B) (h : KvsError -> M S B) : M S B :=
  fun s => match c s with
           | (Ok a, s') => k a s'
           | (Err e, s') => h e s'
           | (Panic, s') => (Panic, s')
           end.

Declare Scope kvs_scope.
Delimit Scope kvs_scope with kvs.
Notation "'let!' x := c 'in' k" := (bind c (fun x => k))
  (at level 10, x pattern, c at level 200, k at level 200,
   format "'[v' 'let!'  x  :=  c  'in' '//' k ']'") : kvs_scope.
Notation "c ;;! k" := (bind c (fun _ => k))
  (at level 100, right associativity, format "'[v' c  ;;! '//' k ']'") : kvs_scope.
#[global] Open Scope kvs_scope.

(** ** Machine integers

    Every unsigned machine integer is a [Z] kept in its range. The target is
    64-bit, so [usize] has the range of [u64]. *)
Definition u32_max : Z := 2 ^ 32 - 1.
Definition u64_max : Z := 2 ^ 64 - 1.
Definition usize_max : Z := u64_max.

Definition is_u32 (z : Z) : Prop := (0 <= z < 2 ^ 32)%Z.
Definition is_u64 (z : Z) : Prop := (0 <= z < 2 ^ 64)%Z.

(** [z as u32] *)
Definition as_u32 (z : Z) : Z := (z mod 2 ^ 32)%Z.
(** [z as u64] *)
Definition as_u64 (z : Z) : Z := (z mod 2 ^ 64)%Z.

(** [a + b] and [a - b] on [u64]/[usize] with overflow checks. *)
Definition u64_add (a b : Z) : outcome Z :=
  if (a + b <=? u64_max)%Z then Ok (a + b)%Z else Panic.
Definition u64_sub (a b : Z) : outcome Z :=
  if (b <=? a)%Z then Ok (a - b)%Z else Panic.
Definition checked_add (a b : Z) : option Z :=
  if (a + b <=? usize_max)%Z then Some (a + b)%Z else None.

(** ** Byte strings *)
Definition blen {A} (l : list A) : Z := Z.of_nat (length l).
(** [&l[a..b]] where [a <= b <= l.len()]. *)
Definition slice {A} (l : list A) (a b : Z) : list A :=
  take (Z.to_nat (b - a)) (drop (Z.to_nat a) l).
(** [&l[a..]] *)
Definition zdrop {A} (a : Z) (l : list A) : list A := drop (Z.to_nat a) l.
(** [&l[..a]] *)
Definition ztake {A} (a : Z) (l : list A) : list A := take (Z.to_nat a) l.

(** The bytes of an ASCII literal, [b"..."]. *)
Definition lit (s : string) : list byte := String.list_byte_of_string s.

Definition u8 (x : byte) : Z := Z.of_N (Byte.to_N x).
Definition byte_of_Z (z : Z) : byte := default x00 (Byte.of_N (Z.to_N (z mod 256))).

#[export] Program Instance byte_countable : Countable byte :=
  inj_countable Byte.to_N Byte.of_N _.
Next Obligation. intros x. apply Byte.of_to_N. Qed.

#[export] Instance byte_inhabited : Inhabited byte := populate x00.

(** ** Automation *)

Create HintDb kvs.
#[export] Hint Extern 1 (_ <= _)%Z => lia : kvs.
#[export] Hint Extern 1 (_ < _)%Z => lia : kvs.

Lemma blen_app {A} (l k : list A) : blen (l ++ k) = (blen l + blen k)%Z.
Proof. unfold blen. rewrite length_app. lia. Qed.

Lemma blen_nil {A} : blen (@nil A) = 0%Z.
Proof. reflexivity. Qed.

Lemma blen_cons {A} (x : A) l : blen (x :: l) = (1 + blen l)%Z.
Proof. unfold blen. simpl. lia. Qed.

Lemma blen_nonneg {A} (l : list A) : (0 <= blen l)%Z.
Proof. unfold blen. lia. Qed.
#[export] Hint Resolve blen_nonneg : kvs.

Lemma blen_0_nil {A} (l : list A) : blen l = 0%Z -> l = [].
Proof. unfold blen. destruct l; simpl; [done | lia]. Qed.

(** Unfold the integer ranges and finish with linear arithmetic. *)
Ltac ulia :=
  unfold is_u32, is_u64, as_u32, as_u64, u32_max, usize_max, u64_max in *; lia.

(** Lengths of byte strings: rewrite with the length lemmas, then [lia]. *)
Create Rewrite HintDb blen.
#[export] Hint Rewrite @blen_app @blen_nil @blen_cons @length_app @length_take
  @length_drop @length_replicate : blen.
Ltac blia :=
  autorewrite with blen in *;
  repeat match goal with
  | |- context [blen ?l] =>
      lazymatch goal with
      | _ : (0 <= blen l)%Z |- _ => fail
      | _ => pose proof (blen_nonneg l)
      end
  | _ : context [blen ?l] |- _ =>
      lazymatch goal with
      | _ : (0 <= blen l)%Z |- _ => fail
      | _ => pose proof (blen_nonneg l)
      end
  end;
  unfold blen in *; autorewrite with blen in *; ulia.

(** Case on the boolean comparisons of the code, keeping the facts. *)
Ltac zcase :=
  repeat match goal with
  | |- context [(?a <=? ?c)%Z] => destruct (Z.leb_spec a c)
  | |- context [(?a <? ?c)%Z] => destruct (Z.ltb_spec a c)
  | |- context [(?a =? ?c)%Z] => destruct (Z.eqb_spec a c)
  end.

(** ** Slices *)

Lemma slice_app_l {A} (l k : list A) a c :
  (0 <= a)%Z -> (a <= c)%Z -> (c <= blen l)%Z -> slice (l ++ k) a c = slice l a c.
Proof.
  intros ? ? ?. unfold slice, blen in *.
  rewrite drop_app_le by lia. rewrite take_app_le by (rewrite length_drop; lia). done.
Qed.

Lemma slice_app_r {A} (l k : list A) a c :
  (blen l <= a)%Z -> slice (l ++ k) a c = slice k (a - blen l) (c - blen l).
Proof.
  intros ?. unfold slice, blen in *. rewrite drop_app_ge by lia.
  f_equal; [lia | f_equal; lia].
Qed.

Lemma slice_full {A} (l : list A) c : c = blen l -> slice l 0 c = l.
Proof. intros ->. unfold slice, blen. simpl. rewrite drop_0. apply take_ge. lia. Qed.

(** A segment of a byte string that is laid out as [pre ++ mid ++ post]. *)
Lemma slice_mid {A} (pre mid post : list A) a c :
  a = blen pre -> c = (blen pre + blen mid)%Z -> slice (pre ++ mid ++ post) a c = mid.
Proof.
  intros -> ->. rewrite slice_app_r by lia.
  pose proof (blen_nonneg mid). rewrite slice_app_l by lia.
  rewrite Z.sub_diag. apply slice_full. lia.
Qed.

Lemma blen_slice {A} (l : list A) a c :
  (0 <= a)%Z -> (a <= c)%Z -> (c <= blen l)%Z -> blen (slice l a c) = (c - a)%Z.
Proof. intros. unfold slice. blia. Qed.

Lemma slice_split {A} (l : list A) a c :
  (0 <= a)%Z -> (a <= c)%Z -> (c <= blen l)%Z ->
  l = ztake a l ++ slice l a c ++ zdrop c l.
Proof.
  intros ? ? ?. unfold ztake, slice, zdrop.
  rewrite <- (take_drop (Z.to_nat a) l) at 1. f_equal.
  rewrite <- (take_drop (Z.to_nat (c - a)) (drop (Z.to_nat a) l)) at 1. f_equal.
  rewrite drop_drop. f_equal. lia.
Qed.

Lemma blen_zdrop {A} a (l : list A) :
  (0 <= a <= blen l)%Z -> blen (zdrop a l) = (blen l - a)%Z.
Proof. intros. unfold zdrop. blia. Qed.

Lemma blen_ztake {A} a (l : list A) :
  (0 <= a <= blen l)%Z -> blen (ztake a l) = a.
Proof. intros. unfold ztake. blia. Qed.

Lemma zdrop_app {A} (l k : list A) a : a = blen l -> zdrop a (l ++ k) = k.
Proof. intros ->. unfold zdrop, blen. rewrite Nat2Z.id. apply drop_app_length. Qed.

Lemma ztake_app {A} (l k : list A) a : a = blen l -> ztake a (l ++ k) = l.
Proof. intros ->. unfold ztake, blen. rewrite Nat2Z.id. apply take_app_length. Qed.

(** ** Monad laws used for rewriting *)

Lemma bind_ok {S A B} (c : M S A) (k : A -> M S B) s a s' :
  c s = (Ok a, s') -> bind c k s = k a s'.
Proof. unfold bind. by intros ->. Qed.

Lemma bind_err {S A B} (c : M S A) (k : A -> M S B) s e s' :
  c s = (Err e, s') -> bind c k s = (Err e, s').
Proof. unfold bind. by intros ->. Qed.

Lemma bind_panic {S A B} (c : M S A) (k : A -> M S B) s s' :
  c s = (Panic, s') -> bind c k s = (Panic, s').
Proof. unfold bind. by intros ->. Qed.

Lemma bind_inv {S A B} (c : M S A) (k : A -> M S B) s r s' :
  bind c k s = (Ok r, s') ->
  exists a s1, c s = (Ok a, s1) /\ k a s1 = (Ok r, s').
Proof. unfold bind. destruct (c s) as [[a|e|] s1]; intros H; simplify_eq; eauto. Qed.

Lemma bind_assoc {S A B C} (c : M S A) (k : A -> M S B) (h : B -> M S C) s :
  bind (bind c k) h s = bind c (fun a => bind (k a) h) s.
Proof. unfold bind. by destruct (c s) as [[a|e|] s1]. Qed.

Lemma bind_ext {S A B} (c : M S A) (k k' : A -> M S B) s :
  (forall a s', k a s' = k' a s') -> bind c k s = bind c k' s.
Proof. intros H. unfold bind. destruct (c s) as [[a|e|] s']; [apply H|done|done]. Qed.

Lemma bind_bind_ok {S A B C} (c : M S A) (k : A -> M S B) (h : B -> M S C) s a s' :
  c s = (Ok a, s') -> bind (bind c k) h s = bind (k a) h s'.
Proof. unfold bind. by intros ->. Qed.

Lemma bind_outcome {S A B} (o : outcome A) (k : A -> M S B) s :
  bind (of_outcome o) k s =
  match o with Ok a => k a s | Err e => (Err e, s) | Panic => (Panic, s) end.
Proof. by destruct o. Qed.

(** Run one more step of a monadic program whose result is known. *)
Ltac mstep H :=
  first [rewrite (bind_ok _ _ _ _ _ H) | rewrite (bind_bind_ok _ _ _ _ _ _ H)];
  cbn beta iota zeta.

(** Decompose a successful run into its steps. *)
Ltac minv H :=
  let a := fresh "a" in let s := fresh "s" in
  let H1 := fresh "Hrun" in
  apply bind_inv in H as (a & s & H1 & H).

#[global] Arguments slice : simpl never.
#[global] Arguments zdrop : simpl never.
#[global] Arguments ztake : simpl never.
#[global] Arguments blen : simpl never.
#[global] Arguments as_u32 : simpl never.
#[global] Arguments byte_of_Z : simpl never.
