(* ===== verification/Bytes.v ===== *)
(** * Little-endian integers and the buffer cursor

    [to_le_bytes]/[from_le_bytes] of the Rust integer types, and [BytesUtil]
    of src/storage/bytes_util.rs: the bounds-checked reads that every decoder
    of the storage layer is written with. The [cursor: &mut usize] argument is
    the state of the monad [M Z]. *)

From Stdlib Require Import ZArith Lia Strings.Byte.
From stdpp Require Import base numbers list strings.
From S2P Require Import Prelude.

Local Open Scope Z_scope.

(** ** Integers as little-endian bytes *)

Fixpoint to_le (n : nat) (z : Z) : list byte :=
  match n with
  | O => []
  | S n => byte_of_Z z :: to_le n (z / 256)
  end.

Fixpoint from_le (bs : list byte) : Z :=
  match bs with
  | [] => 0
  | x :: bs => u8 x + 256 * from_le bs
  end.

(** [u32::to_le_bytes], [u64::to_le_bytes] *)
Definition u32_to_le_bytes (z : Z) : list byte := to_le 4 z.
Definition u64_to_le_bytes (z : Z) : list byte := to_le 8 z.

#[global] Arguments u32_to_le_bytes : simpl never.
#[global] Arguments u64_to_le_bytes : simpl never.

(** ** The cursor reads *)

Module BytesUtil.

Definition read_u8 (buf : list byte) : M Z Z := fun cursor =>
  if blen buf <=? cursor then (Err (Io UnexpectedEof), cursor)
  else match buf !! Z.to_nat cursor with
       | Some value => (Ok (u8 value), cursor + 1)
       | None => (Panic, cursor)
       end.

Definition read_u32 (buf : list byte) : M Z Z := fun cursor =>
  match checked_add cursor 4 with
  | None => (Err (Io InvalidDataKind), cursor)
  | Some end_ =>
      if blen buf <? end_ then (Err (Io UnexpectedEof), cursor)
      else (Ok (from_le (slice buf cursor end_)), end_)
  end.

Definition read_u64 (buf : list byte) : M Z Z := fun cursor =>
  match checked_add cursor 8 with
  | None => (Err (Io InvalidDataKind), cursor)
  | Some end_ =>
      if blen buf <? end_ then (Err (Io UnexpectedEof), cursor)
      else (Ok (from_le (slice buf cursor end_)), end_)
  end.

Definition read_bytes (buf : list byte) (len : Z) : M Z (list byte) := fun cursor =>
  match checked_add cursor len with
  | None => (Err (Io InvalidDataKind), cursor)
  | Some end_ =>
      if blen buf <? end_ then (Err (Io UnexpectedEof), cursor)
      else (Ok (slice buf cursor end_), end_)
  end.

End BytesUtil.

(** ** Lemmas on bytes *)

Lemma u8_range x : 0 <= u8 x < 256.
Proof. unfold u8. pose proof (Byte.to_N_bounded x). lia. Qed.

Lemma u8_byte_of_Z z : u8 (byte_of_Z z) = z mod 256.
Proof.
  unfold u8, byte_of_Z.
  pose proof (Z.mod_pos_bound z 256 ltac:(lia)).
  destruct (Byte.of_N (Z.to_N (z mod 256))) as [x|] eqn:E; simpl.
  - apply Byte.to_of_N in E. lia.
  - apply Byte.of_N_None_iff in E. lia.
Qed.

Lemma byte_of_Z_u8 x : byte_of_Z (u8 x) = x.
Proof.
  unfold byte_of_Z, u8. pose proof (Byte.to_N_bounded x).
  rewrite Z.mod_small by lia. rewrite N2Z.id, Byte.of_to_N. done.
Qed.

Lemma u8_inj x y : u8 x = u8 y -> x = y.
Proof. intros E. by rewrite <- (byte_of_Z_u8 x), E, byte_of_Z_u8. Qed.

Lemma length_to_le n z : length (to_le n z) = n.
Proof. revert z. induction n; intros; simpl; auto. Qed.

Lemma blen_to_le n z : blen (to_le n z) = Z.of_nat n.
Proof. unfold blen. by rewrite length_to_le. Qed.

Lemma blen_u32_le z : blen (u32_to_le_bytes z) = 4.
Proof. apply blen_to_le. Qed.

Lemma blen_u64_le z : blen (u64_to_le_bytes z) = 8.
Proof. apply blen_to_le. Qed.
Lemma length_u32_le z : length (u32_to_le_bytes z) = 4%nat.
Proof. apply length_to_le. Qed.

Lemma length_u64_le z : length (u64_to_le_bytes z) = 8%nat.
Proof. apply length_to_le. Qed.
#[export] Hint Rewrite length_to_le blen_to_le blen_u32_le blen_u64_le
  length_u32_le length_u64_le : blen.

Lemma from_le_to_le n z : from_le (to_le n z) = z mod 256 ^ Z.of_nat n.
Proof.
  revert z. induction n as [|n IH]; intros z.
  - simpl. by rewrite Z.mod_1_r.
  - cbn [to_le from_le]. rewrite IH, u8_byte_of_Z, Nat2Z.inj_succ, Z.pow_succ_r by lia.
    rewrite Z.rem_mul_r by lia. done.
Qed.

Lemma from_le_range bs : 0 <= from_le bs < 256 ^ blen bs.
Proof.
  induction bs as [|x bs IH].
  - unfold blen. simpl. lia.
  - rewrite blen_cons, Z.pow_add_r by (pose proof (blen_nonneg bs); lia).
    cbn [from_le]. pose proof (u8_range x). lia.
Qed.

Lemma to_le_from_le bs n : n = length bs -> to_le n (from_le bs) = bs.
Proof.
  intros ->. induction bs as [|x bs IH]; [done|].
  cbn [length to_le from_le]. pose proof (u8_range x). f_equal.
  - apply u8_inj. rewrite u8_byte_of_Z.
    rewrite (Z.mul_comm 256), Z.mod_add by lia. by apply Z.mod_small.
  - rewrite (Z.mul_comm 256), Z.div_add by lia. rewrite Z.div_small by lia. done.
Qed.

Lemma from_le_u32 z : is_u32 z -> from_le (u32_to_le_bytes z) = z.
Proof. intros. unfold u32_to_le_bytes. rewrite from_le_to_le. by apply Z.mod_small. Qed.

Lemma from_le_as_u32 z : from_le (u32_to_le_bytes (as_u32 z)) = as_u32 z.
Proof. apply from_le_u32. apply Z.mod_pos_bound. lia. Qed.

Lemma from_le_u64 z : is_u64 z -> from_le (u64_to_le_bytes z) = z.
Proof. intros. unfold u64_to_le_bytes. rewrite from_le_to_le. by apply Z.mod_small. Qed.

Lemma from_le_4_range bs : blen bs = 4 -> is_u32 (from_le bs).
Proof. intros E. pose proof (from_le_range bs). rewrite E in *. unfold is_u32. lia. Qed.

Lemma from_le_8_range bs : blen bs = 8 -> is_u64 (from_le bs).
Proof. intros E. pose proof (from_le_range bs). rewrite E in *. unfold is_u64. lia. Qed.

(** ** What the cursor reads return

    [zdrop c buf] is what is still to be read at cursor [c]. Each read is
    characterised in both directions: what it returns when the field is there,
    and what the buffer held when it returned. *)

Lemma zdrop_prefix (buf pre rest : list byte) c :
  0 <= c <= blen buf -> zdrop c buf = pre ++ rest ->
  c + blen pre <= blen buf /\ slice buf c (c + blen pre) = pre /\
  zdrop (c + blen pre) buf = rest.
Proof.
  intros Hc E. pose proof (f_equal blen E) as El.
  rewrite blen_zdrop, blen_app in El by lia.
  pose proof (blen_nonneg pre). pose proof (blen_nonneg rest).
  repeat split; [lia| |].
  - unfold slice. change (drop (Z.to_nat c) buf) with (zdrop c buf). rewrite E.
    replace (c + blen pre - c) with (blen pre) by lia. by apply ztake_app.
  - unfold zdrop in *. rewrite Z2Nat.inj_add, <- drop_drop, E by lia. by apply zdrop_app.
Qed.

Lemma zdrop_slice (buf : list byte) c d :
  0 <= c -> c <= d -> d <= blen buf -> zdrop c buf = slice buf c d ++ zdrop d buf.
Proof.
  intros. unfold slice, zdrop.
  rewrite <- (take_drop (Z.to_nat (d - c)) (drop (Z.to_nat c) buf)) at 1.
  f_equal. rewrite drop_drop. f_equal. lia.
Qed.

Section reads.
Context (buf : list byte).
Implicit Types (c : Z) (rest : list byte).

Lemma read_u8_at c x rest :
  0 <= c <= blen buf -> zdrop c buf = x :: rest ->
  BytesUtil.read_u8 buf c = (Ok (u8 x), c + 1) /\ zdrop (c + 1) buf = rest.
Proof.
  intros Hc E. destruct (zdrop_prefix buf [x] rest c Hc E) as (Hb & _ & Hd).
  change (blen [x]) with 1 in *. split; [|done].
  unfold BytesUtil.read_u8. destruct (Z.leb_spec (blen buf) c); [lia|].
  replace (buf !! Z.to_nat c) with (Some x); [done|].
  rewrite <- (Nat.add_0_r (Z.to_nat c)), <- lookup_drop.
  change (drop (Z.to_nat c) buf) with (zdrop c buf). by rewrite E.
Qed.

Lemma read_u32_at c z rest :
  0 <= c <= blen buf -> c + 4 <= usize_max -> is_u32 z ->
  zdrop c buf = u32_to_le_bytes z ++ rest ->
  BytesUtil.read_u32 buf c = (Ok z, c + 4) /\ zdrop (c + 4) buf = rest.
Proof.
  intros Hc Hm Hz E. destruct (zdrop_prefix _ _ _ _ Hc E) as (Hb & Hs & Hd).
  rewrite blen_u32_le in *. split; [|done].
  unfold BytesUtil.read_u32, checked_add. rewrite (proj2 (Z.leb_le _ _) Hm).
  destruct (Z.ltb_spec (blen buf) (c + 4)); [lia|]. by rewrite Hs, from_le_u32.
Qed.

Lemma read_u64_at c z rest :
  0 <= c <= blen buf -> c + 8 <= usize_max -> is_u64 z ->
  zdrop c buf = u64_to_le_bytes z ++ rest ->
  BytesUtil.read_u64 buf c = (Ok z, c + 8) /\ zdrop (c + 8) buf = rest.
Proof.
  intros Hc Hm Hz E. destruct (zdrop_prefix _ _ _ _ Hc E) as (Hb & Hs & Hd).
  rewrite blen_u64_le in *. split; [|done].
  unfold BytesUtil.read_u64, checked_add. rewrite (proj2 (Z.leb_le _ _) Hm).
  destruct (Z.ltb_spec (blen buf) (c + 8)); [lia|]. by rewrite Hs, from_le_u64.
Qed.

Lemma read_bytes_at c bs n rest :
  0 <= c <= blen buf -> n = blen bs -> c + n <= usize_max ->
  zdrop c buf = bs ++ rest ->
  BytesUtil.read_bytes buf n c = (Ok bs, c + n) /\ zdrop (c + n) buf = rest.
Proof.
  intros Hc -> Hm E. destruct (zdrop_prefix _ _ _ _ Hc E) as (Hb & Hs & Hd).
  split; [|done].
  unfold BytesUtil.read_bytes, checked_add. rewrite (proj2 (Z.leb_le _ _) Hm).
  destruct (Z.ltb_spec (blen buf) (c + blen bs)); [lia|]. by rewrite Hs.
Qed.

Lemma read_u8_inv c v c' :
  0 <= c -> BytesUtil.read_u8 buf c = (Ok v, c') ->
  c' = c + 1 /\ c' <= blen buf /\ 0 <= v < 256 /\
  zdrop c buf = byte_of_Z v :: zdrop c' buf.
Proof.
  intros Hc. unfold BytesUtil.read_u8. destruct (Z.leb_spec (blen buf) c); [done|].
  destruct (buf !! Z.to_nat c) as [x|] eqn:E; [|done]. intros [= <- <-].
  pose proof (u8_range x). repeat split; [lia..|].
  rewrite byte_of_Z_u8. unfold zdrop. rewrite (drop_S _ _ _ E). f_equal. f_equal. lia.
Qed.

Lemma read_u32_inv c v c' :
  0 <= c -> BytesUtil.read_u32 buf c = (Ok v, c') ->
  c' = c + 4 /\ c' <= blen buf /\ is_u32 v /\
  zdrop c buf = u32_to_le_bytes v ++ zdrop c' buf.
Proof.
  intros Hc. unfold BytesUtil.read_u32, checked_add.
  destruct (Z.leb_spec (c + 4) usize_max); [|done].
  destruct (Z.ltb_spec (blen buf) (c + 4)); [done|]. intros [= <- <-].
  assert (blen (slice buf c (c + 4)) = 4) as El by (rewrite blen_slice; lia).
  repeat split; [lia| by apply from_le_4_range..|].
  rewrite (zdrop_slice buf c (c + 4)) by lia. f_equal.
  symmetry. apply to_le_from_le. unfold blen in El. lia.
Qed.

Lemma read_u64_inv c v c' :
  0 <= c -> BytesUtil.read_u64 buf c = (Ok v, c') ->
  c' = c + 8 /\ c' <= blen buf /\ is_u64 v /\
  zdrop c buf = u64_to_le_bytes v ++ zdrop c' buf.
Proof.
  intros Hc. unfold BytesUtil.read_u64, checked_add.
  destruct (Z.leb_spec (c + 8) usize_max); [|done].
  destruct (Z.ltb_spec (blen buf) (c + 8)); [done|]. intros [= <- <-].
  assert (blen (slice buf c (c + 8)) = 8) as El by (rewrite blen_slice; lia).
  repeat split; [lia| by apply from_le_8_range..|].
  rewrite (zdrop_slice buf c (c + 8)) by lia. f_equal.
  symmetry. apply to_le_from_le. unfold blen in El. lia.
Qed.

Lemma read_bytes_inv c n bs c' :
  0 <= c -> 0 <= n -> BytesUtil.read_bytes buf n c = (Ok bs, c') ->
  c' = c + n /\ c' <= blen buf /\ blen bs = n /\ zdrop c buf = bs ++ zdrop c' buf.
Proof.
  intros Hc Hn. unfold BytesUtil.read_bytes, checked_add.
  destruct (Z.leb_spec (c + n) usize_max); [|done].
  destruct (Z.ltb_spec (blen buf) (c + n)); [done|]. intros [= <- <-].
  repeat split; [lia| rewrite blen_slice; lia |]. by rewrite <- zdrop_slice by lia.
Qed.

Lemma read_u32_short c :
  c + 4 <= usize_max -> blen buf < c + 4 ->
  BytesUtil.read_u32 buf c = (Err (Io UnexpectedEof), c).
Proof.
  intros Hm Hs. unfold BytesUtil.read_u32, checked_add.
  by rewrite (proj2 (Z.leb_le _ _) Hm), (proj2 (Z.ltb_lt _ _) Hs).
Qed.

Lemma read_u32_long c :
  c + 4 <= usize_max -> c + 4 <= blen buf ->
  BytesUtil.read_u32 buf c = (Ok (from_le (slice buf c (c + 4))), c + 4).
Proof.
  intros Hm Hs. unfold BytesUtil.read_u32, checked_add.
  by rewrite (proj2 (Z.leb_le _ _) Hm), (proj2 (Z.ltb_ge _ _) Hs).
Qed.

(** A length-prefixed field, [u32 len][len bytes], read by [read_u32] followed
    by [read_bytes]. *)
Lemma read_prefixed_at c (k : list byte) rest :
  0 <= c <= blen buf -> c + 4 + blen k <= usize_max -> blen k <= u32_max ->
  zdrop c buf = u32_to_le_bytes (as_u32 (blen k)) ++ k ++ rest ->
  BytesUtil.read_u32 buf c = (Ok (blen k), c + 4) /\
  BytesUtil.read_bytes buf (blen k) (c + 4) = (Ok k, c + 4 + blen k) /\
  zdrop (c + 4 + blen k) buf = rest /\ c + 4 + blen k <= blen buf.
Proof.
  intros Hc Hm Hk E. pose proof (blen_nonneg k).
  assert (as_u32 (blen k) = blen k) as Ek by (apply Z.mod_small; ulia). rewrite Ek in E.
  pose proof (zdrop_prefix _ _ _ _ Hc E) as (Hb & _ & _). rewrite blen_u32_le in Hb.
  apply read_u32_at in E as [R1 E]; [|ulia..].
  assert (0 <= c + 4 <= blen buf) as Hc4 by lia.
  pose proof (zdrop_prefix _ _ _ _ Hc4 E) as (Hb2 & _ & _).
  apply (read_bytes_at (c + 4) k (blen k)) in E as [R2 E]; [|ulia..]. auto.
Qed.

End reads.

(** ** Decoders stay within their buffer

    [within buf P r]: from any cursor inside [buf], the decoder [r] ends inside
    [buf] or fails with an error of [P]; it does not panic. Rust allocations
    never exceed [isize::MAX] bytes. *)
Definition isize_max : Z := 2 ^ 63 - 1.

Definition within {A} (buf : list byte) (P : KvsError -> Prop) (r : M Z A) : Prop :=
  forall c, 0 <= c <= blen buf ->
  match r c with
  | (Ok _, c') => 0 <= c' <= blen buf
  | (Err e, _) => P e
  | (Panic, _) => False
  end.

Section within.
Context (buf : list byte) (P : KvsError -> Prop).
Context (Hbuf : blen buf <= isize_max) (HP : P (Io UnexpectedEof)).

Lemma within_bind {A B} (r : M Z A) (k : A -> M Z B) (Q : A -> Prop) :
  within buf P r -> (forall c a c', 0 <= c -> r c = (Ok a, c') -> Q a) ->
  (forall a, Q a -> within buf P (k a)) -> within buf P (bind r k).
Proof using.
  intros Hr HQ Hk c Hc. specialize (Hr c Hc). unfold bind.
  destruct (r c) as [[a|e|] c'] eqn:E; try done.
  apply Hk; [|done]. apply (HQ c a c'); [lia|done].
Qed.

Lemma within_read_u8 : within buf P (BytesUtil.read_u8 buf).
Proof using HP.
  intros c Hc. unfold BytesUtil.read_u8. destruct (Z.leb_spec (blen buf) c); [done|].
  destruct (lookup_lt_is_Some_2 buf (Z.to_nat c)) as [x E]; [unfold blen in *; lia|].
  rewrite E. lia.
Qed.

Lemma within_read_u32 : within buf P (BytesUtil.read_u32 buf).
Proof using Hbuf HP.
  intros c Hc. unfold BytesUtil.read_u32, checked_add, isize_max in *.
  destruct (Z.leb_spec (c + 4) usize_max); [|ulia].
  destruct (Z.ltb_spec (blen buf) (c + 4)); [done|lia].
Qed.

Lemma within_read_u64 : within buf P (BytesUtil.read_u64 buf).
Proof using Hbuf HP.
  intros c Hc. unfold BytesUtil.read_u64, checked_add, isize_max in *.
  destruct (Z.leb_spec (c + 8) usize_max); [|ulia].
  destruct (Z.ltb_spec (blen buf) (c + 8)); [done|lia].
Qed.

Lemma within_read_bytes n : is_u32 n -> within buf P (BytesUtil.read_bytes buf n).
Proof using Hbuf HP.
  intros Hn c Hc. unfold BytesUtil.read_bytes, checked_add, isize_max in *.
  destruct (Z.leb_spec (c + n) usize_max); [|ulia].
  destruct (Z.ltb_spec (blen buf) (c + n)); [done|ulia].
Qed.

Lemma read_u32_is_u32 c v c' :
  0 <= c -> BytesUtil.read_u32 buf c = (Ok v, c') -> is_u32 v.
Proof using. intros Hc H. by apply read_u32_inv in H as (_ & _ & ? & _). Qed.

(** A length-prefixed field. *)
Lemma within_prefixed {A} (k : list byte -> M Z A) :
  (forall bs, within buf P (k bs)) ->
  within buf P (let! n := BytesUtil.read_u32 buf in
                let! bs := BytesUtil.read_bytes buf n in k bs).
Proof using Hbuf HP.
  intros Hk. eapply within_bind; [apply within_read_u32|apply read_u32_is_u32|].
  intros n Hn. eapply (within_bind _ _ (fun _ => True)); [by apply within_read_bytes|done|].
  intros bs _. apply Hk.
Qed.

Lemma within_ret {A} (a : A) : within buf P (ret a).
Proof using. by intros c Hc. Qed.

Lemma within_throw {A} e : P e -> within buf P (@throw Z A e).
Proof using. by intros He c Hc. Qed.
End within.

(** ** Failed reads leave the cursor where it was, and never panic *)

(** The outcomes a read of the storage decoders can have. *)
Definition eof_only {A} (o : outcome A) : Prop :=
  match o with
  | Ok _ => True
  | Err e => e = Io UnexpectedEof \/ e = Io InvalidDataKind
  | Panic => False
  end.

(** [c] either advances the cursor on success or fails leaving it untouched. *)
Definition cursor_safe {A} (r : M Z A) : Prop := forall c, 0 <= c ->
  let '(o, c') := r c in
  eof_only o /\ match o with Ok _ => c <= c' | _ => c' = c end.


