(* ===== verification/Crc.v ===== *)
(** * The checksum

    [crc32fast::hash] is a function of the crc32fast crate: the codecs take it
    as the operation of the class [Crc32]. Its one law is the range of its
    return type, [u32]. [crc32_ieee] is the CRC-32/IEEE function the crate
    documents; it instantiates the class in the concrete runs. *)

From Stdlib Require Import ZArith Lia Strings.Byte.
From stdpp Require Import base numbers list strings.
From S2P Require Import Prelude Bytes.

Local Open Scope Z_scope.

Class Crc32 : Type := {
  hash : list byte -> Z;
  hash_u32 : forall bs, is_u32 (hash bs)
}.

(** Eight shifts of the reflected polynomial 0xEDB88320. *)
Fixpoint crc_bits (n : nat) (crc : Z) : Z :=
  match n with
  | O => crc
  | S n => crc_bits n (if Z.testbit crc 0 then Z.lxor (Z.shiftr crc 1) 0xEDB88320
                       else Z.shiftr crc 1)
  end.

Definition crc_byte (crc : Z) (x : byte) : Z := crc_bits 8 (Z.lxor crc (u8 x)).

Definition crc32_hash (bs : list byte) : Z :=
  as_u32 (Z.lxor (foldl crc_byte 0xFFFFFFFF bs) 0xFFFFFFFF).

Lemma crc32_hash_u32 bs : is_u32 (crc32_hash bs).
Proof. apply Z.mod_pos_bound. lia. Qed.

Definition crc32_ieee : Crc32 := {| hash := crc32_hash; hash_u32 := crc32_hash_u32 |}.

(** The check value of CRC-32/IEEE. *)
Example crc32_check_value : crc32_hash (lit "123456789") = 0xCBF43926.
Proof. vm_compute. reflexivity. Qed.
