(* ===== verification/CommandFormat.v ===== *)
(** * Log records

    [Command] of src/storage/command.rs: the records of the data files, their
    encoder and their decoder. A record is
    [crc:u32][body_len:u32][body], little-endian; the checksum covers
    [body_len] and the body. *)

From Stdlib Require Import ZArith Lia Strings.Byte.
From stdpp Require Import base numbers list strings.
From S2P Require Import Prelude Bytes Crc.

Local Open Scope Z_scope.

Module Command.

Definition HEADER_LEN : Z := 8.
Definition CRC_LEN : Z := 4.

Inductive Command : Type :=
| Set_ (ts : Z) (key value : list byte)
| Rm (ts : Z) (key : list byte).

#[export] Instance Command_eq_dec : EqDecision Command.
Proof. solve_decision. Defined.

Inductive CommandType : Type := TSet | TRm.

(** The discriminants of [#[repr(u8)] enum CommandType]. *)
Definition command_type_u8 (t : CommandType) : Z :=
  match t with TSet => 0 | TRm => 1 end.

Definition try_from (value : Z) : outcome CommandType :=
  if value =? 0 then Ok TSet
  else if value =? 1 then Ok TRm
  else Err UnexpectedCommandType.

(** [body_len] takes a header of exactly [HEADER_LEN] bytes. *)
Definition body_len (header : list byte) : Z :=
  from_le (slice header CRC_LEN HEADER_LEN).

Definition get_timestamp (c : Command) : Z :=
  match c with Set_ ts _ _ => ts | Rm ts _ => ts end.

Definition get_key (c : Command) : list byte :=
  match c with Set_ _ key _ => key | Rm _ key => key end.

Definition get_value (c : Command) : option (list byte) :=
  match c with Set_ _ _ value => Some value | Rm _ _ => None end.

Definition encoded_body_len (c : Command) : Z :=
  match c with
  | Set_ _ key value => 8 + 1 + 4 + blen key + 4 + blen value
  | Rm _ key => 8 + 1 + 4 + blen key
  end.

Definition write_body (c : Command) (buf : list byte) : list byte :=
  match c with
  | Set_ ts key value =>
      let buf := buf ++ u64_to_le_bytes ts in
      let buf := buf ++ [byte_of_Z (command_type_u8 TSet)] in
      let buf := buf ++ u32_to_le_bytes (as_u32 (blen key)) in
      let buf := buf ++ key in
      let buf := buf ++ u32_to_le_bytes (as_u32 (blen value)) in
      buf ++ value
  | Rm ts key =>
      let buf := buf ++ u64_to_le_bytes ts in
      let buf := buf ++ [byte_of_Z (command_type_u8 TRm)] in
      let buf := buf ++ u32_to_le_bytes (as_u32 (blen key)) in
      buf ++ key
  end.

Section codec.
Context `{Crc : Crc32}.

Definition serialize (c : Command) : list byte :=
  let len := encoded_body_len c in
  let buf := replicate (Z.to_nat CRC_LEN) x00 in
  let buf := buf ++ u32_to_le_bytes (as_u32 len) in
  let buf := write_body c buf in
  let crc := hash (zdrop CRC_LEN buf) in
  u32_to_le_bytes crc ++ zdrop CRC_LEN buf.

(** The decoder as a program over its cursor. *)
Definition deserialize_at (buf : list byte) : M Z (Command * Z) :=
  let! stored_crc := BytesUtil.read_u32 buf in
  let! len := BytesUtil.read_u32 buf in
  if blen buf <? HEADER_LEN + len then throw (Io UnexpectedEof)
  else
    let command_end := HEADER_LEN + len in
    let actual_crc := hash (slice buf CRC_LEN command_end) in
    if negb (actual_crc =? stored_crc) then throw Corruption
    else
      let! ts := BytesUtil.read_u64 buf in
      let! ty := BytesUtil.read_u8 buf in
      let! ty := of_outcome (try_from ty) in
      let! command :=
        match ty with
        | TSet =>
            let! key_len := BytesUtil.read_u32 buf in
            let! key := BytesUtil.read_bytes buf key_len in
            let! value_len := BytesUtil.read_u32 buf in
            let! value := BytesUtil.read_bytes buf value_len in
            ret (Set_ ts key value)
        | TRm =>
            let! key_len := BytesUtil.read_u32 buf in
            let! key := BytesUtil.read_bytes buf key_len in
            ret (Rm ts key)
        end in
      let! cursor := gets (fun c => c) in
      if negb (cursor =? command_end) then throw Corruption
      else ret (command, command_end).

(** [deserialize(buf)]: the local [cursor] starts at 0. *)
Definition deserialize (buf : list byte) : outcome (Command * Z) :=
  fst (deserialize_at buf 0).

End codec.
End Command.

#[global] Arguments Command.serialize : simpl never.

Import Command.

(** ** Well-formed commands

    The timestamp is a [u64]; the body length must fit the [u32] field it is
    stored in, which is what [as u32] silently assumes. *)
Definition command_ok (c : Command) : Prop :=
  is_u64 (get_timestamp c) /\ encoded_body_len c <= u32_max.

#[export] Instance command_ok_dec c : Decision (command_ok c).
Proof. unfold command_ok, is_u64. apply _. Defined.

(** ** The layout of a record *)

Definition body (c : Command) : list byte :=
  match c with
  | Set_ ts key value =>
      u64_to_le_bytes ts ++ [byte_of_Z 0] ++ u32_to_le_bytes (as_u32 (blen key)) ++
      key ++ u32_to_le_bytes (as_u32 (blen value)) ++ value
  | Rm ts key =>
      u64_to_le_bytes ts ++ [byte_of_Z 1] ++ u32_to_le_bytes (as_u32 (blen key)) ++ key
  end.

Lemma write_body_app c buf : write_body c buf = buf ++ body c.
Proof. destruct c; simpl; by rewrite <- !app_assoc. Qed.

Lemma blen_body c : blen (body c) = encoded_body_len c.
Proof. destruct c; unfold body; autorewrite with blen; simpl; lia. Qed.

Section theorems.
Context `{Crc : Crc32}.
Implicit Types (c : Command) (buf rest : list byte).

Definition checked_part c : list byte :=
  u32_to_le_bytes (as_u32 (encoded_body_len c)) ++ body c.

Lemma serialize_eq c :
  serialize c = u32_to_le_bytes (hash (checked_part c)) ++ checked_part c.
Proof.
  unfold serialize. rewrite write_body_app, <- app_assoc.
  rewrite zdrop_app by done. done.
Qed.

Lemma blen_serialize c : blen (serialize c) = HEADER_LEN + encoded_body_len c.
Proof.
  rewrite serialize_eq. unfold checked_part. autorewrite with blen. rewrite blen_body.
  unfold HEADER_LEN. lia.
Qed.

Lemma encoded_body_len_pos c : 13 <= encoded_body_len c.
Proof. destruct c; simpl; blia. Qed.

Lemma command_ok_len c : command_ok c -> as_u32 (encoded_body_len c) = encoded_body_len c.
Proof. intros [_ H]. pose proof (encoded_body_len_pos c). apply Z.mod_small. ulia. Qed.

(** Reading the two header fields of any buffer that holds them. *)
Lemma read_header_raw crc len buf rest :
  is_u32 crc -> is_u32 len -> buf = u32_to_le_bytes crc ++ u32_to_le_bytes len ++ rest ->
  BytesUtil.read_u32 buf 0 = (Ok crc, 4) /\
  BytesUtil.read_u32 buf 4 = (Ok len, 8) /\ zdrop 8 buf = rest.
Proof.
  intros Hcrc Hlen Hbuf. assert (8 <= blen buf) by (subst; blia).
  destruct (read_u32_at buf 0 crc (u32_to_le_bytes len ++ rest))
    as [R1 E1]; [ulia..|by subst|].
  destruct (read_u32_at buf 4 len rest) as [R2 E2]; [ulia..|done|auto].
Qed.

Lemma read_header c rest :
  command_ok c ->
  BytesUtil.read_u32 (serialize c ++ rest) 0 = (Ok (hash (checked_part c)), 4) /\
  BytesUtil.read_u32 (serialize c ++ rest) 4 = (Ok (encoded_body_len c), 8) /\
  zdrop 8 (serialize c ++ rest) = body c ++ rest.
Proof.
  intros Hok. pose proof (encoded_body_len_pos c). apply read_header_raw;
    [apply hash_u32|destruct Hok; ulia|].
  rewrite serialize_eq. unfold checked_part. by rewrite command_ok_len, <- !app_assoc.
Qed.

(** Decoding a buffer that starts with the encoding of a well-formed command. *)
Lemma deserialize_serialize c rest :
  command_ok c ->
  deserialize (serialize c ++ rest) = Ok (c, blen (serialize c)).
Proof.
  intros Hok. unfold deserialize, deserialize_at.
  destruct (read_header c rest Hok) as (R1 & R2 & E). mstep R1. mstep R2. clear R1 R2.
  pose proof (blen_serialize c) as Hl. pose proof (encoded_body_len_pos c).
  set (buf := serialize c ++ rest) in *.
  assert (HEADER_LEN + encoded_body_len c <= blen buf) by (unfold buf; blia).
  rewrite (proj2 (Z.ltb_ge _ _)) by done.
  replace (slice buf CRC_LEN (HEADER_LEN + encoded_body_len c)) with (checked_part c).
  2:{ unfold buf. rewrite serialize_eq, <- app_assoc. symmetry.
      apply slice_mid; [by rewrite blen_u32_le|].
      unfold checked_part, HEADER_LEN. autorewrite with blen. rewrite blen_body. lia. }
  rewrite Z.eqb_refl. cbn [negb]. clearbody buf.
  destruct Hok as [Hts Hlen]. unfold HEADER_LEN in *.
  destruct c as [ts key value|ts key]; simpl in Hts, Hlen, Hl, H, H0;
    pose proof (blen_nonneg key); cbn [body] in E; rewrite <- !app_assoc in E; cbn [app] in E;
    (apply read_u64_at in E as [R E]; [|ulia..]); mstep R; clear R;
    (apply read_u8_at in E as [R E]; [|lia]); mstep R;
    rewrite u8_byte_of_Z, bind_outcome;
    first [progress change (try_from (0 mod 256)) with (Ok TSet)
          |progress change (try_from (1 mod 256)) with (Ok TRm)]; cbn iota.
  - pose proof (blen_nonneg value).
    apply read_prefixed_at in E as (R1 & R2 & E & ?); [|ulia..]. mstep R1. mstep R2.
    apply (read_prefixed_at _ _ value rest) in E as (R1' & R2' & E & ?); [|ulia..].
    mstep R1'. mstep R2'. unfold bind, ret, gets. cbn [encoded_body_len].
    rewrite (proj2 (Z.eqb_eq _ _)) by lia. by rewrite Hl.
  - apply (read_prefixed_at _ _ key rest) in E as (R1 & R2 & E & ?); [|ulia..].
    mstep R1. mstep R2. unfold bind, ret, gets. cbn [encoded_body_len].
    rewrite (proj2 (Z.eqb_eq _ _)) by lia. by rewrite Hl.
Qed.

(** C26. Round trip: decoding a buffer that starts with the encoding of a
    well-formed command gives that command back, and the number of bytes used
    is the length of the encoding, whatever follows it in the buffer. The code
    is uniquely decodable: a buffer starts with the encoding of one command at
    most. *)
Theorem serialize_deserialize c rest :
  command_ok c ->
  deserialize (serialize c ++ rest) = Ok (c, blen (serialize c)) /\
  (forall c' rest', command_ok c' -> serialize c ++ rest = serialize c' ++ rest' ->
     c = c' /\ rest = rest').
Proof.
  intros Hok. split; [by apply deserialize_serialize|]. intros c' rest' Hok' E.
  pose proof (deserialize_serialize c rest Hok) as H.
  rewrite E, deserialize_serialize in H by done. injection H as -> _.
  split; [done|]. by apply app_inv_head in E.
Qed.

(** Torn records: every strict prefix of a record is reported as
    [Io(UnexpectedEof)], never as [Corruption] and never as a command. *)
Theorem deserialize_truncated c n :
  command_ok c -> 0 <= n < blen (serialize c) ->
  deserialize (ztake n (serialize c)) = Err (Io UnexpectedEof).
Proof.
  intros Hok [Hn0 Hn]. pose proof (blen_serialize c) as Hl. unfold HEADER_LEN in *.
  set (buf := ztake n (serialize c)). unfold deserialize, deserialize_at.
  assert (blen buf = n) as Hb by (apply blen_ztake; lia).
  destruct (decide (n < 4)) as [|Hn4].
  { by rewrite (bind_err _ _ _ _ _ (read_u32_short buf 0 ltac:(ulia) ltac:(lia))). }
  destruct (decide (n < 8)) as [|Hn8].
  { mstep (read_u32_long buf 0 ltac:(ulia) ltac:(lia)).
    by rewrite (bind_err _ _ _ _ _ (read_u32_short buf (0 + 4) ltac:(ulia) ltac:(lia))). }
  pose proof (encoded_body_len_pos c).
  destruct (read_header_raw (hash (checked_part c)) (encoded_body_len c) buf
              (ztake (n - 8) (body c))) as (R1 & R2 & _);
    [apply hash_u32|destruct Hok; ulia| |].
  { unfold buf. rewrite serialize_eq. unfold checked_part. rewrite command_ok_len by done.
    rewrite app_assoc. unfold ztake. rewrite take_app_ge by (autorewrite with blen; lia).
    rewrite <- app_assoc. do 2 f_equal. f_equal. autorewrite with blen. lia. }
  mstep R1. mstep R2. rewrite (proj2 (Z.ltb_lt _ _)); [done|unfold HEADER_LEN; lia].
Qed.

Lemma try_from_inv v t : try_from v = Ok t -> v = command_type_u8 t.
Proof.
  unfold try_from. destruct (Z.eqb_spec v 0); [by intros [= <-]|].
  destruct (Z.eqb_spec v 1); [by intros [= <-]|done].
Qed.

(** The key and value fields, read after the timestamp and the type byte. *)
Lemma read_fields_inv buf ts ty k c s :
  0 <= k ->
  match ty with
  | TSet =>
      let! key_len := BytesUtil.read_u32 buf in
      let! key := BytesUtil.read_bytes buf key_len in
      let! value_len := BytesUtil.read_u32 buf in
      let! value := BytesUtil.read_bytes buf value_len in
      ret (Set_ ts key value)
  | TRm =>
      let! key_len := BytesUtil.read_u32 buf in
      let! key := BytesUtil.read_bytes buf key_len in
      ret (Rm ts key)
  end k = (Ok c, s) ->
  get_timestamp c = ts /\ blen (body c) = 9 + (s - k) /\
  u64_to_le_bytes ts ++ byte_of_Z (command_type_u8 ty) :: zdrop k buf = body c ++ zdrop s buf.
Proof.
  intros Hk H. destruct ty.
  - minv H. apply read_u32_inv in Hrun as (-> & ? & ? & E1); [|lia].
    minv H. apply read_bytes_inv in Hrun as (-> & ? & Hkl & E2); [|ulia..].
    minv H. apply read_u32_inv in Hrun as (-> & ? & ? & E3); [|ulia].
    minv H. apply read_bytes_inv in Hrun as (-> & ? & Hvl & E4); [|ulia..].
    injection H as <- <-. rewrite E1, E2, E3, E4. cbn [body get_timestamp].
    rewrite Hkl, Hvl. unfold as_u32. rewrite !Z.mod_small by done.
    split_and!; [done|autorewrite with blen; lia|].
    rewrite <- ?app_assoc. cbn [app]. by rewrite <- ?app_assoc.
  - minv H. apply read_u32_inv in Hrun as (-> & ? & ? & E1); [|lia].
    minv H. apply read_bytes_inv in Hrun as (-> & ? & Hkl & E2); [|ulia..].
    injection H as <- <-. rewrite E1, E2. cbn [body get_timestamp].
    rewrite Hkl. unfold as_u32. rewrite !Z.mod_small by done.
    split_and!; [done|autorewrite with blen; lia|].
    rewrite <- ?app_assoc. cbn [app]. by rewrite <- ?app_assoc.
Qed.

(** What the decoder read when it accepted: the pieces of the buffer, in order. *)
Lemma deserialize_at_inv buf c n k :
  deserialize_at buf 0 = (Ok (c, n), k) ->
  exists crc len, is_u32 crc /\ is_u32 len /\ n = 8 + len /\ n <= blen buf /\
    crc = hash (slice buf 4 n) /\
    buf = u32_to_le_bytes crc ++ u32_to_le_bytes len ++ body c ++ zdrop n buf /\
    blen (body c) = len /\ is_u64 (get_timestamp c).
Proof.
  unfold deserialize_at. intros H.
  minv H. apply read_u32_inv in Hrun as (-> & Hb1 & Hcrc & E1); [|lia].
  minv H. apply read_u32_inv in Hrun as (-> & Hb2 & Hlen & E2); [|lia].
  destruct (Z.ltb_spec (blen buf) (HEADER_LEN + a0)) as [|Hle]; [done|].
  destruct (Z.eqb_spec (hash (slice buf CRC_LEN (HEADER_LEN + a0))) a) as [Hh|]; [|done].
  cbn [negb] in H.
  minv H. apply read_u64_inv in Hrun as (-> & Hb3 & Hts & E3); [|lia].
  minv H. apply read_u8_inv in Hrun as (-> & Hb4 & Hty & E4); [|lia].
  minv H. injection Hrun as Htry <-. minv H. minv H. injection Hrun0 as <- <-.
  destruct (Z.eqb_spec s (HEADER_LEN + a0)) as [->|]; [|done]. injection H as <- <- <-.
  apply try_from_inv in Htry as ->. apply read_fields_inv in Hrun as (<- & Hbl & E5); [|lia].
  unfold HEADER_LEN, CRC_LEN in *. exists a, a0. split_and!; try done; [|lia].
  change (zdrop 0 buf) with buf in E1. rewrite E1 at 1. rewrite E2, E3, E4, E5. done.
Qed.

(** C27. The decoder accepts nothing but encodings: when [deserialize] returns a
    command and a length, the first [n] bytes of the buffer are exactly the
    encoding of that command. So two different byte strings never decode to the
    same command, and no bytes outside the record are used. *)
Theorem deserialize_canonical buf c n :
  deserialize buf = Ok (c, n) ->
  command_ok c /\ n = blen (serialize c) /\ buf = serialize c ++ zdrop n buf.
Proof.
  unfold deserialize. destruct (deserialize_at buf 0) as [o k] eqn:E. cbn. intros ->.
  apply deserialize_at_inv in E as (crc & len & Hcrc & Hlen & Hn & Hb & Hh & Hbuf & Hl & Hts).
  rewrite blen_body in Hl. assert (command_ok c) as Hok by (split; [done|ulia]).
  assert (slice buf 4 n = checked_part c) as Hs.
  { rewrite Hbuf. rewrite (app_assoc (u32_to_le_bytes len)).
    rewrite slice_mid; [unfold checked_part; by rewrite command_ok_len, Hl| |];
      autorewrite with blen; rewrite ?blen_body; lia. }
  split_and!; [done|rewrite blen_serialize; unfold HEADER_LEN; lia|].
  rewrite serialize_eq, <- Hs, <- Hh, Hs. unfold checked_part.
  rewrite command_ok_len, Hl, <- !app_assoc by done. done.
Qed.

(** The errors a record can be rejected with. *)
Definition decode_error (e : KvsError) : Prop :=
  e = Io UnexpectedEof \/ e = Corruption \/ e = UnexpectedCommandType.

Lemma within_deserialize_at buf :
  blen buf <= isize_max -> within buf decode_error (deserialize_at buf).
Proof.
  intros Hb. assert (decode_error (Io UnexpectedEof)) as He by (by left).
  unfold deserialize_at.
  eapply (within_bind _ _ _ _ (fun _ => True)); [by apply within_read_u32|done|intros crc _].
  eapply (within_bind _ _ _ _ (fun _ => True)); [by apply within_read_u32|done|intros len _].
  case_match; [by apply within_throw|]. case_match; [apply within_throw; by right; left|].
  eapply (within_bind _ _ _ _ (fun _ => True)); [by apply within_read_u64|done|intros ts _].
  eapply (within_bind _ _ _ _ (fun _ => True)); [by apply within_read_u8|done|intros v _].
  eapply (within_bind _ _ _ _ (fun _ => True)); [|done|intros ty _].
  { intros c Hc. unfold of_outcome, try_from. repeat case_match; simplify_eq; try done.
    by right; right. }
  eapply (within_bind _ _ _ _ (fun _ => True)); [|done|intros cmd _].
  { destruct ty; (apply within_prefixed; [done..|intros key]);
      [apply within_prefixed; [done..|intros value]|]; apply within_ret. }
  eapply (within_bind _ _ _ _ (fun _ => True)); [by intros c Hc|done|intros c _].
  case_match; [apply within_throw; by right; left|apply within_ret].
Qed.

(** C28. Which error is which: a buffer shorter than the record its header
    announces is [Io(UnexpectedEof)]; a complete record whose checksum does not
    match is [Corruption]; no buffer makes the decoder panic, and no other
    error comes out of it than these two and [UnexpectedCommandType]. *)
Theorem deserialize_errors buf :
  blen buf <= isize_max ->
  let len := body_len (ztake HEADER_LEN buf) in
  (blen buf < HEADER_LEN \/ blen buf < HEADER_LEN + len ->
     deserialize buf = Err (Io UnexpectedEof)) /\
  (HEADER_LEN + len <= blen buf -> HEADER_LEN <= blen buf ->
     hash (slice buf CRC_LEN (HEADER_LEN + len)) <> from_le (ztake CRC_LEN buf) ->
     deserialize buf = Err Corruption) /\
  deserialize buf <> Panic /\
  (forall e, deserialize buf = Err e -> decode_error e).
Proof.
  intros Hb len. pose proof (blen_nonneg buf) as H0.
  assert (body_len (ztake 8 buf) = from_le (slice buf 4 8)) as Hlen.
  { unfold body_len, slice, ztake, CRC_LEN, HEADER_LEN.
    change (Z.to_nat 8) with 8%nat. by rewrite skipn_firstn_comm, take_take. }
  unfold deserialize. unfold HEADER_LEN, CRC_LEN in *. split_and!.
  - intros Hshort. unfold deserialize_at.
    destruct (decide (blen buf < 4)) as [|H4].
    { by rewrite (bind_err _ _ _ _ _ (read_u32_short buf 0 ltac:(ulia) ltac:(lia))). }
    mstep (read_u32_long buf 0 ltac:(ulia) ltac:(lia)).
    destruct (decide (blen buf < 8)) as [|H8].
    { by rewrite (bind_err _ _ _ _ _ (read_u32_short buf (0 + 4) ltac:(ulia) ltac:(lia))). }
    mstep (read_u32_long buf (0 + 4) ltac:(ulia) ltac:(lia)).
    change (0 + 4 + 4) with 8. change (0 + 4) with 4. rewrite <- Hlen.
    rewrite (proj2 (Z.ltb_lt _ _)); [done|]. unfold len, HEADER_LEN in *. lia.
  - intros Hfull H8 Hcrc. unfold deserialize_at.
    mstep (read_u32_long buf 0 ltac:(ulia) ltac:(lia)).
    mstep (read_u32_long buf (0 + 4) ltac:(ulia) ltac:(lia)).
    change (0 + 4 + 4) with 8. change (0 + 4) with 4. rewrite <- Hlen. fold len.
    rewrite (proj2 (Z.ltb_ge _ _)) by done.
    rewrite (proj2 (Z.eqb_neq _ _)); [done|]. unfold slice at 2. rewrite drop_0. exact Hcrc.
  - pose proof (within_deserialize_at buf Hb 0 ltac:(lia)) as Hw.
    by destruct (deserialize_at buf 0) as [[]].
  - intros e He. pose proof (within_deserialize_at buf Hb 0 ltac:(lia)) as Hw.
    destruct (deserialize_at buf 0) as [[]]; cbn in He; by simplify_eq.
Qed.
End theorems.

(** ** Concrete runs, with the checksum of CRC-32/IEEE *)

Definition sample_set : Command := Set_ 42 (lit "key1") (lit "value1").

Lemma serialize_deserialize_witness :
  deserialize (Crc := crc32_ieee) (serialize (Crc := crc32_ieee) sample_set ++ lit "tail")
  = Ok (sample_set, blen (serialize (Crc := crc32_ieee) sample_set)).
Proof. apply (serialize_deserialize (Crc := crc32_ieee) sample_set (lit "tail")).
  vm_compute. intuition discriminate. Defined.

Lemma deserialize_truncated_witness :
  deserialize (Crc := crc32_ieee) (ztake 30 (serialize (Crc := crc32_ieee) sample_set))
  = Err (Io UnexpectedEof).
Proof.
  apply (deserialize_truncated (Crc := crc32_ieee) sample_set 30);
    vm_compute; intuition discriminate.
Defined.

Lemma deserialize_canonical_witness :
  command_ok sample_set /\
  35 = blen (serialize (Crc := crc32_ieee) sample_set) /\
  serialize (Crc := crc32_ieee) sample_set
  = serialize (Crc := crc32_ieee) sample_set ++ zdrop 35 (serialize (Crc := crc32_ieee) sample_set).
Proof.
  apply (deserialize_canonical (Crc := crc32_ieee) (serialize (Crc := crc32_ieee) sample_set)).
  vm_compute. reflexivity.
Defined.

Lemma deserialize_errors_witness :
  deserialize (Crc := crc32_ieee)
    (x00 :: zdrop 1 (serialize (Crc := crc32_ieee) sample_set)) = Err Corruption.
Proof.
  apply (deserialize_errors (Crc := crc32_ieee)); vm_compute; intuition discriminate.
Defined.
