(* ===== verification/HintFormat.v ===== *)
(** * Hint records

    [IndexValue] of src/storage/index_value.rs: the value of the in-memory
    index and the record of the hint files,
    [crc:u32][body_len:u32][key_len:u32][key][ts:u64][offset:u64][len:u64].
    The file id is not stored; the reader supplies it. *)

From Stdlib Require Import ZArith Lia Strings.Byte.
From stdpp Require Import base numbers list strings.
From S2P Require Import Prelude Bytes Crc.

Local Open Scope Z_scope.

Module IndexValue.

Definition CRC_LEN : Z := 4.
Definition BODY_LEN_LEN : Z := 4.
Definition KEY_LEN_LEN : Z := 4.
Definition INDEX_VALUE_LEN : Z := 24.
Definition HEADER_LEN : Z := CRC_LEN + BODY_LEN_LEN.

Record IndexValue : Type := {
  file_id : Z;
  ts : Z;
  offset : Z;
  len : Z
}.

#[export] Instance IndexValue_eq_dec : EqDecision IndexValue.
Proof. solve_decision. Defined.

Section codec.
Context `{Crc : Crc32}.

Definition serialize (self : IndexValue) (key : list byte) : list byte :=
  let body_len := KEY_LEN_LEN + blen key + INDEX_VALUE_LEN in
  let buf := replicate (Z.to_nat CRC_LEN) x00 in
  let buf := buf ++ u32_to_le_bytes (as_u32 body_len) in
  let buf := buf ++ u32_to_le_bytes (as_u32 (blen key)) in
  let buf := buf ++ key in
  let buf := buf ++ u64_to_le_bytes (ts self) in
  let buf := buf ++ u64_to_le_bytes (offset self) in
  let buf := buf ++ u64_to_le_bytes (as_u64 (len self)) in
  let crc := hash (zdrop CRC_LEN buf) in
  u32_to_le_bytes crc ++ zdrop CRC_LEN buf.

Definition deserialize_at (buf : list byte) (id : Z) : M Z (list byte * IndexValue * Z) :=
  let! stored_crc := BytesUtil.read_u32 buf in
  let! body_len := BytesUtil.read_u32 buf in
  if blen buf <? HEADER_LEN + body_len then throw (Io UnexpectedEof)
  else
    let record_end := HEADER_LEN + body_len in
    let actual_crc := hash (slice buf CRC_LEN record_end) in
    if negb (actual_crc =? stored_crc) then throw Corruption
    else
      let! key_len := BytesUtil.read_u32 buf in
      let! key := BytesUtil.read_bytes buf key_len in
      let! t := BytesUtil.read_u64 buf in
      let! o := BytesUtil.read_u64 buf in
      let! l := BytesUtil.read_u64 buf in
      (* usize::try_from(len) *)
      if usize_max <? l then throw Corruption
      else
        let! cursor := gets (fun c => c) in
        if negb (cursor =? record_end) then throw Corruption
        else ret (key, {| file_id := id; ts := t; offset := o; len := l |}, record_end).

Definition deserialize (buf : list byte) (id : Z) : outcome (list byte * IndexValue * Z) :=
  fst (deserialize_at buf id 0).

End codec.
End IndexValue.

#[global] Arguments IndexValue.serialize : simpl never.

Import IndexValue.

(** Well-formed index values and keys: every field in its machine range, and a
    key short enough for the [u32] length fields. *)
Definition index_value_ok (key : list byte) (v : IndexValue) : Prop :=
  is_u64 (ts v) /\ is_u64 (offset v) /\ is_u64 (len v) /\ blen key + 28 <= u32_max.

#[export] Instance index_value_ok_dec key v : Decision (index_value_ok key v).
Proof. unfold index_value_ok, is_u64. apply _. Defined.

(** ** The layout of a hint record *)

Definition hint_body (key : list byte) (v : IndexValue) : list byte :=
  u32_to_le_bytes (as_u32 (blen key)) ++ key ++
  u64_to_le_bytes (ts v) ++ u64_to_le_bytes (offset v) ++ u64_to_le_bytes (as_u64 (len v)).

Lemma blen_hint_body key v : blen (hint_body key v) = blen key + 28.
Proof. unfold hint_body. autorewrite with blen. lia. Qed.

Section theorems.
Context `{Crc : Crc32}.
Implicit Types (v : IndexValue) (key buf rest : list byte).

Definition hint_checked key v : list byte :=
  u32_to_le_bytes (as_u32 (blen key + 28)) ++ hint_body key v.

Lemma hint_serialize_eq v key :
  serialize v key = u32_to_le_bytes (hash (hint_checked key v)) ++ hint_checked key v.
Proof.
  unfold serialize, hint_checked, hint_body, KEY_LEN_LEN, INDEX_VALUE_LEN.
  rewrite <- !app_assoc. rewrite !zdrop_app by done.
  by replace (4 + blen key + 24) with (blen key + 28) by lia.
Qed.

Lemma blen_hint_serialize v key : blen (serialize v key) = blen key + 36.
Proof.
  rewrite hint_serialize_eq. unfold hint_checked. autorewrite with blen.
  rewrite blen_hint_body. lia.
Qed.

Lemma hint_len_field key v :
  index_value_ok key v -> as_u32 (blen key + 28) = blen key + 28.
Proof. intros (_ & _ & _ & ?). pose proof (blen_nonneg key). apply Z.mod_small. ulia. Qed.

Lemma hint_deserialize_serialize v key id rest :
  index_value_ok key v ->
  deserialize (serialize v key ++ rest) id =
  Ok (key, {| file_id := id; ts := ts v; offset := offset v; len := len v |},
      blen (serialize v key)).
Proof.
  intros Hok. pose proof (hint_len_field _ _ Hok) as Hlf. destruct Hok as (Ht & Ho & Hl & Hk).
  pose proof (blen_hint_serialize v key) as Hs. pose proof (blen_nonneg key).
  unfold deserialize, deserialize_at.
  set (buf := serialize v key ++ rest).
  assert (blen key + 36 <= blen buf) by (unfold buf; blia).
  assert (buf = u32_to_le_bytes (hash (hint_checked key v)) ++
                u32_to_le_bytes (blen key + 28) ++ hint_body key v ++ rest) as E.
  { unfold buf. rewrite hint_serialize_eq. unfold hint_checked at 2.
    by rewrite Hlf, <- !app_assoc. }
  assert (slice buf CRC_LEN (HEADER_LEN + (blen key + 28)) = hint_checked key v) as Hsl.
  { rewrite E, (app_assoc (u32_to_le_bytes (blen key + 28))). unfold HEADER_LEN, CRC_LEN, BODY_LEN_LEN.
    rewrite slice_mid; [unfold hint_checked; by rewrite Hlf| |];
      autorewrite with blen; rewrite ?blen_hint_body; lia. }
  clearbody buf. change buf with (zdrop 0 buf) in E.
  apply read_u32_at in E as [R E]; [|ulia|ulia|apply hash_u32]. mstep R. clear R.
  apply read_u32_at in E as [R E]; [|ulia..]. mstep R. clear R.
  rewrite Hsl, (proj2 (Z.ltb_ge _ _)) by (unfold HEADER_LEN, CRC_LEN, BODY_LEN_LEN; lia).
  rewrite Z.eqb_refl. cbn [negb]. unfold hint_body in E. rewrite <- !app_assoc in E.
  apply read_prefixed_at in E as (R1 & R2 & E & ?); [|ulia..]. mstep R1. mstep R2.
  apply read_u64_at in E as [R E]; [|ulia..]. mstep R. clear R.
  apply read_u64_at in E as [R E]; [|ulia..]. mstep R. clear R.
  unfold as_u64 in E. rewrite Z.mod_small in E by done.
  apply read_u64_at in E as [R E]; [|ulia..]. mstep R. clear R.
  rewrite (proj2 (Z.ltb_ge _ _)) by ulia. unfold bind, gets, ret.
  rewrite (proj2 (Z.eqb_eq _ _)) by (unfold HEADER_LEN, CRC_LEN, BODY_LEN_LEN; lia).
  rewrite Hs. cbn [negb fst]. do 2 f_equal. unfold HEADER_LEN, CRC_LEN, BODY_LEN_LEN. lia.
Qed.

(** C29. Round trip of the hint records: reading back the record written for a
    key gives the key, the index value with the file id supplied by the reader,
    and the length of the record, whatever follows it. So a hint file can be
    read in one way only. *)
Theorem hint_roundtrip v key id rest :
  index_value_ok key v ->
  deserialize (serialize v key ++ rest) id =
  Ok (key, {| file_id := id; ts := ts v; offset := offset v; len := len v |},
      blen (serialize v key)) /\
  (forall v' key' rest', index_value_ok key' v' ->
     serialize v key ++ rest = serialize v' key' ++ rest' ->
     key = key' /\ ts v = ts v' /\ offset v = offset v' /\ len v = len v' /\ rest = rest').
Proof.
  intros Hok. pose proof (hint_deserialize_serialize v key id rest Hok) as H.
  split; [done|]. intros v' key' rest' Hok' E.
  rewrite E, hint_deserialize_serialize in H by done. injection H as -> Ht Ho Hl _.
  split_and!; try done. apply (f_equal (zdrop (blen (serialize v key)))) in E.
  rewrite !zdrop_app in E by by rewrite !blen_hint_serialize. done.
Qed.

(** The errors a hint record can be rejected with. *)
Definition hint_error (e : KvsError) : Prop := e = Io UnexpectedEof \/ e = Corruption.

(** Decoding any bytes of a hint file ends with a value, [UnexpectedEof] or
    [Corruption]; it never panics. *)
Theorem hint_deserialize_total buf id :
  blen buf <= isize_max ->
  deserialize buf id <> Panic /\ (forall e, deserialize buf id = Err e -> hint_error e).
Proof.
  intros Hb. assert (hint_error (Io UnexpectedEof)) as He by (by left).
  assert (hint_error Corruption) as Hc by (by right).
  assert (within buf hint_error (deserialize_at buf id)) as Hw.
  { unfold deserialize_at.
    eapply (within_bind _ _ _ _ (fun _ => True)); [by apply within_read_u32|done|intros crc _].
    eapply (within_bind _ _ _ _ (fun _ => True)); [by apply within_read_u32|done|intros l _].
    case_match; [by apply within_throw|]. case_match; [by apply within_throw|].
    apply within_prefixed; [done..|intros key].
    eapply (within_bind _ _ _ _ (fun _ => True)); [by apply within_read_u64|done|intros t _].
    eapply (within_bind _ _ _ _ (fun _ => True)); [by apply within_read_u64|done|intros o _].
    eapply (within_bind _ _ _ _ (fun _ => True)); [by apply within_read_u64|done|intros n _].
    case_match; [by apply within_throw|].
    eapply (within_bind _ _ _ _ (fun _ => True)); [by intros c Hcc|done|intros c _].
    case_match; [by apply within_throw|by apply within_ret]. }
  pose proof (blen_nonneg buf). specialize (Hw 0 ltac:(lia)). unfold deserialize.
  destruct (deserialize_at buf id 0) as [[]]; cbn; split; try done; by intros ? [= <-].
Qed.
End theorems.

Definition sample_hint : IndexValue :=
  {| file_id := 7; ts := u64_max; offset := 4096; len := 123 |}.

Lemma hint_roundtrip_witness :
  deserialize (Crc := crc32_ieee)
    (serialize (Crc := crc32_ieee) sample_hint (lit "key1") ++ lit "x") 42
  = Ok (lit "key1", {| file_id := 42; ts := u64_max; offset := 4096; len := 123 |}, 40).
Proof.
  apply (hint_roundtrip (Crc := crc32_ieee) sample_hint (lit "key1") 42 (lit "x")).
  vm_compute. intuition discriminate.
Defined.

Lemma hint_deserialize_total_witness :
  deserialize (Crc := crc32_ieee) (lit "this is not a hint record") 1 <> Panic.
Proof.
  apply (hint_deserialize_total (Crc := crc32_ieee)). vm_compute. discriminate.
Defined.
