(* ===== verification/Streams.v ===== *)
(** * Byte streams

    What the code uses of [std::io::Read] and [std::io::BufRead]. A stream is
    the bytes it still delivers and how it ends: with end-of-file, or with an
    I/O error. [read_exact] retries short reads, so the chunks the operating
    system delivers do not show. *)

From Stdlib Require Import ZArith Lia Strings.Byte.
From stdpp Require Import base numbers list strings.
From S2P Require Import Prelude Bytes.

Local Open Scope Z_scope.

Record Stream : Type := {
  avail : list byte;
  fault : option ErrorKind
}.

(** A stream of these bytes that ends with end-of-file. *)
Definition cursor_over (bs : list byte) : Stream := {| avail := bs; fault := None |}.

(** [reader.read_exact(&mut buf)] for a buffer of [n] bytes. *)
Definition read_exact (n : Z) : M Stream (list byte) := fun s =>
  if n <=? blen (avail s)
  then (Ok (ztake n (avail s)), {| avail := zdrop n (avail s); fault := fault s |})
  else (Err (Io (default UnexpectedEof (fault s))), {| avail := []; fault := fault s |}).

(** [reader.read_until(delim, &mut out)]: everything up to and including the
    first [delim], or everything when there is none. *)
Fixpoint split_until (delim : byte) (bs : list byte) : list byte * list byte :=
  match bs with
  | [] => ([], [])
  | x :: bs' =>
      if decide (x = delim) then ([x], bs')
      else let (l, r) := split_until delim bs' in (x :: l, r)
  end.

Definition read_until (delim : byte) : M Stream (list byte) := fun s =>
  let (line, rest) := split_until delim (avail s) in
  if decide (delim ∈ avail s)
  then (Ok line, {| avail := rest; fault := fault s |})
  else match fault s with
       | None => (Ok line, {| avail := []; fault := None |})
       | Some k => (Err (Io k), {| avail := []; fault := Some k |})
       end.

(** ** Lemmas *)

Lemma read_exact_app bs rest n f :
  n = blen bs ->
  read_exact n {| avail := bs ++ rest; fault := f |} = (Ok bs, {| avail := rest; fault := f |}).
Proof.
  intros ->. unfold read_exact. cbn [avail fault].
  rewrite (proj2 (Z.leb_le _ _)) by (rewrite blen_app; pose proof (blen_nonneg rest); lia).
  by rewrite ztake_app, zdrop_app.
Qed.

Lemma read_exact_short n s :
  blen (avail s) < n ->
  read_exact n s = (Err (Io (default UnexpectedEof (fault s))), {| avail := []; fault := fault s |}).
Proof. intros. unfold read_exact. by rewrite (proj2 (Z.leb_gt _ _)). Qed.

Lemma read_exact_long n s :
  n <= blen (avail s) ->
  read_exact n s = (Ok (ztake n (avail s)), {| avail := zdrop n (avail s); fault := fault s |}).
Proof. intros. unfold read_exact. by rewrite (proj2 (Z.leb_le _ _)). Qed.

Lemma split_until_app d line rest :
  d ∉ line -> split_until d (line ++ d :: rest) = (line ++ [d], rest).
Proof.
  induction line as [|x line IH]; intros Hd; cbn [app split_until].
  - by rewrite decide_True.
  - apply not_elem_of_cons in Hd as [Hx Hd].
    rewrite decide_False by congruence. by rewrite IH.
Qed.

Lemma split_until_eq d bs l r : split_until d bs = (l, r) -> bs = l ++ r.
Proof.
  revert l r. induction bs as [|x bs IH]; intros l r; cbn [split_until]; [by intros [= <- <-]|].
  case_decide; [by intros [= <- <-]|].
  destruct (split_until d bs) as [l' r'] eqn:E. intros [= <- <-]. by rewrite (IH _ _ eq_refl).
Qed.
