(* ===== verification/Reader.v ===== *)
(** * Reading records from a file

    [RecordReader] of src/storage/record_reader.rs: the scanner that replay,
    hint loading and the merge all iterate. It frames records by their length
    field and tells a clean end of file from a torn tail; it does not look at
    the checksum. *)

From Stdlib Require Import ZArith Lia Strings.Byte.
From stdpp Require Import base numbers list strings.
From S2P Require Import Prelude Bytes Crc CommandFormat HintFormat Streams.

Local Open Scope Z_scope.

Module RecordReader.

Inductive RecordRead : Type :=
| Record_ (position : Z) (bytes : list byte)
| CleanEof
| TornTail (position : Z).

#[export] Instance RecordRead_eq_dec : EqDecision RecordRead.
Proof. solve_decision. Defined.

Record RecordReader : Type := {
  reader : Stream;
  position : Z;
  file_len : Z;
  buf : list byte
}.

Definition new (r : Stream) (len : Z) : RecordReader :=
  {| reader := r; position := 0; file_len := len; buf := [] |}.

(** [self.reader.read_exact(..)], run on the reader's stream. *)
Definition on_reader {A} (c : M Stream A) : M RecordReader A := fun self =>
  let (o, r) := c (reader self) in
  (o, {| reader := r; position := position self; file_len := file_len self; buf := buf self |}).

Definition HEADER_LEN : Z := Command.HEADER_LEN.

Definition next_record : M RecordReader RecordRead :=
  let! start := gets position in
  let! len := gets file_len in
  mcatch (on_reader (read_exact HEADER_LEN))
    (fun header =>
       let body_len := Command.body_len header in
       let! r := of_outcome (u64_sub len start) in
       let! remaining := of_outcome (u64_sub r HEADER_LEN) in
       if remaining <? body_len then ret (TornTail start)
       else
         mcatch (on_reader (read_exact body_len))
           (fun body =>
              modify (fun self => {| reader := reader self;
                                     position := start + HEADER_LEN + body_len;
                                     file_len := file_len self;
                                     buf := header ++ body |}) ;;!
              ret (Record_ start (header ++ body)))
           (fun e => if decide (e = Io UnexpectedEof) then ret (TornTail start) else throw e))
    (fun e => if decide (e = Io UnexpectedEof)
              then if start =? len then ret CleanEof else ret (TornTail start)
              else throw e).

End RecordReader.

Import RecordReader.

(** ** Framing

    A framed record announces its own length: that is all the scanner uses. *)
Definition framed (rec : list byte) : Prop :=
  HEADER_LEN <= blen rec /\ Command.body_len (ztake HEADER_LEN rec) = blen rec - HEADER_LEN.

(** The bytes left in a file from the last record boundary on: a header that is
    not complete, or a length field that runs past the end. *)
Definition torn (tail : list byte) : Prop :=
  tail <> [] /\
  (blen tail < HEADER_LEN \/ blen tail - HEADER_LEN < Command.body_len (ztake HEADER_LEN tail)).

#[export] Instance framed_dec rec : Decision (framed rec).
Proof. unfold framed. apply _. Defined.

#[export] Instance torn_dec tail : Decision (torn tail).
Proof. unfold torn. apply _. Defined.

Lemma body_len_app l1 l2 : HEADER_LEN <= blen l1 ->
  Command.body_len (ztake HEADER_LEN (l1 ++ l2)) = Command.body_len (ztake HEADER_LEN l1).
Proof.
  intros H. unfold ztake. rewrite take_app_le; [done|].
  unfold blen, HEADER_LEN, Command.HEADER_LEN in *. lia.
Qed.

Lemma body_len_header crc len rest :
  is_u32 len ->
  Command.body_len (ztake HEADER_LEN (u32_to_le_bytes crc ++ u32_to_le_bytes len ++ rest)) = len.
Proof.
  intros Hl. rewrite app_assoc, body_len_app by (unfold HEADER_LEN, Command.HEADER_LEN; blia).
  unfold Command.body_len, Command.CRC_LEN, HEADER_LEN, Command.HEADER_LEN.
  unfold ztake. rewrite take_ge by (autorewrite with blen; lia).
  rewrite <- (app_nil_r (_ ++ _)), <- app_assoc.
  rewrite slice_mid by (autorewrite with blen; lia). by rewrite from_le_u32.
Qed.

Lemma framed_command `{Crc : Crc32} c : command_ok c -> framed (Command.serialize c).
Proof.
  intros Hok. pose proof (blen_serialize c) as Hl. pose proof (encoded_body_len_pos c).
  unfold framed, HEADER_LEN. split; [unfold Command.HEADER_LEN in *; lia|].
  rewrite serialize_eq in *. unfold checked_part in *. rewrite command_ok_len in * by done.
  rewrite body_len_header by (destruct Hok; ulia). rewrite Hl. lia.
Qed.

Lemma framed_hint `{Crc : Crc32} v key :
  index_value_ok key v -> framed (IndexValue.serialize v key).
Proof.
  intros Hok. pose proof (blen_hint_serialize v key) as Hl.
  pose proof (hint_len_field _ _ Hok) as Hf. pose proof (blen_nonneg key).
  unfold framed. split; [unfold HEADER_LEN, Command.HEADER_LEN in *; lia|].
  rewrite hint_serialize_eq in *. unfold hint_checked in *. rewrite Hf in *.
  rewrite body_len_header by (destruct Hok as (_ & _ & _ & ?); ulia).
  rewrite Hl. unfold HEADER_LEN, Command.HEADER_LEN. lia.
Qed.

(** ** One step of the scanner *)

Section step.
Context (data : list byte) (len : Z) (b : list byte).

(** The scanner state after the first [p] bytes of [data] were consumed. *)
Definition at_pos (p : Z) (b : list byte) : RecordReader :=
  {| reader := cursor_over (zdrop p data); position := p; file_len := blen data; buf := b |}.

Lemma next_record_framed p rec rest :
  0 <= p <= blen data -> framed rec -> zdrop p data = rec ++ rest ->
  next_record (at_pos p b) = (Ok (Record_ p rec), at_pos (p + blen rec) rec) /\
  zdrop (p + blen rec) data = rest /\ p + blen rec <= blen data.
Proof using.
  intros Hp [Hh Hbl] E. destruct (zdrop_prefix _ _ _ _ Hp E) as (Hle & _ & Hd).
  split; [|done]. rewrite <- Hd in E. clear Hd rest.
  unfold HEADER_LEN, Command.HEADER_LEN in *.
  assert (rec = ztake 8 rec ++ zdrop 8 rec) as Hrec by (symmetry; apply take_drop).
  assert (blen (ztake 8 rec) = 8) as H8 by (apply blen_ztake; lia).
  assert (blen (zdrop 8 rec) = blen rec - 8) as H8' by (apply blen_zdrop; lia).
  unfold next_record, at_pos at 1, bind at 1 2, gets, mcatch at 1, on_reader at 1, cursor_over.
  cbn [reader position file_len buf].
  rewrite E, Hrec, <- app_assoc, read_exact_app by done. unfold bind, of_outcome. rewrite Hbl.
  unfold u64_sub, HEADER_LEN, Command.HEADER_LEN.
  rewrite (proj2 (Z.leb_le p _)), (proj2 (Z.leb_le 8 _)), (proj2 (Z.ltb_ge _ _)) by lia.
  unfold mcatch, on_reader. cbn [reader position file_len buf].
  rewrite read_exact_app by lia. rewrite <- Hrec. unfold modify, ret, at_pos, cursor_over. cbn.
  by replace (p + 8 + (blen rec - 8)) with (p + blen rec) by lia.
Qed.

Lemma next_record_clean :
  next_record (at_pos (blen data) b) = (Ok CleanEof, at_pos (blen data) b).
Proof using.
  unfold next_record, at_pos, bind, gets, mcatch, on_reader, cursor_over.
  cbn [reader position file_len buf].
  assert (zdrop (blen data) data = []) as -> by (apply blen_0_nil; rewrite blen_zdrop; blia).
  rewrite read_exact_short by done. cbn. by rewrite Z.eqb_refl.
Qed.

Lemma next_record_torn p :
  0 <= p <= blen data -> torn (zdrop p data) ->
  exists s', next_record (at_pos p b) = (Ok (TornTail p), s').
Proof using.
  intros Hp [Hne Ht]. pose proof (blen_zdrop p data Hp) as Hl.
  assert (p <> blen data) as Hnp by (intros ->; apply Hne, blen_0_nil; lia).
  unfold next_record, at_pos, bind at 1 2, gets, mcatch at 1, on_reader at 1, cursor_over.
  cbn [reader position file_len buf]. unfold HEADER_LEN, Command.HEADER_LEN in *.
  destruct (Z.ltb_spec (blen (zdrop p data)) 8).
  { rewrite read_exact_short by done. cbn. rewrite (proj2 (Z.eqb_neq _ _)) by done. by eauto. }
  destruct Ht as [|Ht]; [lia|]. rewrite read_exact_long by done. cbn [avail].
  unfold bind, of_outcome, u64_sub. rewrite (proj2 (Z.leb_le p _)), (proj2 (Z.leb_le 8 _)) by lia.
  rewrite (proj2 (Z.ltb_lt _ _)) by lia. by eauto.
Qed.
End step.

(** ** Every file is a sequence of framed records and an end *)

Lemma frame_or_torn (l : list byte) :
  l = [] \/ torn l \/ exists rec rest, l = rec ++ rest /\ framed rec.
Proof.
  destruct (decide (l = [])) as [|Hne]; [by left|right].
  destruct (decide (torn l)) as [|Ht]; [by left|right].
  assert (HEADER_LEN <= blen l /\
          Command.body_len (ztake HEADER_LEN l) <= blen l - HEADER_LEN) as [Hh Hb].
  { destruct (Z.le_gt_cases HEADER_LEN (blen l)); [|exfalso; apply Ht; by split; [|left]].
    split; [done|]. destruct (Z.le_gt_cases (Command.body_len (ztake HEADER_LEN l))
      (blen l - HEADER_LEN)); [done|]. exfalso. apply Ht. by split; [|right]. }
  set (n := Command.body_len (ztake HEADER_LEN l)) in *.
  assert (0 <= n) as Hn by (apply from_le_range).
  assert (0 <= HEADER_LEN) as H0 by done.
  exists (ztake (HEADER_LEN + n) l), (zdrop (HEADER_LEN + n) l).
  split; [symmetry; apply take_drop|]. unfold framed.
  rewrite blen_ztake by lia. split; [lia|].
  replace (ztake HEADER_LEN (ztake (HEADER_LEN + n) l)) with (ztake HEADER_LEN l); [fold n; lia|].
  unfold ztake. rewrite take_take. f_equal. lia.
Qed.

(** One step of the scanner, at any record boundary of any file: it returns
    the framed record that starts there with its position and moves past it, or
    it is at the clean end of the file, or the rest of the file is torn. It
    neither fails nor panics, and the bytes of a record are the bytes of the
    file at its position. *)
Theorem next_record_spec data p b :
  0 <= p <= blen data ->
  match next_record (at_pos data p b) with
  | (Ok (Record_ q rec), s) =>
      q = p /\ framed rec /\ p + blen rec <= blen data /\
      rec = slice data p (p + blen rec) /\ s = at_pos data (p + blen rec) rec
  | (Ok CleanEof, _) => p = blen data
  | (Ok (TornTail q), _) => q = p /\ torn (zdrop p data)
  | (Err _, _) | (Panic, _) => False
  end.
Proof.
  intros Hp. pose proof (blen_zdrop p data Hp) as Hl.
  destruct (frame_or_torn (zdrop p data)) as [E|[Ht|(rec & rest & E & Hf)]].
  - rewrite E in Hl. assert (p = blen data) as -> by (unfold blen in *; simpl in *; lia).
    by rewrite next_record_clean.
  - by destruct (next_record_torn data b p Hp Ht) as [s ->].
  - destruct (next_record_framed data b p rec rest Hp Hf E) as (-> & _ & ?).
    by destruct (zdrop_prefix _ _ _ _ Hp E) as (_ & -> & _).
Qed.

(** The positions of records laid out from [p] on. *)
Fixpoint layout (p : Z) (recs : list (list byte)) : list (Z * list byte) :=
  match recs with
  | [] => []
  | r :: recs => (p, r) :: layout (p + blen r) recs
  end.

(** The loop all readers of a file are: [next_record] until it stops. *)
Fixpoint scan (fuel : nat) : M RecordReader (list (Z * list byte) * RecordRead) :=
  match fuel with
  | O => panic
  | S fuel =>
      let! r := next_record in
      match r with
      | Record_ p bytes => let! res := scan fuel in ret ((p, bytes) :: fst res, snd res)
      | CleanEof => ret ([], CleanEof)
      | TornTail p => ret ([], TornTail p)
      end
  end.

Lemma scan_records data b recs tail p fuel :
  0 <= p <= blen data -> zdrop p data = concat recs ++ tail -> Forall framed recs ->
  (length recs < fuel)%nat -> tail = [] \/ torn tail ->
  exists s, scan fuel (at_pos data p b) =
    (Ok (layout p recs, if decide (tail = []) then CleanEof
                        else TornTail (p + blen (concat recs))), s).
Proof.
  revert b p fuel. induction recs as [|rec recs IH]; intros b p fuel Hp E Hf Hfuel Ht;
    (destruct fuel as [|fuel]; [simpl in Hfuel; lia|]); cbn [scan].
  - cbn [concat app] in E. destruct (decide (tail = [])) as [->|Hne].
    + assert (p = blen data) as ->.
      { pose proof (blen_zdrop p data Hp) as Hl. rewrite E in Hl. unfold blen in *; simpl in *; lia. }
      mstep (next_record_clean data b). by eauto.
    + destruct Ht as [|Ht]; [done|]. rewrite <- E in Ht.
      destruct (next_record_torn data b p Hp Ht) as [s H]. mstep H.
      unfold ret. rewrite Z.add_0_r. by eauto.
  - apply Forall_cons in Hf as [Hrec Hf]. cbn [concat] in E. rewrite <- app_assoc in E.
    destruct (next_record_framed data b p rec (concat recs ++ tail) Hp Hrec E) as (H & E' & Hle).
    mstep H. pose proof (blen_nonneg rec).
    destruct (IH rec (p + blen rec) fuel ltac:(lia) E' Hf ltac:(simpl in *; lia) Ht) as [s Hs].
    mstep Hs. cbn [layout fst snd]. unfold ret. eexists.
    cbn [concat]. rewrite blen_app. by rewrite Z.add_assoc.
Qed.

Lemma framed_nonempty rec : framed rec -> (8 <= length rec)%nat.
Proof. intros [H _]. unfold HEADER_LEN, Command.HEADER_LEN, blen in H. lia. Qed.

Lemma concat_framed_length recs :
  Forall framed recs -> (length recs <= length (concat recs))%nat.
Proof.
  induction 1 as [|r recs Hr _ IH]; [done|]. apply framed_nonempty in Hr.
  cbn [concat length]. rewrite length_app. lia.
Qed.

(** A whole file: iterating the scanner over [n] framed records followed by
    an end that is clean or torn returns exactly these records with their
    positions, then the right kind of end. The loop needs no more steps than
    the file has bytes. *)
Theorem scan_file data recs tail :
  data = concat recs ++ tail -> Forall framed recs -> tail = [] \/ torn tail ->
  exists s, scan (S (length data)) (new (cursor_over data) (blen data)) =
    (Ok (layout 0 recs, if decide (tail = []) then CleanEof
                        else TornTail (blen (concat recs))), s).
Proof.
  intros -> Hf Ht. pose proof (concat_framed_length recs Hf).
  destruct (scan_records (concat recs ++ tail) [] recs tail 0
    (S (length (concat recs ++ tail)))) as [s Hs]; eauto; [blia|rewrite length_app; lia].
Qed.

(** Two records and a torn third one, as an interrupted append leaves them. *)
Definition torn_file : list byte :=
  Command.serialize (Crc := crc32_ieee) (Command.Set_ 1 (lit "alpha") (lit "beta")) ++
  Command.serialize (Crc := crc32_ieee) (Command.Rm 2 (lit "alpha")) ++ [x12; x00; x00].

Lemma next_record_spec_witness :
  next_record (at_pos torn_file 0 []) =
  (Ok (Record_ 0 (ztake 34 torn_file)), at_pos torn_file 34 (ztake 34 torn_file)) /\
  framed (ztake 34 torn_file).
Proof.
  assert (0 <= 0 <= blen torn_file) as H by (vm_compute; intuition discriminate).
  pose proof (next_record_spec torn_file 0 [] H) as Hs.
  assert (next_record (at_pos torn_file 0 []) =
    (Ok (Record_ 0 (ztake 34 torn_file)), at_pos torn_file 34 (ztake 34 torn_file))) as E
    by (vm_compute; reflexivity).
  rewrite E in Hs. split; [exact E|apply Hs].
Defined.

Lemma scan_file_witness :
  exists s, scan (S (length torn_file)) (new (cursor_over torn_file) (blen torn_file)) =
    (Ok ([(0, Command.serialize (Crc := crc32_ieee) (Command.Set_ 1 (lit "alpha") (lit "beta")));
          (34, Command.serialize (Crc := crc32_ieee) (Command.Rm 2 (lit "alpha")))],
         TornTail 60), s).
Proof.
  apply (scan_file torn_file
    [Command.serialize (Crc := crc32_ieee) (Command.Set_ 1 (lit "alpha") (lit "beta"));
     Command.serialize (Crc := crc32_ieee) (Command.Rm 2 (lit "alpha"))] [x12; x00; x00]).
  - vm_compute. reflexivity.
  - repeat constructor; vm_compute; intuition discriminate.
  - right. split; [discriminate|left; reflexivity].
Defined.
