(* ===== verification/KeyDir.v ===== *)
(** * The sharded in-memory index

    [Index] of src/storage/index.rs: sixteen hash maps, each behind its own
    [RwLock], selected by an FNV-1a hash of the key. The loader fills the bare
    array before the locks are put around it. *)

From Stdlib Require Import ZArith Lia Strings.Byte.
From stdpp Require Import base numbers list strings gmap.
From S2P Require Import Prelude Bytes HintFormat.
Export IndexValue(IndexValue).

Local Open Scope Z_scope.

Module Index.

Definition INDEX_BUCKETS_NUM : nat := 16.

Abbreviation HashMap := (gmap (list byte) IndexValue).

Definition FNV_OFFSET : Z := 0xcbf29ce484222325.
Definition FNV_PRIME : Z := 0x00000100000001b3.

Definition fnv_step (hash : Z) (x : byte) : Z := (Z.lxor hash (u8 x) * FNV_PRIME) mod 2 ^ 64.

Definition get_bucket (key : list byte) : nat :=
  let hash := foldl fnv_step FNV_OFFSET key in
  Z.to_nat (Z.lxor (Z.shiftr hash 32) hash mod Z.of_nat INDEX_BUCKETS_NUM).

(** ** The bare array of maps, as the loader uses it: [self.index[bucket_id]] *)
Abbreviation buckets := (list HashMap).

Definition bucket_get (arr : buckets) (key : list byte) : option IndexValue :=
  match arr !! get_bucket key with
  | Some m => m !! key
  | None => None
  end.

(** [arr[get_bucket(key)]] with the maps's own operation applied in place; the
    index is in range for every key, so nothing is dropped. *)
Definition bucket_update (arr : buckets) (key : list byte) (f : HashMap -> HashMap) : buckets :=
  match arr !! get_bucket key with
  | Some m => <[get_bucket key := f m]> arr
  | None => arr
  end.

Definition bucket_insert (arr : buckets) (key : list byte) (v : IndexValue) : buckets :=
  bucket_update arr key (fun m => <[key := v]> m).

Definition bucket_remove (arr : buckets) (key : list byte) : buckets :=
  bucket_update arr key (fun m => delete key m).

(** ** The array of locks *)
Record RwLock : Type := { locked_map : HashMap; poisoned : bool }.

Record Index : Type := { index : list RwLock }.

Definition from (arr : buckets) : Index :=
  {| index := (fun m => {| locked_map := m; poisoned := false |}) <$> arr |}.

(** A guard is the content of the map it protects; [write_back] is what dropping
    the write guard publishes. *)
Definition access (self : Index) (key : list byte) : outcome HashMap :=
  match index self !! get_bucket key with
  | Some l => if poisoned l then Err LockPoisoned else Ok (locked_map l)
  | None => Panic
  end.
Definition read_access (self : Index) (key : list byte) : outcome HashMap := access self key.
Definition write_access (self : Index) (key : list byte) : outcome HashMap := access self key.
Definition write_back (self : Index) (key : list byte) (m : HashMap) : Index :=
  {| index := alter (fun l => {| locked_map := m; poisoned := poisoned l |}) (get_bucket key)
                (index self) |}.

End Index.

Import Index.

(** ** The bucket function *)

(** Every key has one bucket, and it is a valid index of the array. *)
Lemma get_bucket_lt key : (get_bucket key < INDEX_BUCKETS_NUM)%nat.
Proof.
  unfold get_bucket. set (h := Z.lxor _ _).
  pose proof (Z.mod_pos_bound h (Z.of_nat INDEX_BUCKETS_NUM) ltac:(done)).
  unfold INDEX_BUCKETS_NUM in *. lia.
Qed.

(** ** The sixteen maps behave as one

    [represents arr m]: the array stores exactly the finite map [m]. *)
Definition represents (arr : buckets) (m : gmap (list byte) IndexValue) : Prop :=
  length arr = INDEX_BUCKETS_NUM /\ forall k, bucket_get arr k = m !! k.

Lemma represents_empty : represents (replicate INDEX_BUCKETS_NUM ∅) ∅.
Proof.
  split; [apply length_replicate|]. intros k. unfold bucket_get.
  rewrite lookup_replicate_2 by apply get_bucket_lt. by rewrite !lookup_empty.
Qed.

Lemma bucket_get_update arr k k' f :
  length arr = INDEX_BUCKETS_NUM ->
  (forall m, k <> k' -> f m !! k' = m !! k') ->
  bucket_get (bucket_update arr k f) k' =
  if decide (k = k') then match arr !! get_bucket k with Some m => f m !! k | None => None end
  else bucket_get arr k'.
Proof.
  intros Hl Hf. unfold bucket_update, bucket_get.
  destruct (lookup_lt_is_Some_2 arr (get_bucket k)) as [m Hm];
    [rewrite Hl; apply get_bucket_lt|]. rewrite Hm.
  rewrite list_lookup_insert. case_decide as Hc.
  - destruct (decide (k = k')) as [->|Hne]; [done|]. destruct Hc as [Hb _].
    rewrite <- Hb, Hm. by apply Hf.
  - rewrite decide_False; [done|]. intros ->. apply Hc. split; [done|].
    rewrite Hl. apply get_bucket_lt.
Qed.

Lemma length_bucket_update arr k f : length (bucket_update arr k f) = length arr.
Proof. unfold bucket_update. case_match; [apply length_insert|done]. Qed.

Lemma represents_insert arr m k v :
  represents arr m -> represents (bucket_insert arr k v) (<[k := v]> m).
Proof.
  intros [Hl Hm]. split; [by rewrite <- Hl; apply length_bucket_update|]. intros k'.
  unfold bucket_insert. rewrite bucket_get_update by (done || by intros; apply lookup_insert_ne).
  destruct (lookup_lt_is_Some_2 arr (get_bucket k)) as [m' Hm'];
    [rewrite Hl; apply get_bucket_lt|]. rewrite Hm'.
  rewrite (lookup_insert m). case_decide; [apply lookup_insert_eq|apply Hm].
Qed.

Lemma represents_remove arr m k :
  represents arr m -> represents (bucket_remove arr k) (delete k m).
Proof.
  intros [Hl Hm]. split; [by rewrite <- Hl; apply length_bucket_update|]. intros k'.
  unfold bucket_remove. rewrite bucket_get_update by (done || by intros; apply lookup_delete_ne).
  destruct (lookup_lt_is_Some_2 arr (get_bucket k)) as [m' Hm'];
    [rewrite Hl; apply get_bucket_lt|]. rewrite Hm'.
  rewrite (lookup_delete m). case_decide; [apply lookup_delete_eq|apply Hm].
Qed.

(** ** The locked index as one map *)

(** No lock is poisoned, and the maps behind the locks store [m]. *)
Definition index_is (self : Index) (m : gmap (list byte) IndexValue) : Prop :=
  Forall (fun l => poisoned l = false) (index self) /\ represents (locked_map <$> index self) m.

Lemma index_is_from arr m : represents arr m -> index_is (from arr) m.
Proof.
  intros H. split; [by apply Forall_fmap, Forall_true|].
  unfold from. cbn [index]. rewrite <- list_fmap_compose. by rewrite list_fmap_id.
Qed.

Lemma access_is self m k :
  index_is self m -> exists h, access self k = Ok h /\ h !! k = m !! k.
Proof.
  intros [Hp [Hl Hm]]. unfold access.
  rewrite length_fmap in Hl. destruct (lookup_lt_is_Some_2 (index self) (get_bucket k))
    as [l E]; [rewrite Hl; apply get_bucket_lt|].
  rewrite E. rewrite Forall_lookup in Hp. rewrite (Hp _ _ E). eexists. split; [done|].
  rewrite <- Hm. unfold bucket_get. rewrite list_lookup_fmap, E. done.
Qed.

Lemma write_back_is (self : Index) (m m' : HashMap) (k : list byte) (h : HashMap) (f : HashMap -> HashMap) :
  index_is self m -> access self k = Ok h ->
  represents (bucket_update (locked_map <$> index self) k f) m' ->
  index_is (write_back self k (f h)) m'.
Proof.
  intros [Hp Hr] Ha Hm'. unfold access in Ha.
  destruct (index self !! get_bucket k) as [l|] eqn:E; [|done].
  destruct (poisoned l) eqn:Epl; [done|]. injection Ha as <-.
  split.
  - unfold write_back. cbn [index]. rewrite Forall_lookup in *. intros i l' Hl'.
    rewrite list_lookup_alter in Hl'. case_decide as Hi; [|by eapply Hp].
    rewrite E in Hl'. by injection Hl' as <-.
  - unfold write_back. cbn [index].
    replace (locked_map <$> alter _ (get_bucket k) (index self))
      with (bucket_update (locked_map <$> index self) k f); [done|].
    unfold bucket_update. rewrite list_lookup_fmap, E. cbn [fmap option_fmap option_map].
    apply list_eq. intros i. rewrite list_lookup_fmap, list_lookup_alter, list_lookup_insert.
    rewrite length_fmap, list_lookup_fmap. case_decide as Hc; case_decide as Hd; try done.
    + by rewrite E.
    + by destruct Hc.
    + destruct Hc. split; [done|]. by eapply lookup_lt_Some.
Qed.

(** The sharded index is a map: reading a key through its bucket's lock sees
    the map's entry for it, and inserting or removing through the write lock
    changes exactly that key, in whatever bucket the other keys are. *)
Theorem index_refines_map self m k v :
  index_is self m ->
  exists h, write_access self k = Ok h /\ read_access self k = Ok h /\ h !! k = m !! k /\
    index_is (write_back self k (<[k := v]> h)) (<[k := v]> m) /\
    index_is (write_back self k (delete k h)) (delete k m).
Proof.
  intros Hi. destruct (access_is self m k Hi) as (h & Ha & Hk). exists h.
  split_and!; try done.
  - eapply (write_back_is self m _ k h (fun h => <[k := v]> h)); [done|done|].
    apply represents_insert, Hi.
  - eapply (write_back_is self m _ k h (fun h => delete k h)); [done|done|].
    apply represents_remove, Hi.
Qed.

Lemma index_refines_map_witness :
  exists h, write_access (from (replicate INDEX_BUCKETS_NUM ∅)) (lit "k") = Ok h /\
    h !! lit "k" = (∅ : HashMap) !! lit "k" /\
    index_is (write_back (from (replicate INDEX_BUCKETS_NUM ∅)) (lit "k")
                (<[lit "k" := sample_hint]> h)) (<[lit "k" := sample_hint]> ∅).
Proof.
  destruct (index_refines_map (from (replicate INDEX_BUCKETS_NUM ∅)) ∅ (lit "k") sample_hint)
    as (h & H1 & _ & H2 & H3 & _); [apply index_is_from, represents_empty|].
  exists h. auto.
Defined.
