(* ===== verification/Text.v ===== *)
(** * Text: UTF-8, decimal numbers, suffixes

    What the code uses of [core::str] and [core::fmt]: [from_utf8], the
    decimal [Display] of integers with and without zero padding,
    [str::parse] for [u64] and [i64], [strip_suffix] and [ends_with]. A [&str]
    or [String] is its bytes. *)

From Stdlib Require Import ZArith Lia Strings.Byte.
From stdpp Require Import base numbers list strings.
From S2P Require Import Prelude Bytes.

Local Open Scope Z_scope.

(** ** UTF-8 *)

Definition in_range (lo hi : Z) (x : byte) : bool := (lo <=? u8 x) && (u8 x <=? hi).
Definition cont (x : byte) : bool := in_range 0x80 0xBF x.

(** The well-formed byte sequences of Unicode, table 3-7. *)
Fixpoint utf8_valid (bs : list byte) : bool :=
  match bs with
  | [] => true
  | x :: bs1 =>
      if in_range 0x00 0x7F x then utf8_valid bs1
      else match bs1 with
      | [] => false
      | y :: bs2 =>
          if in_range 0xC2 0xDF x then cont y && utf8_valid bs2
          else match bs2 with
          | [] => false
          | z :: bs3 =>
              if (if u8 x =? 0xE0 then in_range 0xA0 0xBF y
                  else if u8 x =? 0xED then in_range 0x80 0x9F y
                  else in_range 0xE1 0xEF x && cont y)
              then cont z && utf8_valid bs3
              else match bs3 with
              | [] => false
              | t :: bs4 =>
                  (if u8 x =? 0xF0 then in_range 0x90 0xBF y
                   else if u8 x =? 0xF4 then in_range 0x80 0x8F y
                   else in_range 0xF1 0xF3 x && cont y)
                  && cont z && cont t && utf8_valid bs4
              end
          end
      end
  end.

(** [String::from_utf8(v)] with its error as [KvsError::Utf8]. *)
Definition from_utf8 (bs : list byte) : outcome (list byte) :=
  if utf8_valid bs then Ok bs else Err Utf8.

(** One step of the decoder: whether the text starts with a character, and the
    length of it, or of the bytes that can not be part of one. *)
Definition utf8_step (bs : list byte) : bool * nat :=
  match bs with
  | [] => (false, 1%nat)
  | x :: r =>
      let nth n := default x00 (r !! n) in
      if in_range 0x00 0x7F x then (true, 1%nat)
      else if in_range 0xC2 0xDF x then
        if cont (nth 0%nat) then (true, 2%nat) else (false, 1%nat)
      else if in_range 0xE0 0xEF x then
        let second := if u8 x =? 0xE0 then in_range 0xA0 0xBF (nth 0%nat)
                      else if u8 x =? 0xED then in_range 0x80 0x9F (nth 0%nat)
                      else cont (nth 0%nat) in
        if second then if cont (nth 1%nat) then (true, 3%nat) else (false, 2%nat)
        else (false, 1%nat)
      else if in_range 0xF0 0xF4 x then
        let second := if u8 x =? 0xF0 then in_range 0x90 0xBF (nth 0%nat)
                      else if u8 x =? 0xF4 then in_range 0x80 0x8F (nth 0%nat)
                      else cont (nth 0%nat) in
        if second then
          if cont (nth 1%nat) then if cont (nth 2%nat) then (true, 4%nat) else (false, 3%nat)
          else (false, 2%nat)
        else (false, 1%nat)
      else (false, 1%nat)
  end.

(** [String::from_utf8_lossy(v)]: what is not UTF-8 becomes U+FFFD. *)
Fixpoint lossy (fuel : nat) (bs : list byte) : list byte :=
  match fuel, bs with
  | S fuel, _ :: _ =>
      let (ok, n) := utf8_step bs in
      (if ok then take n bs else [xef; xbf; xbd]) ++ lossy fuel (drop n bs)
  | _, _ => []
  end.
Definition from_utf8_lossy (bs : list byte) : list byte := lossy (length bs) bs.

(** ** Characters and white space *)

(** The number of bytes of the character that starts with [x], in valid UTF-8. *)
Definition char_len (x : byte) : nat :=
  if u8 x <? 0x80 then 1 else if u8 x <? 0xE0 then 2 else if u8 x <? 0xF0 then 3 else 4.

(** [s.chars()], each character as its bytes. *)
Fixpoint chars_fuel (fuel : nat) (bs : list byte) : list (list byte) :=
  match fuel, bs with
  | S fuel, x :: _ => take (char_len x) bs :: chars_fuel fuel (drop (char_len x) bs)
  | _, _ => []
  end.
Definition chars (bs : list byte) : list (list byte) := chars_fuel (length bs) bs.

Definition code_point (c : list byte) : Z :=
  match u8 <$> c with
  | [x] => x
  | [x; y] => (x - 0xC0) * 64 + (y - 0x80)
  | [x; y; z] => (x - 0xE0) * 4096 + (y - 0x80) * 64 + (z - 0x80)
  | [x; y; z; t] => (x - 0xF0) * 262144 + (y - 0x80) * 4096 + (z - 0x80) * 64 + (t - 0x80)
  | _ => 0
  end.

(** [char::is_whitespace]: the Unicode property White_Space. *)
Definition is_whitespace (c : list byte) : bool :=
  let p := code_point c in
  ((9 <=? p) && (p <=? 13)) || (p =? 32) || (p =? 0x85) || (p =? 0xA0) || (p =? 0x1680) ||
  ((0x2000 <=? p) && (p <=? 0x200A)) || (p =? 0x2028) || (p =? 0x2029) || (p =? 0x202F) ||
  (p =? 0x205F) || (p =? 0x3000).

Fixpoint drop_ws (cs : list (list byte)) : list (list byte) :=
  match cs with
  | c :: cs' => if is_whitespace c then drop_ws cs' else cs
  | [] => []
  end.

(** [s.trim()] *)
Definition trim (s : list byte) : list byte :=
  concat (rev (drop_ws (rev (drop_ws (chars s))))).

(** [s.split_whitespace()], collected. *)
Fixpoint words (cur : list byte) (cs : list (list byte)) : list (list byte) :=
  match cs with
  | [] => match cur with [] => [] | _ => [cur] end
  | c :: cs =>
      if is_whitespace c
      then match cur with [] => words [] cs | _ => cur :: words [] cs end
      else words (cur ++ c) cs
  end.
Definition split_whitespace (s : list byte) : list (list byte) := words [] (chars s).

(** ** Decimal numbers *)

Definition digit (d : Z) : byte := byte_of_Z (48 + d).
Definition is_digit (x : byte) : bool := in_range 48 57 x.
Definition digit_val (x : byte) : Z := u8 x - 48.

(** The decimal digits of [z], most significant first; [fuel] digits are enough
    below [10 ^ fuel]. *)
Fixpoint dec_digits (fuel : nat) (z : Z) : list byte :=
  match fuel with
  | O => []
  | S fuel => if z <? 10 then [digit z] else dec_digits fuel (z / 10) ++ [digit (z mod 10)]
  end.

(** [format!("{}", z)] for an unsigned integer of at most 64 bits. *)
Definition show_u64 (z : Z) : list byte := dec_digits 20 z.

(** [format!("{:06}", z)] *)
Definition show_u64_06 (z : Z) : list byte :=
  let ds := show_u64 z in replicate (6 - length ds) (digit 0) ++ ds.

Definition is_plus (x : byte) : bool := u8 x =? 43.
Definition is_minus (x : byte) : bool := u8 x =? 45.

(** The digit loop of [from_str_radix]: every intermediate value is checked. *)
Fixpoint parse_digits (max acc : Z) (ds : list byte) : option Z :=
  match ds with
  | [] => Some acc
  | d :: ds =>
      if is_digit d then
        let acc' := acc * 10 + digit_val d in
        if acc' <=? max then parse_digits max acc' ds else None
      else None
  end.

(** [s.parse::<u64>().ok()]: an optional [+], then at least one digit. *)
Definition parse_u64 (s : list byte) : option Z :=
  match s with
  | [] => None
  | x :: s' =>
      if is_plus x then match s' with [] => None | _ => parse_digits u64_max 0 s' end
      else parse_digits u64_max 0 s
  end.

Definition i64_max : Z := 2 ^ 63 - 1.

(** [s.parse::<i64>().ok()] *)
Definition parse_i64_str (s : list byte) : option Z :=
  match s with
  | [] => None
  | x :: s' =>
      if is_plus x then match s' with [] => None | _ => parse_digits i64_max 0 s' end
      else if is_minus x
      then match s' with [] => None | _ => Z.opp <$> parse_digits (i64_max + 1) 0 s' end
      else parse_digits i64_max 0 s
  end.

(** ** Suffixes *)

Definition strip_suffix (suf s : list byte) : option (list byte) :=
  if (length suf <=? length s)%nat then
    let n := (length s - length suf)%nat in
    if decide (drop n s = suf) then Some (take n s) else None
  else None.

Definition ends_with (suf s : list byte) : bool :=
  match strip_suffix suf s with Some _ => true | None => false end.

(** ** Lemmas on decimal numbers *)

Lemma u8_digit d : 0 <= d < 10 -> u8 (digit d) = 48 + d.
Proof. intros. unfold digit. rewrite u8_byte_of_Z. apply Z.mod_small. lia. Qed.

Lemma is_digit_digit d : 0 <= d < 10 -> is_digit (digit d) = true.
Proof. intros. unfold is_digit, in_range. rewrite u8_digit by done. zcase; lia. Qed.

Lemma digit_val_digit d : 0 <= d < 10 -> digit_val (digit d) = d.
Proof. intros. unfold digit_val. rewrite u8_digit by done. lia. Qed.

Lemma parse_digits_app max acc ds1 ds2 :
  parse_digits max acc (ds1 ++ ds2) =
  match parse_digits max acc ds1 with Some a => parse_digits max a ds2 | None => None end.
Proof.
  revert acc. induction ds1 as [|d ds IH]; intros acc; [done|]. cbn [app parse_digits].
  case_match; [|done]. case_match; [|done]. apply IH.
Qed.

Lemma dec_digits_nonempty fuel z : (0 < fuel)%nat -> dec_digits fuel z <> [].
Proof.
  destruct fuel; [lia|]. intros _. cbn [dec_digits].
  case_match; [done|]. intros Hn. by apply app_eq_nil in Hn as [_ ?].
Qed.

Lemma parse_dec_digits max fuel z :
  0 <= z <= max -> z < 10 ^ Z.of_nat fuel -> (0 < fuel)%nat ->
  parse_digits max 0 (dec_digits fuel z) = Some z.
Proof.
  revert z. induction fuel as [|fuel IH]; intros z Hz Hf H0; [lia|]. cbn [dec_digits].
  destruct (Z.ltb_spec z 10).
  - cbn [parse_digits]. rewrite is_digit_digit, digit_val_digit by lia.
    by rewrite (proj2 (Z.leb_le _ _)) by lia.
  - rewrite Nat2Z.inj_succ, Z.pow_succ_r in Hf by lia.
    pose proof (Z.div_mod z 10 ltac:(lia)). pose proof (Z.mod_pos_bound z 10 ltac:(lia)).
    rewrite parse_digits_app, IH.
    + cbn [parse_digits]. rewrite is_digit_digit, digit_val_digit by lia.
      rewrite (proj2 (Z.leb_le _ _)) by lia. f_equal. lia.
    + lia.
    + apply Z.div_lt_upper_bound; lia.
    + destruct fuel; [simpl in Hf; lia|lia].
Qed.

Lemma parse_digits_zeros max n ds :
  0 <= max -> parse_digits max 0 (replicate n (digit 0) ++ ds) = parse_digits max 0 ds.
Proof.
  intros Hm. induction n as [|n IH]; [done|]. cbn [replicate app parse_digits].
  rewrite is_digit_digit, digit_val_digit by lia.
  rewrite (proj2 (Z.leb_le _ _)) by lia. exact IH.
Qed.

Lemma dec_digits_all fuel z : 0 <= z -> Forall (fun x => is_digit x = true) (dec_digits fuel z).
Proof.
  revert z. induction fuel as [|fuel IH]; intros z Hz; cbn [dec_digits]; [constructor|].
  destruct (Z.ltb_spec z 10).
  - repeat constructor. apply is_digit_digit. lia.
  - apply Forall_app. split; [apply IH; apply Z.div_pos; lia|].
    repeat constructor. apply is_digit_digit. apply Z.mod_pos_bound. lia.
Qed.

Lemma digit_not_plus x : is_digit x = true -> is_plus x = false.
Proof. unfold is_digit, is_plus, in_range. intros H. zcase; [|done]. lia. Qed.

Lemma show_u64_06_digits z : 0 <= z -> Forall (fun x => is_digit x = true) (show_u64_06 z).
Proof.
  intros Hz. unfold show_u64_06. apply Forall_app. split; [|by apply dec_digits_all].
  apply Forall_replicate. by apply is_digit_digit.
Qed.

Lemma parse_show_u64_06 z : is_u64 z -> parse_u64 (show_u64_06 z) = Some z.
Proof.
  intros Hz. pose proof (show_u64_06_digits z (proj1 Hz)) as Hd.
  assert (parse_digits u64_max 0 (show_u64_06 z) = Some z) as Hp.
  { unfold show_u64_06, show_u64. rewrite parse_digits_zeros by (unfold u64_max; lia).
    apply parse_dec_digits; ulia. }
  unfold parse_u64. destruct (show_u64_06 z) as [|x s] eqn:E.
  - unfold show_u64_06, show_u64 in E. apply app_eq_nil in E as [_ E].
    by apply dec_digits_nonempty in E; [|lia].
  - apply Forall_cons in Hd as [Hx _]. by rewrite digit_not_plus.
Qed.

Lemma parse_show_u64 z : is_u64 z -> parse_u64 (show_u64 z) = Some z.
Proof.
  intros Hz. pose proof (dec_digits_all 20 z (proj1 Hz)) as Hd.
  assert (parse_digits u64_max 0 (show_u64 z) = Some z) as Hp by (apply parse_dec_digits; ulia).
  unfold parse_u64. unfold show_u64 in *. destruct (dec_digits 20 z) as [|x s] eqn:E.
  - by apply dec_digits_nonempty in E; [|lia].
  - apply Forall_cons in Hd as [Hx _]. by rewrite digit_not_plus.
Qed.

Lemma parse_digits_range max acc ds z :
  0 <= acc <= max -> parse_digits max acc ds = Some z -> 0 <= z <= max.
Proof.
  revert acc. induction ds as [|d ds IH]; intros acc Ha; cbn [parse_digits];
    [by intros [= <-]|].
  case_match eqn:Hd; [|done]. zcase; [|done]. apply IH. split; [|done].
  unfold is_digit, in_range in Hd. unfold digit_val. lia.
Qed.

Lemma parse_u64_range s z : parse_u64 s = Some z -> is_u64 z.
Proof.
  assert (forall ds, parse_digits u64_max 0 ds = Some z -> is_u64 z) as H.
  { intros ds Hp. apply parse_digits_range in Hp; ulia. }
  unfold parse_u64. repeat case_match; try done; apply H.
Qed.

(** ASCII text is UTF-8. *)
Lemma utf8_valid_ascii s : Forall (fun x => u8 x < 0x80) s -> utf8_valid s = true.
Proof.
  induction 1 as [|x s Hx _ IH]; [done|]. cbn [utf8_valid].
  assert (in_range 0x00 0x7F x = true) as ->; [|done].
  unfold in_range. pose proof (u8_range x). zcase; (done || lia).
Qed.

(** ** Lemmas on suffixes *)

Lemma strip_suffix_app suf s : strip_suffix suf (s ++ suf) = Some s.
Proof.
  unfold strip_suffix. rewrite length_app, (proj2 (Nat.leb_le _ _)) by lia.
  replace (length s + length suf - length suf)%nat with (length s) by lia.
  rewrite drop_app_length, decide_True by done. by rewrite take_app_length.
Qed.

Lemma strip_suffix_Some suf s p : strip_suffix suf s = Some p <-> s = p ++ suf.
Proof.
  split; [|intros ->; apply strip_suffix_app]. unfold strip_suffix.
  destruct (Nat.leb_spec (length suf) (length s)); [|done].
  case_decide as Hd; [|done]. intros [= <-]. rewrite <- Hd at 2. symmetry. apply take_drop.
Qed.

(** A string that ends in two ways: the endings agree on their last byte. *)
Lemma app_last_eq {A} (p q l1 l2 : list A) x y : p ++ l1 ++ [x] = q ++ l2 ++ [y] -> x = y.
Proof. rewrite !app_assoc. intros H. by apply app_inj_tail in H as [_ ?]. Qed.
