(* ===== verification/Names.v ===== *)
(** * File names

    The names of src/storage/bitcask.rs: [000001.data], [000001.hint],
    [000001.data.compact], and the parser that [open] classifies directory
    entries with. *)

From Stdlib Require Import ZArith Lia Strings.Byte.
From stdpp Require Import base numbers list strings.
From S2P Require Import Prelude Bytes Text.

Local Open Scope Z_scope.

Definition data_file_name (id : Z) : list byte := show_u64_06 id ++ lit ".data".
Definition hint_file_name (id : Z) : list byte := show_u64_06 id ++ lit ".hint".
Definition data_file_name_compaction (id : Z) : list byte := data_file_name id ++ lit ".compact".

Definition get_file_id (file_name : list byte) : option Z :=
  match strip_suffix (lit ".data") file_name with
  | None => None
  | Some stem => parse_u64 stem
  end.

(** [file_name.strip_suffix(".hint").and_then(|stem| stem.parse::<u64>().ok())] *)
Definition get_hint_id (file_name : list byte) : option Z :=
  match strip_suffix (lit ".hint") file_name with
  | None => None
  | Some stem => parse_u64 stem
  end.

(** ** Lemmas *)

Lemma get_file_id_data id : is_u64 id -> get_file_id (data_file_name id) = Some id.
Proof.
  intros Hid. unfold get_file_id, data_file_name.
  rewrite strip_suffix_app. by apply parse_show_u64_06.
Qed.

Lemma get_hint_id_hint id : is_u64 id -> get_hint_id (hint_file_name id) = Some id.
Proof.
  intros Hid. unfold get_hint_id, hint_file_name.
  rewrite strip_suffix_app. by apply parse_show_u64_06.
Qed.

Lemma data_file_name_inj id id' :
  is_u64 id -> is_u64 id' -> data_file_name id = data_file_name id' -> id = id'.
Proof.
  intros H H' E. apply (f_equal get_file_id) in E.
  rewrite !get_file_id_data in E by done. by injection E.
Qed.

Lemma hint_file_name_inj id id' :
  is_u64 id -> is_u64 id' -> hint_file_name id = hint_file_name id' -> id = id'.
Proof.
  intros H H' E. apply (f_equal get_hint_id) in E.
  rewrite !get_hint_id_hint in E by done. by injection E.
Qed.

Lemma get_file_id_suffix s x l :
  x <> x61 -> get_file_id (s ++ l ++ [x]) = None.
Proof.
  intros Hx. unfold get_file_id. destruct (strip_suffix _ _) as [p|] eqn:E; [|done].
  apply strip_suffix_Some in E. exfalso. apply Hx.
  by apply (app_last_eq s p l (lit ".dat") x x61).
Qed.

Lemma get_file_id_hint id : get_file_id (hint_file_name id) = None.
Proof. apply (get_file_id_suffix (show_u64_06 id) x74 (lit ".hin")). done. Qed.

Lemma get_file_id_compact id : get_file_id (data_file_name_compaction id) = None.
Proof. apply (get_file_id_suffix (data_file_name id) x74 (lit ".compac")). done. Qed.

Lemma compact_ends_with id : ends_with (lit ".data.compact") (data_file_name_compaction id) = true.
Proof.
  unfold ends_with, data_file_name_compaction, data_file_name. rewrite <- app_assoc.
  by rewrite (strip_suffix_app (lit ".data.compact")).
Qed.

Lemma hint_not_compact id : ends_with (lit ".data.compact") (hint_file_name id) = false.
Proof.
  unfold ends_with. destruct (strip_suffix _ _) as [p|] eqn:E; [|done].
  apply strip_suffix_Some in E. exfalso.
  assert (drop (length (hint_file_name id) - 2) (hint_file_name id) = lit "nt") as H1.
  { unfold hint_file_name. rewrite length_app.
    replace (length (show_u64_06 id) + length (lit ".hint") - 2)%nat
      with (length (show_u64_06 id) + 3)%nat by (simpl; lia).
    rewrite <- drop_drop, drop_app_length. done. }
  rewrite E in H1. rewrite length_app in H1.
  replace (length p + length (lit ".data.compact") - 2)%nat
    with (length p + 11)%nat in H1 by (simpl; lia).
  rewrite <- drop_drop, drop_app_length in H1. discriminate.
Qed.

Lemma data_ne_hint id id' : data_file_name id <> hint_file_name id'.
Proof.
  intros E. apply (app_last_eq (show_u64_06 id) (show_u64_06 id') (lit ".dat") (lit ".hin") x61 x74) in E.
  discriminate.
Qed.

Lemma data_ne_compact id id' : data_file_name id <> data_file_name_compaction id'.
Proof.
  intros E. apply (app_last_eq (show_u64_06 id) (data_file_name id') (lit ".dat") (lit ".compac")
    x61 x74) in E. discriminate.
Qed.

Lemma hint_ne_compact id id' : hint_file_name id <> data_file_name_compaction id'.
Proof.
  intros E. pose proof (hint_not_compact id) as H. rewrite E, compact_ends_with in H. done.
Qed.

Lemma get_file_id_range name id : get_file_id name = Some id -> is_u64 id.
Proof. unfold get_file_id. case_match; [apply parse_u64_range|done]. Qed.

Lemma get_hint_id_range name id : get_hint_id name = Some id -> is_u64 id.
Proof. unfold get_hint_id. case_match; [apply parse_u64_range|done]. Qed.

Lemma data_file_name_utf8 id : is_u64 id -> utf8_valid (data_file_name id) = true.
Proof.
  intros [Hid _]. apply utf8_valid_ascii, Forall_app. split.
  - eapply Forall_impl; [by apply show_u64_06_digits|].
    intros x Hx. unfold is_digit, in_range in Hx. lia.
  - by repeat constructor.
Qed.

Lemma hint_file_name_utf8 id : is_u64 id -> utf8_valid (hint_file_name id) = true.
Proof.
  intros [Hid _]. apply utf8_valid_ascii, Forall_app. split.
  - eapply Forall_impl; [by apply show_u64_06_digits|].
    intros x Hx. unfold is_digit, in_range in Hx. lia.
  - by repeat constructor.
Qed.
