(* ===== verification/Config.v ===== *)
(** * Configuration

    src/storage/config.rs, src/storage/policy.rs and [StoreType] of
    src/storage/kvstore.rs. The store directory itself is the directory of the
    [World] of FileSystem.v, so [Config] has no [dir] field. *)

From Stdlib Require Import ZArith Strings.Byte.
From stdpp Require Import base numbers list strings.
From S2P Require Import Prelude.

Local Open Scope Z_scope.

Inductive DurabilityPolicy : Type := SyncOnEveryPut | SyncOnInterval | OsDecides.

Module StoreType.
Inductive StoreType : Type := Bitcask | Sled.

#[global] Instance StoreType_eq_dec : EqDecision StoreType.
Proof. solve_decision. Defined.

Definition as_str (t : StoreType) : list byte :=
  match t with Bitcask => lit "bitcask" | Sled => lit "sled" end.
End StoreType.

Module Config.
Definition COMPACTION_THRESHOLD : Z := Z.shiftl 1 20.
Definition FILE_SIZE_THRESHOLD : Z := Z.shiftl 1 20.
Definition FLUSH_THRESHOLD_MILLIS : Z := 1000.

Record Config : Type := {
  durability_policy : DurabilityPolicy;
  file_size_threshold : Z;
  compaction_threshold : Z;
  flush_threshold_millis : Z;
  store_type : StoreType.StoreType
}.

Definition new (store_type : StoreType.StoreType) : Config := {|
  durability_policy := OsDecides;
  file_size_threshold := FILE_SIZE_THRESHOLD;
  compaction_threshold := COMPACTION_THRESHOLD;
  flush_threshold_millis := FLUSH_THRESHOLD_MILLIS;
  store_type := store_type
|}.
End Config.
