(* ===== verification/FileSystem.v ===== *)
(** * The store directory, the clock and the operating system

    What the code uses of [std::fs], [std::io] and [std::time]. The store
    directory maps names to inodes; an open [File] is a handle to its inode, so
    a file that was unlinked or renamed stays readable through the handles that
    are open on it. Each inode keeps how long a prefix of it is known to be on
    stable storage ([sync_all]).

    Every system call may fail. [faults] schedules what happens to the coming
    calls: an empty schedule is a run without I/O errors, and a scheduled fault
    makes the call fail with its error kind, a write having written a prefix of
    its bytes first. *)

From Stdlib Require Import ZArith Lia Strings.Byte.
From stdpp Require Import base numbers list strings gmap.
From S2P Require Import Prelude Bytes Streams.

Local Open Scope Z_scope.

Abbreviation Name := (list byte).
(** An open file. *)
Abbreviation File := nat.

Record Inode : Type := { content : list byte; durable : Z }.

Record Fault : Type := { kind : ErrorKind; partial : nat }.

Record World : Type := {
  (** regular files of the store directory *)
  dir : gmap Name nat;
  (** entries of the directory that are not regular files *)
  others : list Name;
  inodes : gmap nat Inode;
  next_inode : nat;
  (** the advisory lock of the lock file is held by some open handle *)
  flock : bool;
  (** system clock, in milliseconds since the Unix epoch, and its coming readings *)
  clock : Z;
  ticks : list Z;
  faults : list (option Fault)
}.

(** ** Field updates *)

Definition set_dir (w : World) (d : gmap Name nat) : World :=
  {| dir := d; others := others w; inodes := inodes w; next_inode := next_inode w;
     flock := flock w; clock := clock w; ticks := ticks w; faults := faults w |}.
Definition set_inode (w : World) (h : nat) (i : Inode) : World :=
  {| dir := dir w; others := others w; inodes := <[h := i]> (inodes w);
     next_inode := next_inode w;
     flock := flock w; clock := clock w; ticks := ticks w; faults := faults w |}.
Definition set_flock (w : World) (b : bool) : World :=
  {| dir := dir w; others := others w; inodes := inodes w; next_inode := next_inode w;
     flock := b; clock := clock w; ticks := ticks w; faults := faults w |}.
Definition set_clock (w : World) (c : Z) (ts : list Z) : World :=
  {| dir := dir w; others := others w; inodes := inodes w; next_inode := next_inode w;
     flock := flock w; clock := c; ticks := ts; faults := faults w |}.
Definition set_faults (w : World) (fs : list (option Fault)) : World :=
  {| dir := dir w; others := others w; inodes := inodes w; next_inode := next_inode w;
     flock := flock w; clock := clock w; ticks := ticks w; faults := fs |}.
(** A new empty file under [name]. *)
Definition new_file (w : World) (name : Name) : World :=
  {| dir := <[name := next_inode w]> (dir w); others := others w;
     inodes := <[next_inode w := {| content := []; durable := 0 |}]> (inodes w);
     next_inode := S (next_inode w);
     flock := flock w; clock := clock w; ticks := ticks w; faults := faults w |}.

(** The bytes of an open file. *)
Definition bytes_of (w : World) (h : File) : list byte :=
  match inodes w !! h with Some i => content i | None => [] end.
Definition durable_of (w : World) (h : File) : Z :=
  match inodes w !! h with Some i => durable i | None => 0 end.

(** ** System calls *)

(** Run the call, or the failure the schedule has for it. *)
Definition syscall {A} (call : M World A) (failed : Fault -> M World A) : M World A := fun w =>
  match faults w with
  | [] => call w
  | None :: fs => call (set_faults w fs)
  | Some f :: fs => failed f (set_faults w fs)
  end.

Definition fails {A} (f : Fault) : M World A := throw (Io (kind f)).

(** [fs::create_dir_all(dir)]: the directory is there afterwards. *)
Definition create_dir_all : M World unit := syscall (ret tt) fails.

(** [fs::read_dir(dir)]: the names in the directory, in an order the operating
    system chooses. *)
Definition read_dir (order : list Name -> list Name) : M World (list Name) :=
  syscall (gets (fun w => order ((map_to_list (dir w)).*1 ++ others w))) fails.

(** [path.is_file()] *)
Definition is_file (name : Name) : M World bool :=
  gets (fun w => bool_decide (is_Some (dir w !! name))).

(** [fs::exists(path)] *)
Definition exists_ (name : Name) : M World bool :=
  syscall (gets (fun w => bool_decide (is_Some (dir w !! name)) || bool_decide (name ∈ others w)))
    fails.

(** [path.exists()]: an error counts as absent. *)
Definition path_exists (name : Name) : M World bool :=
  syscall (gets (fun w => bool_decide (is_Some (dir w !! name)) || bool_decide (name ∈ others w)))
    (fun _ => ret false).

(** [OpenOptions::new().create(true).append(true).open(name)], also
    [.read(true).write(true).create(true).truncate(false)]. *)
Definition open_create (name : Name) : M World File :=
  syscall (fun w =>
    if decide (name ∈ others w) then (Err (Io Other), w)  (* not a regular file *)
    else match dir w !! name with
    | Some h => (Ok h, w)
    | None => (Ok (next_inode w), new_file w name)
    end) fails.

(** [OpenOptions::new().read(true).open(name)] *)
Definition open_read (name : Name) : M World File :=
  syscall (fun w =>
    if decide (name ∈ others w) then (Err (Io Other), w)  (* not a regular file *)
    else match dir w !! name with
    | Some h => (Ok h, w)
    | None => (Err (Io NotFound), w)
    end) fails.

Definition append_bytes (w : World) (h : File) (bs : list byte) : World :=
  set_inode w h {| content := bytes_of w h ++ bs; durable := durable_of w h |}.

(** [file.write_all(bs)] on a handle in append mode. *)
Definition file_write_all (h : File) (bs : list byte) : M World unit :=
  syscall (fun w => (Ok tt, append_bytes w h bs))
    (fun f w => (Err (Io (kind f)), append_bytes w h (take (partial f) bs))).

(** [file.sync_all()] *)
Definition sync_all (h : File) : M World unit :=
  syscall (fun w =>
    (Ok tt, set_inode w h {| content := bytes_of w h; durable := blen (bytes_of w h) |})) fails.

(** [file.set_len(n)], used to cut a torn tail off. *)
Definition set_len (h : File) (n : Z) : M World unit :=
  syscall (fun w =>
    let bs := bytes_of w h in
    let bs' := ztake n bs ++ replicate (Z.to_nat (n - blen bs)) x00 in
    (Ok tt, set_inode w h {| content := bs'; durable := Z.min (durable_of w h) n |})) fails.

(** [file.metadata()?.len()] *)
Definition metadata_len (h : File) : M World Z :=
  syscall (gets (fun w => blen (bytes_of w h))) fails.

(** [BufReader::new(file)] positioned at the start: the stream of the file's
    bytes; a fault ends the stream with an error after some of them. *)
Definition file_stream (h : File) : M World Stream :=
  syscall (gets (fun w => cursor_over (bytes_of w h)))
    (fun f => gets (fun w => {| avail := take (partial f) (bytes_of w h); fault := Some (kind f) |})).

(** [file.read_exact_at(&mut buf, offset)] for a buffer of [n] bytes. *)
Definition read_exact_at (h : File) (n off : Z) : M World (list byte) :=
  syscall (fun w =>
    if off + n <=? blen (bytes_of w h) then (Ok (slice (bytes_of w h) off (off + n)), w)
    else (Err (Io UnexpectedEof), w)) fails.

(** [fs::remove_file(name)] *)
Definition remove_file (name : Name) : M World unit :=
  syscall (fun w =>
    match dir w !! name with
    | Some _ => (Ok tt, set_dir w (delete name (dir w)))
    | None => (Err (Io NotFound), w)
    end) fails.

(** [fs::rename(from, to)] *)
Definition rename (from to : Name) : M World unit :=
  syscall (fun w =>
    match dir w !! from with
    | Some h => (Ok tt, set_dir w (<[to := h]> (delete from (dir w))))
    | None => (Err (Io NotFound), w)
    end) fails.

(** [SystemTime::now().duration_since(UNIX_EPOCH)], in milliseconds. *)
Definition unix_now : M World Z := fun w =>
  let '(now, w') := match ticks w with
                    | [] => (clock w, w)
                    | t :: ts => (t, set_clock w t ts)
                    end in
  if now <? 0 then (Err Clock, w') else (Ok now, w').

(** [.as_secs()] and [.as_millis() as u64] of the duration. *)
Definition as_secs (ms : Z) : Z := ms / 1000.
Definition as_millis (ms : Z) : Z := as_u64 ms.

(** ** Buffered writers

    [BufWriter<File>] with the standard 8 KiB buffer. *)
Module BufWriter.

Definition CAPACITY : Z := 8192.

Record BufWriter : Type := { file : File; buffer : list byte }.

Definition new (f : File) : BufWriter := {| file := f; buffer := [] |}.

Definition push (bs : list byte) : M (BufWriter * World) unit :=
  on_fst (modify (fun self => {| file := file self; buffer := buffer self ++ bs |})).

(** [flush()]: hand the buffer to the file. After a failed write the bytes that
    were written are gone from the buffer. *)
Definition flush : M (BufWriter * World) unit := fun '(self, w) =>
  match buffer self with
  | [] => (Ok tt, (self, w))
  | bs =>
      let (o, w') := file_write_all (file self) bs w in
      let written := blen (bytes_of w' (file self)) - blen (bytes_of w (file self)) in
      (o, ({| file := file self; buffer := zdrop written bs |}, w'))
  end.

Definition write_all (bs : list byte) : M (BufWriter * World) unit :=
  let! self := gets fst in
  let spare := CAPACITY - blen (buffer self) in
  if blen bs <? spare then push bs
  else
    (if spare <? blen bs then flush else ret tt) ;;!
    if CAPACITY <=? blen bs then on_snd (file_write_all (file self) bs) else push bs.

End BufWriter.

(** ** System calls that do not fail *)

Section calm.
Context (w : World) (Hcalm : faults w = []).

Lemma syscall_calm {A} (c : M World A) f : syscall c f w = c w.
Proof using Hcalm. unfold syscall. by rewrite Hcalm. Qed.

Lemma exists_calm name :
  name ∉ others w -> exists_ name w = (Ok (bool_decide (is_Some (dir w !! name))), w).
Proof using Hcalm.
  intros Ho. unfold exists_. rewrite syscall_calm. unfold gets.
  by rewrite (bool_decide_eq_false_2 (name ∈ others w)), orb_false_r by done.
Qed.

Lemma path_exists_calm name :
  name ∉ others w -> path_exists name w = (Ok (bool_decide (is_Some (dir w !! name))), w).
Proof using Hcalm.
  intros Ho. unfold path_exists. rewrite syscall_calm. unfold gets.
  by rewrite (bool_decide_eq_false_2 (name ∈ others w)), orb_false_r by done.
Qed.

Lemma open_create_new name :
  name ∉ others w -> dir w !! name = None ->
  open_create name w = (Ok (next_inode w), new_file w name).
Proof using Hcalm.
  intros Ho Hd. unfold open_create. rewrite syscall_calm, decide_False by done. by rewrite Hd.
Qed.

Lemma open_create_old name h :
  name ∉ others w -> dir w !! name = Some h -> open_create name w = (Ok h, w).
Proof using Hcalm.
  intros Ho Hd. unfold open_create. rewrite syscall_calm, decide_False by done. by rewrite Hd.
Qed.

Lemma open_read_calm name h :
  name ∉ others w -> dir w !! name = Some h -> open_read name w = (Ok h, w).
Proof using Hcalm.
  intros Ho Hd. unfold open_read. rewrite syscall_calm, decide_False by done. by rewrite Hd.
Qed.

Lemma file_write_all_calm h bs : file_write_all h bs w = (Ok tt, append_bytes w h bs).
Proof using Hcalm. unfold file_write_all. by rewrite syscall_calm. Qed.

Lemma sync_all_calm h :
  sync_all h w =
  (Ok tt, set_inode w h {| content := bytes_of w h; durable := blen (bytes_of w h) |}).
Proof using Hcalm. unfold sync_all. by rewrite syscall_calm. Qed.

Lemma metadata_len_calm h : metadata_len h w = (Ok (blen (bytes_of w h)), w).
Proof using Hcalm. unfold metadata_len. by rewrite syscall_calm. Qed.

Lemma file_stream_calm h : file_stream h w = (Ok (cursor_over (bytes_of w h)), w).
Proof using Hcalm. unfold file_stream. by rewrite syscall_calm. Qed.

Lemma read_exact_at_calm h n off :
  off + n <= blen (bytes_of w h) ->
  read_exact_at h n off w = (Ok (slice (bytes_of w h) off (off + n)), w).
Proof using Hcalm.
  intros H. unfold read_exact_at. rewrite syscall_calm. by rewrite (proj2 (Z.leb_le _ _) H).
Qed.

Lemma remove_file_calm name h :
  dir w !! name = Some h -> remove_file name w = (Ok tt, set_dir w (delete name (dir w))).
Proof using Hcalm. intros H. unfold remove_file. rewrite syscall_calm. by rewrite H. Qed.

Lemma remove_file_missing name :
  dir w !! name = None -> remove_file name w = (Err (Io NotFound), w).
Proof using Hcalm. intros H. unfold remove_file. rewrite syscall_calm. by rewrite H. Qed.

Lemma rename_calm from to h :
  dir w !! from = Some h ->
  rename from to w = (Ok tt, set_dir w (<[to := h]> (delete from (dir w)))).
Proof using Hcalm. intros H. unfold rename. rewrite syscall_calm. by rewrite H. Qed.
End calm.

(** ** What the updates do to the bytes of the files *)

Lemma bytes_of_set_inode w h i h' :
  bytes_of (set_inode w h i) h' = if decide (h = h') then content i else bytes_of w h'.
Proof. unfold bytes_of, set_inode. cbn [inodes]. rewrite lookup_insert. by case_decide. Qed.

Lemma durable_of_set_inode w h i h' :
  durable_of (set_inode w h i) h' = if decide (h = h') then durable i else durable_of w h'.
Proof. unfold durable_of, set_inode. cbn [inodes]. rewrite lookup_insert. by case_decide. Qed.

Lemma bytes_of_append w h bs h' :
  bytes_of (append_bytes w h bs) h' =
  if decide (h = h') then bytes_of w h' ++ bs else bytes_of w h'.
Proof. unfold append_bytes. rewrite bytes_of_set_inode. by case_decide; subst. Qed.

Lemma durable_of_append w h bs h' : durable_of (append_bytes w h bs) h' = durable_of w h'.
Proof. unfold append_bytes. rewrite durable_of_set_inode. by case_decide; subst. Qed.

Lemma bytes_of_new_file w name h :
  h <> next_inode w -> bytes_of (new_file w name) h = bytes_of w h.
Proof. intros H. unfold bytes_of, new_file. cbn [inodes]. by rewrite lookup_insert_ne. Qed.

Lemma durable_of_new_file w name h :
  h <> next_inode w -> durable_of (new_file w name) h = durable_of w h.
Proof. intros H. unfold durable_of, new_file. cbn [inodes]. by rewrite lookup_insert_ne. Qed.

Lemma bytes_of_new_file_eq w name : bytes_of (new_file w name) (next_inode w) = [].
Proof. unfold bytes_of, new_file. cbn [inodes]. by rewrite lookup_insert_eq. Qed.

Lemma durable_of_new_file_eq w name : durable_of (new_file w name) (next_inode w) = 0.
Proof. unfold durable_of, new_file. cbn [inodes]. by rewrite lookup_insert_eq. Qed.

(** ** The clock

    Readings do not go back, and stay below [2 ^ 64] milliseconds. *)
Fixpoint ticks_ok (lo : Z) (ts : list Z) : Prop :=
  match ts with
  | [] => True
  | t :: ts => lo <= t < 2 ^ 64 /\ ticks_ok t ts
  end.

Definition clock_ok (last : Z) (w : World) : Prop :=
  0 <= last <= clock w /\ clock w < 2 ^ 64 /\ ticks_ok (clock w) (ticks w).

Lemma unix_now_ok last w :
  clock_ok last w ->
  exists t ts, unix_now w = (Ok t, set_clock w t ts) /\ last <= t < 2 ^ 64 /\
    clock_ok t (set_clock w t ts).
Proof.
  intros ([H0 H1] & H2 & H3). unfold unix_now. destruct (ticks w) as [|t ts] eqn:E.
  - rewrite (proj2 (Z.ltb_ge _ _)) by lia. exists (clock w), [].
    split_and!; [|lia|lia|].
    + f_equal. destruct w; cbn in *; by subst.
    + unfold clock_ok. cbn. by split_and!; try lia.
  - destruct H3 as [Ht Hts]. rewrite (proj2 (Z.ltb_ge _ _)) by lia. exists t, ts.
    split_and!; [done|lia|lia|]. unfold clock_ok. cbn. by split_and!; try lia.
Qed.

Lemma clock_ok_weaken last last' w : 0 <= last' <= last -> clock_ok last w -> clock_ok last' w.
Proof. unfold clock_ok. intros ? (? & ? & ?). split_and!; (lia || done). Qed.

Lemma as_millis_id t : 0 <= t < 2 ^ 64 -> as_millis t = t.
Proof. intros. apply Z.mod_small. lia. Qed.

Lemma as_secs_u64 t : 0 <= t < 2 ^ 64 -> is_u64 (as_secs t).
Proof.
  intros. unfold as_secs, is_u64. pose proof (Z.div_pos t 1000). split; [lia|].
  apply Z.div_lt_upper_bound; lia.
Qed.
