(* ===== verification/Lock.v ===== *)
(** * The lock file

    [LockFile] of src/storage/lock_file.rs: an advisory lock that keeps the
    directory single-process, in a file that also records which engine the
    directory belongs to. *)

From Stdlib Require Import ZArith Lia Strings.Byte.
From stdpp Require Import base numbers list strings gmap.
From S2P Require Import Prelude Bytes Text Streams Config FileSystem.

Local Open Scope Z_scope.

Module LockFile.

Definition LOCK_FILE_NAME : list byte := lit "kvs.lock".

Record LockFile : Type := { file : File }.

(** [file.try_lock()]: takes the lock unless some open handle has it. *)
Definition try_lock : M World unit :=
  syscall (fun w => if flock w then (Err StoreLocked, w) else (Ok tt, set_flock w true)) fails.

(** Closing the handle releases the lock. *)
Definition unlock : M World unit := modify (fun w => set_flock w false).

(** [file.read_to_string(&mut marker)] *)
Definition read_to_string (h : File) : M World (list byte) :=
  syscall (fun w => if utf8_valid (bytes_of w h) then (Ok (bytes_of w h), w)
                    else (Err (Io InvalidDataKind), w)) fails.

(** The part of [acquire] that runs with the lock held. *)
Definition check_marker (h : File) (engine : StoreType.StoreType) : M World unit :=
  let! marker := read_to_string h in
  let marker := trim marker in
  if decide (marker = []) then
    file_write_all h (StoreType.as_str engine) ;;!
    sync_all h
  else if decide (marker = StoreType.as_str engine) then ret tt
  else throw (EngineMismatch marker (StoreType.as_str engine)).

Definition acquire (engine : StoreType.StoreType) : M World LockFile :=
  let! h := open_create LOCK_FILE_NAME in
  try_lock ;;!
  (* an error drops [file], and with it the lock *)
  mcatch (check_marker h engine)
    (fun _ => ret {| file := h |})
    (fun e => unlock ;;! throw e).

End LockFile.

(** ** What acquiring the lock does *)

Import LockFile.

(** The marker recorded in the directory: the content of the lock file. *)
Definition marker (w : World) : list byte :=
  match dir w !! LOCK_FILE_NAME with Some h => bytes_of w h | None => [] end.

(** The lock file, and the world once it exists. *)
Definition lock_handle (w : World) : File :=
  match dir w !! LOCK_FILE_NAME with Some h => h | None => next_inode w end.
Definition with_lock_file (w : World) : World :=
  match dir w !! LOCK_FILE_NAME with Some h => w | None => new_file w LOCK_FILE_NAME end.
(** Recording the engine in it. *)
Definition stamped (w : World) (engine : StoreType.StoreType) : World :=
  let w1 := append_bytes w (lock_handle w) (StoreType.as_str engine) in
  set_inode w1 (lock_handle w)
    {| content := bytes_of w1 (lock_handle w); durable := blen (bytes_of w1 (lock_handle w)) |}.

Lemma with_lock_file_dir w : dir (with_lock_file w) !! LOCK_FILE_NAME = Some (lock_handle w).
Proof.
  unfold with_lock_file, lock_handle. destruct (dir w !! LOCK_FILE_NAME) as [h|] eqn:E; [done|].
  cbn. apply lookup_insert_eq.
Qed.

Lemma lock_handle_with w : lock_handle (with_lock_file w) = lock_handle w.
Proof. unfold lock_handle at 1. by rewrite with_lock_file_dir. Qed.

Lemma with_lock_file_marker w : bytes_of (with_lock_file w) (lock_handle w) = marker w.
Proof.
  unfold with_lock_file, lock_handle, marker.
  destruct (dir w !! LOCK_FILE_NAME) as [h|]; [done|]. apply bytes_of_new_file_eq.
Qed.

Lemma with_lock_file_same w :
  faults (with_lock_file w) = faults w /\ flock (with_lock_file w) = flock w /\
  others (with_lock_file w) = others w.
Proof. unfold with_lock_file. by case_match. Qed.

Lemma acquire_run engine w :
  faults w = [] -> LOCK_FILE_NAME ∉ others w ->
  let w1 := with_lock_file w in
  acquire engine w =
  if flock w then (Err StoreLocked, w1)
  else if utf8_valid (marker w) then
    if decide (trim (marker w) = []) then
      (Ok {| file := lock_handle w |}, stamped (set_flock w1 true) engine)
    else if decide (trim (marker w) = StoreType.as_str engine) then
      (Ok {| file := lock_handle w |}, set_flock w1 true)
    else (Err (EngineMismatch (trim (marker w)) (StoreType.as_str engine)),
          set_flock (set_flock w1 true) false)
  else (Err (Io InvalidDataKind), set_flock (set_flock w1 true) false).
Proof.
  intros Hc Ho w1. destruct (with_lock_file_same w) as (Hf1 & Hl1 & Ho1).
  assert (open_create LOCK_FILE_NAME w = (Ok (lock_handle w), w1)) as Hopen.
  { unfold w1, with_lock_file, lock_handle. destruct (dir w !! LOCK_FILE_NAME) as [h|] eqn:E.
    - by apply open_create_old.
    - by apply open_create_new. }
  unfold acquire. rewrite (bind_ok _ _ _ _ _ Hopen).
  unfold bind at 1, try_lock, syscall. fold w1 in Hf1, Hl1. rewrite Hf1, Hc, Hl1.
  destruct (flock w); [done|]. unfold mcatch, check_marker.
  set (w2 := set_flock w1 true).
  assert (faults w2 = []) as Hc2 by by rewrite <- Hc.
  assert (bytes_of w2 (lock_handle w) = marker w) as Hb by apply with_lock_file_marker.
  unfold bind at 1, read_to_string. rewrite syscall_calm, Hb by done.
  destruct (utf8_valid (marker w)); [|done].
  destruct (decide (trim (marker w) = [])).
  - unfold bind at 1. rewrite file_write_all_calm by done. rewrite sync_all_calm by done.
    unfold ret, stamped. replace (lock_handle w2) with (lock_handle w); [done|].
    symmetry. apply (lock_handle_with w).
  - by destruct (decide (trim (marker w) = StoreType.as_str engine)).
Qed.

Lemma stamped_marker w engine :
  dir w !! LOCK_FILE_NAME = Some (lock_handle w) ->
  marker (stamped w engine) = marker w ++ StoreType.as_str engine.
Proof.
  intros H. unfold marker. change (dir (stamped w engine)) with (dir w). rewrite H.
  unfold stamped. rewrite bytes_of_set_inode, decide_True by done. cbn [content].
  by rewrite bytes_of_append, decide_True.
Qed.

Lemma marker_with_lock_file w b : marker (set_flock (with_lock_file w) b) = marker w.
Proof.
  unfold marker at 1. change (dir (set_flock (with_lock_file w) b)) with (dir (with_lock_file w)).
  rewrite with_lock_file_dir. apply with_lock_file_marker.
Qed.

Lemma stamped_files w engine h :
  h <> lock_handle w -> bytes_of (stamped w engine) h = bytes_of w h /\
    durable_of (stamped w engine) h = durable_of w h.
Proof.
  intros Hne. unfold stamped.
  by rewrite bytes_of_set_inode, durable_of_set_inode, !decide_False, bytes_of_append,
    durable_of_append, decide_False by done.
Qed.

(** C30. Opening the lock file of a directory, without I/O errors, ends in one
    of four ways: [StoreLocked] when another handle holds the lock; success,
    holding the lock, when the marker is blank (the engine's name is then
    recorded, durably) or is the engine's own name; [EngineMismatch] when it
    names another engine; an I/O error when it is not text. On every error the
    marker is as it was and the lock is not left held. *)
Theorem acquire_spec engine w :
  faults w = [] -> LOCK_FILE_NAME ∉ others w ->
  match acquire engine w with
  | (Ok l, w') =>
      flock w = false /\ flock w' = true /\ dir w' !! LOCK_FILE_NAME = Some (file l) /\
      (trim (marker w) = [] /\ marker w' = marker w ++ StoreType.as_str engine /\
         durable_of w' (file l) = blen (marker w') \/
       trim (marker w) = StoreType.as_str engine /\ marker w' = marker w)
  | (Err StoreLocked, w') => flock w = true /\ flock w' = true /\ marker w' = marker w
  | (Err (EngineMismatch found requested), w') =>
      flock w = false /\ flock w' = false /\ marker w' = marker w /\ found = trim (marker w) /\
      requested = StoreType.as_str engine /\ found <> [] /\ found <> requested
  | (Err (Io InvalidDataKind), w') =>
      flock w = false /\ flock w' = false /\ marker w' = marker w /\ utf8_valid (marker w) = false
  | _ => False
  end.
Proof.
  intros Hc Ho. rewrite acquire_run by done. destruct (with_lock_file_same w) as (_ & Hl1 & _).
  destruct (flock w) eqn:Hfl.
  { split_and!; [done|congruence|]. pose proof (marker_with_lock_file w true) as H. done. }
  pose proof (marker_with_lock_file w true) as Hm. pose proof (with_lock_file_dir w) as Hd.
  destruct (utf8_valid (marker w)) eqn:Hu; [|split_and!; done].
  destruct (decide (trim (marker w) = [])) as [Hb|Hb].
  - split_and!; try done. left. set (w2 := set_flock (with_lock_file w) true) in *.
    assert (dir w2 !! LOCK_FILE_NAME = Some (lock_handle w2)) as Hd2
      by (unfold w2; cbn [dir set_flock]; rewrite Hd; f_equal; symmetry; apply lock_handle_with).
    rewrite stamped_marker by done. rewrite Hm. split_and!; try done.
    replace (lock_handle w) with (lock_handle w2) by apply (lock_handle_with w).
    unfold stamped. rewrite durable_of_set_inode, decide_True by done. cbn [durable].
    rewrite bytes_of_append, decide_True by done. rewrite <- Hm. unfold marker. by rewrite Hd2.
  - destruct (decide (trim (marker w) = StoreType.as_str engine)) as [He|He]; split_and!; try done.
    by right.
Qed.

Lemma trim_as_str engine : trim (StoreType.as_str engine) = StoreType.as_str engine.
Proof. by destruct engine. Qed.

Lemma as_str_inj e1 e2 : StoreType.as_str e1 = StoreType.as_str e2 -> e1 = e2.
Proof. by destruct e1, e2. Qed.

(** One engine per directory, one holder at a time: once [engine] acquired a
    directory whose marker was blank, every further attempt is refused with
    [StoreLocked] as long as the lock is held, and after it is released an
    attempt succeeds exactly for the same engine, the other one is refused with
    [EngineMismatch]. *)
Theorem engine_is_sticky engine engine' w l w' :
  faults w = [] -> LOCK_FILE_NAME ∉ others w -> marker w = [] ->
  acquire engine w = (Ok l, w') ->
  acquire engine' w' = (Err StoreLocked, w') /\
  (let w'' := set_flock w' false in
   acquire engine' w'' =
   if decide (engine = engine') then (Ok l, set_flock w'' true)
   else (Err (EngineMismatch (StoreType.as_str engine) (StoreType.as_str engine')), w'')).
Proof.
  intros Hc Ho Hm Hrun. rewrite acquire_run in Hrun by done. rewrite Hm in Hrun.
  destruct (flock w); [done|]. cbn in Hrun.
  set (w2 := set_flock (with_lock_file w) true) in *.
  injection Hrun as <- <-. destruct (with_lock_file_same w) as (Hf1 & _ & Ho1).
  assert (faults w2 = []) as Hf2 by by rewrite <- Hc.
  assert (LOCK_FILE_NAME ∉ others w2) as Ho2 by by rewrite <- Ho1 in Ho.
  assert (dir w2 !! LOCK_FILE_NAME = Some (lock_handle w)) as Hd by apply with_lock_file_dir.
  assert (lock_handle w2 = lock_handle w) as Hlh by apply lock_handle_with.
  assert (marker (stamped w2 engine) = StoreType.as_str engine) as Hmk.
  { rewrite stamped_marker by by rewrite Hlh.
    rewrite (marker_with_lock_file w true : marker w2 = _). by rewrite Hm. }
  assert (with_lock_file (stamped w2 engine) = stamped w2 engine) as Hw1
    by (unfold with_lock_file; change (dir (stamped w2 engine)) with (dir w2); by rewrite Hd).
  split.
  - rewrite acquire_run; [by rewrite Hw1|exact Hf2|exact Ho2].
  - cbv zeta. rewrite acquire_run; [|exact Hf2|exact Ho2].
    assert (with_lock_file (set_flock (stamped w2 engine) false) =
      set_flock (stamped w2 engine) false) as Hw2.
    { unfold with_lock_file at 1.
      change (dir (set_flock (stamped w2 engine) false)) with (dir w2). by rewrite Hd. }
    rewrite Hw2.
    change (marker (set_flock (stamped w2 engine) false)) with (marker (stamped w2 engine)).
    change (lock_handle (set_flock (stamped w2 engine) false)) with (lock_handle w2).
    rewrite Hmk, Hlh, trim_as_str. cbn [flock set_flock].
    replace (utf8_valid (StoreType.as_str engine)) with true by by destruct engine.
    rewrite decide_False by by destruct engine.
    destruct (decide (engine = engine')) as [<-|Hne]; [by rewrite decide_True|].
    rewrite decide_False; [done|]. intros E. by apply Hne, as_str_inj.
Qed.

(** An empty directory. *)
Definition empty_world : World :=
  {| dir := ∅; others := []; inodes := ∅; next_inode := 0; flock := false;
     clock := 1700000000000; ticks := []; faults := [] |}.

Lemma acquire_spec_witness :
  exists l w', acquire StoreType.Bitcask empty_world = (Ok l, w') /\ marker w' = lit "bitcask" /\
    flock w' = true.
Proof.
  pose proof (acquire_spec StoreType.Bitcask empty_world) as H.
  specialize (H eq_refl ltac:(apply not_elem_of_nil)).
  destruct (acquire StoreType.Bitcask empty_world) as [[l|e|] w'] eqn:E;
    [|vm_compute in E; discriminate|vm_compute in E; discriminate].
  exists l, w'. destruct H as (_ & Hl & _ & [(_ & Hm & _)|(Hm & _)]).
  - split; [reflexivity|]. split; [exact Hm|exact Hl].
  - vm_compute in Hm. discriminate.
Defined.

Lemma engine_is_sticky_witness :
  exists l w', acquire StoreType.Bitcask empty_world = (Ok l, w') /\
    fst (acquire StoreType.Sled (set_flock w' false)) =
    Err (EngineMismatch (lit "bitcask") (lit "sled")).
Proof.
  destruct (acquire StoreType.Bitcask empty_world) as [[l|e|] w'] eqn:E;
    [|vm_compute in E; discriminate|vm_compute in E; discriminate].
  exists l, w'. split; [reflexivity|].
  destruct (engine_is_sticky StoreType.Bitcask StoreType.Sled empty_world l w') as [_ H].
  - reflexivity.
  - apply not_elem_of_nil.
  - reflexivity.
  - exact E.
  - cbv zeta in H. rewrite H. reflexivity.
Defined.
