(* ===== verification/BTree.v ===== *)
(** * Ordered maps

    [BTreeMap<u64, V>] as the code uses it: insertion, lookup, and iteration in
    ascending key order. The map is its list of entries, sorted by key. *)

From Stdlib Require Import ZArith Lia.
From stdpp Require Import base numbers list.
From S2P Require Import Prelude.

Local Open Scope Z_scope.

Module BTreeMap.
Section btree.
Context {V : Type}.

Fixpoint insert (k : Z) (v : V) (m : list (Z * V)) : list (Z * V) :=
  match m with
  | [] => [(k, v)]
  | (k', v') :: m' =>
      if k <? k' then (k, v) :: m
      else if k =? k' then (k, v) :: m'
      else (k', v') :: insert k v m'
  end.

Fixpoint get (k : Z) (m : list (Z * V)) : option V :=
  match m with
  | [] => None
  | (k', v') :: m' => if k =? k' then Some v' else get k m'
  end.

End btree.
End BTreeMap.

(** ** The representation invariant and the map laws *)

Section laws.
Context {V : Type}.
Implicit Types (m : list (Z * V)).

(** Keys strictly ascending. *)
Fixpoint sorted_from (lo : Z) m : Prop :=
  match m with
  | [] => True
  | (k, _) :: m' => lo < k /\ sorted_from k m'
  end.

Definition btree_ok m : Prop :=
  match m with [] => True | (k, _) :: m' => sorted_from k m' end.

Lemma sorted_from_weaken lo lo' m : lo' <= lo -> sorted_from lo m -> sorted_from lo' m.
Proof. destruct m as [|[k v] m]; simpl; [done|]. intros ? [? ?]. split; [lia|done]. Qed.

Lemma sorted_from_insert lo k v m :
  lo < k -> sorted_from lo m -> sorted_from lo (BTreeMap.insert k v m).
Proof.
  revert lo. induction m as [|[k' v'] m IH]; intros lo Hk; simpl; [done|].
  intros [Hlo Hs]. destruct (Z.ltb_spec k k'); [simpl; auto with lia|].
  destruct (Z.eqb_spec k k') as [->|]; [by split|]. split; [done|]. apply IH; [lia|done].
Qed.

Lemma btree_ok_from m : btree_ok m -> exists lo, sorted_from lo m.
Proof.
  destruct m as [|[k v] m]; [by exists 0|]. intros H. exists (k - 1). split; [lia|done].
Qed.

Lemma sorted_from_ok lo m : sorted_from lo m -> btree_ok m.
Proof. destruct m as [|[k v] m]; [done|]. by intros [_ ?]. Qed.

Lemma btree_insert_ok k v m : btree_ok m -> btree_ok (BTreeMap.insert k v m).
Proof.
  intros H. apply btree_ok_from in H as [lo H].
  apply (sorted_from_ok (Z.min lo (k - 1))), sorted_from_insert; [lia|].
  by eapply sorted_from_weaken; [|done]; lia.
Qed.

Lemma sorted_from_get_lt lo k m : sorted_from lo m -> k <= lo -> BTreeMap.get k m = None.
Proof.
  revert lo. induction m as [|[k' v'] m IH]; intros lo; simpl; [done|]. intros [H1 H2] Hk.
  destruct (Z.eqb_spec k k'); [lia|]. apply (IH k'); [done|lia].
Qed.

Lemma btree_get_insert k v k' m :
  BTreeMap.get k' (BTreeMap.insert k v m) = if decide (k = k') then Some v else BTreeMap.get k' m.
Proof.
  induction m as [|[j u] m IH]; simpl.
  - destruct (Z.eqb_spec k' k); case_decide; congruence.
  - destruct (Z.ltb_spec k j); [|destruct (Z.eqb_spec k j) as [->|]]; simpl.
    + destruct (Z.eqb_spec k' k); case_decide; congruence.
    + destruct (Z.eqb_spec k' j); case_decide; congruence.
    + destruct (Z.eqb_spec k' j) as [->|]; [by rewrite decide_False|]. apply IH.
Qed.

Lemma sorted_from_elem lo m k v : sorted_from lo m -> (k, v) ∈ m -> lo < k.
Proof.
  revert lo. induction m as [|[k' v'] m IH]; intros lo; simpl; [by intros _ ?%not_elem_of_nil|].
  intros [H1 H2] [[= -> ->]|H]%elem_of_cons; [done|]. apply (IH k') in H; [lia|done].
Qed.

Lemma btree_get_elem m k v : btree_ok m -> BTreeMap.get k m = Some v <-> (k, v) ∈ m.
Proof.
  intros H. apply btree_ok_from in H as [lo H]. revert lo H.
  induction m as [|[k' v'] m IH]; intros lo H; simpl.
  - split; [done|by intros ?%not_elem_of_nil].
  - destruct H as [Hlo H]. rewrite elem_of_cons.
    destruct (Z.eqb_spec k k') as [->|Hne].
    + split; [intros [= ->]; by left|]. intros [[= ->]|Hin]; [done|].
      apply (sorted_from_elem k') in Hin; [lia|done].
    + rewrite (IH k') by done. split; [by right|]. intros [[= -> ->]|]; done.
Qed.

(** Inserting above every key appends. *)
Lemma btree_insert_last k v m :
  (forall j u, (j, u) ∈ m -> j < k) -> BTreeMap.insert k v m = m ++ [(k, v)].
Proof.
  induction m as [|[j u] m IH]; intros H; [done|]. simpl.
  pose proof (H j u (list_elem_of_here _ _)).
  rewrite (proj2 (Z.ltb_ge _ _)), (proj2 (Z.eqb_neq _ _)) by lia. f_equal.
  apply IH. intros j' u' Hin. apply (H j' u'). by right.
Qed.

Lemma btree_elem_insert k v m j u :
  btree_ok m ->
  (j, u) ∈ BTreeMap.insert k v m <-> (j = k /\ u = v) \/ (j <> k /\ (j, u) ∈ m).
Proof.
  intros Hok. rewrite <- !btree_get_elem by auto using btree_insert_ok.
  rewrite btree_get_insert. case_decide as Hk.
  - subst. split; [intros [= ->]; by left|]. by intros [[_ ->]|[? _]].
  - split; [intros; right; by split|]. by intros [[-> _]|[_ ?]].
Qed.
Lemma btree_ok_app_l m1 m2 : btree_ok (m1 ++ m2) -> btree_ok m1.
Proof.
  intros H. apply btree_ok_from in H as [lo H]. apply (sorted_from_ok lo). revert lo H.
  induction m1 as [|[k v] m1 IH]; intros lo; [done|]. cbn. intros [H1 H2]. split; [done|by apply IH].
Qed.

End laws.
