(* ===== verification/Engine.v ===== *)
(** * The engine: shared state, writes and reads

    [Shared], [WriterState], [Handle] and [Bitcask] of src/storage/bitcask.rs,
    without recovery (Load.v) and the merge (Merge.v). The state of the code
    here is the pair of the struct and the [World] it acts on. A method that
    holds the writer's mutex runs as one step: [with_writer_lock] takes the
    mutex, and a panic while it is held poisons it. *)

From Stdlib Require Import ZArith Lia Strings.Byte.
From stdpp Require Import base numbers list strings gmap.
From S2P Require Import Prelude Bytes Crc CommandFormat HintFormat Streams KeyDir Text Names Config FileSystem Lock BTree.

Local Open Scope Z_scope.

Record WriterState : Type := {
  current_file_id : Z;
  file : File;
  offset : Z;
  flushed_offset : Z;
  last_ts_flushed : Z;
  stale_bytes_count : Z
}.

Module Shared.

Record Shared : Type := {
  index : Index.Index;
  readers : list (Z * File);
  writer : WriterState;
  writer_poisoned : bool;
  config : Config.Config;
  lock_file : LockFile.LockFile
}.

Definition SM (A : Type) : Type := M (Shared * World) A.

(** ** Field updates *)
Definition set_index (sh : Shared) (i : Index.Index) : Shared :=
  {| index := i; readers := readers sh; writer := writer sh;
     writer_poisoned := writer_poisoned sh; config := config sh; lock_file := lock_file sh |}.
Definition set_readers (sh : Shared) (r : list (Z * File)) : Shared :=
  {| index := index sh; readers := r; writer := writer sh;
     writer_poisoned := writer_poisoned sh; config := config sh; lock_file := lock_file sh |}.
Definition set_writer (sh : Shared) (wr : WriterState) : Shared :=
  {| index := index sh; readers := readers sh; writer := wr;
     writer_poisoned := writer_poisoned sh; config := config sh; lock_file := lock_file sh |}.
Definition poison_writer (sh : Shared) : Shared :=
  {| index := index sh; readers := readers sh; writer := writer sh;
     writer_poisoned := true; config := config sh; lock_file := lock_file sh |}.

(** Mutating the writer's state through the guard. *)
Definition update_writer (f : WriterState -> WriterState) : SM unit :=
  on_fst (modify (fun sh => set_writer sh (f (writer sh)))).
Definition get_writer : SM WriterState := gets (fun s => writer (fst s)).
Definition get_config : SM Config.Config := gets (fun s => config (fst s)).

Definition sync : SM unit :=
  let! w := get_writer in
  on_snd (sync_all (file w)) ;;!
  update_writer (fun w =>
    {| current_file_id := current_file_id w; file := file w; offset := offset w;
       flushed_offset := offset w; last_ts_flushed := last_ts_flushed w;
       stale_bytes_count := stale_bytes_count w |}).

(** The copy-on-write update of the readers map: clone, mutate, publish. *)
Definition readers_update (mutate : list (Z * File) -> list (Z * File)) : SM unit :=
  on_fst (modify (fun sh => set_readers sh (mutate (readers sh)))).

(** [let guard = self.writer_lock()?; body]. *)
Definition with_writer_lock {A} (body : SM A) : SM A := fun s =>
  if writer_poisoned (fst s) then (Err LockPoisoned, s)
  else match body s with
       | (Panic, (sh, w)) => (Panic, (poison_writer sh, w))
       | r => r
       end.

Definition rotate_to (next_file_id : Z) : SM unit :=
  sync ;;!
  let next_file := data_file_name next_file_id in
  let! next_file_writer := on_snd (open_create next_file) in
  update_writer (fun w =>
    {| current_file_id := next_file_id; file := next_file_writer; offset := 0;
       flushed_offset := 0; last_ts_flushed := last_ts_flushed w;
       stale_bytes_count := stale_bytes_count w |}) ;;!
  let! now := on_snd unix_now in
  update_writer (fun w =>
    {| current_file_id := current_file_id w; file := file w; offset := offset w;
       flushed_offset := flushed_offset w; last_ts_flushed := as_millis now;
       stale_bytes_count := stale_bytes_count w |}) ;;!
  let! next_file_reader := on_snd (open_read next_file) in
  readers_update (BTreeMap.insert next_file_id next_file_reader).

Definition rotate_if_full : SM unit :=
  let! w := get_writer in
  let! c := get_config in
  if offset w <? Config.file_size_threshold c then ret tt
  else
    let! next := of_outcome (u64_add (current_file_id w) 1) in
    rotate_to next.

(** The body of a block that holds the write lock of [key]'s bucket: what it
    leaves in the map is published, and a panic poisons the lock. *)
Definition with_bucket {A} (key : list byte)
  (body : Index.HashMap -> SM (A * Index.HashMap)) : SM A := fun s =>
  match Index.write_access (index (fst s)) key with
  | Ok m =>
      match body m s with
      | (Ok (a, m'), (sh, w)) =>
          (Ok a, (set_index sh (Index.write_back (index sh) key m'), w))
      | (Err e, s') => (Err e, s')
      | (Panic, (sh, w)) =>
          (Panic, (set_index sh {| Index.index :=
             alter (fun l => {| Index.locked_map := Index.locked_map l; Index.poisoned := true |})
               (Index.get_bucket key) (Index.index (index sh)) |}, w))
      end
  | Err e => (Err e, s)
  | Panic => (Panic, s)
  end.

(** [single_writer.stale_bytes_count += n] *)
Definition add_stale (n : Z) : SM unit :=
  let! w := get_writer in
  let! total := of_outcome (u64_add (stale_bytes_count w) n) in
  update_writer (fun w =>
    {| current_file_id := current_file_id w; file := file w; offset := offset w;
       flushed_offset := flushed_offset w; last_ts_flushed := last_ts_flushed w;
       stale_bytes_count := total |}).

End Shared.

Import Shared.

Module Bitcask.

(** [Handle]: the shared state and the sending half of the merge channel.
    [compaction_tx] is [None] once the handle is dropped; the channel holds at
    most one signal. The thread behind it is the merge of Merge.v. *)
Record Handle : Type := {
  shared : Shared;
  compaction_tx : option bool
}.

Definition BM (A : Type) : Type := M (Handle * World) A.

(** Running a method of [Shared]. *)
Definition on_shared {A} (c : SM A) : BM A := fun s =>
  let '(o, (sh, w)) := c (shared (fst s), snd s) in
  (o, ({| shared := sh; compaction_tx := compaction_tx (fst s) |}, w)).

(** [tx.try_send(())]: the send fails, and the signal is dropped, when one is
    already waiting. *)
Definition try_send : BM unit :=
  on_fst (modify (fun h => {| shared := shared h; compaction_tx := Some true |})).

Definition handle_policy : BM unit :=
  let! c := on_shared get_config in
  match Config.durability_policy c with
  | SyncOnEveryPut => on_shared sync
  | SyncOnInterval =>
      let! now := on_snd unix_now in
      let now := as_millis now in
      let! w := on_shared get_writer in
      let! elapsed := of_outcome (u64_sub now (last_ts_flushed w)) in
      if Config.flush_threshold_millis c <=? elapsed then
        on_shared sync ;;!
        on_shared (update_writer (fun w =>
          {| current_file_id := current_file_id w; file := file w; offset := offset w;
             flushed_offset := flushed_offset w; last_ts_flushed := now;
             stale_bytes_count := stale_bytes_count w |}))
      else ret tt
  | OsDecides => ret tt
  end.

Definition compaction_trigger : BM unit :=
  let! w := on_shared get_writer in
  let! c := on_shared get_config in
  if Config.compaction_threshold c <=? stale_bytes_count w then
    let! h := gets fst in
    match compaction_tx h with
    | Some _ => try_send
    | None => ret tt
    end
  else ret tt.

Definition post_write_ops : BM unit :=
  compaction_trigger ;;!
  handle_policy ;;!
  on_shared rotate_if_full.

(** [with_writer_lock] around code that also uses the channel. *)
Definition with_writer_lock_b {A} (body : BM A) : BM A := fun s =>
  if writer_poisoned (shared (fst s)) then (Err LockPoisoned, s)
  else match body s with
       | (Panic, (h, w)) =>
           (Panic, ({| shared := poison_writer (shared h);
                       compaction_tx := compaction_tx h |}, w))
       | r => r
       end.

Section ops.
Context `{Crc : Crc32}.

(** The index update of [append], under the bucket's write lock. *)
Definition append_index (command : Command.Command) (serialized_len : Z) : SM unit :=
  let! w := get_writer in
  let key := Command.get_key command in
  match command with
  | Command.Set_ _ _ _ =>
      let index_value := {| IndexValue.file_id := current_file_id w;
                            IndexValue.ts := Command.get_timestamp command;
                            IndexValue.offset := offset w;
                            IndexValue.len := serialized_len |} in
      with_bucket key (fun m =>
        match m !! key with
        | Some old => add_stale (IndexValue.len old) ;;! ret (tt, <[key := index_value]> m)
        | None => ret (tt, <[key := index_value]> m)
        end)
  | Command.Rm _ _ =>
      with_bucket key (fun m =>
        match m !! key with
        | Some old => add_stale (IndexValue.len old) ;;! ret (tt, delete key m)
        | None => ret (tt, delete key m)
        end)
  end.

(** [append] up to [post_write_ops]: write the record, index it, advance. *)
Definition append_record (command : Command.Command) : BM unit :=
  let serialized_command := Command.serialize command in
  let! w := on_shared get_writer in
  on_snd (file_write_all (file w) serialized_command) ;;!
  on_shared (append_index command (blen serialized_command)) ;;!
  let! w := on_shared get_writer in
  let! total := of_outcome (u64_add (offset w) (blen serialized_command)) in
  on_shared (update_writer (fun w =>
    {| current_file_id := current_file_id w; file := file w; offset := total;
       flushed_offset := flushed_offset w; last_ts_flushed := last_ts_flushed w;
       stale_bytes_count := stale_bytes_count w |})).

Definition append (command : Command.Command) : BM unit :=
  with_writer_lock_b (append_record command ;;! post_write_ops).

Definition set_ (key value : list byte) : BM unit :=
  let! now := on_snd unix_now in
  append (Command.Set_ (as_secs now) key value).

(** [remove] in its two parts, between which other threads can run: the check
    of the index, and the append. *)
Definition remove_check (key : list byte) : BM bool :=
  let! h := gets fst in
  let! m := of_outcome (Index.read_access (index (shared h)) key) in
  ret (bool_decide (is_Some (m !! key))).

Definition remove_append (key : list byte) : BM unit :=
  let! now := on_snd unix_now in
  append (Command.Rm (as_secs now) key).

Definition remove (key : list byte) : BM unit :=
  let! found := remove_check key in
  if found then remove_append key else throw KeyNotFound.

(** One turn of the loop of [get] in its two parts: the lookup in the index,
    under the bucket's read lock, and the read of the record it points to, with
    the map of the readers as it is then; [None] is [continue]. *)
Definition get_index (key : list byte) : BM (option IndexValue) :=
  let! h := gets fst in
  let! m := of_outcome (Index.read_access (index (shared h)) key) in
  ret (m !! key).

Definition get_read (entry : IndexValue) : BM (option (option (list byte))) :=
  let! h := gets fst in
  match BTreeMap.get (IndexValue.file_id entry) (readers (shared h)) with
  | None => ret None
  | Some f =>
      let! buf := on_snd (read_exact_at f (IndexValue.len entry) (IndexValue.offset entry)) in
      let! d := of_outcome (Command.deserialize buf) in
      match Command.get_value (fst d) with
      | None => ret (Some None)
      | Some value =>
          (* buf.drain(..buf.len() - value_len) *)
          let! n := of_outcome (u64_sub (blen buf) (blen value)) in
          let! v := of_outcome (from_utf8 (zdrop n buf)) in
          ret (Some (Some v))
      end
  end.

Definition get_once (key : list byte) : BM (option (option (list byte))) :=
  let! e := get_index key in
  match e with
  | None => ret (Some None)
  | Some entry => get_read entry
  end.

(** The loop, for at most [fuel] turns; the run that needs more turns is not
    over, and counts as a panic here. *)
Fixpoint get (fuel : nat) (key : list byte) : BM (option (list byte)) :=
  match fuel with
  | O => panic
  | S fuel =>
      let! r := get_once key in
      match r with
      | Some v => ret v
      | None => get fuel key
      end
  end.

End ops.
End Bitcask.
