(* ===== verification/Load.v ===== *)
(** * Recovery: opening a store

    [Loader::replay] and [Bitcask::open] of src/storage/bitcask.rs: cleaning
    the directory of unfinished merge outputs and orphan hints, electing the
    active file, and rebuilding the index from hint files and data files in
    ascending id order. *)

From Stdlib Require Import ZArith Lia Strings.Byte.
From stdpp Require Import base numbers list strings gmap.
From S2P Require Import Prelude Bytes Crc CommandFormat HintFormat Streams Reader KeyDir Text Names Config FileSystem Lock BTree Engine.
Import RecordReader.

Local Open Scope Z_scope.

Module Loader.

Record Loader : Type := {
  readers : list (Z * File);
  index : list Index.HashMap;
  writer : WriterState
}.

Definition LM (A : Type) : Type := M (Loader * World) A.

Definition set_index (l : Loader) (i : list Index.HashMap) : Loader :=
  {| readers := readers l; index := i; writer := writer l |}.
Definition set_offset (l : Loader) (o : Z) : Loader :=
  let w := writer l in
  {| readers := readers l; index := index l;
     writer := {| current_file_id := current_file_id w; file := file w; offset := o;
                  flushed_offset := flushed_offset w; last_ts_flushed := last_ts_flushed w;
                  stale_bytes_count := stale_bytes_count w |} |}.
Definition set_stale (l : Loader) (s : Z) : Loader :=
  let w := writer l in
  {| readers := readers l; index := index l;
     writer := {| current_file_id := current_file_id w; file := file w; offset := offset w;
                  flushed_offset := flushed_offset w; last_ts_flushed := last_ts_flushed w;
                  stale_bytes_count := s |} |}.

Definition upd (f : Loader -> Loader) : LM unit := on_fst (modify f).

Section replay.
Context `{Crc : Crc32}.

(** The loop over a hint file: [true] when all of it was loaded. *)
Fixpoint hint_loop (fuel : nat) (file_id : Z) (rr : RecordReader) : LM bool :=
  match fuel with
  | O => panic
  | S fuel =>
      let (o, rr') := next_record rr in
      let! r := of_outcome o in
      match r with
      | Record_ _ bytes =>
          match IndexValue.deserialize bytes file_id with
          | Ok (key, value, _) =>
              upd (fun l => set_index l (Index.bucket_insert (index l) key value)) ;;!
              hint_loop fuel file_id rr'
          | Err _ => ret false
          | Panic => panic
          end
      | CleanEof => ret true
      | TornTail _ => ret false
      end
  end.

(** What one record of a data file does to the index. *)
Definition replay_record (file_id position : Z) (bytes : list byte) : LM unit :=
  let! d := of_outcome (Command.deserialize bytes) in
  match fst d with
  | Command.Set_ ts key _ =>
      let value := {| IndexValue.file_id := file_id; IndexValue.ts := ts;
                      IndexValue.offset := position; IndexValue.len := blen bytes |} in
      upd (fun l => set_index l (Index.bucket_insert (index l) key value))
  | Command.Rm _ key =>
      let! l := gets fst in
      let! stale := of_outcome (u64_add (stale_bytes_count (writer l)) (blen bytes)) in
      upd (fun l => set_stale l stale) ;;!
      upd (fun l => set_index l (Index.bucket_remove (index l) key))
  end ;;!
  let! l := gets fst in
  let! o := of_outcome (u64_add (offset (writer l)) (blen bytes)) in
  upd (fun l => set_offset l o).

(** The loop over a data file: [true] when [replay] returns here. *)
Fixpoint data_loop (fuel : nat) (file_id : Z) (rr : RecordReader) : LM bool :=
  match fuel with
  | O => panic
  | S fuel =>
      let (o, rr') := next_record rr in
      let! r := of_outcome o in
      match r with
      | Record_ position bytes =>
          replay_record file_id position bytes ;;!
          data_loop fuel file_id rr'
      | CleanEof => ret false
      | TornTail position =>
          let! l := gets fst in
          if file_id =? current_file_id (writer l) then
            on_snd (set_len (file (writer l)) position) ;;!
            upd (fun l => set_offset l position) ;;!
            ret true
          else throw Corruption
      end
  end.

(** A file is scanned in at most as many turns as it has bytes, plus one. *)
Definition loop_fuel (s : Stream) : nat := S (length (avail s)).

(** The hint file of [file_id], if there is one to use: [true] when it replaces
    the replay of the data file. A damaged hint file is deleted. *)
Definition replay_hint (file_id : Z) : LM bool :=
  let! l := gets fst in
  let hint_file_path := hint_file_name file_id in
  let! use := (if negb (file_id =? current_file_id (writer l))
               then on_snd (exists_ hint_file_path) else ret false) in
  if use then
    let! hint_file := on_snd (open_read hint_file_path) in
    let! hint_file_len := on_snd (metadata_len hint_file) in
    let! stream := on_snd (file_stream hint_file) in
    let! hint_processed :=
      hint_loop (loop_fuel stream) file_id (RecordReader.new stream hint_file_len) in
    if hint_processed then ret true
    else on_snd (remove_file hint_file_path) ;;! ret false
  else ret false.

(** One turn of the loop over the readers: [true] when [replay] returns here. *)
Definition replay_file (file_id : Z) (reader_file : File) : LM bool :=
  let! hinted := replay_hint file_id in
  if hinted then ret false
  else
    let! stream := on_snd (file_stream reader_file) in
    let! data_file_len := on_snd (metadata_len reader_file) in
    upd (fun l => set_offset l 0) ;;!
    data_loop (loop_fuel stream) file_id (RecordReader.new stream data_file_len).

Fixpoint replay_files (files : list (Z * File)) : LM unit :=
  match files with
  | [] => ret tt
  | (file_id, reader_file) :: files =>
      let! stop := replay_file file_id reader_file in
      if stop then ret tt else replay_files files
  end.

Definition replay : LM unit :=
  let! l := gets fst in
  replay_files (readers l).

End replay.
End Loader.

Module Open.
Section open.
Context `{Crc : Crc32} (order : list Name -> list Name).

(** What [open] keeps while it walks the directory: the read handles found so
    far and the highest id. *)
Definition Found : Type := (list (Z * File)) * option Z.

Definition scan_entry (name : Name) (found : Found) : M World Found :=
  syscall (ret tt) fails ;;!  (* [entry?] *)
  let! file := is_file name in
  if negb file then ret found
  else if negb (utf8_valid name) then ret found  (* [to_str] *)
  else match get_file_id name with
  | None =>
      (if ends_with (lit ".data.compact") name then remove_file name
       else match get_hint_id name with
            | Some id =>
                let! e := exists_ (data_file_name id) in
                if e then ret tt else remove_file name
            | None => ret tt
            end) ;;!
      ret found
  | Some id =>
      let! h := open_read name in
      ret (BTreeMap.insert id h (fst found),
           Some (match snd found with None => id | Some m => Z.max m id end))
  end.

Fixpoint scan_dir (names : list Name) (found : Found) : M World Found :=
  match names with
  | [] => ret found
  | name :: names => let! found := scan_entry name found in scan_dir names found
  end.

(** The end of [open]: open the active file, replay the log, put the parts
    together. *)
Definition load (config : Config.Config) (lock_file : LockFile.LockFile)
  (read_handlers : list (Z * File)) (current_id : Z) : M World Bitcask.Handle :=
  let current_path := data_file_name current_id in
  let! f := open_create current_path in
  let! now := unix_now in
  let writer_state := {| current_file_id := current_id; file := f; offset := 0;
                         flushed_offset := 0; last_ts_flushed := as_millis now;
                         stale_bytes_count := 0 |} in
  let! r_file := open_read current_path in
  let read_handlers := BTreeMap.insert current_id r_file read_handlers in
  let loader := {| Loader.readers := read_handlers;
                   Loader.index := replicate Index.INDEX_BUCKETS_NUM ∅;
                   Loader.writer := writer_state |} in
  fun w =>
    match Loader.replay (loader, w) with
    | (Ok _, (l, w')) =>
        (Ok {| Bitcask.shared :=
                 {| Shared.index := Index.from (Loader.index l);
                    Shared.readers := Loader.readers l;
                    Shared.writer := Loader.writer l;
                    Shared.writer_poisoned := false;
                    Shared.config := config;
                    Shared.lock_file := lock_file |};
               Bitcask.compaction_tx := Some false |}, w')
    | (Err e, (_, w')) => (Err e, w')
    | (Panic, (_, w')) => (Panic, w')
    end.

(** The part of [open] that runs with the lock file held. Without data files
    the active file is [000001.data]. *)
Definition open_locked (config : Config.Config) (lock_file : LockFile.LockFile)
  : M World Bitcask.Handle :=
  let! names := read_dir order in
  let! found := scan_dir names ([], None) in
  let '(read_handlers, max_id) := found in
  load config lock_file read_handlers (match max_id with None => 1 | Some max => max end).

Definition open (config : Config.Config) : M World Bitcask.Handle :=
  create_dir_all ;;!
  let! lock_file := LockFile.acquire StoreType.Bitcask in
  (* an error drops [lock_file], and with it the lock *)
  mcatch (open_locked config lock_file)
    ret
    (fun e => LockFile.unlock ;;! throw e).

End open.
End Open.
