(* ===== verification/Merge.v ===== *)
(** * The merge

    [run_compaction], [finish_output], [MergeOutput] and [PendingUpdate] of
    src/storage/bitcask.rs, the compaction thread and [Drop for Handle]. The
    merge is written as the composition of the steps between which other
    threads can run: taking the snapshot under the writer's mutex, one record
    at a time, publishing an output, one index update at a time, deleting one
    source at a time. *)

From Stdlib Require Import ZArith Lia Strings.Byte.
From stdpp Require Import base numbers list strings gmap.
From S2P Require Import Prelude Bytes Crc CommandFormat HintFormat Streams Reader KeyDir Text Names Config FileSystem Lock BTree Engine Load.
Import RecordReader.

Local Open Scope Z_scope.

Record PendingUpdate : Type := {
  key : list byte;
  previous_value : IndexValue;
  new_value : IndexValue
}.

Module MergeOutput.

Record MergeOutput : Type := {
  id : Z;
  data : BufWriter.BufWriter;
  hint : BufWriter.BufWriter;
  written : Z
}.

Definition open (id : Z) : M World MergeOutput :=
  let! data := open_create (data_file_name_compaction id) in
  let! hint := open_create (hint_file_name id) in
  ret {| id := id; data := BufWriter.new data; hint := BufWriter.new hint; written := 0 |}.

(** A method of one of the two buffered writers. *)
Definition on_data {A} (c : M (BufWriter.BufWriter * World) A) : M (MergeOutput * World) A :=
  fun '(self, w) =>
    let '(o, (d, w')) := c (data self, w) in
    (o, ({| id := id self; data := d; hint := hint self; written := written self |}, w')).
Definition on_hint {A} (c : M (BufWriter.BufWriter * World) A) : M (MergeOutput * World) A :=
  fun '(self, w) =>
    let '(o, (h, w')) := c (hint self, w) in
    (o, ({| id := id self; data := data self; hint := h; written := written self |}, w')).

Section append.
Context `{Crc : Crc32}.

Definition append (record key : list byte) (ts : Z) : M (MergeOutput * World) IndexValue :=
  on_data (BufWriter.write_all record) ;;!
  let! self := gets fst in
  let index_value := {| IndexValue.file_id := id self; IndexValue.ts := ts;
                        IndexValue.offset := written self; IndexValue.len := blen record |} in
  on_hint (BufWriter.write_all (IndexValue.serialize index_value key)) ;;!
  let! total := of_outcome (u64_add (written self) (blen record)) in
  on_fst (modify (fun self => {| id := id self; data := data self; hint := hint self;
                                 written := total |})) ;;!
  ret index_value.
End append.

Definition sync : M (MergeOutput * World) unit :=
  on_data BufWriter.flush ;;!
  let! self := gets fst in
  on_snd (sync_all (BufWriter.file (data self))) ;;!
  on_hint BufWriter.flush ;;!
  let! self := gets fst in
  on_snd (sync_all (BufWriter.file (hint self))).

Definition is_full (self : MergeOutput) (threshold : Z) : bool := threshold <=? written self.

(** Dropping an output that was not finished flushes its writers, ignoring
    errors. *)
Definition drop (self : MergeOutput) (w : World) : World :=
  let '(_, (_, w)) := BufWriter.flush (data self, w) in
  let '(_, (_, w)) := BufWriter.flush (hint self, w) in w.

End MergeOutput.

Import MergeOutput(MergeOutput).
Import Shared.

Module Compaction.

(** ** Step 0: the snapshot, under the writer's mutex *)

(** [f.metadata().map(|m| m.len()).unwrap_or(0)], summed. *)
Fixpoint total_len (snapshot : list (Z * File)) : SM Z :=
  match snapshot with
  | [] => ret 0
  | (_, f) :: snapshot =>
      let! n := mcatch (on_snd (metadata_len f)) ret (fun _ => ret 0) in
      let! rest := total_len snapshot in
      of_outcome (u64_add n rest)
  end.

Record Start : Type := {
  readers_snapshot : list (Z * File);
  init_stale_bytes : Z;
  first_compacted_file_id : Z
}.

(** [None]: there is nothing to merge, [run_compaction] returns [Ok(())]. *)
Definition begin : SM (option Start) :=
  with_writer_lock (
    let! w := get_writer in
    let! c := get_config in
    if stale_bytes_count w <? Config.compaction_threshold c then ret None
    else
      let! all := gets (fun s => readers (fst s)) in
      let snapshot := filter (fun e => fst e <> current_file_id w) all in
      if decide (snapshot = []) then ret None
      else
        let stale := stale_bytes_count w in
        let! total_bytes := total_len snapshot in
        if Config.file_size_threshold c =? 0 then panic  (* division by zero *)
        else
          let reserve := total_bytes / Config.file_size_threshold c + 2 in
          let! n := of_outcome (u64_add (current_file_id w) reserve) in
          let! next_active := of_outcome (u64_add n 1) in
          let prev_file_id := current_file_id w in
          rotate_to next_active ;;!
          ret (Some {| readers_snapshot := snapshot; init_stale_bytes := stale;
                       first_compacted_file_id := prev_file_id |})).

(** ** The local variables of the merge *)

Record Merge : Type := {
  output : option MergeOutput;
  next_compaction_file_id : Z;
  pending_records : list PendingUpdate;
  ids_to_remove : list Z;
  new_files : list Z
}.

Definition MM (A : Type) : Type := M (Merge * (Shared * World)) A.

Definition set_output (m : Merge) (o : option MergeOutput) : Merge :=
  {| output := o; next_compaction_file_id := next_compaction_file_id m;
     pending_records := pending_records m; ids_to_remove := ids_to_remove m;
     new_files := new_files m |}.
Definition set_next_id (m : Merge) (n : Z) : Merge :=
  {| output := output m; next_compaction_file_id := n;
     pending_records := pending_records m; ids_to_remove := ids_to_remove m;
     new_files := new_files m |}.
Definition set_pending (m : Merge) (p : list PendingUpdate) : Merge :=
  {| output := output m; next_compaction_file_id := next_compaction_file_id m;
     pending_records := p; ids_to_remove := ids_to_remove m; new_files := new_files m |}.
Definition set_to_remove (m : Merge) (ids : list Z) : Merge :=
  {| output := output m; next_compaction_file_id := next_compaction_file_id m;
     pending_records := pending_records m; ids_to_remove := ids; new_files := new_files m |}.
Definition add_new_file (m : Merge) (id : Z) : Merge :=
  {| output := output m; next_compaction_file_id := next_compaction_file_id m;
     pending_records := pending_records m; ids_to_remove := ids_to_remove m;
     new_files := id :: new_files m |}.

Definition upd (f : Merge -> Merge) : MM unit := on_fst (modify f).
Definition on_shared {A} (c : SM A) : MM A := on_snd c.
Definition on_world {A} (c : M World A) : MM A := on_snd (on_snd c).

(** A method of the output that is being written. *)
Definition on_output {A} (c : M (MergeOutput * World) A) : MM A := fun '(m, (sh, w)) =>
  match output m with
  | None => (Panic, (m, (sh, w)))
  | Some out =>
      let '(o, (out', w')) := c (out, w) in (o, (set_output m (Some out'), (sh, w')))
  end.

Section merge.
Context `{Crc : Crc32}.

(** Open the next output unless one is open. *)
Definition ensure_output : MM unit :=
  let! m := gets fst in
  match output m with
  | Some _ => ret tt
  | None =>
      let! next := of_outcome (u64_add (next_compaction_file_id m) 1) in
      upd (fun m => set_next_id m next) ;;!
      let! out := on_world (MergeOutput.open next) in
      upd (fun m => set_output m (Some out))
  end.

(** One record of a source file: copy it when the index still points at it. *)
Definition merge_record (file_id position : Z) (bytes : list byte) : MM unit :=
  let! d := of_outcome (Command.deserialize bytes) in
  match fst d with
  | Command.Set_ ts key _ =>
      let! s := gets (fun s => fst (snd s)) in
      let! m := of_outcome (Index.read_access (index s) key) in
      let sits_in_index := match m !! key with
        | Some e => (IndexValue.file_id e =? file_id) && (IndexValue.offset e =? position)
        | None => false
        end in
      if sits_in_index then
        let! new_index_value := on_output (MergeOutput.append bytes key ts) in
        let prev_index_value := {| IndexValue.file_id := file_id; IndexValue.ts := ts;
                                   IndexValue.offset := position;
                                   IndexValue.len := blen bytes |} in
        upd (fun m => set_pending m (pending_records m ++
          [{| key := key; previous_value := prev_index_value; new_value := new_index_value |}]))
      else ret tt
  | Command.Rm _ _ => ret tt
  end.

Fixpoint merge_loop (fuel : nat) (file_id : Z) (rr : RecordReader) : MM unit :=
  match fuel with
  | O => panic
  | S fuel =>
      let (o, rr') := next_record rr in
      let! r := of_outcome o in
      match r with
      | Record_ position bytes =>
          merge_record file_id position bytes ;;! merge_loop fuel file_id rr'
      | CleanEof => upd (fun m => set_to_remove m (ids_to_remove m ++ [file_id]))
      | TornTail _ => throw Corruption
      end
  end.

(** One deferred index update: applied only when the entry did not change. *)
Definition apply_pending (p : PendingUpdate) : SM unit :=
  with_bucket (key p) (fun m =>
    let still_prev := match m !! key p with
      | Some e => (IndexValue.file_id e =? IndexValue.file_id (previous_value p)) &&
                  (IndexValue.offset e =? IndexValue.offset (previous_value p))
      | None => false
      end in
    ret (tt, if still_prev then <[key p := new_value p]> m else m)).

Fixpoint apply_all (ps : list PendingUpdate) : SM unit :=
  match ps with
  | [] => ret tt
  | p :: ps => apply_pending p ;;! apply_all ps
  end.

(** [finish_output] up to the index updates: sync, rename, add a read handle. It
    returns the updates to make; [pending.drain(..)] empties the list whatever
    happens to them. *)
Definition publish_output : MM (list PendingUpdate) :=
  let! m := gets fst in
  match output m with
  | None => panic
  | Some out =>
      on_output MergeOutput.sync ;;!
      let path := data_file_name_compaction (MergeOutput.id out) in
      let new_path := data_file_name (MergeOutput.id out) in
      on_world (rename path new_path) ;;!
      let! compacted_file := on_world (open_read new_path) in
      on_shared (readers_update (BTreeMap.insert (MergeOutput.id out) compacted_file)) ;;!
      upd (fun m => set_pending (set_output m None) []) ;;!
      ret (pending_records m)
  end.

Definition finish_output : MM unit :=
  let! pending := publish_output in
  on_shared (apply_all pending).

(** The start of a source file: an output to copy to, and the reader over the
    file, with the fuel for its loop. *)
Definition open_source (reader_file : File) : MM (nat * RecordReader) :=
  ensure_output ;;!
  let! stream := on_world (file_stream reader_file) in
  let! file_len := on_world (metadata_len reader_file) in
  ret (Loader.loop_fuel stream, RecordReader.new stream file_len).

(** The end of a source file: is the output full? *)
Definition end_source : MM bool :=
  let! m := gets fst in
  let! c := on_shared get_config in
  match output m with
  | None => panic
  | Some out =>
      upd (fun m => add_new_file m (MergeOutput.id out)) ;;!
      ret (MergeOutput.is_full out (Config.file_size_threshold c))
  end.

Definition merge_file (file_id : Z) (reader_file : File) : MM unit :=
  let! (fuel, rr) := open_source reader_file in
  merge_loop fuel file_id rr ;;!
  let! full := end_source in
  if full then finish_output else ret tt.

Fixpoint merge_files (files : list (Z * File)) : MM unit :=
  match files with
  | [] => ret tt
  | (file_id, reader_file) :: files => merge_file file_id reader_file ;;! merge_files files
  end.

(** Deleting one merged source and its hint file. *)
Definition remove_source (id : Z) : M World unit :=
  remove_file (data_file_name id) ;;!
  let hint_path := hint_file_name id in
  let! e := path_exists hint_path in
  if e then remove_file hint_path else ret tt.

Fixpoint remove_sources (ids : list Z) : M World unit :=
  match ids with
  | [] => ret tt
  | id :: ids => remove_source id ;;! remove_sources ids
  end.

(** [self.writer_lock()?.stale_bytes_count -= init_stale_bytes] *)
Definition finish_stale (init : Z) : SM unit :=
  with_writer_lock (
    let! w := get_writer in
    let! remaining := of_outcome (u64_sub (stale_bytes_count w) init) in
    update_writer (fun w =>
      {| current_file_id := current_file_id w; file := file w; offset := offset w;
         flushed_offset := flushed_offset w; last_ts_flushed := last_ts_flushed w;
         stale_bytes_count := remaining |})).

(** Everything after the snapshot. *)
Definition merge_body (start : Start) : MM unit :=
  merge_files (readers_snapshot start) ;;!
  let! m := gets fst in
  (match output m with Some _ => finish_output | None => ret tt end) ;;!
  let! m := gets fst in
  on_world (remove_sources (ids_to_remove m)) ;;!
  on_shared (finish_stale (init_stale_bytes start)).

Definition init_merge (start : Start) : Merge :=
  {| output := None; next_compaction_file_id := first_compacted_file_id start;
     pending_records := []; ids_to_remove := []; new_files := [] |}.

(** Run [merge_body] on fresh local variables; the locals are dropped at the
    end, an unfinished output with them. *)
Definition run_merge (start : Start) : SM unit := fun s =>
  let '(o, (m, (sh, w))) := merge_body start (init_merge start, s) in
  (o, (sh, match output m with Some out => MergeOutput.drop out w | None => w end)).

Definition run_compaction : SM unit :=
  let! start := begin in
  match start with
  | None => ret tt
  | Some start => run_merge start
  end.

(** ** The compaction thread and the end of the store's life *)

(** One turn of [while rx.recv().is_ok()]: take the signal that is waiting, run
    the merge, log an error and go on. *)
Definition thread_turn : Bitcask.BM unit :=
  let! h := gets fst in
  match Bitcask.compaction_tx h with
  | Some true =>
      on_fst (modify (fun h => {| Bitcask.shared := Bitcask.shared h;
                                  Bitcask.compaction_tx := Some false |})) ;;!
      mcatch (Bitcask.on_shared run_compaction) ret (fun _ => ret tt)
  | _ => ret tt
  end.

(** [Drop for Handle]: closing the channel lets the thread handle the signal
    that is still waiting; it is joined, and the active file is synced. Closing
    the lock file releases the lock. *)
Definition drop_handle : Bitcask.BM unit :=
  thread_turn ;;!
  on_fst (modify (fun h => {| Bitcask.shared := Bitcask.shared h;
                              Bitcask.compaction_tx := None |})) ;;!
  mcatch (Bitcask.on_shared (with_writer_lock Shared.sync)) ret (fun _ => ret tt) ;;!
  on_snd LockFile.unlock.

End merge.
End Compaction.
