(* ===== verification/MergeSteps.v ===== *)
(** * The merge thread, one step at a time

    [run_compaction] as a machine whose steps are the stretches of code that run
    between two accesses to what the threads share: the snapshot under the
    writer's mutex, the start of a source file, one record with its look at the
    index, the publication of an output, one index update, the deletion of one
    source, the last update of the stale count. Every step runs the definitions
    of Merge.v; that the machine left alone computes [run_compaction] is proved
    here. *)

From Stdlib Require Import ZArith Lia Strings.Byte Relation_Operators Wellfounded.
From stdpp Require Import base numbers list strings gmap.
From S2P Require Import Prelude Bytes Crc CommandFormat HintFormat Streams Reader KeyDir Text Names Config FileSystem Lock BTree Engine Load Merge.
Import RecordReader Shared Compaction.

Local Open Scope Z_scope.

Module Merger.

(** Where the merge thread is, with the local variables it has there. *)
Inductive PC : Type :=
(** waiting in [rx.recv()] *)
| Waiting
(** at the head of [run_compaction] *)
| Starting
(** at the head of the loop over the snapshot; the files still to read *)
| AtFile (start : Start) (m : Merge) (todo : list (Z * File))
(** at the head of the loop over the records of a file *)
| AtRecord (start : Start) (m : Merge) (file_id : Z) (fuel : nat) (rr : RecordReader)
    (todo : list (Z * File))
(** about to finish the output *)
| AtPublish (start : Start) (m : Merge) (todo : list (Z * File))
(** in the loop over the deferred index updates *)
| AtUpdate (start : Start) (m : Merge) (ps : list PendingUpdate) (todo : list (Z * File))
(** in the loop that deletes the sources *)
| AtRemove (start : Start) (m : Merge) (ids : list Z)
(** about to subtract the stale bytes *)
| AtStale (start : Start) (m : Merge)
(** [run_compaction] has its result; its local variables are still to be dropped *)
| Finished (o : outcome unit) (m : Merge)
(** the thread has panicked *)
| Dead.

(** A piece of the merge with its local variables; an error or a panic ends
    [run_compaction]. *)
Definition run_local {A} (m : Merge) (c : MM A) (k : Merge -> A -> PC) (s : Shared * World)
  : PC * (Shared * World) :=
  match c (m, s) with
  | (Ok a, (m', s')) => (k m' a, s')
  | (Err e, (m', s')) => (Finished (Err e) m', s')
  | (Panic, (m', s')) => (Finished Panic m', s')
  end.

(** The locals before the snapshot is taken. *)
Definition no_merge : Merge :=
  {| output := None; next_compaction_file_id := 0; pending_records := []; ids_to_remove := [];
     new_files := [] |}.

Definition drop_output (m : Merge) (w : World) : World :=
  match output m with Some out => MergeOutput.drop out w | None => w end.

Section step.
Context `{Crc : Crc32}.

Definition record_step (start : Start) (m : Merge) (file_id : Z) (fuel : nat) (rr : RecordReader)
  (todo : list (Z * File)) (s : Shared * World) : PC * (Shared * World) :=
  match fuel with
  | O => (Finished Panic m, s)
  | S fuel =>
      let (o, rr') := next_record rr in
      match o with
      | Ok (Record_ position bytes) =>
          run_local m (merge_record file_id position bytes)
            (fun m _ => AtRecord start m file_id fuel rr' todo) s
      | Ok CleanEof =>
          run_local m (upd (fun m => set_to_remove m (ids_to_remove m ++ [file_id])) ;;! end_source)
            (fun m full => if full : bool then AtPublish start m todo else AtFile start m todo) s
      | Ok (TornTail _) => (Finished (Err Corruption) m, s)
      | Err e => (Finished (Err e) m, s)
      | Panic => (Finished Panic m, s)
      end
  end.

Definition step (pc : PC) (s : Shared * World) : PC * (Shared * World) :=
  match pc with
  | Waiting => (Waiting, s)
  | Starting =>
      match begin s with
      | (Ok None, s') => (Finished (Ok tt) no_merge, s')
      | (Ok (Some start), s') => (AtFile start (init_merge start) (readers_snapshot start), s')
      | (Err e, s') => (Finished (Err e) no_merge, s')
      | (Panic, s') => (Finished Panic no_merge, s')
      end
  | AtFile start m [] =>
      match output m with
      | Some _ => (AtPublish start m [], s)
      | None => (AtRemove start m (ids_to_remove m), s)
      end
  | AtFile start m ((file_id, reader_file) :: todo) =>
      run_local m (open_source reader_file)
        (fun m '(fuel, rr) => AtRecord start m file_id fuel rr todo) s
  | AtRecord start m file_id fuel rr todo => record_step start m file_id fuel rr todo s
  | AtPublish start m todo =>
      run_local m publish_output (fun m ps => AtUpdate start m ps todo) s
  | AtUpdate start m [] todo => (AtFile start m todo, s)
  | AtUpdate start m (p :: ps) todo =>
      run_local m (on_shared (apply_pending p)) (fun m _ => AtUpdate start m ps todo) s
  | AtRemove start m [] => (AtStale start m, s)
  | AtRemove start m (id :: ids) =>
      run_local m (on_world (remove_source id)) (fun m _ => AtRemove start m ids) s
  | AtStale start m =>
      run_local m (on_shared (finish_stale (init_stale_bytes start))) (fun m _ => Finished (Ok tt) m) s
  | Finished Panic m => (Dead, (fst s, drop_output m (snd s)))
  | Finished _ m => (Waiting, (fst s, drop_output m (snd s)))
  | Dead => (Dead, s)
  end.

(** The machine left alone. *)
Definition steps (n : nat) (c : PC * (Shared * World)) : PC * (Shared * World) :=
  Nat.iter n (fun '(pc, s) => step pc s) c.

(** ** The machine computes [run_compaction] *)

Definition reaches (c c' : PC * (Shared * World)) : Prop := exists n, steps n c = c'.

Lemma reaches_refl c : reaches c c.
Proof. by exists 0%nat. Qed.

Lemma reaches_trans c1 c2 c3 : reaches c1 c2 -> reaches c2 c3 -> reaches c1 c3.
Proof.
  intros [n <-] [n' <-]. exists (n' + n)%nat. unfold steps. by rewrite Nat.iter_add.
Qed.

Lemma reaches_step pc s c : reaches (step pc s) c -> reaches (pc, s) c.
Proof. apply reaches_trans. by exists 1%nat. Qed.

(** The configuration after a piece of the merge, from its result. *)
Definition resume {A} (r : outcome A * (Merge * (Shared * World)))
  (k : Merge -> A -> Shared * World -> PC * (Shared * World)) : PC * (Shared * World) :=
  match r with
  | (Ok a, (m, s)) => k m a s
  | (Err e, (m, s)) => (Finished (Err e) m, s)
  | (Panic, (m, s)) => (Finished Panic m, s)
  end.

Lemma resume_bind {A B} (c : MM A) (f : A -> MM B) ms k :
  resume (bind c f ms) k = resume (c ms) (fun m a s => resume (f a (m, s)) k).
Proof. unfold bind, resume. by destruct (c ms) as [[a|e|] [m s]]. Qed.

Lemma run_local_resume {A} m (c : MM A) k s :
  run_local m c k s = resume (c (m, s)) (fun m a s => (k m a, s)).
Proof. done. Qed.

Lemma reaches_resume {A} c (r : outcome A * (Merge * (Shared * World))) k k' :
  reaches c (resume r k) -> (forall m a s, reaches (k m a s) (k' m a s)) -> reaches c (resume r k').
Proof.
  intros Hc Hk. eapply reaches_trans; [exact Hc|]. destruct r as [[a|e|] [m s]]; cbn [resume];
    [apply Hk|apply reaches_refl|apply reaches_refl].
Qed.

Lemma record_reaches start id todo fuel rr m s :
  reaches (AtRecord start m id fuel rr todo, s)
    (resume ((merge_loop fuel id rr ;;! end_source) (m, s))
       (fun m full s => (if full : bool then AtPublish start m todo else AtFile start m todo, s))).
Proof.
  revert rr m s. induction fuel as [|fuel IH]; intros rr m s; apply reaches_step;
    cbn [step record_step merge_loop]; [apply reaches_refl|].
  destruct (next_record rr) as [[r|e|] rr']; rewrite !resume_bind; cbn [resume of_outcome];
    [|apply reaches_refl|apply reaches_refl].
  destruct r as [position bytes| |position]; [|apply reaches_refl|apply reaches_refl].
  rewrite run_local_resume, (resume_bind (merge_record id position bytes)).
  apply (reaches_resume _ _ _ _ (reaches_refl _)). intros m' [] s'.
  specialize (IH rr' m' s'). by rewrite resume_bind in IH.
Qed.

Lemma update_reaches start todo ps m s :
  reaches (AtUpdate start m ps todo, s)
    (resume (on_shared (apply_all ps) (m, s)) (fun m _ s => (AtFile start m todo, s))).
Proof.
  revert m s. induction ps as [|p ps IH]; intros m s; apply reaches_step; cbn [step];
    [apply reaches_refl|]. rewrite run_local_resume.
  assert (on_shared (apply_all (p :: ps)) (m, s) =
    (on_shared (apply_pending p) ;;! on_shared (apply_all ps)) (m, s)) as ->.
  { unfold on_shared, on_snd, bind. cbn [fst snd apply_all]. unfold bind.
    by destruct (apply_pending p s) as [[] s']. }
  rewrite resume_bind. apply (reaches_resume _ _ _ _ (reaches_refl _)). intros m' [] s'. apply IH.
Qed.

Lemma publish_reaches start todo m s :
  reaches (AtPublish start m todo, s)
    (resume (finish_output (m, s)) (fun m _ s => (AtFile start m todo, s))).
Proof.
  apply reaches_step. cbn [step]. rewrite run_local_resume. unfold finish_output.
  rewrite resume_bind. apply (reaches_resume _ _ _ _ (reaches_refl _)).
  intros m' ps s'. apply update_reaches.
Qed.

Lemma file_reaches start todo id f m s :
  reaches (AtFile start m ((id, f) :: todo), s)
    (resume (merge_file id f (m, s)) (fun m _ s => (AtFile start m todo, s))).
Proof.
  apply reaches_step. cbn [step]. rewrite run_local_resume. unfold merge_file. rewrite resume_bind.
  apply (reaches_resume _ _ _ _ (reaches_refl _)). intros m1 [fuel rr] s1.
  assert (forall c : MM bool, resume ((merge_loop fuel id rr ;;! let! full := c in
      if full then finish_output else ret tt) (m1, s1)) (fun m _ s => (AtFile start m todo, s)) =
    resume ((merge_loop fuel id rr ;;! c) (m1, s1)) (fun m full s =>
      resume ((if full then finish_output else ret tt) (m, s)) (fun m _ s => (AtFile start m todo, s)))) as ->.
  { intros c. rewrite !resume_bind. unfold resume at 1 3.
    destruct (merge_loop fuel id rr (m1, s1)) as [[[]|e|] [m2 s2]]; try done. by rewrite resume_bind. }
  eapply reaches_resume; [apply record_reaches|]. intros m2 [] s2; [apply publish_reaches|apply reaches_refl].
Qed.

Lemma files_reaches start files m s :
  reaches (AtFile start m files, s)
    (resume (merge_files files (m, s)) (fun m _ s => (AtFile start m [], s))).
Proof.
  revert m s. induction files as [|[id f] files IH]; intros m s; cbn [merge_files]; [apply reaches_refl|].
  rewrite resume_bind. eapply reaches_resume; [apply file_reaches|]. intros m' [] s'. apply IH.
Qed.

Lemma remove_reaches start ids m s :
  reaches (AtRemove start m ids, s)
    (resume (on_world (remove_sources ids) (m, s)) (fun m _ s => (AtStale start m, s))).
Proof.
  revert m s. induction ids as [|id ids IH]; intros m [sh w]; apply reaches_step; cbn [step];
    [apply reaches_refl|]. rewrite run_local_resume.
  assert (on_world (remove_sources (id :: ids)) (m, (sh, w)) =
    (on_world (remove_source id) ;;! on_world (remove_sources ids)) (m, (sh, w))) as ->.
  { unfold on_world, on_snd, bind. cbn [fst snd remove_sources]. unfold bind.
    by destruct (remove_source id w) as [[] w']. }
  rewrite resume_bind. apply (reaches_resume _ _ _ _ (reaches_refl _)). intros m' [] s'. apply IH.
Qed.

(** A published output is no longer in its slot. *)
Lemma publish_output_slot m s ps m' s' : publish_output (m, s) = (Ok ps, (m', s')) -> output m' = None.
Proof.
  intros Ep. unfold publish_output in Ep. apply bind_inv in Ep as (m0 & [m2 s2] & _ & Ep).
  destruct (output m0) as [out|]; [|done].
  repeat (apply bind_inv in Ep as (? & [? ?] & ? & Ep)). unfold ret in Ep. injection Ep as _ <- _.
  match goal with H : upd _ _ = _ |- _ => unfold upd, on_fst, modify in H; by simplify_eq end.
Qed.

Lemma finish_output_slot m s m' s' : finish_output (m, s) = (Ok tt, (m', s')) -> output m' = None.
Proof.
  unfold finish_output, bind. destruct (publish_output (m, s)) as [[ps|e|] [m1 s1]] eqn:Ep; [|done|done].
  intros Happ. assert (m' = m1) as ->.
  { unfold on_shared, on_snd in Happ. cbn [fst snd] in Happ. destruct (apply_all ps s1). by injection Happ. }
  by eapply publish_output_slot.
Qed.

(** What is left after the loop over the snapshot. *)
Definition merge_tail (start : Start) (m : Merge) : MM unit :=
  match output m with Some _ => finish_output | None => ret tt end ;;!
  let! m := gets fst in
  on_world (remove_sources (ids_to_remove m)) ;;!
  on_shared (finish_stale (init_stale_bytes start)).

Lemma tail_reaches start m s :
  reaches (AtFile start m [], s)
    (resume (merge_tail start m (m, s)) (fun m _ s => (Finished (Ok tt) m, s))).
Proof.
  assert (forall m s, output m = None -> reaches (AtFile start m [], s)
    (resume ((let! m := gets fst in on_world (remove_sources (ids_to_remove m)) ;;!
              on_shared (finish_stale (init_stale_bytes start))) (m, s))
       (fun m _ s => (Finished (Ok tt) m, s)))) as Hrest.
  { intros m' s' Ho. apply reaches_step. cbn [step]. rewrite Ho. rewrite !resume_bind. cbn [resume gets fst].
    rewrite resume_bind. eapply reaches_resume; [apply remove_reaches|]. intros m2 [] s2.
    apply reaches_step, reaches_refl. }
  unfold merge_tail. destruct (output m) as [out|] eqn:Eo; [|by rewrite resume_bind; apply Hrest].
  apply reaches_step. cbn [step]. rewrite Eo, resume_bind.
  eapply reaches_trans; [apply publish_reaches|].
  destruct (finish_output (m, s)) as [[[]|e|] [m1 s1]] eqn:Ef; cbn [resume]; try apply reaches_refl.
  apply Hrest. by eapply finish_output_slot.
Qed.

(** The result of [run_compaction] as a configuration of the machine. *)
Definition settled (o : outcome unit) : PC := match o with Panic => Dead | _ => Waiting end.

(** From the head of [run_compaction] the machine reaches its result. *)
Lemma compaction_steps s :
  let (o, s') := run_compaction s in exists n, steps n (Starting, s) = (settled o, s').
Proof.
  assert (forall o m s, reaches (Finished o m, s) (settled o, (fst s, drop_output m (snd s)))) as Hend.
  { intros [] m' s'; apply reaches_step, reaches_refl. }
  destruct (run_compaction s) as [o s'] eqn:E. change (reaches (Starting, s) (settled o, s')).
  apply reaches_step. cbn [step]. unfold run_compaction, bind in E.
  destruct (begin s) as [[[start|]|e|] s1].
  2-4: injection E as <- <-; eapply reaches_trans; [apply Hend|]; destruct s1; apply reaches_refl.
  eapply reaches_trans; [apply files_reaches|]. unfold run_merge, merge_body in E.
  unfold bind at 1 in E.
  destruct (merge_files (readers_snapshot start) (init_merge start, s1)) as [[[]|e|] [m2 s2]]; cbn [resume].
  2-3: destruct s2 as [sh2 w2]; injection E as <- <-; exact (Hend _ m2 (sh2, w2)).
  eapply reaches_trans; [apply tail_reaches|]. unfold bind at 1, gets at 1 in E. cbn [fst] in E.
  fold (merge_tail start m2) in E.
  destruct (merge_tail start m2 (m2, s2)) as [[[]|e|] [m3 [sh3 w3]]]; cbn [resume];
    injection E as <- <-; exact (Hend _ m3 (sh3, w3)).
Qed.


(** ** The merge thread comes back to waiting *)

(** [pc] can move to [pc'] in some state of the store: whatever the other threads
    did since the last step. *)
Definition moves (pc pc' : PC) : Prop :=
  match pc with Waiting | Dead => False | _ => exists s s', step pc s = (pc', s') end.

Definition rank (pc : PC) : nat * (nat * (nat * nat)) :=
  let open m := match output m with Some _ => true | None => false end in
  match pc with
  | Waiting | Dead => (0, (0, (0, 0)))
  | Finished _ _ => (1, (0, (0, 0)))
  | AtStale _ _ => (2, (0, (0, 0)))
  | AtRemove _ _ ids => (3, (0, (0, length ids)))
  | AtFile _ m todo => (4, (length todo, (if open m && bool_decide (todo = []) then 3 else 0, 0)))
  | AtUpdate _ m ps todo => (4, (length todo, (if open m then 5 else 1, length ps)))
  | AtPublish _ _ todo => (4, (length todo, (2, 0)))
  | AtRecord _ _ _ fuel _ todo => (4, (length todo, (6, fuel)))
  | Starting => (5, (0, (0, 0)))
  end%nat.

Definition below : nat * (nat * (nat * nat)) -> nat * (nat * (nat * nat)) -> Prop :=
  slexprod _ _ lt (slexprod _ _ lt (slexprod _ _ lt lt)).

Lemma below_wf : well_founded below.
Proof. repeat apply wf_slexprod; apply lt_wf. Qed.

(** Where a piece of the merge can lead. *)
Lemma run_local_cases {A} m (c : MM A) k s pc' s' :
  run_local m c k s = (pc', s') ->
  (exists o m', pc' = Finished o m') \/ exists a m' s1, c (m, s) = (Ok a, (m', s1)) /\ pc' = k m' a.
Proof.
  unfold run_local. destruct (c (m, s)) as [[a|e|] [m' s1]]; intros [= <- <-];
    [right; by eexists _, _, _|left; by eexists _, _|left; by eexists _, _].
Qed.

(** The rank is smaller in the component that is first to differ. *)
Ltac below :=
  unfold below; cbn [rank];
  first [apply left_slex; cbn; lia | apply right_slex; below | cbn; lia].

Lemma moves_below pc pc' : moves pc pc' -> below (rank pc') (rank pc).
Proof.
  destruct pc as [| |st m todo|st m id fuel rr todo|st m todo|st m ps todo|st m ids|st m|o m|];
    cbn [moves]; try done; intros (s & s' & Hstep); cbn [step] in Hstep.
  - destruct (begin s) as [[[start|]|e|] s1]; injection Hstep as <- <-; below.
  - destruct todo as [|[id f] todo].
    + destruct (output m) as [out|] eqn:Eo; injection Hstep as <- <-; [|below].
      unfold below. cbn [rank]. rewrite Eo. below.
    + apply run_local_cases in Hstep as [(o & m' & ->)|([fuel rr] & m' & s1 & _ & ->)]; below.
  - unfold record_step in Hstep. destruct fuel as [|fuel]; [injection Hstep as <- <-; below|].
    destruct (next_record rr) as [[[pos bs| |pos]|e|] rr']; try (injection Hstep as <- <-; below).
    + apply run_local_cases in Hstep as [(o & m' & ->)|([] & m' & s1 & _ & ->)]; below.
    + apply run_local_cases in Hstep as [(o & m' & ->)|([] & m' & s1 & _ & ->)]; [below..|].
      unfold below. cbn [rank]. apply right_slex, right_slex, left_slex. case_match; lia.
  - apply run_local_cases in Hstep as [(o & m' & ->)|(ps & m' & s1 & Hrun & ->)]; [below|].
    unfold below. cbn [rank]. rewrite (publish_output_slot _ _ _ _ _ Hrun). below.
  - destruct ps as [|p ps].
    + injection Hstep as <- <-. unfold below. cbn [rank]. apply right_slex, right_slex, left_slex.
      destruct (output m); cbn; try case_match; lia.
    + apply run_local_cases in Hstep as [(o & m' & ->)|([] & m' & s1 & Hrun & ->)]; [below|].
      unfold on_shared, on_snd in Hrun. cbn [fst snd] in Hrun.
      destruct (apply_pending p s) as [o2 s2]. injection Hrun as _ <- _. below.
  - destruct ids as [|id ids]; [injection Hstep as <- <-; below|].
    apply run_local_cases in Hstep as [(o & m' & ->)|([] & m' & s1 & _ & ->)]; below.
  - apply run_local_cases in Hstep as [(o & m' & ->)|([] & m' & s1 & _ & ->)]; below.
  - destruct o; injection Hstep as <- <-; below.
Qed.


End step.
End Merger.
