(* ===== verification/System.v ===== *)
(** * The store with its threads

    One open store used by any number of threads while the merge thread runs
    beside them. A thread's call is cut where the code gives up what it holds:
    [get] looks the key up in the index, then reads the record with the readers
    map as it is by then; [remove] checks the index, then appends; an append
    writes and indexes the record, then does the rest (merge signal, durability
    policy, rotation), both with the writer's mutex held, which the system
    tracks because readers and the merge go on meanwhile. The merge thread is
    the machine of MergeSteps.v.

    The specification is a map with the same calls, each taking effect at one
    point between its call and its return; only [remove] has two, as in the code:
    it looks whether the key is there, and deletes it later. *)

From Stdlib Require Import ZArith Lia Strings.Byte.
From stdpp Require Import base numbers list strings gmap.
From S2P Require Import Prelude Bytes Crc CommandFormat HintFormat Streams Reader KeyDir Text Names Config FileSystem Lock BTree Engine Load Merge MergeSteps.
Import Shared Bitcask.

Local Open Scope Z_scope.

Inductive Op : Type :=
| OSet (k v : list byte)
| OGet (k : list byte)
| ORemove (k : list byte).

Inductive Res : Type :=
| RUnit (o : outcome unit)
| RGet (o : outcome (option (list byte))).

(** What an observer sees: calls and returns. *)
Inductive Event : Type :=
| Call (tid : nat) (op : Op)
| Ret (tid : nat) (r : Res).

(** ** The threads of the program *)

Inductive Thread : Type :=
| Called (op : Op)
(** [get] has an index entry and is about to read *)
| Reading (k : list byte) (e : IndexValue)
(** [remove] has found the key *)
| Removing (k : list byte)
(** the record is appended, [post_write_ops] is next; the mutex is held *)
| Posting
| Returning (r : Res).

Record Sys : Type := {
  handle : Handle;
  world : World;
  merger : Merger.PC;
  threads : gmap nat Thread;
  (** the thread that holds the writer's mutex *)
  holder : option nat
}.

Definition set_thread (s : Sys) (tid : nat) (t : Thread) : Sys :=
  {| handle := handle s; world := world s; merger := merger s;
     threads := <[tid := t]> (threads s); holder := holder s |}.

Definition set_store (s : Sys) (hw : Handle * World) : Sys :=
  {| handle := fst hw; world := snd hw; merger := merger s; threads := threads s;
     holder := holder s |}.

Definition set_holder (s : Sys) (o : option nat) : Sys :=
  {| handle := handle s; world := world s; merger := merger s; threads := threads s; holder := o |}.

Definition set_merger (s : Sys) (pc : Merger.PC) : Sys :=
  {| handle := handle s; world := world s; merger := pc; threads := threads s;
     holder := holder s |}.

Section system.
Context `{Crc : Crc32}.

(** Reading the clock and the first half of [append]. *)
Definition write_record (mk : Z -> Command.Command) : BM unit :=
  let! now := on_snd unix_now in
  with_writer_lock_b (append_record (mk (as_secs now))).

(** The first half of a write: when it succeeds the mutex stays held. *)
Definition start_write (s : Sys) (tid : nat) (mk : Z -> Command.Command) : option Sys :=
  match holder s with
  | Some _ => None
  | None =>
      Some (match write_record mk (handle s, world s) with
            | (Ok _, hw) => set_holder (set_thread (set_store s hw) tid Posting) (Some tid)
            | (Err e, hw) => set_thread (set_store s hw) tid (Returning (RUnit (Err e)))
            | (Panic, hw) => set_thread (set_store s hw) tid (Returning (RUnit Panic))
            end)
  end.

Definition finish_write (s : Sys) (tid : nat) : Sys :=
  let (o, hw) := with_writer_lock_b post_write_ops (handle s, world s) in
  set_holder (set_thread (set_store s hw) tid (Returning (RUnit o))) None.

(** A step that only reads the store: what it leaves the thread at, or [None] for
    an error, which is returned. *)
Definition read_step {A} (s : Sys) (tid : nat) (c : BM A) (k : A -> Thread)
  (fail : outcome A -> Res) : Sys :=
  match c (handle s, world s) with
  | (Ok a, hw) => set_thread (set_store s hw) tid (k a)
  | (o, hw) => set_thread (set_store s hw) tid (Returning (fail o))
  end.

Definition to_get {A} (o : outcome A) : Res :=
  RGet (match o with Ok _ => Ok None | Err e => Err e | Panic => Panic end).
Definition to_unit {A} (o : outcome A) : Res :=
  RUnit (match o with Ok _ => Ok tt | Err e => Err e | Panic => Panic end).

(** One step of the thread [tid], unless it is blocked. *)
Definition advance (s : Sys) (tid : nat) (t : Thread) : option Sys :=
  match t with
  | Called (OSet k v) => start_write s tid (fun now => Command.Set_ now k v)
  | Called (OGet k) =>
      Some (read_step s tid (get_index k)
        (fun e => match e with Some e => Reading k e | None => Returning (RGet (Ok None)) end)
        to_get)
  | Reading k e =>
      Some (read_step s tid (get_read e)
        (fun r => match r with Some v => Returning (RGet (Ok v)) | None => Called (OGet k) end)
        to_get)
  | Called (ORemove k) =>
      Some (read_step s tid (remove_check k)
        (fun found => if found : bool then Removing k else Returning (RUnit (Err KeyNotFound)))
        to_unit)
  | Removing k => start_write s tid (fun now => Command.Rm now k)
  | Posting => Some (finish_write s tid)
  | Returning _ => None
  end.

(** ** The merge thread *)

(** Steps that take the writer's mutex wait until it is free. *)
Definition needs_mutex (pc : Merger.PC) : bool :=
  match pc with Merger.Starting | Merger.AtStale _ _ => true | _ => false end.

Definition merge_step (s : Sys) : option Sys :=
  match merger s with
  | Merger.Waiting =>
      (* [rx.recv()] *)
      match compaction_tx (handle s) with
      | Some true =>
          Some (set_merger (set_store s ({| shared := shared (handle s);
            compaction_tx := Some false |}, world s)) Merger.Starting)
      | _ => None
      end
  | pc =>
      if needs_mutex pc && bool_decide (is_Some (holder s)) then None
      else
        let '(pc', (sh, w)) := Merger.step pc (shared (handle s), world s) in
        Some (set_merger (set_store s ({| shared := sh;
          compaction_tx := compaction_tx (handle s) |}, w)) pc')
  end.

(** ** The steps of the system *)

Inductive Action : Type :=
| Invoke (tid : nat) (op : Op)
| Advance (tid : nat)
| Respond (tid : nat)
| Merge_.

Definition act (a : Action) (s : Sys) : option (option Event * Sys) :=
  match a with
  | Invoke tid op =>
      match threads s !! tid with
      | None => Some (Some (Call tid op), set_thread s tid (Called op))
      | Some _ => None
      end
  | Advance tid =>
      match threads s !! tid with
      | Some t => (fun s' => (None, s')) <$> advance s tid t
      | None => None
      end
  | Respond tid =>
      match threads s !! tid with
      | Some (Returning r) =>
          Some (Some (Ret tid r), {| handle := handle s; world := world s; merger := merger s;
                                     threads := delete tid (threads s); holder := holder s |})
      | _ => None
      end
  | Merge_ => (fun s' => (None, s')) <$> merge_step s
  end.

(** A schedule of actions: the final state and what was seen. *)
Fixpoint run (l : list Action) (s : Sys) : option (list Event * Sys) :=
  match l with
  | [] => Some ([], s)
  | a :: l =>
      match act a s with
      | None => None
      | Some (e, s') =>
          match run l s' with
          | None => None
          | Some (es, s'') => Some (match e with Some e => e :: es | None => es end, s'')
          end
      end
  end.

End system.

(** ** The specification *)

Module Spec.

Inductive Thread : Type :=
| Pending (op : Op)
| Removing (k : list byte)
| Done (r : Res).

Record State : Type := {
  map : gmap (list byte) (list byte);
  threads : gmap nat Thread
}.

(** One step of the specification: a call, an internal point of effect, or a
    return. *)
Inductive step : State -> option Event -> State -> Prop :=
| call m ts tid op :
    ts !! tid = None ->
    step {| map := m; threads := ts |} (Some (Call tid op))
         {| map := m; threads := <[tid := Pending op]> ts |}
| set m ts tid k v :
    ts !! tid = Some (Pending (OSet k v)) ->
    step {| map := m; threads := ts |} None
         {| map := <[k := v]> m; threads := <[tid := Done (RUnit (Ok tt))]> ts |}
| get m ts tid k :
    ts !! tid = Some (Pending (OGet k)) ->
    step {| map := m; threads := ts |} None
         {| map := m; threads := <[tid := Done (RGet (Ok (m !! k)))]> ts |}
| remove_missing m ts tid k :
    ts !! tid = Some (Pending (ORemove k)) -> m !! k = None ->
    step {| map := m; threads := ts |} None
         {| map := m; threads := <[tid := Done (RUnit (Err KeyNotFound))]> ts |}
| remove_found m ts tid k :
    ts !! tid = Some (Pending (ORemove k)) -> is_Some (m !! k) ->
    step {| map := m; threads := ts |} None
         {| map := m; threads := <[tid := Removing k]> ts |}
| remove_delete m ts tid k :
    ts !! tid = Some (Removing k) ->
    step {| map := m; threads := ts |} None
         {| map := delete k m; threads := <[tid := Done (RUnit (Ok tt))]> ts |}
| return_ m ts tid r :
    ts !! tid = Some (Done r) ->
    step {| map := m; threads := ts |} (Some (Ret tid r))
         {| map := m; threads := delete tid ts |}.

(** What can be seen of a run. *)
Inductive run : State -> list Event -> State -> Prop :=
| run_nil s : run s [] s
| run_silent s s' s'' es : step s None s' -> run s' es s'' -> run s es s''
| run_event s s' s'' e es : step s (Some e) s' -> run s' es s'' -> run s (e :: es) s''.

End Spec.
