(* ===== verification/Log.v ===== *)
(** * The abstract log

    The specification level of the engine. A data file is a list of commands;
    the store is the list of its data files in ascending id order. What the
    files mean is the state they replay to: for every key that was set last and
    not removed since, its value and the place of its record. *)

From Stdlib Require Import ZArith Lia Strings.Byte.
From stdpp Require Import base numbers list strings gmap.
From S2P Require Import Prelude Bytes Crc CommandFormat HintFormat Streams Reader KeyDir Text.
Import Command(Command, Set_, Rm).

Local Open Scope Z_scope.

(** Commands the engine writes: well formed, with a value that is a [str], and a
    key short enough for a hint record. *)
Definition good_cmd (c : Command) : Prop :=
  command_ok c /\ (forall v, Command.get_value c = Some v -> utf8_valid v = true) /\
  blen (Command.get_key c) + 28 <= u32_max.

(** The store's state: the live keys, with the place of the record and the value. *)
Abbreviation KV := (gmap (list byte) (IndexValue * list byte)).

Section log.
Context `{Crc : Crc32}.

(** The bytes of a data file. *)
Definition enc (cmds : list Command) : list byte := concat (Command.serialize <$> cmds).

(** The place of a record. *)
Definition place (id off : Z) (c : Command) : IndexValue :=
  {| IndexValue.file_id := id; IndexValue.ts := Command.get_timestamp c;
     IndexValue.offset := off; IndexValue.len := blen (Command.serialize c) |}.

(** The commands of a file with their places, from offset [off] on. *)
Fixpoint located (id off : Z) (cmds : list Command) : list (Command * IndexValue) :=
  match cmds with
  | [] => []
  | c :: cmds => (c, place id off c) :: located id (off + blen (Command.serialize c)) cmds
  end.

Definition apply1 (st : KV) (e : Command * IndexValue) : KV :=
  match fst e with
  | Set_ _ k v => <[k := (snd e, v)]> st
  | Rm _ k => delete k st
  end.

Definition apply_all (st : KV) (es : list (Command * IndexValue)) : KV := foldl apply1 st es.

Definition apply_file (st : KV) (f : Z * list Command) : KV :=
  apply_all st (located (fst f) 0 (snd f)).

Definition apply_files (st : KV) (fs : list (Z * list Command)) : KV := foldl apply_file st fs.

Definition state_of (fs : list (Z * list Command)) : KV := apply_files ∅ fs.

(** What a client sees, and what the index holds. *)
Definition values (st : KV) : gmap (list byte) (list byte) := snd <$> st.
Definition places (st : KV) : gmap (list byte) IndexValue := fst <$> st.

(** ** Encodings *)

Lemma enc_app c1 c2 : enc (c1 ++ c2) = enc c1 ++ enc c2.
Proof. unfold enc. by rewrite fmap_app, concat_app. Qed.

Lemma enc_cons c cmds : enc (c :: cmds) = Command.serialize c ++ enc cmds.
Proof. done. Qed.

Lemma enc_one c : enc [c] = Command.serialize c.
Proof. apply app_nil_r. Qed.

Lemma located_app id off c1 c2 :
  located id off (c1 ++ c2) = located id off c1 ++ located id (off + blen (enc c1)) c2.
Proof.
  revert off. induction c1 as [|c c1 IH]; intros off; simpl; [by rewrite Z.add_0_r|].
  rewrite IH, enc_cons, blen_app, Z.add_assoc. done.
Qed.

Lemma enc_framed cmds :
  Forall good_cmd cmds -> Forall framed (Command.serialize <$> cmds).
Proof.
  intros H. apply Forall_fmap. eapply Forall_impl; [exact H|].
  intros c [Hok _]. by apply framed_command.
Qed.

(** ** Appending to the last file *)

Lemma apply_files_snoc st fs f : apply_files st (fs ++ [f]) = apply_file (apply_files st fs) f.
Proof. unfold apply_files. by rewrite foldl_app. Qed.

Lemma state_of_snoc fs id cmds c :
  state_of (fs ++ [(id, cmds ++ [c])]) =
  apply1 (state_of (fs ++ [(id, cmds)])) (c, place id (blen (enc cmds)) c).
Proof.
  unfold state_of. rewrite !apply_files_snoc. unfold apply_file, apply_all. cbn [fst snd].
  rewrite located_app, foldl_app. done.
Qed.

Lemma state_of_new_file fs id : state_of (fs ++ [(id, [])]) = state_of fs.
Proof. unfold state_of. by rewrite apply_files_snoc. Qed.

(** ** The size of a log *)

Definition total_bytes (fs : list (Z * list Command)) : Z :=
  foldr (fun f n => blen (enc (snd f)) + n) 0 fs.

Lemma total_bytes_cons id cs fs : total_bytes ((id, cs) :: fs) = blen (enc cs) + total_bytes fs.
Proof. done. Qed.

Lemma total_bytes_nonneg fs : 0 <= total_bytes fs.
Proof.
  induction fs as [|[id cs] fs IH]; [done|]. rewrite total_bytes_cons.
  pose proof (blen_nonneg (enc cs)). lia.
Qed.

Lemma total_bytes_app f1 f2 : total_bytes (f1 ++ f2) = total_bytes f1 + total_bytes f2.
Proof.
  induction f1 as [|[id cs] f1 IH]; [done|]. cbn [app]. rewrite !total_bytes_cons, IH. lia.
Qed.

Lemma total_bytes_one id cs : total_bytes [(id, cs)] = blen (enc cs).
Proof. rewrite total_bytes_cons. apply Z.add_0_r. Qed.

(** The same log, perhaps with a new empty active file. *)
Definition same_log (fs fs' : list (Z * list Command)) : Prop :=
  fs' = fs \/ exists id, fs' = fs ++ [(id, [])].

Lemma same_log_state fs fs' :
  same_log fs fs' -> state_of fs' = state_of fs /\ total_bytes fs' = total_bytes fs.
Proof.
  intros [->|[id ->]]; [done|]. split; [apply state_of_new_file|].
  rewrite total_bytes_app, total_bytes_one. apply Z.add_0_r.
Qed.

(** ** Where the entries of the state come from *)

(** The entry for [k] is the place of a [Set] record of [k] in one of the files. *)
Definition entry_in (fs : list (Z * list Command)) (k : list byte) (e : IndexValue * list byte)
  : Prop :=
  exists cmds pre post ts,
    (IndexValue.file_id (fst e), cmds) ∈ fs /\
    cmds = pre ++ Set_ ts k (snd e) :: post /\
    fst e = place (IndexValue.file_id (fst e)) (blen (enc pre)) (Set_ ts k (snd e)).

Lemma apply_all_entry_in fs id cmds pre rest st :
  (id, cmds) ∈ fs -> cmds = pre ++ rest ->
  (forall k e, st !! k = Some e -> entry_in fs k e) ->
  (forall k e, apply_all st (located id (blen (enc pre)) rest) !! k = Some e -> entry_in fs k e).
Proof.
  intros Hin. revert pre st. induction rest as [|c rest IH]; intros pre st Hc Hst; [done|].
  cbn [located apply_all foldl].
  replace (blen (enc pre) + blen (Command.serialize c)) with (blen (enc (pre ++ [c]))).
  2:{ rewrite enc_app, enc_one, blen_app. done. }
  apply (IH (pre ++ [c])); [by rewrite <- app_assoc|].
  intros k e. unfold apply1. cbn [fst snd]. destruct c as [ts k' v|ts k'].
  - rewrite lookup_insert. case_decide as Hk; [|apply Hst].
    intros [= <-]. subst k'. exists cmds, pre, rest, ts. by cbn.
  - rewrite lookup_delete. case_decide; [done|apply Hst].
Qed.

Lemma state_of_entry_in fs k e : state_of fs !! k = Some e -> entry_in fs k e.
Proof.
  cut (forall all st, (forall f, f ∈ fs -> f ∈ all) ->
    (forall k e, st !! k = Some e -> entry_in all k e) ->
    apply_files st fs !! k = Some e -> entry_in all k e).
  { intros H. apply (H fs ∅); [done|]. by intros ? ? ?%lookup_empty_Some. }
  induction fs as [|[id cmds] fs IH]; intros all st Hsub Hst; cbn [apply_files foldl]; [apply Hst|].
  apply IH; [intros f Hf; apply Hsub; by right|].
  apply (apply_all_entry_in all id cmds [] cmds); [apply Hsub; by left|done|done].
Qed.

Lemma values_lookup st k : values st !! k = snd <$> st !! k.
Proof. apply lookup_fmap. Qed.

Lemma places_lookup st k : places st !! k = fst <$> st !! k.
Proof. apply lookup_fmap. Qed.

Lemma values_apply1 st c iv :
  values (apply1 st (c, iv)) =
  match c with Set_ _ k v => <[k := v]> (values st) | Rm _ k => delete k (values st) end.
Proof. unfold values, apply1. destruct c; cbn; [by rewrite fmap_insert|by rewrite fmap_delete]. Qed.

Lemma places_apply1 st c iv :
  places (apply1 st (c, iv)) =
  match c with Set_ _ k _ => <[k := iv]> (places st) | Rm _ k => delete k (places st) end.
Proof. unfold places, apply1. destruct c; cbn; [by rewrite fmap_insert|by rewrite fmap_delete]. Qed.

End log.
