(* ===== verification/Inv.v ===== *)
(** * The invariants of the store

    [disk] says what the store directory holds: the data files of an abstract
    log, valid hint files, possibly a torn tail on the active file. [engine]
    adds what the open store keeps in memory: the index is the index of the log,
    the writer is at the end of the active file, and every file is readable
    through an open handle. *)

From Stdlib Require Import ZArith Lia Strings.Byte.
From stdpp Require Import base numbers list strings gmap.
From S2P Require Import Prelude Bytes Crc CommandFormat HintFormat Streams Reader KeyDir Text Names Config FileSystem Lock BTree Engine Log.
Import Command(Command, Set_, Rm).

Local Open Scope Z_scope.

Section inv.
Context `{Crc : Crc32}.

(** The records of the hint file that describes the data file [id] when all its
    commands are [Set]s. *)
Definition hint_enc (id : Z) (cmds : list Command) : list byte :=
  concat ((fun e => IndexValue.serialize (snd e) (Command.get_key (fst e)))
          <$> located id 0 cmds).

Definition is_set (c : Command) : Prop := Command.get_value c <> None.

(** A hint file that replay will not accept: after some whole records comes a
    torn one, or one that does not decode. *)
Definition bad_hint (id : Z) (tail : list byte) : Prop :=
  torn tail \/ exists rec rest, tail = rec ++ rest /\ framed rec /\
    exists e, IndexValue.deserialize rec id = Err e.

(** The hint file of the data file [id] with commands [cmds]: complete, or
    damaged in a way that replay detects. *)
Definition hint_ok (id : Z) (cmds : list Command) (bs : list byte) : Prop :=
  Forall is_set cmds /\
  (bs = hint_enc id cmds \/
   exists pre post tail, cmds = pre ++ post /\ bs = hint_enc id pre ++ tail /\ bad_hint id tail).

(** What holds of the sealed file [id] with commands [cmds]: its bytes, and its
    hint file if it has one, all on stable storage. *)
Record sealed (w : World) (id : Z) (cmds : list Command) : Prop := {
  s_id : is_u64 id;
  s_good : Forall good_cmd cmds;
  s_len : blen (enc cmds) < 2 ^ 64;
  s_data : exists h, dir w !! data_file_name id = Some h /\ bytes_of w h = enc cmds /\
                     blen (enc cmds) <= durable_of w h;
  s_hint : forall h, dir w !! hint_file_name id = Some h ->
           hint_ok id cmds (bytes_of w h) /\ blen (bytes_of w h) <= durable_of w h
}.

(** Ascending ids. *)
Definition ascending (fs : list (Z * list Command)) : Prop := btree_ok fs.

(** Directories without hard links; the next inode number is fresh. *)
Record dir_ok (w : World) : Prop := {
  d_links : forall n1 n2 h, dir w !! n1 = Some h -> dir w !! n2 = Some h -> n1 = n2;
  d_fresh : forall n h, dir w !! n = Some h -> (h < next_inode w)%nat
}.

(** The store directory: the sealed files [front], the active file [cur] with
    the commands [cmds] and the bytes [tail] after them. *)
Record disk (w : World) (front : list (Z * list Command)) (cur : Z)
  (cmds : list Command) (tail : list byte) : Prop := {
  d_ascending : ascending (front ++ [(cur, cmds)]);
  d_sealed : forall id cs, (id, cs) ∈ front -> sealed w id cs;
  d_cur : is_u64 cur /\ Forall good_cmd cmds /\ blen (enc cmds) < 2 ^ 64;
  d_active : exists h, dir w !! data_file_name cur = Some h /\ bytes_of w h = enc cmds ++ tail;
  (** no other file has the name of a data file *)
  d_only : forall name h id, dir w !! name = Some h -> get_file_id name = Some id ->
           name = data_file_name id /\ (id = cur \/ exists cs, (id, cs) ∈ front);
  (** hint files and merge outputs are older than the active file *)
  d_hints : forall id h, is_u64 id -> dir w !! hint_file_name id = Some h -> id < cur;
  d_compacts : forall id h, is_u64 id -> dir w !! data_file_name_compaction id = Some h ->
               id < cur;
  d_dir : dir_ok w;
  (** directories and the like do not have the store's file names *)
  d_others : forall id, (data_file_name id ∉ others w) /\ (hint_file_name id ∉ others w) /\
             (data_file_name_compaction id ∉ others w)
}.

(** A prefix of every file is on stable storage. *)
Definition inodes_ok (w : World) : Prop := forall h, 0 <= durable_of w h <= blen (bytes_of w h).

(** The lock file names this engine, durably. *)
Definition marker_ok (w : World) : Prop :=
  (LockFile.LOCK_FILE_NAME ∉ others w) /\
  exists h, dir w !! LockFile.LOCK_FILE_NAME = Some h /\ utf8_valid (bytes_of w h) = true /\
    trim (bytes_of w h) = StoreType.as_str StoreType.Bitcask /\
    blen (bytes_of w h) <= durable_of w h.

(** The open store. *)
Record engine (sh : Shared.Shared) (w : World) (front : list (Z * list Command)) (cur : Z)
  (cmds : list Command) : Prop := {
  e_calm : faults w = [];
  e_clock : clock_ok (last_ts_flushed (Shared.writer sh)) w;
  e_lock : Shared.writer_poisoned sh = false;
  e_inodes : inodes_ok w;
  e_marker : marker_ok w;
  e_disk : disk w front cur cmds [];
  (** the writer appends at the end of the active file *)
  e_cur : current_file_id (Shared.writer sh) = cur;
  e_file : dir w !! data_file_name cur = Some (file (Shared.writer sh));
  e_offset : offset (Shared.writer sh) = blen (enc cmds);
  e_flushed : 0 <= flushed_offset (Shared.writer sh) <= durable_of w (file (Shared.writer sh));
  e_stale : 0 <= stale_bytes_count (Shared.writer sh);
  (** the read handles: one per file of the log, possibly more for files that
      were merged away and unlinked *)
  e_readers_ok : btree_ok (Shared.readers sh);
  e_readers : forall id h, (id, h) ∈ Shared.readers sh ->
    is_u64 id /\ id <= cur /\ (h < next_inode w)%nat /\
    (forall n, dir w !! n = Some h -> n = data_file_name id);
  e_covered : forall id cs, (id, cs) ∈ front ++ [(cur, cmds)] ->
    BTreeMap.get id (Shared.readers sh) = dir w !! data_file_name id;
  (** the index is the index of the log *)
  e_index : index_is (Shared.index sh) (places (state_of (front ++ [(cur, cmds)])))
}.

(** Room for [n] more appends before a counter reaches the end of its range. A
    record has at most [2 ^ 32 + 8] bytes. *)
Definition record_max : Z := 2 ^ 33.

Definition room (n : Z) (sh : Shared.Shared) : Prop :=
  stale_bytes_count (Shared.writer sh) + n * record_max <= u64_max /\
  offset (Shared.writer sh) + n * record_max <= u64_max /\
  current_file_id (Shared.writer sh) + n <= u64_max.

(** ** First consequences *)

Lemma serialize_max c : good_cmd c -> 0 <= blen (Command.serialize c) < record_max.
Proof.
  intros [[_ H] _]. pose proof (blen_nonneg (Command.serialize c)).
  rewrite blen_serialize in *. unfold record_max, Command.HEADER_LEN in *. ulia.
Qed.

Lemma ascending_lt front cur cmds id cs :
  ascending (front ++ [(cur, cmds)]) -> (id, cs) ∈ front -> id < cur.
Proof.
  intros H Hin. apply btree_ok_from in H as [lo H]. revert lo H.
  induction front as [|[i c] front IH]; intros lo H; [by apply not_elem_of_nil in Hin|].
  cbn [app sorted_from] in H. destruct H as [H0 H1].
  apply elem_of_cons in Hin as [[= -> ->]|Hin]; [|by apply (IH Hin i)].
  apply (sorted_from_elem i (front ++ [(cur, cmds)]) cur cmds); [done|].
  apply elem_of_app. right. by left.
Qed.

Lemma ascending_snoc front cur cmds next :
  ascending (front ++ [(cur, cmds)]) -> cur < next ->
  ascending ((front ++ [(cur, cmds)]) ++ [(next, [])]).
Proof.
  intros H Hlt. unfold ascending in *.
  rewrite <- (btree_insert_last next []); [by apply btree_insert_ok|].
  intros j u Hin. apply elem_of_app in Hin as [Hin|Hin].
  - pose proof (ascending_lt front cur cmds j u H Hin). lia.
  - apply list_elem_of_singleton in Hin as [= -> ->]. done.
Qed.

Lemma sorted_from_replace (front : list (Z * list Command)) (cur : Z)
  (c1 c2 : list Command) (lo : Z) :
  sorted_from lo (front ++ [(cur, c1)]) -> sorted_from lo (front ++ [(cur, c2)]).
Proof.
  revert lo. induction front as [|[i c] front IH]; intros lo; cbn; [done|].
  intros [H1 H2]. split; [done|by apply IH].
Qed.

Lemma ascending_replace (front : list (Z * list Command)) (cur : Z) (c1 c2 : list Command) :
  ascending (front ++ [(cur, c1)]) -> ascending (front ++ [(cur, c2)]).
Proof.
  intros H. apply btree_ok_from in H as [lo H].
  eapply sorted_from_ok, sorted_from_replace, H.
Qed.

(** ** Changes of the directory that keep the store *)

(** A name that means nothing to the engine. *)
Definition neutral (name : Name) : Prop :=
  get_file_id name = None /\
  forall id, is_u64 id -> name <> hint_file_name id /\ name <> data_file_name_compaction id.

(** [w'] has the data files of [w], no new hint file or merge output, and the
    files that matter have the same bytes. *)
Record disk_step (w w' : World) : Prop := {
  ds_others : others w' = others w;
  ds_old : forall name h, dir w' !! name = Some h -> dir w !! name = Some h \/ neutral name;
  ds_data : forall id, is_u64 id -> dir w' !! data_file_name id = dir w !! data_file_name id;
  ds_bytes : forall name h, ~ neutral name -> dir w !! name = Some h ->
             bytes_of w' h = bytes_of w h /\ durable_of w h <= durable_of w' h;
  ds_dir : dir_ok w'
}.

Lemma data_not_neutral id : is_u64 id -> ~ neutral (data_file_name id).
Proof. intros Hid [H _]. by rewrite get_file_id_data in H. Qed.

Lemma hint_not_neutral id : is_u64 id -> ~ neutral (hint_file_name id).
Proof. intros Hid [_ H]. by destruct (H id Hid). Qed.

Lemma compact_not_neutral id : is_u64 id -> ~ neutral (data_file_name_compaction id).
Proof. intros Hid [_ H]. by destruct (H id Hid). Qed.

Lemma sealed_step w w' id cs : disk_step w w' -> sealed w id cs -> sealed w' id cs.
Proof.
  intros Hs [H1 H2 H3 (h & Hd & Hb & Hdu) H5]. split; try done.
  - exists h. rewrite (ds_data _ _ Hs) by done.
    destruct (ds_bytes _ _ Hs _ _ (data_not_neutral _ H1) Hd) as [-> ?]. split_and!; (done || lia).
  - intros h' Hh'. destruct (ds_old _ _ Hs _ _ Hh') as [Ho|Hn];
      [|by destruct (hint_not_neutral _ H1)].
    destruct (ds_bytes _ _ Hs _ _ (hint_not_neutral _ H1) Ho) as [-> ?].
    destruct (H5 _ Ho) as [? ?]. split; [done|lia].
Qed.

Lemma disk_step_disk w w' front cur cmds tail :
  disk_step w w' -> disk w front cur cmds tail -> disk w' front cur cmds tail.
Proof.
  intros Hs [H1 H2 H3 (h & Hd & Hb) H5 H6 H7 H8 H9]. split; try done.
  - intros. eapply sealed_step; eauto.
  - exists h. destruct H3 as [H3 _]. rewrite (ds_data _ _ Hs) by done.
    by destruct (ds_bytes _ _ Hs _ _ (data_not_neutral _ H3) Hd) as [-> _].
  - intros name h' id Hn Hid. destruct (ds_old _ _ Hs _ _ Hn) as [Ho|[Hne _]]; [by eapply H5|].
    by rewrite Hid in Hne.
  - intros id h' Hid Hn. destruct (ds_old _ _ Hs _ _ Hn) as [Ho|Hne]; [by eapply H6|].
    by destruct (hint_not_neutral _ Hid).
  - intros id h' Hid Hn. destruct (ds_old _ _ Hs _ _ Hn) as [Ho|Hne]; [by eapply H7|].
    by destruct (compact_not_neutral _ Hid).
  - apply Hs.
  - intros id. rewrite (ds_others _ _ Hs). apply H9.
Qed.

(** Nothing but the clock and the durability of files changed. *)
Lemma disk_step_same w w' :
  dir_ok w -> dir w' = dir w -> others w' = others w -> next_inode w' = next_inode w ->
  (forall h, bytes_of w' h = bytes_of w h) -> (forall h, durable_of w h <= durable_of w' h) ->
  disk_step w w'.
Proof.
  intros [Hl Hf] Hd Ho Hn Hb Hdu. split; try done.
  - intros name h. rewrite Hd. by left.
  - intros. by rewrite Hd.
  - split; rewrite Hd; [done|]. by rewrite Hn.
Qed.

Lemma disk_step_clock w t ts : dir_ok w -> disk_step w (set_clock w t ts).
Proof. intros. by apply disk_step_same. Qed.

Lemma disk_step_sync w h :
  inodes_ok w -> dir_ok w ->
  disk_step w (set_inode w h {| content := bytes_of w h; durable := blen (bytes_of w h) |}).
Proof.
  intros Hi Hok. apply disk_step_same; try done; intros h'.
  - rewrite bytes_of_set_inode. by case_decide; subst.
  - rewrite durable_of_set_inode. case_decide; subst; [apply Hi|done].
Qed.

Lemma lock_neutral : neutral LockFile.LOCK_FILE_NAME.
Proof.
  split; [done|]. intros id Hid. split; intros E.
  - apply (f_equal get_hint_id) in E. by rewrite get_hint_id_hint in E.
  - apply (f_equal (ends_with (lit ".data.compact"))) in E. by rewrite compact_ends_with in E.
Qed.

(** Changes that keep the lock file. *)
Lemma marker_ok_step w w' :
  marker_ok w -> others w' = others w ->
  (forall h, dir w !! LockFile.LOCK_FILE_NAME = Some h ->
     dir w' !! LockFile.LOCK_FILE_NAME = Some h /\ bytes_of w' h = bytes_of w h /\
     durable_of w h <= durable_of w' h) ->
  marker_ok w'.
Proof.
  intros (Ho & h & Hd & Hu & Ht & Hdu) Eo H. destruct (H h Hd) as (Hd' & Hb & Hdu').
  split; [by rewrite Eo|]. exists h. rewrite Hb. split_and!; (done || lia).
Qed.

(** ** Appending to the active file *)

(** Rewriting the end of the active file. *)
Lemma disk_set_active w front cur cmds tail h i tail' :
  disk w front cur cmds tail -> dir w !! data_file_name cur = Some h ->
  content i = enc cmds ++ tail' -> disk (set_inode w h i) front cur cmds tail'.
Proof.
  intros [H1 H2 H3 (h0 & Hd & Hb) H5 H6 H7 [Hl Hf] H9] Hh Hi. rewrite Hd in Hh. injection Hh as ->.
  assert (forall n h', dir w !! n = Some h' -> n <> data_file_name cur ->
    bytes_of (set_inode w h i) h' = bytes_of w h' /\
    durable_of (set_inode w h i) h' = durable_of w h') as Hsame.
  { intros n h' Hn Hne. rewrite bytes_of_set_inode, durable_of_set_inode.
    case_decide; [|done]. subst h'. destruct Hne. by eapply Hl. }
  split; try done.
  - intros id cs Hin. pose proof (ascending_lt _ _ _ _ _ H1 Hin).
    destruct (H2 id cs Hin) as [S1 S2 S3 (hs & Hs & Hsb & Hsd) S5]. split; try done.
    + exists hs. destruct (Hsame _ _ Hs) as [-> ->]; [|done].
      intros E. apply data_file_name_inj in E; [lia|done|apply H3].
    + intros h' Hh'. destruct (Hsame _ _ Hh') as [-> ->]; [|by apply S5].
      apply not_eq_sym, data_ne_hint.
  - exists h. split; [done|]. by rewrite bytes_of_set_inode, decide_True, Hi.
Qed.

Lemma disk_append w front cur cmds tail h bs :
  disk w front cur cmds tail -> dir w !! data_file_name cur = Some h ->
  disk (append_bytes w h bs) front cur cmds (tail ++ bs).
Proof.
  intros Hd Hh. eapply disk_set_active; [done|done|]. cbn [content].
  destruct (d_active _ _ _ _ _ Hd) as (h' & Hh' & Hb). rewrite Hh in Hh'. injection Hh' as <-.
  by rewrite Hb, app_assoc.
Qed.

Lemma disk_take_record w front cur cmds c tail :
  good_cmd c -> blen (enc cmds) + blen (Command.serialize c) < 2 ^ 64 ->
  disk w front cur cmds (Command.serialize c ++ tail) -> disk w front cur (cmds ++ [c]) tail.
Proof.
  intros Hc Hlen [H1 H2 (Hu & Hg & _) (h & Hd & Hb) H5 H6 H7 H8 H9]. split; try done.
  - by eapply ascending_replace.
  - split_and!; [done|by apply Forall_app; split; [|constructor]|].
    rewrite enc_app, enc_one, blen_app. done.
  - exists h. split; [done|]. rewrite enc_app, enc_one, <- app_assoc. done.
Qed.

(** ** A new active file *)

Lemma dir_ok_new_file w name : dir_ok w -> dir w !! name = None -> dir_ok (new_file w name).
Proof.
  intros [Hl Hf] Hn. split; cbn [dir new_file next_inode].
  - intros n1 n2 h. rewrite !lookup_insert. case_decide; case_decide; subst; try done.
    + intros [= <-] Hx%Hf. lia.
    + intros Hx%Hf [= <-]. lia.
    + apply Hl.
  - intros n h. rewrite lookup_insert. case_decide; [intros [= <-]; lia|].
    intros Hx%Hf. lia.
Qed.

Lemma new_file_bytes w name n h :
  dir_ok w -> dir w !! n = Some h ->
  bytes_of (new_file w name) h = bytes_of w h /\ durable_of (new_file w name) h = durable_of w h.
Proof.
  intros [_ Hf] Hn. apply Hf in Hn.
  split; [apply bytes_of_new_file; lia|apply durable_of_new_file; lia].
Qed.

(** The active file is sealed once all of it is on stable storage. *)
Lemma disk_active_sealed w front cur cmds h :
  disk w front cur cmds [] -> dir w !! data_file_name cur = Some h ->
  blen (enc cmds) <= durable_of w h -> sealed w cur cmds.
Proof.
  intros Hdisk Hh Hdu. destruct (d_cur _ _ _ _ _ Hdisk) as (Hu & Hg & Hl).
  destruct (d_active _ _ _ _ _ Hdisk) as (h' & Hh' & Hb).
  rewrite Hh in Hh'. injection Hh' as <-. rewrite app_nil_r in Hb. split; try done.
  - by exists h.
  - intros hh Hhint. pose proof (d_hints _ _ _ _ _ Hdisk _ _ Hu Hhint). lia.
Qed.

Lemma sealed_new_file w id cs name :
  dir_ok w -> (forall i, is_u64 i -> name <> hint_file_name i) -> dir w !! name = None ->
  sealed w id cs -> sealed (new_file w name) id cs.
Proof.
  intros Hok Hnh Hnew [H1 H2 H3 (h & Hd & Hb & Hdu) H5]. split; try done.
  - exists h. destruct (new_file_bytes w name _ _ Hok Hd) as [-> ->]. split_and!; try done.
    cbn [dir new_file]. rewrite lookup_insert_ne; [done|]. intros ->. by rewrite Hd in Hnew.
  - intros h' Hh'. cbn [dir new_file] in Hh'. rewrite lookup_insert_ne in Hh' by auto.
    destruct (new_file_bytes w name _ _ Hok Hh') as [-> ->]. by apply H5.
Qed.

Lemma disk_rotate w front cur cmds h next :
  disk w front cur cmds [] -> dir w !! data_file_name cur = Some h ->
  blen (enc cmds) <= durable_of w h -> cur < next -> is_u64 next ->
  dir w !! data_file_name next = None ->
  disk (new_file w (data_file_name next)) (front ++ [(cur, cmds)]) next [] [].
Proof.
  intros Hdisk Hh Hdu Hlt Hu Hnew.
  pose proof (disk_active_sealed _ _ _ _ _ Hdisk Hh Hdu) as Hsealed.
  destruct Hdisk as [H1 H2 H3 H4 H5 H6 H7 H8 H9]. split; try done.
  - by apply ascending_snoc.
  - intros id cs Hin. apply sealed_new_file; try done; [intros; apply data_ne_hint|].
    apply elem_of_app in Hin as [Hin|Hin]; [by apply H2|].
    apply list_elem_of_singleton in Hin. by injection Hin as -> ->.
  - exists (next_inode w). cbn [dir new_file]. by rewrite lookup_insert_eq, bytes_of_new_file_eq.
  - intros name h' id. cbn [dir new_file]. rewrite lookup_insert. case_decide as Hn.
    + subst name. intros _. rewrite get_file_id_data by done. intros [= <-]. by split; [|left].
    + intros Hd Hid. destruct (H5 _ _ _ Hd Hid) as [-> [->|[cs Hin]]]; split; try done; right.
      * exists cmds. apply elem_of_app. right. by left.
      * exists cs. apply elem_of_app. by left.
  - intros id h' Hid. cbn [dir new_file]. rewrite lookup_insert_ne by apply data_ne_hint.
    intros Hd. apply H6 in Hd; [lia|done].
  - intros id h' Hid. cbn [dir new_file]. rewrite lookup_insert_ne by apply data_ne_compact.
    intros Hd. apply H7 in Hd; [lia|done].
  - by apply dir_ok_new_file.
Qed.

Section consequences.
Context {sh w front cur cmds} (He : engine sh w front cur cmds).

Lemma engine_active : exists h, dir w !! data_file_name cur = Some h /\
  file (Shared.writer sh) = h /\ bytes_of w h = enc cmds.
Proof using He.
  pose proof (e_file _ _ _ _ _ He) as Hf. eexists. split_and!; [exact Hf|done|].
  destruct (d_active _ _ _ _ _ (e_disk _ _ _ _ _ He)) as (h & Hd & Hb).
  rewrite Hd in Hf. injection Hf as <-. by rewrite app_nil_r in Hb.
Qed.

(** A file id above the active one is not in use. *)
Lemma engine_fresh_id next :
  cur < next -> is_u64 next -> dir w !! data_file_name next = None.
Proof using He.
  intros Hlt Hu. destruct (dir w !! data_file_name next) as [h|] eqn:E; [|done].
  pose proof (e_disk _ _ _ _ _ He) as Hd.
  destruct (d_only _ _ _ _ _ Hd _ _ next E (get_file_id_data _ Hu)) as [_ [->|[cs Hin]]]; [lia|].
  pose proof (ascending_lt _ _ _ _ _ (d_ascending _ _ _ _ _ Hd) Hin). lia.
Qed.
End consequences.

End inv.
