(* ===== verification/EngineProofs.v ===== *)
(** * The engine implements a map

    [set], [remove] and [get] on an open store: what each of them does to the
    abstract log, on a run without I/O errors, with every step they are made of
    (sync, rotation, the durability policy, the merge trigger). *)

From Stdlib Require Import ZArith Lia Strings.Byte.
From stdpp Require Import base numbers list strings gmap.
From S2P Require Import Prelude Bytes Crc CommandFormat HintFormat Streams Reader KeyDir Text Names Config FileSystem Lock BTree Engine Log Inv.
Import Command(Command, Set_, Rm).
Import Shared Bitcask.

Local Open Scope Z_scope.

Section proofs.
Context `{Crc : Crc32}.

(** ** Steps that do not touch the log *)

(** Time passes, bytes reach stable storage. *)
Record quiet (w w' : World) : Prop := {
  q_dir : dir w' = dir w;
  q_others : others w' = others w;
  q_next : next_inode w' = next_inode w;
  q_flock : flock w' = flock w;
  q_faults : faults w' = faults w;
  q_bytes : forall h, bytes_of w' h = bytes_of w h;
  q_durable : forall h, durable_of w h <= durable_of w' h;
  q_inodes : inodes_ok w'
}.

Lemma quiet_disk_step w w' : dir_ok w -> quiet w w' -> disk_step w w'.
Proof. intros Hd []. by apply disk_step_same. Qed.

Lemma quiet_refl w : inodes_ok w -> quiet w w.
Proof. by split. Qed.

Lemma quiet_trans w1 w2 w3 : quiet w1 w2 -> quiet w2 w3 -> quiet w1 w3.
Proof.
  intros H1 H2. split; [destruct H1, H2; congruence..|intros h|intros h|apply H2].
  - by rewrite (q_bytes _ _ H2), (q_bytes _ _ H1).
  - pose proof (q_durable _ _ H1 h). pose proof (q_durable _ _ H2 h). lia.
Qed.

Lemma quiet_clock w t ts : inodes_ok w -> quiet w (set_clock w t ts).
Proof. by split. Qed.

(** What [sync_all] leaves. *)
Definition synced (w : World) (h : File) : World :=
  set_inode w h {| content := bytes_of w h; durable := blen (bytes_of w h) |}.

Lemma quiet_synced w h : inodes_ok w -> quiet w (synced w h).
Proof.
  intros Hi. split; try done; intros h'; unfold synced.
  - rewrite bytes_of_set_inode. by case_decide; subst.
  - rewrite durable_of_set_inode. case_decide; subst; [apply Hi|done].
  - rewrite bytes_of_set_inode, durable_of_set_inode. case_decide; [cbn; blia|apply Hi].
Qed.

Lemma durable_synced w h : durable_of (synced w h) h = blen (bytes_of w h).
Proof. unfold synced. by rewrite durable_of_set_inode, decide_True. Qed.

(** What a quiet step of the code keeps of the shared state: all but the flush
    marks and the stale count of the writer. *)
Record keeps (sh sh' : Shared) : Prop := {
  k_index : index sh' = index sh;
  k_readers : readers sh' = readers sh;
  k_poisoned : writer_poisoned sh' = writer_poisoned sh;
  k_config : config sh' = config sh;
  k_lock : lock_file sh' = lock_file sh;
  k_cur : current_file_id (writer sh') = current_file_id (writer sh);
  k_file : file (writer sh') = file (writer sh);
  k_offset : offset (writer sh') = offset (writer sh);
  k_stale : stale_bytes_count (writer sh') = stale_bytes_count (writer sh)
}.

Lemma keeps_refl sh : keeps sh sh.
Proof. by split. Qed.

Lemma keeps_trans a b c : keeps a b -> keeps b c -> keeps a c.
Proof. intros [] []. split; congruence. Qed.

Lemma engine_quiet sh sh' w w' front cur cmds :
  engine sh w front cur cmds -> quiet w w' -> keeps sh sh' ->
  clock_ok (last_ts_flushed (writer sh')) w' ->
  0 <= flushed_offset (writer sh') <= durable_of w' (file (writer sh')) ->
  engine sh' w' front cur cmds.
Proof.
  intros [] [] [] Hc Hf. split; try done; try congruence.
  - eapply marker_ok_step; [done|done|]. intros h Hh. rewrite q_dir0. by rewrite q_bytes0.
  - eapply disk_step_disk; [|done]. apply quiet_disk_step; [by eapply d_dir|by split].
  - intros id h. rewrite k_readers0, q_dir0, q_next0. apply e_readers.
  - intros id cs. rewrite k_readers0, q_dir0. apply e_covered.
Qed.

Lemma room_keeps n sh sh' : keeps sh sh' -> room n sh -> room n sh'.
Proof. intros []. unfold room. by rewrite k_stale0, k_offset0, k_cur0. Qed.

(** ** [sync] *)

Definition flushed (sh : Shared) : Shared :=
  let w := writer sh in
  set_writer sh {| current_file_id := current_file_id w; file := file w; offset := offset w;
                   flushed_offset := offset w; last_ts_flushed := last_ts_flushed w;
                   stale_bytes_count := stale_bytes_count w |}.

Lemma keeps_flushed sh : keeps sh (flushed sh).
Proof. by split. Qed.

Lemma sync_run sh w :
  faults w = [] -> Shared.sync (sh, w) = (Ok tt, (flushed sh, synced w (file (writer sh)))).
Proof.
  intros Hc. unfold Shared.sync, get_writer, update_writer, bind, gets, on_snd, on_fst, modify.
  cbn [fst snd]. by rewrite sync_all_calm.
Qed.

Lemma sync_engine sh w front cur cmds :
  engine sh w front cur cmds ->
  engine (flushed sh) (synced w (file (writer sh))) front cur cmds /\
  durable_of (synced w (file (writer sh))) (file (writer sh)) = blen (enc cmds).
Proof.
  intros He. destruct (engine_active He) as (h & Hd & Hf & Hb). rewrite Hf.
  assert (durable_of (synced w h) h = blen (enc cmds)) as Hdu by by rewrite durable_synced, Hb.
  split; [|done]. eapply engine_quiet; [done|apply quiet_synced, He|apply keeps_flushed|..].
  - apply (e_clock _ _ _ _ _ He).
  - cbn [flushed set_writer writer flushed_offset file]. rewrite Hf, Hdu.
    rewrite (e_offset _ _ _ _ _ He). blia.
Qed.

(** ** [rotate_to] *)

Lemma readers_insert_covered (rs : list (Z * File)) w next (fs : list (Z * list Command)) :
  (forall id cs, (id, cs) ∈ fs -> id < next /\ is_u64 id /\
     BTreeMap.get id rs = dir w !! data_file_name id) ->
  is_u64 next ->
  forall id cs, (id, cs) ∈ fs ++ [(next, [])] ->
  BTreeMap.get id (BTreeMap.insert next (next_inode w) rs) =
  dir (new_file w (data_file_name next)) !! data_file_name id.
Proof.
  intros H Hu id cs Hin. rewrite btree_get_insert. cbn [dir new_file]. rewrite lookup_insert.
  apply elem_of_app in Hin as [Hin|Hin].
  - destruct (H id cs Hin) as (Hlt & Hid & Hget). rewrite decide_False by lia.
    rewrite decide_False; [done|]. intros E%data_file_name_inj; (done || lia).
  - apply list_elem_of_singleton in Hin as [= -> ->]. by rewrite !decide_True.
Qed.

(** The state [rotate_to] leaves, when the clock reads [t]. *)
Definition rotated (sh : Shared) (next : Z) (h : File) (t : Z) : Shared :=
  set_readers
    (set_writer sh {| current_file_id := next; file := h; offset := 0; flushed_offset := 0;
                      last_ts_flushed := t;
                      stale_bytes_count := stale_bytes_count (writer sh) |})
    (BTreeMap.insert next h (readers sh)).

Lemma rotate_to_run sh w next :
  faults w = [] -> data_file_name next ∉ others w -> dir w !! data_file_name next = None ->
  clock_ok (last_ts_flushed (writer sh)) w ->
  exists t ts, last_ts_flushed (writer sh) <= t < 2 ^ 64 /\
    let w' := set_clock (new_file (synced w (file (writer sh))) (data_file_name next)) t ts in
    clock_ok t w' /\
    rotate_to next (sh, w) = (Ok tt, (rotated sh next (next_inode w) t, w')).
Proof.
  intros Hcalm Ho Hnew Hclk. unfold rotate_to. mstep (sync_run sh w Hcalm).
  set (w1 := synced w (file (writer sh))).
  pose proof (open_create_new w1 Hcalm _ Ho Hnew) as Hopen.
  unfold bind at 1, on_snd at 1. cbn [snd fst]. rewrite Hopen.
  set (w2 := new_file w1 (data_file_name next)).
  unfold update_writer, bind at 1, on_fst at 1, modify at 1. cbn [fst snd].
  destruct (unix_now_ok (last_ts_flushed (writer sh)) w2 Hclk) as (t & ts & Hnow & Ht & Hclk').
  unfold bind at 1, on_snd at 1. cbn [snd fst]. rewrite Hnow. exists t, ts.
  set (w3 := set_clock w2 t ts) in *.
  assert (open_read (data_file_name next) w3 = (Ok (next_inode w), w3)) as Hread
    by (apply open_read_calm; [done|done|apply lookup_insert_eq]).
  unfold bind, on_fst, on_snd, modify. cbn [fst snd]. rewrite Hread.
  cbn [fst snd set_writer readers writer]. destruct Hclk.
  rewrite as_millis_id by lia. split_and!; try done; lia.
Qed.

Lemma inodes_ok_new_file w name : inodes_ok w -> inodes_ok (new_file w name).
Proof.
  intros Hi h. destruct (decide (h = next_inode w)) as [->|Hne].
  - by rewrite bytes_of_new_file_eq, durable_of_new_file_eq.
  - rewrite bytes_of_new_file, durable_of_new_file by done. apply Hi.
Qed.

Lemma marker_ok_new_file w name t ts :
  dir_ok w -> ~ neutral name -> marker_ok w -> marker_ok (set_clock (new_file w name) t ts).
Proof.
  intros Hok Hn Hm. eapply marker_ok_step; [done|done|]. intros h Hh. cbn [dir set_clock new_file].
  rewrite lookup_insert_ne by (intros ->; apply Hn, lock_neutral).
  destruct (new_file_bytes w name _ _ Hok Hh) as [Hb Hdu]. split_and!; [done|exact Hb|].
  change (durable_of (set_clock (new_file w name) t ts)) with (durable_of (new_file w name)). lia.
Qed.

Lemma engine_file_ids sh w front cur cmds id cs :
  engine sh w front cur cmds -> (id, cs) ∈ front ++ [(cur, cmds)] -> is_u64 id /\ id <= cur.
Proof.
  intros He Hin. pose proof (e_disk _ _ _ _ _ He) as Hd.
  apply elem_of_app in Hin as [Hin|Hin].
  - pose proof (ascending_lt _ _ _ _ _ (d_ascending _ _ _ _ _ Hd) Hin).
    split; [eapply s_id, (d_sealed _ _ _ _ _ Hd), Hin|lia].
  - apply list_elem_of_singleton in Hin as [= -> ->]. split; [apply (d_cur _ _ _ _ _ Hd)|lia].
Qed.

(** Read handles of the new file and of the old ones. *)
Lemma rotated_readers sh w front cur cmds next id h :
  engine sh w front cur cmds -> cur < next -> is_u64 next ->
  (id, h) ∈ BTreeMap.insert next (next_inode w) (readers sh) ->
  let w' := new_file w (data_file_name next) in
  is_u64 id /\ id <= next /\ (h < next_inode w')%nat /\
  (forall n, dir w' !! n = Some h -> n = data_file_name id).
Proof.
  intros He Hlt Hu Hin. cbn [new_file next_inode dir].
  apply btree_elem_insert in Hin as [[-> ->]|[Hne Hin]]; [| |apply He].
  - split_and!; try done; [apply Nat.lt_succ_diag_r|]. intros n. rewrite lookup_insert.
    case_decide; [done|]. intros Hx%(d_fresh _ (d_dir _ _ _ _ _ (e_disk _ _ _ _ _ He))). lia.
  - destruct (e_readers _ _ _ _ _ He _ _ Hin) as (H1 & H2 & H3 & H4).
    split_and!; try done; [lia|lia|]. intros n. rewrite lookup_insert.
    case_decide; [intros [= E]; lia|apply H4].
Qed.

Lemma engine_new_file sh w front cur cmds next t ts :
  engine sh w front cur cmds -> cur < next -> is_u64 next ->
  durable_of w (file (writer sh)) = blen (enc cmds) ->
  let w' := set_clock (new_file w (data_file_name next)) t ts in
  clock_ok t w' ->
  engine (rotated sh next (next_inode w) t) w' (front ++ [(cur, cmds)]) next [].
Proof.
  intros He Hlt Hu Hdu w' Hclk. pose proof (engine_fresh_id He next Hlt Hu) as Hnew.
  pose proof (e_disk _ _ _ _ _ He) as Hd.
  pose proof (disk_rotate w front cur cmds _ next Hd (e_file _ _ _ _ _ He)
    ltac:(by rewrite Hdu) Hlt Hu Hnew) as Hd2.
  split; cbn [rotated set_readers set_writer writer readers writer_poisoned index
    current_file_id file offset flushed_offset last_ts_flushed stale_bytes_count]; try done.
  - apply He.
  - apply He.
  - apply inodes_ok_new_file, He.
  - apply marker_ok_new_file; [apply Hd|apply data_not_neutral, Hu|apply He].
  - eapply disk_step_disk; [|exact Hd2]. apply disk_step_clock, Hd2.
  - apply lookup_insert_eq.
  - split; [done|]. change (durable_of w') with (durable_of (new_file w (data_file_name next))).
    by rewrite durable_of_new_file_eq.
  - apply He.
  - apply btree_insert_ok, He.
  - intros id h. by apply (rotated_readers sh w front cur cmds).
  - apply readers_insert_covered; [|done]. intros id cs Hin.
    destruct (engine_file_ids _ _ _ _ _ _ _ He Hin). split_and!; [lia|done|].
    by apply (e_covered _ _ _ _ _ He id cs).
  - rewrite state_of_new_file. apply He.
Qed.

(** ** After the write: trigger, policy, rotation *)

Definition with_shared (h : Handle) (sh : Shared) : Handle :=
  {| shared := sh; compaction_tx := compaction_tx h |}.

Lemma on_shared_run {A} (c : SM A) h w o sh' w' :
  c (shared h, w) = (o, (sh', w')) -> on_shared c (h, w) = (o, (with_shared h sh', w')).
Proof. intros H. unfold on_shared. cbn [fst snd]. by rewrite H. Qed.

(** The merge signal after a write that left the stale count as it is in [h]. *)
Definition signalled (h : Handle) : Handle :=
  {| shared := shared h;
     compaction_tx :=
       if Config.compaction_threshold (config (shared h)) <=? stale_bytes_count (writer (shared h))
       then match compaction_tx h with Some _ => Some true | None => None end
       else compaction_tx h |}.

Lemma compaction_trigger_run h w : compaction_trigger (h, w) = (Ok tt, (signalled h, w)).
Proof.
  unfold compaction_trigger, signalled, on_shared, get_writer, get_config, bind, gets, try_send,
    on_fst, modify, ret. cbn [fst snd shared]. destruct h as [sh tx]. cbn [shared compaction_tx].
  zcase; [|done]. by destruct tx.
Qed.

(** All commands of the active file are on stable storage. *)
Definition all_durable (sh : Shared) (w : World) : Prop :=
  blen (bytes_of w (file (writer sh))) <= durable_of w (file (writer sh)).

Lemma handle_policy_engine h w front cur cmds :
  engine (shared h) w front cur cmds ->
  exists sh' w', handle_policy (h, w) = (Ok tt, (with_shared h sh', w')) /\
    engine sh' w' front cur cmds /\ keeps (shared h) sh' /\ quiet w w' /\
    (Config.durability_policy (config (shared h)) = SyncOnEveryPut -> all_durable sh' w').
Proof.
  intros He. destruct (sync_engine _ _ _ _ _ He) as [He1 Hdu].
  pose proof (sync_run (shared h) w (e_calm _ _ _ _ _ He)) as Hsync.
  assert (all_durable (flushed (shared h)) (synced w (file (writer (shared h))))) as Hall.
  { unfold all_durable. cbn [flushed set_writer writer file]. rewrite durable_synced.
    by rewrite (q_bytes _ _ (quiet_synced _ _ (e_inodes _ _ _ _ _ He))). }
  destruct h as [sh tx]. cbn [shared] in *.
  unfold handle_policy. unfold bind at 1, on_shared at 1, get_config, gets.
  cbn [fst snd shared compaction_tx].
  destruct (Config.durability_policy (config sh)) eqn:Epol.
  - eexists _, _. split; [exact (on_shared_run _ {| shared := sh; compaction_tx := tx |} _ _ _ _ Hsync)|].
    split_and!; [done|apply keeps_flushed|apply quiet_synced, He|done].
  - destruct (unix_now_ok _ w (e_clock _ _ _ _ _ He)) as (t & ts & Hnow & Ht & Hclk).
    unfold bind at 1, on_snd at 1. cbn [fst snd]. rewrite Hnow.
    unfold bind at 1, on_shared at 1, get_writer, gets. cbn [fst snd shared compaction_tx].
    destruct (e_clock _ _ _ _ _ He) as [Hc0 _]. rewrite as_millis_id by lia.
    assert (engine sh (set_clock w t ts) front cur cmds) as He'.
    { eapply engine_quiet; [exact He|apply quiet_clock, He|apply keeps_refl| |apply He].
      eapply clock_ok_weaken, Hclk. lia. }
    rewrite bind_outcome. unfold u64_sub. rewrite (proj2 (Z.leb_le _ _)) by lia. zcase.
    + pose proof (sync_run sh (set_clock w t ts) (e_calm _ _ _ _ _ He')) as Hsync'.
      rewrite (bind_ok _ _ _ _ _ (on_shared_run _ {| shared := sh; compaction_tx := tx |} _ _ _ _ Hsync')).
      destruct (sync_engine _ _ _ _ _ He') as [He2 _].
      eexists _, _. split; [done|]. split_and!; [|by split| |done].
      * eapply engine_quiet; [exact He2|apply quiet_refl, He2|by split|exact Hclk|apply He2].
      * eapply quiet_trans; [apply quiet_clock, He|apply quiet_synced, He].
    + exists sh, (set_clock w t ts). split; [done|].
      split_and!; [done|apply keeps_refl|apply quiet_clock, He|done].
  - exists sh, w. split; [done|]. split_and!; [done|apply keeps_refl|apply quiet_refl, He|done].
Qed.

(** What a write or a rotation does to the files and the read handles: the active
    file is appended to, a new active file may be made, all else stays. *)
Record grown (sh : Shared) (w : World) (sh' : Shared) (w' : World) : Prop := {
  g_old : forall n h, dir w !! n = Some h -> dir w' !! n = Some h;
  g_new : forall n, dir w' !! n <> dir w !! n ->
          exists id, current_file_id (writer sh) < id /\ is_u64 id /\ n = data_file_name id;
  g_next : (next_inode w <= next_inode w')%nat;
  g_bytes : forall h, (h < next_inode w)%nat -> h <> file (writer sh) ->
            bytes_of w' h = bytes_of w h /\ durable_of w h <= durable_of w' h;
  g_active : (file (writer sh) < next_inode w)%nat /\
             exists x, bytes_of w' (file (writer sh)) = bytes_of w (file (writer sh)) ++ x;
  g_file : file (writer sh') = file (writer sh) \/ (next_inode w <= file (writer sh'))%nat;
  g_readers : forall id h, BTreeMap.get id (readers sh) = Some h ->
              BTreeMap.get id (readers sh') = Some h;
  g_readers_new : forall id, BTreeMap.get id (readers sh') <> BTreeMap.get id (readers sh) ->
                  current_file_id (writer sh) < id
}.

Lemma grown_quiet sh sh' w w' :
  (file (writer sh) < next_inode w)%nat -> quiet w w' -> keeps sh sh' -> grown sh w sh' w'.
Proof.
  intros Hf [] []. split; rewrite ?q_dir0, ?q_next0, ?k_file0, ?k_readers0; try done; [|by left].
  split; [done|]. exists []. by rewrite app_nil_r.
Qed.

Lemma grown_trans sh1 w1 sh2 w2 sh3 w3 :
  current_file_id (writer sh1) <= current_file_id (writer sh2) ->
  grown sh1 w1 sh2 w2 -> grown sh2 w2 sh3 w3 -> grown sh1 w1 sh3 w3.
Proof.
  intros Hcur G1 G2. destruct G1 as [A1 B1 C1 D1 [E1 [x X1]] F1 R1 N1], G2 as [A2 B2 C2 D2 [E2 [y X2]] F2 R2 N2].
  split.
  - auto.
  - intros n Hn. destruct (decide (dir w2 !! n = dir w1 !! n)) as [E|E]; [|by apply B1].
    rewrite <- E in Hn. destruct (B2 n Hn) as (id & Hid & ? & ?). exists id. split_and!; (done || lia).
  - lia.
  - intros h Hh Hne. destruct (D1 h Hh Hne) as [Hb Hd]. destruct (D2 h) as [Hb' Hd']; [lia| |].
    + destruct F1 as [->|?]; [done|lia].
    + rewrite Hb', Hb. split; [done|lia].
  - split; [done|]. destruct F1 as [F1|F1].
    + rewrite F1 in X2. exists (x ++ y). by rewrite X2, X1, app_assoc.
    + exists x. destruct (D2 (file (writer sh1))) as [-> _]; [lia|lia|done].
  - destruct F2 as [->|?]; [done|right; lia].
  - auto.
  - intros id Hn. destruct (decide (BTreeMap.get id (readers sh2) = BTreeMap.get id (readers sh1))) as [E|E];
      [|by apply N1]. rewrite <- E in Hn. apply N2 in Hn. lia.
Qed.

(** What a write or a rotation may change: [n] bytes and a file id at most. *)
Record advances (n : Z) (sh : Shared) (w : World) (sh' : Shared) (w' : World) : Prop := {
  a_config : config sh' = config sh;
  a_lock : lock_file sh' = lock_file sh;
  a_stale : stale_bytes_count (writer sh) <= stale_bytes_count (writer sh') <=
            stale_bytes_count (writer sh) + n;
  a_offset : offset (writer sh') <= offset (writer sh) + n;
  a_cur : current_file_id (writer sh) <= current_file_id (writer sh') <=
          current_file_id (writer sh) + 1;
  a_grown : grown sh w sh' w'
}.

Lemma room_advances n k sh w sh' w' :
  advances n sh w sh' w' -> n <= record_max -> room k sh -> room (k - 1) sh'.
Proof. intros [] Hn (H1 & H2 & H3). unfold room. split_and!; lia. Qed.

Lemma engine_file_lt sh w front cur cmds :
  engine sh w front cur cmds -> (file (writer sh) < next_inode w)%nat.
Proof. intros He. eapply (d_fresh _ (d_dir _ _ _ _ _ (e_disk _ _ _ _ _ He))), He. Qed.

Lemma advances_quiet sh sh' w w' :
  (file (writer sh) < next_inode w)%nat -> quiet w w' -> keeps sh sh' -> advances 0 sh w sh' w'.
Proof.
  intros Hf Hq Hk. pose proof (grown_quiet _ _ _ _ Hf Hq Hk). destruct Hk. split; (done || lia).
Qed.

Lemma rotated_grown sh w front cur cmds next t ts :
  engine sh w front cur cmds -> cur < next -> is_u64 next ->
  grown sh w (rotated sh next (next_inode w) t)
    (set_clock (new_file w (data_file_name next)) t ts).
Proof.
  intros He Hlt Hu. pose proof (engine_fresh_id He next Hlt Hu) as Hnew.
  pose proof (engine_file_lt _ _ _ _ _ He) as Hf. rewrite <- (e_cur _ _ _ _ _ He) in Hlt.
  split; cbn [dir new_file set_clock next_inode rotated set_readers set_writer writer readers file
    current_file_id].
  - intros n h Hn. rewrite lookup_insert_ne; [done|]. intros <-. by rewrite Hnew in Hn.
  - intros n. rewrite lookup_insert. case_decide; [|done]. by exists next.
  - lia.
  - intros h Hh _. change (bytes_of (set_clock ?w t ts) h) with (bytes_of w h).
    change (durable_of (set_clock ?w t ts) h) with (durable_of w h).
    rewrite bytes_of_new_file, durable_of_new_file by lia. done.
  - split; [done|]. exists []. rewrite app_nil_r.
    change (bytes_of (set_clock ?w t ts) ?h) with (bytes_of w h). by rewrite bytes_of_new_file by lia.
  - by right.
  - intros id h Hget. rewrite btree_get_insert, decide_False; [done|]. intros ->.
    apply btree_get_elem in Hget; [|apply He]. apply (e_readers _ _ _ _ _ He) in Hget.
    rewrite (e_cur _ _ _ _ _ He) in Hlt. lia.
  - intros id. rewrite btree_get_insert. by case_decide; [subst|].
Qed.

Lemma rotate_to_engine sh w front cur cmds next :
  engine sh w front cur cmds -> cur < next -> is_u64 next ->
  exists t w', rotate_to next (sh, w) = (Ok tt, (rotated sh next (next_inode w) t, w')) /\
    engine (rotated sh next (next_inode w) t) w' (front ++ [(cur, cmds)]) next [] /\
    dir w' = <[data_file_name next := next_inode w]> (dir w) /\
    grown sh w (rotated sh next (next_inode w) t) w'.
Proof.
  intros He Hlt Hu. destruct (sync_engine _ _ _ _ _ He) as [He1 Hdu].
  destruct (rotate_to_run sh w next) as (t & ts & Ht & Hclk & Hrun);
    [apply He|apply (d_others _ _ _ _ _ (e_disk _ _ _ _ _ He))|by apply (engine_fresh_id He)
    |apply He|].
  exists t. eexists. split; [exact Hrun|]. split; [|split; [done|]].
  - apply (engine_new_file (flushed sh) _ _ _ _ next t ts He1 Hlt Hu Hdu Hclk).
  - eapply (grown_trans _ _ (flushed sh) (synced w (file (writer sh)))); [done| |].
    + apply grown_quiet; [by eapply engine_file_lt|apply quiet_synced, He|apply keeps_flushed].
    + exact (rotated_grown (flushed sh) (synced w (file (writer sh))) front cur cmds next t ts He1 Hlt Hu).
Qed.

Lemma rotate_if_full_engine sh w front cur cmds :
  engine sh w front cur cmds -> current_file_id (writer sh) < u64_max ->
  exists sh' w' front' cur' cmds',
    rotate_if_full (sh, w) = (Ok tt, (sh', w')) /\
    engine sh' w' front' cur' cmds' /\
    same_log (front ++ [(cur, cmds)]) (front' ++ [(cur', cmds')]) /\
    advances 0 sh w sh' w' /\ (all_durable sh w -> all_durable sh' w').
Proof.
  intros He Hmax. unfold rotate_if_full. unfold bind at 1 2, get_writer, get_config, gets.
  cbn [fst]. zcase.
  { exists sh, w, front, cur, cmds. split; [done|]. split_and!; try done; [by left|].
    apply advances_quiet; [by eapply engine_file_lt|apply quiet_refl, He|apply keeps_refl]. }
  pose proof (e_cur _ _ _ _ _ He) as Hcur. pose proof (d_cur _ _ _ _ _ (e_disk _ _ _ _ _ He)) as [Hu _].
  rewrite bind_outcome. unfold u64_add. rewrite (proj2 (Z.leb_le _ _)) by lia.
  destruct (rotate_to_engine sh w front cur cmds (current_file_id (writer sh) + 1) He)
    as (t & w' & Hrun & He' & _ & Hg); [lia|ulia|].
  eexists _, w', _, _, _. split; [exact Hrun|]. split; [exact He'|].
  split_and!.
  - right. by exists (current_file_id (writer sh) + 1).
  - pose proof (e_stale _ _ _ _ _ He). pose proof (e_offset _ _ _ _ _ He).
    split; cbn; try (done || lia). rewrite (e_offset _ _ _ _ _ He). blia.
  - intros _. unfold all_durable. destruct (engine_active He') as (h & _ & Hf & Hb).
    pose proof (e_flushed _ _ _ _ _ He') as Hfl. rewrite Hf in Hfl |- *. rewrite Hb.
    unfold enc. cbn [fmap list_fmap concat]. blia.
Qed.

Lemma post_write_ops_engine h w front cur cmds :
  engine (shared h) w front cur cmds -> current_file_id (writer (shared h)) < u64_max ->
  exists h' w' front' cur' cmds',
    post_write_ops (h, w) = (Ok tt, (h', w')) /\
    compaction_tx h' = compaction_tx (signalled h) /\
    engine (shared h') w' front' cur' cmds' /\
    same_log (front ++ [(cur, cmds)]) (front' ++ [(cur', cmds')]) /\
    advances 0 (shared h) w (shared h') w' /\
    (Config.durability_policy (config (shared h)) = SyncOnEveryPut -> all_durable (shared h') w').
Proof.
  intros He Hmax. unfold post_write_ops. mstep (compaction_trigger_run h w).
  destruct (handle_policy_engine (signalled h) w front cur cmds He)
    as (sh1 & w1 & Hpol & He1 & Hk & Hq & Hdur). mstep Hpol.
  destruct (rotate_if_full_engine sh1 w1 front cur cmds He1)
    as (sh2 & w2 & front2 & cur2 & cmds2 & Hrot & He2 & Hst & Hadv & Hdur2).
  { by rewrite (k_cur _ _ Hk). }
  eexists _, w2, front2, cur2, cmds2.
  split; [exact (on_shared_run _ (with_shared (signalled h) sh1) _ _ _ _ Hrot)|].
  split_and!; try done.
  - pose proof (grown_quiet _ _ _ _ (engine_file_lt _ _ _ _ _ He) Hq Hk) as Hg.
    destruct Hadv, Hk. cbn [shared signalled] in *. split; cbn [with_shared shared]; try (congruence || lia).
    eapply grown_trans; [|exact Hg|done]. lia.
  - intros Hpolicy. apply Hdur2, Hdur, Hpolicy.
Qed.

(** ** [append] *)

(** The files of the log hold good commands. *)
Lemma engine_good sh w front cur cmds id cs :
  engine sh w front cur cmds -> (id, cs) ∈ front ++ [(cur, cmds)] -> Forall good_cmd cs.
Proof.
  intros He Hin. pose proof (e_disk _ _ _ _ _ He) as Hd.
  apply elem_of_app in Hin as [Hin|Hin].
  - by apply (d_sealed _ _ _ _ _ Hd) in Hin as [].
  - apply list_elem_of_singleton in Hin as [= -> ->]. apply (d_cur _ _ _ _ _ Hd).
Qed.

(** An index entry is the place of a good record. *)
Lemma engine_entry_len sh w front cur cmds k iv :
  engine sh w front cur cmds ->
  places (state_of (front ++ [(cur, cmds)])) !! k = Some iv ->
  0 <= IndexValue.len iv < record_max.
Proof.
  intros He. rewrite places_lookup. intros ([iv' v] & Hst & ->)%fmap_Some.
  apply state_of_entry_in in Hst as (cs & pre & post & ts & Hin & Hcs & Hpl). cbn [fst snd] in *.
  rewrite Hpl. cbn [place IndexValue.len]. apply serialize_max.
  pose proof (engine_good _ _ _ _ _ _ _ He Hin) as Hg. subst cs.
  by apply Forall_app in Hg as [_ [? _]%Forall_cons].
Qed.

Definition with_stale (sh : Shared) (n : Z) : Shared :=
  let w := writer sh in
  set_writer sh {| current_file_id := current_file_id w; file := file w; offset := offset w;
                   flushed_offset := flushed_offset w; last_ts_flushed := last_ts_flushed w;
                   stale_bytes_count := n |}.

(** What a command does to the index. *)
Definition index_after (c : Command) (iv : IndexValue) (m : gmap (list byte) IndexValue)
  : gmap (list byte) IndexValue :=
  match c with Set_ _ k _ => <[k := iv]> m | Rm _ k => delete k m end.

(** The bytes that a command makes stale: those of the record it supersedes. *)
Definition stale_of (c : Command) (m : gmap (list byte) IndexValue) : Z :=
  match m !! Command.get_key c with Some old => IndexValue.len old | None => 0 end.

Lemma add_stale_run sh w n :
  stale_bytes_count (writer sh) + n <= u64_max ->
  add_stale n (sh, w) = (Ok tt, (with_stale sh (stale_bytes_count (writer sh) + n), w)).
Proof.
  intros H. unfold add_stale, get_writer, update_writer, bind, gets, of_outcome, on_fst, modify.
  cbn [fst snd]. unfold u64_add. by rewrite (proj2 (Z.leb_le _ _) H).
Qed.

Lemma index_after_write_back self m c iv h :
  index_is self m -> Index.access self (Command.get_key c) = Ok h ->
  index_is (Index.write_back self (Command.get_key c) (index_after c iv h)) (index_after c iv m).
Proof.
  intros Hi Ha. destruct c as [ts k v|ts k]; cbn [Command.get_key index_after] in *.
  - eapply (write_back_is self m _ k h (fun h => <[k := iv]> h)); [done|done|].
    apply represents_insert, Hi.
  - eapply (write_back_is self m _ k h (fun h => delete k h)); [done|done|].
    apply represents_remove, Hi.
Qed.

Lemma append_index_run sh w c m :
  index_is (index sh) m -> stale_bytes_count (writer sh) + stale_of c m <= u64_max ->
  exists i,
    append_index c (blen (Command.serialize c)) (sh, w) =
      (Ok tt, (set_index (with_stale sh (stale_bytes_count (writer sh) + stale_of c m)) i, w)) /\
    index_is i (index_after c
      (place (current_file_id (writer sh)) (offset (writer sh)) c) m).
Proof.
  intros Hi Hst. destruct (access_is _ _ (Command.get_key c) Hi) as (h & Ha & Hk).
  pose proof (index_after_write_back (index sh) m c
    (place (current_file_id (writer sh)) (offset (writer sh)) c) h Hi Ha) as Hwb.
  eexists. split; [|exact Hwb]. unfold stale_of in *. rewrite <- Hk in *.
  assert (with_stale sh (stale_bytes_count (writer sh) + 0) = sh) as Hz.
  { rewrite Z.add_0_r. by destruct sh as [? ? [] ? ? ?]. }
  unfold append_index, bind at 1, get_writer, gets. cbn [fst snd].
  destruct c as [ts k v|ts k]; cbn [Command.get_key Command.get_timestamp index_after] in *;
    unfold with_bucket, Index.write_access; cbn [fst]; rewrite Ha;
    (destruct (h !! k) as [old|] eqn:E; [|by rewrite Hz]);
    rewrite (bind_ok _ _ _ _ _ (add_stale_run sh w _ Hst)); done.
Qed.

Definition with_offset (sh : Shared) (n : Z) : Shared :=
  let w := writer sh in
  set_writer sh {| current_file_id := current_file_id w; file := file w; offset := n;
                   flushed_offset := flushed_offset w; last_ts_flushed := last_ts_flushed w;
                   stale_bytes_count := stale_bytes_count w |}.

(** Writing to the active file does not touch the lock file. *)
Lemma marker_append sh w front cur cmds bs :
  engine sh w front cur cmds -> marker_ok (append_bytes w (file (writer sh)) bs).
Proof.
  intros He. pose proof (e_disk _ _ _ _ _ He) as Hd. eapply marker_ok_step; [apply He|done|].
  intros h Hh. rewrite durable_of_append, bytes_of_append, decide_False; [done|]. intros <-.
  apply (data_not_neutral cur); [apply (d_cur _ _ _ _ _ Hd)|].
  rewrite (d_links _ (d_dir _ _ _ _ _ Hd) _ _ _ (e_file _ _ _ _ _ He) Hh). apply lock_neutral.
Qed.

(** The state of the store once a record is written and indexed. *)
Lemma engine_append sh w front cur cmds c i st :
  engine sh w front cur cmds -> good_cmd c ->
  blen (enc cmds) + blen (Command.serialize c) < 2 ^ 64 -> 0 <= st ->
  index_is i (index_after c (place cur (blen (enc cmds)) c)
                (places (state_of (front ++ [(cur, cmds)])))) ->
  engine (with_offset (set_index (with_stale sh st) i)
            (blen (enc cmds) + blen (Command.serialize c)))
    (append_bytes w (file (writer sh)) (Command.serialize c)) front cur (cmds ++ [c]).
Proof.
  intros He Hc Hlen Hst Hi. pose proof (e_file _ _ _ _ _ He) as Hf.
  pose proof (e_disk _ _ _ _ _ He) as Hd.
  pose proof (disk_append _ _ _ _ _ _ (Command.serialize c) Hd Hf) as Hd'.
  cbn [app] in Hd'. rewrite <- (app_nil_r (Command.serialize c)) in Hd' at 2.
  apply disk_take_record in Hd'; [|done|done].
  pose proof (marker_append _ _ _ _ _ (Command.serialize c) He) as Hm. destruct He. split; try done.
  - intros h. rewrite durable_of_append, bytes_of_append. specialize (e_inodes h).
    case_decide; [|done]. blia.
  - cbn [with_offset set_writer writer offset]. by rewrite enc_app, enc_one, blen_app.
  - by rewrite durable_of_append.
  - intros id cs Hin. apply elem_of_app in Hin as [Hin|Hin].
    + apply (e_covered id cs). apply elem_of_app. by left.
    + apply list_elem_of_singleton in Hin as [= -> ->].
      apply (e_covered cur cmds). apply elem_of_app. right. by left.
  - rewrite state_of_snoc. rewrite places_apply1. by destruct c.
Qed.

Lemma with_writer_lock_b_ok {A} (body : BM A) h w a s :
  writer_poisoned (shared h) = false -> body (h, w) = (Ok a, s) ->
  with_writer_lock_b body (h, w) = (Ok a, s).
Proof. intros Hp Hb. unfold with_writer_lock_b. cbn [fst]. by rewrite Hp, Hb. Qed.

Lemma engine_stale_bound sh w front cur cmds c :
  engine sh w front cur cmds ->
  0 <= stale_of c (places (state_of (front ++ [(cur, cmds)]))) < record_max.
Proof.
  intros He. unfold stale_of. case_match eqn:E; [by eapply engine_entry_len|].
  unfold record_max. lia.
Qed.

(** Writing and indexing a record, with an index that holds the map [m], when the
    write succeeds. *)
Lemma append_record_wrote h w w1 c m :
  let sh := shared h in let bs := Command.serialize c in
  file_write_all (file (writer sh)) bs w = (Ok tt, w1) ->
  index_is (index sh) m -> stale_bytes_count (writer sh) + stale_of c m <= u64_max ->
  offset (writer sh) + blen bs <= u64_max ->
  exists i,
    append_record c (h, w) =
      (Ok tt, (with_shared h (with_offset (set_index (with_stale sh
                 (stale_bytes_count (writer sh) + stale_of c m)) i) (offset (writer sh) + blen bs)), w1)) /\
    index_is i (index_after c (place (current_file_id (writer sh)) (offset (writer sh)) c) m).
Proof.
  intros sh bs Hw Hi Hs Ho. destruct h as [sh' tx]. cbn [shared] in *. subst sh.
  destruct (append_index_run sh' w1 c m Hi Hs) as (i & Hix & Hi').
  fold bs in Hix. exists i. split; [|done].
  unfold append_record. fold bs. unfold bind at 1, on_shared at 1, get_writer, gets.
  cbn [fst snd shared compaction_tx]. unfold bind at 1, on_snd at 1. cbn [fst snd]. rewrite Hw.
  rewrite (bind_ok _ _ _ _ _ (on_shared_run _ {| shared := sh'; compaction_tx := tx |} _ _ _ _ Hix)).
  unfold bind at 1, on_shared at 1. cbn [fst snd shared compaction_tx with_shared].
  rewrite bind_outcome. cbn [writer set_index with_stale set_writer offset].
  unfold u64_add. by rewrite (proj2 (Z.leb_le _ _) Ho).
Qed.

Lemma append_record_run h w c m :
  let sh := shared h in let bs := Command.serialize c in
  faults w = [] -> index_is (index sh) m -> stale_bytes_count (writer sh) + stale_of c m <= u64_max ->
  offset (writer sh) + blen bs <= u64_max ->
  exists i,
    append_record c (h, w) =
      (Ok tt, (with_shared h (with_offset (set_index (with_stale sh
                 (stale_bytes_count (writer sh) + stale_of c m)) i) (offset (writer sh) + blen bs)),
       append_bytes w (file (writer sh)) bs)) /\
    index_is i (index_after c (place (current_file_id (writer sh)) (offset (writer sh)) c) m).
Proof. intros sh bs Hc. apply append_record_wrote. by apply file_write_all_calm. Qed.

(** Writing to the active file, and indexing what was written, as growth. *)
Lemma append_grown sh w front cur cmds c i st :
  engine sh w front cur cmds ->
  grown sh w (with_offset (set_index (with_stale sh st) i)
                (offset (writer sh) + blen (Command.serialize c)))
    (append_bytes w (file (writer sh)) (Command.serialize c)).
Proof.
  intros He. split; try done; cbn.
  - intros h _ Hne. rewrite bytes_of_append, durable_of_append, decide_False by done. done.
  - split; [by eapply engine_file_lt|]. eexists. by rewrite bytes_of_append, decide_True.
  - by left.
Qed.

Lemma append_record_state h front cur cmds c w i :
  let sh := shared h in let m := places (state_of (front ++ [(cur, cmds)])) in
  engine sh w front cur cmds -> room 1 sh -> good_cmd c ->
  index_is i (index_after c (place (current_file_id (writer sh)) (offset (writer sh)) c) m) ->
  engine (with_offset (set_index (with_stale sh (stale_bytes_count (writer sh) + stale_of c m)) i)
            (offset (writer sh) + blen (Command.serialize c)))
    (append_bytes w (file (writer sh)) (Command.serialize c)) front cur (cmds ++ [c]).
Proof.
  intros sh m He (Hr1 & Hr2 & Hr3) Hc Hi. pose proof (serialize_max c Hc) as Hlen.
  pose proof (engine_stale_bound _ _ _ _ _ c He) as Hsb. pose proof (e_stale _ _ _ _ _ He) as Hs0.
  rewrite (e_cur _ _ _ _ _ He), (e_offset _ _ _ _ _ He) in Hi. pose proof (e_offset _ _ _ _ _ He) as Ho.
  rewrite Ho. apply engine_append; try done; [|unfold m; lia]. unfold record_max in *. ulia.
Qed.

(** The counters have room for the record. *)
Lemma append_record_fits sh w front cur cmds c :
  engine sh w front cur cmds -> room 1 sh -> good_cmd c ->
  stale_bytes_count (writer sh) + stale_of c (places (state_of (front ++ [(cur, cmds)]))) <= u64_max /\
  offset (writer sh) + blen (Command.serialize c) <= u64_max.
Proof.
  intros He (Hr1 & Hr2 & Hr3) Hc. pose proof (serialize_max c Hc).
  pose proof (engine_stale_bound _ _ _ _ _ c He). unfold record_max in *. lia.
Qed.

Lemma append_record_engine h w front cur cmds c :
  engine (shared h) w front cur cmds -> room 1 (shared h) -> good_cmd c ->
  exists h' w', append_record c (h, w) = (Ok tt, (h', w')) /\
    engine (shared h') w' front cur (cmds ++ [c]) /\
    advances record_max (shared h) w (shared h') w' /\
    current_file_id (writer (shared h')) = current_file_id (writer (shared h)).
Proof.
  intros He Hr Hc. destruct (append_record_fits _ _ _ _ _ c He Hr Hc) as [Hs Ho].
  pose proof (serialize_max c Hc) as Hlen. pose proof (engine_stale_bound _ _ _ _ _ c He) as Hsb.
  destruct (append_record_run h w c _ (e_calm _ _ _ _ _ He) (e_index _ _ _ _ _ He) Hs Ho) as (i & Hrun & Hi).
  eexists _, _. split; [exact Hrun|]. split_and!; [| |done].
  - by apply append_record_state.
  - split; cbn; try (done || lia). by eapply append_grown.
Qed.

(** Appending a good command to an open store succeeds and appends it to the log. *)
Lemma append_engine h w front cur cmds c :
  engine (shared h) w front cur cmds -> room 1 (shared h) -> good_cmd c ->
  exists h' w' front' cur' cmds',
    append c (h, w) = (Ok tt, (h', w')) /\
    engine (shared h') w' front' cur' cmds' /\
    same_log (front ++ [(cur, cmds ++ [c])]) (front' ++ [(cur', cmds')]) /\
    advances record_max (shared h) w (shared h') w' /\
    (Config.durability_policy (config (shared h)) = SyncOnEveryPut -> all_durable (shared h') w').
Proof.
  intros He Hr Hc. destruct (append_record_engine h w front cur cmds c He Hr Hc)
    as (h1 & w1 & Hrec & He1 & Hadv1 & Hcur1).
  destruct (post_write_ops_engine h1 w1 front cur (cmds ++ [c]) He1)
    as (h' & w' & front' & cur' & cmds' & Hpost & _ & He' & Hst & Hadv & Hdur).
  { destruct Hr as (_ & _ & ?). rewrite Hcur1. lia. }
  exists h', w', front', cur', cmds'. split; [|split_and!; try done].
  - unfold append. apply with_writer_lock_b_ok; [apply (e_lock _ _ _ _ _ He)|].
    by rewrite (bind_ok _ _ _ _ _ Hrec).
  - destruct Hadv, Hadv1. split; try (congruence || lia). eapply grown_trans; [|done|done]. lia.
  - rewrite <- (a_config _ _ _ _ _ Hadv1). done.
Qed.

(** ** [get] *)

Lemma serialize_value ts k v :
  zdrop (blen (Command.serialize (Set_ ts k v)) - blen v) (Command.serialize (Set_ ts k v)) = v.
Proof.
  rewrite serialize_eq. unfold checked_part. cbn [body]. rewrite !app_assoc.
  apply zdrop_app. rewrite blen_app. lia.
Qed.

(** What reading needs: the index is the index of the log, and each file of the
    log is open for reading and starts with the bytes of its commands. *)
Record readable (sh : Shared) (w : World) (fs : list (Z * list Command)) : Prop := {
  r_index : index_is (index sh) (places (state_of fs));
  r_files : forall id cs, (id, cs) ∈ fs -> Forall good_cmd cs /\
    exists h tail, BTreeMap.get id (readers sh) = Some h /\ bytes_of w h = enc cs ++ tail
}.

Lemma engine_readable sh w front cur cmds :
  engine sh w front cur cmds -> readable sh w (front ++ [(cur, cmds)]).
Proof.
  intros He. split; [apply He|]. intros id cs Hin. split; [by eapply engine_good|].
  rewrite (e_covered _ _ _ _ _ He id cs Hin). apply elem_of_app in Hin as [Hin|Hin].
  - destruct (d_sealed _ _ _ _ _ (e_disk _ _ _ _ _ He) _ _ Hin) as [_ _ _ (h & ? & ? & _) _].
    exists h, []. by rewrite app_nil_r.
  - apply list_elem_of_singleton in Hin as [= -> ->].
    destruct (d_active _ _ _ _ _ (e_disk _ _ _ _ _ He)) as (h & Hd & Hb). by exists h, [].
Qed.

(** The record at the place [e] binds [k] to [v] and can be read. *)
Definition held (sh : Shared) (w : World) (k : list byte) (e : IndexValue) (v : list byte) : Prop :=
  exists f ts pre post, BTreeMap.get (IndexValue.file_id e) (readers sh) = Some f /\
    bytes_of w f = pre ++ Command.serialize (Set_ ts k v) ++ post /\
    blen pre = IndexValue.offset e /\ blen (Command.serialize (Set_ ts k v)) = IndexValue.len e /\
    good_cmd (Set_ ts k v).

Lemma get_read_held h w k e v :
  held (shared h) w k e v -> faults w = [] -> get_read e (h, w) = (Ok (Some (Some v)), (h, w)).
Proof.
  intros (f & ts & pre & post & Hf & Hb & Ho & Hl & Hok & Hutf & _) Hcalm.
  unfold get_read, bind at 1, gets. cbn [fst]. rewrite Hf, <- Hl, <- Ho.
  set (rec := Command.serialize (Set_ ts k v)) in *.
  assert (read_exact_at f (blen rec) (blen pre) w = (Ok rec, w)) as Hread.
  { rewrite read_exact_at_calm; [|done|rewrite Hb; blia]. rewrite Hb. by rewrite slice_mid. }
  unfold bind at 1, on_snd at 1. cbn [fst snd]. rewrite Hread. rewrite bind_outcome.
  pose proof (deserialize_serialize (Set_ ts k v) [] Hok) as Hde. rewrite app_nil_r in Hde.
  fold rec in Hde. rewrite Hde. cbn [fst Command.get_value]. rewrite bind_outcome.
  unfold u64_sub. rewrite (proj2 (Z.leb_le _ _)).
  2:{ unfold rec. rewrite blen_serialize. cbn [Command.encoded_body_len].
      unfold Command.HEADER_LEN. blia. }
  rewrite bind_outcome. unfold rec. rewrite serialize_value. unfold from_utf8.
  rewrite (Hutf v) by done. done.
Qed.

(** A record in one of the files of the log can be read. *)
Lemma entry_held sh w (fs : list (Z * list Command)) k e v :
  (forall id cs, (id, cs) ∈ fs -> Forall good_cmd cs /\
     exists h tail, BTreeMap.get id (readers sh) = Some h /\ bytes_of w h = enc cs ++ tail) ->
  entry_in fs k (e, v) -> held sh w k e v.
Proof.
  intros Hfs (cs & pre & post & ts & Hin & -> & Hpl). cbn [fst snd] in *.
  destruct (Hfs _ _ Hin) as [[_ [Hc _]%Forall_cons]%Forall_app (f & tail & Hf & Hb)].
  exists f, ts, (enc pre), (enc post ++ tail). rewrite Hb, enc_app, enc_cons, <- !app_assoc.
  split_and!; try done; by rewrite Hpl.
Qed.

Lemma get_index_run h w mi k :
  index_is (index (shared h)) mi -> get_index k (h, w) = (Ok (mi !! k), (h, w)).
Proof.
  intros Hi. destruct (access_is _ _ k Hi) as (m & Ha & Hk). unfold get_index, bind at 1, gets. cbn [fst].
  rewrite bind_outcome. unfold Index.read_access. rewrite Ha. unfold ret. by rewrite Hk.
Qed.

Lemma remove_check_run h w mi k :
  index_is (index (shared h)) mi ->
  remove_check k (h, w) = (Ok (bool_decide (is_Some (mi !! k))), (h, w)).
Proof.
  intros Hi. destruct (access_is _ _ k Hi) as (m & Ha & Hk). unfold remove_check, bind at 1, gets. cbn [fst].
  rewrite bind_outcome. unfold Index.read_access. rewrite Ha. unfold ret. by rewrite Hk.
Qed.

Lemma remove_split h w mi k :
  index_is (index (shared h)) mi ->
  remove k (h, w) = match mi !! k with
                    | Some _ => remove_append k (h, w)
                    | None => (Err KeyNotFound, (h, w))
                    end.
Proof.
  intros Hi. unfold remove. rewrite (bind_ok _ _ _ _ _ (remove_check_run h w mi k Hi)).
  by destruct (mi !! k).
Qed.

Lemma get_once_readable h w fs k :
  readable (shared h) w fs -> faults w = [] ->
  get_once k (h, w) = (Ok (Some (values (state_of fs) !! k)), (h, w)).
Proof.
  intros He Hcalm. unfold get_once.
  rewrite (bind_ok _ _ _ _ _ (get_index_run h w _ k (r_index _ _ _ He))), places_lookup, values_lookup.
  destruct (state_of fs !! k) as [[iv v]|] eqn:Est; [|done]. cbn [fmap option_fmap option_map fst snd].
  apply (get_read_held h w k); [|done]. eapply entry_held; [apply He|].
  by apply state_of_entry_in.
Qed.

Lemma get_readable h w fs k fuel :
  readable (shared h) w fs -> faults w = [] ->
  get (S fuel) k (h, w) = (Ok (values (state_of fs) !! k), (h, w)).
Proof.
  intros He Hc. cbn [get]. by rewrite (bind_ok _ _ _ _ _ (get_once_readable h w fs k He Hc)).
Qed.

(** ** The store as a map *)

(** The open store [h] in the world [w] stores the map [m]. *)
Definition stores (h : Handle) (w : World) (m : gmap (list byte) (list byte)) : Prop :=
  exists front cur cmds, engine (shared h) w front cur cmds /\
    values (state_of (front ++ [(cur, cmds)])) = m.

(** A key and a value whose record has a length that fits its length field, and
    the hint record of the key too. *)
Definition fits (k v : list byte) : Prop :=
  Command.encoded_body_len (Set_ 0 k v) <= u32_max /\ blen k + 28 <= u32_max /\
  utf8_valid v = true.

Lemma good_set ts k v : is_u64 ts -> fits k v -> good_cmd (Set_ ts k v).
Proof. intros Hts (Hl & Hk & Hu). split_and!; [by split|by intros ? [= <-]|done]. Qed.

Lemma good_rm ts k : is_u64 ts -> blen k + 28 <= u32_max -> good_cmd (Rm ts k).
Proof. intros Hts Hl. split_and!; [|done|done]. split; [done|]. cbn. lia. Qed.

(** A key that is stored has a record whose length fits. *)
Lemma stored_key_fits sh w front cur cmds k :
  engine sh w front cur cmds -> is_Some (state_of (front ++ [(cur, cmds)]) !! k) ->
  blen k + 28 <= u32_max.
Proof.
  intros He [[iv v] Est]. apply state_of_entry_in in Est as (cs & pre & post & ts & Hin & -> & _).
  by pose proof (engine_good _ _ _ _ _ _ _ He Hin) as [_ [(_ & _ & Hl) _]%Forall_cons]%Forall_app.
Qed.

(** Reading the clock before a write. *)
Lemma engine_clock sh w front cur cmds :
  engine sh w front cur cmds ->
  exists t ts, unix_now w = (Ok t, set_clock w t ts) /\ is_u64 (as_secs t) /\
    engine sh (set_clock w t ts) front cur cmds.
Proof.
  intros He. destruct (unix_now_ok _ w (e_clock _ _ _ _ _ He)) as (t & ts & Hnow & Ht & Hclk).
  pose proof (e_clock _ _ _ _ _ He) as [Hc0 _]. exists t, ts.
  split; [done|]. split; [apply as_secs_u64; lia|].
  eapply engine_quiet; [exact He|apply quiet_clock, He|apply keeps_refl| |apply He].
  eapply clock_ok_weaken, Hclk. lia.
Qed.

Lemma advances_clock n sh w t ts sh' w' :
  advances n sh (set_clock w t ts) sh' w' -> advances n sh w sh' w'.
Proof. intros [? ? ? ? ? []]. by split. Qed.

Lemma set_engine h w front cur cmds k v :
  engine (shared h) w front cur cmds -> room 1 (shared h) -> fits k v ->
  exists ts h' w' front' cur' cmds',
    set_ k v (h, w) = (Ok tt, (h', w')) /\ good_cmd (Set_ ts k v) /\
    engine (shared h') w' front' cur' cmds' /\
    same_log (front ++ [(cur, cmds ++ [Set_ ts k v])]) (front' ++ [(cur', cmds')]) /\
    advances record_max (shared h) w (shared h') w' /\
    (Config.durability_policy (config (shared h)) = SyncOnEveryPut -> all_durable (shared h') w').
Proof.
  intros He Hr Hfit. destruct (engine_clock _ _ _ _ _ He) as (t & ts & Hnow & Hts & He1).
  destruct (append_engine h (set_clock w t ts) front cur cmds (Set_ (as_secs t) k v) He1 Hr)
    as (h' & w' & front' & cur' & cmds' & Hrun & He' & Hlog & Hadv & Hdur); [by apply good_set|].
  exists (as_secs t), h', w', front', cur', cmds'.
  split; [|by split_and!; [apply good_set| | |eapply advances_clock|]].
  unfold set_, bind at 1, on_snd at 1. cbn [fst snd]. by rewrite Hnow.
Qed.

Lemma remove_engine h w front cur cmds k :
  engine (shared h) w front cur cmds -> room 1 (shared h) ->
  match state_of (front ++ [(cur, cmds)]) !! k with
  | None => remove k (h, w) = (Err KeyNotFound, (h, w))
  | Some _ => exists ts h' w' front' cur' cmds',
      remove k (h, w) = (Ok tt, (h', w')) /\ good_cmd (Rm ts k) /\
      engine (shared h') w' front' cur' cmds' /\
      same_log (front ++ [(cur, cmds ++ [Rm ts k])]) (front' ++ [(cur', cmds')]) /\
      advances record_max (shared h) w (shared h') w' /\
      (Config.durability_policy (config (shared h)) = SyncOnEveryPut -> all_durable (shared h') w')
  end.
Proof.
  intros He Hr. pose proof (remove_split h w _ k (e_index _ _ _ _ _ He)) as Hrem.
  rewrite places_lookup in Hrem.
  destruct (state_of (front ++ [(cur, cmds)]) !! k) as [e|] eqn:Est; [|done].
  destruct (engine_clock _ _ _ _ _ He) as (t & ts & Hnow & Hts & He1).
  assert (good_cmd (Rm (as_secs t) k)) as Hg
    by (apply good_rm; [done|]; eapply stored_key_fits; [exact He|by rewrite Est]).
  destruct (append_engine h (set_clock w t ts) front cur cmds (Rm (as_secs t) k) He1 Hr Hg)
    as (h' & w' & front' & cur' & cmds' & Hrun & He' & Hlog & Hadv & Hdur).
  exists (as_secs t), h', w', front', cur', cmds'.
  split; [|by split_and!; [| | |eapply advances_clock|]].
  rewrite Hrem. unfold remove_append, bind at 1, on_snd at 1.
  cbn [fst snd]. by rewrite Hnow.
Qed.

(** What holds after a write that succeeded: the store has room for one record
    less, and with [SyncOnEveryPut] all of the log is on stable storage. *)
Definition written (h h' : Handle) (w' : World) : Prop :=
  config (shared h') = config (shared h) /\
  (forall n, room n (shared h) -> room (n - 1) (shared h')) /\
  (Config.durability_policy (config (shared h)) = SyncOnEveryPut -> all_durable (shared h') w').

Lemma advances_written h h' w w' :
  advances record_max (shared h) w (shared h') w' ->
  (Config.durability_policy (config (shared h)) = SyncOnEveryPut -> all_durable (shared h') w') ->
  written h h' w'.
Proof.
  intros Hadv Hd. split_and!; [apply Hadv| |done]. intros n. by eapply (room_advances record_max).
Qed.

(** C1. [set] implements map update: on an open store that stores [m], with
    room for one more record and no I/O errors, it returns [Ok(())] and leaves
    an open store that stores [m] with [k] bound to [v], whatever the policy,
    the thresholds and the state of the active file (it may rotate). Under
    [SyncOnEveryPut] the record is on stable storage when [set] returns. *)
Theorem set_spec h w m k v :
  stores h w m -> room 1 (shared h) -> fits k v ->
  exists h' w', set_ k v (h, w) = (Ok tt, (h', w')) /\ stores h' w' (<[k := v]> m) /\
    written h h' w'.
Proof.
  intros (front & cur & cmds & He & Hm) Hr Hfit.
  destruct (set_engine h w front cur cmds k v He Hr Hfit)
    as (ts & h' & w' & front' & cur' & cmds' & Hrun & _ & He' & Hst & Hadv & Hdur).
  exists h', w'. split_and!; [done| |by eapply advances_written].
  exists front', cur', cmds'. split; [done|].
  rewrite (proj1 (same_log_state _ _ Hst)), state_of_snoc, values_apply1. by subst.
Qed.

(** C3. [remove] implements map deletion: on an open store that stores [m], a
    key that is not in [m] gives [KeyNotFound] and changes nothing, and a key
    that is in [m] is removed. *)
Theorem remove_spec h w m k :
  stores h w m -> room 1 (shared h) ->
  match m !! k with
  | None => remove k (h, w) = (Err KeyNotFound, (h, w))
  | Some _ => exists h' w', remove k (h, w) = (Ok tt, (h', w')) /\ stores h' w' (delete k m) /\
      written h h' w'
  end.
Proof.
  intros (front & cur & cmds & He & Hm) Hr. pose proof (remove_engine h w front cur cmds k He Hr) as H.
  rewrite <- Hm, values_lookup.
  destruct (state_of (front ++ [(cur, cmds)]) !! k) as [e|]; cbn [fmap option_fmap option_map]; [|done].
  destruct H as (ts & h' & w' & front' & cur' & cmds' & Hrun & _ & He' & Hst & Hadv & Hdur).
  exists h', w'. split_and!; [done| |by eapply advances_written].
  exists front', cur', cmds'. split; [done|].
  by rewrite (proj1 (same_log_state _ _ Hst)), state_of_snoc, values_apply1.
Qed.

(** C2. [get] implements map lookup: it returns the value that [m] has for the
    key, [None] if it has none, in the first turn of its retry loop, and changes
    nothing. *)
Theorem get_spec h w m k fuel :
  stores h w m -> get (S fuel) k (h, w) = (Ok (m !! k), (h, w)).
Proof.
  intros (front & cur & cmds & He & <-). apply get_readable; [by apply engine_readable|apply He].
Qed.

(** ** A write that fails *)

(** Appending to the active file keeps the store readable. *)
Lemma readable_append sh w w' front cur cmds bs :
  engine sh w front cur cmds ->
  (forall h, bytes_of w' h = bytes_of (append_bytes w (file (writer sh)) bs) h) ->
  readable sh w' (front ++ [(cur, cmds)]).
Proof.
  intros He Hb. destruct (engine_readable _ _ _ _ _ He) as [Hi Hf]. split; [done|].
  intros id cs Hin. destruct (Hf id cs Hin) as [Hg (h & tail & Hget & Hbytes)]. split; [done|].
  exists h. rewrite Hb, bytes_of_append, Hbytes. case_decide.
  - exists (tail ++ bs). by rewrite app_assoc.
  - by exists tail.
Qed.

Lemma unix_now_faults w fs o w1 :
  unix_now (set_faults w []) = (o, w1) -> unix_now (set_faults w fs) = (o, set_faults w1 fs).
Proof.
  unfold unix_now. destruct w as [? ? ? ? ? ? [|] ?]; cbn; case_match; by intros [= <- <-].
Qed.

(** A failing [write_all] inside [set]: the error is returned; the index,
    the counters and the signal are as before, so every key still reads as it
    did; the active file has a prefix of the record after its commands, which
    the next [open] cuts off unless it is all of the record. *)
Theorem set_write_error h w m k v f fs :
  stores h (set_faults w []) m -> faults w = Some f :: fs -> fits k v ->
  exists w' rec front cur cmds,
    set_ k v (h, w) = (Err (Io (kind f)), (h, w')) /\
    good_cmd rec /\ Command.get_key rec = k /\ Command.get_value rec = Some v /\
    values (state_of (front ++ [(cur, cmds)])) = m /\
    disk (set_faults w' []) front cur cmds (take (partial f) (Command.serialize rec)) /\
    (forall fuel k', fs = [] -> get (S fuel) k' (h, w') = (Ok (m !! k'), (h, w'))).
Proof.
  intros (front & cur & cmds & He & Hm) Hf Hfit.
  destruct (engine_clock _ _ _ _ _ He) as (t & ts & Hnow & Hts & He1).
  apply (unix_now_faults w (faults w)) in Hnow.
  replace (set_faults w (faults w)) with w in Hnow by by destruct w.
  set (rec := Set_ (as_secs t) k v). set (w1 := set_clock (set_faults w []) t ts) in *.
  set (tail := take (partial f) (Command.serialize rec)).
  set (w2 := append_bytes w1 (file (writer (shared h))) tail).
  exists (set_faults w2 fs), rec, front, cur, cmds. split_and!; try done.
  - unfold set_, bind at 1, on_snd at 1. cbn [fst snd]. rewrite Hnow.
    unfold append, append_record, with_writer_lock_b. cbn [fst]. rewrite (e_lock _ _ _ _ _ He1).
    rewrite bind_assoc. unfold bind at 1, on_shared at 1, get_writer, gets. cbn [fst snd shared compaction_tx].
    rewrite bind_assoc. unfold bind at 1, on_snd at 1. cbn [fst snd]. fold rec. unfold file_write_all, syscall.
    cbn [faults set_faults]. rewrite Hf. by destruct h.
  - by apply good_set.
  - cbn [w2]. replace (set_faults (set_faults w2 fs) []) with w2 by done.
    pose proof (disk_append _ _ _ _ _ _ tail (e_disk _ _ _ _ _ He1) (e_file _ _ _ _ _ He1)) as Hd.
    done.
  - intros fuel k' ->. rewrite <- Hm. apply get_readable; [|done].
    by eapply (readable_append _ w1).
Qed.

End proofs.

(** ** Concrete runs *)

(** The store that opening an empty directory gives. *)
Definition fresh_world : World :=
  {| dir := {[ data_file_name 1 := 0%nat; LockFile.LOCK_FILE_NAME := 1%nat ]}; others := [];
     inodes := {[ 0%nat := {| content := []; durable := 0 |};
                  1%nat := {| content := lit "bitcask"; durable := 7 |} ]}; next_inode := 2;
     flock := true; clock := 1700000000000; ticks := [1700000000007; 1700000001234]; faults := [] |}.

Definition fresh_handle (c : Config.Config) : Handle :=
  {| shared := {| index := Index.from (replicate Index.INDEX_BUCKETS_NUM ∅);
                  readers := [(1, 0%nat)];
                  writer := {| current_file_id := 1; file := 0%nat; offset := 0;
                               flushed_offset := 0; last_ts_flushed := 1700000000000;
                               stale_bytes_count := 0 |};
                  writer_poisoned := false; config := c;
                  lock_file := {| LockFile.file := 1%nat |} |};
     compaction_tx := Some false |}.

Lemma fresh_dir name h :
  dir fresh_world !! name = Some h ->
  (name = data_file_name 1 /\ h = 0%nat) \/ (name = LockFile.LOCK_FILE_NAME /\ h = 1%nat).
Proof.
  cbn [dir fresh_world]. intros [[<- <-]|[_ [<- <-]%lookup_singleton_Some]]%lookup_insert_Some;
    [by left|by right].
Qed.

Lemma fresh_inodes : inodes_ok fresh_world.
Proof.
  intros h. unfold durable_of, bytes_of. destruct (inodes fresh_world !! h) as [i|] eqn:E; [|done].
  cbn [inodes fresh_world] in E.
  by apply lookup_insert_Some in E as [[_ <-]|[_ [_ <-]%lookup_singleton_Some]].
Qed.

Lemma fresh_disk : disk (Crc := crc32_ieee) fresh_world [] 1 [] [].
Proof.
  split; try done.
  - intros id cs Hin. by apply not_elem_of_nil in Hin.
  - by exists 0%nat.
  - intros name h id [[-> ->]|[-> ->]]%fresh_dir; [|done]. rewrite get_file_id_data by done.
    intros [= <-]. by split; [|left].
  - intros id h Hid [[E _]|[E _]]%fresh_dir; [by destruct (data_ne_hint 1 id)|].
    destruct (hint_not_neutral id Hid). rewrite E. apply lock_neutral.
  - intros id h Hid [[E _]|[E _]]%fresh_dir; [by destruct (data_ne_compact 1 id)|].
    destruct (compact_not_neutral id Hid). rewrite E. apply lock_neutral.
  - split.
    + by intros n1 n2 h [[-> ->]|[-> ->]]%fresh_dir [[-> E]|[-> E]]%fresh_dir.
    + intros n h [[_ ->]|[_ ->]]%fresh_dir; cbn; lia.
  - intros id. split_and!; apply not_elem_of_nil.
Qed.

Lemma fresh_engine c : engine (Crc := crc32_ieee) (shared (fresh_handle c)) fresh_world [] 1 [].
Proof.
  split; try done.
  - apply fresh_inodes.
  - split; [apply not_elem_of_nil|]. by exists 1%nat.
  - apply fresh_disk.
  - intros id h Hin. apply (list_elem_of_singleton (id, h) (1, 0%nat)) in Hin as [= -> ->].
    split_and!; try done; [cbn; lia|]. by intros n [[-> _]|[_ [=]]]%fresh_dir.
  - intros id cs Hin. apply (list_elem_of_singleton (id, cs) (1, [])) in Hin as [= -> ->]. done.
  - apply index_is_from, represents_empty.
Qed.

Lemma fresh_stores c : stores (Crc := crc32_ieee) (fresh_handle c) fresh_world ∅.
Proof. exists [], 1, []. split; [apply fresh_engine|done]. Qed.

Definition sample_config : Config.Config :=
  {| Config.durability_policy := SyncOnEveryPut; Config.file_size_threshold := 20;
     Config.compaction_threshold := 1; Config.flush_threshold_millis := 1000;
     Config.store_type := StoreType.Bitcask |}.

Lemma fresh_room n c : 0 <= n <= 1000 -> room n (shared (fresh_handle c)).
Proof. intros. unfold room, record_max, u64_max. cbn. lia. Qed.

Lemma set_spec_witness :
  exists h' w', set_ (Crc := crc32_ieee) (lit "k") (lit "v")
      (fresh_handle sample_config, fresh_world) = (Ok tt, (h', w')) /\
    stores (Crc := crc32_ieee) h' w' (<[lit "k" := lit "v"]> ∅) /\ all_durable (shared h') w'.
Proof.
  destruct (set_spec (Crc := crc32_ieee) (fresh_handle sample_config) fresh_world ∅
    (lit "k") (lit "v")) as (h' & w' & Hrun & Hst & _ & _ & Hd).
  - apply fresh_stores.
  - apply fresh_room. lia.
  - by vm_compute; intuition discriminate.
  - exists h', w'. split; [exact Hrun|]. split; [exact Hst|]. apply Hd. reflexivity.
Defined.

Lemma remove_spec_witness :
  remove (Crc := crc32_ieee) (lit "k") (fresh_handle sample_config, fresh_world) =
  (Err KeyNotFound, (fresh_handle sample_config, fresh_world)).
Proof.
  pose proof (remove_spec (Crc := crc32_ieee) (fresh_handle sample_config) fresh_world ∅ (lit "k")
    (fresh_stores _) ltac:(apply fresh_room; lia)) as H.
  rewrite lookup_empty in H. exact H.
Defined.

Lemma get_spec_witness :
  get (Crc := crc32_ieee) 1 (lit "k") (fresh_handle sample_config, fresh_world) =
  (Ok None, (fresh_handle sample_config, fresh_world)).
Proof.
  pose proof (get_spec (Crc := crc32_ieee) _ _ ∅ (lit "k") 0 (fresh_stores sample_config)) as H.
  rewrite lookup_empty in H. exact H.
Defined.

Lemma set_write_error_witness :
  exists w', set_ (Crc := crc32_ieee) (lit "k") (lit "v") (fresh_handle sample_config,
      set_faults fresh_world [Some {| kind := Other; partial := 3 |}]) =
    (Err (Io Other), (fresh_handle sample_config, w')) /\
    get (Crc := crc32_ieee) 1 (lit "k") (fresh_handle sample_config, w') =
    (Ok None, (fresh_handle sample_config, w')).
Proof.
  destruct (set_write_error (Crc := crc32_ieee) (fresh_handle sample_config)
    (set_faults fresh_world [Some {| kind := Other; partial := 3 |}]) ∅ (lit "k") (lit "v")
    {| kind := Other; partial := 3 |} []) as (w' & rec & fr & cu & cm & Hrun & _ & _ & _ & _ & _ & Hget).
  - apply fresh_stores.
  - reflexivity.
  - by vm_compute; intuition discriminate.
  - exists w'. split; [exact Hrun|]. specialize (Hget 0%nat (lit "k") eq_refl).
    rewrite lookup_empty in Hget. exact Hget.
Defined.
