(* ===== verification/Replay.v ===== *)
(** * Replaying the log

    [Loader::replay] on a directory that holds an abstract log: the index it
    rebuilds is the index of the log, from hint files and data files alike; a
    damaged hint file is deleted and its data file is read instead; a torn tail
    of the active file is cut off. *)

From Stdlib Require Import ZArith Lia Strings.Byte.
From stdpp Require Import base numbers list strings gmap.
From S2P Require Import Prelude Bytes Crc CommandFormat HintFormat Streams Reader KeyDir Text Names Config FileSystem Lock BTree Engine Load Log Inv EngineProofs.
Import Command(Command, Set_, Rm).
Import RecordReader Loader.

Local Open Scope Z_scope.

Section replay.
Context `{Crc : Crc32}.

(** ** Replaying twice

    Commands hide what was stored before for their keys, so reading a part of a
    file once more, from the start, changes nothing. *)

Definition keys_of (es : list (Command * IndexValue)) : list (list byte) :=
  (fun e => Command.get_key (fst e)) <$> es.

Lemma apply_all_agree (es : list (Command * IndexValue)) (st1 st2 : KV) :
  (forall k, (k ∉ keys_of es) -> st1 !! k = st2 !! k) -> apply_all st1 es = apply_all st2 es.
Proof.
  revert st1 st2. induction es as [|[c iv] es IH]; intros st1 st2 H; cbn [apply_all foldl].
  - apply map_eq. intros k. apply H. apply not_elem_of_nil.
  - apply IH. intros k Hk. destruct (decide (k = Command.get_key c)) as [->|Hne].
    + destruct c; cbn [apply1 fst snd Command.get_key]; by simplify_map_eq.
    + assert (st1 !! k = st2 !! k) as E by (apply H, not_elem_of_cons; done).
      destruct c; cbn [apply1 fst snd Command.get_key] in *; by simplify_map_eq.
Qed.

Lemma apply_all_other (es : list (Command * IndexValue)) (st : KV) k :
  k ∉ keys_of es -> apply_all st es !! k = st !! k.
Proof.
  revert st. induction es as [|[c iv] es IH]; intros st H; cbn [apply_all foldl]; [done|].
  apply not_elem_of_cons in H as [Hne H]. unfold apply_all in IH. rewrite IH by done.
  destruct c; cbn [apply1 fst snd Command.get_key] in *; by simplify_map_eq.
Qed.

Lemma apply_all_again st id pre post :
  apply_all (apply_all st (located id 0 pre)) (located id 0 (pre ++ post)) =
  apply_all st (located id 0 (pre ++ post)).
Proof.
  apply apply_all_agree. intros k Hk. apply apply_all_other. intros Hin. apply Hk.
  rewrite located_app. unfold keys_of in *. rewrite fmap_app. apply elem_of_app. by left.
Qed.

(** ** Hint files *)

Definition hint_bytes (e : Command * IndexValue) : list byte :=
  IndexValue.serialize (snd e) (Command.get_key (fst e)).

Lemma place_ok id off c :
  good_cmd c -> 0 <= off -> off + blen (Command.serialize c) < 2 ^ 64 ->
  index_value_ok (Command.get_key c) (place id off c).
Proof.
  intros Hg Ho Hl. pose proof (serialize_max c Hg). destruct Hg as ([Hts _] & _ & Hk).
  unfold record_max in *.
  split_and!; cbn [place IndexValue.ts IndexValue.offset IndexValue.len]; (done || ulia).
Qed.

Lemma hint_loop_records D id cs tail p b fuel l w st off :
  0 <= p <= blen D -> zdrop p D = concat (hint_bytes <$> located id off cs) ++ tail ->
  Forall good_cmd cs -> Forall is_set cs -> 0 <= off -> off + blen (enc cs) < 2 ^ 64 ->
  represents (index l) (places st) ->
  exists arr' p' b',
    hint_loop (length cs + fuel) id (at_pos D p b) (l, w) =
    hint_loop fuel id (at_pos D p' b') (set_index l arr', w) /\
    0 <= p' <= blen D /\ zdrop p' D = tail /\
    represents arr' (places (apply_all st (located id off cs))).
Proof.
  revert p b l st off.
  induction cs as [|c cs IH]; intros p b l st off Hp E Hg Hs Ho Hl Hr.
  { exists (index l), p, b. split_and!; try done; try lia. by destruct l. }
  apply Forall_cons in Hg as [Hc Hg]. apply Forall_cons in Hs as [Hset Hs].
  rewrite enc_cons, blen_app in Hl. pose proof (blen_nonneg (enc cs)).
  pose proof (place_ok id off c Hc Ho ltac:(lia)) as Hok.
  cbn [located fmap list_fmap concat] in E. rewrite <- app_assoc in E.
  set (rec := hint_bytes (c, place id off c)) in *.
  pose proof (framed_hint _ _ Hok : framed rec) as Hf.
  destruct (next_record_framed D b p rec _ Hp Hf E) as (Hn & E' & Hle).
  cbn [length Nat.add hint_loop]. rewrite Hn. rewrite bind_outcome.
  assert (IndexValue.deserialize rec id =
    Ok (Command.get_key c, place id off c, blen rec)) as ->.
  { pose proof (hint_deserialize_serialize (place id off c) (Command.get_key c) id [] Hok) as H1.
    rewrite app_nil_r in H1. exact H1. }
  unfold upd at 1, bind at 1, on_fst, modify. cbn [fst snd]. pose proof (blen_nonneg rec).
  pose proof (serialize_max c Hc).
  destruct (IH (p + blen rec) rec
    (set_index l (Index.bucket_insert (index l) (Command.get_key c) (place id off c)))
    (apply1 st (c, place id off c)) (off + blen (Command.serialize c)))
    as (arr' & p' & b' & Hrun & Hp' & Ht & Hr'); [lia|done|done|done|lia|lia| |].
  { rewrite places_apply1. destruct c as [ts k v|ts k]; [|by destruct Hset].
    by apply represents_insert. }
  exists arr', p', b'. split_and!; try done; try lia.
Qed.

(** The end of a hint file. *)
Lemma hint_loop_end D id tail p b fuel l w :
  0 <= p <= blen D -> zdrop p D = tail -> tail = [] \/ bad_hint id tail ->
  hint_loop (S fuel) id (at_pos D p b) (l, w) = (Ok (bool_decide (tail = [])), (l, w)).
Proof.
  intros Hp E Ht. cbn [hint_loop]. destruct (decide (tail = [])) as [->|Hne].
  - assert (p = blen D) as ->.
    { pose proof (blen_zdrop p D Hp) as Hl. rewrite E in Hl. unfold blen in *; simpl in *; lia. }
    by rewrite next_record_clean.
  - rewrite bool_decide_eq_false_2 by done.
    destruct Ht as [|[Ht|(rec & rest & Hr & Hf & e & He)]]; [done| |].
    + rewrite <- E in Ht. by destruct (next_record_torn D b p Hp Ht) as [s ->].
    + rewrite Hr in E. destruct (next_record_framed D b p rec rest Hp Hf E) as (-> & _).
      rewrite bind_outcome. by rewrite He.
Qed.

Lemma hint_loop_file id cs pre post tail l w st :
  cs = pre ++ post -> Forall good_cmd cs -> Forall is_set cs -> blen (enc cs) < 2 ^ 64 ->
  tail = [] \/ bad_hint id tail -> represents (index l) (places st) ->
  let D := hint_enc id pre ++ tail in
  exists arr',
    hint_loop (loop_fuel (cursor_over D)) id (RecordReader.new (cursor_over D) (blen D)) (l, w) =
      (Ok (bool_decide (tail = [])), (set_index l arr', w)) /\
    represents arr' (places (apply_all st (located id 0 pre))).
Proof.
  intros -> [Hg _]%Forall_app [Hs _]%Forall_app Hl Ht Hr D.
  rewrite enc_app, blen_app in Hl. pose proof (blen_nonneg (enc post)).
  assert (length pre <= length (hint_enc id pre))%nat as Hlen.
  { unfold hint_enc. clear -Crc. generalize 0. induction pre as [|c pre IH]; intros o; [done|].
    cbn [located fmap list_fmap concat length]. rewrite length_app.
    pose proof (blen_hint_serialize (place id o c) (Command.get_key c)) as Hb.
    cbn [fst snd]. specialize (IH (o + blen (Command.serialize c))).
    pose proof (blen_nonneg (Command.get_key c)). unfold blen in *. lia. }
  destruct (hint_loop_records D id pre tail 0 [] (S (length D - length pre)) l w st 0)
    as (arr' & p' & b' & Hrun & Hp' & E & Hr'); try done; [blia|lia|].
  exists arr'. split; [|done]. unfold loop_fuel. cbn [avail cursor_over].
  replace (S (length D)) with (length pre + S (length D - length pre))%nat
    by (unfold D; rewrite length_app; lia).
  change (RecordReader.new (cursor_over D) (blen D)) with (at_pos D 0 []).
  rewrite Hrun. by apply hint_loop_end.
Qed.

(** ** Data files *)

(** What reading [n] bytes of records changes of the loader besides the index. *)
Record loaded (l l' : Loader) (n : Z) : Prop := {
  l_readers : readers l' = readers l;
  l_cur : current_file_id (writer l') = current_file_id (writer l);
  l_file : file (writer l') = file (writer l);
  l_flushed : flushed_offset (writer l') = flushed_offset (writer l);
  l_last : last_ts_flushed (writer l') = last_ts_flushed (writer l);
  l_stale : stale_bytes_count (writer l) <= stale_bytes_count (writer l') <=
            stale_bytes_count (writer l) + n
}.

Lemma loaded_refl l n : 0 <= n -> loaded l l n.
Proof. split; (done || lia). Qed.

Lemma loaded_trans l1 l2 l3 n m : loaded l1 l2 n -> loaded l2 l3 m -> loaded l1 l3 (n + m).
Proof. intros [] []. split; (congruence || lia). Qed.

Lemma loaded_offset l l' n o : loaded l l' n -> loaded l (set_offset l' o) n.
Proof. intros []. by split. Qed.

Lemma replay_record_run id p c l w st :
  good_cmd c -> represents (index l) (places st) ->
  0 <= stale_bytes_count (writer l) ->
  stale_bytes_count (writer l) + blen (Command.serialize c) <= u64_max ->
  offset (writer l) + blen (Command.serialize c) <= u64_max ->
  exists l', replay_record id p (Command.serialize c) (l, w) = (Ok tt, (l', w)) /\
    loaded l l' (blen (Command.serialize c)) /\
    offset (writer l') = offset (writer l) + blen (Command.serialize c) /\
    represents (index l') (places (apply1 st (c, place id p c))).
Proof.
  intros (Hok & _) Hr Hs0 Hs Ho. pose proof (blen_nonneg (Command.serialize c)) as Hn.
  pose proof (deserialize_serialize c [] Hok) as Hd. rewrite app_nil_r in Hd.
  unfold replay_record. rewrite bind_outcome, Hd. cbn [fst].
  rewrite places_apply1. destruct c as [ts k v|ts k].
  - unfold upd, bind, on_fst, modify, gets, of_outcome. cbn [fst snd set_index writer].
    unfold u64_add. rewrite (proj2 (Z.leb_le _ _) Ho). eexists. split; [done|].
    split; [split; cbn; (done || lia)|]. split; [done|]. by apply represents_insert.
  - unfold upd, bind, on_fst, modify, gets, of_outcome. cbn [fst snd]. unfold u64_add.
    rewrite (proj2 (Z.leb_le _ _) Hs). cbn [fst snd set_stale set_index writer offset].
    rewrite (proj2 (Z.leb_le _ _) Ho). eexists. split; [done|].
    split; [split; cbn; (done || lia)|]. split; [done|]. by apply represents_remove.
Qed.

Lemma data_loop_records D id cs tail p b fuel l w st :
  0 <= p <= blen D -> zdrop p D = enc cs ++ tail -> Forall good_cmd cs ->
  represents (index l) (places st) -> offset (writer l) = p ->
  0 <= stale_bytes_count (writer l) ->
  stale_bytes_count (writer l) + blen (enc cs) <= u64_max -> p + blen (enc cs) <= u64_max ->
  exists l' b',
    data_loop (length cs + fuel) id (at_pos D p b) (l, w) =
    data_loop fuel id (at_pos D (p + blen (enc cs)) b') (l', w) /\
    p + blen (enc cs) <= blen D /\ zdrop (p + blen (enc cs)) D = tail /\
    loaded l l' (blen (enc cs)) /\ offset (writer l') = p + blen (enc cs) /\
    represents (index l') (places (apply_all st (located id p cs))).
Proof.
  revert p b l st. induction cs as [|c cs IH]; intros p b l st Hp E Hg Hr Ho Hs0 Hs Hl.
  { exists l, b. change (blen (enc [])) with 0. rewrite Z.add_0_r.
    split_and!; try done; [lia|by apply loaded_refl]. }
  apply Forall_cons in Hg as [Hc Hg]. rewrite enc_cons, blen_app in *.
  pose proof (blen_nonneg (enc cs)). pose proof (serialize_max c Hc) as Hm.
  destruct (replay_record_run id p c l w st Hc Hr Hs0) as (l1 & Hrun & Hld & Ho1 & Hr1);
    [lia|lia|].
  rewrite <- app_assoc in E. set (rec := Command.serialize c) in *.
  pose proof (framed_command c (proj1 Hc) : framed rec) as Hf.
  destruct (next_record_framed D b p rec _ Hp Hf E) as (Hn & E' & Hle).
  pose proof (l_stale _ _ _ Hld).
  destruct (IH (p + blen rec) rec l1 (apply1 st (c, place id p c)))
    as (l' & b' & Hloop & Hle' & Ht & Hld' & Ho' & Hr'); try done; try lia.
  rewrite <- Z.add_assoc in Hloop, Hle', Ht, Ho'.
  exists l', b'. split_and!; try done; [|by eapply loaded_trans].
  cbn [length Nat.add data_loop]. rewrite Hn, bind_outcome. by rewrite (bind_ok _ _ _ _ _ Hrun).
Qed.

(** What [set_len] leaves of a file that holds [D]. *)
Definition truncated (w : World) (h : File) (n : Z) : World :=
  set_inode w h {| content := ztake n (bytes_of w h); durable := Z.min (durable_of w h) n |}.

Lemma set_len_calm w h n :
  faults w = [] -> n <= blen (bytes_of w h) -> set_len h n w = (Ok tt, truncated w h n).
Proof.
  intros Hc Hn. unfold set_len. rewrite syscall_calm by done. unfold truncated.
  replace (Z.to_nat (n - blen (bytes_of w h))) with 0%nat by lia.
  by rewrite app_nil_r.
Qed.

(** The loop over a whole data file that ends with [tail]. *)
Lemma data_loop_file id cs tail l w st :
  Forall good_cmd cs -> tail = [] \/ torn tail -> represents (index l) (places st) ->
  0 <= stale_bytes_count (writer l) ->
  stale_bytes_count (writer l) + blen (enc cs) <= u64_max -> blen (enc cs) <= u64_max ->
  offset (writer l) = 0 -> faults w = [] ->
  tail = [] \/ (id = current_file_id (writer l) /\ bytes_of w (file (writer l)) = enc cs ++ tail) ->
  let D := enc cs ++ tail in
  exists l',
    data_loop (loop_fuel (cursor_over D)) id (RecordReader.new (cursor_over D) (blen D)) (l, w) =
      (Ok (bool_decide (tail <> [])),
       (l', if decide (tail = []) then w else truncated w (file (writer l)) (blen (enc cs)))) /\
    loaded l l' (blen (enc cs)) /\ offset (writer l') = blen (enc cs) /\
    represents (index l') (places (apply_all st (located id 0 cs))).
Proof.
  intros Hg Ht Hr Hs0 Hs Hl Ho Hcalm Hact D.
  pose proof (concat_framed_length _ (enc_framed cs Hg)) as Hlen. rewrite length_fmap in Hlen.
  fold (enc cs) in Hlen.
  destruct (data_loop_records D id cs tail 0 [] (S (length D - length cs)) l w st)
    as (l' & b' & Hrun & Hle & Htail & Hld & Ho' & Hr'); try done; [unfold D; blia|].
  rewrite Z.add_0_l in *. unfold loop_fuel. cbn [avail cursor_over].
  replace (S (length D)) with (length cs + S (length D - length cs))%nat
    by (unfold D; rewrite length_app; lia).
  change (RecordReader.new (cursor_over D) (blen D)) with (at_pos D 0 []).
  rewrite Hrun. cbn [data_loop]. pose proof (blen_nonneg (enc cs)).
  destruct (decide (tail = [])) as [->|Hne].
  - exists l'. rewrite bool_decide_eq_false_2 by (intros Hx; by apply Hx).
    assert (blen D = blen (enc cs)) as HD by (unfold D; blia). rewrite <- HD.
    rewrite next_record_clean. rewrite HD. by split_and!.
  - destruct Ht as [|Ht]; [done|]. destruct Hact as [|[Hid Hb]]; [done|].
    destruct (next_record_torn D b' (blen (enc cs))) as [s Hn]; [lia|by rewrite Htail|].
    rewrite Hn, bind_outcome. unfold bind at 1, gets at 1. cbn [fst].
    rewrite (l_cur _ _ _ Hld), Hid, Z.eqb_refl. unfold bind, on_snd, upd, on_fst, modify, ret.
    cbn [fst snd]. rewrite (l_file _ _ _ Hld).
    rewrite set_len_calm by (done || by rewrite Hb). rewrite bool_decide_eq_true_2 by done.
    eexists. split; [done|]. split_and!; [by apply loaded_offset|done|]. by rewrite <- Hid.
Qed.

(** ** One file *)

(** Some hint files were deleted, and nothing else happened. *)
Record hints_removed (w w' : World) : Prop := {
  hr_rest : w' = set_dir w (dir w');
  hr_dir : forall n, dir w' !! n = dir w !! n \/
           (dir w' !! n = None /\ exists id, is_u64 id /\ n = hint_file_name id)
}.

Lemma hints_removed_refl w : hints_removed w w.
Proof. split; [by destruct w|by left]. Qed.

Lemma hints_removed_trans w1 w2 w3 :
  hints_removed w1 w2 -> hints_removed w2 w3 -> hints_removed w1 w3.
Proof.
  intros [E1 H1] [E2 H2]. split; [by rewrite E2, E1|]. intros n.
  destruct (H2 n) as [->|?]; [apply H1|by right].
Qed.

Lemma hints_removed_one w id :
  is_u64 id -> hints_removed w (set_dir w (delete (hint_file_name id) (dir w))).
Proof.
  intros Hid. split; [done|]. intros n. cbn [dir set_dir].
  destruct (decide (n = hint_file_name id)) as [->|Hne].
  - right. split; [apply lookup_delete_eq|by exists id].
  - left. by apply lookup_delete_ne.
Qed.

Lemma hints_removed_old w w' n h :
  hints_removed w w' -> dir w' !! n = Some h -> dir w !! n = Some h.
Proof. intros [_ H] Hn. by destruct (H n) as [<-|[E _]]; [|rewrite Hn in E]. Qed.

Lemma hints_removed_data w w' id :
  hints_removed w w' -> dir w' !! data_file_name id = dir w !! data_file_name id.
Proof.
  intros [_ H]. destruct (H (data_file_name id)) as [?|[_ (i & _ & E)]]; [done|].
  by apply data_ne_hint in E.
Qed.

Lemma hints_removed_step w w' : dir_ok w -> hints_removed w w' -> disk_step w w'.
Proof.
  intros [Hl Hf] Hr. pose proof (hr_rest _ _ Hr) as E.
  assert (forall h, bytes_of w' h = bytes_of w h /\ durable_of w' h = durable_of w h) as Hb
    by (intros h; by rewrite E).
  split.
  - by rewrite E.
  - intros n h Hn. left. by eapply hints_removed_old.
  - intros id _. by apply hints_removed_data.
  - intros n h _ _. destruct (Hb h) as [-> ->]. done.
  - split.
    + intros n1 n2 h H1 H2. apply (Hl n1 n2 h); by eapply hints_removed_old.
    + intros n h Hn. rewrite E. apply (Hf n). by eapply hints_removed_old.
Qed.

Lemma hints_removed_bytes w w' h : hints_removed w w' -> bytes_of w' h = bytes_of w h.
Proof. intros [-> _]. done. Qed.

(** Reading a data file after the hint was dealt with. *)
Definition read_data (id : Z) (h : File) : LM bool :=
  let! stream := on_snd (file_stream h) in
  let! data_file_len := on_snd (metadata_len h) in
  upd (fun l => set_offset l 0) ;;!
  data_loop (loop_fuel stream) id (RecordReader.new stream data_file_len).

Lemma read_data_file id cs tail h l w st :
  Forall good_cmd cs -> tail = [] \/ torn tail -> represents (index l) (places st) ->
  0 <= stale_bytes_count (writer l) ->
  stale_bytes_count (writer l) + blen (enc cs) <= u64_max -> blen (enc cs) <= u64_max ->
  faults w = [] -> bytes_of w h = enc cs ++ tail ->
  tail = [] \/ (id = current_file_id (writer l) /\ h = file (writer l)) ->
  exists l',
    read_data id h (l, w) =
      (Ok (bool_decide (tail <> [])),
       (l', if decide (tail = []) then w else truncated w (file (writer l)) (blen (enc cs)))) /\
    loaded l l' (blen (enc cs)) /\ offset (writer l') = blen (enc cs) /\
    represents (index l') (places (apply_file st (id, cs))).
Proof.
  intros Hg Ht Hr Hs0 Hs Hl Hcalm Hb Hact.
  destruct (data_loop_file id cs tail (set_offset l 0) w st) as (l' & Hrun & Hld & Ho & Hr');
    try done.
  { destruct Hact as [?|[? ->]]; [by left|right]. done. }
  exists l'. split_and!; [|by destruct Hld|done|done].
  unfold read_data, bind, on_snd, upd, on_fst, modify. cbn [fst snd].
  rewrite file_stream_calm by done. cbn [fst snd]. rewrite metadata_len_calm by done.
  cbn [fst snd]. rewrite Hb. exact Hrun.
Qed.

Lemma replay_file_unhinted id h l w :
  (id = current_file_id (writer l) \/
   (faults w = [] /\ (hint_file_name id ∉ others w) /\ dir w !! hint_file_name id = None)) ->
  replay_file id h (l, w) = read_data id h (l, w).
Proof.
  intros H. unfold replay_file, replay_hint. unfold bind at 1 2, gets. cbn [fst].
  destruct H as [->|(Hc & Ho & Hn)]; [by rewrite Z.eqb_refl|].
  destruct (Z.eqb_spec id (current_file_id (writer l))); cbn [negb]; [done|].
  unfold bind at 1, on_snd at 1. cbn [fst snd]. rewrite exists_calm by done. by rewrite Hn.
Qed.

Lemma replay_file_hinted id h hh l w b l1 :
  id <> current_file_id (writer l) -> faults w = [] -> hint_file_name id ∉ others w ->
  dir w !! hint_file_name id = Some hh ->
  hint_loop (loop_fuel (cursor_over (bytes_of w hh))) id
    (RecordReader.new (cursor_over (bytes_of w hh)) (blen (bytes_of w hh))) (l, w) =
    (Ok b, (l1, w)) ->
  replay_file id h (l, w) =
  if b then (Ok false, (l1, w))
  else read_data id h (l1, set_dir w (delete (hint_file_name id) (dir w))).
Proof.
  intros Hne Hc Ho Hh Hloop. unfold replay_file, replay_hint. unfold bind at 1 2, gets. cbn [fst].
  rewrite (proj2 (Z.eqb_neq _ _) Hne). cbn [negb]. unfold bind at 1, on_snd at 1. cbn [fst snd].
  rewrite exists_calm by done. rewrite Hh, bool_decide_eq_true_2 by done.
  unfold bind at 1, on_snd at 1. cbn [fst snd]. rewrite (open_read_calm w Hc _ hh) by done.
  unfold bind at 1, on_snd at 1. cbn [fst snd]. rewrite metadata_len_calm by done.
  unfold bind at 1, on_snd at 1. cbn [fst snd]. rewrite file_stream_calm by done.
  rewrite (bind_ok _ _ _ _ _ Hloop). destruct b; [done|].
  unfold bind at 1, on_snd at 1. cbn [fst snd].
  by rewrite (remove_file_calm w Hc _ hh) by done.
Qed.

Lemma replay_file_sealed id cs h l w st :
  sealed w id cs -> hint_file_name id ∉ others w -> faults w = [] ->
  id <> current_file_id (writer l) -> dir w !! data_file_name id = Some h ->
  represents (index l) (places st) -> 0 <= stale_bytes_count (writer l) ->
  stale_bytes_count (writer l) + blen (enc cs) <= u64_max ->
  exists l' w', replay_file id h (l, w) = (Ok false, (l', w')) /\ hints_removed w w' /\
    loaded l l' (blen (enc cs)) /\ represents (index l') (places (apply_file st (id, cs))).
Proof.
  intros [Hid Hg Hlen (h0 & Hd & Hb & _) Hhint] Ho Hcalm Hne Hh Hr Hs0 Hs.
  rewrite Hd in Hh. injection Hh as ->. pose proof (blen_nonneg (enc cs)).
  assert (forall l1 w1 st1, faults w1 = [] -> bytes_of w1 h = bytes_of w h ->
    represents (index l1) (places st1) -> loaded l l1 0 -> exists l',
    read_data id h (l1, w1) = (Ok false, (l', w1)) /\ loaded l l' (blen (enc cs)) /\
    represents (index l') (places (apply_file st1 (id, cs)))) as Hread.
  { intros l1 w1 st1 Hc1 Hb1 Hr1 Hld. pose proof (l_stale _ _ _ Hld).
    destruct (read_data_file id cs [] h l1 w1 st1) as (l' & Hrun & Hld' & _ & Hr');
      try done; try lia; [by left|by rewrite Hb1, app_nil_r|by left|].
    exists l'. split_and!; [exact Hrun| |done]. exact (loaded_trans _ _ _ _ _ Hld Hld'). }
  destruct (dir w !! hint_file_name id) as [hh|] eqn:Ehint.
  2:{ destruct (Hread l w st) as (l' & Hrun & Hld & Hr'); try done; [by apply loaded_refl|].
      exists l', w. split_and!; try done; [|apply hints_removed_refl].
      rewrite replay_file_unhinted; [done|]. right. by split_and!. }
  destruct (Hhint hh eq_refl) as [[Hset [Hfull|(pre & post & tail & Hcs & Htail & Hbad)]] _].
  - destruct (hint_loop_file id cs cs [] [] l w st) as (arr & Hloop & Hr');
      try done; [by rewrite app_nil_r|by left|].
    rewrite app_nil_r, <- Hfull in Hloop.
    exists (set_index l arr), w. split_and!; [|apply hints_removed_refl| |done].
    + by rewrite (replay_file_hinted id h hh l w true (set_index l arr)).
    + split; cbn; (done || lia).
  - destruct (hint_loop_file id cs pre post tail l w st) as (arr & Hloop & Hr'); try done;
      [by right|]. rewrite <- Htail in Hloop.
    assert (tail <> []) as Htne.
    { intros ->. destruct Hbad as [[Hx _]|(rec & rest & Hx & Hf & _)]; [done|].
      apply framed_nonempty in Hf. destruct rec; [simpl in Hf; lia|done]. }
    rewrite bool_decide_eq_false_2 in Hloop by done.
    destruct (Hread (set_index l arr) (set_dir w (delete (hint_file_name id) (dir w)))
      (apply_all st (located id 0 pre))) as (l' & Hrun & Hld & Hr2); try done;
      [split; cbn; (done || lia)|].
    exists l', (set_dir w (delete (hint_file_name id) (dir w))).
    split_and!; [|by apply hints_removed_one|done|].
    + by rewrite (replay_file_hinted id h hh l w false (set_index l arr)).
    + unfold apply_file in *. cbn [fst snd] in *. rewrite Hcs in Hr2 |- *.
      by rewrite apply_all_again in Hr2.
Qed.

(** ** The whole log *)

(** The read handles of the files of a log. *)
Definition handles (w : World) (fs : list (Z * list Command)) : list (Z * File) :=
  (fun f => (fst f, default 0%nat (dir w !! data_file_name (fst f)))) <$> fs.

Lemma handles_hints_removed w w' fs : hints_removed w w' -> handles w' fs = handles w fs.
Proof. intros H. apply list_fmap_ext. intros i f _. by rewrite (hints_removed_data _ _ _ H). Qed.

Lemma replay_sealed front rest l w st :
  (forall id cs, (id, cs) ∈ front ->
     sealed w id cs /\ (hint_file_name id ∉ others w) /\ id <> current_file_id (writer l)) ->
  faults w = [] -> dir_ok w -> represents (index l) (places st) ->
  0 <= stale_bytes_count (writer l) ->
  stale_bytes_count (writer l) + total_bytes front <= u64_max ->
  exists l' w', replay_files (handles w front ++ rest) (l, w) = replay_files rest (l', w') /\
    hints_removed w w' /\ loaded l l' (total_bytes front) /\
    represents (index l') (places (apply_files st front)).
Proof.
  revert l w st. induction front as [|[id cs] front IH]; intros l w st Hsl Hc Hd Hr Hs0 Hs.
  { exists l, w. split_and!; try done; [apply hints_removed_refl|by apply loaded_refl]. }
  destruct (Hsl id cs) as (Hsealed & Ho & Hne); [by left|].
  destruct (s_data _ _ _ Hsealed) as (h & Hh & _). rewrite total_bytes_cons in *. pose proof (total_bytes_nonneg front).
  destruct (replay_file_sealed id cs h l w st Hsealed Ho Hc Hne Hh Hr Hs0)
    as (l1 & w1 & Hrun & Hrem & Hld & Hr1); [lia|].
  pose proof (hints_removed_step w w1 Hd Hrem) as Hst. pose proof (l_stale _ _ _ Hld).
  destruct (IH l1 w1 (apply_file st (id, cs))) as (l' & w' & Hrun' & Hrem' & Hld' & Hr');
    try done; try lia.
  - intros id' cs' Hin. destruct (Hsl id' cs') as (? & ? & ?); [by right|].
    split_and!; [by eapply sealed_step| |].
    + by rewrite (ds_others _ _ Hst).
    + by rewrite (l_cur _ _ _ Hld).
  - by rewrite (hr_rest _ _ Hrem).
  - apply Hst.
  - exists l', w'. split_and!; [|by eapply hints_removed_trans|by eapply loaded_trans|done].
    cbn [handles fmap list_fmap app replay_files fst snd]. rewrite Hh. cbn [default].
    rewrite (bind_ok _ _ _ _ _ Hrun). rewrite <- Hrun'.
    by rewrite (handles_hints_removed _ _ _ Hrem).
Qed.

(** What replay leaves besides the log: hints may be gone, the active file may
    be cut, nothing else changed. *)
Record replayed (w w' : World) : Prop := {
  rp_others : others w' = others w;
  rp_next : next_inode w' = next_inode w;
  rp_flock : flock w' = flock w;
  rp_clock : clock w' = clock w /\ ticks w' = ticks w;
  rp_faults : faults w' = faults w;
  rp_dir : forall n, dir w' !! n = dir w !! n \/
           (dir w' !! n = None /\ exists id, is_u64 id /\ n = hint_file_name id);
  rp_inodes : inodes_ok w';
  rp_bytes : forall n h, neutral n -> dir w !! n = Some h ->
             bytes_of w' h = bytes_of w h /\ durable_of w' h = durable_of w h;
  rp_synced : forall h, blen (bytes_of w h) <= durable_of w h -> blen (bytes_of w' h) <= durable_of w' h
}.

Lemma replayed_hints w w' : inodes_ok w -> hints_removed w w' -> replayed w w'.
Proof. intros Hi [E H]. split; try (by rewrite E); done. Qed.

Lemma replayed_truncated w w' h n :
  0 <= n <= blen (bytes_of w' h) -> (forall n, dir w !! n = Some h -> ~ neutral n) ->
  replayed w w' -> replayed w (truncated w' h n).
Proof.
  intros Hn Hne []. split; try done.
  2:{ intros m k Hm Hk. unfold truncated. rewrite durable_of_set_inode, bytes_of_set_inode.
      rewrite !decide_False; [by apply (rp_bytes0 m)|intros ->; by apply (Hne m)..]. }
  - intros h'. unfold truncated.
    rewrite durable_of_set_inode, bytes_of_set_inode. case_decide; [|apply rp_inodes0].
    cbn [durable content]. rewrite blen_ztake by done. specialize (rp_inodes0 h). lia.
  - intros h' Hs. apply rp_synced0 in Hs. unfold truncated.
    rewrite durable_of_set_inode, bytes_of_set_inode. case_decide; [|done]. subst h'.
    cbn [durable content]. rewrite blen_ztake by done. lia.
Qed.

Lemma replay_log l w front cur cmds tail :
  disk w front cur cmds tail -> tail = [] \/ torn tail -> faults w = [] -> inodes_ok w ->
  current_file_id (writer l) = cur -> dir w !! data_file_name cur = Some (file (writer l)) ->
  readers l = handles w (front ++ [(cur, cmds)]) -> represents (index l) ∅ ->
  stale_bytes_count (writer l) = 0 -> total_bytes (front ++ [(cur, cmds)]) <= u64_max ->
  exists l' w', replay (l, w) = (Ok tt, (l', w')) /\
    disk w' front cur cmds [] /\ replayed w w' /\
    loaded l l' (total_bytes (front ++ [(cur, cmds)])) /\ offset (writer l') = blen (enc cmds) /\
    represents (index l') (places (state_of (front ++ [(cur, cmds)]))).
Proof.
  intros Hdisk Ht Hc Hi Hcur Hf Hrs Hr Hs0 Htot. rewrite total_bytes_app, total_bytes_one in Htot.
  pose proof (total_bytes_nonneg front). pose proof (blen_nonneg (enc cmds)).
  destruct (replay_sealed front (handles w [(cur, cmds)]) l w ∅)
    as (l1 & w1 & Hrun & Hrem & Hld & Hr1); try done; try lia; [|apply Hdisk|].
  { intros id cs Hin. split_and!; [by apply (d_sealed _ _ _ _ _ Hdisk)
      |apply (d_others _ _ _ _ _ Hdisk)|].
    pose proof (ascending_lt _ _ _ _ _ (d_ascending _ _ _ _ _ Hdisk) Hin). lia. }
  pose proof (hints_removed_step w w1 (d_dir _ _ _ _ _ Hdisk) Hrem) as Hst.
  pose proof (disk_step_disk _ _ _ _ _ _ Hst Hdisk) as Hdisk1. pose proof (l_stale _ _ _ Hld).
  destruct (d_active _ _ _ _ _ Hdisk1) as (h & Hh & Hb).
  assert (dir w1 !! data_file_name cur = Some (file (writer l1))) as Hf1
    by (rewrite (hints_removed_data _ _ _ Hrem), (l_file _ _ _ Hld); done).
  rewrite Hh in Hf1. injection Hf1 as ->.
  destruct (read_data_file cur cmds tail (file (writer l1)) l1 w1 (apply_files ∅ front))
    as (l' & Hrun' & Hld' & Ho & Hr'); try done; try lia; try apply (d_cur _ _ _ _ _ Hdisk).
  { by rewrite (hr_rest _ _ Hrem). }
  { right. by rewrite (l_cur _ _ _ Hld). }
  exists l', (if decide (tail = []) then w1 else truncated w1 (file (writer l1)) (blen (enc cmds))).
  split_and!.
  - unfold replay, bind at 1, gets. cbn [fst]. rewrite Hrs. unfold handles in Hrun |- *.
    rewrite fmap_app, Hrun. cbn [fmap list_fmap replay_files fst snd]. rewrite Hf. cbn [default].
    rewrite <- (l_file _ _ _ Hld).
    rewrite (bind_ok (replay_file cur (file (writer l1))) _ _ _ _
      (eq_trans (replay_file_unhinted cur _ l1 w1 ltac:(left; by rewrite (l_cur _ _ _ Hld))) Hrun')).
    by case_bool_decide.
  - case_decide as Hnil; [by subst tail|]. eapply disk_set_active; [exact Hdisk1|done|].
    cbn [content]. by rewrite Hb, app_nil_r, ztake_app.
  - pose proof (replayed_hints _ _ Hi Hrem) as Hrp. case_decide; [done|].
    apply replayed_truncated; [rewrite Hb; blia| |done]. rewrite (l_file _ _ _ Hld).
    intros n Hn. rewrite (d_links _ (d_dir _ _ _ _ _ Hdisk) _ _ _ Hn Hf).
    apply data_not_neutral, Hdisk.
  - rewrite total_bytes_app, total_bytes_one. by eapply loaded_trans.
  - done.
  - unfold state_of. by rewrite apply_files_snoc.
Qed.

End replay.
