(* ===== verification/Recovery.v ===== *)
(** * Opening a store

    [Bitcask::open] on a directory that holds a log: which files it deletes,
    which file it elects as the active one, and that the store it returns
    stores the map of the log. With the crash model this gives durability. *)

From Stdlib Require Import ZArith Lia Strings.Byte.
From stdpp Require Import base numbers list strings gmap.
From S2P Require Import Prelude Bytes Crc CommandFormat HintFormat Streams Reader KeyDir Text Names Config FileSystem Lock BTree Engine Load Merge Log Inv EngineProofs Replay.
Import Command(Command, Set_, Rm).
Import Open.

Local Open Scope Z_scope.

(** ** Walking the directory *)

Lemma foldl_pointwise {A B} (f g : A -> B -> A) (a : A) (l : list B) :
  (forall x y, f x y = g x y) -> foldl f a l = foldl g a l.
Proof. intros H. revert a. induction l as [|y l IH]; intros a; [done|]. cbn. by rewrite H, IH. Qed.

(** What an unfinished merge leaves: outputs that were not renamed, and hint
    files without a data file. *)
Definition leftover (w : World) (name : Name) : bool :=
  utf8_valid name &&
  match get_file_id name with
  | Some _ => false
  | None =>
      ends_with (lit ".data.compact") name ||
      match get_hint_id name with
      | Some id => negb (bool_decide (is_Some (dir w !! data_file_name id)) ||
                         bool_decide (data_file_name id ∈ others w))
      | None => false
      end
  end.

(** What an entry of the directory adds to the read handles. *)
Definition found_step (w : World) (found : Found) (name : Name) : Found :=
  match dir w !! name with
  | None => found
  | Some h =>
      match get_file_id name with
      | None => found
      | Some id =>
          (BTreeMap.insert id h (fst found),
           Some (match snd found with None => id | Some m => Z.max m id end))
      end
  end.

(** Data files have the names the engine gives them. *)
Definition names_ok (w : World) : Prop :=
  forall name h id, dir w !! name = Some h -> get_file_id name = Some id ->
    name = data_file_name id /\ (name ∉ others w).

(** The directory after the walk. *)
Definition cleaned (w w' : World) (names : list Name) : Prop :=
  w' = set_dir w (dir w') /\
  forall n, dir w' !! n = if decide (n ∈ names /\ leftover w n = true) then None else dir w !! n.

Lemma scan_entry_run name found w :
  faults w = [] -> names_ok w ->
  scan_entry name found w =
  (Ok (found_step w found name),
   if bool_decide (is_Some (dir w !! name)) && leftover w name
   then set_dir w (delete name (dir w)) else w).
Proof.
  intros Hc Hn. unfold scan_entry, found_step, leftover.
  unfold bind at 1. rewrite syscall_calm by done. unfold ret at 1.
  unfold bind at 1, is_file, gets. destruct (dir w !! name) as [h|] eqn:Eh;
    [rewrite bool_decide_eq_true_2 by done|by rewrite bool_decide_eq_false_2 by by intros [? [=]]].
  cbn [negb andb]. destruct (get_file_id name) as [id|] eqn:Eid.
  - destruct (Hn _ _ _ Eh Eid) as [Hname Hno]. pose proof (get_file_id_range _ _ Eid) as Hr.
    replace (utf8_valid name) with true by (by rewrite Hname, data_file_name_utf8).
    cbn [negb andb]. unfold bind. by rewrite (open_read_calm w Hc _ h).
  - destruct (utf8_valid name); [|done]. cbn [negb andb].
    destruct (ends_with _ name); cbn [orb].
    + unfold bind. by rewrite (remove_file_calm w Hc _ h).
    + destruct (get_hint_id name) as [id|]; [|done]. unfold bind, exists_, gets.
      rewrite syscall_calm by done. destruct (_ || _); [done|]. cbn [negb].
      by rewrite (remove_file_calm w Hc _ h).
Qed.

Lemma leftover_not_data w name id : is_u64 id -> leftover w name = true -> name <> data_file_name id.
Proof.
  intros Hid H ->. unfold leftover in H. rewrite get_file_id_data in H by done.
  by rewrite andb_false_r in H.
Qed.

Lemma leftover_set_dir w d name :
  (forall id, is_u64 id -> d !! data_file_name id = dir w !! data_file_name id) ->
  leftover (set_dir w d) name = leftover w name.
Proof.
  intros Hd. unfold leftover. cbn [dir set_dir others]. destruct (get_file_id name); [done|].
  destruct (get_hint_id name) as [id|] eqn:E; [|done].
  by rewrite (Hd id (get_hint_id_range _ _ E)).
Qed.

Lemma found_step_set_dir w d found name :
  (name ∈ dom d -> d !! name = dir w !! name) ->
  (d !! name = None -> dir w !! name <> None -> get_file_id name = None) ->
  found_step (set_dir w d) found name = found_step w found name.
Proof.
  intros H1 H2. unfold found_step. cbn [dir set_dir]. destruct (d !! name) as [h|] eqn:E.
  - rewrite <- H1; [done|]. by apply elem_of_dom_2 in E.
  - destruct (dir w !! name) as [h|]; [|done]. by rewrite H2.
Qed.

Lemma scan_dir_run names found w :
  faults w = [] -> names_ok w ->
  exists w', scan_dir names found w = (Ok (foldl (found_step w) found names), w') /\
    cleaned w w' names.
Proof.
  revert found w. induction names as [|name names IH]; intros found w Hc Hn.
  { exists w. split; [done|]. split; [by destruct w|]. intros n.
    rewrite decide_False; [done|]. by intros [?%not_elem_of_nil _]. }
  cbn [scan_dir foldl].
  rewrite (bind_ok _ _ _ _ _ (scan_entry_run name found w Hc Hn)).
  set (w1 := if bool_decide (is_Some (dir w !! name)) && leftover w name
             then set_dir w (delete name (dir w)) else w).
  assert (forall n, dir w1 !! n =
    if decide (n = name /\ leftover w n = true) then None else dir w !! n) as Hd1.
  { intros n. unfold w1. destruct (decide (n = name)) as [->|Hne].
    - destruct (leftover w name) eqn:El; [|rewrite andb_false_r, decide_False by (by intros []); done].
      rewrite andb_true_r, decide_True by done. case_bool_decide as Hs; cbn [dir set_dir].
      + apply lookup_delete_eq.
      + by apply eq_None_not_Some.
    - rewrite decide_False by (by intros []). destruct (_ && _); [|done]. cbn [dir set_dir].
      by apply lookup_delete_ne. }
  assert (w1 = set_dir w (dir w1)) as Ew1 by (unfold w1; case_match; by destruct w).
  assert (forall id, is_u64 id -> dir w1 !! data_file_name id = dir w !! data_file_name id) as Hdata.
  { intros id Hid. rewrite Hd1, decide_False; [done|]. intros [E Hl].
    by apply (leftover_not_data w name id Hid); subst. }
  assert (forall n, leftover w1 n = leftover w n) as Hleft
    by (intros n; rewrite Ew1; by apply leftover_set_dir).
  destruct (IH (found_step w found name) w1) as (w' & Hrun & E' & Hd'); [by rewrite Ew1| |].
  { intros n h id Hh Hid. rewrite Ew1. cbn [others set_dir]. apply (Hn n h id); [|done].
    rewrite Hd1 in Hh. by case_decide. }
  exists w'. split.
  - rewrite Hrun. do 2 f_equal. apply foldl_pointwise. intros f n.
    rewrite Ew1. apply found_step_set_dir.
    + intros [h Hh]%elem_of_dom. rewrite Hh, Hd1 in *. by case_decide.
    + intros Hx Hy. rewrite Hd1 in Hx. case_decide as Hdec; [|done]. destruct Hdec as [-> Hl].
      unfold leftover in Hl. destruct (get_file_id name); [|done]. by rewrite andb_false_r in Hl.
  - split; [by rewrite E', Ew1|]. intros n. rewrite Hd', Hleft, Hd1.
    destruct (decide (n ∈ names /\ leftover w n = true)) as [[Hin Hl]|Hno].
    + rewrite decide_True; [done|]. split; [by right|done].
    + destruct (decide (n = name /\ leftover w n = true)) as [[-> Hl]|Hno'].
      * rewrite decide_True; [done|]. split; [by left|done].
      * rewrite decide_False; [done|]. intros [[->|Hin]%elem_of_cons Hl]; [by apply Hno'|by apply Hno].
Qed.

(** ** What was found *)

Lemma found_handles w names found :
  names_ok w -> btree_ok (fst found) ->
  btree_ok (fst (foldl (found_step w) found names)) /\
  forall id, BTreeMap.get id (fst (foldl (found_step w) found names)) =
    match (if decide (is_u64 id /\ data_file_name id ∈ names) then dir w !! data_file_name id
           else None) with
    | Some h => Some h
    | None => BTreeMap.get id (fst found)
    end.
Proof.
  intros Hn. revert found. induction names as [|name names IH]; intros found Hb; cbn [foldl].
  { split; [done|]. intros id. rewrite decide_False; [done|]. by intros [_ ?%not_elem_of_nil]. }
  assert (btree_ok (fst (found_step w found name))) as Hb1.
  { unfold found_step. do 2 (case_match; [|done]). by apply btree_insert_ok. }
  destruct (IH _ Hb1) as [Hb' Hget]. split; [done|]. intros id. rewrite Hget.
  destruct (decide (is_u64 id /\ data_file_name id ∈ names)) as [[Hid Hin]|Hno].
  - rewrite decide_True by (split; [done|by right]).
    destruct (dir w !! data_file_name id) as [h|] eqn:Eh; [done|].
    unfold found_step. destruct (dir w !! name) as [h|] eqn:En; [|done].
    destruct (get_file_id name) as [id'|] eqn:Eid; [|done]. cbn [fst].
    rewrite btree_get_insert. case_decide; [|done]. subst id'.
    destruct (Hn _ _ _ En Eid) as [-> _]. by rewrite Eh in En.
  - unfold found_step. destruct (dir w !! name) as [h|] eqn:En.
    2:{ case_decide as Hd; [|done]. destruct Hd as [Hid [<-|Hin]%elem_of_cons]; [by rewrite En|].
        by destruct Hno. }
    destruct (get_file_id name) as [id'|] eqn:Eid.
    + destruct (Hn _ _ _ En Eid) as [-> _]. pose proof (get_file_id_range _ _ Eid) as Hr.
      cbn [fst]. rewrite btree_get_insert. destruct (decide (id' = id)) as [->|Hne].
      * rewrite decide_True by (split; [done|by left]). by rewrite En.
      * rewrite decide_False; [done|]. intros [Hid [E|Hin]%elem_of_cons]; [|by destruct Hno].
        by apply Hne, data_file_name_inj.
    + case_decide as Hd; [|done]. destruct Hd as [Hid [<-|Hin]%elem_of_cons].
      * by rewrite get_file_id_data in Eid.
      * by destruct Hno.
Qed.

(** The second component is the highest id found. *)
Definition max_ok (found : Found) : Prop :=
  match snd found with
  | None => fst found = []
  | Some m => is_Some (BTreeMap.get m (fst found)) /\
              forall id, is_Some (BTreeMap.get id (fst found)) -> id <= m
  end.

Lemma found_max w names found :
  max_ok found -> max_ok (foldl (found_step w) found names).
Proof.
  revert found. induction names as [|name names IH]; intros found Hm; cbn [foldl]; [done|].
  apply IH. unfold found_step. destruct (dir w !! name) as [h|]; [|done].
  destruct (get_file_id name) as [id|]; [|done]. unfold max_ok in *. cbn [fst snd].
  destruct (snd found) as [m|].
  - destruct Hm as [Hs Hle]. split.
    + rewrite btree_get_insert. case_decide; [done|].
      replace (Z.max m id) with m by lia. done.
    + intros id'. rewrite btree_get_insert. case_decide; [intros; lia|].
      intros Hx%Hle. lia.
  - rewrite Hm. cbn. rewrite Z.eqb_refl. split; [done|]. intros id'. zcase; [lia|by intros [? [=]]].
Qed.

(** An ordered map is determined by its lookups. *)
Lemma btree_eq {V} (m1 m2 : list (Z * V)) :
  btree_ok m1 -> btree_ok m2 -> (forall k, BTreeMap.get k m1 = BTreeMap.get k m2) -> m1 = m2.
Proof.
  intros [lo1 H1]%btree_ok_from [lo2 H2]%btree_ok_from Hg.
  apply (sorted_from_weaken _ (Z.min lo1 lo2)) in H1; [|lia].
  apply (sorted_from_weaken _ (Z.min lo1 lo2)) in H2; [|lia].
  revert H1 H2 Hg. generalize (Z.min lo1 lo2) as lo. clear lo1 lo2. revert m2.
  induction m1 as [|[k1 v1] m1 IH]; intros [|[k2 v2] m2] lo H1 H2 Hg; try done.
  - specialize (Hg k2). cbn in Hg. by rewrite Z.eqb_refl in Hg.
  - specialize (Hg k1). cbn in Hg. by rewrite Z.eqb_refl in Hg.
  - destruct H1 as [L1 H1], H2 as [L2 H2].
    assert (k1 = k2) as ->.
    { destruct (Z.lt_trichotomy k1 k2) as [Hlt|[->|Hlt]]; [|done|]; exfalso.
      - specialize (Hg k1). cbn in Hg. rewrite Z.eqb_refl in Hg.
        rewrite (proj2 (Z.eqb_neq _ _)) in Hg by lia.
        by rewrite (sorted_from_get_lt k2) in Hg by (done || lia).
      - specialize (Hg k2). cbn in Hg. rewrite Z.eqb_refl in Hg.
        rewrite (proj2 (Z.eqb_neq _ _)) in Hg by lia.
        by rewrite (sorted_from_get_lt k1) in Hg by (done || lia). }
    pose proof (Hg k2) as Hk. cbn in Hk. rewrite Z.eqb_refl in Hk. injection Hk as ->.
    f_equal. apply (IH m2 k2 H1 H2). intros k. destruct (decide (k = k2)) as [->|Hne].
    + by rewrite !(sorted_from_get_lt k2) by (done || lia).
    + specialize (Hg k). cbn in Hg. by rewrite (proj2 (Z.eqb_neq _ _)) in Hg by lia.
Qed.

Section recovery.
Context `{Crc : Crc32}.

(** ** The read handles of a log *)

Lemma handles_ok w (fs : list (Z * list Command)) : ascending fs -> btree_ok (handles w fs).
Proof.
  intros [lo H]%btree_ok_from. apply (sorted_from_ok lo). revert lo H.
  induction fs as [|[id cs] fs IH]; intros lo; [done|]. cbn. intros [? ?]. split; [done|by apply IH].
Qed.

Lemma handles_elem w fs id h :
  (id, h) ∈ handles w fs <->
  exists cs, (id, cs) ∈ fs /\ h = default 0%nat (dir w !! data_file_name id).
Proof.
  unfold handles. rewrite list_elem_of_fmap. split.
  - intros ([id' cs] & [= -> ->] & Hin). by exists cs.
  - intros (cs & Hin & ->). by exists (id, cs).
Qed.

Lemma disk_file w front cur cmds tail id cs :
  disk w front cur cmds tail -> (id, cs) ∈ front ++ [(cur, cmds)] ->
  is_u64 id /\ id <= cur /\ exists h, dir w !! data_file_name id = Some h.
Proof.
  intros Hd [Hin|Hin]%elem_of_app.
  - pose proof (ascending_lt _ _ _ _ _ (d_ascending _ _ _ _ _ Hd) Hin).
    destruct (d_sealed _ _ _ _ _ Hd _ _ Hin) as [? _ _ (h & ? & _) _].
    split_and!; [done|lia|by exists h].
  - apply list_elem_of_singleton in Hin as [= -> ->].
    destruct (d_active _ _ _ _ _ Hd) as (h & ? & _).
    split_and!; [apply (d_cur _ _ _ _ _ Hd)|lia|by exists h].
Qed.

Lemma handles_get w front cur cmds tail id :
  disk w front cur cmds tail -> is_u64 id ->
  BTreeMap.get id (handles w (front ++ [(cur, cmds)])) = dir w !! data_file_name id.
Proof.
  intros Hd Hid. pose proof (handles_ok w _ (d_ascending _ _ _ _ _ Hd)) as Hok.
  destruct (dir w !! data_file_name id) as [h|] eqn:E.
  - apply btree_get_elem; [done|]. apply handles_elem.
    destruct (d_only _ _ _ _ _ Hd _ _ id E (get_file_id_data _ Hid)) as [_ [->|[cs Hin]]].
    + exists cmds. rewrite E. split; [|done]. apply elem_of_app. right. by left.
    + exists cs. rewrite E. split; [|done]. apply elem_of_app. by left.
  - destruct (BTreeMap.get id _) as [h|] eqn:Eg; [|done]. exfalso.
    apply btree_get_elem in Eg; [|done]. apply handles_elem in Eg as (cs & Hin & _).
    destruct (disk_file _ _ _ _ _ _ _ Hd Hin) as (_ & _ & h' & E'). by rewrite E in E'.
Qed.

Lemma handles_readers w w' front cur cmds tail id h :
  disk w front cur cmds tail -> (forall n k, dir w' !! n = Some k -> dir w !! n = Some k) ->
  next_inode w' = next_inode w -> (id, h) ∈ handles w (front ++ [(cur, cmds)]) ->
  is_u64 id /\ id <= cur /\ (h < next_inode w')%nat /\
  (forall n, dir w' !! n = Some h -> n = data_file_name id).
Proof.
  intros Hd Hsub Hnext (cs & Hin & ->)%handles_elem. rewrite Hnext.
  destruct (disk_file _ _ _ _ _ _ _ Hd Hin) as (Hu & Hle & h & E). rewrite E. cbn [default].
  destruct (d_dir _ _ _ _ _ Hd) as [Hl Hf]. split_and!; [done|done|by eapply Hf|].
  intros n Hn. apply (Hl n _ h); [by apply Hsub|done].
Qed.

Lemma replayed_old w w' n h : replayed w w' -> dir w' !! n = Some h -> dir w !! n = Some h.
Proof. intros Hr Hn. by destruct (rp_dir _ _ Hr n) as [<-|[E _]]; [|rewrite Hn in E]. Qed.

Lemma replayed_data w w' id : replayed w w' -> dir w' !! data_file_name id = dir w !! data_file_name id.
Proof.
  intros Hr. destruct (rp_dir _ _ Hr (data_file_name id)) as [?|[_ (i & _ & E)]]; [done|].
  by apply data_ne_hint in E.
Qed.

(** ** The end of [open] *)

(** What the opened store looks like. *)
Record opened (c : Config.Config) (lf : LockFile.LockFile) (hd : Bitcask.Handle) (w w' : World)
  (fs : list (Z * list Command)) : Prop := {
  o_config : Shared.config (Bitcask.shared hd) = c;
  o_lock : Shared.lock_file (Bitcask.shared hd) = lf;
  o_tx : Bitcask.compaction_tx hd = Some false;
  o_stale : 0 <= stale_bytes_count (Shared.writer (Bitcask.shared hd)) <= total_bytes fs;
  o_flock : flock w' = flock w;
  o_readers : (Shared.readers (Bitcask.shared hd)).*1 = fs.*1;
  o_synced : forall h, blen (bytes_of w h) <= durable_of w h -> blen (bytes_of w' h) <= durable_of w' h
}.

Lemma load_engine c lf rh cur w front cmds tail h :
  disk w front cur cmds tail -> tail = [] \/ torn tail -> faults w = [] -> inodes_ok w ->
  clock_ok 0 w -> marker_ok w -> total_bytes (front ++ [(cur, cmds)]) <= u64_max ->
  dir w !! data_file_name cur = Some h ->
  BTreeMap.insert cur h rh = handles w (front ++ [(cur, cmds)]) ->
  exists hd w', load c lf rh cur w = (Ok hd, w') /\
    engine (Bitcask.shared hd) w' front cur cmds /\
    opened c lf hd w w' (front ++ [(cur, cmds)]).
Proof.
  intros Hd Ht Hc Hi Hclk Hmk Htot Hh Hrh. pose proof (d_others _ _ _ _ _ Hd cur) as [Ho _].
  unfold load. rewrite (bind_ok _ _ _ _ _ (open_create_old w Hc _ h Ho Hh)).
  destruct (unix_now_ok 0 w Hclk) as (t & ts & Hnow & Hrange & Hclk1).
  rewrite (bind_ok _ _ _ _ _ Hnow). set (w1 := set_clock w t ts) in *.
  rewrite (bind_ok _ _ _ _ _ (open_read_calm w1 Hc _ h Ho Hh)). rewrite Hrh.
  rewrite as_millis_id by lia. set (l := Loader.Build_Loader _ _ _).
  assert (disk w1 front cur cmds tail) as Hd1
    by (eapply disk_step_disk; [apply disk_step_clock, Hd|done]).
  destruct (replay_log l w1 front cur cmds tail) as (l' & w' & Hrun & Hd' & Hrp & Hld & Hoff & Hr);
    try done; [apply represents_empty|].
  cbv beta. rewrite Hrun. eexists _, w'. split; [done|]. destruct Hld.
  split; [|split; cbn in *; try (done || lia || apply Hrp)].
  2:{ rewrite l_readers. unfold handles. by rewrite <- list_fmap_compose. }
  destruct (rp_clock _ _ Hrp) as [Hck Htk].
  assert (dir w' !! data_file_name cur = Some (file (Loader.writer l'))) as Hf'
    by (rewrite (replayed_data _ _ _ Hrp), l_file; done).
  split; cbn [Bitcask.shared Shared.writer Shared.readers Shared.index Shared.writer_poisoned];
    try done.
  - by rewrite (rp_faults _ _ Hrp).
  - rewrite l_last. unfold clock_ok in *. by rewrite Hck, Htk.
  - apply Hrp.
  - eapply marker_ok_step; [exact Hmk|apply Hrp|]. intros k Hk.
    destruct (rp_bytes _ _ Hrp _ k lock_neutral Hk) as [-> ->]. split_and!; try done.
    destruct (rp_dir _ _ Hrp LockFile.LOCK_FILE_NAME) as [->|[_ (i & Hi' & E)]]; [done|].
    destruct (hint_not_neutral i Hi'). rewrite <- E. apply lock_neutral.
  - rewrite l_flushed. cbn [l Loader.writer flushed_offset]. split; [done|].
    apply (rp_inodes _ _ Hrp).
  - cbn in l_stale. lia.
  - rewrite l_readers. by apply handles_ok, Hd.
  - intros id k. rewrite l_readers. eapply (handles_readers w1); [exact Hd1| |apply Hrp].
    intros n k'. by apply replayed_old.
  - intros id cs Hin. rewrite l_readers.
    destruct (disk_file _ _ _ _ _ _ _ Hd Hin) as (Hu & _).
    rewrite (replayed_data _ _ _ Hrp). by apply (handles_get w1 front cur cmds tail).
  - by apply index_is_from.
Qed.

(** ** The lock file and the walk keep the log *)

(** The directory is free to be opened by the engine: it is not locked, and it
    has no marker yet, or the engine's own, on stable storage. *)
Definition lock_free (w : World) : Prop :=
  flock w = false /\ (LockFile.LOCK_FILE_NAME ∉ others w) /\ (marker w = [] \/ marker_ok w).

Lemma marker_ok_eq w :
  marker_ok w -> utf8_valid (marker w) = true /\
  trim (marker w) = StoreType.as_str StoreType.Bitcask.
Proof. intros (_ & h & Hd & Hu & Ht & _). unfold marker. by rewrite Hd. Qed.

Lemma with_lock_file_step w : dir_ok w -> disk_step w (with_lock_file w).
Proof.
  intros Hd. unfold with_lock_file. destruct (dir w !! LockFile.LOCK_FILE_NAME) eqn:E.
  { by apply disk_step_same. }
  pose proof (fun n h => new_file_bytes w LockFile.LOCK_FILE_NAME n h Hd) as Hb. split.
  - done.
  - intros n h. cbn [dir new_file]. rewrite lookup_insert. case_decide; [|by left].
    subst n. intros _. right. apply lock_neutral.
  - intros id Hid. cbn [dir new_file]. apply lookup_insert_ne. intros E'.
    by apply (data_not_neutral id Hid); rewrite <- E'; apply lock_neutral.
  - intros n h _ Hn. destruct (Hb n h Hn) as [-> ->]. done.
  - by apply dir_ok_new_file.
Qed.

Lemma stamped_step w engine :
  dir_ok w -> dir w !! LockFile.LOCK_FILE_NAME = Some (lock_handle w) ->
  disk_step w (stamped w engine).
Proof.
  intros Hd Hl. split; try done.
  - intros n h Hn. by left.
  - intros n h Hne Hn. destruct (stamped_files w engine h) as [-> ->]; [|done].
    intros ->. apply Hne. rewrite (d_links _ Hd _ _ _ Hn Hl). apply lock_neutral.
  - by destruct Hd; split.
Qed.

(** The world with the lock held. *)
Definition locked (w : World) : World :=
  let w1 := set_flock (with_lock_file w) true in
  if decide (trim (marker w) = []) then stamped w1 StoreType.Bitcask else w1.

Lemma acquire_locked w :
  faults w = [] -> lock_free w ->
  LockFile.acquire StoreType.Bitcask w =
  (Ok {| LockFile.file := lock_handle w |}, locked w).
Proof.
  intros Hc (Hf & Ho & Hm). rewrite acquire_run by done. rewrite Hf. unfold locked.
  destruct Hm as [->|[Hu Ht]%marker_ok_eq]; [done|]. by rewrite Hu, Ht.
Qed.

Lemma locked_marker w : lock_free w -> marker_ok (locked w).
Proof.
  intros (_ & Ho & Hm). unfold locked. destruct Hm as [Hm|Hm].
  - rewrite Hm, decide_True by done. set (w1 := set_flock (with_lock_file w) true).
    assert (dir w1 !! LockFile.LOCK_FILE_NAME = Some (lock_handle w1)) as Hd
      by (unfold w1; cbn [dir set_flock]; rewrite with_lock_file_dir; f_equal; symmetry;
          apply lock_handle_with).
    assert (bytes_of w1 (lock_handle w1) = []) as Hb.
    { rewrite <- Hm, <- (with_lock_file_marker w). unfold w1.
      change (lock_handle (set_flock (with_lock_file w) true)) with (lock_handle (with_lock_file w)).
      by rewrite lock_handle_with. }
    split; [unfold w1, with_lock_file; by case_match|]. exists (lock_handle w1).
    split; [exact Hd|]. unfold stamped.
    rewrite bytes_of_set_inode, durable_of_set_inode, !decide_True by done. cbn [content durable].
    rewrite bytes_of_append, decide_True, Hb by done. done.
  - destruct (marker_ok_eq _ Hm) as [_ Ht]. rewrite Ht, decide_False by done.
    destruct Hm as (Ho' & h & Hd & Hr). unfold with_lock_file. rewrite Hd. split; [done|]. by exists h.
Qed.

Lemma inodes_ok_stamped w engine : inodes_ok w -> inodes_ok (stamped w engine).
Proof.
  intros Hi h. destruct (decide (h = lock_handle w)) as [->|Hne].
  - unfold stamped. rewrite bytes_of_set_inode, durable_of_set_inode, !decide_True by done.
    cbn [content durable]. blia.
  - destruct (stamped_files w engine h Hne) as [-> ->]. apply Hi.
Qed.

Lemma locked_disk w front cur cmds tail :
  disk w front cur cmds tail -> disk (locked w) front cur cmds tail.
Proof.
  intros Hd. pose proof (disk_step_disk _ _ _ _ _ _ (with_lock_file_step w (d_dir _ _ _ _ _ Hd)) Hd) as H1.
  assert (disk (set_flock (with_lock_file w) true) front cur cmds tail) as H2
    by (eapply disk_step_disk; [|exact H1]; by apply disk_step_same; [apply H1|..]).
  unfold locked. case_decide; [|done]. eapply disk_step_disk; [|exact H2].
  apply stamped_step; [apply H2|]. cbn [dir set_flock]. rewrite with_lock_file_dir. f_equal.
  symmetry. apply (lock_handle_with w).
Qed.

(** The lock file is synced when it is written. *)
Lemma locked_synced w :
  (forall h, blen (bytes_of w h) <= durable_of w h) ->
  forall h, blen (bytes_of (locked w) h) <= durable_of (locked w) h.
Proof.
  intros Hs. assert (forall h, blen (bytes_of (with_lock_file w) h) <= durable_of (with_lock_file w) h) as Hs1.
  { intros h. unfold with_lock_file. destruct (dir w !! LockFile.LOCK_FILE_NAME); [apply Hs|].
    destruct (decide (h = next_inode w)) as [->|Hne].
    - by rewrite bytes_of_new_file_eq, durable_of_new_file_eq.
    - rewrite bytes_of_new_file, durable_of_new_file by done. apply Hs. }
  intros h. unfold locked. case_decide; [|apply Hs1]. set (w1 := set_flock (with_lock_file w) true).
  destruct (decide (h = lock_handle w1)) as [->|Hne].
  - unfold stamped. rewrite bytes_of_set_inode, durable_of_set_inode, !decide_True by done.
    cbn [content durable]. blia.
  - destruct (stamped_files w1 StoreType.Bitcask h Hne) as [-> ->]. apply Hs1.
Qed.

Lemma locked_same w :
  inodes_ok w -> faults (locked w) = faults w /\ clock (locked w) = clock w /\
    ticks (locked w) = ticks w /\ flock (locked w) = true /\ inodes_ok (locked w) /\
    others (locked w) = others w /\
    (forall n h, dir (locked w) !! n = Some h -> dir w !! n = Some h \/ n = LockFile.LOCK_FILE_NAME).
Proof.
  intros Hi.
  assert (inodes_ok (set_flock (with_lock_file w) true)) as Hi1.
  { unfold with_lock_file. case_match; [done|].
    apply (inodes_ok_new_file w LockFile.LOCK_FILE_NAME Hi). }
  assert (forall n h, dir (with_lock_file w) !! n = Some h ->
    dir w !! n = Some h \/ n = LockFile.LOCK_FILE_NAME) as Hdir.
  { intros n h. unfold with_lock_file. case_match; [by left|]. cbn [dir new_file].
    rewrite lookup_insert. case_decide; [by right|by left]. }
  unfold locked. case_decide.
  - split_and!; try (unfold with_lock_file; by case_match); [by apply inodes_ok_stamped|exact Hdir].
  - split_and!; try (unfold with_lock_file; by case_match); [done|exact Hdir].
Qed.

Lemma cleaned_step w w' names : dir_ok w -> cleaned w w' names -> disk_step w w'.
Proof.
  intros [Hl Hf] [E Hd].
  assert (forall n h, dir w' !! n = Some h -> dir w !! n = Some h) as Hsub
    by (intros n h; rewrite Hd; by case_decide).
  assert (forall h, bytes_of w' h = bytes_of w h /\ durable_of w' h = durable_of w h) as Hb
    by (intros h; by rewrite E).
  split.
  - by rewrite E.
  - intros n h Hn. left. by apply Hsub.
  - intros id Hid. rewrite Hd, decide_False; [done|]. intros [_ Hlo].
    by apply (leftover_not_data w _ id Hid) in Hlo.
  - intros n h _ _. by destruct (Hb h) as [-> ->].
  - split; [intros n1 n2 h H1 H2; apply (Hl n1 n2 h); by apply Hsub|].
    intros n h Hn. rewrite E. apply (Hf n). by apply Hsub.
Qed.

Lemma disk_names_ok w front cur cmds tail : disk w front cur cmds tail -> names_ok w.
Proof.
  intros Hd n h id Hn Hid. destruct (d_only _ _ _ _ _ Hd _ _ _ Hn Hid) as [-> _].
  split; [done|]. apply (d_others _ _ _ _ _ Hd).
Qed.

(** The walk over the directory of a log finds its files, and elects the file
    with the highest id. *)
Lemma found_log w front cur cmds tail names :
  disk w front cur cmds tail -> (forall n, is_Some (dir w !! n) -> n ∈ names) ->
  let found := foldl (found_step w) ([], None) names in
  fst found = handles w (front ++ [(cur, cmds)]) /\ snd found = Some cur.
Proof.
  intros Hd Hall found. pose proof (disk_names_ok _ _ _ _ _ Hd) as Hn.
  destruct (found_handles w names ([], None) Hn) as [Hok Hget]; [done|]. fold found in Hok, Hget.
  assert (fst found = handles w (front ++ [(cur, cmds)])) as Hfst.
  { apply btree_eq; [done|by apply handles_ok, Hd|]. intros id. rewrite Hget. cbn [fst BTreeMap.get].
    destruct (decide (is_u64 id)) as [Hu|Hu].
    - rewrite (handles_get _ _ _ _ _ _ Hd Hu).
      destruct (dir w !! data_file_name id) as [h|] eqn:E; [|by case_decide].
      rewrite decide_True; [done|]. split; [done|]. apply Hall. by rewrite E.
    - rewrite decide_False by (by intros []). symmetry. apply eq_None_not_Some. intros [h Hh].
      apply btree_get_elem in Hh; [|by apply handles_ok, Hd].
      apply handles_elem in Hh as (cs & Hin & _). by destruct (disk_file _ _ _ _ _ _ _ Hd Hin). }
  split; [done|]. pose proof (found_max w names ([], None) eq_refl) as Hmax. fold found in Hmax.
  unfold max_ok in Hmax. rewrite Hfst in Hmax. destruct (d_active _ _ _ _ _ Hd) as (h & Hh & _).
  pose proof (d_cur _ _ _ _ _ Hd) as [Hcu _].
  destruct (snd found) as [m|].
  - destruct Hmax as [[k Hk] Hle]. f_equal. apply Z.le_antisymm.
    + apply btree_get_elem in Hk; [|by apply handles_ok, Hd].
      apply handles_elem in Hk as (cs & Hin & _). by destruct (disk_file _ _ _ _ _ _ _ Hd Hin) as (_ & ? & _).
    + apply Hle. rewrite (handles_get _ _ _ _ _ _ Hd Hcu). by rewrite Hh.
  - apply (f_equal length) in Hmax. unfold handles in Hmax. rewrite length_fmap, length_app in Hmax.
    simpl in Hmax. lia.
Qed.

Section open.
Context (order : list Name -> list Name) (order_perm : forall l, order l ≡ₚ l).

Lemma read_dir_run w :
  faults w = [] -> exists names, read_dir order w = (Ok names, w) /\
    (forall n, n ∈ names <-> is_Some (dir w !! n) \/ n ∈ others w).
Proof using order_perm.
  intros Hc. eexists. unfold read_dir. rewrite syscall_calm by done. split; [done|].
  intros n. rewrite order_perm, elem_of_app, list_elem_of_fmap. f_equiv. split.
  - intros ([n' h] & -> & Hin). apply elem_of_map_to_list in Hin. cbn [fst]. by rewrite Hin.
  - intros [h Hh]. exists (n, h). split; [done|]. by apply elem_of_map_to_list.
Qed.

Lemma open_engine c w front cur cmds tail :
  faults w = [] -> inodes_ok w -> clock_ok 0 w -> lock_free w ->
  disk w front cur cmds tail -> tail = [] \/ torn tail ->
  total_bytes (front ++ [(cur, cmds)]) <= u64_max ->
  exists hd w', open order c w = (Ok hd, w') /\
    engine (Bitcask.shared hd) w' front cur cmds /\
    opened c {| LockFile.file := lock_handle w |} hd (locked w) w'
      (front ++ [(cur, cmds)]).
Proof using order_perm.
  intros Hc Hi Hclk Hlock Hd Ht Htot.
  destruct (locked_same w Hi) as (Hc1 & Hck & Htk & Hfl & Hi1 & _).
  pose proof (locked_disk _ _ _ _ _ Hd) as Hd1. rewrite Hc in Hc1.
  destruct (read_dir_run (locked w) Hc1) as (names & Hrd & Hall).
  destruct (scan_dir_run names ([], None) (locked w) Hc1 (disk_names_ok _ _ _ _ _ Hd1))
    as (w2 & Hscan & Hclean).
  destruct (found_log (locked w) front cur cmds tail names Hd1) as [Hf Hs].
  { intros n Hn. apply Hall. by left. }
  pose proof (cleaned_step _ _ _ (d_dir _ _ _ _ _ Hd1) Hclean) as Hst.
  pose proof (disk_step_disk _ _ _ _ _ _ Hst Hd1) as Hd2. destruct Hclean as [Ew2 Hdir2].
  destruct (d_active _ _ _ _ _ Hd2) as (h & Hh & _). pose proof (d_cur _ _ _ _ _ Hd) as [Hcu _].
  assert (handles (locked w) (front ++ [(cur, cmds)]) = handles w2 (front ++ [(cur, cmds)])) as Hhs.
  { apply btree_eq; [apply handles_ok, Hd..|]. intros id.
    destruct (decide (is_u64 id)) as [Hu|Hu].
    - rewrite (handles_get _ _ _ _ _ _ Hd1 Hu), (handles_get _ _ _ _ _ _ Hd2 Hu).
      by rewrite (ds_data _ _ Hst).
    - transitivity (@None File); [|symmetry]; apply eq_None_not_Some; intros [k Hk];
        (apply btree_get_elem in Hk; [|apply handles_ok, Hd]);
        apply handles_elem in Hk as (cs & Hin & _); by destruct (disk_file _ _ _ _ _ _ _ Hd Hin). }
  destruct (load_engine c {| LockFile.file := lock_handle w |} (handles (locked w) (front ++ [(cur, cmds)]))
    cur w2 front cmds tail h) as (hd & w' & Hload & He & Hop); try done.
  { by rewrite Ew2. } { by rewrite Ew2. }
  { rewrite Ew2. unfold clock_ok in *. cbn [clock ticks set_dir]. by rewrite Hck, Htk. }
  { eapply marker_ok_step; [by apply locked_marker|by rewrite Ew2|]. intros k Hk.
    rewrite Hdir2, decide_False; [by rewrite Ew2|]. by intros [_ Hlo]. }
  { rewrite Hhs. apply btree_eq; [by apply btree_insert_ok, handles_ok, Hd|by apply handles_ok, Hd|].
    intros id. rewrite btree_get_insert. case_decide; [|done]. subst id.
    by rewrite (handles_get _ _ _ _ _ _ Hd2 Hcu). }
  exists hd, w'. split; [|split; [done|]].
  - unfold open, create_dir_all, bind at 1. rewrite syscall_calm by done. unfold ret at 1.
    rewrite (bind_ok _ _ _ _ _ (acquire_locked w Hc Hlock)). unfold mcatch, open_locked.
    rewrite (bind_ok _ _ _ _ _ Hrd), (bind_ok _ _ _ _ _ Hscan).
    destruct (foldl _ _ _) as [rh mx]. cbn [fst snd] in Hf, Hs. subst rh mx.
    by rewrite Hload.
  - destruct Hop. split; try done; [by rewrite o_flock0, Ew2|]. intros k Hk. apply o_synced0. by rewrite Ew2.
Qed.

(** A directory at rest that stores [m]: a log whose active file may end in a
    torn record, no holder of the lock, and room for [n] more records. *)
Definition at_rest (n : Z) (w : World) (m : gmap (list byte) (list byte)) : Prop :=
  faults w = [] /\ inodes_ok w /\ clock_ok 0 w /\ lock_free w /\
  exists front cur cmds tail, disk w front cur cmds tail /\ (tail = [] \/ torn tail) /\
    total_bytes (front ++ [(cur, cmds)]) + n * record_max <= u64_max /\ cur + n <= u64_max /\
    values (state_of (front ++ [(cur, cmds)])) = m.

Lemma opened_room n c lf hd w w' front cur cmds :
  0 <= n -> engine (Bitcask.shared hd) w' front cur cmds ->
  opened c lf hd w w' (front ++ [(cur, cmds)]) ->
  total_bytes (front ++ [(cur, cmds)]) + n * record_max <= u64_max -> cur + n <= u64_max ->
  room n (Bitcask.shared hd).
Proof using.
  intros Hn He [_ _ _ Hs _] Ht Hc. unfold room. rewrite (e_cur _ _ _ _ _ He), (e_offset _ _ _ _ _ He).
  rewrite total_bytes_app, total_bytes_one in *. pose proof (total_bytes_nonneg front).
  split_and!; lia.
Qed.

(** C4. Recovery: opening a directory at rest that stores [m] succeeds and
    gives an open store that stores [m], in whatever order the directory is
    listed, with or without hint files, with a torn record at the end of the
    active file or not. The store holds the lock and has the room that the
    directory had. *)
Theorem open_spec n c w m :
  0 <= n -> at_rest n w m ->
  exists hd w', open order c w = (Ok hd, w') /\ stores hd w' m /\
    Shared.config (Bitcask.shared hd) = c /\ flock w' = true /\ room n (Bitcask.shared hd).
Proof using order_perm.
  intros Hn (Hc & Hi & Hclk & Hl & front & cur & cmds & tail & Hd & Ht & Htot & Hcur & Hm).
  assert (0 <= n * record_max) by (unfold record_max; lia).
  destruct (open_engine c w front cur cmds tail Hc Hi Hclk Hl Hd Ht) as (hd & w' & Hrun & He & Hop);
    [lia|]. exists hd, w'. destruct (locked_same w Hi) as (_ & _ & _ & Hfl & _).
  split_and!; [done|by exists front, cur, cmds|apply Hop| |by eapply opened_room].
  by rewrite (o_flock _ _ _ _ _ _ Hop).
Qed.

(** ** Closing *)

(** What [Drop for Handle] leaves when no merge is due. *)
Lemma close_engine h w front cur cmds :
  engine (Bitcask.shared h) w front cur cmds -> Bitcask.compaction_tx h <> Some true ->
  exists h' w', Compaction.drop_handle (h, w) = (Ok tt, (h', w')) /\
    disk w' front cur cmds [] /\ faults w' = [] /\ inodes_ok w' /\ clock_ok 0 w' /\
    lock_free w'.
Proof using.
  intros He Htx. unfold Compaction.drop_handle.
  assert (Compaction.thread_turn (h, w) = (Ok tt, (h, w))) as Hturn.
  { unfold Compaction.thread_turn, bind, gets. cbn [fst].
    by destruct (Bitcask.compaction_tx h) as [[]|]. }
  mstep Hturn. unfold bind at 1, on_fst at 1, modify at 1. cbn [fst snd Bitcask.shared].
  pose proof (sync_run (Bitcask.shared h) w (e_calm _ _ _ _ _ He)) as Hsync.
  destruct (sync_engine _ _ _ _ _ He) as [He1 _]. set (w1 := synced _ _) in *.
  eexists _, (set_flock w1 false). split.
  { unfold bind, mcatch, Bitcask.on_shared, Shared.with_writer_lock. cbn [fst snd Bitcask.shared].
    rewrite (e_lock _ _ _ _ _ He), Hsync. done. }
  split_and!; try apply He1.
  - eapply disk_step_disk; [|apply He1]. by apply disk_step_same; [apply He1|..].
  - eapply clock_ok_weaken, (e_clock _ _ _ _ _ He1). destruct (e_clock _ _ _ _ _ He1). lia.
  - split; [done|]. pose proof (e_marker _ _ _ _ _ He1) as Hm. split; [apply Hm|]. right.
    destruct Hm as [Ho (k & Hk)]. split; [done|]. by exists k.
Qed.

End open.

End recovery.
