(* ===== verification/Damage.v ===== *)
(** * Damaged records

    What the checksum is for. CRC-32 detects every change that is confined to 32
    consecutive bits; this is stated as a law of the checksum and proved of
    CRC-32/IEEE. From it: a record of which up to four consecutive bytes changed,
    in the checksum or in the body, is refused by the decoder, and [get] of its key
    returns [Corruption], never another value. *)

From Stdlib Require Import ZArith Lia Strings.Byte.
From stdpp Require Import base numbers list strings gmap.
From S2P Require Import Prelude Bytes Crc CommandFormat HintFormat Streams KeyDir Names Config FileSystem BTree Engine Log Inv EngineProofs.
Import Command.

Local Open Scope Z_scope.

(** ** The law *)

(** Changes confined to four bytes change the checksum. *)
Class Crc32Burst `{Crc : Crc32} : Prop := {
  hash_burst : forall pre a b post, length a = length b -> (length a <= 4)%nat -> a <> b ->
    hash (pre ++ a ++ post) <> hash (pre ++ b ++ post)
}.

(** ** CRC-32/IEEE obeys it *)

Definition crc_bit (crc : Z) : Z :=
  if Z.testbit crc 0 then Z.lxor (Z.shiftr crc 1) 0xEDB88320 else Z.shiftr crc 1.

Lemma crc_bits_S n crc : crc_bits (S n) crc = crc_bits n (crc_bit crc).
Proof. done. Qed.

Lemma crc_bits_add n m crc : crc_bits (n + m) crc = crc_bits m (crc_bits n crc).
Proof. revert crc. induction n as [|n IH]; intros crc; [done|]. apply IH. Qed.

Lemma crc_bit_lxor a b : crc_bit (Z.lxor a b) = Z.lxor (crc_bit a) (crc_bit b).
Proof.
  unfold crc_bit. rewrite Z.lxor_spec, Z.shiftr_lxor.
  apply Z.bits_inj'. intros i _. destruct (Z.testbit a 0), (Z.testbit b 0); cbn [xorb];
    rewrite !Z.lxor_spec; repeat match goal with |- context [Z.testbit ?x i] => destruct (Z.testbit x i) end; done.
Qed.

Lemma crc_bits_lxor n a b : crc_bits n (Z.lxor a b) = Z.lxor (crc_bits n a) (crc_bits n b).
Proof.
  revert a b. induction n as [|n IH]; intros a b; [done|]. rewrite !crc_bits_S, crc_bit_lxor. apply IH.
Qed.

Lemma crc_bits_shiftl n y : crc_bits n (Z.shiftl y (Z.of_nat n)) = y.
Proof.
  revert y. induction n as [|n IH]; intros y; [apply Z.shiftl_0_r|]. rewrite crc_bits_S.
  unfold crc_bit. rewrite Z.shiftl_spec by lia. rewrite Z.testbit_neg_r by lia.
  rewrite Z.shiftr_shiftl_l by lia. replace (Z.of_nat (S n) - 1) with (Z.of_nat n) by lia. apply IH.
Qed.

Lemma lxor_range n a b : 0 <= n -> 0 <= a < 2 ^ n -> 0 <= b < 2 ^ n -> 0 <= Z.lxor a b < 2 ^ n.
Proof.
  intros Hn Ha Hb. replace (Z.lxor a b) with (Z.lxor a b mod 2 ^ n); [apply Z.mod_pos_bound; lia|].
  apply Z.bits_inj'. intros i Hi. destruct (Z.lt_ge_cases i n).
  - by rewrite Z.mod_pow2_bits_low.
  - rewrite Z.mod_pow2_bits_high, Z.lxor_spec by lia.
    rewrite <- (Z.mod_small a (2 ^ n)), <- (Z.mod_small b (2 ^ n)) by done.
    by rewrite !Z.mod_pow2_bits_high by lia.
Qed.

Lemma crc_bit_range c : is_u32 c -> is_u32 (crc_bit c).
Proof.
  unfold is_u32, crc_bit. intros Hc. assert (0 <= Z.shiftr c 1 < 2 ^ 32).
  { rewrite Z.shiftr_div_pow2 by lia. change (2 ^ 1) with 2. pose proof (Z.div_mod c 2).
    pose proof (Z.mod_pos_bound c 2 ltac:(lia)). lia. }
  destruct (Z.testbit c 0); [|done]. apply lxor_range; lia.
Qed.

Lemma crc_bits_range n c : is_u32 c -> is_u32 (crc_bits n c).
Proof. revert c. induction n as [|n IH]; intros c Hc; [done|]. apply IH, crc_bit_range, Hc. Qed.

Lemma crc_bit_zero c : is_u32 c -> crc_bit c = 0 -> c = 0.
Proof.
  unfold is_u32, crc_bit. intros Hc. rewrite Z.shiftr_div_pow2 by lia. change (2 ^ 1) with 2.
  pose proof (Z.div_mod c 2). pose proof (Z.mod_pos_bound c 2 ltac:(lia)).
  pose proof (Z.bit0_mod c). destruct (Z.testbit c 0); cbn [Z.b2z] in *.
  - intros Hx%Z.lxor_eq. lia.
  - lia.
Qed.

Lemma crc_bits_zero n c : is_u32 c -> crc_bits n c = 0 -> c = 0.
Proof.
  revert c. induction n as [|n IH]; intros c Hc H; [done|].
  by apply crc_bit_zero, IH, H; [|apply crc_bit_range].
Qed.

Lemma crc_bits_inj n a b : is_u32 a -> is_u32 b -> crc_bits n a = crc_bits n b -> a = b.
Proof.
  intros Ha Hb E. apply Z.lxor_eq, (crc_bits_zero n); [by apply lxor_range|].
  by rewrite crc_bits_lxor, E, Z.lxor_nilpotent.
Qed.

Lemma u8_u32 x : is_u32 (u8 x).
Proof. pose proof (u8_range x). ulia. Qed.

Lemma crc_byte_inj s s' x : is_u32 s -> is_u32 s' -> crc_byte s x = crc_byte s' x -> s = s'.
Proof.
  intros Hs Hs' E. apply crc_bits_inj in E; [|apply lxor_range; [lia|done|apply u8_u32]..].
  rewrite <- (Z.lxor_0_r s), <- (Z.lxor_0_r s'), <- (Z.lxor_nilpotent (u8 x)), <- !Z.lxor_assoc.
  by rewrite E.
Qed.

Lemma crc_byte_range s x : is_u32 s -> is_u32 (crc_byte s x).
Proof. intros Hs. apply crc_bits_range, lxor_range; [lia|done|apply u8_u32]. Qed.

Lemma crc_foldl_range bs s : is_u32 s -> is_u32 (foldl crc_byte s bs).
Proof. revert s. induction bs as [|x bs IH]; intros s Hs; [done|]. by apply IH, crc_byte_range. Qed.

Lemma crc_foldl_inj bs s s' :
  is_u32 s -> is_u32 s' -> foldl crc_byte s bs = foldl crc_byte s' bs -> s = s'.
Proof.
  revert s s'. induction bs as [|x bs IH]; intros s s' Hs Hs' E; [done|].
  eapply crc_byte_inj; [done..|]. by apply IH; [apply crc_byte_range..|].
Qed.

(** The low byte and the rest of an integer have no bit in common. *)
Lemma le_lxor x r : u8 x + 256 * r = Z.lxor (u8 x) (Z.shiftl r 8).
Proof.
  rewrite Z.shiftl_mul_pow2 by lia. change (2 ^ 8) with 256. rewrite (Z.mul_comm r).
  apply Z.add_nocarry_lxor. apply Z.bits_inj'. intros i Hi. rewrite Z.land_spec, Z.bits_0.
  destruct (Z.lt_ge_cases i 8).
  - rewrite (Z.mul_comm 256). change 256 with (2 ^ 8). rewrite Z.mul_pow2_bits_low by lia.
    apply andb_false_r.
  - pose proof (u8_range x). rewrite <- (Z.mod_small (u8 x) (2 ^ 8)) by lia.
    by rewrite Z.mod_pow2_bits_high by lia.
Qed.

(** Running over bytes at once. *)
Lemma crc_foldl_le bs s : foldl crc_byte s bs = crc_bits (8 * length bs) (Z.lxor s (from_le bs)).
Proof.
  revert s. induction bs as [|x bs IH]; intros s; cbn [foldl from_le length]; [by rewrite Z.lxor_0_r|].
  rewrite IH. replace (8 * S (length bs))%nat with (8 + 8 * length bs)%nat by lia.
  rewrite crc_bits_add. f_equal. rewrite le_lxor, <- Z.lxor_assoc, crc_bits_lxor.
  f_equal. symmetry. apply (crc_bits_shiftl 8).
Qed.

Lemma from_le_inj a b : length a = length b -> from_le a = from_le b -> a = b.
Proof.
  intros Hl E. by rewrite <- (to_le_from_le a (length a)), <- (to_le_from_le b (length b)), E, Hl.
Qed.

Lemma from_le_burst a : (length a <= 4)%nat -> is_u32 (from_le a).
Proof.
  intros Ha. pose proof (from_le_range a). unfold blen in *.
  assert (256 ^ Z.of_nat (length a) <= 256 ^ 4) by (apply Z.pow_le_mono_r; lia).
  change (256 ^ 4) with (2 ^ 32) in *. ulia.
Qed.

Lemma lxor_cancel_l s a b : Z.lxor s a = Z.lxor s b -> a = b.
Proof.
  intros E. rewrite <- (Z.lxor_0_l a), <- (Z.lxor_0_l b), <- (Z.lxor_nilpotent s), !Z.lxor_assoc.
  by rewrite E.
Qed.

#[export] Instance crc32_ieee_burst : Crc32Burst (Crc := crc32_ieee).
Proof.
  split. intros pre a b post Hl Ha Hne. cbn [hash crc32_ieee]. unfold crc32_hash.
  rewrite !foldl_app. set (s := foldl crc_byte 0xFFFFFFFF pre).
  assert (is_u32 s) as Hs by (apply crc_foldl_range; done). intros E. apply Hne, from_le_inj; [done|].
  assert (forall bs, is_u32 (foldl crc_byte s bs)) as Hr by (intros bs; by apply crc_foldl_range).
  unfold as_u32 in E. rewrite !Z.mod_small in E.
  2,3: apply lxor_range; [lia|apply crc_foldl_range, Hr|done].
  rewrite !(Z.lxor_comm _ 0xFFFFFFFF) in E. apply lxor_cancel_l, crc_foldl_inj in E; [|apply Hr..].
  rewrite !crc_foldl_le, Hl in E. rewrite Hl in Ha. apply crc_bits_inj, lxor_cancel_l in E; [done|..];
    (apply lxor_range; [lia|done|apply from_le_burst]); lia.
Qed.

(** ** The decoder *)

(** [rec'] is [rec] with up to four consecutive bytes changed, which are not in the
    length field. *)
Definition damaged (rec rec' : list byte) : Prop :=
  exists pre a b post, rec = pre ++ a ++ post /\ rec' = pre ++ b ++ post /\
    length a = length b /\ (length a <= 4)%nat /\ a <> b /\
    (blen pre + blen a <= CRC_LEN \/ HEADER_LEN <= blen pre).

Section damage.
Context `{Crc : Crc32} `{!Crc32Burst}.

(** A record whose checksum does not fit its content. *)
Lemma deserialize_mismatch crc len rest :
  is_u32 crc -> is_u32 len -> len <= blen rest ->
  hash (u32_to_le_bytes len ++ ztake len rest) <> crc ->
  deserialize (u32_to_le_bytes crc ++ u32_to_le_bytes len ++ rest) = Err Corruption.
Proof.
  intros Hc Hl Hle Hne. set (buf := u32_to_le_bytes crc ++ _).
  destruct (read_header_raw crc len buf rest Hc Hl eq_refl) as (R1 & R2 & _).
  unfold deserialize, deserialize_at. mstep R1. mstep R2.
  assert (blen buf = 8 + blen rest) as Hb by (unfold buf; autorewrite with blen; lia).
  unfold HEADER_LEN, CRC_LEN. rewrite (proj2 (Z.ltb_ge _ _)) by lia.
  replace (slice buf 4 (8 + len)) with (u32_to_le_bytes len ++ ztake len rest).
  2:{ unfold is_u32 in Hl. unfold buf. rewrite <- (take_drop (Z.to_nat len) rest) at 2.
      rewrite (app_assoc (u32_to_le_bytes len)). symmetry.
      apply slice_mid; [by rewrite blen_u32_le|]. fold (ztake len rest). autorewrite with blen.
      rewrite blen_ztake by lia. lia. }
  by rewrite (proj2 (Z.eqb_neq _ _) Hne).
Qed.

(** Two ways to cut a list: the shorter front is a prefix of the longer one. *)
Lemma app_cut (l1 l2 k1 k2 : list byte) :
  l1 ++ l2 = k1 ++ k2 -> blen l1 <= blen k1 -> exists k, k1 = l1 ++ k /\ l2 = k ++ k2.
Proof.
  intros [(k & -> & ->)|(k & -> & ->)]%app_eq_inv Hle; [|by exists k].
  rewrite blen_app in Hle. pose proof (blen_nonneg k). assert (k = []) as -> by (apply blen_0_nil; lia).
  exists []. by rewrite !app_nil_r.
Qed.

Lemma deserialize_damaged c rec' rest :
  command_ok c -> damaged (serialize c) rec' -> deserialize (rec' ++ rest) = Err Corruption.
Proof using All.
  intros Hok (pre & a & b & post & Hr & -> & Hl & Ha & Hne & Hat).
  pose proof (encoded_body_len_pos c). pose proof (command_ok_len c Hok) as Hlen.
  assert (is_u32 (encoded_body_len c)) as Hu by (destruct Hok; ulia).
  rewrite serialize_eq in Hr. pose proof (blen_body c) as Hbody.
  set (crc := hash (checked_part c)) in Hr. unfold checked_part in Hr. rewrite Hlen in Hr.
  destruct Hat as [Hin|Hin]; unfold CRC_LEN, HEADER_LEN in Hin.
  - rewrite (app_assoc pre) in Hr. symmetry in Hr.
    apply app_cut in Hr as (k & Hk & ->); [|by rewrite blen_app, blen_u32_le].
    assert (length (pre ++ b ++ k) = 4%nat) as H4.
    { pose proof (f_equal length Hk) as E. rewrite length_u32_le in E.
      rewrite !length_app in *. lia. }
    pose proof (to_le_from_le (pre ++ b ++ k) 4 (eq_sym H4)) as Hcrc.
    replace ((pre ++ _) ++ rest) with (u32_to_le_bytes (from_le (pre ++ b ++ k)) ++
      u32_to_le_bytes (encoded_body_len c) ++ body c ++ rest)
      by (unfold u32_to_le_bytes at 1; by rewrite Hcrc, <- !app_assoc).
    apply deserialize_mismatch; [by apply from_le_4_range; unfold blen; rewrite H4|done|blia|].
    rewrite ztake_app by done. intros E. apply Hne.
    assert (pre ++ a ++ k = pre ++ b ++ k) as Eq; [|by apply app_inv_head, app_inv_tail in Eq].
    rewrite app_assoc, <- Hk. apply from_le_inj; [by rewrite H4, length_u32_le|].
    rewrite from_le_u32 by apply hash_u32. rewrite <- E. unfold crc, checked_part. by rewrite Hlen.
  - rewrite (app_assoc (u32_to_le_bytes crc)) in Hr.
    apply app_cut in Hr as (k & -> & Hb); [|rewrite blen_app, !blen_u32_le; lia].
    rewrite <- !app_assoc.
    apply deserialize_mismatch; [apply hash_u32|done| |].
    + rewrite Hb in Hbody. rewrite !blen_app in *. unfold blen in *. lia.
    + replace (k ++ b ++ post ++ rest) with ((k ++ b ++ post) ++ rest) by (by rewrite <- !app_assoc).
      rewrite ztake_app.
      2:{ rewrite <- Hbody, Hb, !blen_app. unfold blen. lia. }
      unfold crc, checked_part. rewrite Hlen, Hb, !(app_assoc _ k). apply not_eq_sym.
      by apply hash_burst.
Qed.

(** ** Reading *)

(** The content of a file changes under the store. *)
Definition overwrite (w : World) (f : File) (bs : list byte) : World :=
  set_inode w f {| content := bs; durable := durable_of w f |}.

Lemma bytes_of_overwrite w f bs g :
  bytes_of (overwrite w f bs) g = if decide (f = g) then bs else bytes_of w g.
Proof. unfold overwrite, bytes_of, set_inode. cbn [inodes]. rewrite lookup_insert. by case_decide. Qed.

Lemma get_read_damaged h w e f pre rec' post c :
  BTreeMap.get (IndexValue.file_id e) (Shared.readers (Bitcask.shared h)) = Some f ->
  bytes_of w f = pre ++ rec' ++ post -> blen pre = IndexValue.offset e -> blen rec' = IndexValue.len e ->
  command_ok c -> damaged (serialize c) rec' -> faults w = [] ->
  Bitcask.get_read e (h, w) = (Err Corruption, (h, w)).
Proof using All.
  intros Hf Hb Ho Hl Hok Hd Hcalm. unfold Bitcask.get_read, bind at 1, gets. cbn [fst]. rewrite Hf, <- Ho, <- Hl.
  assert (read_exact_at f (blen rec') (blen pre) w = (Ok rec', w)) as Hread.
  { rewrite read_exact_at_calm; [|done|rewrite Hb; blia]. rewrite Hb. by rewrite slice_mid. }
  unfold bind at 1, on_snd at 1. cbn [fst snd]. rewrite Hread, bind_outcome.
  pose proof (deserialize_damaged c rec' [] Hok Hd) as E. rewrite app_nil_r in E. by rewrite E.
Qed.

Lemma damaged_len rec rec' : damaged rec rec' -> blen rec' = blen rec.
Proof. intros (pre & a & b & post & -> & -> & Hl & _). rewrite !blen_app. unfold blen. lia. Qed.

(** Commands of one file at different places. *)
Lemma enc_elsewhere c c' pre post pre' post' rec' tail :
  pre ++ c :: post = pre' ++ c' :: post' -> c <> c' -> blen rec' = blen (serialize c) ->
  exists l r, enc pre ++ rec' ++ enc post ++ tail = l ++ serialize c' ++ r /\ blen l = blen (enc pre').
Proof.
  intros [([|x l] & -> & [=])|([|x l] & -> & [=])]%app_eq_inv Hne Hlen; subst; try done.
  - exists (enc pre'), (enc l ++ rec' ++ enc post ++ tail). rewrite enc_app, enc_cons. by rewrite <- !app_assoc.
  - exists (enc pre ++ rec' ++ enc l), (enc post' ++ tail). rewrite !enc_app, !enc_cons.
    rewrite <- !app_assoc. split; [done|]. rewrite !blen_app. lia.
Qed.
(** The file of a place, and what is in it. *)
Lemma entry_file sh w front cur cmds k e v :
  engine sh w front cur cmds -> state_of (front ++ [(cur, cmds)]) !! k = Some (e, v) ->
  exists f cs pre post ts tail, BTreeMap.get (IndexValue.file_id e) (Shared.readers sh) = Some f /\
    dir w !! data_file_name (IndexValue.file_id e) = Some f /\ is_u64 (IndexValue.file_id e) /\
    (IndexValue.file_id e, cs) ∈ front ++ [(cur, cmds)] /\ cs = pre ++ Set_ ts k v :: post /\
    bytes_of w f = enc cs ++ tail /\ good_cmd (Set_ ts k v) /\
    blen (enc pre) = IndexValue.offset e /\ blen (serialize (Set_ ts k v)) = IndexValue.len e.
Proof.
  intros He (cs & pre & post & ts & Hin & Hcs & Hpl)%state_of_entry_in. cbn [fst snd] in *.
  destruct (r_files _ _ _ (engine_readable _ _ _ _ _ He) _ _ Hin) as [Hg (f & tail & Hf & Hb)].
  pose proof (e_covered _ _ _ _ _ He _ _ Hin) as Hc. rewrite Hf in Hc.
  rewrite Hcs in Hg. apply Forall_app in Hg as [_ [Hg _]%Forall_cons].
  exists f, cs, pre, post, ts, tail. split_and!; try done; try (by rewrite Hpl).
  eapply e_readers; [exact He|]. by apply btree_get_elem; [apply He|].
Qed.

(** A turn of [get], from its two parts. *)
Lemma get_from k e h w r fuel :
  Bitcask.get_index k (h, w) = (Ok (Some e), (h, w)) ->
  Bitcask.get_read e (h, w) =
    (match r with Ok v => Ok (Some v) | Err x => Err x | Panic => Panic end, (h, w)) -> Bitcask.get (S fuel) k (h, w) = (r, (h, w)).
Proof.
  intros Hi Hr. cbn [Bitcask.get]. unfold Bitcask.get_once. rewrite bind_assoc, (bind_ok _ _ _ _ _ Hi).
  unfold bind. rewrite Hr. by destruct r.
Qed.

(** The places of other keys hold what they held. *)
Lemma held_elsewhere sh w front cur cmds k k' e e' v v' f pre rec' post ts tail cs :
  engine sh w front cur cmds -> state_of (front ++ [(cur, cmds)]) !! k' = Some (e', v') -> k' <> k ->
  dir w !! data_file_name (IndexValue.file_id e) = Some f -> is_u64 (IndexValue.file_id e) ->
  (IndexValue.file_id e, cs) ∈ front ++ [(cur, cmds)] -> cs = pre ++ Set_ ts k v :: post ->
  blen rec' = blen (serialize (Set_ ts k v)) ->
  held sh (overwrite w f (enc pre ++ rec' ++ enc post ++ tail)) k' e' v'.
Proof.
  intros He Est Hne Hdir Hid Hin Hcs Hlen.
  destruct (entry_file _ _ _ _ _ _ _ _ He Est)
    as (f' & cs' & pre' & post' & ts' & tail' & Hf' & Hdir' & Hid' & Hin' & Hcs' & Hb & Hg & Ho & Hl).
  destruct (decide (f = f')) as [<-|Hff].
  - assert (IndexValue.file_id e' = IndexValue.file_id e) as Eid.
    { apply data_file_name_inj; [done..|].
      by eapply (d_links _ (d_dir _ _ _ _ _ (e_disk _ _ _ _ _ He))). }
    assert (cs' = cs) as ->.
    { rewrite Eid in Hin'. apply btree_get_elem in Hin, Hin'; [congruence|apply (e_disk _ _ _ _ _ He)..]. }
    destruct (enc_elsewhere (Set_ ts k v) (Set_ ts' k' v') pre post pre' post' rec' tail)
      as (l & r & E & El); [congruence..|].
    exists f, ts', l, r. rewrite bytes_of_overwrite, decide_True by done. split_and!; (done || lia).
  - exists f', ts', (enc pre'), (enc post' ++ tail'). rewrite bytes_of_overwrite, decide_False by done.
    rewrite Hb, Hcs', enc_app, enc_cons, <- !app_assoc. by split_and!.
Qed.

(** C25. Damage is found and contained. When up to four consecutive bytes of a live
    record change on disk under an open store, in the checksum or in the body, then
    [get] of its key returns [Corruption], never a wrong value, and every other key
    reads as before. *)
Theorem damage_is_detected h w m k e f rec' fuel :
  stores h w m -> Bitcask.get_index k (h, w) = (Ok (Some e), (h, w)) ->
  BTreeMap.get (IndexValue.file_id e) (Shared.readers (Bitcask.shared h)) = Some f ->
  damaged (slice (bytes_of w f) (IndexValue.offset e) (IndexValue.offset e + IndexValue.len e)) rec' ->
  let w' := overwrite w f (ztake (IndexValue.offset e) (bytes_of w f) ++ rec' ++
                           zdrop (IndexValue.offset e + IndexValue.len e) (bytes_of w f)) in
  Bitcask.get (S fuel) k (h, w') = (Err Corruption, (h, w')) /\
  (forall k', k' <> k -> Bitcask.get (S fuel) k' (h, w') = (Ok (m !! k'), (h, w'))).
Proof using All.
  intros (front & cur & cmds & He & Hm) Hidx Hf Hd w'.
  assert (forall k w, Bitcask.get_index k (h, w) =
    (Ok (fst <$> state_of (front ++ [(cur, cmds)]) !! k), (h, w))) as Hget.
  { intros k0 w0. rewrite (get_index_run h w0 _ k0 (e_index _ _ _ _ _ He)). by rewrite places_lookup. }
  rewrite Hget in Hidx. destruct (state_of _ !! k) as [[e0 v]|] eqn:Est; [|done]. injection Hidx as ->.
  destruct (entry_file _ _ _ _ _ _ _ _ He Est)
    as (f0 & cs & pre & post & ts & tail & Hf0 & Hdir & Hid & Hin & Hcs & Hb & [Hok _] & Ho & Hl).
  rewrite Hf in Hf0. injection Hf0 as <-. rewrite Hcs, enc_app, enc_cons, <- !app_assoc in Hb.
  rewrite Hb, slice_mid in Hd by lia. pose proof (damaged_len _ _ Hd) as Hlen.
  assert (w' = overwrite w f (enc pre ++ rec' ++ enc post ++ tail)) as Ew.
  { unfold w'. rewrite Hb, ztake_app by done.
    replace (zdrop _ _) with (enc post ++ tail); [done|]. symmetry. rewrite (app_assoc (enc pre)).
    apply zdrop_app. rewrite blen_app. lia. }
  assert (faults w' = []) as Hcalm by apply He. clearbody w'. subst w'. split.
  - eapply (get_from k e); [by rewrite Hget, Est|].
    apply (get_read_damaged h _ e f (enc pre) rec' (enc post ++ tail) (Set_ ts k v)); try done; [|lia].
    by rewrite bytes_of_overwrite, decide_True.
  - intros k' Hne. rewrite <- Hm, values_lookup. destruct (state_of _ !! k') as [[e' v']|] eqn:Est'.
    + eapply (get_from k' e'); [by rewrite Hget, Est'|]. eapply get_read_held; [|done].
      by eapply held_elsewhere.
    + cbn [Bitcask.get]. unfold Bitcask.get_once. rewrite bind_assoc. by rewrite (bind_ok _ _ _ _ _ (Hget _ _)), Est'.
Qed.
End damage.

(** ** A concrete damage *)

(** A store in which [k] was set to [v]; the index entry and the file of [k], and its
    record with the last byte changed. *)
Definition one_key : Bitcask.Handle * World :=
  snd (Bitcask.set_ (Crc := crc32_ieee) (lit "k") (lit "v") (fresh_handle sample_config, fresh_world)).
Definition one_entry : IndexValue :=
  {| IndexValue.file_id := 1; IndexValue.ts := 1700000000; IndexValue.offset := 0; IndexValue.len := 27 |}.
Definition one_file : File := default 0%nat (BTreeMap.get 1 (Shared.readers (Bitcask.shared (fst one_key)))).
Definition rotten : list byte := ztake 26 (bytes_of (snd one_key) one_file) ++ lit "w".

Lemma one_key_stores : stores (Crc := crc32_ieee) (fst one_key) (snd one_key) {[lit "k" := lit "v"]}.
Proof.
  destruct (set_engine (Crc := crc32_ieee) (fresh_handle sample_config) fresh_world [] 1 [] (lit "k") (lit "v"))
    as (ts & h & w & front & cur & cmds & Hrun & _ & He & Hst & _).
  - apply fresh_engine.
  - apply fresh_room. lia.
  - vm_compute. intuition discriminate.
  - unfold one_key. rewrite Hrun. exists front, cur, cmds. split; [exact He|].
    rewrite (proj1 (same_log_state _ _ Hst)), state_of_snoc, values_apply1. done.
Qed.

Lemma damage_is_detected_witness :
  exists w', Bitcask.get (Crc := crc32_ieee) 1 (lit "k") one_key = (Ok (Some (lit "v")), one_key) /\
    Bitcask.get (Crc := crc32_ieee) 1 (lit "k") (fst one_key, w') = (Err Corruption, (fst one_key, w')) /\
    Bitcask.get (Crc := crc32_ieee) 1 (lit "other") (fst one_key, w') = (Ok None, (fst one_key, w')).
Proof.
  destruct (damage_is_detected (Crc := crc32_ieee) (fst one_key) (snd one_key) {[lit "k" := lit "v"]}
    (lit "k") one_entry one_file rotten 0 one_key_stores) as [Hk Ho].
  - vm_compute. reflexivity.
  - vm_compute. reflexivity.
  - exists (ztake 26 (bytes_of (snd one_key) one_file)), (lit "v"), (lit "w"), [].
    split; [vm_compute; reflexivity|]. split; [vm_compute; reflexivity|]. split; [reflexivity|].
    split; [cbn; lia|]. split; [discriminate|]. right. vm_compute. discriminate.
  - eexists. split; [vm_compute; reflexivity|]. split; [exact Hk|].
    rewrite (Ho (lit "other") ltac:(discriminate)). reflexivity.
Defined.
