(* ===== verification/Durability.v ===== *)
(** * Crashes and durability

    A crash keeps of every file a prefix that is at least as long as what was
    synced, and nothing of memory. What the next [open] gives after a crash:
    the records of the active file that are whole on disk, always a prefix of
    what was written, and all of it when the policy is [SyncOnEveryPut]. *)

From Stdlib Require Import ZArith Lia Strings.Byte.
From stdpp Require Import base numbers list strings gmap.
From S2P Require Import Prelude Bytes Crc CommandFormat HintFormat Streams Reader KeyDir Text Names Config FileSystem Lock BTree Engine Load Merge Log Inv EngineProofs Replay Recovery.
Import Command(Command, Set_, Rm).
Import Open Shared RecordReader.

Local Open Scope Z_scope.

(** What is left in the world after the process, or the machine, stopped. *)
Record crash (w w' : World) : Prop := {
  c_dir : dir w' = dir w;
  c_others : others w' = others w;
  c_next : next_inode w' = next_inode w;
  c_flock : flock w' = false;
  c_faults : faults w' = [];
  c_clock : clock_ok 0 w';
  c_bytes : forall h, exists n, durable_of w h <= n <= blen (bytes_of w h) /\
            bytes_of w' h = ztake n (bytes_of w h) /\ durable_of w' h = n
}.

Section crash.
Context `{Crc : Crc32}.

(** ** Prefixes of a data file *)

Lemma torn_prefix rec n : framed rec -> 0 < n < blen rec -> torn (ztake n rec).
Proof.
  intros [Hh Hb] Hn. unfold HEADER_LEN, Command.HEADER_LEN in *.
  pose proof (blen_ztake n rec ltac:(lia)) as Hl. split.
  { intros E. rewrite E in Hl. unfold blen in Hl. simpl in Hl. lia. }
  unfold HEADER_LEN, Command.HEADER_LEN. rewrite Hl.
  destruct (Z.lt_ge_cases n 8); [by left|right].
  replace (ztake 8 (ztake n rec)) with (ztake 8 rec); [lia|].
  unfold ztake. rewrite take_take. f_equal. lia.
Qed.

(** A prefix of a data file holds the records that fit in it, then an end that
    is clean or torn. *)
Lemma prefix_records cmds n :
  Forall good_cmd cmds -> 0 <= n <= blen (enc cmds) ->
  exists cmds1 cmds2 tail, cmds = cmds1 ++ cmds2 /\ ztake n (enc cmds) = enc cmds1 ++ tail /\
    (tail = [] \/ torn tail) /\
    (forall pre post, cmds = pre ++ post -> blen (enc pre) <= n -> exists mid, cmds1 = pre ++ mid).
Proof.
  revert n. induction cmds as [|c cmds IH]; intros n Hg Hn.
  { change (blen (enc [])) with 0 in Hn. exists [], [], []. split_and!; try done; [|by left|].
    - by replace n with 0 by lia.
    - intros pre post E _. destruct pre; [by exists []|done]. }
  apply Forall_cons in Hg as [Hc Hg]. rewrite enc_cons, blen_app in Hn.
  pose proof (framed_command c (proj1 Hc)) as Hf. pose proof (blen_nonneg (Command.serialize c)).
  destruct (Z.le_gt_cases (blen (Command.serialize c)) n) as [Hle|Hgt].
  - destruct (IH (n - blen (Command.serialize c)) Hg)
      as (cmds1 & cmds2 & tail & -> & Ht & Htail & Hmax); [lia|].
    exists (c :: cmds1), cmds2, tail. split_and!; try done.
    + rewrite !enc_cons, <- app_assoc, <- Ht. unfold ztake. rewrite take_app_ge.
      * f_equal. f_equal. unfold blen. lia.
      * unfold blen in *. lia.
    + intros [|c' pre] post E Hp; [by exists (c :: cmds1)|]. injection E as <- E.
      destruct (Hmax pre post E) as [mid ->]; [|by exists mid].
      rewrite enc_cons, blen_app in Hp. lia.
  - exists [], (c :: cmds), (ztake n (Command.serialize c)). split_and!; try done.
    + rewrite enc_cons. unfold ztake. rewrite take_app_le; [done|]. unfold blen in *. lia.
    + destruct (decide (n = 0)) as [->|]; [by left|right]. apply torn_prefix; [done|lia].
    + intros [|c' pre] post E Hp; [by exists []|]. injection E as <- E.
      rewrite enc_cons, blen_app in Hp. pose proof (blen_nonneg (enc pre)). lia.
Qed.

(** ** What a crash leaves *)

Lemma crash_full w w' h :
  crash w w' -> blen (bytes_of w h) <= durable_of w h ->
  bytes_of w' h = bytes_of w h /\ blen (bytes_of w' h) <= durable_of w' h.
Proof.
  intros Hcr Hd. destruct (c_bytes _ _ Hcr h) as (n & Hn & Hb & Hdu).
  assert (bytes_of w' h = bytes_of w h) as E.
  { rewrite Hb. unfold ztake. apply take_ge. unfold blen in *. lia. }
  rewrite E. split; [done|lia].
Qed.

Lemma crash_sealed w w' id cs : crash w w' -> sealed w id cs -> sealed w' id cs.
Proof.
  intros Hcr [H1 H2 H3 (h & Hd & Hb & Hdu) H5]. split; try done; rewrite (c_dir _ _ Hcr).
  - exists h. destruct (crash_full w w' h Hcr) as [E Hl]; [by rewrite Hb|].
    rewrite E, Hb in Hl. rewrite E. by split_and!.
  - intros h' Hh'. destruct (H5 _ Hh') as [Hok Hdur].
    destruct (crash_full w w' h' Hcr Hdur) as [E Hl]. rewrite E in *. by split.
Qed.

Lemma crash_inodes w w' : inodes_ok w -> crash w w' -> inodes_ok w'.
Proof.
  intros Hi Hcr h. destruct (c_bytes _ _ Hcr h) as (n & Hn & -> & ->). specialize (Hi h).
  rewrite blen_ztake by lia. lia.
Qed.

Lemma crash_marker w w' : crash w w' -> marker_ok w -> marker_ok w'.
Proof.
  intros Hcr (Ho & h & Hd & Hu & Ht & Hdu). split; [by rewrite (c_others _ _ Hcr)|].
  exists h. rewrite (c_dir _ _ Hcr). destruct (crash_full w w' h Hcr Hdu) as [E Hl].
  by rewrite E in *.
Qed.

Lemma crash_disk sh w w' front cur cmds :
  engine sh w front cur cmds -> crash w w' ->
  exists cmds1 cmds2 tail, cmds = cmds1 ++ cmds2 /\ disk w' front cur cmds1 tail /\
    (tail = [] \/ torn tail) /\
    (forall pre post, cmds = pre ++ post ->
       blen (enc pre) <= durable_of w (file (writer sh)) -> exists mid, cmds1 = pre ++ mid).
Proof.
  intros He Hcr. destruct (engine_active He) as (h & Hh & Hfile & Hb). rewrite Hfile.
  destruct (e_disk _ _ _ _ _ He) as [H1 H2 (Hu & Hg & Hl) H4 H5 H6 H7 [Hl1 Hl2] H9].
  destruct (c_bytes _ _ Hcr h) as (n & Hn & Hbytes & _). rewrite Hb in Hn, Hbytes.
  pose proof (e_inodes _ _ _ _ _ He h).
  destruct (prefix_records cmds n Hg) as (cmds1 & cmds2 & tail & Hc & Ht & Htail & Hmax); [lia|].
  exists cmds1, cmds2, tail. split; [done|]. split; [|split; [done|]].
  2:{ intros pre post E Hp. apply (Hmax pre post E). lia. }
  subst cmds. apply Forall_app in Hg as [Hg _]. rewrite enc_app, blen_app in Hl.
  pose proof (blen_nonneg (enc cmds2)).
  split; rewrite ?(c_dir _ _ Hcr), ?(c_others _ _ Hcr); try done.
  - by eapply ascending_replace.
  - intros id cs Hin. by apply (crash_sealed w); [|apply H2].
  - split_and!; [done|done|lia].
  - exists h. split; [done|]. by rewrite Hbytes.
  - split; rewrite ?(c_dir _ _ Hcr), ?(c_next _ _ Hcr); done.
Qed.

Lemma crash_lock_free w w' : crash w w' -> marker_ok w -> lock_free w'.
Proof.
  intros Hcr Hm. pose proof (crash_marker w w' Hcr Hm) as Hm'.
  split; [apply Hcr|]. split; [apply Hm'|by right].
Qed.

Section open.
Context (order : list Name -> list Name) (order_perm : forall l, order l ≡ₚ l).

(** Crash consistency: after a crash at any moment between operations,
    whatever the policy, the next [open] succeeds, and the store then stores the
    map of a prefix of what was written: all sealed files, and of the active
    file a prefix of its records that has at least every record that ends
    within the synced part. *)
Theorem crash_recovery h w w' front cur cmds c :
  engine (Bitcask.shared h) w front cur cmds ->
  total_bytes (front ++ [(cur, cmds)]) <= u64_max -> crash w w' ->
  exists hd w'' cmds1 cmds2, open order c w' = (Ok hd, w'') /\ cmds = cmds1 ++ cmds2 /\
    stores hd w'' (values (state_of (front ++ [(cur, cmds1)]))) /\
    (forall pre post, cmds = pre ++ post ->
       blen (enc pre) <= flushed_offset (writer (Bitcask.shared h)) ->
       exists mid, cmds1 = pre ++ mid).
Proof using order_perm.
  intros He Htot Hcr.
  destruct (crash_disk _ _ _ _ _ _ He Hcr) as (cmds1 & cmds2 & tail & Hc & Hd & Ht & Hmax).
  rewrite total_bytes_app, total_bytes_one, Hc, enc_app, blen_app in Htot.
  pose proof (blen_nonneg (enc cmds2)).
  destruct (open_engine order order_perm c w' front cur cmds1 tail) as (hd & w'' & Hrun & He' & _);
    try done; try apply Hcr.
  - eapply crash_inodes; [|done]. apply He.
  - eapply crash_lock_free; [done|]. apply He.
  - rewrite total_bytes_app, total_bytes_one. lia.
  - exists hd, w'', cmds1, cmds2. split_and!; try done; [by exists front, cur, cmds1|].
    intros pre post E Hp. apply (Hmax pre post E).
    pose proof (e_flushed _ _ _ _ _ He). lia.
Qed.

Lemma crash_all_durable sh w w' front cur cmds :
  engine sh w front cur cmds -> all_durable sh w -> crash w w' -> disk w' front cur cmds [].
Proof using.
  intros He Hall Hcr. unfold all_durable in Hall. destruct (engine_active He) as (h & Hh & Hf & Hb).
  rewrite Hf, Hb in Hall.
  destruct (crash_disk _ _ _ _ _ _ He Hcr) as (cmds1 & cmds2 & tail & Hc & Hd & Ht & Hmax).
  destruct (Hmax cmds []) as [mid Hmid]; [by rewrite app_nil_r|by rewrite Hf|].
  assert (cmds1 = cmds) as ->.
  { rewrite Hc in Hmid. apply (f_equal length) in Hmid. rewrite !length_app in Hmid.
    rewrite Hc. destruct cmds2; [by rewrite app_nil_r|simpl in Hmid; lia]. }
  destruct (d_active _ _ _ _ _ Hd) as (h' & Hh' & Hb'). rewrite (c_dir _ _ Hcr), Hh in Hh'.
  injection Hh' as <-. destruct (crash_full w w' h Hcr) as [E _]; [by rewrite Hb|].
  rewrite E, Hb in Hb'. rewrite <- (app_nil_r (enc cmds)) in Hb' at 1.
  by apply app_inv_head in Hb' as <-.
Qed.

(** C15. Durability: with [SyncOnEveryPut], once [set k v] has returned, a crash
    loses nothing: the next [open] gives a store that stores the map with [k]
    bound to [v]. *)
Theorem set_durable h w front cur cmds k v h' w' w'' c :
  engine (Bitcask.shared h) w front cur cmds -> room 1 (Bitcask.shared h) -> fits k v ->
  Config.durability_policy (config (Bitcask.shared h)) = SyncOnEveryPut ->
  total_bytes (front ++ [(cur, cmds)]) + record_max <= u64_max ->
  Bitcask.set_ k v (h, w) = (Ok tt, (h', w')) -> crash w' w'' ->
  exists hd w3, open order c w'' = (Ok hd, w3) /\
    stores hd w3 (<[k := v]> (values (state_of (front ++ [(cur, cmds)])))).
Proof using order_perm.
  intros He Hr Hfit Hpol Htot Hrun Hcr.
  destruct (set_engine h w front cur cmds k v He Hr Hfit)
    as (ts & h1 & w1 & front' & cur' & cmds' & Hrun' & Hg & He' & Hlog & Hadv & Hdur).
  rewrite Hrun in Hrun'. injection Hrun' as <- <-.
  pose proof (crash_all_durable _ _ _ _ _ _ He' (Hdur Hpol) Hcr) as Hd.
  destruct (same_log_state _ _ Hlog) as [Hst Htb].
  destruct (open_engine order order_perm c w'' front' cur' cmds' []) as (hd & w3 & Hopen & He3 & _);
    try done; try apply Hcr.
  - eapply crash_inodes; [|done]. apply He'.
  - eapply crash_lock_free; [done|]. apply He'.
  - by left.
  - rewrite Htb. rewrite total_bytes_app, total_bytes_one in *.
    rewrite enc_app, enc_one, blen_app. pose proof (serialize_max _ Hg). lia.
  - exists hd, w3. split; [done|]. exists front', cur', cmds'. split; [done|].
    by rewrite Hst, state_of_snoc, values_apply1.
Qed.

(** Closing and opening again: dropping the last handle of a store with no
    merge due and opening the directory again gives a store with the same map;
    the lock is released in between, and nothing is lost whatever the policy. *)
Theorem close_reopen h w front cur cmds c :
  engine (Bitcask.shared h) w front cur cmds -> Bitcask.compaction_tx h <> Some true ->
  total_bytes (front ++ [(cur, cmds)]) <= u64_max ->
  exists h' w' hd w'', Compaction.drop_handle (h, w) = (Ok tt, (h', w')) /\ flock w' = false /\
    open order c w' = (Ok hd, w'') /\
    stores hd w'' (values (state_of (front ++ [(cur, cmds)]))).
Proof using order_perm.
  intros He Htx Htot.
  destruct (close_engine h w front cur cmds He Htx) as (h' & w' & Hrun & Hd & Hc & Hi & Hclk & Hl).
  destruct (open_engine order order_perm c w' front cur cmds []) as (hd & w'' & Hopen & He' & _);
    try done; [by left|].
  exists h', w', hd, w''. split_and!; [done|apply Hl|done|by exists front, cur, cmds].
Qed.

End open.
End crash.

(** ** Concrete runs *)

(** The worst crash: only what was synced is left. *)
Definition power_cut (w : World) : World :=
  {| dir := dir w; others := others w;
     inodes := (fun i => {| content := ztake (durable i) (content i); durable := durable i |})
               <$> inodes w;
     next_inode := next_inode w; flock := false; clock := clock w; ticks := ticks w;
     faults := [] |}.

Lemma crash_power_cut last w : inodes_ok w -> clock_ok last w -> crash w (power_cut w).
Proof.
  intros Hi Hclk. split; try done.
  - eapply (clock_ok_weaken last); [destruct Hclk; lia|]. exact Hclk.
  - intros h. specialize (Hi h). unfold bytes_of, durable_of, power_cut in *. cbn [inodes].
    rewrite lookup_fmap. destruct (inodes w !! h) as [i|]; cbn [fmap option_fmap option_map content durable] in *.
    + exists (durable i). split_and!; (done || lia).
    + exists 0. by split_and!.
Qed.

Definition resting_world : World := set_flock fresh_world false.

Lemma resting_at_rest : at_rest (Crc := crc32_ieee) 1000 resting_world ∅.
Proof.
  pose proof (fresh_engine sample_config) as He. split; [done|]. split; [apply fresh_inodes|].
  split; [by vm_compute; intuition discriminate|]. split.
  - split; [done|]. split; [apply not_elem_of_nil|]. right.
    split; [apply not_elem_of_nil|]. by exists 1%nat.
  - exists [], 1, [], []. split_and!; try done; [|by left].
    eapply disk_step_disk; [|apply fresh_disk]. by apply disk_step_same; [apply fresh_disk|..].
Qed.

Lemma open_spec_witness :
  exists hd w', open (Crc := crc32_ieee) (fun l => l) sample_config resting_world = (Ok hd, w') /\
    stores (Crc := crc32_ieee) hd w' ∅ /\ flock w' = true.
Proof.
  destruct (open_spec (Crc := crc32_ieee) (fun l => l) (fun l => reflexivity l) 1000 sample_config
    resting_world ∅) as (hd & w' & Hrun & Hst & _ & Hf & _).
  - lia.
  - apply resting_at_rest.
  - exists hd, w'. split; [exact Hrun|]. split; [exact Hst|exact Hf].
Defined.

Lemma crash_recovery_witness :
  exists hd w', open (Crc := crc32_ieee) (fun l => l) sample_config (power_cut fresh_world) =
    (Ok hd, w') /\ exists m, stores (Crc := crc32_ieee) hd w' m.
Proof.
  destruct (crash_recovery (Crc := crc32_ieee) (fun l => l) (fun l => reflexivity l)
    (fresh_handle sample_config) fresh_world (power_cut fresh_world) [] 1 [] sample_config)
    as (hd & w' & c1 & c2 & Hrun & _ & Hst & _).
  - apply fresh_engine.
  - vm_compute. discriminate.
  - apply (crash_power_cut 0); [apply fresh_inodes|]. vm_compute. intuition discriminate.
  - exists hd, w'. split; [exact Hrun|]. eexists. exact Hst.
Defined.

Lemma set_durable_witness :
  exists h' w' hd w3,
    Bitcask.set_ (Crc := crc32_ieee) (lit "k") (lit "v")
      (fresh_handle sample_config, fresh_world) = (Ok tt, (h', w')) /\
    open (Crc := crc32_ieee) (fun l => l) sample_config (power_cut w') = (Ok hd, w3) /\
    stores (Crc := crc32_ieee) hd w3 {[ lit "k" := lit "v" ]}.
Proof.
  destruct (set_engine (Crc := crc32_ieee) (fresh_handle sample_config) fresh_world [] 1 []
    (lit "k") (lit "v")) as (ts & h' & w' & fr & cu & cm & Hrun & _ & He & _).
  - apply fresh_engine.
  - apply fresh_room. lia.
  - vm_compute. intuition discriminate.
  - destruct (set_durable (Crc := crc32_ieee) (fun l => l) (fun l => reflexivity l)
      (fresh_handle sample_config) fresh_world [] 1 [] (lit "k") (lit "v") h' w' (power_cut w')
      sample_config) as (hd & w3 & Hopen & Hst).
    + apply fresh_engine.
    + apply fresh_room. lia.
    + vm_compute. intuition discriminate.
    + reflexivity.
    + vm_compute. discriminate.
    + exact Hrun.
    + apply (crash_power_cut (last_ts_flushed (writer (Bitcask.shared h')))); apply He.
    + exists h', w', hd, w3. split; [exact Hrun|]. split; [exact Hopen|exact Hst].
Defined.

Lemma close_reopen_witness :
  exists h' w' hd w'',
    Compaction.drop_handle (Crc := crc32_ieee) (fresh_handle sample_config, fresh_world) =
      (Ok tt, (h', w')) /\
    open (Crc := crc32_ieee) (fun l => l) sample_config w' = (Ok hd, w'').
Proof.
  destruct (close_reopen (Crc := crc32_ieee) (fun l => l) (fun l => reflexivity l)
    (fresh_handle sample_config) fresh_world [] 1 [] sample_config)
    as (h' & w' & hd & w'' & Hrun & _ & Hopen & _).
  - apply fresh_engine.
  - discriminate.
  - vm_compute. discriminate.
  - exists h', w', hd, w''. split; [exact Hrun|exact Hopen].
Defined.
