(* ===== verification/Faults.v ===== *)
(** * Writes under I/O errors

    A write whose system calls fail in any way: the schedule of faults is
    arbitrary, a failed [write_all] may have written part of the record, and the
    sync, the creation of the next file or the opening of it for reading may fail.
    Whatever happens, the write returns [Ok] or the I/O error, reading goes on from
    the old map or the new one, and when the process is killed then, the next
    [open] gives the old map or the new one. *)

From Stdlib Require Import ZArith Lia Strings.Byte.
From stdpp Require Import base numbers list strings gmap.
From S2P Require Import Prelude Bytes Crc CommandFormat HintFormat Streams Reader KeyDir Text Names Config FileSystem Lock BTree Engine Load Merge Log Inv EngineProofs Replay Recovery Durability.
Import Command(Command, Set_, Rm).
Import Shared Bitcask.

Local Open Scope Z_scope.

(** The world without the coming faults. *)
Definition calm (w : World) : World := set_faults w [].

(** The process is killed; the operating system keeps what was written. *)
Definition killed (w : World) : World := set_flock (calm w) false.

(** Results of a write: success or the error of a system call. *)
Definition io_result (o : outcome unit) : Prop := o = Ok tt \/ exists k, o = Err (Io k).

Lemma calm_set_faults w fs : calm (set_faults w fs) = calm w.
Proof. done. Qed.

Lemma calm_calm w : calm (calm w) = calm w.
Proof. done. Qed.

(** A system call does what it does without faults, or fails. *)
Lemma syscall_cases {A} (call : M World A) failed w :
  (exists fs, syscall call failed w = call (set_faults w fs)) \/
  (exists f fs, syscall call failed w = failed f (set_faults w fs)).
Proof.
  unfold syscall. destruct (faults w) as [|[f|] fs] eqn:E.
  - left. exists []. destruct w. cbn in *. by subst.
  - right. by exists f, fs.
  - left. by exists fs.
Qed.

Lemma unix_now_calm w o w1 :
  unix_now (calm w) = (o, w1) -> unix_now w = (o, set_faults w1 (faults w)).
Proof. intros H. apply (unix_now_faults w (faults w)) in H. by destruct w. Qed.

Section faults.
Context `{Crc : Crc32}.

(** ** The steps of a write *)

Lemma sync_faulty sh w :
  exists o sh' w', Shared.sync (sh, w) = (o, (sh', w')) /\
    ((o = Ok tt /\ sh' = flushed sh /\ calm w' = synced (calm w) (file (writer sh))) \/
     ((exists k, o = Err (Io k)) /\ sh' = sh /\ calm w' = calm w)).
Proof.
  unfold Shared.sync, get_writer, bind at 1, gets. cbn [fst]. unfold bind, on_snd. cbn [fst snd].
  unfold sync_all. destruct (syscall_cases (fun w => (Ok tt, set_inode w (file (writer sh))
    {| content := bytes_of w (file (writer sh)); durable := blen (bytes_of w (file (writer sh))) |})) fails w)
    as [[fs ->]|(f & fs & ->)].
  - eexists _, _, _. split; [done|]. by left.
  - eexists _, _, _. split; [done|]. right. split_and!; [by eexists|done|done].
Qed.

(** A sync, done or failed, keeps the store. *)
Lemma sync_faulty_engine sh w front cur cmds :
  engine sh (calm w) front cur cmds ->
  exists o sh' w', Shared.sync (sh, w) = (o, (sh', w')) /\ io_result o /\ keeps sh sh' /\
    engine sh' (calm w') front cur cmds /\
    (forall last, clock_ok last (calm w) -> clock_ok last (calm w')) /\
    (o = Ok tt -> durable_of (calm w') (file (writer sh)) = blen (enc cmds) /\ sh' = flushed sh /\
                  next_inode w' = next_inode w).
Proof.
  intros He. destruct (sync_faulty sh w) as (o & sh' & w' & Hrun & [(-> & -> & Ew)|([k ->] & -> & Ew)]).
  - destruct (sync_engine _ _ _ _ _ He) as [He' Hd]. exists (Ok tt), (flushed sh), w'. rewrite Ew.
    split_and!; [done|by left|apply keeps_flushed|done|done|]. intros _. split_and!; [done|done|].
    by apply (f_equal next_inode) in Ew.
  - exists (Err (Io k)), sh, w'. rewrite Ew. split_and!; try done. right. by exists k.
Qed.

Lemma handle_policy_faulty h w front cur cmds :
  engine (shared h) (calm w) front cur cmds ->
  exists o sh' w', handle_policy (h, w) = (o, (with_shared h sh', w')) /\ io_result o /\
    keeps (shared h) sh' /\ engine sh' (calm w') front cur cmds.
Proof.
  intros He. destruct h as [sh tx]. cbn [shared] in *.
  set (h := {| shared := sh; compaction_tx := tx |}).
  unfold handle_policy. unfold bind at 1, on_shared at 1, get_config, gets. cbn [fst snd h shared compaction_tx].
  destruct (Config.durability_policy (config sh)).
  - destruct (sync_faulty_engine sh w front cur cmds He) as (o & sh' & w' & Hrun & Ho & Hk & He' & _).
    exists o, sh', w'. split_and!; try done. exact (on_shared_run _ h _ _ _ _ Hrun).
  - destruct (unix_now_ok _ (calm w) (e_clock _ _ _ _ _ He)) as (t & ts & Hnow & Ht & Hclk).
    apply unix_now_calm in Hnow. set (w1 := set_faults (set_clock (calm w) t ts) (faults w)) in *.
    unfold bind at 1, on_snd at 1. cbn [fst snd]. rewrite Hnow.
    unfold bind at 1, on_shared at 1, get_writer, gets. cbn [fst snd shared compaction_tx].
    destruct (e_clock _ _ _ _ _ He) as [Hc0 _]. rewrite as_millis_id by (cbn in *; lia).
    assert (engine sh (calm w1) front cur cmds) as He'.
    { eapply engine_quiet; [exact He|apply (quiet_clock (calm w) t ts), He|apply keeps_refl| |apply He].
      eapply clock_ok_weaken, Hclk. lia. }
    rewrite bind_outcome. unfold u64_sub. rewrite (proj2 (Z.leb_le _ _)) by lia. zcase.
    + destruct (sync_faulty_engine sh w1 front cur cmds He') as (o & sh' & w' & Hrun & Ho & Hk & He2 & Hcl & _).
      unfold bind. rewrite (on_shared_run _ {| shared := sh; compaction_tx := tx |} _ _ _ _ Hrun).
      destruct Ho as [->|[k ->]].
      * eexists (Ok tt), _, w'. split; [done|]. split; [by left|]. split.
        { eapply keeps_trans; [exact Hk|]. by split. }
        eapply engine_quiet; [exact He2|apply quiet_refl, He2|by split| |apply He2].
        apply Hcl, Hclk.
      * exists (Err (Io k)), sh', w'. split_and!; try done. right. by exists k.
    + exists (Ok tt), sh, w1. split_and!; try done. by left.
  - exists (Ok tt), sh, w. split_and!; try done. by left.
Qed.

(** ** Rotation *)

(** What a rotation leaves when its last step, the opening of the new file for
    reading, failed: the new state but for the read handle. *)
Definition half_rotated (sh0 sh : Shared) (w : World) (front : list (Z * list Command)) (next : Z) : Prop :=
  exists h t, sh = set_readers (rotated sh0 next h t) (readers sh0) /\
    engine (rotated sh0 next h t) (calm w) front next [].

Lemma rotate_to_faulty sh w front cur cmds next :
  engine sh (calm w) front cur cmds -> cur < next -> is_u64 next ->
  exists o sh' w', rotate_to next (sh, w) = (o, (sh', w')) /\ io_result o /\
    ((o <> Ok tt /\ keeps sh sh' /\ engine sh' (calm w') front cur cmds) \/
     (o = Ok tt /\ engine sh' (calm w') (front ++ [(cur, cmds)]) next []) \/
     (o <> Ok tt /\ half_rotated (flushed sh) sh' w' (front ++ [(cur, cmds)]) next)).
Proof.
  intros He Hlt Hu. unfold rotate_to.
  destruct (sync_faulty_engine sh w front cur cmds He) as (o & sh1 & w1 & Hrun & Ho & Hk & He1 & _ & Hok).
  unfold bind at 1. rewrite Hrun. destruct Ho as [->|[k ->]].
  2:{ exists (Err (Io k)), sh1, w1. split_and!; [done|right; by exists k|left]. by split_and!. }
  destruct (Hok eq_refl) as (Hdu & -> & Enext). clear Hok.
  pose proof (engine_fresh_id He1 next Hlt Hu) as Hnew. change (dir w1 !! data_file_name next = None) in Hnew.
  pose proof (d_others _ _ _ _ _ (e_disk _ _ _ _ _ He1) next) as [Hoth _].
  unfold bind at 1, on_snd at 1, open_create. cbn [fst snd].
  match goal with |- context [syscall ?c ?e w1] => destruct (syscall_cases c e w1) as [[fs ->]|(f & fs & ->)] end.
  2:{ exists (Err (Io (kind f))), (flushed sh), (set_faults w1 fs). split_and!; [done|right; by eexists|].
      left. by split_and!. }
  cbn [set_faults others dir next_inode]. rewrite decide_False by exact Hoth. rewrite Hnew.
  set (w2 := new_file (set_faults w1 fs) (data_file_name next)).
  unfold update_writer at 1, bind at 1, on_fst at 1, modify at 1. cbn [fst snd].
  destruct (unix_now_ok (last_ts_flushed (writer sh)) (calm w2)) as (t & ts & Hnow & Ht & Hclk).
  { exact (e_clock _ _ _ _ _ He1). }
  apply unix_now_calm in Hnow. unfold bind at 1, on_snd at 1. cbn [fst snd]. rewrite Hnow.
  set (w3 := set_faults (set_clock (calm w2) t ts) (faults w2)).
  unfold update_writer at 1, bind at 1, on_fst at 1, modify at 1. cbn [fst snd].
  assert (0 <= t) as Ht0 by (destruct (e_clock _ _ _ _ _ He1) as [Hc0 _]; cbn in Hc0; lia). rewrite as_millis_id by lia.
  pose proof (engine_new_file (flushed sh) (calm w1) front cur cmds next t ts He1 Hlt Hu Hdu Hclk) as He3.
  unfold bind at 1, on_snd at 1, open_read. cbn [fst snd].
  match goal with |- context [syscall ?c ?e w3] => destruct (syscall_cases c e w3) as [[fs' ->]|(f & fs' & ->)] end.
  - cbn [set_faults others dir w3 w2 set_clock calm new_file]. rewrite decide_False by exact Hoth.
    rewrite lookup_insert_eq. eexists (Ok tt), _, _. split; [done|]. split; [by left|].
    right. left. split; [done|]. exact He3.
  - eexists (Err (Io (kind f))), _, _. split; [done|]. split; [right; by eexists|].
    right. right. split; [done|]. exists (next_inode w1), t. split; [done|]. exact He3.
Qed.

(** ** After the record *)

(** The store after a write of which the record is in the log: open as usual, or
    without the read handle of the new active file. *)
Definition recorded (sh : Shared) (w : World) (front : list (Z * list Command)) (cur : Z)
  (cmds : list Command) : Prop :=
  (exists front' cur' cmds', engine sh (calm w) front' cur' cmds' /\
     same_log (front ++ [(cur, cmds)]) (front' ++ [(cur', cmds')])) \/
  (exists sh0 next, half_rotated sh0 sh w (front ++ [(cur, cmds)]) next).

Lemma rotate_if_full_faulty sh w front cur cmds :
  engine sh (calm w) front cur cmds -> current_file_id (writer sh) < u64_max ->
  exists o sh' w', rotate_if_full (sh, w) = (o, (sh', w')) /\ io_result o /\ recorded sh' w' front cur cmds.
Proof.
  intros He Hmax. unfold rotate_if_full, bind at 1 2, get_writer, get_config, gets. cbn [fst]. zcase.
  { exists (Ok tt), sh, w. split_and!; [done|by left|left]. exists front, cur, cmds. split; [done|by left]. }
  pose proof (e_cur _ _ _ _ _ He) as Hcur. pose proof (d_cur _ _ _ _ _ (e_disk _ _ _ _ _ He)) as [Hu _].
  rewrite bind_outcome. unfold u64_add. rewrite (proj2 (Z.leb_le _ _)) by lia.
  destruct (rotate_to_faulty sh w front cur cmds (current_file_id (writer sh) + 1) He)
    as (o & sh' & w' & Hrun & Ho & Hcase); [lia|ulia|].
  exists o, sh', w'. split; [done|]. split; [done|].
  destruct Hcase as [(_ & _ & He')|[(_ & He')|(_ & Hh)]].
  - left. exists front, cur, cmds. split; [done|by left].
  - left. eexists _, _, _. split; [exact He'|]. right. by eexists.
  - right. by eexists _, _.
Qed.

Lemma post_write_ops_faulty h w front cur cmds :
  engine (shared h) (calm w) front cur cmds -> current_file_id (writer (shared h)) < u64_max ->
  exists o h' w', post_write_ops (h, w) = (o, (h', w')) /\ io_result o /\
    recorded (shared h') w' front cur cmds.
Proof.
  intros He Hmax. unfold post_write_ops. mstep (compaction_trigger_run h w).
  destruct (handle_policy_faulty (signalled h) w front cur cmds He)
    as (o & sh1 & w1 & Hpol & Ho & Hk & He1).
  unfold bind. rewrite Hpol. destruct Ho as [->|[k ->]].
  2:{ eexists (Err (Io k)), _, w1. split; [done|]. split; [right; by exists k|]. left.
      exists front, cur, cmds. split; [done|by left]. }
  destruct (rotate_if_full_faulty sh1 w1 front cur cmds He1) as (o & sh2 & w2 & Hrot & Ho & Hrec).
  { by rewrite (k_cur _ _ Hk). }
  eexists o, _, w2. split; [exact (on_shared_run _ (with_shared (signalled h) sh1) _ _ _ _ Hrot)|]. done.
Qed.

(** ** The record *)

(** The write of the record fails, and part of it may be in the file. *)
Definition torn_write (sh : Shared) (w w' : World) (c : Command) : Prop :=
  exists n, calm w' = append_bytes (calm w) (file (writer sh)) (take n (Command.serialize c)).

Lemma append_record_faulty h w front cur cmds c :
  engine (shared h) (calm w) front cur cmds -> room 1 (shared h) -> good_cmd c ->
  exists o h' w', append_record c (h, w) = (o, (h', w')) /\ io_result o /\
    ((o = Ok tt /\ engine (shared h') (calm w') front cur (cmds ++ [c]) /\
      current_file_id (writer (shared h')) = current_file_id (writer (shared h))) \/
     (o <> Ok tt /\ h' = h /\ torn_write (shared h) w w' c)).
Proof.
  intros He Hr Hc.
  destruct (append_record_fits _ _ _ _ _ c He Hr Hc) as [Hs Ho].
  pose proof (syscall_cases (fun w => (Ok tt, append_bytes w (file (writer (shared h))) (Command.serialize c)))
    (fun f w => (Err (Io (kind f)), append_bytes w (file (writer (shared h))) (take (partial f) (Command.serialize c)))) w)
    as Hw. fold (file_write_all (file (writer (shared h))) (Command.serialize c)) in Hw.
  destruct Hw as [[fs Hw]|(f & fs & Hw)].
  - destruct (append_record_wrote h w _ c _ Hw (e_index _ _ _ _ _ He) Hs Ho) as (i & Hrun & Hi).
    eexists (Ok tt), _, _. split; [exact Hrun|]. split; [by left|]. left. split_and!; [done| |done].
    exact (append_record_state h front cur cmds c (calm w) i He Hr Hc Hi).
  - exists (Err (Io (kind f))), h, (append_bytes (set_faults w fs) (file (writer (shared h)))
      (take (partial f) (Command.serialize c))). split; [|split; [right; by eexists|right; split; [done|split; [done|]]]].
    + unfold append_record. unfold bind at 1, on_shared at 1, get_writer, gets. cbn [fst snd].
      unfold bind at 1, on_snd at 1. cbn [fst snd]. destruct h. cbn [shared compaction_tx] in *. by rewrite Hw.
    + by exists (partial f).
Qed.

Lemma append_faulty h w front cur cmds c :
  engine (shared h) (calm w) front cur cmds -> room 1 (shared h) -> good_cmd c ->
  exists o h' w', append c (h, w) = (o, (h', w')) /\ io_result o /\
    (recorded (shared h') w' front cur (cmds ++ [c]) \/
     (o <> Ok tt /\ h' = h /\ torn_write (shared h) w w' c)).
Proof.
  intros He Hr Hc. unfold append, with_writer_lock_b. cbn [fst]. rewrite (e_lock _ _ _ _ _ He).
  destruct (append_record_faulty h w front cur cmds c He Hr Hc) as (o & h1 & w1 & Hrun & Ho & Hcase).
  unfold bind. rewrite Hrun. destruct Hcase as [(-> & He1 & Hcur)|(Hne & -> & Htorn)].
  - destruct (post_write_ops_faulty h1 w1 front cur (cmds ++ [c]) He1) as (o & h2 & w2 & Hpost & Ho2 & Hrec).
    { destruct Hr as (_ & _ & ?). rewrite Hcur. lia. }
    exists o, h2, w2. rewrite Hpost. split_and!; [by destruct Ho2 as [->|[k ->]]|done|by left].
  - exists o, h, w1. split_and!; [by destruct Ho as [->|[k ->]]|done|]. by right.
Qed.

(** ** What is left *)

(** Reading goes on. *)
Lemma recorded_readable sh w front cur cmds :
  recorded sh w front cur cmds -> readable sh (calm w) (front ++ [(cur, cmds)]).
Proof.
  intros [(front' & cur' & cmds' & He & Hlog)|(sh0 & next & h & t & -> & He)].
  - destruct (engine_readable _ _ _ _ _ He) as [Hi Hf].
    rewrite (proj1 (same_log_state _ _ Hlog)) in Hi. split; [done|]. intros id cs Hin. apply Hf.
    destruct Hlog as [->|[i ->]]; [done|]. apply elem_of_app. by left.
  - destruct (engine_readable _ _ _ _ _ He) as [Hi Hf].
    rewrite state_of_new_file in Hi. split; [done|]. intros id cs Hin.
    destruct (Hf id cs) as [Hg (h' & tail & Hget & Hb)]; [apply elem_of_app; by left|].
    split; [done|]. exists h', tail. split; [|done].
    cbn [rotated set_readers readers] in *. rewrite btree_get_insert, decide_False in Hget; [done|].
    intros <-. pose proof (ascending_lt _ _ _ _ _ (d_ascending _ _ _ _ _ (e_disk _ _ _ _ _ He)) Hin). lia.
Qed.

(** The directory is that of an open store. *)
Lemma recorded_engine sh w front cur cmds :
  recorded sh w front cur cmds ->
  exists sh' front' cur' cmds', engine sh' (calm w) front' cur' cmds' /\
    same_log (front ++ [(cur, cmds)]) (front' ++ [(cur', cmds')]).
Proof.
  intros [(front' & cur' & cmds' & He & Hlog)|(sh0 & next & h & t & -> & He)].
  - by exists sh, front', cur', cmds'.
  - eexists _, _, _, _. split; [exact He|]. right. by exists next.
Qed.

Section open.
Context (order : list Name -> list Name) (order_perm : forall l, order l ≡ₚ l).

(** Reads of the store go on with [m1]; when the process is killed, [open] gives a
    store that stores [m2]. *)
Definition survives (h : Handle) (w : World) (m1 m2 : gmap (list byte) (list byte)) : Prop :=
  (forall fuel k, get (S fuel) k (h, calm w) = (Ok (m1 !! k), (h, calm w))) /\
  (forall c, exists hd w', Open.open order c (killed w) = (Ok hd, w') /\ stores hd w' m2).

(** Opening after the process was killed. *)
Lemma open_killed w front cur cmds tail last c :
  inodes_ok (calm w) -> marker_ok (calm w) -> clock_ok last (calm w) ->
  disk (calm w) front cur cmds tail -> tail = [] \/ torn tail ->
  total_bytes (front ++ [(cur, cmds)]) <= u64_max ->
  exists hd w', Open.open order c (killed w) = (Ok hd, w') /\
    stores hd w' (values (state_of (front ++ [(cur, cmds)]))).
Proof using order_perm.
  intros Hi Hm Hc Hd Ht Htot.
  destruct (open_engine order order_perm c (killed w) front cur cmds tail) as (hd & w' & Hopen & He & _); try done.
  - change (clock_ok 0 (calm w)). apply (clock_ok_weaken last); [destruct Hc; lia|exact Hc].
  - split; [done|]. split; [apply Hm|right]. exact Hm.
  - eapply disk_step_disk; [|exact Hd]. apply disk_step_same; try done. apply Hd.
  - exists hd, w'. split; [done|]. by exists front, cur, cmds.
Qed.

(** What a command does to the map. *)
Definition updated (m : gmap (list byte) (list byte)) (c : Command) : gmap (list byte) (list byte) :=
  match c with Set_ _ k v => <[k := v]> m | Rm _ k => delete k m end.

Lemma values_updated front cur cmds c :
  values (state_of (front ++ [(cur, cmds ++ [c])])) =
  updated (values (state_of (front ++ [(cur, cmds)]))) c.
Proof using. rewrite state_of_snoc, values_apply1. by destruct c. Qed.

Lemma recorded_survives h w front cur cmds :
  recorded (shared h) w front cur cmds -> total_bytes (front ++ [(cur, cmds)]) <= u64_max ->
  let m := values (state_of (front ++ [(cur, cmds)])) in survives h w m m.
Proof using order_perm.
  intros Hrec Htot m. split.
  - intros fuel k. by apply get_readable; [apply recorded_readable|].
  - intros c. destruct (recorded_engine _ _ _ _ _ Hrec) as (sh' & front' & cur' & cmds' & He & Hlog).
    destruct (same_log_state _ _ Hlog) as [Hst Htb]. unfold m. rewrite <- Hst.
    eapply open_killed; try apply He; [by left|lia].
Qed.

Lemma torn_survives h w w' front cur cmds c :
  engine (shared h) (calm w) front cur cmds -> good_cmd c -> torn_write (shared h) w w' c ->
  total_bytes (front ++ [(cur, cmds)]) + record_max <= u64_max ->
  let m := values (state_of (front ++ [(cur, cmds)])) in
  survives h w' m m \/ survives h w' m (updated m c).
Proof using order_perm.
  intros He Hc [n Hn] Htot m. pose proof (serialize_max c Hc) as Hlen.
  set (f := file (writer (shared h))) in *.
  assert (forall fuel k, get (S fuel) k (h, calm w') = (Ok (m !! k), (h, calm w'))) as Hget.
  { intros fuel k. apply get_readable; [|done]. eapply readable_append; [exact He|]. by rewrite Hn. }
  pose proof (disk_append _ _ _ _ _ _ (take n (Command.serialize c)) (e_disk _ _ _ _ _ He) (e_file _ _ _ _ _ He)) as Hd.
  assert (inodes_ok (calm w') /\ marker_ok (calm w') /\ clock_ok (last_ts_flushed (writer (shared h))) (calm w'))
    as (Hi & Hmk & Hck).
  { rewrite Hn. pose proof (engine_file_lt _ _ _ _ _ He). split_and!.
    - intros h'. rewrite durable_of_append, bytes_of_append. pose proof (e_inodes _ _ _ _ _ He h').
      case_decide; [|done]. blia.
    - by eapply marker_append.
    - apply He. }
  cbn [app] in Hd. fold f in Hd. rewrite <- Hn in Hd.
  destruct (decide (length (Command.serialize c) <= n)%nat) as [Hw|Hw].
  - right. split; [done|]. intros cf. unfold m. rewrite <- values_updated.
    rewrite take_ge, <- (app_nil_r (Command.serialize c)) in Hd by done.
    apply disk_take_record in Hd; [|done|].
    2:{ rewrite total_bytes_app, total_bytes_one in Htot. pose proof (total_bytes_nonneg front). ulia. }
    eapply open_killed; try done; [by left|].
    rewrite total_bytes_app, total_bytes_one in *. rewrite enc_app, enc_one, blen_app. lia.
  - left. split; [done|]. intros cf. eapply open_killed; try done; [|unfold record_max in Htot; lia].
    destruct n as [|n]; [by left|]. right. replace (take (S n) _) with (ztake (Z.of_nat (S n)) (Command.serialize c)).
    + apply torn_prefix; [apply framed_command, Hc|]. unfold blen. lia.
    + unfold ztake. by rewrite Nat2Z.id.
Qed.

(** ** The calls *)

(** The call [c], which is to change the map from [m] to [m'], does so or fails with
    an I/O error; then reads, and the next [open], find [m] or [m'], and [m'] when it
    succeeded. *)
Definition atomic (c : BM unit) (s : Handle * World) (m m' : gmap (list byte) (list byte)) : Prop :=
  exists o h w m1 m2, c s = (o, (h, w)) /\ io_result o /\ survives h w m1 m2 /\
    (m1 = m \/ m1 = m') /\ (m2 = m \/ m2 = m') /\ (o = Ok tt -> m1 = m' /\ m2 = m').

Lemma append_atomic h w front cur cmds c :
  let m := values (state_of (front ++ [(cur, cmds)])) in
  engine (shared h) (calm w) front cur cmds -> room 1 (shared h) -> good_cmd c ->
  total_bytes (front ++ [(cur, cmds)]) + record_max <= u64_max ->
  atomic (append c) (h, w) m (updated m c).
Proof using order_perm.
  intros m He Hr Hc Htot.
  destruct (append_faulty h w front cur cmds c He Hr Hc) as (o & h' & w' & Hrun & Ho & [Hrec|(Hne & -> & Ht)]).
  - exists o, h', w', (updated m c), (updated m c). unfold m. rewrite <- values_updated.
    split_and!; try done; [|by right|by right]. apply recorded_survives; [done|].
    rewrite total_bytes_app, total_bytes_one in *. rewrite enc_app, enc_one, blen_app.
    pose proof (serialize_max c Hc). lia.
  - destruct (torn_survives h w w' front cur cmds c He Hc Ht Htot) as [Hs|Hs];
      eexists o, h, w', _, _; split_and!; try done; first [by left|by right].
Qed.

(** Reading the clock before a write. *)
Lemma clock_atomic h w front cur cmds mk m' :
  let m := values (state_of (front ++ [(cur, cmds)])) in
  engine (shared h) (calm w) front cur cmds -> room 1 (shared h) ->
  (forall ts, is_u64 ts -> good_cmd (mk ts)) -> (forall ts, updated m (mk ts) = m') ->
  total_bytes (front ++ [(cur, cmds)]) + record_max <= u64_max ->
  atomic (let! now := on_snd unix_now in append (mk (as_secs now))) (h, w) m m'.
Proof using order_perm.
  intros m He Hr Hg Hm Htot. destruct (engine_clock _ _ _ _ _ He) as (t & ts & Hnow & Hts & He1).
  apply unix_now_calm in Hnow. rewrite <- (Hm (as_secs t)).
  destruct (append_atomic h (set_faults (set_clock (calm w) t ts) (faults w)) front cur cmds (mk (as_secs t)))
    as (o & h' & w' & m1 & m2 & Hrun & H); [exact He1|done|by apply Hg|done|].
  exists o, h', w', m1, m2. split; [|exact H]. unfold bind, on_snd. cbn [fst snd]. by rewrite Hnow.
Qed.

(** C21. [set] under any I/O errors: whatever the schedule of faults does to its
    system calls, [set] returns [Ok] or the error of one of them, never panics, and
    is all or nothing: reads go on with the old map or with the new one, and when
    the process is killed then, the next [open] succeeds with the old map or the new
    one; both have the new one when [set] returned [Ok]. *)
Theorem set_any_fault h w front cur cmds k v :
  let m := values (state_of (front ++ [(cur, cmds)])) in
  engine (shared h) (calm w) front cur cmds -> room 1 (shared h) -> fits k v ->
  total_bytes (front ++ [(cur, cmds)]) + record_max <= u64_max ->
  atomic (set_ k v) (h, w) m (<[k := v]> m).
Proof using order_perm.
  intros m He Hr Hfit Htot. apply (clock_atomic h w front cur cmds (fun ts => Set_ ts k v)); try done.
  intros ts Hts. by apply good_set.
Qed.

(** The same of [remove]. *)
Theorem remove_any_fault h w front cur cmds k :
  let m := values (state_of (front ++ [(cur, cmds)])) in
  engine (shared h) (calm w) front cur cmds -> room 1 (shared h) -> is_Some (m !! k) ->
  total_bytes (front ++ [(cur, cmds)]) + record_max <= u64_max ->
  atomic (remove k) (h, w) m (delete k m).
Proof using order_perm.
  intros m He Hr Hk Htot. unfold m in Hk. rewrite values_lookup, fmap_is_Some in Hk.
  destruct (clock_atomic h w front cur cmds (fun ts => Rm ts k) (delete k m))
    as (o & h' & w' & m1 & m2 & Hrun & H); try done.
  { intros ts Hts. apply good_rm; [done|]. by eapply stored_key_fits. }
  exists o, h', w', m1, m2. split; [|exact H].
  rewrite (remove_split h w _ k (e_index _ _ _ _ _ He)), places_lookup.
  destruct Hk as [e ->]. exact Hrun.
Qed.

(** What [get] makes of the bytes it has read. *)
Definition decoded (buf : list byte) : outcome (option (option (list byte))) :=
  match Command.deserialize buf with
  | Ok d =>
      match Command.get_value (fst d) with
      | None => Ok (Some None)
      | Some value =>
          match u64_sub (blen buf) (blen value) with
          | Ok n => match from_utf8 (zdrop n buf) with
                    | Ok v => Ok (Some (Some v)) | Err e => Err e | Panic => Panic
                    end
          | Err e => Err e
          | Panic => Panic
          end
      end
  | Err e => Err e
  | Panic => Panic
  end.

Lemma get_read_run h w e f o w1 :
  BTreeMap.get (IndexValue.file_id e) (readers (shared h)) = Some f ->
  read_exact_at f (IndexValue.len e) (IndexValue.offset e) w = (o, w1) ->
  get_read e (h, w) = (match o with Ok buf => decoded buf | Err x => Err x | Panic => Panic end, (h, w1)).
Proof using.
  intros Hf Hr. unfold get_read, bind at 1, gets. cbn [fst]. rewrite Hf.
  unfold bind at 1, on_snd. cbn [fst snd]. rewrite Hr. destruct o as [buf|x|]; [|done|done].
  rewrite bind_outcome. unfold decoded. destruct (Command.deserialize buf) as [d|x|]; [|done|done].
  destruct (Command.get_value (fst d)) as [value|]; [|done]. rewrite bind_outcome.
  destruct (u64_sub _ _) as [n|x|]; [|done|done]. rewrite bind_outcome.
  by destruct (from_utf8 _).
Qed.

(** [get] under any I/O errors returns the value of the key, or the error of the
    read; it never returns another value and changes nothing. *)
Theorem get_any_fault h w m k fuel :
  stores h (calm w) m ->
  exists o w', get (S fuel) k (h, w) = (o, (h, w')) /\ calm w' = calm w /\
    (o = Ok (m !! k) \/ exists e, o = Err (Io e)).
Proof using.
  intros (front & cur & cmds & He & <-). cbn [get]. unfold get_once.
  rewrite bind_assoc, (bind_ok _ _ _ _ _ (get_index_run h w _ k (e_index _ _ _ _ _ He))), places_lookup, values_lookup.
  destruct (state_of _ !! k) as [[e v]|] eqn:Est; cbn [fmap option_fmap option_map fst snd].
  2:{ exists (Ok None), w. split_and!; [done|done|by left]. }
  assert (held (shared h) (calm w) k e v) as Hh.
  { eapply entry_held; [apply (engine_readable _ _ _ _ _ He)|]. by apply state_of_entry_in. }
  pose proof (get_read_held h (calm w) k e v Hh eq_refl) as Hread.
  destruct Hh as (f & ts & pre & post & Hf & _).
  destruct (read_exact_at f (IndexValue.len e) (IndexValue.offset e) (calm w)) as [o1 w1] eqn:Er.
  rewrite (get_read_run h (calm w) e f o1 w1 Hf Er) in Hread. injection Hread as Ho ->.
  unfold read_exact_at in Er |- *. unfold bind.
  destruct (syscall_cases (fun w => if IndexValue.offset e + IndexValue.len e <=? blen (bytes_of w f)
    then (Ok (slice (bytes_of w f) (IndexValue.offset e) (IndexValue.offset e + IndexValue.len e)), w)
    else (Err (Io UnexpectedEof), w)) fails w) as [[fs E]|(ft & fs & E)].
  - rewrite syscall_calm in Er by done.
    rewrite (get_read_run h w e f o1 (set_faults w fs) Hf).
    2:{ unfold read_exact_at. rewrite E. change (bytes_of (calm w) f) with (bytes_of w f) in Er.
        change (bytes_of (set_faults w fs) f) with (bytes_of w f). destruct (_ <=? _); by injection Er as <-. }
    rewrite Ho. exists (Ok (Some v)), (set_faults w fs). split_and!; [done|done|by left].
  - rewrite (get_read_run h w e f _ _ Hf E). exists (Err (Io (kind ft))), (set_faults w fs).
    split_and!; [done|done|]. right. by eexists.
Qed.

End open.
End faults.

(** ** A concrete failure *)

(** The record is written; the sync that the policy asks for fails. *)
Definition sync_fails : World := set_faults fresh_world [None; Some {| kind := Other; partial := 0 |}].

Lemma set_any_fault_witness :
  fst (set_ (Crc := crc32_ieee) (lit "k") (lit "v") (fresh_handle sample_config, sync_fails)) = Err (Io Other) /\
  atomic (Crc := crc32_ieee) (fun l => l) (set_ (Crc := crc32_ieee) (lit "k") (lit "v"))
    (fresh_handle sample_config, sync_fails) ∅ (<[lit "k" := lit "v"]> ∅).
Proof.
  split; [vm_compute; reflexivity|].
  apply (set_any_fault (Crc := crc32_ieee) (fun l => l) (fun l => reflexivity l) (fresh_handle sample_config)
    sync_fails [] 1 [] (lit "k") (lit "v")).
  - apply fresh_engine.
  - apply fresh_room. lia.
  - vm_compute. intuition discriminate.
  - vm_compute. discriminate.
Defined.
