(* ===== verification/FirstOpen.v ===== *)
(** * Opening a directory for the first time

    [Bitcask::open] on a directory without data files, new or with the leftovers
    of something else in it: it makes the first data file and gives an empty
    store. *)

From Stdlib Require Import ZArith Lia Strings.Byte.
From stdpp Require Import base numbers list strings gmap.
From S2P Require Import Prelude Bytes Crc CommandFormat HintFormat Streams Reader KeyDir Text Names Config FileSystem Lock BTree Engine Load Merge Log Inv EngineProofs Replay Recovery Durability.
Import Command(Command, Set_, Rm).
Import Open.

Local Open Scope Z_scope.

Lemma compact_file_name_utf8 id :
  is_u64 id -> utf8_valid (data_file_name_compaction id) = true.
Proof.
  intros [Hid _]. apply utf8_valid_ascii. unfold data_file_name_compaction, data_file_name.
  rewrite <- app_assoc. apply Forall_app. split; [|by repeat constructor].
  eapply Forall_impl; [by apply show_u64_06_digits|].
  intros x Hx. unfold is_digit, in_range in Hx. lia.
Qed.

Section first_open.
Context `{Crc : Crc32}.

(** A directory without data files, whose subdirectories do not have the store's
    names. *)
Record no_store (w : World) : Prop := {
  ns_dir : dir_ok w;
  ns_data : forall name h, dir w !! name = Some h -> get_file_id name = None;
  ns_others : forall id, (data_file_name id ∉ others w) /\ (hint_file_name id ∉ others w) /\
              (data_file_name_compaction id ∉ others w)
}.

Lemma locked_dir_ok w : dir_ok w -> dir_ok (locked w).
Proof.
  intros Hd. pose proof (ds_dir _ _ (with_lock_file_step w Hd)) as H1.
  assert (dir_ok (set_flock (with_lock_file w) true)) as H2 by (destruct H1; by split).
  unfold locked. case_decide; [|done]. apply (ds_dir (set_flock (with_lock_file w) true)).
  apply stamped_step; [done|]. cbn [dir set_flock]. rewrite with_lock_file_dir. f_equal.
  symmetry. apply (lock_handle_with w).
Qed.

Lemma no_store_locked w : inodes_ok w -> no_store w -> no_store (locked w).
Proof.
  intros Hi [Hd Hn Ho]. destruct (locked_same w Hi) as (_ & _ & _ & _ & _ & Eo & Hdir).
  split; [by apply locked_dir_ok| |by rewrite Eo].
  intros n h [Hh| ->]%Hdir; [by eapply Hn|apply lock_neutral].
Qed.

Lemma no_store_data w id : is_u64 id -> no_store w -> dir w !! data_file_name id = None.
Proof.
  intros Hid Hn. destruct (dir w !! data_file_name id) as [h|] eqn:E; [|done].
  apply (ns_data _ Hn) in E. by rewrite get_file_id_data in E.
Qed.

Lemma found_nothing w found names : no_store w -> foldl (found_step w) found names = found.
Proof.
  intros Hn. induction names as [|n names IH]; [done|]. cbn [foldl]. rewrite <- IH at 2. f_equal.
  unfold found_step. destruct (dir w !! n) as [h|] eqn:E; [|done]. by rewrite (ns_data _ Hn _ _ E).
Qed.

(** Everything an unfinished merge may have left is a leftover here. *)
Lemma no_store_leftover w n id :
  no_store w -> is_u64 id -> n = hint_file_name id \/ n = data_file_name_compaction id ->
  leftover w n = true.
Proof.
  intros Hn Hid [->| ->]; unfold leftover.
  - rewrite hint_file_name_utf8, get_file_id_hint, hint_not_compact, get_hint_id_hint by done.
    rewrite no_store_data by done. rewrite bool_decide_eq_false_2 by by intros [? ?].
    by rewrite bool_decide_eq_false_2 by apply (ns_others _ Hn).
  - by rewrite compact_file_name_utf8, get_file_id_compact, compact_ends_with.
Qed.

Lemma first_disk w w2 names :
  no_store w -> cleaned w w2 names -> (forall n, is_Some (dir w !! n) -> n ∈ names) ->
  disk (new_file w2 (data_file_name 1)) [] 1 [] [].
Proof.
  intros Hn Hcl Hall. destruct Hcl as [E2 Hd2].
  assert (forall n h, dir w2 !! n = Some h -> dir w !! n = Some h /\ leftover w n = false) as Hold.
  { intros n h Hh. rewrite Hd2 in Hh. case_decide as Hx; [done|]. split; [done|].
    destruct (leftover w n); [|done]. destruct Hx. split; [|done]. apply Hall. by rewrite Hh. }
  assert (dir_ok w2) as Hok by (by eapply ds_dir, cleaned_step; [apply Hn|split]).
  assert (is_u64 1) as Hu by done.
  assert (dir w2 !! data_file_name 1 = None) as Hnew.
  { rewrite Hd2. case_decide; [done|]. by apply no_store_data. }
  assert (forall id h, is_u64 id -> dir (new_file w2 (data_file_name 1)) !! hint_file_name id = Some h ->
    False) as Hh.
  { intros id h Hid. cbn [dir new_file]. rewrite lookup_insert_ne by apply data_ne_hint.
    intros [_ Hl]%Hold. rewrite (no_store_leftover w _ id) in Hl; [done|done|done|by left]. }
  split; try done.
  - intros id cs Hin. by apply not_elem_of_nil in Hin.
  - exists (next_inode w2). cbn [dir new_file]. by rewrite lookup_insert_eq, bytes_of_new_file_eq.
  - intros name h id. cbn [dir new_file]. rewrite lookup_insert. case_decide as E.
    + subst name. intros _. rewrite get_file_id_data by done. intros [= <-]. by split; [|left].
    + intros [Hh' _]%Hold Hid. by rewrite (ns_data _ Hn _ _ Hh') in Hid.
  - intros id h Hid Hx. by destruct (Hh id h Hid Hx).
  - intros id h Hid. cbn [dir new_file]. rewrite lookup_insert_ne by apply data_ne_compact.
    intros [_ Hl]%Hold. rewrite (no_store_leftover w _ id) in Hl; [done|done|done|by right].
  - by apply dir_ok_new_file.
  - rewrite E2. apply (ns_others _ Hn).
Qed.

Context (order : list Name -> list Name) (order_perm : forall l, order l ≡ₚ l).

(** The first open, in detail. *)
Lemma open_first c w :
  faults w = [] -> inodes_ok w -> clock_ok 0 w -> lock_free w -> no_store w ->
  exists hd w' w3, open order c w = (Ok hd, w') /\ engine (Bitcask.shared hd) w' [] 1 [] /\
    opened c {| LockFile.file := lock_handle w |} hd w3 w' [(1, [])] /\ flock w' = true.
Proof using order_perm.
  intros Hc Hi Hclk Hlock Hn. destruct (locked_same w Hi) as (Hc1 & Hck & Htk & Hfl & Hi1 & _).
  rewrite Hc in Hc1. pose proof (no_store_locked w Hi Hn) as Hn1.
  destruct (read_dir_run order order_perm (locked w) Hc1) as (names & Hrd & Hall).
  destruct (scan_dir_run names ([], None) (locked w) Hc1) as (w2 & Hscan & Hclean).
  { intros n h id Hh Hid. by rewrite (ns_data _ Hn1 _ _ Hh) in Hid. }
  rewrite found_nothing in Hscan by done.
  pose proof (first_disk (locked w) w2 names Hn1 Hclean ltac:(intros n ?; apply Hall; by left)) as Hd.
  set (w3 := new_file w2 (data_file_name 1)) in *. destruct Hclean as [E2 Hd2].
  assert (faults w2 = []) as Hc2 by by rewrite E2.
  assert (dir w2 !! data_file_name 1 = None) as Hnew.
  { rewrite Hd2. case_decide; [done|]. by apply no_store_data. }
  assert (data_file_name 1 ∉ others w2) as Hno by (rewrite E2; apply (ns_others _ Hn1)).
  assert (load c {| LockFile.file := lock_handle w |} [] 1 w2 =
          load c {| LockFile.file := lock_handle w |} [] 1 w3) as Eload.
  { unfold load. rewrite (bind_ok _ _ _ _ _ (open_create_new w2 Hc2 _ Hno Hnew)). fold w3.
    by rewrite (bind_ok _ _ _ _ _ (open_create_old w3 Hc2 _ (next_inode w2) Hno (lookup_insert_eq _ _ _))). }
  destruct (load_engine c {| LockFile.file := lock_handle w |} [] 1 w3 [] [] [] (next_inode w2))
    as (hd & w' & Hload & He & Hop); try done.
  { by left. }
  { apply inodes_ok_new_file. by rewrite E2. }
  { unfold w3, clock_ok. cbn. rewrite E2. cbn. unfold clock_ok in Hclk. by rewrite Hck, Htk. }
  { apply (marker_ok_step (locked w)); [by apply locked_marker|by unfold w3; rewrite E2|].
    intros k Hk. assert (dir w2 !! LockFile.LOCK_FILE_NAME = Some k) as Hk2.
    { rewrite Hd2, decide_False; [done|]. by intros [_ Hlo]. }
    unfold w3. destruct (new_file_bytes w2 (data_file_name 1) _ _ ltac:(eapply ds_dir, cleaned_step;
      [apply Hn1|by split]) Hk2) as [-> ->]. rewrite E2. split; [|done].
    cbn [dir new_file]. rewrite lookup_insert_ne; [by rewrite E2 in Hk2|].
    intros E. apply (data_not_neutral 1 ltac:(done)). rewrite E. apply lock_neutral. }
  { apply lookup_insert_eq. }
  { unfold handles. cbn. by rewrite lookup_insert_eq. }
  exists hd, w', w3. split_and!; try done.
  - unfold open, create_dir_all, bind at 1. rewrite syscall_calm by done. unfold ret at 1.
    rewrite (bind_ok _ _ _ _ _ (acquire_locked w Hc Hlock)). unfold mcatch, open_locked.
    rewrite (bind_ok _ _ _ _ _ Hrd), (bind_ok _ _ _ _ _ Hscan), Eload, Hload. done.
  - rewrite (o_flock _ _ _ _ _ _ Hop). unfold w3. cbn. by rewrite E2.
Qed.

(** C5. The first open: on a directory without data files, new or with leftovers
    of a merge in it, [open] deletes the leftovers, creates 000001.data, stamps
    and takes the lock file, and gives an empty store with room for [2 ^ 30]
    writes. *)
Theorem open_new c w :
  faults w = [] -> inodes_ok w -> clock_ok 0 w -> lock_free w -> no_store w ->
  exists hd w', open order c w = (Ok hd, w') /\ stores hd w' ∅ /\
    Shared.config (Bitcask.shared hd) = c /\ flock w' = true /\ marker_ok w' /\
    room (2 ^ 30) (Bitcask.shared hd) /\
    dir w' !! data_file_name 1 = Some (file (Shared.writer (Bitcask.shared hd))) /\
    (forall id, 1 <= id -> is_u64 id -> dir w' !! hint_file_name id = None /\
       dir w' !! data_file_name_compaction id = None).
Proof using order_perm.
  intros Hc Hi Hclk Hlock Hn.
  destruct (open_first c w Hc Hi Hclk Hlock Hn) as (hd & w' & w3 & Hrun & He & Hop & Hfl).
  exists hd, w'. split_and!; [done|by exists [], 1, []|apply Hop|done|..].
  - apply He.
  - eapply (opened_room (2 ^ 30)); [done|exact He|exact Hop|done|done].
  - apply (e_file _ _ _ _ _ He).
  - intros id Hle Hid. pose proof (e_disk _ _ _ _ _ He) as Hd'.
    split; apply eq_None_not_Some; intros [h Hh].
    + pose proof (d_hints _ _ _ _ _ Hd' id h Hid Hh). lia.
    + pose proof (d_compacts _ _ _ _ _ Hd' id h Hid Hh). lia.
Qed.

End first_open.

(** An empty directory. *)
Lemma empty_no_store : no_store empty_world.
Proof. split; [by split|done|]. intros id. by split_and!; apply not_elem_of_nil. Qed.

Lemma open_new_witness :
  exists hd w', open (Crc := crc32_ieee) (fun l => l) sample_config empty_world = (Ok hd, w') /\
    stores (Crc := crc32_ieee) hd w' ∅.
Proof.
  destruct (open_new (Crc := crc32_ieee) (fun l => l) (fun l => reflexivity l) sample_config empty_world)
    as (hd & w' & Hrun & Hst & _).
  - reflexivity.
  - intros h. by vm_compute.
  - vm_compute. intuition discriminate.
  - split; [reflexivity|]. split; [apply not_elem_of_nil|by left].
  - apply empty_no_store.
  - exists hd, w'. split; [exact Hrun|exact Hst].
Defined.
