(* ===== verification/MergeFiles.v ===== *)
(** * What the merge does to the files

    The steps of a merge as changes of the store directory, each with the reason
    why the open store stays well formed: writing to files beside the log,
    publishing a finished output as a new file of the log, and deleting the
    first file of the log once nothing in it is live. *)

From Stdlib Require Import ZArith Lia Strings.Byte.
From stdpp Require Import base numbers list strings gmap.
From S2P Require Import Prelude Bytes Crc CommandFormat HintFormat Streams Reader KeyDir Text Names Config FileSystem Lock BTree Engine Load Merge Log Inv EngineProofs Replay.
Import Command(Command, Set_, Rm).
Import Shared.

Local Open Scope Z_scope.

Lemma compact_file_name_inj id id' :
  is_u64 id -> is_u64 id' -> data_file_name_compaction id = data_file_name_compaction id' -> id = id'.
Proof. intros H H' E. apply app_inv_tail in E. by apply data_file_name_inj. Qed.

Section files.
Context `{Crc : Crc32}.

(** ** Files beside the log *)

(** Only the bytes of the file [f], or how many of them are on stable storage,
    changed. *)
Record side_write (f : File) (w w' : World) : Prop := {
  sw_dir : dir w' = dir w;
  sw_others : others w' = others w;
  sw_next : next_inode w' = next_inode w;
  sw_clock : clock w' = clock w /\ ticks w' = ticks w;
  sw_faults : faults w' = faults w;
  sw_same : forall h, h <> f -> bytes_of w' h = bytes_of w h /\ durable_of w' h = durable_of w h;
  sw_inodes : inodes_ok w -> inodes_ok w'
}.

Lemma side_write_refl f w : side_write f w w.
Proof. by split. Qed.

Lemma side_write_trans f w1 w2 w3 : side_write f w1 w2 -> side_write f w2 w3 -> side_write f w1 w3.
Proof.
  intros [H1 H2 H3 [H4 H4'] H5 H6 H7] [G1 G2 G3 [G4 G4'] G5 G6 G7].
  split; try congruence; [split; congruence| |auto].
  intros h Hh. destruct (H6 h Hh) as [<- <-]. auto.
Qed.

Lemma side_write_append f w bs : side_write f w (append_bytes w f bs).
Proof.
  split; try done.
  - intros h Hh. by rewrite bytes_of_append, durable_of_append, decide_False by done.
  - intros Hi h. rewrite bytes_of_append, durable_of_append. specialize (Hi h).
    case_decide; [|done]. rewrite blen_app. pose proof (blen_nonneg bs). lia.
Qed.

Lemma bytes_synced w f h : bytes_of (synced w f) h = bytes_of w h.
Proof. unfold synced. rewrite bytes_of_set_inode. by case_decide; subst. Qed.

Lemma side_write_synced f w : side_write f w (synced w f).
Proof.
  split; try done.
  - intros h Hh. unfold synced. by rewrite bytes_of_set_inode, durable_of_set_inode, !decide_False by done.
  - intros Hi. by apply quiet_synced.
Qed.

(** Names of files that are not part of the log [fs]: merge outputs, and hint
    files of ids that are not in it. *)
Definition beside (fs : list (Z * list Command)) (n : Name) : Prop :=
  exists id, is_u64 id /\
    (n = data_file_name_compaction id \/ (n = hint_file_name id /\ id ∉ fs.*1)).

Lemma beside_not_data fs n id : beside fs n -> n <> data_file_name id.
Proof.
  intros (i & _ & [->|[-> _]]) E; symmetry in E; [by apply data_ne_compact in E|].
  by apply data_ne_hint in E.
Qed.

Lemma beside_not_hint fs n id cs : beside fs n -> is_u64 id -> (id, cs) ∈ fs -> n <> hint_file_name id.
Proof.
  intros (i & Hi & [->|[-> Hn]]) Hid Hin E; [symmetry in E; by apply hint_ne_compact in E|].
  apply hint_file_name_inj in E; [|done|done]. subst i. apply Hn.
  by apply (list_elem_of_fmap_2 fst fs (id, cs)).
Qed.

Lemma beside_not_lock fs n : beside fs n -> n <> LockFile.LOCK_FILE_NAME.
Proof.
  intros (i & Hi & [->|[-> _]]) E.
  - apply (compact_not_neutral i Hi). rewrite E. apply lock_neutral.
  - apply (hint_not_neutral i Hi). rewrite E. apply lock_neutral.
Qed.

Lemma engine_side_write sh w w' front cur cmds n f :
  engine sh w front cur cmds -> dir w !! n = Some f -> beside front n -> side_write f w w' ->
  engine sh w' front cur cmds.
Proof.
  intros He Hn Hb Hw. destruct Hw as [W1 W2 W3 [W4 W4'] W5 W6 W7].
  pose proof (e_disk _ _ _ _ _ He) as Hd. destruct (d_dir _ _ _ _ _ Hd) as [Hl Hf].
  assert (forall n' h, n' <> n -> dir w !! n' = Some h ->
    bytes_of w' h = bytes_of w h /\ durable_of w' h = durable_of w h) as Hsame.
  { intros n' h Hne Hh. apply W6. intros ->. apply Hne. by eapply Hl. }
  destruct He, Hd. split; try done.
  - by rewrite W5.
  - unfold clock_ok. by rewrite W4, W4'.
  - by apply W7.
  - eapply marker_ok_step; [done|done|]. intros h Hh. rewrite W1. split; [done|].
    destruct (Hsame _ _ ltac:(symmetry; by apply (beside_not_lock front)) Hh) as [-> ->]. done.
  - split; try done.
    + intros id cs Hin. destruct (d_sealed id cs Hin) as [S1 S2 S3 (h & Sd & Sb & Sdu) S5].
      split; try done; rewrite W1.
      * exists h. destruct (Hsame (data_file_name id) h) as [-> ->];
          [apply not_eq_sym; by apply (beside_not_data front)|done|done].
      * intros h' Hh'. destruct (Hsame (hint_file_name id) h') as [-> ->];
          [apply not_eq_sym; by eapply beside_not_hint|done|by apply S5].
    + destruct d_active as (h & Ha & Hab). exists h. rewrite W1.
      destruct (Hsame (data_file_name cur) h) as [-> _];
        [apply not_eq_sym; by apply (beside_not_data front)|done|done].
    + by rewrite W1.
    + by rewrite W1.
    + by rewrite W1.
    + split; rewrite W1; [done|]. by rewrite W3.
    + by rewrite W2.
  - by rewrite W1.
  - destruct (Hsame (data_file_name cur) _ ltac:(apply not_eq_sym; by apply (beside_not_data front))
      e_file) as [_ ->]. done.
  - intros id h. rewrite W1, W3. apply e_readers.
  - intros id cs. rewrite W1. apply e_covered.
Qed.

(** Creating such a file. *)
Lemma engine_side_create sh w front cur cmds n id :
  engine sh w front cur cmds -> dir w !! n = None -> is_u64 id -> id < cur ->
  (n = data_file_name_compaction id \/ (n = hint_file_name id /\ id ∉ front.*1)) ->
  engine sh (new_file w n) front cur cmds.
Proof.
  intros He Hn Hid Hlt Hnm. assert (beside front n) as Hb by by exists id.
  pose proof (e_disk _ _ _ _ _ He) as Hd. pose proof (d_dir _ _ _ _ _ Hd) as Hdir.
  assert (~ neutral n) as Hnn.
  { destruct Hnm as [->|[-> _]]; [by apply compact_not_neutral|by apply hint_not_neutral]. }
  assert (forall i, dir (new_file w n) !! data_file_name i = dir w !! data_file_name i) as Hdata.
  { intros i. apply lookup_insert_ne. by apply (beside_not_data front). }
  destruct He, Hd. split; try done.
  - by apply inodes_ok_new_file.
  - pose proof (marker_ok_new_file w n (clock w) (ticks w) Hdir Hnn e_marker) as Hm. exact Hm.
  - split; try done.
    + intros i cs Hin. destruct (d_sealed i cs Hin) as [S1 S2 S3 (h & Sd & Sb & Sdu) S5].
      split; try done.
      * exists h. rewrite Hdata. by destruct (new_file_bytes w n _ _ Hdir Sd) as [-> ->].
      * intros h'. cbn [dir new_file]. rewrite lookup_insert_ne by (by eapply beside_not_hint).
        intros Hh'. destruct (new_file_bytes w n _ _ Hdir Hh') as [-> ->]. by apply S5.
    + destruct d_active as (h & Ha & Hab). exists h. rewrite Hdata.
      by destruct (new_file_bytes w n _ _ Hdir Ha) as [-> _].
    + intros name h i. cbn [dir new_file]. rewrite lookup_insert. case_decide as E; [|apply d_only].
      subst name. intros _. destruct Hnm as [->|[-> _]];
        [by rewrite get_file_id_compact|by rewrite get_file_id_hint].
    + intros i h Hi. cbn [dir new_file]. rewrite lookup_insert. case_decide as E; [|by apply d_hints].
      intros _. destruct Hnm as [->|[-> _]]; [symmetry in E; by apply hint_ne_compact in E|].
      apply hint_file_name_inj in E; [lia|done|done].
    + intros i h Hi. cbn [dir new_file]. rewrite lookup_insert. case_decide as E; [|by apply d_compacts].
      intros _. destruct Hnm as [->|[-> _]]; [|by apply hint_ne_compact in E].
      apply compact_file_name_inj in E; [lia|done|done].
    + by apply dir_ok_new_file.
  - by rewrite Hdata.
  - destruct (new_file_bytes w n _ _ Hdir e_file) as [_ ->]. done.
  - intros i h Hin. destruct (e_readers i h Hin) as (H1 & H2 & H3 & H4).
    split_and!; try done; [cbn; lia|]. intros n'. cbn [dir new_file]. rewrite lookup_insert.
    case_decide; [intros [= E]; lia|apply H4].
  - intros i cs. rewrite Hdata. apply e_covered.
Qed.

(** ** Buffered writers *)

(** What a writer has taken so far: the bytes in its file and in its buffer. *)
Definition taken (b : BufWriter.BufWriter) (w : World) : list byte :=
  bytes_of w (BufWriter.file b) ++ BufWriter.buffer b.

Lemma flush_run b w :
  faults w = [] ->
  exists w', BufWriter.flush (b, w) =
      (Ok tt, ({| BufWriter.file := BufWriter.file b; BufWriter.buffer := [] |}, w')) /\
    side_write (BufWriter.file b) w w' /\ bytes_of w' (BufWriter.file b) = taken b w.
Proof.
  intros Hc. destruct b as [f buf]. unfold BufWriter.flush, taken. cbn [BufWriter.file BufWriter.buffer].
  destruct buf as [|x buf].
  { exists w. rewrite app_nil_r. split_and!; try done. }
  rewrite file_write_all_calm by done. exists (append_bytes w f (x :: buf)).
  rewrite bytes_of_append, decide_True by done. split; [|split; [apply side_write_append|done]].
  repeat f_equal. rewrite blen_app. unfold zdrop, blen. apply drop_ge. cbn [length]. lia.
Qed.

Lemma push_run b w bs :
  BufWriter.push bs (b, w) =
  (Ok tt, ({| BufWriter.file := BufWriter.file b; BufWriter.buffer := BufWriter.buffer b ++ bs |}, w)).
Proof. done. Qed.

Lemma write_all_run b w bs :
  faults w = [] ->
  exists b' w', BufWriter.write_all bs (b, w) = (Ok tt, (b', w')) /\
    BufWriter.file b' = BufWriter.file b /\ side_write (BufWriter.file b) w w' /\
    taken b' w' = taken b w ++ bs.
Proof.
  intros Hc. unfold BufWriter.write_all. unfold bind at 1, gets. cbn [fst].
  destruct (Z.ltb_spec (blen bs) (BufWriter.CAPACITY - blen (BufWriter.buffer b))).
  { rewrite push_run. eexists _, w. split; [done|]. split_and!; [done|apply side_write_refl|].
    unfold taken. cbn. by rewrite app_assoc. }
  destruct (flush_run b w Hc) as (w1 & Hfl & Hs1 & Hb1).
  assert (exists b1 w1', (if BufWriter.CAPACITY - blen (BufWriter.buffer b) <? blen bs
      then BufWriter.flush else ret tt) (b, w) = (Ok tt, (b1, w1')) /\
    BufWriter.file b1 = BufWriter.file b /\ side_write (BufWriter.file b) w w1' /\
    taken b1 w1' = taken b w /\
    (BufWriter.CAPACITY <= blen bs -> BufWriter.buffer b1 = [])) as (b1 & w1' & Hif & Hf1 & Hs & Ht & Hemp).
  { zcase; [eexists _, w1; split; [exact Hfl|]|exists b, w; split; [done|]]; split_and!; try done.
    - unfold taken at 1. cbn. by rewrite app_nil_r.
    - intros Hx. apply blen_0_nil. pose proof (blen_nonneg (BufWriter.buffer b)). lia. }
  mstep Hif. zcase.
  - unfold on_snd. cbn [fst snd]. rewrite <- Hf1, file_write_all_calm by (by rewrite (sw_faults _ _ _ Hs)).
    eexists b1, _. split; [done|]. split_and!; [done| |].
    + rewrite Hf1. eapply side_write_trans; [exact Hs|]. apply side_write_append.
    + unfold taken at 1. rewrite bytes_of_append, decide_True, Hemp, app_nil_r by done.
      rewrite <- Ht. unfold taken. by rewrite Hemp, app_nil_r.
  - rewrite push_run. eexists _, w1'. split; [done|]. split_and!; [done|done|].
    rewrite <- Ht. unfold taken. cbn. by rewrite app_assoc.
Qed.

(** ** Publishing an output *)

Lemma ascending_insert (A B : list (Z * list Command)) oid oc :
  ascending (A ++ B) -> (forall id cs, (id, cs) ∈ A -> id < oid) ->
  (forall id cs, (id, cs) ∈ B -> oid < id) -> ascending ((A ++ [(oid, oc)]) ++ B).
Proof.
  intros H HA HB. apply btree_ok_from in H as [lo H].
  apply (sorted_from_ok (Z.min lo (oid - 1))).
  assert (Z.min lo (oid - 1) < oid) as Hlo by lia.
  assert (sorted_from (Z.min lo (oid - 1)) (A ++ B)) as H'
    by (eapply sorted_from_weaken; [|exact H]; lia).
  clear H. revert Hlo H'. generalize (Z.min lo (oid - 1)).
  induction A as [|[i c] A IH]; intros l Hlo Hs; cbn [app sorted_from] in *.
  - split; [done|]. destruct B as [|[j d] B]; [done|]. destruct Hs as [_ Hs]. split; [|done].
    apply (HB j d). left.
  - destruct Hs as [H1 H2]. split; [done|]. apply IH; [|by eapply HA; left|done].
    intros id cs Hin. eapply HA. by right.
Qed.

(** Files of a log with one more file in the middle. *)
Lemma elem_of_insert_mid {A} (x y : A) (l1 l2 : list A) :
  x ∈ (l1 ++ [y]) ++ l2 <-> x = y \/ x ∈ l1 ++ l2.
Proof. rewrite !elem_of_app, list_elem_of_singleton. tauto. Qed.

(** The directory after the rename. *)
Definition published (w : World) (oid : Z) (hd : File) : World :=
  set_dir w (<[data_file_name oid := hd]> (delete (data_file_name_compaction oid) (dir w))).

Lemma published_lookup w oid hd n h :
  dir (published w oid hd) !! n = Some h ->
  (n = data_file_name oid /\ h = hd) \/
  (n <> data_file_name oid /\ n <> data_file_name_compaction oid /\ dir w !! n = Some h).
Proof.
  cbn [dir published set_dir]. rewrite lookup_insert. case_decide; [intros [= ->]; by left|].
  rewrite lookup_delete. case_decide; [done|]. by right.
Qed.

Lemma published_other w oid hd n :
  n <> data_file_name oid -> n <> data_file_name_compaction oid ->
  dir (published w oid hd) !! n = dir w !! n.
Proof. intros. cbn [dir published set_dir]. by rewrite lookup_insert_ne, lookup_delete_ne by done. Qed.

Lemma disk_publish w log later cur cmds oid oc hd hh :
  disk w (log ++ later) cur cmds [] -> is_u64 oid -> (forall id cs, (id, cs) ∈ log -> id < oid) ->
  (forall id cs, (id, cs) ∈ later ++ [(cur, cmds)] -> oid < id) ->
  Forall good_cmd oc -> Forall is_set oc -> blen (enc oc) < 2 ^ 64 ->
  dir w !! data_file_name_compaction oid = Some hd -> bytes_of w hd = enc oc ->
  blen (enc oc) <= durable_of w hd ->
  dir w !! hint_file_name oid = Some hh -> bytes_of w hh = hint_enc oid oc ->
  blen (hint_enc oid oc) <= durable_of w hh ->
  disk (published w oid hd) ((log ++ [(oid, oc)]) ++ later) cur cmds [].
Proof.
  intros Hd Hu Hlt Hgt Hg Hs Hl Hcd Hb Hdu Hhd Hhb Hhdu.
  assert (forall id cs, (id, cs) ∈ (log ++ later) ++ [(cur, cmds)] -> id <> oid) as Hne.
  { intros id cs. rewrite <- app_assoc. intros [Hin|Hin]%elem_of_app;
      [pose proof (Hlt _ _ Hin)|pose proof (Hgt _ _ Hin)]; lia. }
  destruct Hd as [D1 D2 D3 D4 D5 D6 D7 [Dl Df] D9]. split; try done.
  - rewrite <- app_assoc. apply ascending_insert; try done. by rewrite app_assoc.
  - intros id cs [[= -> ->]|Hin]%elem_of_insert_mid.
    2:{ destruct (D2 id cs Hin) as [S1 S2 S3 (h & Sd & Sb & Sdu) S5].
      split; try done.
      * exists h. rewrite published_other; [done| |apply data_ne_compact].
        intros E%data_file_name_inj; [|done|done]. apply (Hne id cs); [|done]. apply elem_of_app. by left.
      * intros h'. rewrite published_other; [apply S5|apply not_eq_sym, data_ne_hint|apply hint_ne_compact]. }
    split; try done.
    + exists hd. split; [apply lookup_insert_eq|done].
    + intros h'. rewrite published_other; [|apply not_eq_sym, data_ne_hint|apply hint_ne_compact].
      rewrite Hhd. intros [= <-]. change (bytes_of (published w oid hd) hh) with (bytes_of w hh).
      rewrite Hhb. split; [split; [done|by left]|done].
  - destruct D4 as (h & Da & Dab). exists h. rewrite published_other; [done| |apply data_ne_compact].
    intros E%data_file_name_inj; [|apply D3|done]. apply (Hne cur cmds); [|done].
    apply elem_of_app. right. left.
  - intros name h id [[-> ->]|(_ & _ & Hn)]%published_lookup Hid.
    + rewrite get_file_id_data in Hid by done. injection Hid as <-. split; [done|]. right.
      exists oc. apply elem_of_insert_mid. by left.
    + destruct (D5 name h id Hn Hid) as [-> [->|[cs Hin]]]; split; try done; [by left|].
      right. exists cs. apply elem_of_insert_mid. by right.
  - intros id h Hid [[E _]|(_ & _ & Hn)]%published_lookup; [by destruct (data_ne_hint oid id)|].
    by eapply D6.
  - intros id h Hid [[E _]|(_ & _ & Hn)]%published_lookup; [by destruct (data_ne_compact oid id)|].
    by eapply D7.
  - split.
    + intros n1 n2 h [[-> ->]|(N1 & C1 & H1)]%published_lookup [[-> E2]|(N2 & C2 & H2)]%published_lookup;
        try done.
      * destruct C2. by eapply Dl.
      * subst h. destruct C1. by eapply Dl.
      * by eapply Dl.
    + intros n h [[-> ->]|(_ & _ & Hn)]%published_lookup; [by eapply Df|by eapply Df].
Qed.

Lemma engine_publish sh w log later cur cmds oid oc hd hh i :
  engine sh w (log ++ later) cur cmds -> is_u64 oid -> (forall id cs, (id, cs) ∈ log -> id < oid) ->
  (forall id cs, (id, cs) ∈ later ++ [(cur, cmds)] -> oid < id) ->
  Forall good_cmd oc -> Forall is_set oc -> blen (enc oc) < 2 ^ 64 ->
  dir w !! data_file_name_compaction oid = Some hd -> bytes_of w hd = enc oc ->
  blen (enc oc) <= durable_of w hd ->
  dir w !! hint_file_name oid = Some hh -> bytes_of w hh = hint_enc oid oc ->
  blen (hint_enc oid oc) <= durable_of w hh ->
  index_is i (places (state_of (((log ++ [(oid, oc)]) ++ later) ++ [(cur, cmds)]))) ->
  engine (set_index (set_readers sh (BTreeMap.insert oid hd (readers sh))) i) (published w oid hd)
    ((log ++ [(oid, oc)]) ++ later) cur cmds.
Proof.
  intros He Hu Hlt Hgt Hg Hs Hl Hcd Hb Hdu Hhd Hhb Hhdu Hi.
  pose proof (disk_publish w log later cur cmds oid oc hd hh (e_disk _ _ _ _ _ He) Hu Hlt Hgt Hg Hs Hl
    Hcd Hb Hdu Hhd Hhb Hhdu) as Hdisk.
  pose proof (d_dir _ _ _ _ _ (e_disk _ _ _ _ _ He)) as [Dl Df].
  pose proof (d_cur _ _ _ _ _ (e_disk _ _ _ _ _ He)) as [Hcu _].
  assert (forall id, is_u64 id -> id <> oid ->
    dir (published w oid hd) !! data_file_name id = dir w !! data_file_name id) as Hdata.
  { intros id Hid Hne. apply published_other; [|apply data_ne_compact].
    intros E%data_file_name_inj; (done || lia). }
  assert (forall n h id, (id, h) ∈ readers sh -> dir (published w oid hd) !! n = Some h ->
    n = data_file_name id) as Hold.
  { intros n h id Hin. destruct (e_readers _ _ _ _ _ He id h Hin) as (_ & _ & _ & H4).
    intros [[-> ->]|(_ & _ & Hn)]%published_lookup; [|by apply H4].
    destruct (data_ne_compact id oid). symmetry. by apply H4. }
  assert (oid < cur) as Hoc by (apply (Hgt cur cmds); apply elem_of_app; right; left).
  assert (forall id cs, (id, cs) ∈ (log ++ later) ++ [(cur, cmds)] -> is_u64 id /\ id <> oid) as Hne.
  { intros id cs Hin. destruct (engine_file_ids _ _ _ _ _ _ _ He Hin) as [? _]. split; [done|].
    rewrite <- app_assoc in Hin. apply elem_of_app in Hin as [Hin|Hin];
      [pose proof (Hlt _ _ Hin)|pose proof (Hgt _ _ Hin)]; lia. }
  destruct He. split; try done.
  - destruct e_marker as (Ho & h & Hm & Hr). split; [done|]. exists h. split; [|done].
    rewrite published_other; [done|..].
    + intros E. apply (data_not_neutral oid Hu). rewrite <- E. apply lock_neutral.
    + intros E. apply (compact_not_neutral oid Hu). rewrite <- E. apply lock_neutral.
  - rewrite Hdata; [done|done|lia].
  - by apply btree_insert_ok.
  - intros id h [[-> ->]|[Hn Hin]]%btree_elem_insert; [| |done].
    + split_and!; [done|lia|by eapply Df|].
      intros n [[-> _]|(_ & Hc & Hn)]%published_lookup; [done|]. destruct Hc. by eapply Dl.
    + destruct (e_readers id h Hin) as (H1 & H2 & H3 & _). split_and!; try done.
      intros n Hn'. by apply (Hold n h id).
  - intros id cs Hin. cbn [readers set_index set_readers]. rewrite btree_get_insert.
    case_decide as E; [subst id; symmetry; apply lookup_insert_eq|].
    assert ((id, cs) ∈ (log ++ later) ++ [(cur, cmds)]) as Hin'.
    { apply elem_of_app in Hin as [Hin|Hin]; apply elem_of_app; [left|by right].
      apply elem_of_insert_mid in Hin as [[= -> ->]|Hin]; done. }
    destruct (Hne id cs Hin'). rewrite Hdata by done. by apply (e_covered id cs).
Qed.

(** ** Deleting the first file *)

(** The later commands on a key hide the earlier ones. *)
Lemma apply_all_in (es : list (Command * IndexValue)) (st1 st2 : KV) k :
  k ∈ keys_of es -> apply_all st1 es !! k = apply_all st2 es !! k.
Proof.
  revert st1 st2. induction es as [|[c iv] es IH]; intros st1 st2 Hk; [by apply not_elem_of_nil in Hk|].
  cbn [apply_all foldl]. destruct (decide (k ∈ keys_of es)) as [Hin|Hout]; [by apply IH|].
  rewrite !(apply_all_other es _ k Hout). apply elem_of_cons in Hk as [->|Hk]; [|done].
  destruct c; cbn [apply1 fst snd Command.get_key]; by simplify_map_eq.
Qed.

Definition entries (fs : list (Z * list Command)) : list (Command * IndexValue) :=
  concat ((fun f => located (fst f) 0 (snd f)) <$> fs).

Lemma apply_files_entries st fs : apply_files st fs = apply_all st (entries fs).
Proof.
  unfold entries. revert st. induction fs as [|f fs IH]; intros st; [done|].
  cbn [fmap list_fmap concat apply_files foldl]. unfold apply_all. rewrite foldl_app. apply IH.
Qed.

Lemma state_of_app A B : state_of (A ++ B) = apply_all (state_of A) (entries B).
Proof. unfold state_of, apply_files. rewrite foldl_app. apply apply_files_entries. Qed.

Lemma state_of_entries B : state_of B = apply_all ∅ (entries B).
Proof. apply apply_files_entries. Qed.

(** Keys that the later files do not mention, and keys that they do. *)
Lemma state_of_app_old A B k :
  k ∉ keys_of (entries B) -> state_of (A ++ B) !! k = state_of A !! k.
Proof. intros Hk. rewrite state_of_app. by apply apply_all_other. Qed.

Lemma state_of_app_new A B k :
  k ∈ keys_of (entries B) -> state_of (A ++ B) !! k = state_of B !! k.
Proof. intros Hk. rewrite state_of_app, (state_of_entries B). by apply apply_all_in. Qed.

(** Files that no live record is in can be left out. *)
Lemma state_of_drop A B :
  (forall k e, state_of (A ++ B) !! k = Some e -> IndexValue.file_id (fst e) ∉ A.*1) ->
  state_of (A ++ B) = state_of B.
Proof.
  intros H. apply map_eq. intros k.
  destruct (decide (k ∈ keys_of (entries B))) as [Hin|Hout]; [by apply state_of_app_new|].
  specialize (H k). rewrite (state_of_app_old _ _ k Hout) in *.
  rewrite (state_of_entries B), (apply_all_other _ _ k Hout), lookup_empty.
  destruct (state_of A !! k) as [e|] eqn:Ek; [|done]. destruct (H e eq_refl).
  apply state_of_entry_in in Ek as (cs & _ & _ & _ & Hin & _).
  by apply (list_elem_of_fmap_2 fst A (IndexValue.file_id (fst e), cs)).
Qed.

(** [w'] is [w] without the data file [id], and perhaps without its hint. *)
Record deleted (id : Z) (w w' : World) : Prop := {
  del_rest : w' = set_dir w (dir w');
  del_data : dir w' !! data_file_name id = None;
  del_old : forall n h, dir w' !! n = Some h -> dir w !! n = Some h;
  del_other : forall n, n <> data_file_name id -> n <> hint_file_name id ->
              dir w' !! n = dir w !! n
}.

(** The files that stay, when the first file of the log is deleted. *)
Lemma deleted_same w w' id cs rest cur cmds :
  disk w ((id, cs) :: rest) cur cmds [] -> deleted id w w' ->
  is_u64 id /\
  (forall i c, (i, c) ∈ rest ++ [(cur, cmds)] ->
     dir w' !! data_file_name i = dir w !! data_file_name i /\
     dir w' !! hint_file_name i = dir w !! hint_file_name i) /\
  dir w' !! LockFile.LOCK_FILE_NAME = dir w !! LockFile.LOCK_FILE_NAME /\
  (forall h, bytes_of w' h = bytes_of w h /\ durable_of w' h = durable_of w h).
Proof.
  intros Hd Hdel. pose proof (d_ascending _ _ _ _ _ Hd) as Hasc.
  assert (is_u64 id) as Hid by (by eapply s_id, (d_sealed _ _ _ _ _ Hd); left).
  assert (forall i c, (i, c) ∈ rest ++ [(cur, cmds)] -> is_u64 i /\ i <> id) as Hne.
  { intros i c Hin. pose proof (sorted_from_elem id _ _ _ Hasc Hin). split; [|lia].
    apply elem_of_app in Hin as [Hin|[= -> ->]%list_elem_of_singleton]; [|apply (d_cur _ _ _ _ _ Hd)].
    by eapply s_id, (d_sealed _ _ _ _ _ Hd); right. }
  split_and!; [done|..].
  - intros i c Hin. destruct (Hne i c Hin) as [Hi Hn]. split; apply (del_other _ _ _ Hdel).
    + intros E%data_file_name_inj; done.
    + apply data_ne_hint.
    + apply not_eq_sym, data_ne_hint.
    + intros E%hint_file_name_inj; done.
  - apply (del_other _ _ _ Hdel).
    + intros E. apply (data_not_neutral id Hid). rewrite <- E. apply lock_neutral.
    + intros E. apply (hint_not_neutral id Hid). rewrite <- E. apply lock_neutral.
  - intros h. by rewrite (del_rest _ _ _ Hdel).
Qed.

Lemma disk_delete w w' id cs rest cur cmds :
  disk w ((id, cs) :: rest) cur cmds [] -> deleted id w w' -> disk w' rest cur cmds [].
Proof.
  intros Hd Hdel. destruct (deleted_same _ _ _ _ _ _ _ Hd Hdel) as (Hid & Hsame & _ & Hb).
  destruct (Hsame cur cmds) as [Hcur _]; [apply elem_of_app; right; by left|].
  assert (others w' = others w /\ next_inode w' = next_inode w) as [Eo En]
    by by rewrite (del_rest _ _ _ Hdel).
  destruct Hd. split; try done.
  - apply (sorted_from_ok id). exact d_ascending.
  - intros i c Hin. destruct (d_sealed i c) as [S1 S2 S3 (h & Sd & Sb & Sdu) S5]; [by right|].
    destruct (Hsame i c) as [E1 E2]; [by apply elem_of_app; left|]. split; try done.
    + exists h. rewrite E1. by destruct (Hb h) as [-> ->].
    + intros h'. rewrite E2. destruct (Hb h') as [-> ->]. apply S5.
  - destruct d_active as (h & Ha & Hab). exists h. rewrite Hcur. by destruct (Hb h) as [-> _].
  - intros name h i Hn Hi. apply (del_old _ _ _ Hdel) in Hn as Hn'.
    destruct (d_only name h i Hn' Hi) as [-> [->|[c Hin]]]; split; try done; [by left|].
    apply elem_of_cons in Hin as [[= -> ->]|Hin]; [by rewrite (del_data _ _ _ Hdel) in Hn|].
    right. by exists c.
  - intros i h Hi Hn. eapply d_hints; [done|]. by apply (del_old _ _ _ Hdel).
  - intros i h Hi Hn. eapply d_compacts; [done|]. by apply (del_old _ _ _ Hdel).
  - destruct d_dir as [Dl Df]. split.
    + intros n1 n2 h H1 H2. eapply Dl; by apply (del_old _ _ _ Hdel).
    + intros n h Hn. rewrite En. eapply Df. by apply (del_old _ _ _ Hdel).
  - by rewrite Eo.
Qed.

Lemma engine_delete sh w w' id cs rest cur cmds :
  engine sh w ((id, cs) :: rest) cur cmds -> deleted id w w' ->
  state_of (((id, cs) :: rest) ++ [(cur, cmds)]) = state_of (rest ++ [(cur, cmds)]) ->
  engine sh w' rest cur cmds.
Proof.
  intros He Hdel Hst. pose proof (e_disk _ _ _ _ _ He) as Hd.
  destruct (deleted_same _ _ _ _ _ _ _ Hd Hdel) as (Hid & Hsame & Hlock & Hb).
  destruct (Hsame cur cmds) as [Hcur _]; [apply elem_of_app; right; by left|].
  assert (others w' = others w /\ next_inode w' = next_inode w /\ faults w' = faults w /\
    clock w' = clock w /\ ticks w' = ticks w) as (Eo & En & Ef & Ec & Et)
    by by rewrite (del_rest _ _ _ Hdel).
  destruct He. split; try done.
  - by rewrite Ef.
  - unfold clock_ok. by rewrite Ec, Et.
  - intros h. destruct (Hb h) as [-> ->]. apply e_inodes.
  - destruct e_marker as (Ho & h & Hm & Hr). split; [by rewrite Eo|]. exists h.
    rewrite Hlock. by destruct (Hb h) as [-> ->].
  - by eapply disk_delete.
  - by rewrite Hcur.
  - by destruct (Hb (file (writer sh))) as [_ ->].
  - intros i h Hin. destruct (e_readers i h Hin) as (H1 & H2 & H3 & H4). rewrite En.
    split_and!; try done. intros n Hn. apply H4. by apply (del_old _ _ _ Hdel).
  - intros i c Hin. destruct (Hsame i c Hin) as [-> _]. apply (e_covered i c). by right.
  - by rewrite <- Hst.
Qed.

End files.
