(* ===== verification/MergeState.v ===== *)
(** * The state of a merge

    The invariant of [run_compaction] between its steps, in a store that other
    threads write to: what the merge works on ([Plan]), what was written since it
    took its snapshot ([Tail]), and how its local variables, the directory, the
    index and the readers map go together. *)

From Stdlib Require Import ZArith Lia Strings.Byte.
From stdpp Require Import base numbers list strings gmap.
From S2P Require Import Prelude Bytes Crc CommandFormat HintFormat Streams Reader KeyDir Text Names Config FileSystem Lock BTree Engine Load Merge Log Inv EngineProofs Replay MergeFiles.
Import Command(Command, Set_, Rm).
Import RecordReader Shared.
Import MergeOutput(MergeOutput).

Local Open Scope Z_scope.

Section merge.
Context `{Crc : Crc32}.

(** ** Copies *)

(** A [Set] of the value that the key has anyway. *)
Definition copy_in (m : gmap (list byte) (list byte)) (c : Command) : Prop :=
  match c with Set_ _ k v => m !! k = Some v | Rm _ _ => False end.

Lemma copies_values (es : list (Command * IndexValue)) (st : KV) :
  Forall (fun e => copy_in (values st) (fst e)) es -> values (apply_all st es) = values st.
Proof.
  revert st. induction es as [|[c iv] es IH]; intros st H; [done|].
  apply Forall_cons in H as [Hc H]. cbn [apply_all foldl fst] in *.
  assert (values (apply1 st (c, iv)) = values st) as E.
  { rewrite values_apply1. destruct c as [ts k v|]; [|done]. by apply insert_id. }
  unfold apply_all in IH. rewrite IH; [done|]. by rewrite E.
Qed.

(** The deferred update of a copy: from the live record to the copy. *)
Definition pending_for (st : KV) (e : Command * IndexValue) (p : PendingUpdate) : Prop :=
  exists ts v, fst e = Set_ ts (key p) v /\ new_value p = snd e /\
    st !! key p = Some (previous_value p, v).

Lemma pending_copies (st : KV) es ps :
  Forall2 (pending_for st) es ps -> Forall (fun e => copy_in (values st) (fst e)) es.
Proof.
  induction 1 as [|e p es ps (ts & v & He & _ & Hst) _ IH]; constructor; [|done].
  rewrite He. cbn. by rewrite values_lookup, Hst.
Qed.

Lemma pending_keys (st : KV) es ps : Forall2 (pending_for st) es ps -> keys_of es = key <$> ps.
Proof.
  induction 1 as [|e p es ps (ts & v & He & _ & _) _ IH]; [done|]. cbn. rewrite He. cbn.
  f_equal. exact IH.
Qed.

Lemma pending_sets (st : KV) id off oc ps :
  Forall2 (pending_for st) (located id off oc) ps -> Forall is_set oc.
Proof.
  revert off ps. induction oc as [|c oc IH]; intros off ps H; [constructor|]. cbn [located] in H.
  apply Forall2_cons_inv_l in H as (p & ps' & (ts & v & E & _) & H & _). constructor; [|by eapply IH].
  cbn [fst] in E. by rewrite E.
Qed.

(** When the keys are different, every record is live after its file is applied. *)
Lemma live_after (st : KV) es e :
  Forall (fun e => is_set (fst e)) es -> NoDup (keys_of es) -> e ∈ es ->
  exists v, apply_all st es !! Command.get_key (fst e) = Some (snd e, v).
Proof.
  revert st. induction es as [|e' es IH]; intros st Hs Hnd Hin; [by apply not_elem_of_nil in Hin|].
  apply Forall_cons in Hs as [Hs1 Hs]. cbn [keys_of fmap list_fmap] in Hnd.
  apply NoDup_cons in Hnd as [Hn Hnd]. apply elem_of_cons in Hin as [->|Hin]; [|by apply IH].
  cbn [apply_all foldl]. rewrite (apply_all_other es _ _ Hn). destruct e' as [[ts k v|ts k] iv].
  - exists v. apply lookup_insert_eq.
  - by destruct Hs1.
Qed.

Lemma located_file_id id off cs e : e ∈ located id off cs -> IndexValue.file_id (snd e) = id.
Proof.
  revert off. induction cs as [|c cs IH]; intros off; [by intros ?%not_elem_of_nil|].
  intros [->|H]%elem_of_cons; [done|by eapply IH].
Qed.

Lemma located_sets id off cs : Forall is_set cs -> Forall (fun e => is_set (fst e)) (located id off cs).
Proof.
  revert off. induction cs as [|c cs IH]; intros off H; [constructor|].
  apply Forall_cons in H as [? ?]. cbn [located]. constructor; [done|by apply IH].
Qed.

(** ** Places and records *)

Lemma serialize_pos c : 0 < blen (Command.serialize c).
Proof. rewrite blen_serialize. pose proof (encoded_body_len_pos c). unfold Command.HEADER_LEN. lia. Qed.

(** An offset names one record of a file. *)
Lemma enc_offset_unique pre pre' c c' post post' :
  pre ++ c :: post = pre' ++ c' :: post' -> blen (enc pre) = blen (enc pre') ->
  pre = pre' /\ c = c' /\ post = post'.
Proof.
  revert pre'. induction pre as [|x pre IH]; intros [|y pre'] E Hl; cbn [app] in E.
  - by injection E.
  - rewrite enc_cons, blen_app in Hl. change (blen (enc [])) with 0 in Hl.
    pose proof (serialize_pos y). pose proof (blen_nonneg (enc pre')). lia.
  - rewrite enc_cons, blen_app in Hl. change (blen (enc [])) with 0 in Hl.
    pose proof (serialize_pos x). pose proof (blen_nonneg (enc pre)). lia.
  - injection E as -> E. rewrite !enc_cons, !blen_app in Hl.
    destruct (IH pre' E) as (-> & -> & ->); [lia|done].
Qed.

(** The live record at a place of the log is the record that is there. *)
Lemma live_record fs id cs pre c post k e v :
  ascending fs -> (id, cs) ∈ fs -> cs = pre ++ c :: post ->
  state_of fs !! k = Some (e, v) -> IndexValue.file_id e = id ->
  IndexValue.offset e = blen (enc pre) ->
  exists ts, c = Set_ ts k v /\ e = place id (blen (enc pre)) c.
Proof.
  intros Hasc Hin Hcs Hst Hid Hoff.
  apply state_of_entry_in in Hst as (cs' & pre' & post' & ts & Hin' & Hcs' & Hpl).
  cbn [fst snd] in *. rewrite Hid in *.
  apply (btree_get_elem fs id cs Hasc) in Hin. apply (btree_get_elem fs id cs' Hasc) in Hin'.
  rewrite Hin in Hin'. injection Hin' as <-. rewrite Hpl in Hoff. cbn in Hoff.
  rewrite Hcs in Hcs'. apply enc_offset_unique in Hcs' as (-> & -> & ->); [|done].
  by exists ts.
Qed.

Lemma ascending_before (A B : list (Z * list Command)) id cs i c :
  ascending (A ++ (i, c) :: B) -> (id, cs) ∈ A -> id < i.
Proof.
  intros Hasc Hin. apply btree_ok_from in Hasc as [lo Hasc]. revert lo Hasc.
  induction A as [|[j d] A IH]; intros lo Hasc; [by apply not_elem_of_nil in Hin|].
  cbn in Hasc. destruct Hasc as [H1 H2].
  apply elem_of_cons in Hin as [[= -> ->]|Hin]; [|by eapply IH].
  eapply sorted_from_elem; [exact H2|]. apply elem_of_app. right. by left.
Qed.

Lemma located_place id off cs e : e ∈ located id off cs -> exists o, snd e = place id o (fst e).
Proof.
  revert off. induction cs as [|c cs IH]; intros off; [by intros ?%not_elem_of_nil|].
  intros [->|H]%elem_of_cons; [by eexists|by eapply IH].
Qed.

(** ** What a merge works on *)

Record Plan : Type := {
  (** what the files of the snapshot hold, deleted files with a handle included *)
  srcs : list (Z * list Command);
  (** those of them that are files of the log *)
  front : list (Z * list Command);
  (** the file that was active when the merge started *)
  old_active : Z;
  old_cmds : list Command;
  (** the file that became active then; the outputs have the ids in between *)
  new_active : Z;
  threshold : Z
}.

Record plan_ok (pl : Plan) : Prop := {
  pl_threshold : 0 < threshold pl;
  pl_old : is_u64 (old_active pl);
  pl_new : is_u64 (new_active pl);
  pl_reserve : new_active pl = old_active pl + total_bytes (srcs pl) / threshold pl + 3;
  pl_total : total_bytes (srcs pl) <= u64_max;
  pl_sorted : ascending (srcs pl);
  pl_srcs : forall id cs, (id, cs) ∈ srcs pl -> is_u64 id /\ id < old_active pl /\ Forall good_cmd cs;
  pl_front : forall f, f ∈ front pl -> f ∈ srcs pl
}.

(** The files written since the snapshot; the last one is active. *)
Record Tail : Type := {
  later : list (Z * list Command);
  cur : Z;
  cmds : list Command
}.
Definition tail_files (t : Tail) : list (Z * list Command) := later t ++ [(cur t, cmds t)].
(** The keys that were written since the snapshot. *)
Definition tail_keys (t : Tail) : list (list byte) := keys_of (entries (tail_files t)).

(** The log up to the finished outputs [outs], and all of it. *)
Definition mlog (pl : Plan) (outs : list (Z * list Command)) : list (Z * list Command) :=
  front pl ++ (old_active pl, old_cmds pl) :: outs.
Definition flog (pl : Plan) (outs : list (Z * list Command)) (t : Tail) : list (Z * list Command) :=
  mlog pl outs ++ tail_files t.

Lemma flog_eq pl outs t : flog pl outs t = (mlog pl outs ++ later t) ++ [(cur t, cmds t)].
Proof. unfold flog, tail_files. by rewrite app_assoc. Qed.

(** The output that is being written has the records [oc]. *)
Record writing (w : World) (out : MergeOutput) (oc : list Command) : Prop := {
  wr_data : dir w !! data_file_name_compaction (MergeOutput.id out) =
            Some (BufWriter.file (MergeOutput.data out));
  wr_hint : dir w !! hint_file_name (MergeOutput.id out) =
            Some (BufWriter.file (MergeOutput.hint out));
  wr_bytes : taken (MergeOutput.data out) w = enc oc;
  wr_hints : taken (MergeOutput.hint out) w = hint_enc (MergeOutput.id out) oc;
  wr_written : MergeOutput.written out = blen (enc oc);
  wr_good : Forall good_cmd oc
}.

(** The deferred updates [ps] of the records [oc] of the output [id]. *)
Record deferred (pl : Plan) (st : KV) (id : Z) (oc : list Command) (ps : list PendingUpdate) : Prop := {
  df_for : Forall2 (pending_for st) (located id 0 oc) ps;
  df_keys : NoDup (key <$> ps);
  df_front : Forall (fun p => IndexValue.file_id (previous_value p) ∈ (front pl).*1) ps
}.

(** What holds of the output slot and the list of deferred updates. *)
Definition output_ok (pl : Plan) (w : World) (st : KV) (m : Compaction.Merge) (oc : list Command)
  : Prop :=
  match Compaction.output m with
  | None => Compaction.pending_records m = [] /\ oc = []
  | Some out => writing w out oc /\ MergeOutput.id out = Compaction.next_compaction_file_id m /\
      deferred pl st (MergeOutput.id out) oc (Compaction.pending_records m)
  end.

Definition opened (m : Compaction.Merge) : Z :=
  match Compaction.output m with Some _ => 1 | None => 0 end.

(** The invariant: [seen] are the places that were looked at, [n] is the number
    of source bytes that were read, [outs] are the finished outputs, [oc] is what
    the unfinished one has. *)
Record merging (pl : Plan) (seen : Z -> Z -> Prop) (n : Z) (m : Compaction.Merge)
  (sh : Shared) (w : World) (outs : list (Z * list Command)) (oc : list Command) (t : Tail) : Prop := {
  mg_engine : engine sh w (mlog pl outs ++ later t) (cur t) (cmds t);
  mg_tail : forall id cs, (id, cs) ∈ tail_files t -> new_active pl <= id;
  mg_values : values (state_of (mlog pl outs)) =
              values (state_of (front pl ++ [(old_active pl, old_cmds pl)]));
  mg_thr : Config.file_size_threshold (config sh) = threshold pl;
  mg_ids : outs.*1 = seqZ (old_active pl + 1) (Z.of_nat (length outs));
  mg_next : Compaction.next_compaction_file_id m = old_active pl + Z.of_nat (length outs) + opened m;
  mg_output : output_ok pl w (state_of (mlog pl outs)) m oc;
  (** no leftovers under the names of the outputs to come *)
  mg_fresh : forall id, Compaction.next_compaction_file_id m < id < new_active pl ->
    dir w !! hint_file_name id = None /\ dir w !! data_file_name_compaction id = None;
  (** no read handle for them either *)
  mg_readers : forall id h, (id, h) ∈ readers sh ->
    id <= old_active pl + Z.of_nat (length outs) \/ new_active pl <= id;
  (** a live record that was looked at, of a key that was not written since, has a
      copy that waits for its update *)
  mg_seen : forall k e, state_of (mlog pl outs) !! k = Some e ->
    seen (IndexValue.file_id (fst e)) (IndexValue.offset (fst e)) -> k ∉ tail_keys t ->
    k ∈ key <$> Compaction.pending_records m;
  mg_pending : Forall (fun p => seen (IndexValue.file_id (previous_value p))
                                  (IndexValue.offset (previous_value p)))
                 (Compaction.pending_records m);
  mg_scope : forall i o, seen i o -> i ∈ (srcs pl).*1;
  (** nothing is written that was not read *)
  mg_bytes : total_bytes outs + blen (enc oc) <= n;
  (** every record of a finished output was live when it was finished *)
  mg_live : forall id cs e, (id, cs) ∈ outs -> e ∈ located id 0 cs ->
    exists v, state_of (mlog pl outs) !! Command.get_key (fst e) = Some (snd e, v)
}.
#[global] Arguments mg_engine {pl seen n m sh w outs oc t} _.
#[global] Arguments mg_tail {pl seen n m sh w outs oc t} _.
#[global] Arguments mg_values {pl seen n m sh w outs oc t} _.
#[global] Arguments mg_thr {pl seen n m sh w outs oc t} _.
#[global] Arguments mg_ids {pl seen n m sh w outs oc t} _.
#[global] Arguments mg_next {pl seen n m sh w outs oc t} _.
#[global] Arguments mg_output {pl seen n m sh w outs oc t} _.
#[global] Arguments mg_fresh {pl seen n m sh w outs oc t} _.
#[global] Arguments mg_readers {pl seen n m sh w outs oc t} _.
#[global] Arguments mg_seen {pl seen n m sh w outs oc t} _.
#[global] Arguments mg_pending {pl seen n m sh w outs oc t} _.
#[global] Arguments mg_scope {pl seen n m sh w outs oc t} _.
#[global] Arguments mg_bytes {pl seen n m sh w outs oc t} _.
#[global] Arguments mg_live {pl seen n m sh w outs oc t} _.

(** An entry of the snapshot is an open handle on the source. *)
Definition handle_of (sh : Shared) (w : World) (f : Z * list Command) (s : Z * File) : Prop :=
  fst s = fst f /\ BTreeMap.get (fst f) (readers sh) = Some (snd s) /\ bytes_of w (snd s) = enc (snd f).

(** What a step of the merge keeps of the files that can be read: their handles,
    their bytes and how many of them are on stable storage. *)
Record steady (sh : Shared) (w : World) (sh' : Shared) (w' : World) : Prop := {
  st_readers : forall id h, BTreeMap.get id (readers sh) = Some h ->
               BTreeMap.get id (readers sh') = Some h;
  st_bytes : forall id h, BTreeMap.get id (readers sh) = Some h ->
             bytes_of w' h = bytes_of w h /\ durable_of w' h = durable_of w h
}.

Lemma steady_refl sh w : steady sh w sh w.
Proof. by split. Qed.

Lemma steady_trans sh1 w1 sh2 w2 sh3 w3 :
  steady sh1 w1 sh2 w2 -> steady sh2 w2 sh3 w3 -> steady sh1 w1 sh3 w3.
Proof.
  intros [R1 B1] [R2 B2]. split; [by auto|]. intros id h Hg.
  destruct (B2 id h) as [-> ->]; [by auto|]. by apply (B1 id).
Qed.

Lemma handle_of_steady sh w sh' w' f s :
  steady sh w sh' w' -> handle_of sh w f s -> handle_of sh' w' f s.
Proof.
  intros [R B] (H1 & H2 & H3). split_and!; [done|by auto|]. by destruct (B _ _ H2) as [-> _].
Qed.

(** ** First consequences *)

Section plan.
Context (pl : Plan) (Hpl : plan_ok pl).

Lemma front_lt id cs : (id, cs) ∈ front pl -> is_u64 id /\ id < old_active pl /\ Forall good_cmd cs.
Proof using Hpl. intros Hin. by apply (pl_srcs _ Hpl), (pl_front _ Hpl). Qed.

(** The contents of a source that is in the log. *)
Lemma srcs_front id cs : (id, cs) ∈ srcs pl -> id ∈ (front pl).*1 -> (id, cs) ∈ front pl.
Proof using Hpl.
  intros Hin ([i cs'] & -> & Hin')%list_elem_of_fmap. cbn [fst] in *.
  pose proof (pl_front _ Hpl _ Hin') as Hin2. pose proof (pl_sorted _ Hpl) as Hs.
  apply (btree_get_elem _ _ _ Hs) in Hin. apply (btree_get_elem _ _ _ Hs) in Hin2.
  rewrite Hin in Hin2. by injection Hin2 as <-.
Qed.

Lemma active_lt : old_active pl + 3 <= new_active pl.
Proof using Hpl.
  rewrite (pl_reserve _ Hpl).
  pose proof (Z.div_pos _ _ (total_bytes_nonneg (srcs pl)) (pl_threshold _ Hpl)). lia.
Qed.

Section merging.
Context {seen : Z -> Z -> Prop} {n : Z} {m : Compaction.Merge} {sh : Shared} {w : World}
  {outs : list (Z * list Command)} {oc : list Command} {t : Tail}.
Context (Hm : merging pl seen n m sh w outs oc t).

Lemma merging_sorted : ascending (flog pl outs t).
Proof using Hm. rewrite flog_eq. apply (e_disk _ _ _ _ _ (mg_engine Hm)). Qed.

Lemma mlog_ids id cs : (id, cs) ∈ mlog pl outs -> id <= old_active pl + Z.of_nat (length outs).
Proof using Hpl Hm.
  unfold mlog. intros [Hin|[[= -> ->]|Hin]%elem_of_cons]%elem_of_app; [|lia|].
  - apply front_lt in Hin. lia.
  - apply (list_elem_of_fmap_2 fst) in Hin. rewrite (mg_ids Hm) in Hin.
    apply elem_of_seqZ in Hin. cbn in Hin. lia.
Qed.

Lemma mlog_not_in id : old_active pl + Z.of_nat (length outs) < id -> id ∉ (mlog pl outs).*1.
Proof using Hpl Hm.
  intros Hlt ([i cs] & -> & Hin)%list_elem_of_fmap. cbn in Hlt. apply mlog_ids in Hin. lia.
Qed.

Lemma tail_not_in id : id < new_active pl -> id ∉ (tail_files t).*1.
Proof using Hm.
  intros Hlt ([i cs] & -> & Hin)%list_elem_of_fmap. cbn in Hlt. apply (mg_tail Hm) in Hin. lia.
Qed.

Lemma cur_new : new_active pl <= cur t.
Proof using Hm. apply (mg_tail Hm (cur t) (cmds t)), elem_of_app. right. left. Qed.

Lemma front_good id cs : (id, cs) ∈ front pl -> (id, cs) ∈ flog pl outs t.
Proof using. intros Hin. unfold flog, mlog. rewrite !elem_of_app. tauto. Qed.

(** Keys written since the snapshot have their record in the new files, the
    others where the old files have it. *)
Lemma flog_new k e :
  k ∈ tail_keys t -> state_of (flog pl outs t) !! k = Some e ->
  new_active pl <= IndexValue.file_id (fst e).
Proof using Hm.
  intros Hk He. unfold flog in He. rewrite state_of_app_new in He by done.
  apply state_of_entry_in in He as (cs & _ & _ & _ & Hin & _). by apply (mg_tail Hm) in Hin.
Qed.

Lemma flog_old k : k ∉ tail_keys t -> state_of (flog pl outs t) !! k = state_of (mlog pl outs) !! k.
Proof using. apply state_of_app_old. Qed.

Lemma flog_below k e :
  state_of (flog pl outs t) !! k = Some e -> IndexValue.file_id (fst e) < new_active pl ->
  (k ∉ tail_keys t) /\ state_of (mlog pl outs) !! k = Some e.
Proof using Hm.
  intros He Hlt. destruct (decide (k ∈ tail_keys t)) as [Hk|Hk].
  - pose proof (flog_new _ _ Hk He). lia.
  - by rewrite flog_old in He.
Qed.

(** What the index says of a place in a source. *)
Lemma source_live id cs pre c post k e :
  (id, cs) ∈ srcs pl -> cs = pre ++ c :: post -> state_of (mlog pl outs) !! k = Some e ->
  IndexValue.file_id (fst e) = id -> IndexValue.offset (fst e) = blen (enc pre) ->
  (id ∈ (front pl).*1) /\ exists ts, c = Set_ ts k (snd e) /\ fst e = place id (blen (enc pre)) c.
Proof using Hpl Hm.
  intros Hin Hcs He Hid Hoff. destruct (pl_srcs _ Hpl id cs Hin) as (_ & Hlt & _).
  assert ((id, cs) ∈ front pl) as Hfr.
  { pose proof He as He'. apply state_of_entry_in in He' as (cs' & _ & _ & _ & Hlog & _).
    rewrite Hid in Hlog. unfold mlog in Hlog.
    apply elem_of_app in Hlog as [Hlog|[[= E _]|Hlog]%elem_of_cons]; [|lia|].
    - apply srcs_front; [done|]. by apply (list_elem_of_fmap_2 fst _ (id, cs')).
    - apply (list_elem_of_fmap_2 fst) in Hlog. rewrite (mg_ids Hm) in Hlog.
      apply elem_of_seqZ in Hlog. cbn in Hlog. lia. }
  split; [by apply (list_elem_of_fmap_2 fst _ (id, cs))|]. destruct e as [e v]. cbn [fst snd] in *.
  eapply (live_record (mlog pl outs)); [|unfold mlog; apply elem_of_app; by left|done|done|done|done].
  pose proof merging_sorted as Hs. unfold flog in Hs. by apply btree_ok_app_l in Hs.
Qed.
End merging.

Definition full (f : Z * list Command) : Prop := threshold pl <= blen (enc (snd f)).

Lemma outputs_few outs : Forall full outs -> Z.of_nat (length outs) * threshold pl <= total_bytes outs.
Proof using.
  induction 1 as [|[id cs] outs H _ IH]; [done|]. unfold full in H.
  rewrite total_bytes_cons. cbn [snd length] in *. lia.
Qed.

(** There is always an id left for the next output. *)
Lemma output_room seen n m sh w outs oc t :
  merging pl seen n m sh w outs oc t -> Forall full outs -> n <= total_bytes (srcs pl) ->
  old_active pl + Z.of_nat (length outs) + 2 < new_active pl.
Proof using Hpl.
  intros Hm Hfull Hn. pose proof (outputs_few outs Hfull). pose proof (blen_nonneg (enc oc)).
  pose proof (mg_bytes Hm). pose proof (pl_threshold _ Hpl).
  assert (Z.of_nat (length outs) <= total_bytes (srcs pl) / threshold pl).
  { apply Z.div_le_lower_bound; lia. }
  rewrite (pl_reserve _ Hpl). lia.
Qed.

End plan.
End merge.
