(* ===== verification/MergeCopy.v ===== *)
(** * Copying the live records

    The first half of a merge: opening outputs, reading the sources and copying
    the records that the index points at. Each step keeps the invariant
    [merging], whatever was written to the store since the snapshot. *)

From Stdlib Require Import ZArith Lia Strings.Byte.
From stdpp Require Import base numbers list strings gmap.
From S2P Require Import Prelude Bytes Crc CommandFormat HintFormat Streams Reader KeyDir Text Names Config FileSystem Lock BTree Engine Load Merge Log Inv EngineProofs Replay MergeFiles MergeState.
Import Command(Command, Set_, Rm).
Import RecordReader Shared.
Import MergeOutput(MergeOutput).

Local Open Scope Z_scope.

Section merge.
Context `{Crc : Crc32}.

(** A handle of the readers map is an inode that is not one of the output's. *)
Lemma reader_inode sh w log cur cmds id h :
  engine sh w log cur cmds -> BTreeMap.get id (readers sh) = Some h ->
  (h < next_inode w)%nat /\ (forall n, dir w !! n = Some h -> n = data_file_name id).
Proof.
  intros He Hg. apply btree_get_elem in Hg; [|apply He].
  by destruct (e_readers _ _ _ _ _ He _ _ Hg) as (_ & _ & ? & ?).
Qed.

(** ** Opening an output *)

Lemma writing_new w out id :
  dir_ok w -> dir w !! data_file_name_compaction id = None -> dir w !! hint_file_name id = None ->
  out = {| MergeOutput.id := id; MergeOutput.data := BufWriter.new (next_inode w);
           MergeOutput.hint := BufWriter.new (S (next_inode w)); MergeOutput.written := 0 |} ->
  writing (new_file (new_file w (data_file_name_compaction id)) (hint_file_name id)) out [].
Proof.
  intros Hd Hc Hh ->. split; cbn [MergeOutput.id MergeOutput.data MergeOutput.hint BufWriter.new
    BufWriter.file MergeOutput.written].
  - cbn [dir new_file]. rewrite lookup_insert_ne by apply hint_ne_compact. apply lookup_insert_eq.
  - apply lookup_insert_eq.
  - unfold taken. cbn [BufWriter.file BufWriter.buffer BufWriter.new].
    rewrite bytes_of_new_file by (cbn; lia). by rewrite bytes_of_new_file_eq.
  - unfold taken. cbn [BufWriter.file BufWriter.buffer BufWriter.new].
    by rewrite (bytes_of_new_file_eq (new_file w (data_file_name_compaction id))).
  - done.
  - constructor.
Qed.

Section plan.
Context (pl : Plan) (Hpl : plan_ok pl).

Lemma ensure_output_run seen n m sh w outs oc t :
  merging pl seen n m sh w outs oc t ->
  old_active pl + Z.of_nat (length outs) + 2 < new_active pl ->
  exists m' w', Compaction.ensure_output (m, (sh, w)) = (Ok tt, (m', (sh, w'))) /\
    merging pl seen n m' sh w' outs oc t /\ Compaction.output m' <> None /\
    Compaction.ids_to_remove m' = Compaction.ids_to_remove m /\ steady sh w sh w'.
Proof using Hpl.
  intros Hm Hroom. unfold Compaction.ensure_output. unfold bind at 1, gets. cbn [fst].
  destruct (Compaction.output m) as [out|] eqn:Eo.
  { exists m, w. rewrite Eo. split_and!; try done. }
  pose proof (mg_output Hm) as Hout. unfold output_ok in Hout. rewrite Eo in Hout.
  destruct Hout as [Hpend ->]. pose proof (mg_next Hm) as Hnext.
  unfold opened in Hnext. rewrite Eo in Hnext.
  set (id := Compaction.next_compaction_file_id m + 1).
  pose proof (pl_old _ Hpl) as [HP0 _]. pose proof (pl_new _ Hpl) as HN.
  assert (is_u64 id) as Hid by (unfold id; ulia).
  rewrite bind_outcome. unfold u64_add. rewrite (proj2 (Z.leb_le _ _)) by (fold id; ulia). fold id.
  unfold Compaction.upd at 1, bind at 1, on_fst at 1, modify at 1. cbn [fst snd].
  pose proof (mg_engine Hm) as He. pose proof (e_disk _ _ _ _ _ He) as Hd. pose proof (cur_new pl Hm).
  destruct (mg_fresh Hm id) as [Hfh Hfc]; [unfold id; lia|].
  destruct (d_others _ _ _ _ _ Hd id) as (_ & Hoh & Hoc). pose proof (e_calm _ _ _ _ _ He) as Hc.
  set (w1 := new_file w (data_file_name_compaction id)).
  set (w2 := new_file w1 (hint_file_name id)).
  assert (dir w1 !! hint_file_name id = None) as Hfh1.
  { cbn. by rewrite lookup_insert_ne by (apply not_eq_sym, hint_ne_compact). }
  assert (id ∉ (mlog pl outs ++ later t).*1) as Hnin.
  { rewrite fmap_app, not_elem_of_app. split; [by apply (mlog_not_in pl Hpl Hm); unfold id; lia|].
    intros Hin. apply (tail_not_in pl Hm id); [unfold id; lia|]. unfold tail_files. rewrite fmap_app.
    apply elem_of_app. by left. }
  assert (engine sh w1 (mlog pl outs ++ later t) (cur t) (cmds t)) as He1
    by (apply (engine_side_create sh w _ _ _ _ id He Hfc Hid); [unfold id; lia|by left]).
  assert (engine sh w2 (mlog pl outs ++ later t) (cur t) (cmds t)) as He2
    by (apply (engine_side_create sh w1 _ _ _ _ id He1 Hfh1 Hid); [unfold id; lia|by right]).
  unfold Compaction.on_world, bind at 1, on_snd at 1 2. cbn [fst snd].
  unfold MergeOutput.open. rewrite (bind_ok _ _ _ _ _ (open_create_new w Hc _ Hoc Hfc)). fold w1.
  rewrite (bind_ok _ _ _ _ _ (open_create_new w1 Hc _ Hoh Hfh1)). fold w2.
  eexists _, w2. split; [done|].
  pose proof (writing_new w _ id (d_dir _ _ _ _ _ Hd) Hfc Hfh eq_refl) as Hwr. fold w1 w2 in Hwr.
  split_and!; try done.
  - destruct Hm. split; try done.
    + cbn. unfold opened. cbn. unfold id. lia.
    + unfold output_ok. cbn. split_and!; [done|done|]. rewrite Hpend.
      split; cbn; constructor.
    + intros i Hi. cbn in Hi. assert (is_u64 i) as Hiu by ulia.
      destruct (mg_fresh i) as [F1 F2]; [unfold id in Hi; lia|]. cbn [dir w2 w1 new_file].
      rewrite !lookup_insert_ne; try done; try apply hint_ne_compact;
        try (apply not_eq_sym, hint_ne_compact); intros E.
      * apply compact_file_name_inj in E; [lia|done|done].
      * apply hint_file_name_inj in E; [lia|done|done].
  - split; [done|]. intros i h Hg. destruct (reader_inode _ _ _ _ _ _ _ He Hg) as [Hlt _].
    unfold w2, w1. rewrite !bytes_of_new_file, !durable_of_new_file by (cbn; lia). done.
Qed.

End plan.

(** ** Copying a record *)

Lemma hint_enc_snoc id oc c :
  hint_enc id (oc ++ [c]) =
  hint_enc id oc ++ IndexValue.serialize (place id (blen (enc oc)) c) (Command.get_key c).
Proof.
  unfold hint_enc. rewrite located_app, fmap_app, concat_app. f_equal. apply app_nil_r.
Qed.

(** Writing to one of the two files of an output leaves what the other took. *)
Lemma taken_side b w w' f : side_write f w w' -> BufWriter.file b <> f -> taken b w' = taken b w.
Proof. intros Hs Hne. unfold taken. by destruct (sw_same _ _ _ Hs _ Hne) as [-> _]. Qed.

Lemma writing_files w out oc :
  dir_ok w -> writing w out oc ->
  BufWriter.file (MergeOutput.data out) <> BufWriter.file (MergeOutput.hint out).
Proof.
  intros Hd [Hw1 Hw2 _ _ _ _] E. rewrite <- E in Hw2.
  pose proof (d_links _ Hd _ _ _ Hw2 Hw1) as E'. by apply hint_ne_compact in E'.
Qed.

Lemma output_append_run w out oc ts k v :
  let c := Set_ ts k v in
  faults w = [] -> dir_ok w -> writing w out oc -> good_cmd c ->
  blen (enc oc) + blen (Command.serialize c) <= u64_max ->
  exists out' w1 w', MergeOutput.append (Command.serialize c) k ts (out, w) =
      (Ok (place (MergeOutput.id out) (blen (enc oc)) c), (out', w')) /\
    writing w' out' (oc ++ [c]) /\ MergeOutput.id out' = MergeOutput.id out /\
    side_write (BufWriter.file (MergeOutput.data out)) w w1 /\
    side_write (BufWriter.file (MergeOutput.hint out)) w1 w'.
Proof.
  intros c Hc Hd Hw Hg Hl. pose proof (writing_files w out oc Hd Hw) as Hne.
  destruct out as [id db hb wr]. destruct Hw as [W1 W2 W3 W4 W5 W6].
  cbn [MergeOutput.id MergeOutput.data MergeOutput.hint MergeOutput.written] in *.
  destruct (write_all_run db w (Command.serialize c) Hc) as (db' & w1 & Hr1 & Hf1 & Hs1 & Ht1).
  assert (faults w1 = []) as Hc1 by by rewrite (sw_faults _ _ _ Hs1).
  set (iv := place id (blen (enc oc)) c).
  destruct (write_all_run hb w1 (IndexValue.serialize iv k) Hc1)
    as (hb' & w2 & Hr2 & Hf2 & Hs2 & Ht2).
  unfold MergeOutput.append. unfold bind at 1, MergeOutput.on_data at 1.
  cbn [MergeOutput.id MergeOutput.data MergeOutput.hint MergeOutput.written]. rewrite Hr1.
  unfold bind at 1, gets. cbn [fst MergeOutput.id MergeOutput.written]. rewrite W5.
  change {| IndexValue.file_id := id; IndexValue.ts := ts; IndexValue.offset := blen (enc oc);
            IndexValue.len := blen (Command.serialize c) |} with iv.
  unfold bind at 1, MergeOutput.on_hint at 1.
  cbn [MergeOutput.id MergeOutput.data MergeOutput.hint MergeOutput.written]. rewrite Hr2.
  rewrite bind_outcome. unfold u64_add. rewrite (proj2 (Z.leb_le _ _) Hl).
  eexists _, w1, w2. split; [done|]. split_and!; try done.
  split; cbn [fst MergeOutput.id MergeOutput.data MergeOutput.hint MergeOutput.written].
  - rewrite (sw_dir _ _ _ Hs2), (sw_dir _ _ _ Hs1), Hf1. done.
  - rewrite (sw_dir _ _ _ Hs2), (sw_dir _ _ _ Hs1), Hf2. done.
  - rewrite (taken_side db' _ _ _ Hs2) by by rewrite Hf1. by rewrite Ht1, W3, enc_app, enc_one.
  - rewrite Ht2, (taken_side hb _ _ _ Hs1) by done. by rewrite W4, hint_enc_snoc.
  - by rewrite enc_app, enc_one, blen_app.
  - apply Forall_app. by split; [|constructor].
Qed.

(** Two side writes to the files of the output. *)
Lemma engine_output_writes sh w w1 w' log cur cmds out oc :
  engine sh w log cur cmds -> writing w out oc -> is_u64 (MergeOutput.id out) ->
  MergeOutput.id out ∉ log.*1 ->
  side_write (BufWriter.file (MergeOutput.data out)) w w1 ->
  side_write (BufWriter.file (MergeOutput.hint out)) w1 w' ->
  engine sh w' log cur cmds /\ steady sh w sh w' /\ dir w' = dir w.
Proof.
  intros He [W1 W2 _ _ _ _] Hid Hn Hs1 Hs2.
  assert (engine sh w1 log cur cmds) as He1.
  { eapply engine_side_write; [exact He|exact W1| |exact Hs1]. eexists. split; [done|by left]. }
  split_and!.
  - eapply engine_side_write; [exact He1| | |exact Hs2].
    + rewrite (sw_dir _ _ _ Hs1). exact W2.
    + eexists. split; [done|by right].
  - split; [done|]. intros i h Hg. destruct (reader_inode _ _ _ _ _ _ _ He Hg) as [_ Hname].
    destruct (sw_same _ _ _ Hs2 h) as [-> ->].
    { intros ->. specialize (Hname _ W2). by apply not_eq_sym in Hname; [|apply data_ne_hint]. }
    destruct (sw_same _ _ _ Hs1 h) as [-> ->]; [|done].
    intros ->. specialize (Hname _ W1). symmetry in Hname. by apply data_ne_compact in Hname.
  - by rewrite (sw_dir _ _ _ Hs2), (sw_dir _ _ _ Hs1).
Qed.

(** The places looked at after one more record. *)
Definition and_place (seen : Z -> Z -> Prop) (id off : Z) : Z -> Z -> Prop :=
  fun i o => seen i o \/ (i = id /\ o = off).

Section copy.
Context (pl : Plan) (Hpl : plan_ok pl).

(** A record that is not live is passed over. *)
Lemma merging_skip seen n m sh w outs oc t id off n' :
  merging pl seen n m sh w outs oc t -> id ∈ (srcs pl).*1 -> n <= n' ->
  (forall k e, state_of (mlog pl outs) !! k = Some e -> k ∉ tail_keys t ->
     IndexValue.file_id (fst e) = id -> IndexValue.offset (fst e) = off -> False) ->
  merging pl (and_place seen id off) n' m sh w outs oc t.
Proof using.
  intros [] Hin Hn Hdead. split; try done.
  - intros k e Hk [Hs|[E1 E2]] Hnew; [by eapply mg_seen|]. by destruct (Hdead k e Hk).
  - eapply Forall_impl; [exact mg_pending|]. intros p Hp. by left.
  - intros i o [H|[-> _]]; [by eapply mg_scope|done].
  - lia.
Qed.

(** A live record is copied to the output. *)
Lemma merging_copy seen n m sh w w1 w' outs oc t out out' id off c ts k v :
  let p := {| key := k; previous_value := place id off c;
              new_value := place (MergeOutput.id out) (blen (enc oc)) c |} in
  merging pl seen n m sh w outs oc t -> Compaction.output m = Some out -> c = Set_ ts k v ->
  id ∈ (srcs pl).*1 -> id ∈ (front pl).*1 -> ~ seen id off ->
  old_active pl + Z.of_nat (length outs) + 2 < new_active pl ->
  state_of (mlog pl outs) !! k = Some (place id off c, v) ->
  (forall k' e, state_of (mlog pl outs) !! k' = Some e -> IndexValue.file_id (fst e) = id ->
     IndexValue.offset (fst e) = off -> k' = k) ->
  writing w' out' (oc ++ [c]) -> MergeOutput.id out' = MergeOutput.id out ->
  side_write (BufWriter.file (MergeOutput.data out)) w w1 ->
  side_write (BufWriter.file (MergeOutput.hint out)) w1 w' ->
  merging pl (and_place seen id off) (n + blen (Command.serialize c))
    (Compaction.set_pending (Compaction.set_output m (Some out'))
       (Compaction.pending_records m ++ [p])) sh w' outs (oc ++ [c]) t /\ steady sh w sh w'.
Proof using Hpl.
  intros p Hm Eo Ec Hin Hfr Hns Hroom Hst Huniq Hw' Hid' Hs1 Hs2.
  pose proof (mg_output Hm) as Hout. unfold output_ok in Hout. rewrite Eo in Hout.
  destruct Hout as (Hw & Hid & Hdf). pose proof (mg_next Hm) as Hnext.
  unfold opened in Hnext. rewrite Eo in Hnext.
  pose proof (pl_old _ Hpl) as [HP0 _]. pose proof (pl_new _ Hpl) as HN.
  assert (is_u64 (MergeOutput.id out)) as Hou by (rewrite Hid; ulia).
  assert (MergeOutput.id out ∉ (mlog pl outs ++ later t).*1) as Hnin.
  { rewrite fmap_app, not_elem_of_app. split; [apply (mlog_not_in pl Hpl Hm); lia|].
    intros Hx. apply (tail_not_in pl Hm (MergeOutput.id out)); [lia|]. unfold tail_files. rewrite fmap_app.
    apply elem_of_app. by left. }
  destruct (engine_output_writes _ _ _ _ _ _ _ _ _ (mg_engine Hm) Hw Hou Hnin Hs1 Hs2) as (He' & Hsteady & Ed).
  split; [|done].
  assert (k ∉ key <$> Compaction.pending_records m) as Hk.
  { intros (q & -> & Hq)%list_elem_of_fmap. apply Hns.
    pose proof (mg_pending Hm) as Hp. rewrite Forall_forall in Hp.
    specialize (Hp q Hq). destruct Hdf as [Hfor _ _].
    apply list_elem_of_lookup in Hq as [j Hj]. destruct (Forall2_lookup_r _ _ _ _ _ Hfor Hj)
      as (e & _ & ts' & v' & _ & _ & Hst'). rewrite Hst in Hst'. injection Hst' as E _. rewrite <- E in Hp.
    exact Hp. }
  destruct Hm. split; try done; cbn [Compaction.set_pending Compaction.set_output
    Compaction.next_compaction_file_id Compaction.pending_records Compaction.output].
  - unfold output_ok. cbn. rewrite Hid'. split_and!; [done|done|]. destruct Hdf as [D1 D2 D3]. split.
    + rewrite located_app. apply Forall2_app; [done|]. rewrite Z.add_0_l. constructor; [|constructor].
      exists ts, v. split_and!; [exact Ec|done|exact Hst].
    + rewrite fmap_app. apply NoDup_app. split_and!; [done| |apply NoDup_singleton].
      intros x Hx Hx'. apply list_elem_of_singleton in Hx' as ->. done.
    + apply Forall_app. split; [done|]. by constructor.
  - by rewrite Ed.
  - intros k' e Hk' Hs Hnew. rewrite fmap_app. apply elem_of_app. destruct Hs as [Hs|[E1 E2]].
    + left. by eapply mg_seen.
    + right. apply list_elem_of_singleton. by eapply Huniq.
  - apply Forall_app. split.
    + eapply Forall_impl; [exact mg_pending|]. intros q Hq. by left.
    + constructor; [|constructor]. by right.
  - intros i o [H|[-> _]]; [by eapply mg_scope|done].
  - rewrite enc_app, enc_one, blen_app. lia.
Qed.

(** Looking a record up in the index. *)
Lemma merge_record_lookup seen n m sh w outs oc t k :
  merging pl seen n m sh w outs oc t ->
  exists h, Index.read_access (index sh) k = Ok h /\ h !! k = fst <$> state_of (flog pl outs t) !! k.
Proof using.
  intros Hm. pose proof (e_index _ _ _ _ _ (mg_engine Hm)) as Hi. rewrite <- flog_eq in Hi.
  destruct (access_is _ _ k Hi) as (h & Ha & Hk). exists h. split; [done|]. by rewrite Hk, places_lookup.
Qed.

Section record.
Context {seen : Z -> Z -> Prop} {n : Z} {m : Compaction.Merge} {sh : Shared} {w : World}
  {outs : list (Z * list Command)} {oc : list Command} {t : Tail}.
Context (Hm : merging pl seen n m sh w outs oc t) (Ho : Compaction.output m <> None).
Context {id : Z} {cs pre post : list Command} {c : Command}.
Context (Hin : (id, cs) ∈ srcs pl) (Hcs : cs = pre ++ c :: post).
Context (Hns : ~ seen id (blen (enc pre))).
Context (Hroom : old_active pl + Z.of_nat (length outs) + 2 < new_active pl).

(** The index does not point at the record: nothing is copied. *)
Lemma record_skip :
  (forall k e, state_of (flog pl outs t) !! k = Some e -> IndexValue.file_id (fst e) = id ->
     IndexValue.offset (fst e) = blen (enc pre) -> False) ->
  merging pl (and_place seen id (blen (enc pre))) (n + blen (Command.serialize c)) m sh w outs oc t.
Proof using Hm Hin.
  intros Hdead. apply merging_skip with n; [done| | |].
  - by apply (list_elem_of_fmap_2 fst _ (id, cs)).
  - pose proof (blen_nonneg (Command.serialize c)). lia.
  - intros k e Hk Hnew E1 E2. rewrite <- (flog_old pl k Hnew) in Hk. by apply (Hdead k e).
Qed.

Lemma merge_record_run :
  n + blen (Command.serialize c) <= total_bytes (srcs pl) ->
  exists m' w' oc',
    Compaction.merge_record id (blen (enc pre)) (Command.serialize c) (m, (sh, w)) =
      (Ok tt, (m', (sh, w'))) /\
    merging pl (and_place seen id (blen (enc pre))) (n + blen (Command.serialize c)) m' sh w' outs oc' t /\
    Compaction.output m' <> None /\
    Compaction.ids_to_remove m' = Compaction.ids_to_remove m /\ steady sh w sh w'.
Proof using Hpl Hm Ho Hin Hns Hroom Hcs.
  intros Hn. destruct (pl_srcs _ Hpl _ _ Hin) as (_ & Hlt & Hg).
  assert (good_cmd c) as Hc.
  { rewrite Hcs in Hg. by apply Forall_app in Hg as [_ [? _]%Forall_cons]. }
  assert (id ∈ (srcs pl).*1) as Hid by by apply (list_elem_of_fmap_2 fst _ (id, cs)).
  pose proof (active_lt pl Hpl) as Hact.
  assert (forall k e, state_of (flog pl outs t) !! k = Some e -> IndexValue.file_id (fst e) = id ->
    state_of (mlog pl outs) !! k = Some e) as Hlog.
  { intros k e Hk E. apply (flog_below pl Hm k e Hk). lia. }
  unfold Compaction.merge_record. rewrite bind_outcome.
  pose proof (deserialize_serialize c [] (proj1 Hc)) as Hd. rewrite app_nil_r in Hd. rewrite Hd.
  cbn [fst]. pose proof record_skip as Hskip. revert Hcs Hc Hskip Hn Hd. destruct c as [ts k v|ts k]; intros Hcs' Hc Hskip Hn Hd.
  2:{ exists m, w, oc. split; [done|]. split_and!; try done. apply Hskip.
      intros k' e Hk' E1 E2.
      by destruct (source_live pl Hpl Hm id cs pre _ post k' e Hin Hcs' (Hlog _ _ Hk' E1) E1 E2) as (_ & ts' & ? & _). }
  unfold bind at 1, gets at 1. cbn [fst snd].
  destruct (merge_record_lookup _ _ _ _ _ _ _ _ k Hm) as (h & Ha & Hk).
  rewrite bind_outcome, Ha, Hk.
  destruct (match fst <$> state_of (flog pl outs t) !! k with
    | Some e => (IndexValue.file_id e =? id) && (IndexValue.offset e =? blen (enc pre))
    | None => false end) eqn:Esit.
  2:{ exists m, w, oc. split; [done|]. split_and!; try done. apply Hskip.
      intros k' e' Hk' E1 E2.
      destruct (source_live pl Hpl Hm id cs pre _ post k' e' Hin Hcs' (Hlog _ _ Hk' E1) E1 E2) as (_ & ts' & [= _ <- _] & _).
      rewrite Hk' in Esit. cbn in Esit. apply andb_false_iff in Esit as [E|E]; lia. }
  destruct (state_of (flog pl outs t) !! k) as [[e v']|] eqn:Est; [|done]. cbn [fmap option_fmap option_map fst] in Esit.
  apply andb_true_iff in Esit as [E1%Z.eqb_eq E2%Z.eqb_eq]. apply Hlog in Est as Est'; [|done].
  destruct (source_live pl Hpl Hm id cs pre _ post k _ Hin Hcs' Est' E1 E2) as (Hfr & ts' & [= <- <-] & Hpl').
  cbn [fst snd] in Hpl'. subst e.
  destruct (Compaction.output m) as [out|] eqn:Eo; [|done].
  pose proof (mg_output Hm) as Hout. unfold output_ok in Hout. rewrite Eo in Hout.
  destruct Hout as (Hw & _). pose proof (mg_bytes Hm). pose proof (total_bytes_nonneg outs).
  pose proof (mg_engine Hm) as He. pose proof (pl_total _ Hpl).
  destruct (output_append_run w out oc ts k v (e_calm _ _ _ _ _ He) (d_dir _ _ _ _ _ (e_disk _ _ _ _ _ He))
    Hw Hc ltac:(lia)) as (out' & w1 & w' & Happ & Hw' & Hid' & Hs1 & Hs2).
  unfold bind at 1, Compaction.on_output. rewrite Eo, Happ.
  destruct (merging_copy seen n m sh w w1 w' outs oc t out out' id (blen (enc pre)) (Set_ ts k v) ts k v)
    as [Hm' Hsteady]; try done.
  { intros k' e' Hk' F1 F2.
    by destruct (source_live pl Hpl Hm id cs pre _ post k' e' Hin Hcs' Hk' F1 F2) as (_ & ts' & [= _ <- _] & _). }
  by eexists _, w', (oc ++ [Set_ ts k v]).
Qed.
End record.
End copy.

(** ** A whole source file *)

(** The offsets of the records of a file, and the places of the records of some
    files. *)
Definition offsets (cs : list Command) : list Z :=
  (fun e => IndexValue.offset (snd e)) <$> located 0 0 cs.

Definition seen_in (fs : list (Z * list Command)) : Z -> Z -> Prop :=
  fun i o => exists cs, (i, cs) ∈ fs /\ o ∈ offsets cs.

Lemma offsets_snoc cs c : offsets (cs ++ [c]) = offsets cs ++ [blen (enc cs)].
Proof. unfold offsets. rewrite located_app, fmap_app. cbn. done. Qed.

Lemma offsets_lt cs o : o ∈ offsets cs -> o < blen (enc cs).
Proof.
  induction cs as [|c cs IH] using rev_ind; [by intros ?%not_elem_of_nil|].
  rewrite offsets_snoc, enc_app, enc_one, blen_app. pose proof (serialize_pos c).
  intros [Hx%IH| ->%list_elem_of_singleton]%elem_of_app; lia.
Qed.

Lemma offset_in_offsets pre c post : blen (enc pre) ∈ offsets (pre ++ c :: post).
Proof.
  unfold offsets. rewrite located_app, fmap_app. apply elem_of_app. right. cbn. left.
Qed.

Lemma seen_in_app fs1 fs2 i o : seen_in (fs1 ++ fs2) i o <-> seen_in fs1 i o \/ seen_in fs2 i o.
Proof.
  unfold seen_in. split.
  - intros (cs & [H|H]%elem_of_app & Ho); [left|right]; by exists cs.
  - intros [(cs & H & Ho)|(cs & H & Ho)]; exists cs; (split; [|done]); apply elem_of_app;
      [by left|by right].
Qed.

Lemma seen_in_one id cs i o : seen_in [(id, cs)] i o <-> i = id /\ o ∈ offsets cs.
Proof.
  unfold seen_in. split; [by intros (cs' & [= -> ->]%list_elem_of_singleton & Ho)|].
  intros [-> Ho]. exists cs. split; [by left|done].
Qed.

Section source.
Context (pl : Plan) (Hpl : plan_ok pl).

Lemma merging_seen (s1 s2 : Z -> Z -> Prop) n m sh w outs oc t :
  merging pl s1 n m sh w outs oc t -> (forall i o, s2 i o -> i ∈ (srcs pl).*1) ->
  (forall i o, s1 i o <-> s2 i o) -> merging pl s2 n m sh w outs oc t.
Proof using.
  intros [] Hsc H12. split; try done.
  - intros k e Hk Hs. eapply mg_seen; [done|]. by apply H12.
  - eapply Forall_impl; [exact mg_pending|]. intros p Hp. by apply H12.
Qed.

Context (done_ todo : list (Z * list Command)) (id : Z) (cs : list Command).
Context (Hsplit : srcs pl = done_ ++ (id, cs) :: todo).

Lemma source_scope pre i o : seen_in (done_ ++ [(id, pre)]) i o -> i ∈ (srcs pl).*1.
Proof using Hsplit.
  rewrite seen_in_app, seen_in_one. rewrite Hsplit, fmap_app. intros [(cs' & Hin & _)|[-> _]].
  - apply elem_of_app. left. by apply (list_elem_of_fmap_2 fst done_ (i, cs')).
  - apply elem_of_app. right. left.
Qed.

Lemma source_in : (id, cs) ∈ srcs pl.
Proof using Hsplit. rewrite Hsplit. apply elem_of_app. right. left. Qed.

Lemma source_unseen pre : ~ seen_in (done_ ++ [(id, pre)]) id (blen (enc pre)).
Proof using Hsplit Hpl.
  rewrite seen_in_app, seen_in_one. intros [(cs' & Hin & _)|[_ Ho%offsets_lt]]; [|lia].
  pose proof (pl_sorted _ Hpl) as Hasc. rewrite Hsplit in Hasc.
  pose proof (ascending_before _ _ _ _ _ _ Hasc Hin). lia.
Qed.

(** The places looked at, before the first record and after one more. *)
Lemma seen_start i o : seen_in done_ i o <-> seen_in (done_ ++ [(id, [])]) i o.
Proof using.
  rewrite seen_in_app, seen_in_one. split; [by left|]. intros [?|[_ ?%not_elem_of_nil]]; done.
Qed.

Lemma seen_snoc pre c i o :
  and_place (seen_in (done_ ++ [(id, pre)])) id (blen (enc pre)) i o <->
  seen_in (done_ ++ [(id, pre ++ [c])]) i o.
Proof using.
  unfold and_place. rewrite !seen_in_app, !seen_in_one, offsets_snoc, elem_of_app.
  rewrite list_elem_of_singleton. tauto.
Qed.

(** One record of the source, as the reader gives it. *)
Lemma source_record n m sh w outs oc t pre c rest b :
  cs = pre ++ c :: rest -> merging pl (seen_in (done_ ++ [(id, pre)])) n m sh w outs oc t ->
  Compaction.output m <> None -> old_active pl + Z.of_nat (length outs) + 2 < new_active pl ->
  n + blen (Command.serialize c) <= total_bytes (srcs pl) ->
  next_record (at_pos (enc cs) (blen (enc pre)) b) =
    (Ok (Record_ (blen (enc pre)) (Command.serialize c)),
     at_pos (enc cs) (blen (enc (pre ++ [c]))) (Command.serialize c)) /\
  exists m' w' oc',
    Compaction.merge_record id (blen (enc pre)) (Command.serialize c) (m, (sh, w)) =
      (Ok tt, (m', (sh, w'))) /\
    merging pl (seen_in (done_ ++ [(id, pre ++ [c])])) (n + blen (Command.serialize c)) m' sh w' outs oc' t /\
    Compaction.output m' <> None /\
    Compaction.ids_to_remove m' = Compaction.ids_to_remove m /\ steady sh w sh w'.
Proof using Hpl Hsplit.
  intros Hcs Hm Ho Hroom Hn. destruct (pl_srcs _ Hpl _ _ source_in) as (_ & _ & Hg). split.
  - assert (good_cmd c) as Hc.
    { rewrite Hcs in Hg. by apply Forall_app in Hg as [_ [? _]%Forall_cons]. }
    assert (zdrop (blen (enc pre)) (enc cs) = Command.serialize c ++ enc rest) as E.
    { rewrite Hcs, enc_app, enc_cons. by apply zdrop_app. }
    destruct (next_record_framed (enc cs) b (blen (enc pre)) (Command.serialize c) (enc rest))
      as (Hnext & _ & _); [|by apply framed_command, Hc|done|].
    { rewrite Hcs, enc_app, blen_app. split; [apply blen_nonneg|]. pose proof (blen_nonneg (enc (c :: rest))). lia. }
    rewrite Hnext. by rewrite enc_app, enc_one, blen_app.
  - destruct (merge_record_run pl Hpl Hm Ho source_in Hcs (source_unseen pre) Hroom Hn) as (m' & w' & oc' & Hrun & Hm' & H).
    exists m', w', oc'. split; [done|]. split; [|done].
    eapply merging_seen; [exact Hm'|intros i o; apply source_scope|intros i o; apply seen_snoc].
Qed.

Lemma merge_loop_records n m sh w outs oc t pre rest b fuel :
  cs = pre ++ rest -> merging pl (seen_in (done_ ++ [(id, pre)])) n m sh w outs oc t ->
  Compaction.output m <> None -> old_active pl + Z.of_nat (length outs) + 2 < new_active pl ->
  n + blen (enc rest) <= total_bytes (srcs pl) ->
  exists m' w' oc',
    Compaction.merge_loop (length rest + S fuel) id (at_pos (enc cs) (blen (enc pre)) b) (m, (sh, w)) =
      (Ok tt, (m', (sh, w'))) /\
    merging pl (seen_in (done_ ++ [(id, cs)])) (n + blen (enc rest)) m' sh w' outs oc' t /\
    Compaction.output m' <> None /\
    Compaction.ids_to_remove m' = Compaction.ids_to_remove m ++ [id] /\ steady sh w sh w'.
Proof using Hpl Hsplit.
  revert n m w oc pre b. induction rest as [|c rest IH]; intros n m w oc pre b Hcs Hm Ho Hroom Hn.
  { rewrite app_nil_r in Hcs. subst pre. cbn [length Nat.add Compaction.merge_loop].
    rewrite next_record_clean, bind_outcome. unfold Compaction.upd, on_fst, modify. cbn [fst snd].
    eexists _, w, oc. split; [done|]. change (blen (enc [])) with 0. rewrite Z.add_0_r.
    split_and!; try done. destruct Hm. by split. }
  rewrite enc_cons, blen_app in Hn. pose proof (blen_nonneg (enc rest)).
  destruct (source_record n m sh w outs oc t pre c rest b Hcs Hm Ho Hroom ltac:(lia))
    as (Hnext & m1 & w1 & oc1 & Hrun & Hm1 & Ho1 & Hr1 & Hst1).
  destruct (IH (n + blen (Command.serialize c)) m1 w1 oc1 (pre ++ [c]) (Command.serialize c))
    as (m' & w' & oc' & Hloop & Hm' & Ho' & Hr' & Hst'); try done.
  { by rewrite <- app_assoc. }
  { lia. }
  exists m', w', oc'. split_and!; try done.
  - cbn [length Nat.add Compaction.merge_loop]. rewrite Hnext, bind_outcome.
    by rewrite (bind_ok _ _ _ _ _ Hrun).
  - rewrite enc_cons, blen_app, Z.add_assoc. done.
  - by rewrite Hr', Hr1.
  - by eapply steady_trans.
Qed.

End source.
End merge.
