(* ===== verification/MergePublish.v ===== *)
(** * Publishing an output and moving the index to it

    [finish_output]: the output is synced, renamed and opened for reading, and
    becomes a file of the log; then the deferred index updates are made one by
    one. In between the index lags behind the log: for the keys whose update is
    still to come, and that nobody wrote meanwhile, it points at the source. *)

From Stdlib Require Import ZArith Lia Strings.Byte.
From stdpp Require Import base numbers list strings gmap.
From S2P Require Import Prelude Bytes Crc CommandFormat HintFormat Streams Reader KeyDir Text Names Config FileSystem Lock BTree Engine Load Merge Log Inv EngineProofs Replay MergeFiles MergeState MergeCopy.
Import Command(Command, Set_, Rm).
Import RecordReader Shared.
Import MergeOutput(MergeOutput).

Local Open Scope Z_scope.

(** ** An index that lags behind *)

(** The index [mi] with the updates [ps] still to make, except for the keys in
    [newer]. *)
Definition lag (ps : list PendingUpdate) (newer : list (list byte)) (mi : gmap (list byte) IndexValue)
  : gmap (list byte) IndexValue :=
  foldr (fun p m => if decide (key p ∈ newer) then m else <[key p := previous_value p]> m) mi ps.

Lemma lag_other ps newer mi k : (k ∉ key <$> ps) \/ k ∈ newer -> lag ps newer mi !! k = mi !! k.
Proof.
  intros Hk. induction ps as [|p ps IH]; [done|]. cbn [lag foldr].
  assert (k ∉ key <$> ps \/ k ∈ newer) as Hk' by (rewrite fmap_cons, not_elem_of_cons in Hk; tauto).
  specialize (IH Hk'). case_decide as Hp; [done|]. rewrite lookup_insert_ne; [done|].
  intros <-. rewrite fmap_cons, not_elem_of_cons in Hk. tauto.
Qed.

Lemma lag_pending ps newer mi p :
  NoDup (key <$> ps) -> p ∈ ps -> key p ∉ newer ->
  lag ps newer mi !! key p = Some (previous_value p).
Proof.
  intros Hnd Hp Hk. induction ps as [|q ps IH]; [by apply not_elem_of_nil in Hp|].
  rewrite fmap_cons in Hnd. apply NoDup_cons in Hnd as [Hq Hnd]. cbn [lag foldr].
  apply elem_of_cons in Hp as [->|Hp]; [by rewrite decide_False, lookup_insert_eq by done|].
  assert (key q <> key p) as Hne.
  { intros E. apply Hq. rewrite E. by apply list_elem_of_fmap_2. }
  case_decide; [by apply IH|]. rewrite lookup_insert_ne by done. by apply IH.
Qed.

(** A write to [k] is seen by the index that lags as by the other. *)
Lemma lag_write (ps : list PendingUpdate) (newer : list (list byte)) (mi : Index.HashMap) (k : list byte)
  (f : Index.HashMap -> Index.HashMap) :
  (forall m m', f m !! k = f m' !! k) -> (forall m k', k' <> k -> f m !! k' = m !! k') ->
  NoDup (key <$> ps) -> f (lag ps newer mi) = lag ps (k :: newer) (f mi).
Proof.
  intros Hf Ho Hnd. apply map_eq. intros k'. destruct (decide (k' = k)) as [->|Hne].
  { rewrite lag_other by (right; left). apply Hf. }
  rewrite Ho by done. destruct (decide (k' ∈ newer)) as [Hn|Hn].
  { rewrite !lag_other by (right; (done || by right)). by rewrite Ho. }
  destruct (decide (k' ∈ key <$> ps)) as [Hp|Hp].
  - apply list_elem_of_fmap in Hp as (p & -> & Hp). rewrite !lag_pending; try done.
    by rewrite not_elem_of_cons.
  - rewrite !lag_other by by left. by rewrite Ho.
Qed.

(** ** The index as a map *)

Lemma index_exists m : exists i, index_is i m.
Proof.
  induction m as [|k v m _ [i Hi]] using map_ind.
  - exists (Index.from (replicate Index.INDEX_BUCKETS_NUM ∅)). apply index_is_from, represents_empty.
  - exists (Index.from (Index.bucket_insert (Index.locked_map <$> Index.index i) k v)).
    apply index_is_from, represents_insert, Hi.
Qed.

(** Changing one entry under its bucket's lock. *)
Lemma with_bucket_run {A : Type} (sh : Shared) (w : World) (mi : Index.HashMap) (k : list byte)
  (body : Index.HashMap -> A * Index.HashMap) (f : Index.HashMap -> Index.HashMap) :
  index_is (index sh) mi ->
  (forall m, m !! k = mi !! k -> snd (body m) = f m) ->
  (forall arr, represents arr mi -> represents (Index.bucket_update arr k f) (f mi)) ->
  exists i a, with_bucket k (fun m => ret (body m)) (sh, w) = (Ok a, (set_index sh i, w)) /\
    index_is i (f mi).
Proof.
  intros Hi Hb Hf. destruct (access_is _ _ k Hi) as (h & Ha & Hk).
  unfold with_bucket. cbn [fst].
  change (Index.write_access (index sh) k) with (Index.access (index sh) k). rewrite Ha.
  cbn [ret]. destruct (body h) as [a h'] eqn:Eb. eexists _, a. split; [done|].
  specialize (Hb h Hk). rewrite Eb in Hb. cbn in Hb. subst h'.
  eapply write_back_is; [done|done|]. apply Hf, Hi.
Qed.

Section merge.
Context `{Crc : Crc32}.

Lemma engine_swap_index sh w log cur cmds iv i :
  engine (set_index sh iv) w log cur cmds ->
  index_is i (places (state_of (log ++ [(cur, cmds)]))) -> engine (set_index sh i) w log cur cmds.
Proof. intros [] Hi. by split. Qed.

Lemma set_index_id sh : set_index sh (index sh) = sh.
Proof. by destruct sh. Qed.

(** ** The invariant while the updates are made *)

Section plan.
Context (pl : Plan).

(** An update that is still to make: from the record in a source to its copy. *)
Definition update_for (st : KV) (p : PendingUpdate) : Prop :=
  exists v, st !! key p = Some (new_value p, v) /\
    entry_in (front pl) (key p) (previous_value p, v) /\
    IndexValue.len (previous_value p) = IndexValue.len (new_value p).

Record applying (seen : Z -> Z -> Prop) (n : Z) (m : Compaction.Merge) (sh : Shared) (w : World)
  (outs : list (Z * list Command)) (t : Tail) (ps : list PendingUpdate) : Prop := {
  (** with the index brought up to date, the invariant of the loop holds *)
  ap_merging : exists iv, merging pl seen n m (set_index sh iv) w outs [] t;
  ap_output : Compaction.output m = None;
  ap_index : index_is (index sh) (lag ps (tail_keys t) (places (state_of (flog pl outs t))));
  ap_keys : NoDup (key <$> ps);
  ap_updates : Forall (update_for (state_of (mlog pl outs))) ps
}.

Lemma merging_swap_index seen n m sh w outs oc t iv i :
  merging pl seen n m (set_index sh iv) w outs oc t ->
  index_is i (places (state_of (flog pl outs t))) ->
  merging pl seen n m (set_index sh i) w outs oc t.
Proof using.
  intros [] Hi. split; try done. eapply engine_swap_index; [done|]. by rewrite <- flog_eq.
Qed.

Lemma applying_done seen n m sh w outs t :
  applying seen n m sh w outs t [] -> merging pl seen n m sh w outs [] t.
Proof using.
  intros [[iv Hm] _ Hi _ _]. rewrite <- (set_index_id sh). by eapply merging_swap_index.
Qed.

Context (Hpl : plan_ok pl).

(** The next update is made. *)
Lemma apply_pending_run seen n m sh w outs t p ps :
  applying seen n m sh w outs t (p :: ps) ->
  exists i, Compaction.apply_pending p (sh, w) = (Ok tt, (set_index sh i, w)) /\
    applying seen n m (set_index sh i) w outs t ps.
Proof using Hpl.
  intros [[iv Hm] Ho Hi Hnd Hup]. rewrite fmap_cons in Hnd. apply NoDup_cons in Hnd as [Hp Hnd].
  apply Forall_cons in Hup as [(v & Hst & Hent & _) Hup].
  set (F := state_of (flog pl outs t)) in *. set (mi := lag (p :: ps) (tail_keys t) (places F)) in *.
  assert (IndexValue.file_id (previous_value p) < new_active pl) as Hlt.
  { destruct Hent as (cs & _ & _ & _ & Hin & _). apply (front_lt pl Hpl) in Hin.
    pose proof (active_lt pl Hpl). cbn [fst] in Hin. lia. }
  assert (exists (f : Index.HashMap -> Index.HashMap) (b : bool),
    (forall m, m !! key p = mi !! key p ->
       (match m !! key p with
        | Some e => (IndexValue.file_id e =? IndexValue.file_id (previous_value p)) &&
                    (IndexValue.offset e =? IndexValue.offset (previous_value p))
        | None => false end) = b /\ f m = if b then <[key p := new_value p]> m else m) /\
    f mi = lag ps (tail_keys t) (places F) /\
    (forall arr, represents arr mi -> represents (Index.bucket_update arr (key p) f) (f mi)))
    as (f & b & Hf & Hlag & Hrep).
  { destruct (decide (key p ∈ tail_keys t)) as [Hk|Hk].
    - exists (fun m => m), false.
      assert (mi = lag ps (tail_keys t) (places F)) as E.
      { unfold mi. cbn [lag foldr]. by rewrite decide_True by done. }
      split_and!; [|done|].
      + intros h ->. split; [|done]. rewrite E, lag_other, places_lookup by by right.
        destruct (F !! key p) as [e|] eqn:EF; cbn [fmap option_fmap option_map]; [|done].
        pose proof (flog_new pl Hm _ _ Hk EF).
        by rewrite (proj2 (Z.eqb_neq (IndexValue.file_id (fst e)) _)) by lia.
      + intros arr [Hl Hr]. split; [by rewrite length_bucket_update|]. intros k'.
        unfold Index.bucket_update. unfold represents in Hr. rewrite <- Hr. unfold Index.bucket_get.
        destruct (arr !! Index.get_bucket (key p)) as [h|] eqn:Eb; [|done].
        by rewrite list_insert_id.
    - exists (fun m => <[key p := new_value p]> m), true. split_and!.
      + intros h ->. unfold mi. rewrite (lag_pending (p :: ps) _ _ p); try done.
        * by rewrite !Z.eqb_refl.
        * by constructor.
        * left.
      + unfold mi. cbn [lag foldr]. rewrite decide_False by done.
        rewrite insert_insert_eq. apply insert_id. rewrite lag_other by by left.
        unfold F. rewrite places_lookup, (flog_old pl _ Hk), Hst. done.
      + intros arr Hr. by apply represents_insert. }
  destruct (with_bucket_run sh w mi (key p) (fun m => (tt, if match m !! key p with
      | Some e => (IndexValue.file_id e =? IndexValue.file_id (previous_value p)) &&
                  (IndexValue.offset e =? IndexValue.offset (previous_value p))
      | None => false end then <[key p := new_value p]> m else m)) f Hi) as (i & [] & Hrun & Hi').
  { intros h Hh. destruct (Hf h Hh) as [-> ->]. done. }
  { done. }
  exists i. split; [exact Hrun|]. rewrite Hlag in Hi'. split; try done. by exists iv.
Qed.

Lemma apply_all_run seen n m sh w outs t ps :
  applying seen n m sh w outs t ps ->
  exists i, Compaction.apply_all ps (sh, w) = (Ok tt, (set_index sh i, w)) /\
    merging pl seen n m (set_index sh i) w outs [] t.
Proof using Hpl.
  revert sh. induction ps as [|p ps IH]; intros sh Hap.
  { exists (index sh). rewrite set_index_id. split; [done|]. by apply applying_done. }
  destruct (apply_pending_run _ _ _ _ _ _ _ _ _ Hap) as (i & Hrun & Hap').
  destruct (IH _ Hap') as (i' & Hrun' & Hm). exists i'. split; [|done].
  cbn [Compaction.apply_all]. by rewrite (bind_ok _ _ _ _ _ Hrun).
Qed.

End plan.

(** ** Finishing an output *)

Lemma output_sync_run w out oc :
  faults w = [] -> dir_ok w -> writing w out oc ->
  exists out' w1 w', MergeOutput.sync (out, w) = (Ok tt, (out', w')) /\
    side_write (BufWriter.file (MergeOutput.data out)) w w1 /\
    side_write (BufWriter.file (MergeOutput.hint out)) w1 w' /\
    bytes_of w' (BufWriter.file (MergeOutput.data out)) = enc oc /\
    durable_of w' (BufWriter.file (MergeOutput.data out)) = blen (enc oc) /\
    bytes_of w' (BufWriter.file (MergeOutput.hint out)) = hint_enc (MergeOutput.id out) oc /\
    durable_of w' (BufWriter.file (MergeOutput.hint out)) = blen (hint_enc (MergeOutput.id out) oc).
Proof.
  intros Hc Hd Hw. pose proof (writing_files w out oc Hd Hw) as Hne.
  destruct out as [id db hb wr]. destruct Hw as [W1 W2 W3 W4 W5 W6].
  cbn [MergeOutput.id MergeOutput.data MergeOutput.hint MergeOutput.written] in *.
  destruct (flush_run db w Hc) as (w1 & Hf1 & Hs1 & Hb1).
  assert (faults w1 = []) as Hc1 by by rewrite (sw_faults _ _ _ Hs1).
  set (w2 := synced w1 (BufWriter.file db)).
  pose proof (side_write_synced (BufWriter.file db) w1 : side_write (BufWriter.file db) w1 w2) as Hs2.
  destruct (flush_run hb w2 Hc1) as (w3 & Hf3 & Hs3 & Hb3).
  assert (faults w3 = []) as Hc3 by by rewrite (sw_faults _ _ _ Hs3).
  set (w4 := synced w3 (BufWriter.file hb)).
  pose proof (side_write_synced (BufWriter.file hb) w3 : side_write (BufWriter.file hb) w3 w4) as Hs4.
  assert (side_write (BufWriter.file db) w w2) as Hd2 by by eapply side_write_trans.
  assert (side_write (BufWriter.file hb) w2 w4) as Hh4 by by eapply side_write_trans.
  assert (bytes_of w2 (BufWriter.file db) = enc oc /\ durable_of w2 (BufWriter.file db) = blen (enc oc))
    as [Hdb Hdd].
  { unfold w2. by rewrite durable_synced, bytes_synced, Hb1, W3. }
  assert (taken hb w2 = hint_enc id oc) as Hth by by rewrite (taken_side hb _ _ _ Hd2).
  eexists _, w2, w4. split; [|split_and!; [exact Hd2|exact Hh4|..]].
  - unfold MergeOutput.sync. unfold bind at 1, MergeOutput.on_data at 1. cbn [MergeOutput.data].
    rewrite Hf1. unfold bind at 1, gets. cbn [fst MergeOutput.data BufWriter.file].
    unfold bind at 1, on_snd at 1. cbn [fst snd]. rewrite sync_all_calm by done. fold (synced w1 (BufWriter.file db)). fold w2.
    unfold bind at 1, MergeOutput.on_hint at 1. cbn [MergeOutput.hint]. rewrite Hf3.
    unfold bind at 1. cbn [fst MergeOutput.hint BufWriter.file]. unfold on_snd. cbn [fst snd].
    rewrite sync_all_calm by done. done.
  - by destruct (sw_same _ _ _ Hh4 _ Hne) as [-> _].
  - by destruct (sw_same _ _ _ Hh4 _ Hne) as [_ ->].
  - unfold w4. by rewrite bytes_synced, Hb3.
  - unfold w4. by rewrite durable_synced, Hb3, Hth.
Qed.

Section finish.
Context (pl : Plan) (Hpl : plan_ok pl).

(** The log after the output [oid] is finished. *)
Lemma mlog_snoc outs oid oc : mlog pl (outs ++ [(oid, oc)]) = mlog pl outs ++ [(oid, oc)].
Proof using. unfold mlog. by rewrite <- app_assoc. Qed.

Lemma state_of_mlog_snoc outs oid oc :
  state_of (mlog pl (outs ++ [(oid, oc)])) = apply_all (state_of (mlog pl outs)) (located oid 0 oc).
Proof using. rewrite mlog_snoc. unfold state_of. by rewrite apply_files_snoc. Qed.

Section output.
Context {seen : Z -> Z -> Prop} {n : Z} {m : Compaction.Merge} {sh : Shared} {w : World}
  {outs : list (Z * list Command)} {oc : list Command} {t : Tail} {out : MergeOutput}.
Context (Hm : merging pl seen n m sh w outs oc t) (Eo : Compaction.output m = Some out).
Abbreviation oid := (MergeOutput.id out).

Lemma output_facts :
  writing w out oc /\ oid = old_active pl + Z.of_nat (length outs) + 1 /\
  deferred pl (state_of (mlog pl outs)) oid oc (Compaction.pending_records m).
Proof using Hm Eo.
  pose proof (mg_output Hm) as Hout. unfold output_ok in Hout. rewrite Eo in Hout.
  destruct Hout as (Hw & Hid & Hdf). pose proof (mg_next Hm) as Hnext. unfold opened in Hnext.
  rewrite Eo in Hnext. split_and!; [done|lia|done].
Qed.

(** What is live after the output is finished: its own records, and for other
    keys what was. *)
Lemma finished_state k :
  let st' := state_of (mlog pl (outs ++ [(oid, oc)])) in
  ((k ∈ key <$> Compaction.pending_records m) /\
     exists e v, e ∈ located oid 0 oc /\ Command.get_key (fst e) = k /\ st' !! k = Some (snd e, v)) \/
  ((k ∉ key <$> Compaction.pending_records m) /\ st' !! k = state_of (mlog pl outs) !! k).
Proof using Hm Eo.
  intros st'. destruct output_facts as (_ & _ & [Hfor Hnd _]). unfold st'. rewrite state_of_mlog_snoc.
  rewrite <- (pending_keys _ _ _ Hfor) in *.
  destruct (decide (k ∈ keys_of (located oid 0 oc))) as [Hk|Hk]; [left|right];
    (split; [done|]); [|by apply apply_all_other].
  apply list_elem_of_fmap in Hk as (e & -> & He).
  destruct (live_after (state_of (mlog pl outs)) _ e (located_sets _ _ _ (pending_sets _ _ _ _ _ Hfor)) Hnd He)
    as [v Hv]. by exists e, v.
Qed.

(** The value of a key does not change when its record is copied. *)
Lemma finished_values : values (state_of (mlog pl (outs ++ [(oid, oc)]))) = values (state_of (mlog pl outs)).
Proof using Hm Eo.
  destruct output_facts as (_ & _ & Hdf). rewrite state_of_mlog_snoc, copies_values; [done|].
  apply (pending_copies _ _ _ (df_for _ _ _ _ _ Hdf)).
Qed.

(** The index lags behind the log by the deferred updates. *)
Lemma finished_lag :
  places (state_of (flog pl outs t)) =
  lag (Compaction.pending_records m) (tail_keys t)
    (places (state_of (flog pl (outs ++ [(oid, oc)]) t))).
Proof using Hm Eo.
  destruct output_facts as (_ & _ & [Hfor Hnd _]). apply map_eq. intros k.
  destruct (decide (k ∈ tail_keys t)) as [Hk|Hk].
  { rewrite lag_other by by right. rewrite !places_lookup. unfold flog. by rewrite !state_of_app_new. }
  destruct (finished_state k) as [[Hp _]|[Hp Hst]].
  - apply list_elem_of_fmap in Hp as (p & -> & Hp). rewrite lag_pending by done.
    apply list_elem_of_lookup in Hp as [j Hj].
    destruct (Forall2_lookup_r _ _ _ _ _ Hfor Hj) as (e & _ & ts & v & _ & _ & Hst).
    by rewrite places_lookup, (flog_old pl _ Hk), Hst.
  - rewrite lag_other by by left. by rewrite !places_lookup, !(flog_old pl _ Hk), Hst.
Qed.

(** The deferred updates lead from a record of a source to its copy. *)
Lemma finished_updates :
  Forall (update_for pl (state_of (mlog pl (outs ++ [(oid, oc)])))) (Compaction.pending_records m).
Proof using Hpl Hm Eo.
  destruct output_facts as (_ & _ & [Hfor Hnd Hfr]). apply Forall_forall. intros p Hp.
  rewrite Forall_forall in Hfr. specialize (Hfr p Hp). pose proof Hp as Hp'.
  apply list_elem_of_lookup in Hp' as [j Hj].
  destruct (Forall2_lookup_r _ _ _ _ _ Hfor Hj) as (e & Hje & ts & v & He & Hnew & Hst).
  destruct (finished_state (key p)) as [(_ & e' & v' & He' & Hk' & Hst')|[Hn _]].
  2:{ destruct Hn. by apply list_elem_of_fmap_2. }
  rewrite state_of_mlog_snoc in Hst' |- *.
  assert (apply_all (state_of (mlog pl outs)) (located oid 0 oc) !! key p = Some (new_value p, v)) as Hlive.
  { apply list_elem_of_lookup_2 in Hje. pose proof (pending_keys _ _ _ Hfor) as Hks. rewrite <- Hks in Hnd.
    destruct (live_after (state_of (mlog pl outs)) _ e (located_sets _ _ _ (pending_sets _ _ _ _ _ Hfor)) Hnd Hje)
      as [v2 Hv2]. rewrite He in Hv2. cbn [Command.get_key] in Hv2. rewrite Hv2, <- Hnew. repeat f_equal.
    pose proof (f_equal (.!! key p) (copies_values _ _ (pending_copies _ _ _ Hfor))) as Hval.
    rewrite !values_lookup, Hv2, Hst in Hval. by injection Hval. }
  exists v. split; [done|].
  apply state_of_entry_in in Hst as Hent. destruct Hent as (cs & pre & post & ts' & Hin & Hcs & Hpl').
  cbn [fst snd] in *. split.
  - exists cs, pre, post, ts'. cbn [fst snd]. split_and!; [|done|done].
    apply list_elem_of_fmap in Hfr as ([i cs'] & Ei & Hfr). cbn [fst] in Ei. rewrite Ei in *.
    unfold mlog in Hin. apply elem_of_app in Hin as [Hin|[[= E _]|Hin]%elem_of_cons]; [done|..].
    + apply (front_lt pl Hpl) in Hfr. lia.
    + apply (front_lt pl Hpl) in Hfr. apply (list_elem_of_fmap_2 fst) in Hin. rewrite (mg_ids Hm) in Hin.
      apply elem_of_seqZ in Hin. cbn in Hin. lia.
  - rewrite Hpl'. cbn [place IndexValue.len]. apply list_elem_of_lookup_2 in Hje.
    apply located_place in Hje as [off Hoff]. rewrite Hnew, Hoff, He. cbn [place IndexValue.len].
    by rewrite !blen_serialize.
Qed.

(** The invariant after an output is finished and the index is up to date. *)
Lemma merging_finished sh' w' m' :
  old_active pl + Z.of_nat (length outs) + 2 < new_active pl ->
  engine sh' w' (mlog pl (outs ++ [(oid, oc)]) ++ later t) (cur t) (cmds t) -> config sh' = config sh ->
  m' = Compaction.set_pending (Compaction.set_output m None) [] ->
  (forall id h, (id, h) ∈ readers sh' -> id = oid \/ (id, h) ∈ readers sh) ->
  (forall id, oid < id < new_active pl -> dir w' !! hint_file_name id = dir w !! hint_file_name id /\
     dir w' !! data_file_name_compaction id = dir w !! data_file_name_compaction id) ->
  merging pl seen n m' sh' w' (outs ++ [(oid, oc)]) [] t.
Proof using Hpl Hm Eo.
  intros Hroom He' Hcf -> Hrd Hdir. pose proof finished_state as Hfin. cbn zeta in Hfin.
  destruct output_facts as (Hw & Hid & Hdf). pose proof finished_values as Hval.
  pose proof (mg_next Hm) as Hnext. unfold opened in Hnext. rewrite Eo in Hnext.
  assert (forall i, i ∈ (srcs pl).*1 -> i < old_active pl) as Hsr.
  { intros i ([j cs] & -> & Hin)%list_elem_of_fmap. by apply (pl_srcs _ Hpl) in Hin as (_ & ? & _). }
  destruct Hm as [M1 M2 M3 M4 M5 M6 M7 M8 M8' M9 M10 M11 M12 M13]. split; try done.
  - by rewrite Hval.
  - by rewrite Hcf.
  - rewrite fmap_app, length_app, M5. cbn [length fmap list_fmap fst].
    replace (Z.of_nat (length outs + 1)) with (Z.of_nat (length outs) + 1) by lia.
    rewrite seqZ_app by lia. f_equal. unfold seqZ. change (Z.to_nat 1) with 1%nat. cbn [seq fmap list_fmap].
    f_equal. lia.
  - rewrite length_app. unfold opened. cbn. lia.
  - intros i Hi. cbn in Hi. destruct (Hdir i) as [-> ->]; [lia|]. apply M8. lia.
  - intros i h Hin. rewrite length_app. cbn [length]. destruct (Hrd i h Hin) as [->|Hin']; [left; lia|].
    destruct (M8' i h Hin'); [left; lia|by right].
  - intros k e Hk Hs Hnew. exfalso. destruct (Hfin k) as [(_ & e' & v & He1 & _ & Hk')|[Hout Hk']].
    + rewrite Hk in Hk'. injection Hk' as ->. cbn [fst] in Hs. rewrite (located_file_id _ _ _ _ He1) in Hs.
      apply M11, Hsr in Hs. lia.
    + apply Hout. eapply M9; [by rewrite <- Hk'|done|done].
  - rewrite total_bytes_app, total_bytes_one. change (blen (enc [])) with 0. lia.
  - intros id cs e [Hin|[= -> ->]%list_elem_of_singleton]%elem_of_app He.
    + destruct (M13 id cs e Hin He) as [v Hv].
      destruct (Hfin (Command.get_key (fst e))) as [(Hp & _)|[_ ->]]; [|by exists v]. exfalso.
      apply list_elem_of_fmap in Hp as (q & Hq & Hin'). destruct Hdf as [Hfor _ Hfro].
      rewrite Forall_forall in Hfro. specialize (Hfro q Hin').
      apply list_elem_of_lookup in Hin' as [j Hj].
      destruct (Forall2_lookup_r _ _ _ _ _ Hfor Hj) as (e' & _ & ts & v' & _ & _ & Hst).
      rewrite <- Hq, Hv in Hst. injection Hst as E _. rewrite <- E in Hfro.
      rewrite (located_file_id _ _ _ _ He) in Hfro.
      apply list_elem_of_fmap in Hfro as ([j' cs'] & -> & Hfro). apply (front_lt pl Hpl) in Hfro.
      apply (list_elem_of_fmap_2 fst) in Hin. rewrite M5 in Hin. apply elem_of_seqZ in Hin.
      cbn in Hin. lia.
    + destruct Hdf as [Hfor Hnd _]. rewrite <- (pending_keys _ _ _ Hfor) in Hnd.
      rewrite state_of_mlog_snoc. apply live_after; [|done|done].
      eapply located_sets, pending_sets, Hfor.
Qed.

(** The directory, the readers and the log after the output is published. *)
Lemma publish_engine w2 iv :
  old_active pl + Z.of_nat (length outs) + 2 < new_active pl -> n <= total_bytes (srcs pl) ->
  engine sh w2 (mlog pl outs ++ later t) (cur t) (cmds t) -> dir w2 = dir w ->
  let hd := BufWriter.file (MergeOutput.data out) in
  let hh := BufWriter.file (MergeOutput.hint out) in
  bytes_of w2 hd = enc oc -> durable_of w2 hd = blen (enc oc) ->
  bytes_of w2 hh = hint_enc oid oc -> durable_of w2 hh = blen (hint_enc oid oc) ->
  index_is iv (places (state_of (flog pl (outs ++ [(oid, oc)]) t))) ->
  engine (set_index (set_readers sh (BTreeMap.insert oid hd (readers sh))) iv) (published w2 oid hd)
    (mlog pl (outs ++ [(oid, oc)]) ++ later t) (cur t) (cmds t).
Proof using Hpl Hm Eo.
  intros Hroom Hn He2 Ed hd hh Hdb Hdd Hhb Hhd Hiv. destruct output_facts as (Hw & Hid & Hdf).
  pose proof (mg_bytes Hm). pose proof (total_bytes_nonneg outs). pose proof (pl_total _ Hpl).
  pose proof (pl_old _ Hpl). pose proof (pl_new _ Hpl).
  assert (is_u64 oid) as Hou by (rewrite Hid; ulia). rewrite mlog_snoc.
  apply (engine_publish sh w2 (mlog pl outs) (later t) (cur t) (cmds t) oid oc hd hh iv He2 Hou); try done; try lia.
  - intros j cs Hin. apply (mlog_ids pl Hpl Hm) in Hin. lia.
  - intros j cs Hin. apply (mg_tail Hm) in Hin. lia.
  - apply (wr_good _ _ _ Hw).
  - eapply pending_sets, (df_for _ _ _ _ _ Hdf).
  - ulia.
  - rewrite Ed. apply (wr_data _ _ _ Hw).
  - rewrite Ed. apply (wr_hint _ _ _ Hw).
  - rewrite <- mlog_snoc, <- flog_eq. done.
Qed.

Lemma publish_run :
  old_active pl + Z.of_nat (length outs) + 2 < new_active pl -> n <= total_bytes (srcs pl) ->
  exists m' sh' w', Compaction.publish_output (m, (sh, w)) =
      (Ok (Compaction.pending_records m), (m', (sh', w'))) /\
    applying pl seen n m' sh' w' (outs ++ [(oid, oc)]) t (Compaction.pending_records m) /\
    Compaction.ids_to_remove m' = Compaction.ids_to_remove m /\
    steady sh w sh' w' /\ writer sh' = writer sh /\ config sh' = config sh /\
    exists hd, readers sh' = BTreeMap.insert oid hd (readers sh).
Proof using Hpl Hm Eo.
  intros Hroom Hn. pose proof (mg_engine Hm) as He. destruct output_facts as (Hw & Hid & Hdf).
  pose proof (pl_old _ Hpl). pose proof (pl_new _ Hpl).
  assert (is_u64 oid) as Hou by (rewrite Hid; ulia).
  assert (oid ∉ (mlog pl outs ++ later t).*1) as Hnin.
  { rewrite fmap_app, not_elem_of_app. split; [apply (mlog_not_in pl Hpl Hm); lia|].
    intros Hx. apply (tail_not_in pl Hm oid); [lia|]. unfold tail_files. rewrite fmap_app.
    apply elem_of_app. by left. }
  destruct (output_sync_run w out oc (e_calm _ _ _ _ _ He) (d_dir _ _ _ _ _ (e_disk _ _ _ _ _ He)) Hw)
    as (out' & w1 & w2 & Hsync & Hs1 & Hs2 & Hdb & Hdd & Hhb & Hhd).
  destruct (engine_output_writes _ _ _ _ _ _ _ _ _ He Hw Hou Hnin Hs1 Hs2) as (He2 & Hsteady & Ed).
  set (hd := BufWriter.file (MergeOutput.data out)) in *.
  destruct (index_exists (places (state_of (flog pl (outs ++ [(oid, oc)]) t)))) as [iv Hiv].
  pose proof (publish_engine w2 iv Hroom Hn He2 Ed Hdb Hdd Hhb Hhd Hiv) as He3. fold hd in He3. cbn zeta in He3.
  set (w3 := published w2 oid hd) in *. set (sh1 := set_readers sh (BTreeMap.insert oid hd (readers sh))) in *.
  assert (dir w2 !! data_file_name_compaction oid = Some hd) as Hcd
    by (rewrite Ed; apply (wr_data _ _ _ Hw)).
  assert (faults w2 = []) as Hc2 by apply He2.
  exists (Compaction.set_pending (Compaction.set_output m None) []), sh1, w3.
  split; [|split; [|split_and!; [done| |done|done|by exists hd]]].
  - unfold Compaction.publish_output. unfold bind at 1, gets. cbn [fst]. rewrite Eo.
    unfold bind at 1, Compaction.on_output. rewrite Eo, Hsync. unfold Compaction.on_world.
    unfold bind at 1, on_snd at 1 2. cbn [fst snd]. rewrite (rename_calm w2 Hc2 _ _ _ Hcd).
    fold (published w2 oid hd). fold w3.
    unfold bind at 1, on_snd at 1 2. cbn [fst snd].
    rewrite (open_read_calm w3 Hc2 _ hd) by (apply (d_others _ _ _ _ _ (e_disk _ _ _ _ _ He3)) || apply lookup_insert_eq).
    unfold bind at 1, Compaction.on_shared at 1, on_snd at 1, readers_update, on_fst at 1, modify at 1.
    cbn [fst snd]. fold sh1. reflexivity.
  - split; [|done| |apply Hdf|exact finished_updates].
    + exists iv. apply merging_finished; try done.
      * intros id h [[-> _]|[_ Hin]]%btree_elem_insert; [by left|by right|apply He].
      * intros id Hrange. assert (is_u64 id) as Hiu by ulia. rewrite <- Ed. unfold w3.
        split; apply published_other; try apply hint_ne_compact; try (apply not_eq_sym, data_ne_hint);
          try (apply not_eq_sym, data_ne_compact).
        intros E%compact_file_name_inj; (done || lia).
    + rewrite <- finished_lag. rewrite flog_eq. apply He.
  - eapply steady_trans; [exact Hsteady|]. split; [|done]. intros i h Hg. cbn [sh1 set_readers readers].
    rewrite btree_get_insert, decide_False; [done|]. intros <-.
    apply btree_get_elem in Hg; [|apply He]. destruct (mg_readers Hm _ _ Hg); lia.
Qed.

Lemma finish_output_run :
  old_active pl + Z.of_nat (length outs) + 2 < new_active pl -> n <= total_bytes (srcs pl) ->
  exists m' sh' w', Compaction.finish_output (m, (sh, w)) = (Ok tt, (m', (sh', w'))) /\
    merging pl seen n m' sh' w' (outs ++ [(oid, oc)]) [] t /\ Compaction.output m' = None /\
    Compaction.ids_to_remove m' = Compaction.ids_to_remove m /\
    steady sh w sh' w' /\ writer sh' = writer sh.
Proof using Hpl Hm Eo.
  intros Hroom Hn. destruct (publish_run Hroom Hn) as (m' & sh1 & w' & Hrun & Hap & Hr & Hst & Hwr & _).
  destruct (apply_all_run pl Hpl _ _ _ _ _ _ _ _ Hap) as (i & Hall & Hm').
  exists m', (set_index sh1 i), w'. split_and!; try done.
  - unfold Compaction.finish_output. rewrite (bind_ok _ _ _ _ _ Hrun).
    unfold Compaction.on_shared, on_snd. cbn [fst snd]. by rewrite Hall.
  - apply Hap.
  - eapply steady_trans; [exact Hst|]. by split.
Qed.

End output.
End finish.
End merge.
