(* ===== verification/MergeProofs.v ===== *)
(** * The merge keeps the map

    [run_compaction] from its snapshot to the deletion of its sources, on a run
    without I/O errors and without writers in between: the store stores the same
    map, every live record of the merged files was copied once, and the merged
    files are gone. *)

From Stdlib Require Import ZArith Lia Strings.Byte.
From stdpp Require Import base numbers list strings gmap.
From S2P Require Import Prelude Bytes Crc CommandFormat HintFormat Streams Reader KeyDir Text Names Config FileSystem Lock BTree Engine Load Merge Log Inv EngineProofs Replay MergeFiles MergeState MergeCopy MergePublish.
Import Command(Command, Set_, Rm).
Import RecordReader Shared.
Import MergeOutput(MergeOutput).

Local Open Scope Z_scope.

Section merge.
Context `{Crc : Crc32}.

(** ** The loop over the sources *)

Section plan.
Context (pl : Plan) (Hpl : plan_ok pl).

Lemma open_source_run seen n m sh w outs oc t id cs h :
  merging pl seen n m sh w outs oc t ->
  old_active pl + Z.of_nat (length outs) + 2 < new_active pl -> handle_of sh w (id, cs) (id, h) ->
  exists m' w', Compaction.open_source h (m, (sh, w)) =
      (Ok (S (length (enc cs)), at_pos (enc cs) 0 []), (m', (sh, w'))) /\
    merging pl seen n m' sh w' outs oc t /\ Compaction.output m' <> None /\
    Compaction.ids_to_remove m' = Compaction.ids_to_remove m /\ steady sh w sh w'.
Proof using Hpl.
  intros Hm Hroom Hh. destruct (ensure_output_run pl Hpl _ _ _ _ _ _ _ _ Hm Hroom)
    as (m1 & w1 & Hens & Hm1 & Ho1 & Hr1 & Hst1).
  apply (handle_of_steady _ _ _ _ _ _ Hst1) in Hh as (_ & _ & Hb). cbn [fst snd] in Hb.
  pose proof (e_calm _ _ _ _ _ (mg_engine Hm1)) as Hc1.
  exists m1, w1. split_and!; try done. unfold Compaction.open_source. rewrite (bind_ok _ _ _ _ _ Hens).
  unfold Compaction.on_world, bind at 1, on_snd at 1 2. cbn [fst snd].
  rewrite file_stream_calm by done. unfold bind at 1, on_snd at 1 2. cbn [fst snd].
  rewrite metadata_len_calm by done. rewrite Hb. unfold Loader.loop_fuel. cbn [avail cursor_over]. done.
Qed.

Lemma end_source_run seen n m sh w outs oc t out :
  merging pl seen n m sh w outs oc t -> Compaction.output m = Some out ->
  Compaction.end_source (m, (sh, w)) =
    (Ok (threshold pl <=? blen (enc oc)), (Compaction.add_new_file m (MergeOutput.id out), (sh, w))) /\
  merging pl seen n (Compaction.add_new_file m (MergeOutput.id out)) sh w outs oc t.
Proof using.
  intros Hm Eo. destruct (output_facts pl Hm Eo) as (Hw & _). split; [|by destruct Hm].
  unfold Compaction.end_source. unfold bind at 1, gets at 1. cbn [fst].
  unfold bind at 1, Compaction.on_shared at 1, on_snd at 1, get_config, gets at 1. cbn [fst snd].
  rewrite Eo. unfold bind at 1, Compaction.upd, on_fst, modify. cbn [fst snd].
  unfold MergeOutput.is_full, ret. by rewrite (mg_thr Hm), (wr_written _ _ _ Hw).
Qed.

Lemma merge_file_run done_ todo id cs h m sh w outs oc t :
  srcs pl = done_ ++ (id, cs) :: todo -> handle_of sh w (id, cs) (id, h) ->
  merging pl (seen_in done_) (total_bytes done_) m sh w outs oc t -> Forall (full pl) outs ->
  exists m' sh' w' outs' oc', Compaction.merge_file id h (m, (sh, w)) = (Ok tt, (m', (sh', w'))) /\
    merging pl (seen_in (done_ ++ [(id, cs)])) (total_bytes (done_ ++ [(id, cs)])) m' sh' w' outs' oc' t /\
    Forall (full pl) outs' /\ Compaction.ids_to_remove m' = Compaction.ids_to_remove m ++ [id] /\
    steady sh w sh' w' /\ writer sh' = writer sh.
Proof using Hpl.
  intros Hsplit Hh Hm Hfull.
  assert (total_bytes done_ + blen (enc cs) <= total_bytes (srcs pl)) as Hn.
  { rewrite Hsplit, total_bytes_app, total_bytes_cons. pose proof (total_bytes_nonneg todo). lia. }
  pose proof (blen_nonneg (enc cs)).
  pose proof (output_room pl Hpl _ _ _ _ _ _ _ _ Hm Hfull ltac:(lia)) as Hroom.
  destruct (open_source_run _ _ _ _ _ _ _ _ _ _ _ Hm Hroom Hh) as (m1 & w1 & Hopen & Hm1 & Ho1 & Hr1 & Hst1).
  pose proof (merging_seen pl _ _ _ _ _ _ _ _ _ Hm1 (source_scope pl done_ todo id cs Hsplit [])
    (seen_start done_ id)) as Hm1'.
  destruct (pl_srcs _ Hpl _ _ (source_in pl done_ todo id cs Hsplit)) as (_ & _ & Hg).
  pose proof (concat_framed_length _ (enc_framed cs Hg)) as Hlen. rewrite length_fmap in Hlen.
  fold (enc cs) in Hlen.
  destruct (merge_loop_records pl Hpl done_ todo id cs Hsplit (total_bytes done_) m1 sh w1 outs oc t [] cs []
    (length (enc cs) - length cs) eq_refl Hm1' Ho1 Hroom Hn) as (m2 & w2 & oc2 & Hloop & Hm2 & Ho2 & Hr2 & Hst2).
  replace (length cs + S (length (enc cs) - length cs))%nat with (S (length (enc cs))) in Hloop by lia.
  destruct (Compaction.output m2) as [out|] eqn:Eo2; [|done].
  destruct (end_source_run _ _ _ _ _ _ _ _ _ Hm2 Eo2) as [Hend Hm3].
  set (m3 := Compaction.add_new_file m2 (MergeOutput.id out)) in *.
  rewrite <- (total_bytes_one id cs), <- total_bytes_app in Hm3.
  assert (Compaction.merge_file id h (m, (sh, w)) =
    (if threshold pl <=? blen (enc oc2) then Compaction.finish_output else ret tt) (m3, (sh, w2))) as ->.
  { unfold Compaction.merge_file. rewrite (bind_ok _ _ _ _ _ Hopen). cbn beta iota.
    change (blen (enc [])) with 0 in Hloop. rewrite (bind_ok _ _ _ _ _ Hloop).
    by rewrite (bind_ok _ _ _ _ _ Hend). }
  zcase.
  - destruct (finish_output_run pl Hpl Hm3 Eo2 Hroom) as (m4 & sh4 & w4 & Hfin & Hm4 & Ho4 & Hr4 & Hst4 & Hwr4).
    { by rewrite total_bytes_app, total_bytes_one. }
    eexists m4, sh4, w4, _, _. split; [exact Hfin|]. split; [exact Hm4|]. split_and!; [..|done].
    + apply Forall_app. by split; [|constructor].
    + by rewrite Hr4, <- Hr1.
    + by eapply steady_trans, steady_trans.
  - exists m3, sh, w2, outs, oc2. split; [done|]. split_and!; try done.
    + by rewrite <- Hr1.
    + by eapply steady_trans.
Qed.

Lemma merge_files_run done_ todo snap m sh w outs oc t :
  srcs pl = done_ ++ todo -> Forall2 (handle_of sh w) todo snap ->
  merging pl (seen_in done_) (total_bytes done_) m sh w outs oc t -> Forall (full pl) outs ->
  exists m' sh' w' outs' oc', Compaction.merge_files snap (m, (sh, w)) = (Ok tt, (m', (sh', w'))) /\
    merging pl (seen_in (srcs pl)) (total_bytes (srcs pl)) m' sh' w' outs' oc' t /\
    Forall (full pl) outs' /\ Compaction.ids_to_remove m' = Compaction.ids_to_remove m ++ todo.*1 /\
    steady sh w sh' w' /\ writer sh' = writer sh.
Proof using Hpl.
  revert done_ snap m sh w outs oc.
  induction todo as [|[id cs] todo IH]; intros done_ snap m sh w outs oc Hsplit HF Hm Hfull.
  { apply Forall2_nil_inv_l in HF as ->. rewrite app_nil_r in Hsplit. subst done_.
    exists m, sh, w, outs, oc. split; [done|]. split_and!; try done. by rewrite app_nil_r. }
  apply Forall2_cons_inv_l in HF as ([id' h] & snap' & Hh & HF & ->).
  pose proof (proj1 Hh) as Eid. cbn [fst] in Eid. subst id'.
  destruct (merge_file_run done_ todo id cs h m sh w outs oc t Hsplit Hh Hm Hfull)
    as (m1 & sh1 & w1 & outs1 & oc1 & Hrun & Hm1 & Hfull1 & Hr1 & Hst1 & Hw1).
  destruct (IH (done_ ++ [(id, cs)]) snap' m1 sh1 w1 outs1 oc1)
    as (m' & sh' & w' & outs' & oc' & Hrun' & Hm' & Hfull' & Hr' & Hst' & Hw'); try done.
  { by rewrite <- app_assoc. }
  { eapply Forall2_impl; [exact HF|]. intros f g. by apply handle_of_steady. }
  exists m', sh', w', outs', oc'. split_and!; try done.
  - cbn [Compaction.merge_files]. by rewrite (bind_ok _ _ _ _ _ Hrun).
  - rewrite Hr', Hr1, <- app_assoc. done.
  - by eapply steady_trans.
  - by rewrite Hw'.
Qed.

(** ** After the loop *)

(** Nothing that is live is left in the sources. *)
Lemma sources_dead n m sh w outs oc t k e :
  merging pl (seen_in (srcs pl)) n m sh w outs oc t -> Compaction.pending_records m = [] ->
  state_of (flog pl outs t) !! k = Some e -> IndexValue.file_id (fst e) ∉ (front pl).*1.
Proof using Hpl.
  intros Hm Hp Hk ([id cs] & Eid & Hin)%list_elem_of_fmap. cbn [fst] in Eid.
  pose proof (front_lt pl Hpl _ _ Hin) as (_ & Hlt & _). pose proof (active_lt pl Hpl).
  destruct (flog_below pl Hm k e Hk ltac:(lia)) as [Hnew Hst].
  assert (seen_in (srcs pl) (IndexValue.file_id (fst e)) (IndexValue.offset (fst e))) as Hs.
  { pose proof (merging_sorted pl Hm) as Hasc.
    apply state_of_entry_in in Hk as (cs' & pre & post & ts & Hcs' & Epre & Hpl').
    rewrite Eid in *. pose proof (front_good pl (outs := outs) (t := t) _ _ Hin) as Hin'.
    apply (btree_get_elem _ _ _ Hasc) in Hcs'. apply (btree_get_elem _ _ _ Hasc) in Hin'.
    rewrite Hin' in Hcs'. injection Hcs' as <-. exists cs. split; [by apply (pl_front _ Hpl)|].
    rewrite Hpl', Epre. apply offset_in_offsets. }
  pose proof (mg_seen Hm k e Hst Hs Hnew) as Hx. rewrite Hp in Hx. by apply not_elem_of_nil in Hx.
Qed.

(** The output that is left is finished whether it is full or not. *)
Lemma last_output_run n m sh w outs oc t :
  merging pl (seen_in (srcs pl)) n m sh w outs oc t -> Forall (full pl) outs -> n <= total_bytes (srcs pl) ->
  exists m' sh' w' outs',
    (match Compaction.output m with Some _ => Compaction.finish_output | None => ret tt end)
      (m, (sh, w)) = (Ok tt, (m', (sh', w'))) /\
    merging pl (seen_in (srcs pl)) n m' sh' w' outs' [] t /\ Compaction.pending_records m' = [] /\
    Compaction.output m' = None /\ Compaction.ids_to_remove m' = Compaction.ids_to_remove m /\
    steady sh w sh' w' /\ writer sh' = writer sh.
Proof using Hpl.
  intros Hm Hfull Hn. pose proof (output_room pl Hpl _ _ _ _ _ _ _ _ Hm Hfull Hn) as Hroom.
  destruct (Compaction.output m) as [out|] eqn:Eo.
  - destruct (finish_output_run pl Hpl Hm Eo Hroom Hn)
      as (m' & sh' & w' & Hrun & Hm' & Ho' & Hr' & Hst' & Hw').
    eexists m', sh', w', _. split; [exact Hrun|]. split_and!; [exact Hm'| |done|done|done|done].
    pose proof (mg_output Hm') as Hout. unfold output_ok in Hout. rewrite Ho' in Hout.
    apply Hout.
  - pose proof (mg_output Hm) as Hout. unfold output_ok in Hout. rewrite Eo in Hout.
    destruct Hout as [Hp ->]. exists m, sh, w, outs. by split_and!.
Qed.

End plan.

(** ** Deleting the sources *)

Lemma remove_source_run sh w id cs rest cur cmds :
  engine sh w ((id, cs) :: rest) cur cmds ->
  exists w', Compaction.remove_source id w = (Ok tt, w') /\ deleted id w w' /\
    dir w' !! hint_file_name id = None.
Proof.
  intros He. pose proof (e_disk _ _ _ _ _ He) as Hd. pose proof (e_calm _ _ _ _ _ He) as Hc.
  destruct (d_sealed _ _ _ _ _ Hd id cs) as [Hid _ _ (h & Hh & _) _]; [by left|].
  destruct (d_others _ _ _ _ _ Hd id) as (_ & Ho & _).
  unfold Compaction.remove_source. rewrite (bind_ok _ _ _ _ _ (remove_file_calm w Hc _ h Hh)).
  set (w1 := set_dir w (delete (data_file_name id) (dir w))).
  rewrite (bind_ok _ _ _ _ _ (path_exists_calm w1 Hc _ Ho)).
  assert (forall n h', dir w1 !! n = Some h' -> dir w !! n = Some h') as Hold.
  { intros n h'. cbn. by intros [_ ?]%lookup_delete_Some. }
  destruct (dir w1 !! hint_file_name id) as [hh|] eqn:Eh.
  - rewrite bool_decide_eq_true_2 by by eexists.
    exists (set_dir w1 (delete (hint_file_name id) (dir w1))).
    split; [by apply remove_file_calm with hh|]. split; [|apply lookup_delete_eq]. split; try done.
    + cbn. rewrite lookup_delete_ne by (apply not_eq_sym, data_ne_hint). apply lookup_delete_eq.
    + intros n h'. cbn. intros [_ Hn]%lookup_delete_Some. by apply Hold.
    + intros n Hn1 Hn2. cbn. by rewrite !lookup_delete_ne by done.
  - rewrite bool_decide_eq_false_2 by by intros [? ?]. exists w1. split; [done|]. split; [|done].
    split; try done; [apply lookup_delete_eq|]. intros n Hn1 Hn2. cbn. by rewrite lookup_delete_ne by done.
Qed.

Lemma remove_sources_run A rest sh w cur cmds :
  engine sh w (A ++ rest) cur cmds ->
  (forall k e, state_of ((A ++ rest) ++ [(cur, cmds)]) !! k = Some e ->
     IndexValue.file_id (fst e) ∉ A.*1) ->
  exists w', Compaction.remove_sources A.*1 w = (Ok tt, w') /\ engine sh w' rest cur cmds /\
    (forall n h, dir w' !! n = Some h -> dir w !! n = Some h) /\
    (forall id, id ∈ A.*1 -> dir w' !! data_file_name id = None /\ dir w' !! hint_file_name id = None) /\
    state_of ((A ++ rest) ++ [(cur, cmds)]) = state_of (rest ++ [(cur, cmds)]).
Proof.
  revert w. induction A as [|[id cs] A IH]; intros w He Hlive.
  { exists w. split_and!; try done. intros id Hx. by apply not_elem_of_nil in Hx. }
  destruct (remove_source_run _ _ _ _ _ _ _ He) as (w1 & Hrun & Hdel & Hh).
  assert (state_of ((((id, cs) :: A) ++ rest) ++ [(cur, cmds)]) = state_of ((A ++ rest) ++ [(cur, cmds)])) as Est.
  { apply (state_of_drop [(id, cs)]). intros k e Hk Hin. apply (Hlive k e Hk). cbn [fmap list_fmap].
    apply list_elem_of_singleton in Hin as ->. left. }
  pose proof (engine_delete _ _ _ _ _ _ _ _ He Hdel Est) as He1.
  destruct (IH w1 He1) as (w' & Hrun' & He' & Hold & Hgone & Est').
  { intros k e Hk Hin. rewrite <- Est in Hk. apply (Hlive k e Hk). by right. }
  exists w'. split_and!; try done.
  - cbn [fmap list_fmap Compaction.remove_sources fst]. by rewrite (bind_ok _ _ _ _ _ Hrun).
  - intros n h Hn. apply (del_old _ _ _ Hdel). by apply Hold.
  - intros i [->|Hin]%elem_of_cons; [|by apply Hgone]. split.
    + destruct (dir w' !! data_file_name id) as [h|] eqn:E; [|done]. apply Hold in E.
      by rewrite (del_data _ _ _ Hdel) in E.
    + destruct (dir w' !! hint_file_name id) as [h|] eqn:E; [|done]. apply Hold in E.
      by rewrite Hh in E.
  - by rewrite Est.
Qed.

(** ** The snapshot *)

Lemma total_len_run sh w (fs : list (Z * list Command)) snap :
  faults w = [] -> Forall2 (handle_of sh w) fs snap -> total_bytes fs <= u64_max ->
  Compaction.total_len snap (sh, w) = (Ok (total_bytes fs), (sh, w)).
Proof.
  intros Hc HF. induction HF as [|[id cs] [id' h] fs snap (E & _ & Hb) _ IH]; intros Ht; [done|].
  cbn [fst snd] in *. rewrite total_bytes_cons in *. pose proof (total_bytes_nonneg fs).
  pose proof (blen_nonneg (enc cs)).
  cbn [Compaction.total_len]. unfold bind at 1, mcatch at 1, on_snd at 1. cbn [fst snd].
  rewrite metadata_len_calm, Hb by done. cbn [ret].
  rewrite (bind_ok _ _ _ _ _ (IH ltac:(lia))).
  unfold of_outcome, u64_add. by rewrite (proj2 (Z.leb_le _ _)) by lia.
Qed.

(** The sources are not written to. *)
Lemma handles_grown sh w log cur cmds sh' w' (fs : list (Z * list Command)) snap :
  engine sh w log cur cmds -> grown sh w sh' w' ->
  (forall id cs, (id, cs) ∈ fs -> is_u64 id /\ id < cur) ->
  Forall2 (handle_of sh w) fs snap -> Forall2 (handle_of sh' w') fs snap.
Proof.
  intros He Hg Hlt HF. induction HF as [|[id cs] [i h] fs snap (E1 & E2 & E3) _ IH]; constructor.
  2:{ apply IH. intros j c Hin. eapply Hlt. by right. }
  cbn [fst snd] in *. split_and!; cbn [fst snd]; [done|by apply (g_readers _ _ _ _ Hg)|].
  destruct (Hlt id cs) as [Hid Hc]; [left|].
  destruct (reader_inode _ _ _ _ _ _ _ He E2) as [Hi Hname].
  destruct (g_bytes _ _ _ _ Hg h Hi) as [-> _]; [|done]. intros ->.
  pose proof (Hname _ (e_file _ _ _ _ _ He)) as E.
  apply data_file_name_inj in E; [lia|apply (d_cur _ _ _ _ _ (e_disk _ _ _ _ _ He))|done].
Qed.

(** The read handles other than the active file's. *)
Definition snapshot (sh : Shared) : list (Z * File) :=
  filter (fun e => fst e <> current_file_id (writer sh)) (readers sh).

(** The id of the file that becomes active when the merge starts. *)
Definition next_active (sh : Shared) (sources : list (Z * list Command)) (cur : Z) : Z :=
  cur + total_bytes sources / Config.file_size_threshold (config sh) + 3.

Section begin.
Context (sh : Shared) (w : World) (front : list (Z * list Command)) (cur : Z) (cmds : list Command).
Context (He : engine sh w front cur cmds).
Context (sources : list (Z * list Command)) (Hsnap : Forall2 (handle_of sh w) sources (snapshot sh)).
Context (Hids : forall id cs, (id, cs) ∈ sources -> is_u64 id /\ id < cur) (Hne : sources <> []).
Context (Hthr : 0 < Config.file_size_threshold (config sh)).
Context (Hstale : Config.compaction_threshold (config sh) <= stale_bytes_count (writer sh)).
Context (Htotal : total_bytes sources <= u64_max) (Hroom : next_active sh sources cur <= u64_max).

Lemma next_active_u64 : cur + 3 <= next_active sh sources cur /\ is_u64 (next_active sh sources cur).
Proof using He Hthr Hroom.
  destruct (d_cur _ _ _ _ _ (e_disk _ _ _ _ _ He)) as [[Hc0 _] _].
  pose proof (Z.div_pos _ _ (total_bytes_nonneg sources) Hthr).
  unfold next_active in *. split; [lia|ulia].
Qed.

Lemma begin_run :
  exists sh' w', Compaction.begin (sh, w) =
      (Ok (Some {| Compaction.readers_snapshot := snapshot sh;
                   Compaction.init_stale_bytes := stale_bytes_count (writer sh);
                   Compaction.first_compacted_file_id := cur |}), (sh', w')) /\
    engine sh' w' (front ++ [(cur, cmds)]) (next_active sh sources cur) [] /\
    Forall2 (handle_of sh' w') sources (snapshot sh) /\ grown sh w sh' w' /\
    config sh' = config sh /\ stale_bytes_count (writer sh') = stale_bytes_count (writer sh) /\
    readers sh' = BTreeMap.insert (next_active sh sources cur) (next_inode w) (readers sh) /\
    dir w' = <[data_file_name (next_active sh sources cur) := next_inode w]> (dir w).
Proof using All.
  pose proof (e_disk _ _ _ _ _ He) as Hd. destruct next_active_u64 as [Hgt Hu].
  destruct (rotate_to_engine sh w front cur cmds (next_active sh sources cur) He)
    as (t & w' & Hrot & He' & Edir & Hg); [lia|done|].
  eexists _, w'. split; [|split; [exact He'|split; [|by split_and!]]].
  - unfold Compaction.begin, with_writer_lock. cbn [fst]. rewrite (e_lock _ _ _ _ _ He).
    unfold bind at 1 2, get_writer, get_config, gets. cbn [fst].
    rewrite (proj2 (Z.ltb_ge _ _) Hstale). unfold bind at 1. cbn [fst]. fold (snapshot sh).
    rewrite decide_False.
    2:{ intros E. rewrite E in Hsnap. by apply Forall2_nil_inv_r in Hsnap. }
    rewrite (bind_ok _ _ _ _ _ (total_len_run sh w sources _ (e_calm _ _ _ _ _ He) Hsnap Htotal)).
    rewrite (e_cur _ _ _ _ _ He).
    rewrite (proj2 (Z.eqb_neq (Config.file_size_threshold (config sh)) 0)) by lia.
    pose proof (Z.div_pos _ _ (total_bytes_nonneg sources) Hthr). unfold next_active in Hroom.
    rewrite !bind_outcome. unfold u64_add. rewrite (proj2 (Z.leb_le _ _)) by lia. rewrite bind_outcome.
    unfold u64_add. rewrite (proj2 (Z.leb_le _ _)) by lia.
    replace (cur + (total_bytes sources / (Config.file_size_threshold (config sh)) + 2) + 1)
      with (next_active sh sources cur) by (unfold next_active; lia).
    by rewrite (bind_ok _ _ _ _ _ Hrot).
  - exact (handles_grown _ _ _ _ _ _ _ _ _ He Hg Hids Hsnap).
Qed.
End begin.

(** The stale count alone. *)
Lemma engine_with_stale sh w front cur cmds n :
  engine sh w front cur cmds -> 0 <= n -> engine (with_stale sh n) w front cur cmds.
Proof. intros [] Hn. by split. Qed.

Lemma finish_stale_run sh w init :
  writer_poisoned sh = false -> init <= stale_bytes_count (writer sh) ->
  Compaction.finish_stale init (sh, w) =
  (Ok tt, (with_stale sh (stale_bytes_count (writer sh) - init), w)).
Proof.
  intros Hp Hi. unfold Compaction.finish_stale, with_writer_lock. cbn [fst]. rewrite Hp.
  unfold bind, get_writer, gets, of_outcome, u64_sub. cbn [fst].
  by rewrite (proj2 (Z.leb_le _ _)) by lia.
Qed.

(** ** The plan of a merge *)

Definition plan_of (sh : Shared) (sources front : list (Z * list Command)) (cur : Z)
  (cmds : list Command) : Plan :=
  {| srcs := sources; MergeState.front := front; old_active := cur; old_cmds := cmds;
     new_active := next_active sh sources cur;
     threshold := Config.file_size_threshold (config sh) |}.

Definition no_tail (cur : Z) : Tail := {| later := []; MergeState.cur := cur; MergeState.cmds := [] |}.

(** What the contents of the snapshot are. *)
Record sources_of (sh : Shared) (w : World) (front : list (Z * list Command)) (cur : Z)
  (sources : list (Z * list Command)) : Prop := {
  so_handles : Forall2 (handle_of sh w) sources (snapshot sh);
  so_sorted : ascending sources;
  so_ids : forall id cs, (id, cs) ∈ sources -> is_u64 id /\ id < cur /\ Forall good_cmd cs;
  so_front : forall f, f ∈ front -> f ∈ sources
}.

(** When the merge starts there are no locals yet and nothing was looked at. *)
Lemma merging_start sh w front cur cmds sources :
  engine sh w front cur cmds -> sources_of sh w front cur sources -> sources <> [] ->
  0 < Config.file_size_threshold (config sh) ->
  Config.compaction_threshold (config sh) <= stale_bytes_count (writer sh) ->
  total_bytes sources <= u64_max -> next_active sh sources cur <= u64_max ->
  let pl := plan_of sh sources front cur cmds in
  exists start sh' w', Compaction.begin (sh, w) = (Ok (Some start), (sh', w')) /\ plan_ok pl /\
    merging pl (seen_in []) 0 (Compaction.init_merge start) sh' w' [] [] (no_tail (new_active pl)) /\
    Compaction.readers_snapshot start = snapshot sh /\
    Compaction.init_stale_bytes start = stale_bytes_count (writer sh) /\
    Forall2 (handle_of sh' w') sources (snapshot sh) /\ grown sh w sh' w' /\
    stale_bytes_count (writer sh') = stale_bytes_count (writer sh) /\ config sh' = config sh /\
    values (state_of (flog pl [] (no_tail (new_active pl)))) = values (state_of (front ++ [(cur, cmds)])).
Proof.
  intros He [Hsnap Hsort Hids Hfr] Hne Hthr Hst Htot Hroom pl. pose proof (e_disk _ _ _ _ _ He) as Hd.
  destruct (d_cur _ _ _ _ _ Hd) as [HP _]. destruct (next_active_u64 sh w front cur cmds He sources Hthr Hroom) as [Hgt Hu].
  destruct (begin_run sh w front cur cmds He sources Hsnap) as
    (sh1 & w1 & Hbegin & He1 & HF & Hg1 & Ec1 & Es1 & Er1 & Ed1); try done.
  { intros id cs Hin. by apply Hids in Hin as (? & ? & _). }
  assert (forall i o, ~ seen_in [] i o) as Hnone by (intros i o (cs & ?%not_elem_of_nil & _); done).
  eexists _, sh1, w1. split; [exact Hbegin|]. split; [by split|]. split; [|split_and!; try done].
  - split; try done.
    + cbn [mlog plan_of MergeState.front old_active old_cmds no_tail later MergeState.cur MergeState.cmds].
      by rewrite app_nil_r.
    + intros id cs Hin. apply (list_elem_of_singleton (id, cs) (new_active pl, [])) in Hin as [= -> ->]. done.
    + by rewrite Ec1.
    + cbn. lia.
    + intros id Hid. cbn [Compaction.init_merge Compaction.next_compaction_file_id
        Compaction.first_compacted_file_id pl plan_of new_active] in Hid.
      assert (is_u64 id) as Hiu by ulia.
      rewrite Ed1, !lookup_insert_ne by (apply data_ne_hint || apply data_ne_compact). split.
      * destruct (dir w !! hint_file_name id) as [h|] eqn:E; [|done].
        pose proof (d_hints _ _ _ _ _ Hd id h Hiu E). lia.
      * destruct (dir w !! data_file_name_compaction id) as [h|] eqn:E; [|done].
        pose proof (d_compacts _ _ _ _ _ Hd id h Hiu E). lia.
    + intros id h. rewrite Er1. intros [[-> _]|[_ Hin]]%btree_elem_insert; [by right| |apply He].
      left. apply (e_readers _ _ _ _ _ He) in Hin. cbn. lia.
    + intros k e _ Hs. by destruct (Hnone _ _ Hs).
    + intros i o Hs. by destruct (Hnone _ _ Hs).
    + intros id cs e Hin. by apply not_elem_of_nil in Hin.
  - unfold flog, no_tail, tail_files, mlog. cbn [later MergeState.cur MergeState.cmds app plan_of MergeState.front old_active old_cmds].
    by rewrite state_of_new_file.
Qed.

(** Every read handle belongs to a file of the log. *)
Definition readers_exact (sh : Shared) (front : list (Z * list Command)) (cur : Z) : Prop :=
  (readers sh).*1 = front.*1 ++ [cur].

Lemma filter_id {A} (Q : A -> Prop) `{!forall x, Decision (Q x)} (l : list A) :
  Forall Q l -> filter Q l = l.
Proof. induction 1 as [|x l Hx _ IH]; [done|]. by rewrite filter_cons_True, IH. Qed.

Lemma sources_exact sh w front cur cmds :
  engine sh w front cur cmds -> readers_exact sh front cur -> sources_of sh w front cur front.
Proof.
  intros He Hex. pose proof (e_disk _ _ _ _ _ He) as Hd.
  pose proof (e_readers_ok _ _ _ _ _ He) as Hok. unfold readers_exact in Hex.
  apply fmap_app_inv in Hex as (snap & last & Hsn & Hlast & Hrd).
  assert (forall id cs, (id, cs) ∈ front -> is_u64 id /\ id < cur /\ Forall good_cmd cs) as Hids.
  { intros id cs Hin. pose proof (d_sealed _ _ _ _ _ Hd _ _ Hin) as [].
    split_and!; try done. eapply ascending_lt; [exact (d_ascending _ _ _ _ _ Hd)|exact Hin]. }
  assert (snapshot sh = snap) as Esn.
  { unfold snapshot. rewrite (e_cur _ _ _ _ _ He), Hrd, filter_app.
    destruct last as [|[l hl] [|? ?]]; try done. cbn in Hlast. injection Hlast as <-.
    rewrite filter_cons_False by (intros Hx; by apply Hx). rewrite filter_nil, app_nil_r.
    apply filter_id, Forall_forall. intros [i h] Hin. cbn.
    apply (list_elem_of_fmap_2 fst snap) in Hin. rewrite <- Hsn in Hin.
    apply list_elem_of_fmap in Hin as ([j cs] & E & Hin). apply Hids in Hin. cbn in *. lia. }
  split; try done.
  - rewrite Esn. rewrite Hrd in Hok. apply Forall2_same_length_lookup_2; [by rewrite <- !(length_fmap fst), Hsn|].
    intros j [id cs] [id' h] Hf Hs. assert (id' = id) as ->.
    { assert (front.*1 !! j = Some id) as E1 by by rewrite list_lookup_fmap, Hf.
      assert (snap.*1 !! j = Some id') as E2 by by rewrite list_lookup_fmap, Hs.
      rewrite Hsn, E2 in E1. by injection E1. }
    apply list_elem_of_lookup_2 in Hf, Hs.
    assert (BTreeMap.get id (readers sh) = Some h) as Hget.
    { rewrite Hrd. apply btree_get_elem; [done|]. apply elem_of_app. by left. }
    split_and!; [done|done|]. cbn [snd].
    rewrite (e_covered _ _ _ _ _ He id cs) in Hget by (apply elem_of_app; by left).
    destruct (d_sealed _ _ _ _ _ Hd _ _ Hf) as [_ _ _ (h' & Hh' & Hb & _) _]. rewrite Hget in Hh'.
    by injection Hh' as <-.
  - pose proof (d_ascending _ _ _ _ _ Hd) as Ha. by apply btree_ok_app_l in Ha.
Qed.

(** ** The whole merge *)

(** All of a merge but the deletion of the sources. *)
Lemma merge_copied sh w front cur cmds sources :
  engine sh w front cur cmds -> sources_of sh w front cur sources -> sources <> [] ->
  0 < Config.file_size_threshold (config sh) ->
  Config.compaction_threshold (config sh) <= stale_bytes_count (writer sh) ->
  total_bytes sources <= u64_max -> next_active sh sources cur <= u64_max ->
  let pl := plan_of sh sources front cur cmds in
  exists m sh' w' outs, plan_ok pl /\
    merging pl (seen_in sources) (total_bytes sources) m sh' w' outs [] (no_tail (new_active pl)) /\
    Compaction.pending_records m = [] /\
    (forall id h, BTreeMap.get id (readers sh) = Some h -> BTreeMap.get id (readers sh') = Some h) /\
    stale_bytes_count (writer sh') = stale_bytes_count (writer sh) /\
    Compaction.run_compaction (sh, w) =
      (on_snd (Compaction.remove_sources sources.*1) ;;!
       Compaction.finish_stale (stale_bytes_count (writer sh))) (sh', w').
Proof.
  intros He Hso Hne Hthr Hst Htot Hroom pl.
  destruct (merging_start sh w front cur cmds sources He Hso Hne Hthr Hst Htot Hroom)
    as (start & sh1 & w1 & Hbegin & Hpl & Hm1 & Esnap & Einit & HF & Hg & Es1 & _). fold pl in Hpl, Hm1.
  rewrite <- Esnap in HF.
  destruct (merge_files_run pl Hpl [] sources (Compaction.readers_snapshot start) _ _ _ _ _ _
    eq_refl HF Hm1 (List.Forall_nil _)) as (m2 & sh2 & w2 & outs2 & oc2 & Hfiles & Hm2 & Hfull & Hr2 & Hs2 & Hw2).
  destruct (last_output_run pl Hpl _ _ _ _ _ _ _ Hm2 Hfull ltac:(lia))
    as (m3 & sh3 & w3 & outs & Hlast & Hm3 & Hp3 & Ho3 & Hr3 & Hs3 & Hw3).
  exists m3, sh3, w3, outs. split_and!; try done.
  - intros id h Hget. by apply (st_readers _ _ _ _ Hs3), (st_readers _ _ _ _ Hs2), (g_readers _ _ _ _ Hg).
  - by rewrite Hw3, Hw2, Es1.
  - unfold Compaction.run_compaction. rewrite (bind_ok _ _ _ _ _ Hbegin).
    unfold Compaction.run_merge, Compaction.merge_body.
    rewrite (bind_ok _ _ _ _ _ Hfiles). unfold bind at 1, gets at 1. cbn [fst].
    rewrite (bind_ok _ _ _ _ _ Hlast). unfold bind at 1, gets at 1. cbn [fst].
    rewrite Hr3, Hr2, <- Einit. cbn [Compaction.init_merge Compaction.ids_to_remove app].
    unfold bind, Compaction.on_world, Compaction.on_shared, on_snd. cbn [fst snd].
    destruct (Compaction.remove_sources sources.*1 w3) as [[[]|err|] w4]; cbn [fst snd]; rewrite ?Ho3; try done.
    destruct (Compaction.finish_stale _ (sh3, w4)) as [o [sh5 w5]]. by rewrite Ho3.
Qed.


End merge.

(** ** A concrete merge *)

(** A new store in which [a] was set twice, each record in a file of its own. *)
Definition after_one : Bitcask.Handle * World :=
  snd (Bitcask.set_ (Crc := crc32_ieee) (lit "a") (lit "1") (fresh_handle sample_config, fresh_world)).
Definition after_two : Bitcask.Handle * World :=
  snd (Bitcask.set_ (Crc := crc32_ieee) (lit "a") (lit "2") (fst after_one, snd after_one)).

(** A write that rotates to the file [next] seals the active file. *)
Lemma set_rotates h w front cur cmds k v h' w' next :
  engine (Crc := crc32_ieee) (Bitcask.shared h) w front cur cmds -> room 1 (Bitcask.shared h) ->
  fits k v -> snd (Bitcask.set_ (Crc := crc32_ieee) k v (h, w)) = (h', w') ->
  current_file_id (writer (Bitcask.shared h')) = next -> cur <> next ->
  exists ts, engine (Crc := crc32_ieee) (Bitcask.shared h') w' (front ++ [(cur, cmds ++ [Set_ ts k v])]) next [].
Proof.
  intros He Hr Hf Hrun Hn Hne.
  destruct (set_engine (Crc := crc32_ieee) h w front cur cmds k v He Hr Hf)
    as (ts & h1 & w1 & front1 & cur1 & cmds1 & Hrun1 & _ & He1 & Hlog & _ & _).
  rewrite Hrun1 in Hrun. cbn [snd] in Hrun. injection Hrun as -> ->.
  pose proof (e_cur _ _ _ _ _ He1) as Hcur. rewrite Hn in Hcur. subst cur1. exists ts.
  destruct Hlog as [E|[id E]]; apply app_inj_2 in E as [-> E]; try done; injection E as E1 E2.
  - by destruct Hne.
  - by subst.
Qed.

Lemma after_two_engine :
  exists ts1 ts2, engine (Crc := crc32_ieee) (Bitcask.shared (fst after_two)) (snd after_two)
    [(1, [Set_ ts1 (lit "a") (lit "1")]); (2, [Set_ ts2 (lit "a") (lit "2")])] 3 [].
Proof.
  destruct (set_rotates (fresh_handle sample_config) fresh_world [] 1 [] (lit "a") (lit "1")
    (fst after_one) (snd after_one) 2) as (ts1 & He1).
  - apply fresh_engine.
  - apply fresh_room. lia.
  - vm_compute. intuition discriminate.
  - apply surjective_pairing.
  - vm_compute. reflexivity.
  - done.
  - destruct (set_rotates (fst after_one) (snd after_one) _ 2 [] (lit "a") (lit "2")
      (fst after_two) (snd after_two) 3 He1) as (ts2 & He2).
    + vm_compute. intuition discriminate.
    + vm_compute. intuition discriminate.
    + apply surjective_pairing.
    + vm_compute. reflexivity.
    + done.
    + by exists ts1, ts2.
Qed.

