(* ===== verification/Interference.v ===== *)
(** * What the threads do to each other

    A write, seen from the merge: the writer's own steps with an index that lags
    behind the log, and how the invariants of the merge survive the records that
    other threads append and the files they rotate to. A read, seen from
    everybody else: a record that the index pointed at stays readable. *)

From Stdlib Require Import ZArith Lia Strings.Byte.
From stdpp Require Import base numbers list strings gmap.
From S2P Require Import Prelude Bytes Crc CommandFormat HintFormat Streams Reader KeyDir Text Names Config FileSystem Lock BTree Engine Load Merge Log Inv EngineProofs Replay MergeFiles MergeState MergeCopy MergePublish.
Import Command(Command, Set_, Rm).
Import Shared.
Import MergeOutput(MergeOutput).

Local Open Scope Z_scope.

(** ** Code that does not look at the index *)

(** The code [c] neither reads nor changes the index. *)
Definition blind {A} (c : SM A) : Prop := forall sh w i,
  c (set_index sh i, w) = let '(o, (sh', w')) := c (sh, w) in (o, (set_index sh' i, w')).

Lemma blind_ret {A} (a : A) : blind (ret a).
Proof. done. Qed.

Lemma blind_outcome {A} (o : outcome A) : blind (of_outcome o).
Proof. done. Qed.

Lemma blind_bind {A B} (c : SM A) (k : A -> SM B) :
  blind c -> (forall a, blind (k a)) -> blind (bind c k).
Proof.
  intros Hc Hk sh w i. unfold bind. rewrite Hc. destruct (c (sh, w)) as [[a|e|] [sh' w']]; [|done|done].
  apply Hk.
Qed.

Lemma blind_world {A} (c : M World A) : blind (on_snd c).
Proof. intros sh w i. unfold on_snd. cbn [fst snd]. by destruct (c w). Qed.

Lemma blind_get_writer : blind get_writer.
Proof. done. Qed.

Lemma blind_get_config : blind get_config.
Proof. done. Qed.

Lemma blind_update_writer f : blind (update_writer f).
Proof. done. Qed.

Lemma blind_readers_update f : blind (readers_update f).
Proof. done. Qed.

Create HintDb blind.
#[export] Hint Resolve blind_ret blind_outcome blind_bind blind_world blind_get_writer blind_get_config blind_update_writer blind_readers_update : blind.

Lemma blind_sync : blind Shared.sync.
Proof. unfold Shared.sync. auto with blind. Qed.
#[export] Hint Resolve blind_sync : blind.

Lemma blind_rotate_to next : blind (rotate_to next).
Proof. unfold rotate_to. auto 20 with blind. Qed.
#[export] Hint Resolve blind_rotate_to : blind.

Lemma blind_rotate_if_full : blind rotate_if_full.
Proof.
  unfold rotate_if_full. apply blind_bind; [apply blind_get_writer|]. intros wr.
  apply blind_bind; [apply blind_get_config|]. intros c. case_match; auto with blind.
Qed.

(** A handle with another index. *)
Definition with_index (h : Bitcask.Handle) (i : Index.Index) : Bitcask.Handle :=
  with_shared h (set_index (Bitcask.shared h) i).

(** The same for code that also uses the channel. *)
Definition blind_h {A} (c : Bitcask.BM A) : Prop := forall h w i,
  c (with_index h i, w) = let '(o, (h', w')) := c (h, w) in (o, (with_index h' i, w')).

Lemma blind_h_shared {A} (c : SM A) : blind c -> blind_h (Bitcask.on_shared c).
Proof.
  intros Hc h w i. unfold Bitcask.on_shared, with_index, with_shared.
  cbn [fst snd Bitcask.shared Bitcask.compaction_tx].
  rewrite Hc. by destruct (c (Bitcask.shared h, w)) as [o [sh' w']].
Qed.

Lemma blind_h_ret {A} (a : A) : blind_h (ret a).
Proof. done. Qed.

Lemma blind_h_outcome {A} (o : outcome A) : blind_h (of_outcome o).
Proof. done. Qed.

Lemma blind_h_bind {A B} (c : Bitcask.BM A) (k : A -> Bitcask.BM B) :
  blind_h c -> (forall a, blind_h (k a)) -> blind_h (bind c k).
Proof.
  intros Hc Hk h w i. unfold bind. rewrite Hc. destruct (c (h, w)) as [[a|e|] [h' w']]; [|done|done].
  apply Hk.
Qed.

Lemma blind_h_world {A} (c : M World A) : blind_h (on_snd c).
Proof. intros h w i. unfold on_snd. cbn [fst snd]. by destruct (c w). Qed.

#[export] Hint Resolve blind_rotate_if_full blind_h_shared blind_h_ret blind_h_outcome blind_h_bind blind_h_world : blind.

Lemma blind_compaction_trigger : blind_h Bitcask.compaction_trigger.
Proof.
  intros h w i. rewrite !compaction_trigger_run. by destruct h.
Qed.

Lemma blind_handle_policy : blind_h Bitcask.handle_policy.
Proof.
  unfold Bitcask.handle_policy. apply blind_h_bind; [auto with blind|]. intros c.
  destruct (Config.durability_policy c); [auto with blind| |auto with blind].
  apply blind_h_bind; [auto with blind|]. intros now. apply blind_h_bind; [auto with blind|]. intros wr.
  apply blind_h_bind; [auto with blind|]. intros el. case_match; auto with blind.
Qed.

(** What follows the write of a record does not depend on the index. *)
Lemma blind_post_write_ops : blind_h Bitcask.post_write_ops.
Proof.
  unfold Bitcask.post_write_ops. apply blind_h_bind; [apply blind_compaction_trigger|]. intros _.
  apply blind_h_bind; [apply blind_handle_policy|]. auto with blind.
Qed.

(** A run on the store with one index, from a run with another. *)
Lemma blind_h_run {A} (c : Bitcask.BM A) h w i o h' w' :
  blind_h c -> c (with_index h i, w) = (o, (h', w')) ->
  exists h1, c (h, w) = (o, (h1, w')) /\ h' = with_index h1 i /\
    index (Bitcask.shared h1) = index (Bitcask.shared h).
Proof.
  intros Hb Hrun. rewrite Hb in Hrun. pose proof (Hb h w (index (Bitcask.shared h))) as Hid.
  replace (with_index h (index (Bitcask.shared h))) with h in Hid by by destruct h as [[] ?].
  destruct (c (h, w)) as [o1 [h1 w1]]. injection Hrun as <- <- <-. injection Hid as Hid.
  exists h1. split_and!; try done. by rewrite Hid.
Qed.

(** ** Writing with an index that lags behind *)

(** What a write does to the files since the snapshot. *)
Definition tail_write (t : Tail) (c : Command) : Tail :=
  {| later := later t; cur := cur t; cmds := cmds t ++ [c] |}.
Definition tail_rotate (t : Tail) (next : Z) : Tail :=
  {| later := later t ++ [(cur t, cmds t)]; cur := next; cmds := [] |}.

(** The places of the keys. *)
Definition lens_agree (m m' : gmap (list byte) IndexValue) : Prop :=
  forall k, IndexValue.len <$> m !! k = IndexValue.len <$> m' !! k.

Section writers.
Context `{Crc : Crc32}.

Definition log_of (base : list (Z * list Command)) (t : Tail) : list (Z * list Command) :=
  base ++ tail_files t.

Lemma log_of_eq base t : log_of base t = (base ++ later t) ++ [(cur t, cmds t)].
Proof. unfold log_of, tail_files. by rewrite app_assoc. Qed.

Lemma state_tail_write base t c :
  state_of (log_of base (tail_write t c)) =
  apply1 (state_of (log_of base t)) (c, place (cur t) (blen (enc (cmds t))) c).
Proof. rewrite !log_of_eq. apply state_of_snoc. Qed.

Lemma state_tail_rotate base t next : state_of (log_of base (tail_rotate t next)) = state_of (log_of base t).
Proof.
  rewrite (log_of_eq base (tail_rotate t next)). cbn [tail_rotate later cur cmds].
  by rewrite state_of_new_file, app_assoc, <- log_of_eq.
Qed.

(** The store with the log [base], [t], but for its index, which holds [mi]. *)
Record lagging (sh : Shared) (w : World) (base : list (Z * list Command)) (t : Tail)
  (mi : gmap (list byte) IndexValue) : Prop := {
  lg_engine : exists iv, engine (set_index sh iv) w (base ++ later t) (cur t) (cmds t);
  lg_index : index_is (index sh) mi;
  lg_lens : lens_agree mi (places (state_of (log_of base t)))
}.

Lemma engine_lagging sh w base t :
  engine sh w (base ++ later t) (cur t) (cmds t) ->
  lagging sh w base t (places (state_of (log_of base t))).
Proof.
  intros He. split; [|rewrite log_of_eq; apply He|done]. exists (index sh). by rewrite set_index_id.
Qed.

Lemma lagging_engine sh w base t :
  lagging sh w base t (places (state_of (log_of base t))) ->
  engine sh w (base ++ later t) (cur t) (cmds t).
Proof.
  intros [[iv He] Hi _]. rewrite <- (set_index_id sh).
  eapply engine_swap_index; [exact He|]. by rewrite <- log_of_eq.
Qed.

(** What the merge's invariants need to know of the steps of a writer. *)
Lemma grown_index sh w sh' w' i i' :
  grown sh w sh' w' <-> grown (set_index sh i) w (set_index sh' i') w'.
Proof. split; intros []; by split. Qed.

Lemma advances_index n sh w sh' w' i i' :
  advances n sh w sh' w' <-> advances n (set_index sh i) w (set_index sh' i') w'.
Proof. split; intros [? ? ? ? ? ?%(grown_index _ _ _ _ i i')]; by split. Qed.

Lemma lens_after m m' c iv :
  lens_agree m m' -> lens_agree (index_after c iv m) (index_after c iv m').
Proof.
  intros H k. destruct c as [ts k' v|ts k']; cbn [index_after].
  - rewrite !lookup_insert. by case_decide.
  - rewrite !lookup_delete. by case_decide.
Qed.

Lemma places_tail_write base t c :
  places (state_of (log_of base (tail_write t c))) =
  index_after c (place (cur t) (blen (enc (cmds t))) c) (places (state_of (log_of base t))).
Proof. rewrite state_tail_write, places_apply1. by destruct c. Qed.

(** Writing and indexing a record. *)
Lemma append_record_lagging h w base t mi c :
  lagging (Bitcask.shared h) w base t mi -> room 1 (Bitcask.shared h) -> good_cmd c ->
  exists h' w', Bitcask.append_record c (h, w) = (Ok tt, (h', w')) /\
    lagging (Bitcask.shared h') w' base (tail_write t c)
      (index_after c (place (cur t) (blen (enc (cmds t))) c) mi) /\
    advances record_max (Bitcask.shared h) w (Bitcask.shared h') w' /\
    file (writer (Bitcask.shared h')) = file (writer (Bitcask.shared h)) /\
    (forall f, durable_of w' f = durable_of w f).
Proof.
  intros [[iv He] Hi Hlen] (Hr1 & Hr2 & Hr3) Hc. pose proof (serialize_max c Hc) as Hsm.
  set (sh := Bitcask.shared h) in *. pose proof (e_stale _ _ _ _ _ He) as Hs0.
  pose proof (engine_stale_bound _ _ _ _ _ c He) as Hsb. rewrite <- log_of_eq in Hsb.
  assert (stale_of c mi = stale_of c (places (state_of (log_of base t)))) as Est.
  { unfold stale_of. specialize (Hlen (Command.get_key c)).
    by destruct (mi !! _), (places _ !! _); cbn in Hlen; simplify_eq. }
  pose proof (e_offset _ _ _ _ _ He) as Ho. pose proof (e_cur _ _ _ _ _ He) as Hcur.
  cbn [set_index writer] in Ho, Hcur, Hs0.
  destruct (append_record_run h w c mi (e_calm _ _ _ _ _ He) Hi) as (i & Hrun & Hi');
    [fold sh; lia|fold sh; unfold record_max in *; lia|].
  fold sh in Hrun, Hi'. rewrite Ho, Hcur in Hi'.
  destruct (index_exists (places (state_of (log_of base (tail_write t c))))) as [iv' Hiv'].
  eexists _, _. split; [exact Hrun|]. split_and!; [| |done|intros f; apply durable_of_append].
  - split.
    + exists iv'. rewrite Ho.
      apply (engine_append (set_index sh iv) w _ _ _ c iv' _ He Hc); [unfold record_max in *; ulia|lia|].
      by rewrite <- log_of_eq, <- places_tail_write.
    + exact Hi'.
    + rewrite places_tail_write. by apply lens_after.
  - split; cbn; fold sh; try (done || lia). apply (grown_index _ _ _ _ iv iv).
    by apply (append_grown (set_index sh iv) w _ _ _ c iv _ He).
Qed.

Lemma same_log_cases (l l' : list (Z * list Command)) c c' x x' :
  same_log (l ++ [(c, x)]) (l' ++ [(c', x')]) ->
  (l' = l /\ c' = c /\ x' = x) \/ (l' = l ++ [(c, x)] /\ x' = []).
Proof. intros [E|[id E]]; apply app_inj_2 in E as [-> E]; try done; simplify_eq; [by left|by right]. Qed.

(** The rest of a write: merge signal, durability policy, rotation. *)
Lemma post_write_ops_lagging h w base t mi :
  lagging (Bitcask.shared h) w base t mi -> room 1 (Bitcask.shared h) ->
  exists h' w' t', Bitcask.post_write_ops (h, w) = (Ok tt, (h', w')) /\
    lagging (Bitcask.shared h') w' base t' mi /\ (t' = t \/ exists next, t' = tail_rotate t next) /\
    advances 0 (Bitcask.shared h) w (Bitcask.shared h') w' /\
    (Config.durability_policy (config (Bitcask.shared h)) = SyncOnEveryPut ->
     all_durable (Bitcask.shared h') w').
Proof.
  intros [[iv He] Hi Hlen] (_ & _ & Hr).
  destruct (post_write_ops_engine (with_index h iv) w (base ++ later t) (cur t) (cmds t) He)
    as (h1 & w' & log' & cur' & cmds' & Hrun & _ & He' & Hlog & Hadv & Hdur); [cbn; lia|].
  destruct (blind_h_run _ _ _ _ _ _ _ blind_post_write_ops Hrun) as (h' & Hrun' & -> & Ei).
  cbn [with_index with_shared Bitcask.shared] in *.
  assert (exists t', log' = base ++ later t' /\ cur' = cur t' /\ cmds' = cmds t' /\
    (t' = t \/ exists next, t' = tail_rotate t next)) as (t' & -> & -> & -> & Ht).
  { apply same_log_cases in Hlog as [(-> & -> & ->)|[-> ->]]; [exists t|exists (tail_rotate t cur')];
      split_and!; try done; [by left| |right; by eexists]. cbn. by rewrite app_assoc. }
  exists h', w', t'. split_and!; try done.
  - split; [by exists iv|by rewrite Ei|].
    destruct Ht as [->|[next ->]]; [done|]. by rewrite state_tail_rotate.
  - by apply (advances_index _ _ _ _ _ iv iv).
Qed.

(** ** Records stay readable *)

(** Read handles stay, and the files behind them are only appended to. *)
Record extends (sh : Shared) (w : World) (sh' : Shared) (w' : World) : Prop := {
  x_readers : forall id h, BTreeMap.get id (readers sh) = Some h ->
              BTreeMap.get id (readers sh') = Some h;
  x_bytes : forall id h, BTreeMap.get id (readers sh) = Some h ->
            exists x, bytes_of w' h = bytes_of w h ++ x
}.

Lemma held_extends sh w sh' w' k e v :
  extends sh w sh' w' -> held sh w k e v -> held sh' w' k e v.
Proof.
  intros [Hr Hb] (f & ts & pre & post & Hf & Hbytes & H). destruct (Hb _ _ Hf) as [x Hx].
  exists f, ts, pre, (post ++ x). rewrite Hx, Hbytes, <- !app_assoc. split; [by apply Hr|]. by split.
Qed.

Lemma steady_extends sh w sh' w' : steady sh w sh' w' -> extends sh w sh' w'.
Proof. intros [R B]. split; [done|]. intros id h Hg. exists []. by rewrite (proj1 (B _ _ Hg)), app_nil_r. Qed.

Lemma grown_extends sh w sh' w' log cur cmds :
  engine sh w log cur cmds -> grown sh w sh' w' -> extends sh w sh' w'.
Proof.
  intros He Hg. split; [apply Hg|]. intros id h Hget.
  destruct (reader_inode _ _ _ _ _ _ _ He Hget) as [Hlt _].
  destruct (decide (h = file (writer sh))) as [->|Hne]; [apply Hg|].
  destruct (g_bytes _ _ _ _ Hg h Hlt Hne) as [-> _]. exists []. by rewrite app_nil_r.
Qed.

Lemma extends_index sh w sh' w' i i' :
  extends sh w sh' w' <-> extends (set_index sh i) w (set_index sh' i') w'.
Proof. split; intros []; by split. Qed.

(** What is behind the read handles other than the active file's: good records. *)
Definition readers_good (sh : Shared) (w : World) (active : Z) : Prop :=
  forall id h, BTreeMap.get id (readers sh) = Some h -> id <> active ->
  exists cs, bytes_of w h = enc cs /\ Forall good_cmd cs.

Lemma readers_good_grown sh w sh' w' log cur cmds log' cur' cmds' :
  engine sh w log cur cmds -> engine sh' w' log' cur' cmds' -> grown sh w sh' w' ->
  (cur' = cur \/ (exists cmds1, log' = log ++ [(cur, cmds1)]) /\
     forall id h, BTreeMap.get id (readers sh') = Some h -> cur < id -> id = cur') ->
  readers_good sh w cur -> readers_good sh' w' cur'.
Proof.
  intros He He' Hg Hcases Hgood id h Hget Hne.
  destruct (decide (BTreeMap.get id (readers sh') = BTreeMap.get id (readers sh))) as [E|E].
  - rewrite Hget in E. symmetry in E. destruct (reader_inode _ _ _ _ _ _ _ He E) as [Hlt Hname].
    destruct (decide (h = file (writer sh))) as [->|Hf].
    + pose proof (Hname _ (e_file _ _ _ _ _ He)) as En.
      apply btree_get_elem in E; [|apply He]. apply (e_readers _ _ _ _ _ He) in E as (Hid & _).
      apply data_file_name_inj in En; [|apply (d_cur _ _ _ _ _ (e_disk _ _ _ _ _ He))|done]. subst id.
      destruct Hcases as [->|[[cmds1 ->] _]]; [done|].
      destruct (d_sealed _ _ _ _ _ (e_disk _ _ _ _ _ He') cur cmds1) as [_ Hgc _ (h' & Hd' & Hb & _) _];
        [apply elem_of_app; right; left|].
      rewrite <- (e_covered _ _ _ _ _ He' cur cmds1), Hget in Hd';
        [|apply elem_of_app; left; apply elem_of_app; right; left].
      injection Hd' as <-. by exists cmds1.
    + destruct (g_bytes _ _ _ _ Hg h Hlt Hf) as [-> _]. apply (Hgood id); [done|].
      intros ->. rewrite (e_covered _ _ _ _ _ He cur cmds) in E by (apply elem_of_app; right; left).
      rewrite (e_file _ _ _ _ _ He) in E. by injection E.
  - apply (g_readers_new _ _ _ _ Hg) in E. rewrite (e_cur _ _ _ _ _ He) in E.
    destruct Hcases as [->|[_ Hnew]]; [|by destruct (Hne (Hnew _ _ Hget E))].
    apply btree_get_elem in Hget; [|apply He']. apply (e_readers _ _ _ _ _ He') in Hget as (_ & Hle & _). lia.
Qed.

(** ** The merge's invariants beside a writer *)

Record tail_grows (t t' : Tail) : Prop := {
  tg_ids : forall id cs, (id, cs) ∈ tail_files t' ->
    cur t <= id \/ exists cs', (id, cs') ∈ tail_files t;
  tg_keys : forall k, k ∈ tail_keys t -> k ∈ tail_keys t'
}.

Lemma tail_keys_write t c k : k ∈ tail_keys (tail_write t c) <-> k = Command.get_key c \/ k ∈ tail_keys t.
Proof.
  unfold tail_keys, tail_files, entries, keys_of. cbn [tail_write later cur cmds].
  rewrite !fmap_app, !concat_app. cbn [fmap list_fmap concat fst snd]. rewrite !app_nil_r, located_app.
  rewrite !fmap_app, !elem_of_app. cbn. rewrite list_elem_of_singleton. tauto.
Qed.

Lemma tail_keys_rotate t next : tail_keys (tail_rotate t next) = tail_keys t.
Proof.
  unfold tail_keys, tail_files, entries. cbn [tail_rotate later cur cmds].
  rewrite (fmap_app _ (later t ++ _)), concat_app. cbn. by rewrite app_nil_r.
Qed.

Lemma tail_grows_write t c : tail_grows t (tail_write t c).
Proof.
  split.
  - intros id cs. unfold tail_files. cbn [tail_write later cur cmds].
    intros [Hin|[= -> ->]%list_elem_of_singleton]%elem_of_app; [|left; lia].
    right. exists cs. apply elem_of_app. by left.
  - intros k Hk. apply tail_keys_write. by right.
Qed.

Lemma tail_grows_rotate t next : cur t <= next -> tail_grows t (tail_rotate t next).
Proof.
  intros Hle. split; [|by rewrite tail_keys_rotate]. intros id cs. unfold tail_files at 1.
  cbn [tail_rotate later cur cmds].
  intros [Hin|[= -> ->]%list_elem_of_singleton]%elem_of_app; [|by left]. right. by exists cs.
Qed.

Section plan.
Context (pl : Plan).

Lemma writing_grown sh w sh' w' log cur cmds out oc :
  engine sh w log cur cmds -> grown sh w sh' w' -> writing w out oc -> writing w' out oc.
Proof using.
  intros He Hg [W1 W2 W3 W4 W5 W6].
  pose proof (d_dir _ _ _ _ _ (e_disk _ _ _ _ _ He)) as [Hl Hf].
  assert (forall n h, dir w !! n = Some h -> n <> data_file_name cur ->
    bytes_of w' h = bytes_of w h) as Hsame.
  { intros n h Hn Hne. destruct (g_bytes _ _ _ _ Hg h) as [-> _]; [by eapply Hf| |done].
    intros ->. apply Hne. eapply Hl; [done|]. apply (e_file _ _ _ _ _ He). }
  split; try done; [by apply (g_old _ _ _ _ Hg)|by apply (g_old _ _ _ _ Hg)|..]; unfold taken in *.
  - erewrite Hsame; [done|exact W1|]. apply not_eq_sym, data_ne_compact.
  - erewrite Hsame; [done|exact W2|]. apply not_eq_sym, data_ne_hint.
Qed.

Lemma merging_grow seen n m sh w outs oc t sh' w' t' :
  merging pl seen n m sh w outs oc t ->
  engine sh' w' (mlog pl outs ++ later t') (cur t') (cmds t') ->
  grown sh w sh' w' -> config sh' = config sh -> tail_grows t t' ->
  merging pl seen n m sh' w' outs oc t'.
Proof using.
  intros Hm He' Hg Hcf [Tid Tk]. pose proof (cur_new pl Hm) as Hcn. pose proof (mg_engine Hm) as He.
  pose proof (e_cur _ _ _ _ _ He) as Hcur.
  assert (forall n, (forall id, n <> data_file_name id) -> dir w' !! n = dir w !! n) as Hdir.
  { intros nm Hnm. destruct (decide (dir w' !! nm = dir w !! nm)) as [E|E]; [done|].
    destruct (g_new _ _ _ _ Hg nm E) as (id & _ & _ & ->). by destruct (Hnm id). }
  destruct Hm as [M1 M2 M3 M4 M5 M6 M7 M8 M8' M9 M10 M11 M12 M13]. split; try done.
  - intros id cs Hin. destruct (Tid id cs Hin) as [?|[cs' Hin']]; [lia|by eapply M2].
  - by rewrite Hcf.
  - unfold output_ok in *. destruct (Compaction.output m) as [out|]; [|done].
    destruct M7 as (Hw & Hid & Hdf). split_and!; try done. by eapply writing_grown.
  - intros id Hid. rewrite !Hdir; [by apply M8| |]; intros i.
    + apply not_eq_sym, data_ne_compact.
    + apply not_eq_sym, data_ne_hint.
  - intros id h Hin. apply btree_get_elem in Hin; [|apply He'].
    destruct (decide (BTreeMap.get id (readers sh') = BTreeMap.get id (readers sh))) as [E|E].
    + rewrite E in Hin. apply btree_get_elem in Hin; [|apply M1]. by eapply M8'.
    + apply (g_readers_new _ _ _ _ Hg) in E. right. lia.
  - intros k e Hk Hs Hnew. eapply M9; [done|done|]. intros Hx. by apply Hnew, Tk.
Qed.

(** The updates that are made while others write. *)
Lemma lag_ext ps (l l' : list (list byte)) mi : (forall k, k ∈ l <-> k ∈ l') -> lag ps l mi = lag ps l' mi.
Proof using.
  intros H. induction ps as [|p ps IH]; [done|]. cbn [lag foldr]. fold (lag ps l mi) (lag ps l' mi).
  rewrite IH. by rewrite (decide_ext (key p ∈ l) (key p ∈ l')).
Qed.

Lemma lag_lookup seen n m sh w outs t ps k :
  applying pl seen n m sh w outs t ps ->
  let mi := lag ps (tail_keys t) (places (state_of (flog pl outs t))) in
  (mi !! k = fst <$> state_of (flog pl outs t) !! k) \/
  (exists p v, p ∈ ps /\ key p = k /\ mi !! k = Some (previous_value p) /\
     state_of (flog pl outs t) !! k = Some (new_value p, v) /\
     entry_in (front pl) k (previous_value p, v) /\
     IndexValue.len (previous_value p) = IndexValue.len (new_value p)).
Proof using.
  intros [_ _ _ Hnd Hup] mi. destruct (decide (k ∈ key <$> ps)) as [Hp|Hp].
  - destruct (decide (k ∈ tail_keys t)) as [Hk|Hk].
    + left. unfold mi. rewrite lag_other by by right. apply places_lookup.
    + right. apply list_elem_of_fmap in Hp as (p & -> & Hp).
      rewrite Forall_forall in Hup. destruct (Hup p Hp) as (v & Hst & Hent & Hl).
      exists p, v. split_and!; try done; [by apply lag_pending|]. by rewrite (flog_old pl _ Hk).
  - left. unfold mi. rewrite lag_other by by left. apply places_lookup.
Qed.

Lemma applying_lagging seen n m sh w outs t ps :
  applying pl seen n m sh w outs t ps ->
  lagging sh w (mlog pl outs) t (lag ps (tail_keys t) (places (state_of (flog pl outs t)))).
Proof using.
  intros Hap. pose proof Hap as [[iv Hm] _ Hi _ _]. split; [by exists iv; apply Hm|done|].
  intros k. destruct (lag_lookup _ _ _ _ _ _ _ _ k Hap) as [->|(p & v & _ & _ & -> & Hst & _ & Hl)].
  - by rewrite places_lookup.
  - rewrite places_lookup. unfold flog in Hst. unfold log_of. rewrite Hst. cbn. by rewrite Hl.
Qed.

Lemma applying_grow seen n m sh w outs t ps sh' w' t' mi' :
  applying pl seen n m sh w outs t ps -> lagging sh' w' (mlog pl outs) t' mi' ->
  mi' = lag ps (tail_keys t') (places (state_of (flog pl outs t'))) ->
  grown sh w sh' w' -> config sh' = config sh -> tail_grows t t' ->
  applying pl seen n m sh' w' outs t' ps.
Proof using.
  intros [[iv Hm] Ho Hi Hnd Hup] [[iv' He'] Hi' _] Emi Hg Hcf Ht. split; try done.
  - exists iv'. eapply merging_grow; [exact Hm|exact He'| |done|done]. by apply grown_index.
  - by rewrite <- Emi.
Qed.

Lemma lag_tail_write outs t ps c :
  NoDup (key <$> ps) ->
  index_after c (place (cur t) (blen (enc (cmds t))) c)
    (lag ps (tail_keys t) (places (state_of (flog pl outs t)))) =
  lag ps (tail_keys (tail_write t c)) (places (state_of (flog pl outs (tail_write t c)))).
Proof using.
  intros Hnd. change (flog pl outs ?t) with (log_of (mlog pl outs) t). rewrite places_tail_write.
  rewrite (lag_ext _ (tail_keys (tail_write t c)) (Command.get_key c :: tail_keys t)).
  2:{ intros k. rewrite tail_keys_write, elem_of_cons. done. }
  apply (lag_write ps (tail_keys t) _ (Command.get_key c)); [..|done]; destruct c; cbn [index_after Command.get_key].
  - intros. by rewrite !lookup_insert_eq.
  - intros. by rewrite !lookup_delete_eq.
  - intros. by rewrite lookup_insert_ne.
  - intros. by rewrite lookup_delete_ne.
Qed.

End plan.

End writers.
