(* ===== verification/Phases.v ===== *)
(** * The phases of a merge beside writers

    What holds of the store when the merge thread is at a given point of its code
    ([phase]), and that a step of a writer keeps it. *)

From Stdlib Require Import ZArith Lia Strings.Byte.
From stdpp Require Import base numbers list strings gmap.
From S2P Require Import Prelude Bytes Crc CommandFormat HintFormat Streams Reader KeyDir Text Names Config FileSystem Lock BTree Engine Load Merge MergeSteps Log Inv EngineProofs Replay MergeFiles MergeState MergeCopy MergePublish MergeProofs Interference.
Import Command(Command, Set_, Rm).
Import RecordReader Shared Compaction Merger.

Local Open Scope Z_scope.

Section phases.
Context `{Crc : Crc32}.

(** ** The steps of a writer *)

(** What a step of a writer does to the files since the snapshot and to the index:
    a record, a new active file, or nothing. *)
Inductive tail_step (t : Tail) (mi : gmap (list byte) IndexValue)
  : Tail -> gmap (list byte) IndexValue -> Prop :=
| tail_same : tail_step t mi t mi
| tail_record c :
    tail_step t mi (tail_write t c) (index_after c (place (cur t) (blen (enc (cmds t))) c) mi)
| tail_file next : cur t < next -> tail_step t mi (tail_rotate t next) mi.

Lemma tail_step_grows t mi t' mi' : tail_step t mi t' mi' -> tail_grows t t'.
Proof.
  intros [|c|next Hlt].
  - split; [|done]. intros id cs Hin. right. by exists cs.
  - apply tail_grows_write.
  - apply tail_grows_rotate. lia.
Qed.

(** An index that was up to date stays so. *)
Lemma tail_step_places base t t' mi' :
  tail_step t (places (state_of (log_of base t))) t' mi' -> mi' = places (state_of (log_of base t')).
Proof.
  intros H. inversion H; subst; [done| |].
  - by rewrite places_tail_write.
  - by rewrite state_tail_rotate.
Qed.

(** An index that lagged behind lags behind by the same updates. *)
Lemma tail_step_lag pl outs t ps t' mi' :
  NoDup (key <$> ps) ->
  tail_step t (lag ps (tail_keys t) (places (state_of (flog pl outs t)))) t' mi' ->
  mi' = lag ps (tail_keys t') (places (state_of (flog pl outs t'))).
Proof.
  intros Hnd H. inversion H; subst; [done| |].
  - by rewrite lag_tail_write.
  - rewrite tail_keys_rotate. change (flog pl outs ?t) with (log_of (mlog pl outs) t).
    by rewrite state_tail_rotate.
Qed.

(** Records that appear in the state are new or were there. *)
Lemma tail_step_state base t mi t' mi' k e :
  tail_step t mi t' mi' -> state_of (log_of base t') !! k = Some e ->
  state_of (log_of base t) !! k = Some e \/ IndexValue.file_id (fst e) = cur t.
Proof.
  intros H. inversion H as [|c|next ?]; subst; [by left| |rewrite state_tail_rotate; by left].
  rewrite state_tail_write. unfold apply1. cbn [fst snd]. destruct c as [ts k' v|ts k'].
  - rewrite lookup_insert. case_decide; [intros [= <-]; by right|by left].
  - rewrite lookup_delete. case_decide; [done|by left].
Qed.

(** ** The deletion of the sources *)

(** The sources [ids] are still to be deleted: those of them that are files of the
    log come first in it and have no live record. *)
Record removing (sh : Shared) (w : World) (base : list (Z * list Command)) (t : Tail)
  (ids : list Z) (fr rest : list (Z * list Command)) (old : Z) : Prop := {
  rm_engine : engine sh w (base ++ later t) (cur t) (cmds t);
  rm_base : base = fr ++ rest;
  rm_front : forall id, id ∈ fr.*1 -> id ∈ ids;
  rm_ids : exists s : list (Z * list Command), ascending s /\ ids = s.*1;
  rm_old : forall id, id ∈ ids -> is_u64 id /\ id < old;
  rm_rest : forall id cs, (id, cs) ∈ rest ++ tail_files t -> old <= id;
  rm_dead : forall k e, state_of (log_of base t) !! k = Some e -> IndexValue.file_id (fst e) ∉ fr.*1
}.

Lemma removing_grow sh w base t ids fr rest old sh' w' mi t' mi' :
  removing sh w base t ids fr rest old -> engine sh' w' (base ++ later t') (cur t') (cmds t') ->
  tail_step t mi t' mi' -> removing sh' w' base t' ids fr rest old.
Proof.
  intros [R1 R2 R3 R4 R5 R6 R7] He' Hstep. pose proof (tail_step_grows _ _ _ _ Hstep) as [Hids _].
  assert (old <= cur t) as Hcur.
  { apply (R6 (cur t) (cmds t)), elem_of_app. right. unfold tail_files. apply elem_of_app. right. left. }
  split; try done.
  - intros id cs [Hin|Hin]%elem_of_app; [apply (R6 id cs), elem_of_app; by left|].
    destruct (Hids id cs Hin) as [?|[cs' Hin']]; [lia|]. apply (R6 id cs'), elem_of_app. by right.
  - intros k e Hk Hin. destruct (tail_step_state _ _ _ _ _ _ _ Hstep Hk) as [Hk'|E].
    + by apply (R7 k e Hk').
    + rewrite E in Hin. apply R3, R5 in Hin. lia.
Qed.

(** ** The phases *)

(** The merge of [pl] has read the sources [done_]; [todo] are the handles of the
    others. *)
Record reading (pl : Plan) (start : Start) (m : Merge) (sh : Shared) (w : World)
  (done_ rest : list (Z * list Command)) (todo : list (Z * File)) : Prop := {
  rd_plan : plan_ok pl;
  rd_rest : forall f, f ∈ rest -> f ∈ srcs pl;
  rd_todo : Forall2 (handle_of sh w) rest todo;
  rd_ids : ids_to_remove m = done_.*1;
  rd_stale : init_stale_bytes start <= stale_bytes_count (writer sh)
}.

Definition up_to_date (base : list (Z * list Command)) (t : Tail) : gmap (list byte) IndexValue :=
  places (state_of (log_of base t)).

(** What holds when the merge thread is at [pc]: the log is [base] and then [t],
    the index holds [mi]. *)
Definition phase (pc : PC) (sh : Shared) (w : World) (base : list (Z * list Command)) (t : Tail)
  (mi : gmap (list byte) IndexValue) : Prop :=
  match pc with
  | Waiting | Starting => mi = up_to_date base t /\ engine sh w (base ++ later t) (cur t) (cmds t)
  | AtFile start m todo => mi = up_to_date base t /\ exists pl done_ rest outs oc,
      base = mlog pl outs /\ srcs pl = done_ ++ rest /\ reading pl start m sh w done_ rest todo /\
      merging pl (seen_in done_) (total_bytes done_) m sh w outs oc t /\
      (Forall (full pl) outs \/ todo = [] /\ output m = None)
  | AtRecord start m id fuel rr todo => mi = up_to_date base t /\ exists pl done_ rest outs oc pre post b,
      base = mlog pl outs /\ srcs pl = done_ ++ (id, pre ++ post) :: rest /\
      reading pl start m sh w done_ rest todo /\
      rr = at_pos (enc (pre ++ post)) (blen (enc pre)) b /\ (length post < fuel)%nat /\
      merging pl (seen_in (done_ ++ [(id, pre)])) (total_bytes done_ + blen (enc pre)) m sh w outs oc t /\
      Forall (full pl) outs /\ output m <> None
  | AtPublish start m todo => mi = up_to_date base t /\ exists pl done_ rest outs oc,
      base = mlog pl outs /\ srcs pl = done_ ++ rest /\ reading pl start m sh w done_ rest todo /\
      merging pl (seen_in done_) (total_bytes done_) m sh w outs oc t /\
      Forall (full pl) outs /\ output m <> None /\ (threshold pl <= blen (enc oc) \/ todo = [])
  | AtUpdate start m ps todo => exists pl done_ rest outs,
      base = mlog pl outs /\ mi = lag ps (tail_keys t) (up_to_date base t) /\
      srcs pl = done_ ++ rest /\ reading pl start m sh w done_ rest todo /\
      applying pl (seen_in done_) (total_bytes done_) m sh w outs t ps /\
      (Forall (full pl) outs \/ todo = [])
  | AtRemove start m ids => mi = up_to_date base t /\ output m = None /\
      init_stale_bytes start <= stale_bytes_count (writer sh) /\
      exists fr rest old, removing sh w base t ids fr rest old
  | AtStale start m => mi = up_to_date base t /\ output m = None /\
      init_stale_bytes start <= stale_bytes_count (writer sh) /\
      engine sh w (base ++ later t) (cur t) (cmds t)
  | Finished o m => mi = up_to_date base t /\ output m = None /\ o <> Panic /\
      engine sh w (base ++ later t) (cur t) (cmds t)
  | Dead => False
  end.
(** ** A step of a writer keeps the phase *)

Lemma reading_grow pl start m sh w done_ rest todo log cur cmds sh' w' :
  reading pl start m sh w done_ rest todo -> engine sh w log cur cmds -> new_active pl <= cur ->
  grown sh w sh' w' -> stale_bytes_count (writer sh) <= stale_bytes_count (writer sh') ->
  reading pl start m sh' w' done_ rest todo.
Proof.
  intros [R1 R2 R3 R4 R5] He Hcur Hg Hs. split; try done; [|lia].
  eapply handles_grown; [exact He|exact Hg| |exact R3]. intros id cs Hin.
  apply R2, (pl_srcs _ R1) in Hin as (Hid & Hlt & _). pose proof (active_lt pl R1). split; [done|lia].
Qed.

Lemma phase_lagging pc sh w base t mi : phase pc sh w base t mi -> lagging sh w base t mi.
Proof.
  destruct pc; cbn [phase].
  - intros [-> He]. by apply engine_lagging.
  - intros [-> He]. by apply engine_lagging.
  - intros (-> & pl & ? & ? & outs & ? & -> & _ & _ & Hm & _). apply engine_lagging, Hm.
  - intros (-> & pl & ? & ? & outs & ? & ? & ? & ? & -> & _ & _ & _ & _ & Hm & _). apply engine_lagging, Hm.
  - intros (-> & pl & ? & ? & outs & ? & -> & _ & _ & Hm & _). apply engine_lagging, Hm.
  - intros (pl & ? & ? & outs & -> & -> & _ & _ & Hap & _). by eapply applying_lagging.
  - intros (-> & _ & _ & fr & rest & old & Hr). by eapply engine_lagging, rm_engine.
  - intros (-> & _ & _ & He). by apply engine_lagging.
  - intros (-> & _ & _ & He). by apply engine_lagging.
  - done.
Qed.

Lemma phase_write pc sh w base t mi n sh' w' t' mi' :
  phase pc sh w base t mi -> lagging sh' w' base t' mi' -> tail_step t mi t' mi' ->
  advances n sh w sh' w' -> phase pc sh' w' base t' mi'.
Proof.
  intros Hph Hl Ht [Hcf _ [Hs _] _ _ Hg]. pose proof (tail_step_grows _ _ _ _ Ht) as Htg.
  pose proof (lagging_engine sh' w' base t') as Hle.
  assert (mi = up_to_date base t -> mi' = up_to_date base t' /\
    engine sh' w' (base ++ later t') (cur t') (cmds t')) as Hplaces.
  { intros ->. pose proof (tail_step_places _ _ _ _ Ht) as ->. by split; [|apply Hle]. }
  destruct pc; cbn [phase] in *.
  - apply Hplaces, Hph.
  - apply Hplaces, Hph.
  - destruct Hph as (E & pl & d & r & outs & oc & -> & Hsp & Hrd & Hm & Hf).
    destruct (Hplaces E) as [-> He']. split; [done|]. exists pl, d, r, outs, oc. split_and!; try done.
    + eapply reading_grow; [done|apply Hm|by eapply cur_new|done|done].
    + by eapply merging_grow.
  - destruct Hph as (E & pl & d & r & outs & oc & pre & post & b & -> & Hsp & Hrd & Hrr & Hfu & Hm & Hf).
    destruct (Hplaces E) as [-> He']. split; [done|]. exists pl, d, r, outs, oc, pre, post, b.
    split_and!; try done; [|by eapply merging_grow|apply Hf|apply Hf].
    eapply reading_grow; [done|apply Hm|by eapply cur_new|done|done].
  - destruct Hph as (E & pl & d & r & outs & oc & -> & Hsp & Hrd & Hm & Hf).
    destruct (Hplaces E) as [-> He']. split; [done|]. exists pl, d, r, outs, oc.
    split_and!; try done; [|by eapply merging_grow|apply Hf|apply Hf|apply Hf].
    eapply reading_grow; [done|apply Hm|by eapply cur_new|done|done].
  - destruct Hph as (pl & d & r & outs & -> & -> & Hsp & Hrd & Hap & Hf).
    pose proof (tail_step_lag _ _ _ _ _ _ (ap_keys _ _ _ _ _ _ _ _ _ Hap) Ht) as ->.
    exists pl, d, r, outs. split_and!; try done; [|by eapply applying_grow].
    destruct (ap_merging _ _ _ _ _ _ _ _ _ Hap) as [iv Hm].
    destruct Hrd as [R1 R2 R3 R4 R5]. split; try done; [|lia].
    assert (reading pl start m (set_index sh iv) w d r todo) as Hrd by by split.
    destruct (lg_engine _ _ _ _ _ Hl) as [iv' He'].
    eapply (reading_grow _ _ _ (set_index sh iv) w _ _ _ _ _ _ (set_index sh' iv') w') in Hrd;
      [by destruct Hrd|apply Hm|by eapply cur_new|by apply grown_index|done].
  - destruct Hph as (E & Ho & Hst & fr & rest & old & Hr). destruct (Hplaces E) as [-> He'].
    split_and!; [done|done|lia|]. exists fr, rest, old. by eapply removing_grow.
  - destruct Hph as (E & Ho & Hst & He). destruct (Hplaces E) as [-> He']. split_and!; (done || lia).
  - destruct Hph as (E & Ho & Hst & He). destruct (Hplaces E) as [-> He']. by split_and!.
  - done.
Qed.

(** ** What the index points at *)

Definition points (sh : Shared) (w : World) (mi : gmap (list byte) IndexValue) (st : KV) : Prop :=
  forall k, match st !! k with
            | None => mi !! k = None
            | Some (_, v) => exists e, mi !! k = Some e /\ held sh w k e v
            end.

Lemma phase_points pc sh w base t mi :
  phase pc sh w base t mi -> points sh w mi (state_of (log_of base t)).
Proof.
  intros Hph k. destruct (lg_engine _ _ _ _ _ (phase_lagging _ _ _ _ _ _ Hph)) as [iv He].
  pose proof (engine_readable _ _ _ _ _ He) as [_ Hfiles]. rewrite <- log_of_eq in Hfiles.
  assert (forall e v, state_of (log_of base t) !! k = Some (e, v) -> held sh w k e v) as Hheld.
  { intros e v Hst. apply state_of_entry_in in Hst. by eapply (entry_held (set_index sh iv)). }
  assert ((mi !! k = fst <$> state_of (log_of base t) !! k) \/
    exists e v v', mi !! k = Some e /\ state_of (log_of base t) !! k = Some (v', v) /\ held sh w k e v)
    as [->|(e & v & v' & -> & -> & H)]; [|destruct (state_of (log_of base t) !! k) as [[e v]|]; [|done]|by exists e].
  2:{ exists e. split; [done|]. by apply Hheld. }
  assert (mi = up_to_date base t \/ exists start m ps todo, pc = AtUpdate start m ps todo) as
    [->|(start & m & ps & todo & ->)].
  { destruct pc; cbn [phase] in Hph; try (left; apply Hph); [|done]. right. by eexists _, _, _, _. }
  { left. apply places_lookup. }
  destruct Hph as (pl & d & r & outs & -> & -> & _ & Hrd & Hap & _).
  destruct (lag_lookup _ _ _ _ _ _ _ _ _ k Hap) as [E|(p & v & _ & _ & E & Hst & Hent & _)]; [by left|].
  right. exists (previous_value p), v, (new_value p). split_and!; [done|done|].
  eapply (entry_held (set_index sh iv)); [exact Hfiles|].
  destruct Hent as (cs & pre & post & ts & Hin & Hx). exists cs, pre, post, ts. split; [|done].
  by apply front_good.
Qed.

End phases.
