(* ===== verification/PhaseSteps.v ===== *)
(** * The steps of the merge thread, beside writers

    Every step of the merge thread leads from a phase to a phase, keeps the map
    the store holds, and leaves every record that could be read where it can be
    read. *)

From Stdlib Require Import ZArith Lia Strings.Byte.
From stdpp Require Import base numbers list strings gmap.
From S2P Require Import Prelude Bytes Crc CommandFormat HintFormat Streams Reader KeyDir Text Names Config FileSystem Lock BTree Engine Load Merge MergeSteps Log Inv EngineProofs Replay MergeFiles MergeState MergeCopy MergePublish MergeProofs Interference Phases.
Import Command(Command, Set_, Rm).
Import RecordReader Shared Compaction Merger.

Local Open Scope Z_scope.

Section steps.
Context `{Crc : Crc32}.

(** ** What every step keeps *)

(** All but the last [n] commands of the active file are on stable storage. *)
Definition synced_but (n : nat) (sh : Shared) (w : World) (t : Tail) : Prop :=
  exists pre post, cmds t = pre ++ post /\ (length post <= n)%nat /\
    blen (enc pre) <= durable_of w (file (writer sh)).

Record unnoticed (sh : Shared) (w : World) (base : list (Z * list Command)) (t : Tail)
  (sh' : Shared) (w' : World) (base' : list (Z * list Command)) (t' : Tail) : Prop := {
  un_values : values (state_of (log_of base' t')) = values (state_of (log_of base t));
  un_extends : extends sh w sh' w';
  un_good : readers_good sh' w' (cur t');
  un_config : config sh' = config sh;
  un_synced : forall n, synced_but n sh w t -> synced_but n sh' w' t'
}.

Lemma unnoticed_same sh w base t :
  readers_good sh w (cur t) -> unnoticed sh w base t sh w base t.
Proof. intros Hg. split; try done. split; [done|]. intros. exists []. by rewrite app_nil_r. Qed.

(** Steps that leave the writer and what can be read. *)
Lemma unnoticed_steady sh w base t mi sh' w' base' :
  lagging sh w base t mi -> readers_good sh w (cur t) -> steady sh w sh' w' ->
  values (state_of (log_of base' t)) = values (state_of (log_of base t)) ->
  file (writer sh') = file (writer sh) -> config sh' = config sh ->
  (forall id h, BTreeMap.get id (readers sh') = Some h ->
     BTreeMap.get id (readers sh) = Some h \/ exists cs, bytes_of w' h = enc cs /\ Forall good_cmd cs) ->
  unnoticed sh w base t sh' w' base' t.
Proof.
  intros [[iv He] _ _] Hgood Hst Hv Hf Hcf Hrd. split; try done.
  - by apply steady_extends.
  - intros id h Hget Hne. destruct (Hrd id h Hget) as [Hold|Hnew]; [|done].
    destruct (st_bytes _ _ _ _ Hst _ _ Hold) as [-> _]. by apply (Hgood id).
  - intros n (pre & post & Hc & Hn & Hd). exists pre, post. split_and!; try done. rewrite Hf.
    destruct (st_bytes _ _ _ _ Hst (cur t) (file (writer sh))) as [_ ->]; [|done].
    pose proof (e_covered _ _ _ _ _ He (cur t) (cmds t)) as Hcov. cbn [set_index readers] in Hcov.
    rewrite Hcov by (apply elem_of_app; right; left). apply (e_file _ _ _ _ _ He).
Qed.

(** ** What the snapshot holds *)

Definition snapshot_bytes (sh : Shared) (w : World) : Z :=
  foldr (fun e n => blen (bytes_of w (snd e)) + n) 0 (snapshot sh).

(** The counters of the code stay in their range for one more step. *)
Definition roomy (sh : Shared) (w : World) : Prop :=
  room 1 sh /\ 0 < Config.file_size_threshold (config sh) /\ snapshot_bytes sh w <= u64_max /\
  current_file_id (writer sh) + snapshot_bytes sh w / Config.file_size_threshold (config sh) + 3
    <= u64_max.

Lemma handles_bytes sh w (sources : list (Z * list Command)) snap :
  Forall2 (handle_of sh w) sources snap ->
  total_bytes sources = foldr (fun e n => blen (bytes_of w (snd e)) + n) 0 snap.
Proof.
  induction 1 as [|[id cs] [id' h] sources snap (_ & _ & Hb) _ IH]; [done|].
  cbn [fst snd] in *. rewrite total_bytes_cons. cbn [foldr snd]. by rewrite Hb, IH.
Qed.

Lemma sorted_from_filter {V} (Q : Z * V -> Prop) `{!forall x, Decision (Q x)} lo (m : list (Z * V)) :
  sorted_from lo m -> sorted_from lo (filter Q m).
Proof.
  revert lo. induction m as [|[k v] m IH]; intros lo; [done|]. intros [H1 H2].
  rewrite filter_cons. case_decide; [by split; [|apply IH]|].
  eapply sorted_from_weaken, IH, H2. lia.
Qed.

Lemma sorted_from_handles sh w lo (sources : list (Z * list Command)) snap :
  Forall2 (handle_of sh w) sources snap -> sorted_from lo snap -> sorted_from lo sources.
Proof.
  intros HF. revert lo. induction HF as [|[id cs] [id' h] sources snap (E & _) _ IH]; intros lo; [done|].
  cbn [fst] in E. subst id'. intros [H1 H2]. split; [done|by apply IH].
Qed.

(** What the handles of the snapshot are open on. *)
Lemma sources_exist sh w log cur cmds :
  engine sh w log cur cmds -> readers_good sh w cur ->
  exists sources, sources_of sh w log cur sources /\ total_bytes sources = snapshot_bytes sh w.
Proof.
  intros He Hgood. pose proof (e_disk _ _ _ _ _ He) as Hd.
  assert (forall l, (forall e, e ∈ l -> e ∈ snapshot sh) -> exists sources : list (Z * list Command),
    Forall2 (handle_of sh w) sources l /\
    (forall id cs, (id, cs) ∈ sources -> is_u64 id /\ id < cur /\ Forall good_cmd cs) /\
    (forall id cs, (id, cs) ∈ log -> id ∈ l.*1 -> (id, cs) ∈ sources)) as Hex.
  { induction l as [|[id h] l IH]; intros Hsub.
    { exists []. split_and!; [constructor|by intros ? ? ?%not_elem_of_nil|by intros ? ? _ ?%not_elem_of_nil]. }
    destruct IH as (sources & HF & Hids & Hlog); [intros e He'; apply Hsub; by right|].
    pose proof (Hsub (id, h) ltac:(left)) as Hin. unfold snapshot in Hin.
    apply list_elem_of_filter in Hin as [Hne Hin]. cbn [fst] in Hne. rewrite (e_cur _ _ _ _ _ He) in Hne.
    destruct (e_readers _ _ _ _ _ He id h Hin) as (Hid & Hle & _).
    apply btree_get_elem in Hin; [|apply He].
    assert (exists cs, bytes_of w h = enc cs /\ Forall good_cmd cs /\
      forall cs', (id, cs') ∈ log -> cs' = cs) as (cs & Hb & Hg & Huniq).
    { destruct (decide (id ∈ log.*1)) as [Hl|Hl].
      - apply list_elem_of_fmap in Hl as ([i cs] & -> & Hl). cbn [fst] in *. exists cs.
        destruct (d_sealed _ _ _ _ _ Hd _ _ Hl) as [_ Hg _ (h' & Hh' & Hb & _) _].
        rewrite <- (e_covered _ _ _ _ _ He i cs), Hin in Hh' by (apply elem_of_app; by left).
        injection Hh' as <-. split_and!; try done. intros cs' Hl'.
        pose proof (btree_ok_app_l _ _ (d_ascending _ _ _ _ _ Hd)) as Hasc.
        apply (btree_get_elem _ _ _ Hasc) in Hl. apply (btree_get_elem _ _ _ Hasc) in Hl'.
        rewrite Hl in Hl'. by injection Hl'.
      - destruct (Hgood id h Hin Hne) as (cs & Hb & Hg). exists cs. split_and!; try done.
        intros cs' Hl'. destruct Hl. by apply (list_elem_of_fmap_2 fst log (id, cs')). }
    exists ((id, cs) :: sources). split_and!.
    - by constructor.
    - intros i c [[= -> ->]|Hin']%elem_of_cons; [split_and!; (done || lia)|by apply Hids].
    - intros i c Hl. cbn [fmap list_fmap fst]. intros [->|Hin']%elem_of_cons.
      + rewrite (Huniq c Hl). left.
      + right. by apply Hlog. }
  destruct (Hex (snapshot sh)) as (sources & HF & Hids & Hlog); [done|]. exists sources.
  split; [|by apply (handles_bytes sh)]. split; try done.
  - destruct (btree_ok_from _ (e_readers_ok _ _ _ _ _ He)) as [lo Hlo].
    apply (sorted_from_ok lo), (sorted_from_handles _ _ _ _ _ HF). by apply sorted_from_filter.
  - intros [id cs] Hin. apply Hlog; [done|].
    destruct (d_sealed _ _ _ _ _ Hd _ _ Hin) as [_ _ _ (h & Hh & _) _].
    rewrite <- (e_covered _ _ _ _ _ He id cs) in Hh by (apply elem_of_app; by left).
    apply btree_get_elem in Hh; [|apply He]. apply (list_elem_of_fmap_2 fst _ (id, h)).
    apply list_elem_of_filter. split; [|done]. cbn [fst]. rewrite (e_cur _ _ _ _ _ He).
    pose proof (ascending_lt _ _ _ _ _ (d_ascending _ _ _ _ _ Hd) Hin). lia.
Qed.

(** ** The start of a merge *)

(** There is nothing to merge. *)
Lemma begin_nothing sh w :
  writer_poisoned sh = false ->
  stale_bytes_count (writer sh) < Config.compaction_threshold (config sh) \/ snapshot sh = [] ->
  begin (sh, w) = (Ok None, (sh, w)).
Proof.
  intros Hp Hno. unfold begin, with_writer_lock. cbn [fst]. rewrite Hp.
  unfold bind at 1 2, get_writer, get_config, gets. cbn [fst].
  destruct (Z.ltb_spec (stale_bytes_count (writer sh)) (Config.compaction_threshold (config sh))); [done|].
  unfold bind at 1. cbn [fst]. fold (snapshot sh). destruct Hno as [?|Hno]; [lia|].
  by rewrite decide_True.
Qed.

Lemma start_step sh w base t :
  engine sh w (base ++ later t) (cur t) (cmds t) -> readers_good sh w (cur t) -> roomy sh w ->
  exists pc' sh' w' base' t', step Starting (sh, w) = (pc', (sh', w')) /\
    phase pc' sh' w' base' t' (up_to_date base' t') /\ unnoticed sh w base t sh' w' base' t'.
Proof.
  intros He Hgood (Hr & Hthr & Hbytes & Hids).
  destruct (decide (stale_bytes_count (writer sh) < Config.compaction_threshold (config sh) \/
    snapshot sh = [])) as [Hno|Hyes].
  { exists (Finished (Ok tt) no_merge), sh, w, base, t. cbn [step].
    rewrite (begin_nothing sh w (e_lock _ _ _ _ _ He) Hno). split; [done|].
    split; [by split_and!|by apply unnoticed_same]. }
  assert (Config.compaction_threshold (config sh) <= stale_bytes_count (writer sh)) as Hst by lia.
  assert (snapshot sh <> []) as Hsn by tauto.
  destruct (sources_exist _ _ _ _ _ He Hgood) as (sources & Hso & Htot).
  rewrite (e_cur _ _ _ _ _ He) in Hids.
  destruct (merging_start sh w (base ++ later t) (cur t) (cmds t) sources He Hso)
    as (start & sh' & w' & Hbegin & Hpl & Hm & Esnap & Einit & HF & Hg & Es & Ec & Hv); try done.
  { intros ->. apply Hsn. by pose proof (so_handles _ _ _ _ _ Hso) as E%Forall2_nil_inv_l. }
  { by rewrite Htot. }
  { unfold next_active. by rewrite Htot. }
  set (pl := plan_of sh sources (base ++ later t) (cur t) (cmds t)) in *.
  exists (AtFile start (init_merge start) (readers_snapshot start)), sh', w', (mlog pl []),
    (no_tail (new_active pl)).
  split; [cbn [step]; by rewrite Hbegin|]. split.
  - split; [done|]. exists pl, [], sources, [], []. split_and!; try done; [|by left].
    rewrite Esnap. split; try done. rewrite Einit, Es. lia.
  - pose proof (mg_engine Hm) as He'. split.
    + rewrite (log_of_eq base t). exact Hv.
    + by eapply grown_extends.
    + eapply (readers_good_grown sh w sh' w'); [exact He|exact He'|done| |done]. right.
      split; [eexists; cbn [no_tail later]; by rewrite app_nil_r|]. intros id h Hget Hlt.
      apply btree_get_elem in Hget; [|apply He']. destruct (mg_readers Hm id h Hget) as [Hx|Hx].
      * cbn in Hx. lia.
      * apply (e_readers _ _ _ _ _ He') in Hget as (_ & Hle & _). cbn [no_tail MergeState.cur] in *. lia.
    + done.
    + intros n _. exists [], []. split_and!; [done|cbn; lia|]. unfold enc. cbn.
      apply (e_inodes _ _ _ _ _ He').
Qed.

(** A step of the merge thread at [pc] leads to a phase, unnoticed. *)
Definition leads (pc : PC) (sh : Shared) (w : World) (base : list (Z * list Command)) (t : Tail) : Prop :=
  exists pc' sh' w' base' t' mi', step pc (sh, w) = (pc', (sh', w')) /\
    phase pc' sh' w' base' t' mi' /\ unnoticed sh w base t sh' w' base' t'.

Lemma reading_steady pl start m sh w done_ rest todo sh' w' m' :
  reading pl start m sh w done_ rest todo -> steady sh w sh' w' -> writer sh' = writer sh ->
  ids_to_remove m' = ids_to_remove m -> reading pl start m' sh' w' done_ rest todo.
Proof.
  intros [R1 R2 R3 R4 R5] Hst Hw Hi. split; try done; [|by rewrite Hi|by rewrite Hw].
  eapply Forall2_impl; [exact R3|]. intros f h. by apply handle_of_steady.
Qed.

Lemma handle_at sh w id cs rest todo :
  Forall2 (handle_of sh w) ((id, cs) :: rest) todo ->
  exists h todo', todo = (id, h) :: todo' /\ handle_of sh w (id, cs) (id, h) /\
    Forall2 (handle_of sh w) rest todo'.
Proof.
  intros ([i h] & todo' & Hh & HF & ->)%Forall2_cons_inv_l. exists h, todo'.
  pose proof (proj1 Hh) as E. cbn [fst] in E. by subst i.
Qed.

(** The bytes of the sources that were read. *)
Lemma done_bytes (pl : Plan) done_ rest :
  srcs pl = done_ ++ rest -> total_bytes done_ <= total_bytes (srcs pl).
Proof. intros ->. rewrite total_bytes_app. pose proof (total_bytes_nonneg rest). lia. Qed.

(** The next source is opened. *)
Lemma file_open_step start m f todo sh w base t mi :
  phase (AtFile start m (f :: todo)) sh w base t mi -> readers_good sh w (cur t) ->
  leads (AtFile start m (f :: todo)) sh w base t.
Proof.
  intros Hph Hgood. pose proof (phase_lagging _ _ _ _ _ _ Hph) as Hl.
  destruct Hph as (-> & pl & d & rest & outs & oc & -> & Hsp & Hrd & Hm & [Hfull|[? _]]); [|done].
  pose proof Hrd as [Hpl Hrest HF Hi Hst]. destruct rest as [|[id cs] rest].
  { by apply Forall2_nil_inv_l in HF. }
  apply handle_at in HF as (h & todo' & [= -> <-] & Hh & HF).
  pose proof (output_room pl Hpl _ _ _ _ _ _ _ _ Hm Hfull (done_bytes _ _ _ Hsp)) as Hroom.
  destruct (open_source_run pl Hpl _ _ _ _ _ _ _ _ _ _ _ Hm Hroom Hh)
    as (m1 & w1 & Hopen & Hm1 & Ho1 & Hr1 & Hst1).
  pose proof (merging_seen pl _ _ _ _ _ _ _ _ _ Hm1 (source_scope pl d rest id cs Hsp [])
    (seen_start d id)) as Hm1'.
  destruct (pl_srcs _ Hpl _ _ (source_in pl d rest id cs Hsp)) as (_ & _ & Hg).
  pose proof (concat_framed_length _ (enc_framed cs Hg)) as Hlen. rewrite length_fmap in Hlen.
  fold (enc cs) in Hlen.
  exists (AtRecord start m1 id (S (length (enc cs))) (at_pos (enc cs) 0 []) todo), sh, w1,
    (mlog pl outs), t, (up_to_date (mlog pl outs) t).
  split; [cbn [step]; unfold run_local; by rewrite Hopen|]. split.
  - split; [done|]. exists pl, d, rest, outs, oc, [], cs, []. split_and!; try done.
    + eapply reading_steady; [|exact Hst1|done|done]. split; try done.
      intros g Hg'. apply Hrest. by right.
    + cbn [app]. lia.
    + change (blen (enc [])) with 0. by rewrite Z.add_0_r.
  - eapply unnoticed_steady; try done. intros i h' Hget. by left.
Qed.

(** All sources are read and all updates made: the sources can be deleted. *)
Lemma merged_removing pl (Hpl : plan_ok pl) n m sh w outs oc t :
  merging pl (seen_in (srcs pl)) n m sh w outs oc t -> pending_records m = [] ->
  removing sh w (mlog pl outs) t (srcs pl).*1 (front pl) ((old_active pl, old_cmds pl) :: outs) (old_active pl).
Proof.
  intros Hm Hp. split; try done.
  - apply Hm.
  - intros id ([i cs] & -> & Hin)%list_elem_of_fmap.
    by apply (list_elem_of_fmap_2 fst _ (i, cs)), (pl_front _ Hpl).
  - exists (srcs pl). split; [apply Hpl|done].
  - intros id ([i cs] & -> & Hin)%list_elem_of_fmap.
    apply (pl_srcs _ Hpl) in Hin as (? & ? & _). by split.
  - intros id cs [[[= -> ->]|Hin]%elem_of_cons|Hin]%elem_of_app; [lia| |].
    + apply (list_elem_of_fmap_2 fst) in Hin. rewrite (mg_ids Hm) in Hin.
      apply elem_of_seqZ in Hin. cbn in Hin. lia.
    + apply (mg_tail Hm) in Hin. pose proof (active_lt pl Hpl). lia.
  - intros k e Hk. eapply sources_dead; [exact Hpl|exact Hm|exact Hp|exact Hk].
Qed.

(** All sources are read: the last output is finished, or the sources are deleted. *)
Lemma file_last_step start m sh w base t mi :
  phase (AtFile start m []) sh w base t mi -> readers_good sh w (cur t) ->
  leads (AtFile start m []) sh w base t.
Proof.
  intros Hph Hgood.
  destruct Hph as (-> & pl & d & rest & outs & oc & -> & Hsp & Hrd & Hm & Hfull).
  pose proof Hrd as [Hpl Hrest HF Hi Hst]. apply Forall2_nil_inv_r in HF as ->.
  destruct (output m) as [out|] eqn:Eo.
  - exists (AtPublish start m []), sh, w, (mlog pl outs), t, (up_to_date (mlog pl outs) t).
    split; [cbn [step]; by rewrite Eo|]. split; [|by apply unnoticed_same].
    split; [done|]. exists pl, d, [], outs, oc. rewrite Eo. split_and!; try done; [|by right].
    by destruct Hfull as [?|[_ ?]].
  - exists (AtRemove start m (ids_to_remove m)), sh, w, (mlog pl outs), t, (up_to_date (mlog pl outs) t).
    split; [cbn [step]; by rewrite Eo|]. split; [|by apply unnoticed_same].
    rewrite app_nil_r in Hsp. rewrite <- Hsp in *. rewrite Hi.
    split_and!; try done. eexists _, _, _. eapply merged_removing; [exact Hpl|exact Hm|].
    pose proof (mg_output Hm) as Hout. unfold output_ok in Hout. rewrite Eo in Hout. apply Hout.
Qed.

(** One more record of the source. *)
Lemma record_next_step start m id fuel rr todo sh w base t mi pl d rest outs oc pre c post b :
  mi = up_to_date base t -> base = mlog pl outs -> srcs pl = d ++ (id, pre ++ c :: post) :: rest ->
  reading pl start m sh w d rest todo -> rr = at_pos (enc (pre ++ c :: post)) (blen (enc pre)) b ->
  (length (c :: post) < fuel)%nat ->
  merging pl (seen_in (d ++ [(id, pre)])) (total_bytes d + blen (enc pre)) m sh w outs oc t ->
  Forall (full pl) outs -> output m <> None -> readers_good sh w (cur t) ->
  leads (AtRecord start m id fuel rr todo) sh w base t.
Proof.
  intros -> -> Hsp Hrd -> Hfu Hm Hfull Ho Hgood. pose proof (rd_plan _ _ _ _ _ _ _ _ Hrd) as Hpl.
  pose proof (done_bytes _ _ _ Hsp) as Hd.
  assert (total_bytes d + blen (enc (pre ++ c :: post)) <= total_bytes (srcs pl)) as Hn.
  { rewrite Hsp, total_bytes_app, total_bytes_cons. pose proof (total_bytes_nonneg rest). lia. }
  rewrite enc_app, enc_cons, !blen_app in Hn. pose proof (blen_nonneg (enc post)).
  pose proof (blen_nonneg (Command.serialize c)).
  pose proof (output_room pl Hpl _ _ _ _ _ _ _ _ Hm Hfull ltac:(lia)) as Hroom.
  destruct (source_record pl Hpl d rest id _ Hsp _ _ _ _ _ _ _ pre c post b eq_refl Hm Ho Hroom ltac:(lia))
    as (Hnext & m1 & w1 & oc1 & Hrun & Hm1 & Ho1 & Hr1 & Hst1).
  destruct fuel as [|fuel]; [lia|]. cbn [length] in Hfu.
  eexists (AtRecord start m1 id fuel _ todo), sh, w1, (mlog pl outs), t, (up_to_date (mlog pl outs) t).
  split; [cbn [step record_step]; rewrite Hnext; unfold run_local; by rewrite Hrun|]. split.
  - split; [done|]. exists pl, d, rest, outs, oc1, (pre ++ [c]), post, (Command.serialize c).
    rewrite <- app_assoc. split_and!; try done; [by eapply reading_steady|lia|].
    rewrite enc_app, enc_one, blen_app, Z.add_assoc. done.
  - eapply unnoticed_steady; try done; [apply engine_lagging, Hm|]. intros i h Hget. by left.
Qed.

(** The end of the source. *)
Lemma record_end_step start m id fuel rr todo sh w base t mi pl d rest outs oc pre b :
  mi = up_to_date base t -> base = mlog pl outs -> srcs pl = d ++ (id, pre) :: rest ->
  reading pl start m sh w d rest todo -> rr = at_pos (enc pre) (blen (enc pre)) b -> (0 < fuel)%nat ->
  merging pl (seen_in (d ++ [(id, pre)])) (total_bytes d + blen (enc pre)) m sh w outs oc t ->
  Forall (full pl) outs -> output m <> None -> readers_good sh w (cur t) ->
  leads (AtRecord start m id fuel rr todo) sh w base t.
Proof.
  intros -> -> Hsp Hrd -> Hfu Hm Hfull Ho Hgood.
  rewrite <- (total_bytes_one id pre), <- total_bytes_app in Hm.
  set (m0 := set_to_remove m (ids_to_remove m ++ [id])).
  assert (merging pl (seen_in (d ++ [(id, pre)])) (total_bytes (d ++ [(id, pre)])) m0 sh w outs oc t) as Hm0
    by by destruct Hm.
  destruct (output m) as [out|] eqn:Eo; [|done].
  destruct (end_source_run pl _ _ _ _ _ _ _ _ out Hm0 Eo) as [Hend Hm1].
  set (m1 := add_new_file m0 (MergeOutput.id out)) in *. destruct fuel as [|fuel]; [lia|].
  assert (reading pl start m1 sh w (d ++ [(id, pre)]) rest todo) as Hrd1.
  { destruct Hrd as [R1 R2 R3 R4 R5]. split; try done. cbn. by rewrite R4, fmap_app. }
  assert (srcs pl = (d ++ [(id, pre)]) ++ rest) as Hsp1 by by rewrite <- app_assoc.
  assert (step (AtRecord start m id (S fuel) (at_pos (enc pre) (blen (enc pre)) b) todo) (sh, w) =
    (if threshold pl <=? blen (enc oc) then AtPublish start m1 todo else AtFile start m1 todo, (sh, w))) as Hstep.
  { cbn [step record_step]. rewrite next_record_clean. unfold run_local, upd, bind, on_fst, modify.
    cbn [fst snd]. fold m0. rewrite Hend. done. }
  destruct (Z.leb_spec (threshold pl) (blen (enc oc))).
  - eexists _, sh, w, (mlog pl outs), t, (up_to_date (mlog pl outs) t). split; [exact Hstep|].
    split; [|by apply unnoticed_same]. split; [done|]. exists pl, (d ++ [(id, pre)]), rest, outs, oc.
    split_and!; try done; [|by left]. cbn. by rewrite Eo.
  - eexists _, sh, w, (mlog pl outs), t, (up_to_date (mlog pl outs) t). split; [exact Hstep|].
    split; [|by apply unnoticed_same]. split; [done|]. exists pl, (d ++ [(id, pre)]), rest, outs, oc.
    split_and!; try done. by left.
Qed.

(** Publishing an output does not change the map. *)
Lemma published_values pl seen n m sh w outs oc t out :
  merging pl seen n m sh w outs oc t -> output m = Some out ->
  values (state_of (log_of (mlog pl (outs ++ [(MergeOutput.id out, oc)])) t)) =
  values (state_of (log_of (mlog pl outs) t)).
Proof.
  intros Hm Eo. apply map_eq. intros k. rewrite !values_lookup. unfold log_of.
  destruct (decide (k ∈ tail_keys t)) as [Hk|Hk].
  - by rewrite !state_of_app_new by done.
  - rewrite !state_of_app_old by done. rewrite <- !values_lookup. f_equal. exact (finished_values pl Hm Eo).
Qed.

(** The output is published. *)
Lemma publish_step start m todo sh w base t mi :
  phase (AtPublish start m todo) sh w base t mi -> readers_good sh w (cur t) ->
  leads (AtPublish start m todo) sh w base t.
Proof.
  intros Hph Hgood.
  destruct Hph as (-> & pl & d & rest & outs & oc & -> & Hsp & Hrd & Hm & Hfull & Ho & Hoc).
  pose proof (rd_plan _ _ _ _ _ _ _ _ Hrd) as Hpl. pose proof (done_bytes _ _ _ Hsp) as Hd.
  pose proof (output_room pl Hpl _ _ _ _ _ _ _ _ Hm Hfull Hd) as Hroom.
  destruct (output m) as [out|] eqn:Eo; [|done].
  destruct (publish_run pl Hpl Hm Eo Hroom Hd)
    as (m1 & sh1 & w1 & Hrun & Hap & Hr1 & Hst1 & Hw1 & Hcf1 & hd & Hrds).
  set (outs1 := outs ++ [(MergeOutput.id out, oc)]) in *.
  exists (AtUpdate start m1 (pending_records m) todo), sh1, w1, (mlog pl outs1), t,
    (lag (pending_records m) (tail_keys t) (up_to_date (mlog pl outs1) t)).
  split; [cbn [step]; unfold run_local; by rewrite Hrun|]. split.
  - exists pl, d, rest, outs1. split_and!; try done; [by eapply reading_steady|].
    destruct Hoc as [Hoc|Hoc]; [left|by right]. apply Forall_app. by split; [|constructor].
  - eapply unnoticed_steady; try done; [apply engine_lagging, Hm| |by rewrite Hw1|].
    + exact (published_values pl _ _ _ _ _ _ _ _ _ Hm Eo).
    + intros i h. rewrite Hrds, btree_get_insert. case_decide as E; [|by left]. intros [= <-]. right.
      destruct (ap_merging _ _ _ _ _ _ _ _ _ Hap) as [iv Hm1]. pose proof (mg_engine Hm1) as He1.
      assert ((MergeOutput.id out, oc) ∈ mlog pl outs1 ++ later t) as Hin.
      { unfold outs1. rewrite mlog_snoc, !elem_of_app. left. right. left. }
      destruct (d_sealed _ _ _ _ _ (e_disk _ _ _ _ _ He1) _ _ Hin) as [_ Hgc _ (h' & Hh' & Hb & _) _].
      rewrite <- (e_covered _ _ _ _ _ He1 _ oc) in Hh' by (apply elem_of_app; by left).
      cbn [set_index readers] in Hh'. rewrite Hrds, btree_get_insert, decide_True in Hh' by done.
      injection Hh' as <-. by exists oc.
Qed.

(** One index update. *)
Lemma update_step start m ps todo sh w base t mi :
  phase (AtUpdate start m ps todo) sh w base t mi -> readers_good sh w (cur t) ->
  leads (AtUpdate start m ps todo) sh w base t.
Proof.
  intros Hph Hgood. pose proof (phase_lagging _ _ _ _ _ _ Hph) as Hl.
  destruct Hph as (pl & d & rest & outs & -> & -> & Hsp & Hrd & Hap & Hfull).
  pose proof (rd_plan _ _ _ _ _ _ _ _ Hrd) as Hpl. destruct ps as [|p ps].
  - exists (AtFile start m todo), sh, w, (mlog pl outs), t, (up_to_date (mlog pl outs) t).
    split; [done|]. split; [|by apply unnoticed_same]. split; [done|].
    exists pl, d, rest, outs, []. split_and!; try done; [by apply applying_done|].
    destruct Hfull as [?| ->]; [by left|right]. split; [done|]. by eapply ap_output.
  - destruct (apply_pending_run pl Hpl _ _ _ _ _ _ _ _ _ Hap) as (i & Hrun & Hap1).
    exists (AtUpdate start m ps todo), (set_index sh i), w, (mlog pl outs), t,
      (lag ps (tail_keys t) (up_to_date (mlog pl outs) t)).
    split; [cbn [step]; unfold run_local, on_shared, on_snd; cbn [fst snd]; by rewrite Hrun|]. split.
    + exists pl, d, rest, outs. split_and!; try done. by destruct Hrd.
    + eapply unnoticed_steady; try done. intros j h Hget. by left.
Qed.

(** The first file to delete is the first file of the log, or is not there. *)
Lemma removing_head sh w base t id ids fr rest old :
  removing sh w base t (id :: ids) fr rest old ->
  (exists cs fr', fr = (id, cs) :: fr' /\ forall i, i ∈ fr'.*1 -> i ∈ ids) \/
  ((forall i, i ∈ fr.*1 -> i ∈ ids) /\ dir w !! data_file_name id = None).
Proof.
  intros [R1 R2 R3 (s & Hs & Es) R5 R6 R7]. destruct s as [|[i0 c0] s]; [done|].
  cbn [fmap list_fmap fst] in Es. injection Es as <- ->.
  pose proof (e_disk _ _ _ _ _ R1) as Hd. pose proof (d_ascending _ _ _ _ _ Hd) as Hasc.
  destruct (R5 id ltac:(left)) as [Hid Hold].
  assert (forall i, i ∈ s.*1 -> id < i) as Hlt.
  { intros i ([j c] & -> & Hin)%list_elem_of_fmap. by apply (sorted_from_elem id s j c). }
  destruct (decide (id ∈ fr.*1)) as [Hin|Hout]; [left|right].
  - destruct fr as [|[j cs] fr]; [by apply not_elem_of_nil in Hin|].
    rewrite R2 in Hasc. cbn [app] in Hasc.
    assert (forall i, i ∈ fr.*1 -> j < i) as Hj.
    { intros i ([i' c] & -> & Hx)%list_elem_of_fmap.
      eapply (sorted_from_elem j); [exact Hasc|]. rewrite !elem_of_app. left. left. left. exact Hx. }
    assert (j = id) as ->.
    { apply elem_of_cons in Hin as [E|Hin]; [done|]. apply Hj in Hin.
      assert (j ∈ id :: s.*1) as Hx by (apply R3; left).
      apply elem_of_cons in Hx as [E|Hx]; [done|]. apply Hlt in Hx. lia. }
    exists cs, fr. split; [done|]. intros i Hi.
    assert (i ∈ id :: s.*1) as Hx by (apply R3; by right).
    apply elem_of_cons in Hx as [->|Hx]; [|done]. apply Hj in Hi. lia.
  - split.
    + intros i Hi. assert (i ∈ id :: s.*1) as Hx by by apply R3.
      by apply elem_of_cons in Hx as [->|Hx].
    + destruct (dir w !! data_file_name id) as [h|] eqn:E; [|done]. exfalso.
      assert (forall cs, (id, cs) ∈ rest ++ tail_files t -> False) as Hno
        by (intros cs Hx; apply R6 in Hx; lia).
      destruct (d_only _ _ _ _ _ Hd _ _ id E (get_file_id_data _ Hid)) as [_ [->|[cs Hin]]].
      * apply (Hno (cmds t)), elem_of_app. right. apply elem_of_app. right. left.
      * rewrite R2, !elem_of_app in Hin. destruct Hin as [[Hin|Hin]|Hin].
        -- apply Hout. by apply (list_elem_of_fmap_2 fst fr (id, cs)).
        -- apply (Hno cs), elem_of_app. by left.
        -- apply (Hno cs), elem_of_app. right. apply elem_of_app. by left.
Qed.

(** Deleting the first file of the log. *)
Lemma removing_delete sh w base t id ids cs fr rest old :
  removing sh w base t (id :: ids) ((id, cs) :: fr) rest old -> (forall i, i ∈ fr.*1 -> i ∈ ids) ->
  exists w', remove_source id w = (Ok tt, w') /\ removing sh w' (fr ++ rest) t ids fr rest old /\
    deleted id w w' /\ state_of (log_of base t) = state_of (log_of (fr ++ rest) t).
Proof.
  intros [He -> R3 (s & Hs & Es) R5 R6 R7] Hfr. cbn [app] in He.
  destruct (remove_source_run _ _ _ _ _ _ _ He) as (w1 & Hrun & Hdel & _).
  assert (state_of (log_of (((id, cs) :: fr) ++ rest) t) = state_of (log_of (fr ++ rest) t)) as Est.
  { apply (state_of_drop [(id, cs)]). intros k e Hk Hin. apply (R7 k e Hk). cbn [fmap list_fmap].
    apply list_elem_of_singleton in Hin as ->. left. }
  exists w1. split_and!; try done. split; try done.
  - eapply engine_delete; [exact He|exact Hdel|]. rewrite !log_of_eq in Est. exact Est.
  - destruct s as [|x s]; [done|]. injection Es as _ ->. exists s. split; [|done].
    destruct x. by apply (sorted_from_ok z).
  - intros i Hi. apply R5. by right.
  - intros k e Hk Hin. rewrite <- Est in Hk. apply (R7 k e Hk). by right.
Qed.

(** One source is deleted; a source that was deleted by an earlier merge ends the
    merge with an error. *)
Lemma remove_step start m ids sh w base t mi :
  phase (AtRemove start m ids) sh w base t mi -> readers_good sh w (cur t) ->
  leads (AtRemove start m ids) sh w base t.
Proof.
  intros (-> & Ho & Hst & fr & rest & old & Hr) Hgood. pose proof (rm_engine _ _ _ _ _ _ _ _ Hr) as He.
  destruct ids as [|id ids].
  { exists (AtStale start m), sh, w, base, t, (up_to_date base t). split; [done|].
    split; [by split_and!|by apply unnoticed_same]. }
  destruct (removing_head _ _ _ _ _ _ _ _ _ Hr) as [(cs & fr' & -> & Hfr)|[Hfr Hno]].
  - destruct (removing_delete _ _ _ _ _ _ _ _ _ _ Hr Hfr) as (w1 & Hrun & Hr1 & Hdel & Est).
    exists (AtRemove start m ids), sh, w1, (fr' ++ rest), t, (up_to_date (fr' ++ rest) t).
    split; [cbn [step]; unfold run_local, on_world, on_snd; cbn [fst snd]; by rewrite Hrun|]. split.
    + split_and!; try done. by exists fr', rest, old.
    + eapply unnoticed_steady; try done; [by apply engine_lagging| | |intros j h Hget; by left].
      * split; [done|]. intros i h _. by rewrite (del_rest _ _ _ Hdel).
      * by rewrite Est.
  - exists (Finished (Err (Io NotFound)) m), sh, w, base, t, (up_to_date base t). split.
    + cbn [step]. unfold run_local, on_world, on_snd, remove_source, bind at 1. cbn [fst snd].
      by rewrite remove_file_missing by (done || apply He).
    + split; [by split_and!|by apply unnoticed_same].
Qed.

(** The stale count, and the end. *)
Lemma stale_step start m sh w base t mi :
  phase (AtStale start m) sh w base t mi -> readers_good sh w (cur t) ->
  leads (AtStale start m) sh w base t.
Proof.
  intros (-> & Ho & Hst & He) Hgood.
  pose proof (finish_stale_run sh w _ (e_lock _ _ _ _ _ He) Hst) as Hrun.
  eexists (Finished (Ok tt) m), _, w, base, t, (up_to_date base t).
  split; [cbn [step]; unfold run_local, on_shared, on_snd; cbn [fst snd]; rewrite Hrun; done|]. split.
  - split_and!; try done. apply engine_with_stale; [done|lia].
  - eapply unnoticed_steady; try done; [by apply engine_lagging|]. intros j h Hget. by left.
Qed.

Lemma finished_step o m sh w base t mi :
  phase (Finished o m) sh w base t mi -> readers_good sh w (cur t) ->
  leads (Finished o m) sh w base t.
Proof.
  intros (-> & Ho & Hp & He) Hgood. exists Waiting, sh, w, base, t, (up_to_date base t).
  split; [|split; [done|by apply unnoticed_same]].
  destruct o; [..|done]; cbn [step fst snd]; unfold drop_output; by rewrite Ho.
Qed.

(** Every step of the merge thread; only the first one needs room. *)
Lemma merge_steps pc sh w base t mi :
  phase pc sh w base t mi -> readers_good sh w (cur t) -> (pc = Starting -> roomy sh w) ->
  leads pc sh w base t.
Proof.
  intros Hph Hgood Hroom. destruct pc.
  - exists Waiting, sh, w, base, t, mi. split; [done|]. split; [done|by apply unnoticed_same].
  - destruct Hph as [_ He].
    destruct (start_step _ _ _ _ He Hgood (Hroom eq_refl)) as (pc' & sh' & w' & b' & t' & H).
    by exists pc', sh', w', b', t', (up_to_date b' t').
  - destruct todo; [by eapply file_last_step|by eapply file_open_step].
  - destruct Hph as (E & pl & d & rest & outs & oc & pre & post & b & Eb & Hsp & Hrd & Hrr & Hfu & Hm & Hf & Ho).
    destruct post as [|c post]; [|by eapply record_next_step].
    rewrite app_nil_r in *. by eapply record_end_step.
  - by eapply publish_step.
  - by eapply update_step.
  - by eapply remove_step.
  - by eapply stale_step.
  - by eapply finished_step.
  - done.
Qed.

End steps.
