(* ===== verification/StaleReaders.v ===== *)
(** * Merges after the first one

    [run_compaction] deletes the files it has merged but leaves their read handles
    in the readers map. A later merge takes them into its snapshot again, merges
    all it should, and ends with an error when it comes to delete the file that is
    gone: the map is kept, but the sources stay and so does the stale count. *)

From Stdlib Require Import ZArith Lia Strings.Byte.
From stdpp Require Import base numbers list strings gmap.
From S2P Require Import Prelude Bytes Crc CommandFormat HintFormat Streams Reader KeyDir Text Names Config FileSystem Lock BTree Engine Load Merge Log Inv EngineProofs Replay MergeFiles MergeState MergeCopy MergePublish MergeProofs Interference Phases PhaseSteps.
Import Command(Command, Set_, Rm).
Import Shared Compaction.

Local Open Scope Z_scope.

Section stale.
Context `{Crc : Crc32}.

(** A read handle of a file that is not a file of the log. *)
Definition stale_reader (sh : Shared) (fs : list (Z * list Command)) (id : Z) : Prop :=
  id ∈ (readers sh).*1 /\ id ∉ fs.*1.

(** Deleting the sources stops at the first one that is gone. *)
Lemma remove_sources_stale ids sh w base t fr rest old id :
  removing sh w base t ids fr rest old -> id ∈ ids -> id ∉ fr.*1 ->
  exists w' fr', remove_sources ids w = (Err (Io NotFound), w') /\
    engine sh w' ((fr' ++ rest) ++ later t) (cur t) (cmds t) /\
    values (state_of (log_of (fr' ++ rest) t)) = values (state_of (log_of base t)) /\
    (forall i, i ∈ fr'.*1 -> i ∈ fr.*1).
Proof.
  revert w base fr. induction ids as [|i ids IH]; intros w base fr Hr Hin Hout; [by apply not_elem_of_nil in Hin|].
  pose proof (rm_engine _ _ _ _ _ _ _ _ Hr) as He.
  destruct (removing_head _ _ _ _ _ _ _ _ _ Hr) as [(cs & fr' & -> & Hfr)|[Hfr Hno]].
  2:{ exists w, fr. destruct Hr as [_ -> _ _ _ _ _]. split_and!; try done.
      cbn [remove_sources]. apply bind_err. unfold remove_source. apply bind_err.
      by rewrite remove_file_missing by (done || apply He). }
  destruct (removing_delete _ _ _ _ _ _ _ _ _ _ Hr Hfr) as (w1 & Hrun & Hr1 & _ & Est).
  destruct (IH w1 (fr' ++ rest) fr' Hr1) as (w' & fr2 & Hrun' & He' & Hv & Hsub).
  { apply elem_of_cons in Hin as [->|Hin]; [|done]. destruct Hout. left. }
  { intros Hx. apply Hout. by right. }
  exists w', fr2. split_and!; [|done| |].
  - cbn [remove_sources]. by rewrite (bind_ok _ _ _ _ _ Hrun).
  - by rewrite Hv, Est.
  - intros j Hj. right. by apply Hsub.
Qed.

(** C17. After the first merge of a process no merge succeeds: when the readers map
    has a handle of a file that was merged away, a merge that is due returns
    [Io(NotFound)]. It keeps the map and copies what is live, but a source may stay
    where it is, the stale count is not reduced, and the handle is still there, so
    that the next merge fails again. *)
Theorem stale_reader_fails_merge sh w front cur cmds id :
  engine sh w front cur cmds -> readers_good sh w cur -> stale_reader sh (front ++ [(cur, cmds)]) id ->
  Config.compaction_threshold (config sh) <= stale_bytes_count (writer sh) -> roomy sh w ->
  exists sh' w' front' cur' cmds',
    run_compaction (sh, w) = (Err (Io NotFound), (sh', w')) /\
    engine sh' w' front' cur' cmds' /\
    values (state_of (front' ++ [(cur', cmds')])) = values (state_of (front ++ [(cur, cmds)])) /\
    stale_bytes_count (writer sh') = stale_bytes_count (writer sh) /\
    stale_reader sh' (front' ++ [(cur', cmds')]) id.
Proof.
  intros He Hgood [Hrd Hnot] Hst (Hr & Hthr & Hbytes & Hids).
  destruct (sources_exist _ _ _ _ _ He Hgood) as (sources & Hso & Htot).
  apply list_elem_of_fmap in Hrd as ([i h] & -> & Hrd). cbn [fst] in *.
  assert (i <> cur) as Hne. { intros ->. apply Hnot. rewrite fmap_app. apply elem_of_app. right. left. }
  assert (i ∈ sources.*1) as Hin.
  { assert ((i, h) ∈ snapshot sh) as Hsn.
    { apply list_elem_of_filter. split; [|done]. cbn [fst]. by rewrite (e_cur _ _ _ _ _ He). }
    apply list_elem_of_lookup in Hsn as [j Hj].
    destruct (Forall2_lookup_r _ _ _ _ _ (so_handles _ _ _ _ _ Hso) Hj) as ([i' cs] & Hf & (E & _)).
    cbn [fst] in E. subst i'. by apply (list_elem_of_fmap_2 fst _ (i, cs)), (list_elem_of_lookup_2 _ j). }
  destruct (merge_copied sh w front cur cmds sources He Hso) as (m & sh' & w' & outs & Hpl & Hm & Hp & Hrds & Es & Hrun);
    try done.
  { intros ->. by apply not_elem_of_nil in Hin. }
  { by rewrite Htot. }
  { unfold next_active. rewrite Htot. by rewrite <- (e_cur _ _ _ _ _ He). }
  set (pl := plan_of sh sources front cur cmds) in *. set (t := no_tail (new_active pl)) in *.
  pose proof (merged_removing pl Hpl _ _ _ _ _ _ _ Hm Hp) as Hrm.
  assert (i ∉ front.*1) as Hfr. { intros Hx. apply Hnot. rewrite fmap_app. apply elem_of_app. by left. }
  destruct (remove_sources_stale sources.*1 _ _ _ _ _ _ _ i Hrm Hin Hfr) as (w2 & fr' & Hrem & He2 & Hv & Hsub).
  exists sh', w2, ((fr' ++ (cur, cmds) :: outs) ++ later t), (MergeState.cur t), (MergeState.cmds t).
  split_and!; try done.
  - rewrite Hrun. unfold bind at 1, on_snd. cbn [fst snd]. by rewrite Hrem.
  - rewrite <- log_of_eq. etrans; [exact Hv|]. unfold log_of, tail_files, t, no_tail.
    cbn [later MergeState.cur MergeState.cmds app]. rewrite state_of_new_file. apply (mg_values Hm).
  - split.
    + apply btree_get_elem, Hrds, btree_get_elem in Hrd; [|apply (mg_engine Hm)|apply He].
      by apply (list_elem_of_fmap_2 fst _ (i, h)).
    + rewrite <- log_of_eq. intros ([j cs] & Ej & Hj)%list_elem_of_fmap. cbn [fst] in Ej. subst j.
      unfold log_of in Hj. rewrite <- app_assoc in Hj. apply elem_of_app in Hj as [Hj|Hj].
      * by apply Hfr, Hsub, (list_elem_of_fmap_2 fst _ (i, cs)).
      * pose proof (rm_rest _ _ _ _ _ _ _ _ Hrm i cs Hj). destruct (rm_old _ _ _ _ _ _ _ _ Hrm i Hin). lia.
Qed.

End stale.

(** ** A concrete store with a stale reader *)

(** A file that was created and deleted again, still open. *)
Definition deleted_file (w : World) : World :=
  {| dir := dir w; others := others w; inodes := inodes w; next_inode := S (next_inode w);
     flock := flock w; clock := clock w; ticks := ticks w; faults := faults w |}.

Lemma engine_deleted_file `{Crc : Crc32} sh w front cur cmds id :
  engine sh w front cur cmds -> is_u64 id -> id < cur -> id ∉ front.*1 ->
  engine (set_readers sh (BTreeMap.insert id (next_inode w) (readers sh))) (deleted_file w) front cur cmds.
Proof.
  intros He Hid Hlt Hn. pose proof (e_disk _ _ _ _ _ He) as Hd.
  assert (disk_step w (deleted_file w)) as Hst.
  { split; try done; [by left|]. destruct (d_dir _ _ _ _ _ Hd) as [Hl Hf].
    split; [done|]. intros n h Hh. cbn. apply Hf in Hh. lia. }
  pose proof (disk_step_disk _ _ _ _ _ _ Hst Hd) as Hd'. destruct He. split; try done.
  - apply btree_insert_ok, e_readers_ok.
  - intros i h [[-> ->]|[_ Hin]]%btree_elem_insert; [| |done].
    + split_and!; [done|lia|cbn; lia|]. intros n Hx. apply (d_fresh _ (d_dir _ _ _ _ _ Hd)) in Hx. lia.
    + destruct (e_readers _ _ Hin) as (? & ? & ? & ?). split_and!; try done. cbn. lia.
  - intros i cs Hin. cbn [set_readers readers]. rewrite btree_get_insert, decide_False.
    + by apply (e_covered i cs).
    + intros <-. apply elem_of_app in Hin as [Hin|[= -> ->]%list_elem_of_singleton]; [|lia].
      apply Hn. by apply (list_elem_of_fmap_2 fst _ (id, cs)).
Qed.

(** A merge is due at once. *)
Definition eager_config : Config.Config :=
  {| Config.durability_policy := SyncOnEveryPut; Config.file_size_threshold := 20;
     Config.compaction_threshold := 0; Config.flush_threshold_millis := 1000;
     Config.store_type := StoreType.Bitcask |}.

Definition stale_shared : Shared :=
  let sh := Bitcask.shared (fresh_handle eager_config) in
  set_readers sh (BTreeMap.insert 0 (next_inode fresh_world) (readers sh)).

Lemma stale_reader_fails_merge_witness :
  exists sh' w', run_compaction (Crc := crc32_ieee) (stale_shared, deleted_file fresh_world) =
    (Err (Io NotFound), (sh', w')) /\ 0 ∈ (readers sh').*1.
Proof.
  destruct (stale_reader_fails_merge (Crc := crc32_ieee) stale_shared (deleted_file fresh_world) [] 1 [] 0)
    as (sh' & w' & fr & cu & cm & Hrun & _ & _ & _ & [Hin _]).
  - apply engine_deleted_file; [apply fresh_engine|vm_compute; intuition discriminate|reflexivity|].
    apply not_elem_of_nil.
  - intros id h Hget Hne. exists []. split; [|constructor].
    apply (btree_get_elem stale_shared.(readers) id h ltac:(vm_compute; intuition discriminate)) in Hget.
    vm_compute in Hget. apply elem_of_cons in Hget as [[= -> ->]|Hget]; [vm_compute; reflexivity|].
    apply list_elem_of_singleton in Hget as [= -> ->]. destruct Hne. reflexivity.
  - split; [left|]. intros Hx. apply list_elem_of_singleton in Hx. discriminate.
  - vm_compute. discriminate.
  - vm_compute. intuition discriminate.
  - exists sh', w'. split; [exact Hrun|exact Hin].
Defined.
