(* ===== verification/SystemProofs.v ===== *)
(** * The store with its threads implements the map

    Any number of threads set, get and remove while the merge thread runs: every
    run of System.v is a run of the specification. The simulation relation says
    where the merge thread is ([phase]), which map the log stores, and for every
    call that is under way what the specification has done of it. *)

From Stdlib Require Import ZArith Lia Strings.Byte.
From stdpp Require Import base numbers list strings gmap.
From S2P Require Import Prelude Bytes Crc CommandFormat HintFormat Streams Reader KeyDir Text Names Config FileSystem Lock BTree Engine Load Merge MergeSteps System Log Inv EngineProofs Replay Recovery Durability MergeFiles MergeState MergeCopy MergePublish MergeProofs Interference Phases PhaseSteps.
Import Command(Command, Set_, Rm).
Import Shared Bitcask.

Local Open Scope Z_scope.

Section system.
Context `{Crc : Crc32}.

(** ** The steps of a writer, whatever the merge does *)

(** What a step of a writer keeps. *)
Record writes (pc : Merger.PC) (h : Handle) (w : World) (base : list (Z * list Command)) (t : Tail)
  (h' : Handle) (w' : World) (t' : Tail) (mi' : gmap (list byte) IndexValue) : Prop := {
  ws_phase : phase pc (shared h') w' base t' mi';
  ws_good : readers_good (shared h') w' (cur t');
  ws_extends : extends (shared h) w (shared h') w';
  ws_config : config (shared h') = config (shared h);
  ws_room : forall n, room n (shared h) -> room (n - 1) (shared h')
}.

Lemma lagging_extends sh w base t mi sh' w' :
  lagging sh w base t mi -> grown sh w sh' w' -> extends sh w sh' w'.
Proof.
  intros [[iv He] _ _] Hg. apply (extends_index _ _ _ _ iv iv).
  eapply grown_extends; [exact He|]. by apply grown_index.
Qed.

Lemma readers_good_step n sh w base t mi sh' w' t' mi' :
  lagging sh w base t mi -> lagging sh' w' base t' mi' -> tail_step t mi t' mi' ->
  advances n sh w sh' w' -> readers_good sh w (cur t) -> readers_good sh' w' (cur t').
Proof.
  intros [[iv He] _ _] [[iv' He'] _ _] Hstep Hadv Hgood.
  apply (readers_good_grown (set_index sh iv) w (set_index sh' iv') w' _ _ _ _ _ _ He He'); [|..|done].
  { apply (grown_index sh w sh' w' iv iv'), Hadv. }
  inversion Hstep; subst; [by left|by left|right]. split; [eexists; cbn; by rewrite app_assoc|].
  intros id h Hget Hlt. apply btree_get_elem in Hget; [|apply He'].
  apply (e_readers _ _ _ _ _ He') in Hget as (_ & Hle & _).
  pose proof (a_cur _ _ _ _ _ Hadv) as Hcur. pose proof (e_cur _ _ _ _ _ He) as E1.
  pose proof (e_cur _ _ _ _ _ He') as E2. cbn [tail_rotate cur set_index writer] in *. lia.
Qed.

Lemma writes_step n pc h w base t mi h' w' t' mi' :
  phase pc (shared h) w base t mi -> readers_good (shared h) w (cur t) ->
  lagging (shared h') w' base t' mi' -> tail_step t mi t' mi' ->
  advances n (shared h) w (shared h') w' -> n <= record_max -> writes pc h w base t h' w' t' mi'.
Proof.
  intros Hph Hgood Hl Hstep Hadv Hn. pose proof (phase_lagging _ _ _ _ _ _ Hph) as Hl0. split.
  - by eapply phase_write.
  - by eapply readers_good_step.
  - eapply lagging_extends; [done|apply Hadv].
  - apply Hadv.
  - intros k. by eapply room_advances.
Qed.

(** Reading the clock. *)
Lemma clock_step pc h w base t mi :
  phase pc (shared h) w base t mi -> readers_good (shared h) w (cur t) ->
  exists ts tks, unix_now w = (Ok ts, set_clock w ts tks) /\ is_u64 (as_secs ts) /\
    writes pc h w base t h (set_clock w ts tks) t mi.
Proof.
  intros Hph Hgood. pose proof (phase_lagging _ _ _ _ _ _ Hph) as [[iv He] Hi Hlen].
  destruct (engine_clock _ _ _ _ _ He) as (ts & tks & Hnow & Hts & He1).
  exists ts, tks. split_and!; try done. apply (writes_step 0 pc h w base t mi); try done.
  - split; [by exists iv|done|done].
  - constructor.
  - apply advances_quiet; [|apply quiet_clock, He|apply keeps_refl].
    exact (engine_file_lt _ _ _ _ _ He).
Qed.

(** The first half of a write. *)
Lemma write_record_step pc h w base t mi (mk : Z -> Command) :
  phase pc (shared h) w base t mi -> readers_good (shared h) w (cur t) -> room 1 (shared h) ->
  (forall ts, is_u64 ts -> good_cmd (mk ts)) ->
  exists ts h' w' mi', write_record mk (h, w) = (Ok tt, (h', w')) /\
    writes pc h w base t h' w' (tail_write t (mk ts)) mi' /\
    (synced_but 0 (shared h) w t -> synced_but 1 (shared h') w' (tail_write t (mk ts))).
Proof.
  intros Hph Hgood Hroom Hmk.
  destruct (clock_step pc h w base t mi Hph Hgood) as (tm & tks & Hnow & Hts & [Hph1 Hgood1 Hx1 _ _]).
  set (w1 := set_clock w tm tks) in *. pose proof (phase_lagging _ _ _ _ _ _ Hph1) as Hl1.
  destruct (append_record_lagging h w1 base t mi (mk (as_secs tm)) Hl1 Hroom (Hmk _ Hts))
    as (h' & w' & Hrun & Hl' & Hadv & Hfile & Hdur).
  destruct (writes_step record_max pc h w1 base t mi h' w' _ _ Hph1 Hgood1 Hl'
    (tail_record _ _ _) Hadv ltac:(lia)) as [Hph' Hgood' Hx' Hc' Hr'].
  exists (as_secs tm), h', w', (index_after (mk (as_secs tm))
    (place (cur t) (blen (enc (cmds t))) (mk (as_secs tm))) mi). split_and!.
  - unfold write_record, bind at 1, on_snd at 1. cbn [fst snd]. rewrite Hnow. fold w1.
    destruct Hl1 as [[iv He] _ _]. apply with_writer_lock_b_ok; [apply (e_lock _ _ _ _ _ He)|done].
  - split; try done. destruct Hx1 as [X1 X2], Hx' as [Y1 Y2]. by split.
  - intros (pre & post & Hc & Hn & Hd). exists pre, (post ++ [mk (as_secs tm)]).
    assert (post = []) as -> by (destruct post; [done|cbn in Hn; lia]). rewrite app_nil_r in Hc. subst pre.
    split_and!; [done|done|]. rewrite Hfile, Hdur. exact Hd.
Qed.

(** The second half of a write. *)
Lemma post_write_step pc h w base t mi :
  phase pc (shared h) w base t mi -> readers_good (shared h) w (cur t) -> room 1 (shared h) ->
  exists h' w' t', with_writer_lock_b post_write_ops (h, w) = (Ok tt, (h', w')) /\
    writes pc h w base t h' w' t' mi /\ state_of (log_of base t') = state_of (log_of base t) /\
    (Config.durability_policy (config (shared h)) = SyncOnEveryPut ->
     synced_but 0 (shared h') w' t').
Proof.
  intros Hph Hgood Hroom. pose proof (phase_lagging _ _ _ _ _ _ Hph) as Hl.
  destruct (post_write_ops_lagging h w base t mi Hl Hroom) as (h' & w' & t' & Hrun & Hl' & Ht & Hadv & Hdur).
  pose proof Hl as [[iv He] _ _]. pose proof Hl' as [[iv' He'] _ _].
  assert (tail_step t mi t' mi) as Hstep.
  { destruct Ht as [->|[next ->]]; [constructor|]. apply tail_file.
    apply (ascending_lt _ _ _ _ (cmds t) (d_ascending _ _ _ _ _ (e_disk _ _ _ _ _ He'))).
    cbn. rewrite !elem_of_app. right. right. left. }
  exists h', w', t'. split_and!.
  - apply with_writer_lock_b_ok; [apply (e_lock _ _ _ _ _ He)|done].
  - apply (writes_step 0 pc h w base t mi); try done.
  - destruct Ht as [->|[next ->]]; [done|]. apply state_tail_rotate.
  - intros Hpol. exists (cmds t'), []. rewrite app_nil_r. split_and!; [done|cbn; lia|].
    specialize (Hdur Hpol). unfold all_durable in Hdur.
    destruct (engine_active He') as (f & _ & Hf & Hb). cbn [set_index writer] in Hf. by rewrite Hf, Hb in *.
Qed.
(** ** The simulation relation *)

Definition op_fits (op : Op) : Prop :=
  match op with OSet k v => fits k v | OGet _ | ORemove _ => True end.

(** What the specification has done of a call that is at [th]. *)
Definition matches (sh : Shared) (w : World) (th : Thread) (sp : Spec.Thread) : Prop :=
  match th with
  | Called op => sp = Spec.Pending op /\ op_fits op
  | Reading k e => exists v, sp = Spec.Done (RGet (Ok (Some v))) /\ held sh w k e v
  | Removing k => sp = Spec.Removing k /\ blen k + 28 <= u32_max
  | Posting => sp = Spec.Done (RUnit (Ok tt))
  | Returning r => sp = Spec.Done r
  end.

Definition threads_match (sh : Shared) (w : World) (ts : gmap nat Thread) (sps : gmap nat Spec.Thread)
  : Prop :=
  forall tid, option_Forall2 (matches sh w) (ts !! tid) (sps !! tid).

(** How many records may wait for their sync, with [SyncOnEveryPut]. *)
Definition unsynced (holder : option nat) : nat := match holder with Some _ => 1 | None => 0 end.

Record simulates (s : Sys) (sp : Spec.State) (base : list (Z * list Command)) (t : Tail)
  (mi : gmap (list byte) IndexValue) : Prop := {
  sm_phase : phase (merger s) (shared (handle s)) (world s) base t mi;
  sm_good : readers_good (shared (handle s)) (world s) (cur t);
  sm_values : values (state_of (log_of base t)) = Spec.map sp;
  sm_threads : threads_match (shared (handle s)) (world s) (threads s) (Spec.threads sp);
  sm_holder : forall tid, holder s = Some tid <-> threads s !! tid = Some Posting;
  sm_synced : Config.durability_policy (config (shared (handle s))) = SyncOnEveryPut ->
    synced_but (unsynced (holder s)) (shared (handle s)) (world s) t
}.

Definition sim (s : Sys) (sp : Spec.State) : Prop := exists base t mi, simulates s sp base t mi.

Lemma matches_extends sh w sh' w' th sp :
  extends sh w sh' w' -> matches sh w th sp -> matches sh' w' th sp.
Proof.
  intros Hx. destruct th; cbn [matches]; try done. intros (v & -> & Hh). exists v.
  split; [done|]. by eapply held_extends.
Qed.

Lemma threads_extends sh w sh' w' ts sps :
  extends sh w sh' w' -> threads_match sh w ts sps -> threads_match sh' w' ts sps.
Proof.
  intros Hx Ht tid. specialize (Ht tid). destruct Ht; constructor. by eapply matches_extends.
Qed.

Lemma threads_set sh w ts sps tid th sp :
  threads_match sh w ts sps -> matches sh w th sp -> threads_match sh w (<[tid := th]> ts) (<[tid := sp]> sps).
Proof. intros Ht Hm tid'. rewrite !lookup_insert. case_decide; [by constructor|apply Ht]. Qed.

(** A thread that advances while the specification does not. *)
Lemma threads_set_l sh w ts sps tid th sp :
  threads_match sh w ts sps -> sps !! tid = Some sp -> matches sh w th sp ->
  threads_match sh w (<[tid := th]> ts) sps.
Proof.
  intros Ht Hs Hm tid'. rewrite lookup_insert. case_decide; [|apply Ht]. subst. rewrite Hs. by constructor.
Qed.

Lemma threads_delete sh w ts sps tid :
  threads_match sh w ts sps -> threads_match sh w (delete tid ts) (delete tid sps).
Proof. intros Ht tid'. rewrite !lookup_delete. case_decide; [constructor|apply Ht]. Qed.

Lemma threads_lookup sh w ts sps tid th :
  threads_match sh w ts sps -> ts !! tid = Some th -> exists sp, sps !! tid = Some sp /\ matches sh w th sp.
Proof. intros Ht E. specialize (Ht tid). rewrite E in Ht. inversion Ht; subst. by eexists. Qed.

(** The mutex, when a thread that does not hold it goes on without it. *)
Lemma holder_set (ts : gmap nat Thread) tid th (o : option nat) :
  (forall tid', o = Some tid' <-> ts !! tid' = Some Posting) ->
  ts !! tid <> Some Posting -> th <> Posting ->
  forall tid', o = Some tid' <-> (<[tid := th]> ts) !! tid' = Some Posting.
Proof.
  intros Ho Hne Hth tid'. rewrite lookup_insert. case_decide; [subst|apply Ho]. rewrite Ho.
  split; [done|]. by intros [= ?].
Qed.

(** ** One step of a thread *)

(** The specification does nothing, or one internal step. *)
Definition silent (sp sp' : Spec.State) : Prop := sp' = sp \/ Spec.step sp None sp'.

Lemma simulates_thread s m sps base t mi tid th sps' :
  simulates s {| Spec.map := m; Spec.threads := sps |} base t mi ->
  threads s !! tid <> Some Posting -> th <> Posting ->
  threads_match (shared (handle s)) (world s) (<[tid := th]> (threads s)) sps' ->
  simulates (set_thread s tid th) {| Spec.map := m; Spec.threads := sps' |} base t mi.
Proof. intros [] Hne Hth Ht. split; try done. by apply holder_set. Qed.

Lemma set_store_same s : set_store s (handle s, world s) = s.
Proof. by destruct s. Qed.

Lemma advance_get s m sps base t mi tid k :
  simulates s {| Spec.map := m; Spec.threads := sps |} base t mi -> threads s !! tid = Some (Called (OGet k)) ->
  exists th sp', advance s tid (Called (OGet k)) = Some (set_thread s tid th) /\
    silent {| Spec.map := m; Spec.threads := sps |} sp' /\ sim (set_thread s tid th) sp' /\
    ((exists r, th = Returning r) \/ exists e, th = Reading k e).
Proof.
  intros Hs Hth. pose proof Hs as [Hph Hgood Hv Hts Hh Hsy]. cbn [Spec.map Spec.threads] in *.
  destruct (threads_lookup _ _ _ _ _ _ Hts Hth) as (u & Hu & -> & _).
  pose proof (phase_points _ _ _ _ _ _ Hph k) as Hp.
  pose proof (lg_index _ _ _ _ _ (phase_lagging _ _ _ _ _ _ Hph)) as Hi.
  cbn [advance]. unfold read_step. rewrite (get_index_run (handle s) (world s) mi k Hi), set_store_same.
  eexists _, {| Spec.map := m; Spec.threads := <[tid := Spec.Done (RGet (Ok (m !! k)))]> sps |}.
  split; [done|]. split; [right; by apply Spec.get|].
  split; [|destruct (mi !! k); [right|left]; by eexists]. exists base, t, mi.
  eapply simulates_thread; [exact Hs|by rewrite Hth|by destruct (mi !! k)|].
  apply threads_set; [done|]. rewrite <- Hv, values_lookup.
  destruct (state_of (log_of base t) !! k) as [[iv v]|]; [destruct Hp as (e & -> & He)|by rewrite Hp].
  cbn [matches]. by exists v.
Qed.

Lemma advance_reading s m sps base t mi tid k e :
  simulates s {| Spec.map := m; Spec.threads := sps |} base t mi -> threads s !! tid = Some (Reading k e) ->
  exists s' v, advance s tid (Reading k e) = Some s' /\
    threads s' !! tid = Some (Returning (RGet (Ok (Some v)))) /\
    sim s' {| Spec.map := m; Spec.threads := sps |}.
Proof.
  intros Hs Hth. pose proof Hs as [Hph Hgood Hv Hts Hh Hsy]. cbn [Spec.map Spec.threads] in *.
  destruct (threads_lookup _ _ _ _ _ _ Hts Hth) as (u & Hu & v & -> & He).
  pose proof (phase_lagging _ _ _ _ _ _ Hph) as [[iv Hen] _ _].
  cbn [advance]. unfold read_step.
  rewrite (get_read_held (handle s) (world s) k e v He (e_calm _ _ _ _ _ Hen)), set_store_same.
  eexists _, v. split; [done|]. split; [apply lookup_insert_eq|]. exists base, t, mi.
  eapply simulates_thread; [exact Hs|by rewrite Hth|done|]. by eapply threads_set_l.
Qed.

Lemma advance_remove s m sps base t mi tid k :
  simulates s {| Spec.map := m; Spec.threads := sps |} base t mi ->
  threads s !! tid = Some (Called (ORemove k)) ->
  exists th sp', advance s tid (Called (ORemove k)) = Some (set_thread s tid th) /\
    silent {| Spec.map := m; Spec.threads := sps |} sp' /\ sim (set_thread s tid th) sp' /\
    ((exists r, th = Returning r) \/ th = Removing k).
Proof.
  intros Hs Hth. pose proof Hs as [Hph Hgood Hv Hts Hh Hsy]. cbn [Spec.map Spec.threads] in *.
  destruct (threads_lookup _ _ _ _ _ _ Hts Hth) as (u & Hu & -> & _).
  pose proof (phase_points _ _ _ _ _ _ Hph k) as Hp.
  pose proof (phase_lagging _ _ _ _ _ _ Hph) as [[iv He] Hi _].
  cbn [advance]. unfold read_step. rewrite (remove_check_run (handle s) (world s) mi k Hi), set_store_same.
  assert (m !! k = snd <$> state_of (log_of base t) !! k) as Hm by by rewrite <- Hv, values_lookup.
  destruct (state_of (log_of base t) !! k) as [[iv' v]|] eqn:Est.
  - destruct Hp as (e & -> & _). rewrite bool_decide_eq_true_2 by done.
    eexists _, {| Spec.map := m; Spec.threads := <[tid := Spec.Removing k]> sps |}.
    split; [done|]. split; [right; apply Spec.remove_found; [done|by rewrite Hm]|].
    split; [|by right]. exists base, t, mi.
    eapply simulates_thread; [exact Hs|by rewrite Hth|done|]. apply threads_set; [done|]. split; [done|].
    rewrite log_of_eq in Est. eapply stored_key_fits; [exact He|by rewrite Est].
  - rewrite Hp, bool_decide_eq_false_2 by by intros [? ?].
    eexists _, {| Spec.map := m; Spec.threads := <[tid := Spec.Done (RUnit (Err KeyNotFound))]> sps |}.
    split; [done|]. split; [right; by apply (Spec.remove_missing _ _ _ k)|].
    split; [|left; by eexists]. exists base, t, mi.
    eapply simulates_thread; [exact Hs|by rewrite Hth|done|]. by apply threads_set.
Qed.

(** A write takes the mutex, and effect. *)
Lemma start_write_sim (m m' : gmap (list byte) (list byte)) (mk : Z -> Command) s sps base t mi tid :
  simulates s {| Spec.map := m; Spec.threads := sps |} base t mi -> room 1 (shared (handle s)) ->
  holder s = None -> (forall ts, is_u64 ts -> good_cmd (mk ts)) ->
  (forall ts iv st, values st = m -> values (apply1 st (mk ts, iv)) = m') ->
  exists s', start_write s tid mk = Some s' /\
    sim s' {| Spec.map := m'; Spec.threads := <[tid := Spec.Done (RUnit (Ok tt))]> sps |} /\
    threads s' !! tid = Some Posting /\ forall n, room n (shared (handle s)) -> room (n - 1) (shared (handle s')).
Proof.
  intros [Hph Hgood Hv Hts Hh Hsy] Hroom Hno Hmk Hm'. cbn [Spec.map Spec.threads] in *.
  destruct (write_record_step _ _ _ _ _ _ mk Hph Hgood Hroom Hmk)
    as (ts & h' & w' & mi' & Hrun & [Hph' Hgood' Hx Hcf Hr] & Hsync).
  unfold start_write. rewrite Hno, Hrun. eexists. split; [done|].
  split; [|split; [apply lookup_insert_eq|done]].
  exists base, (tail_write t (mk ts)), mi'. split; try done.
  - rewrite state_tail_write. by apply Hm'.
  - apply threads_set; [|done]. by eapply threads_extends.
  - intros tid'. cbn. rewrite lookup_insert. case_decide; [by subst|].
    rewrite <- Hh, Hno. split; [by intros [= ?]|done].
  - cbn. rewrite Hcf. intros Hp. apply Hsync. specialize (Hsy Hp). by rewrite Hno in Hsy.
Qed.

(** A write returns. *)
Lemma finish_write_sim s m sps base t mi tid :
  simulates s {| Spec.map := m; Spec.threads := sps |} base t mi -> room 1 (shared (handle s)) ->
  threads s !! tid = Some Posting ->
  sim (finish_write s tid) {| Spec.map := m; Spec.threads := sps |} /\
  threads (finish_write s tid) !! tid = Some (Returning (RUnit (Ok tt))) /\
  holder (finish_write s tid) = None /\
  (forall tid', tid' <> tid -> threads (finish_write s tid) !! tid' = threads s !! tid') /\
  forall n, room n (shared (handle s)) -> room (n - 1) (shared (handle (finish_write s tid))).
Proof.
  intros [Hph Hgood Hv Hts Hh Hsy] Hroom Hth. cbn [Spec.map Spec.threads] in *.
  destruct (threads_lookup _ _ _ _ _ _ Hts Hth) as (u & Hu & ->).
  destruct (post_write_step _ _ _ _ _ _ Hph Hgood Hroom)
    as (h' & w' & t' & Hrun & [Hph' Hgood' Hx Hcf Hr] & Hst & Hdur).
  unfold finish_write. rewrite Hrun.
  split; [|split_and!; [apply lookup_insert_eq|done|intros tid' Hne; by apply lookup_insert_ne|done]].
  exists base, t', mi. split; try done.
  - by rewrite Hst.
  - eapply threads_set_l; [by eapply threads_extends|done|done].
  - intros tid'. cbn. split; [done|]. rewrite lookup_insert. case_decide; [by intros [= ?]|].
    intros Hp. pose proof (proj2 (Hh tid) Hth). pose proof (proj2 (Hh tid') Hp). congruence.
  - cbn. rewrite Hcf. done.
Qed.

Lemma advance_sim s sp tid th s' :
  sim s sp -> roomy (shared (handle s)) (world s) -> threads s !! tid = Some th ->
  advance s tid th = Some s' -> exists sp', silent sp sp' /\ sim s' sp'.
Proof.
  intros (base & t & mi & Hs) Hroom Hth Hrun. destruct sp as [m sps].
  pose proof (proj1 Hroom) as Hr. pose proof (sm_threads _ _ _ _ _ Hs) as Hts.
  destruct (threads_lookup _ _ _ _ _ _ Hts Hth) as (u & Hu & Hmatch). cbn [Spec.threads] in Hu.
  destruct th as [[k v|k|k]|k e|k| |r].
  - destruct Hmatch as [-> Hfit]. cbn [advance] in Hrun.
    destruct (holder s) as [x|] eqn:Eh; [unfold start_write in Hrun; by rewrite Eh in Hrun|].
    destruct (start_write_sim m (<[k := v]> m) (fun now => Set_ now k v) s sps base t mi tid Hs Hr Eh)
      as (s1 & Hrun1 & Hsim & _).
    { intros ts Hts'. by apply good_set. }
    { intros ts iv st <-. by rewrite values_apply1. }
    rewrite Hrun in Hrun1. injection Hrun1 as <-. eexists. split; [right; by apply Spec.set|exact Hsim].
  - destruct (advance_get _ _ _ _ _ _ _ _ Hs Hth) as (th & sp' & Hrun1 & Hsi & Hsim & _).
    rewrite Hrun in Hrun1. injection Hrun1 as ->. by exists sp'.
  - destruct (advance_remove _ _ _ _ _ _ _ _ Hs Hth) as (th & sp' & Hrun1 & Hsi & Hsim & _).
    rewrite Hrun in Hrun1. injection Hrun1 as ->. by exists sp'.
  - destruct (advance_reading _ _ _ _ _ _ _ _ _ Hs Hth) as (s1 & v & Hrun1 & _ & H).
    rewrite Hrun in Hrun1. injection Hrun1 as <-. eexists. split; [by left|exact H].
  - destruct Hmatch as [-> Hfit]. cbn [advance] in Hrun.
    destruct (holder s) as [x|] eqn:Eh; [unfold start_write in Hrun; by rewrite Eh in Hrun|].
    destruct (start_write_sim m (delete k m) (fun now => Rm now k) s sps base t mi tid Hs Hr Eh)
      as (s1 & Hrun1 & Hsim & _).
    { intros ts Hts'. by apply good_rm. }
    { intros ts iv st <-. by rewrite values_apply1. }
    rewrite Hrun in Hrun1. injection Hrun1 as <-. eexists. split; [right; by apply Spec.remove_delete|exact Hsim].
  - injection Hrun as <-. eexists. split; [by left|].
    by apply (finish_write_sim s m sps base t mi tid Hs Hr Hth).
  - done.
Qed.

(** ** One step of the merge thread *)

Lemma merge_step_sim s sp s' :
  sim s sp -> roomy (shared (handle s)) (world s) -> merge_step s = Some s' -> sim s' sp.
Proof.
  intros (base & t & mi & Hs) Hroom Hrun. pose proof Hs as [Hph Hgood Hv Hts Hh Hsy].
  unfold merge_step in Hrun.
  assert (merger s = Merger.Waiting \/ merger s <> Merger.Waiting) as [E|E]
    by (destruct (merger s); (by left) || by right).
  { rewrite E in Hrun. destruct (compaction_tx (handle s)) as [[]|]; try done. injection Hrun as <-.
    exists base, t, mi. rewrite E in Hph. by split. }
  destruct (merge_steps _ _ _ _ _ _ Hph Hgood (fun _ => Hroom))
    as (pc' & sh' & w' & base' & t' & mi' & Hstep & Hph' & [Uv Ux Ug Uc Us]).
  assert (s' = set_merger (set_store s ({| shared := sh'; compaction_tx := compaction_tx (handle s) |}, w')) pc')
    as ->.
  { destruct (merger s); try done; rewrite Hstep in Hrun; by destruct (needs_mutex _ && _); simplify_eq/=. }
  exists base', t', mi'. split; try done; cbn [set_merger set_store handle world merger threads holder fst snd shared].
  - by rewrite Uv.
  - by eapply threads_extends.
  - rewrite Uc. auto.
Qed.

(** ** The refinement *)

Definition action_fits (a : Action) : Prop :=
  match a with Invoke _ op => op_fits op | _ => True end.

Lemma act_sim a s e s' sp :
  sim s sp -> roomy (shared (handle s)) (world s) -> action_fits a -> act a s = Some (e, s') ->
  exists sp', match e with
              | Some ev => Spec.step sp (Some ev) sp'
              | None => silent sp sp'
              end /\ sim s' sp'.
Proof.
  intros Hsim Hroom Hfit Hact. destruct a as [tid op|tid|tid|]; cbn [act] in Hact.
  - destruct (threads s !! tid) as [th|] eqn:Eth; [done|]. injection Hact as <- <-.
    destruct Hsim as (base & t & mi & Hs). destruct sp as [m sps].
    pose proof (sm_threads _ _ _ _ _ Hs tid) as Ht. rewrite Eth in Ht. inversion Ht as [|E1 E2]; clear Ht.
    eexists. split; [by apply Spec.call|]. exists base, t, mi.
    eapply simulates_thread; [exact Hs|by rewrite Eth|done|]. apply threads_set; [apply Hs|done].
  - destruct (threads s !! tid) as [th|] eqn:Eth; [|done].
    destruct (advance s tid th) as [s1|] eqn:Ea; [|done]. injection Hact as <- <-.
    by eapply advance_sim.
  - destruct (threads s !! tid) as [[| | | |r]|] eqn:Eth; try done. injection Hact as <- <-.
    destruct Hsim as (base & t & mi & Hs). destruct sp as [m sps]. pose proof Hs as [Hph Hgood Hv Hts Hh Hsy].
    destruct (threads_lookup _ _ _ _ _ _ Hts Eth) as (u & Hu & ->).
    eexists. split; [by apply Spec.return_|]. exists base, t, mi. split; try done.
    + by apply threads_delete.
    + intros tid'. cbn. rewrite lookup_delete. case_decide; [subst|apply Hh]. rewrite Hh, Eth.
      split; [by intros [= ?]|done].
  - destruct (merge_step s) as [s1|] eqn:Em; [|done]. injection Hact as <- <-.
    exists sp. split; [by left|]. by eapply merge_step_sim.
Qed.

(** The counters stay in their range all along the run, and what is written fits. *)
Fixpoint in_range (l : list Action) (s : Sys) : Prop :=
  roomy (shared (handle s)) (world s) /\
  match l with
  | [] => True
  | a :: l => action_fits a /\ match act a s with Some (_, s') => in_range l s' | None => True end
  end.

Lemma spec_run_app sp es sp' es' sp'' :
  Spec.run sp es sp' -> Spec.run sp' es' sp'' -> Spec.run sp (es ++ es') sp''.
Proof. induction 1; intros H'; [done|eapply Spec.run_silent|eapply Spec.run_event]; eauto. Qed.

Lemma run_sim l s es s' sp :
  sim s sp -> in_range l s -> run l s = Some (es, s') -> exists sp', Spec.run sp es sp' /\ sim s' sp'.
Proof.
  revert s es s' sp. induction l as [|a l IH]; intros s es s' sp Hsim Hin Hrun; cbn [run] in Hrun.
  { injection Hrun as <- <-. exists sp. split; [constructor|done]. }
  cbn [in_range] in Hin. destruct Hin as [Hroom [Hfit Hin]].
  destruct (act a s) as [[e s1]|] eqn:Ea; [|done].
  destruct (act_sim _ _ _ _ _ Hsim Hroom Hfit Ea) as (sp1 & Hstep & Hsim1).
  destruct (run l s1) as [[es1 s2]|] eqn:Er; [|done].
  destruct (IH _ _ _ _ Hsim1 Hin Er) as (sp2 & Hrun2 & Hsim2). exists sp2.
  destruct e as [ev|]; injection Hrun as <- <-; (split; [|done]).
  - by eapply Spec.run_event.
  - destruct Hstep as [->|Hstep]; [done|]. by eapply Spec.run_silent.
Qed.

End system.
