(* ===== verification/SystemTheorems.v ===== *)
(** * What the threads see, and what a crash leaves

    The theorems about the store with its threads: every run refines the
    specification, no call fails, every call can return without the merge, and
    after a crash at any moment of any run the next [open] finds the map again. *)

From Stdlib Require Import ZArith Lia Strings.Byte.
From stdpp Require Import base numbers list strings gmap.
From S2P Require Import Prelude Bytes Crc CommandFormat HintFormat Streams Reader KeyDir Text Names Config FileSystem Lock BTree Engine Load Merge MergeSteps System Log Inv EngineProofs Replay Recovery Durability MergeFiles MergeState MergeCopy MergePublish MergeProofs Interference Phases PhaseSteps SystemProofs.
Import Command(Command, Set_, Rm).
Import Shared Bitcask.

Local Open Scope Z_scope.

(** The store before any thread uses it. *)
Definition booted (h : Handle) (w : World) : Sys :=
  {| handle := h; world := w; merger := Merger.Waiting; threads := ∅; holder := None |}.

Definition idle_map (m : gmap (list byte) (list byte)) : Spec.State :=
  {| Spec.map := m; Spec.threads := ∅ |}.

(** What a command does to the map. *)
Definition after (m : gmap (list byte) (list byte)) (c : Command) : gmap (list byte) (list byte) :=
  match c with Set_ _ k v => <[k := v]> m | Rm _ k => delete k m end.

Section theorems.
Context `{Crc : Crc32}.

(** ** The store as it is opened *)

(** An open store that stores [m], with read handles that are all readable; under
    [SyncOnEveryPut] all of it is on stable storage. *)
Definition ready (h : Handle) (w : World) (m : gmap (list byte) (list byte)) : Prop :=
  exists front cur cmds, engine (shared h) w front cur cmds /\
    values (state_of (front ++ [(cur, cmds)])) = m /\ readers_good (shared h) w cur /\
    (Config.durability_policy (config (shared h)) = SyncOnEveryPut -> all_durable (shared h) w).

Lemma all_durable_synced sh w front cur cmds later t :
  engine sh w front cur cmds -> t = {| later := later; MergeState.cur := cur; MergeState.cmds := cmds |} ->
  all_durable sh w -> synced_but 0 sh w t.
Proof.
  intros He -> Hd. exists cmds, []. rewrite app_nil_r. split_and!; [done|cbn; lia|].
  unfold all_durable in Hd. destruct (engine_active He) as (f & _ & Hf & Hb). by rewrite Hf, Hb in *.
Qed.

Lemma ready_sim h w m : ready h w m -> sim (booted h w) (idle_map m).
Proof.
  intros (front & cur & cmds & He & Hm & Hg & Hd).
  set (t := {| later := front; MergeState.cur := cur; MergeState.cmds := cmds |}).
  exists [], t, (up_to_date [] t). split; try done.
  - intros tid. cbn. rewrite !lookup_empty. constructor.
  - intros Hp. by eapply all_durable_synced; [exact He| |apply Hd].
Qed.

(** When the handles are those of the log's files. *)
Lemma exact_good sh w front cur cmds :
  engine sh w front cur cmds -> (readers sh).*1 = (front ++ [(cur, cmds)]).*1 -> readers_good sh w cur.
Proof.
  intros He Hex id h Hget Hne. pose proof Hget as Hin. apply btree_get_elem in Hin; [|apply He].
  apply (list_elem_of_fmap_2 fst) in Hin. rewrite Hex in Hin.
  apply list_elem_of_fmap in Hin as ([i cs] & Ei & Hin). cbn [fst] in Ei. subst i.
  apply elem_of_app in Hin as [Hin|[= -> ->]%list_elem_of_singleton]; [|done].
  destruct (d_sealed _ _ _ _ _ (e_disk _ _ _ _ _ He) _ _ Hin) as [_ Hgc _ (h' & Hh' & Hb & _) _].
  rewrite <- (e_covered _ _ _ _ _ He id cs), Hget in Hh' by (apply elem_of_app; by left).
  injection Hh' as <-. by exists cs.
Qed.

(** ** Every run refines the map *)

(** C7. The store with its threads is linearizable to the map: take any schedule of
    any number of threads that call [set], [get] and [remove] on an open store that
    stores [m], interleaved at every point where the code can be interrupted, with
    merges that start when they are due and run beside them. What the threads see
    (calls and their results) is a run of the specification, in which [set] and
    [get] take effect at one point between call and return and [remove] looks and
    deletes at two. (The counters are in range, there are no I/O errors.) *)
Theorem system_refines l h w m es s' :
  ready h w m -> in_range l (booted h w) -> run l (booted h w) = Some (es, s') ->
  exists sp', Spec.run (idle_map m) es sp'.
Proof.
  intros Hr Hin Hrun. destruct (run_sim l _ _ _ _ (ready_sim _ _ _ Hr) Hin Hrun) as (sp' & Hs & _).
  by exists sp'.
Qed.

(** Results that are not failures. *)
Definition fine (r : Res) : Prop :=
  match r with
  | RUnit (Ok _) | RUnit (Err KeyNotFound) | RGet (Ok _) => True
  | _ => False
  end.

Definition spec_fine (sp : Spec.State) : Prop :=
  forall tid r, Spec.threads sp !! tid = Some (Spec.Done r) -> fine r.

Lemma spec_step_fine sp e sp' :
  Spec.step sp e sp' -> spec_fine sp ->
  spec_fine sp' /\ forall tid r, e = Some (Ret tid r) -> fine r.
Proof.
  intros Hstep Hf. split.
  - intros tid r. destruct Hstep; cbn [Spec.threads]; rewrite ?lookup_insert, ?lookup_delete;
      case_decide; try done; try (intros [= <-]; done); apply Hf.
  - intros tid r ->. inversion Hstep; subst. by eapply Hf.
Qed.

Lemma spec_run_fine sp es sp' tid r :
  Spec.run sp es sp' -> spec_fine sp -> Ret tid r ∈ es -> fine r.
Proof.
  induction 1 as [|s1 s2 s3 es H1 _ IH|s1 s2 s3 e es H1 _ IH]; intros Hf Hin.
  - by apply not_elem_of_nil in Hin.
  - apply IH; [|done]. by apply (spec_step_fine _ _ _ H1).
  - apply spec_step_fine in H1 as [Hf' Hr]; [|done]. apply elem_of_cons in Hin as [<-|Hin]; [by eapply Hr|].
    by apply IH.
Qed.

(** C9. What is always true of the store with its threads: the merge thread has not
    died, the writer's mutex is not poisoned and is held exactly by the thread that
    is between the two halves of a write, and no call has failed: [set] has
    returned [Ok(())], [get] a value or [None], [remove] [Ok(())] or
    [KeyNotFound]. *)
Theorem system_invariant l h w m es s' :
  ready h w m -> in_range l (booted h w) -> run l (booted h w) = Some (es, s') ->
  merger s' <> Merger.Dead /\ writer_poisoned (shared (handle s')) = false /\
  (forall tid, holder s' = Some tid <-> threads s' !! tid = Some Posting) /\
  (forall tid r, Ret tid r ∈ es -> fine r).
Proof.
  intros Hr Hin Hrun.
  destruct (run_sim l _ _ _ _ (ready_sim _ _ _ Hr) Hin Hrun) as (sp' & Hs & base & t & mi & [Hph _ _ _ Hh _]).
  split_and!; [|..|exact Hh|].
  - intros E. by rewrite E in Hph.
  - destruct (phase_lagging _ _ _ _ _ _ Hph) as [[iv He] _ _]. exact (e_lock _ _ _ _ _ He).
  - intros tid r. eapply spec_run_fine; [exact Hs|]. intros tid' r'. cbn. by rewrite lookup_empty.
Qed.

(** ** Every call can return *)

(** The call of [tid] returns after at most [n] steps of the callers, without the
    merge thread. *)
Definition completes (n : nat) (s : Sys) (tid : nat) : Prop :=
  exists l s' r, (length l <= n)%nat /\ Forall (fun a => a <> Merge_) l /\
    run l s = Some ([Ret tid r], s').

Lemma completes_returning s tid r : threads s !! tid = Some (Returning r) -> completes 1 s tid.
Proof.
  intros Ht. eexists [Respond tid], _, r. split; [done|]. split; [by constructor|].
  cbn [run act]. by rewrite Ht.
Qed.

Lemma completes_step n s tid tid' th s' :
  threads s !! tid' = Some th -> advance s tid' th = Some s' -> completes n s' tid -> completes (S n) s tid.
Proof.
  intros Ht Ha (l & s2 & r & Hl & HF & Hrun). exists (Advance tid' :: l), s2, r.
  split; [cbn; lia|]. split; [by constructor|]. cbn [run act]. rewrite Ht, Ha. cbn. by rewrite Hrun.
Qed.

Lemma completes_le n n' s tid : (n <= n')%nat -> completes n s tid -> completes n' s tid.
Proof. intros Hn (l & s' & r & Hl & H). exists l, s', r. split; [lia|done]. Qed.

Lemma completes_posting s sp tid :
  sim s sp -> room 1 (shared (handle s)) -> threads s !! tid = Some Posting -> completes 2 s tid.
Proof.
  intros (base & t & mi & Hs) Hr Ht. destruct sp as [m sps].
  destruct (finish_write_sim s m sps base t mi tid Hs Hr Ht) as (_ & Ht' & _).
  eapply completes_step; [exact Ht|done|]. by eapply completes_returning.
Qed.

(** A write when the mutex is free. *)
Lemma completes_free s sp tid th :
  sim s sp -> room 2 (shared (handle s)) -> threads s !! tid = Some th -> holder s = None ->
  (exists k v, th = Called (OSet k v)) \/ (exists k, th = Removing k) -> completes 3 s tid.
Proof.
  intros (base & t & mi & Hs) Hr Ht Hno Hth. destruct sp as [m sps].
  assert (room 1 (shared (handle s))) as Hr1 by (destruct Hr as (? & ? & ?); unfold room, record_max in *; lia).
  pose proof (sm_threads _ _ _ _ _ Hs) as Hts.
  destruct (threads_lookup _ _ _ _ _ _ Hts Ht) as (u & Hu & Hmatch).
  assert (exists s' sp', advance s tid th = Some s' /\ sim s' sp' /\ threads s' !! tid = Some Posting /\
    room 1 (shared (handle s'))) as (s' & sp' & Ha & Hsim & Ht' & Hr').
  { destruct Hth as [(k & v & ->)|(k & ->)].
    - destruct Hmatch as [_ Hfit].
      destruct (start_write_sim m (<[k := v]> m) (fun now => Set_ now k v) s sps base t mi tid Hs Hr1 Hno)
        as (s' & Ha & Hsim & Ht' & Hroom).
      { intros ts Hts'. by apply good_set. } { intros ts iv st <-. by rewrite values_apply1. }
      eexists s', _. split_and!; [done|exact Hsim|done|by apply (Hroom 2)].
    - destruct Hmatch as [_ Hfit].
      destruct (start_write_sim m (delete k m) (fun now => Rm now k) s sps base t mi tid Hs Hr1 Hno)
        as (s' & Ha & Hsim & Ht' & Hroom).
      { intros ts Hts'. by apply good_rm. } { intros ts iv st <-. by rewrite values_apply1. }
      eexists s', _. split_and!; [done|exact Hsim|done|by apply (Hroom 2)]. }
  eapply completes_step; [exact Ht|exact Ha|]. by eapply completes_posting.
Qed.

(** A write when the mutex may be held: its holder goes first. *)
Lemma completes_write s sp tid th :
  sim s sp -> room 3 (shared (handle s)) -> threads s !! tid = Some th ->
  (exists k v, th = Called (OSet k v)) \/ (exists k, th = Removing k) -> completes 4 s tid.
Proof.
  intros Hsim Hr Ht Hth. assert (forall n, n <= 3 -> room n (shared (handle s))) as Hrn
    by (intros n Hn; destruct Hr as (? & ? & ?); unfold room, record_max in *; lia).
  destruct (holder s) as [x|] eqn:Eh.
  2:{ eapply completes_le, completes_free; [lia|exact Hsim|by apply Hrn|exact Ht|done|done]. }
  pose proof Hsim as (base & t & mi & Hs). destruct sp as [m sps].
  pose proof (proj1 (sm_holder _ _ _ _ _ Hs x) Eh) as Hx.
  destruct (finish_write_sim s m sps base t mi x Hs (Hrn 1 ltac:(lia)) Hx) as (Hsim' & _ & Hh' & Hoth & Hr').
  eapply completes_step; [exact Hx|done|]. eapply completes_free; [exact Hsim'|by apply (Hr' 3)| |done|done].
  rewrite Hoth; [exact Ht|]. intros ->. rewrite Hx in Ht. injection Ht as <-.
  by destruct Hth as [(? & ? & ?)|(? & ?)].
Qed.


(** ** Crashes *)

(** The bytes of all data files that are open. *)
Definition data_bytes (sh : Shared) (w : World) : Z :=
  snapshot_bytes sh w + blen (bytes_of w (file (writer sh))).

Lemma total_bytes_submseteq (l k : list (Z * list Command)) : l ⊆+ k -> total_bytes l <= total_bytes k.
Proof.
  induction 1 as [|[i c] l k _ IH|[i c] [j d] l|[i c] l k _ IH|l k r _ IH1 _ IH2]; rewrite ?total_bytes_cons;
    try lia; pose proof (blen_nonneg (enc c)); lia.
Qed.

Lemma ascending_nodup (l : list (Z * list Command)) : ascending l -> NoDup l.
Proof.
  intros [lo H]%btree_ok_from. revert lo H. induction l as [|[i c] l IH]; intros lo; [constructor|].
  intros [H1 H2]. constructor; [|by eapply IH]. intros Hin. pose proof (sorted_from_elem _ _ _ _ H2 Hin). lia.
Qed.

Lemma log_bytes sh w base t mi :
  lagging sh w base t mi -> readers_good sh w (cur t) ->
  total_bytes (log_of base t) <= data_bytes sh w.
Proof.
  intros [[iv He] _ _] Hg.
  destruct (sources_exist _ _ _ _ _ He Hg) as (sources & [_ _ _ Hfr] & Htot).
  rewrite log_of_eq, total_bytes_app, total_bytes_one. unfold data_bytes.
  destruct (engine_active He) as (f & _ & Hf & Hb). cbn [set_index writer] in Hf. rewrite Hf, Hb.
  change (snapshot_bytes sh w) with (snapshot_bytes (set_index sh iv) w). rewrite <- Htot.
  enough (total_bytes (base ++ later t) <= total_bytes sources) by lia.
  apply total_bytes_submseteq, NoDup_submseteq; [|done].
  apply ascending_nodup. eapply btree_ok_app_l, (d_ascending _ _ _ _ _ (e_disk _ _ _ _ _ He)).
Qed.

(** The commands after a prefix of the active file. *)
Lemma values_more front cur c1 c2 :
  values (state_of (front ++ [(cur, c1 ++ c2)])) =
  foldl after (values (state_of (front ++ [(cur, c1)]))) c2.
Proof.
  induction c2 as [|c c2 IH] using rev_ind; [by rewrite app_nil_r|].
  rewrite app_assoc, state_of_snoc, values_apply1, IH, foldl_app. by destruct c.
Qed.

Section open.
Context (order : list Name -> list Name) (order_perm : forall l, order l ≡ₚ l).

Lemma crash_ready sh w w' front cur cmds c :
  engine sh w front cur cmds -> total_bytes (front ++ [(cur, cmds)]) <= u64_max -> crash w w' ->
  exists hd w'' cmds1 cmds2, Open.open order c w' = (Ok hd, w'') /\ cmds = cmds1 ++ cmds2 /\
    ready hd w'' (values (state_of (front ++ [(cur, cmds1)]))) /\
    (forall pre post, cmds = pre ++ post -> blen (enc pre) <= durable_of w (file (writer sh)) ->
       exists mid, cmds1 = pre ++ mid).
Proof using order_perm.
  intros He Htot Hcr.
  destruct (crash_disk _ _ _ _ _ _ He Hcr) as (cmds1 & cmds2 & tail & Hc & Hd & Ht & Hmax).
  rewrite total_bytes_app, total_bytes_one, Hc, enc_app, blen_app in Htot.
  pose proof (blen_nonneg (enc cmds2)).
  destruct (open_engine order order_perm c w' front cur cmds1 tail)
    as (hd & w'' & Hrun & He' & Hop); try done; try apply Hcr.
  { eapply crash_inodes; [|done]. apply He. } { eapply crash_lock_free; [done|]. apply He. }
  { rewrite total_bytes_app, total_bytes_one. lia. }
  exists hd, w'', cmds1, cmds2. split_and!; try done. exists front, cur, cmds1. split_and!; try done.
  - eapply exact_good; [exact He'|]. apply (o_readers _ _ _ _ _ _ Hop).
  - intros _. apply (o_synced _ _ _ _ _ _ Hop), locked_synced. intros h.
    destruct (c_bytes _ _ Hcr h) as (n & Hn & -> & ->). pose proof (e_inodes _ _ _ _ _ He h).
    rewrite blen_ztake by lia. lia.
Qed.

(** A crash at any moment of any run: the process or the machine stops after any
    number of steps of the threads and of the merge. The next [open] succeeds; what
    it finds is what the log held but for the last commands [lost] of the active
    file, and the store is ready for the next run. With [SyncOnEveryPut] no command is
    lost but, perhaps, the one of the write that held the mutex, so that the store
    has what every call that had returned left, on every key but the one being
    written. *)
Theorem system_crash l h w m es s' w' c :
  ready h w m -> in_range l (booted h w) -> run l (booted h w) = Some (es, s') ->
  data_bytes (shared (handle s')) (world s') <= u64_max -> crash (world s') w' ->
  exists sp' hd w'' m' lost, Spec.run (idle_map m) es sp' /\
    Open.open order c w' = (Ok hd, w'') /\ ready hd w'' m' /\
    Spec.map sp' = foldl after m' lost /\
    (Config.durability_policy (config (shared (handle s'))) = SyncOnEveryPut ->
     (length lost <= match holder s' with Some _ => 1 | None => 0 end)%nat).
Proof using order_perm.
  intros Hr Hin Hrun Hb Hcr.
  destruct (run_sim l _ _ _ _ (ready_sim _ _ _ Hr) Hin Hrun)
    as (sp' & Hs & base & t & mi & [Hph Hg Hv _ _ Hsy]).
  pose proof (phase_lagging _ _ _ _ _ _ Hph) as Hl. pose proof (log_bytes _ _ _ _ _ Hl Hg) as Htot.
  rewrite log_of_eq in Htot, Hv. destruct Hl as [[iv He] _ _].
  destruct (crash_ready _ _ w' _ _ _ c He ltac:(lia) Hcr) as (hd & w'' & c1 & c2 & Hopen & Hc & Hrd & Hmax).
  exists sp', hd, w'', (values (state_of ((base ++ later t) ++ [(cur t, c1)]))), c2. split_and!; try done.
  - by rewrite <- Hv, Hc, values_more.
  - intros Hp. destruct (Hsy Hp) as (pre & post & Hpre & Hn & Hd). unfold unsynced in Hn.
    destruct (Hmax pre post Hpre Hd) as [mid ->]. rewrite Hc, <- app_assoc in Hpre.
    apply app_inv_head in Hpre. subst post. rewrite length_app in Hn. lia.
Qed.

End open.
End theorems.

(** ** A concrete run *)

(** A write of the thread 1 from its call to its return. *)
Definition whole_set (k v : list byte) : list Action :=
  [Invoke 1 (OSet k v); Advance 1; Advance 1; Respond 1].

(** Two writes that make a merge due; while it runs, a read of the key and a third
    write that stops half way. *)
Definition busy : list Action :=
  whole_set (lit "a") (lit "1") ++ whole_set (lit "a") (lit "2") ++
  [Merge_; Merge_; Invoke 2 (OGet (lit "a")); Merge_; Advance 2; Merge_; Merge_; Merge_; Merge_; Merge_;
   Invoke 1 (OSet (lit "b") (lit "3")); Advance 1; Merge_; Advance 2; Respond 2].

Definition busy_end : option (list Event * Sys) :=
  run (Crc := crc32_ieee) busy (booted (fresh_handle sample_config) fresh_world).

Lemma busy_in_range : in_range (Crc := crc32_ieee) busy (booted (fresh_handle sample_config) fresh_world).
Proof. vm_compute. intuition discriminate. Qed.

(** At the end of [busy] the merge is between two index updates, and the third
    write holds the mutex. *)
Lemma busy_state :
  match busy_end with
  | None => False
  | Some (es, s') => holder s' = Some 1%nat /\ data_bytes (shared (handle s')) (world s') <= u64_max /\
      Ret 2 (RGet (Ok (Some (lit "2")))) ∈ es /\
      Config.durability_policy (config (shared (handle s'))) = SyncOnEveryPut
  end.
Proof.
  vm_compute. split; [reflexivity|]. split; [discriminate|]. split; [|reflexivity].
  repeat first [left | right].
Qed.

Lemma fresh_ready : ready (Crc := crc32_ieee) (fresh_handle sample_config) fresh_world ∅.
Proof.
  exists [], 1, []. split_and!; [apply fresh_engine|done| |].
  - eapply exact_good; [apply fresh_engine|done].
  - intros _. vm_compute. discriminate.
Qed.

Lemma system_refines_witness :
  exists es s' sp', busy_end = Some (es, s') /\ Ret 2 (RGet (Ok (Some (lit "2")))) ∈ es /\
    Spec.run (idle_map ∅) es sp'.
Proof.
  pose proof busy_state as Hb. destruct busy_end as [[es s']|] eqn:E; [|destruct Hb].
  destruct (system_refines (Crc := crc32_ieee) busy (fresh_handle sample_config) fresh_world ∅ es s'
    fresh_ready busy_in_range E) as [sp' Hs].
  exists es, s', sp'. split; [reflexivity|]. split; [apply Hb|exact Hs].
Defined.

Lemma system_invariant_witness :
  exists es s', busy_end = Some (es, s') /\ merger s' <> Merger.Dead /\ threads s' !! 1%nat = Some Posting.
Proof.
  pose proof busy_state as Hb. destruct busy_end as [[es s']|] eqn:E; [|destruct Hb].
  destruct (system_invariant (Crc := crc32_ieee) busy (fresh_handle sample_config) fresh_world ∅ es s'
    fresh_ready busy_in_range E) as (Hm & _ & Hh & _).
  exists es, s'. split; [reflexivity|]. split; [exact Hm|]. apply Hh, Hb.
Defined.


Lemma system_crash_witness :
  exists es s' sp' hd w'' m' lost, busy_end = Some (es, s') /\ Spec.run (idle_map ∅) es sp' /\
    Open.open (Crc := crc32_ieee) (fun l => l) sample_config (power_cut (world s')) = (Ok hd, w'') /\
    ready (Crc := crc32_ieee) hd w'' m' /\ Spec.map sp' = foldl after m' lost /\ (length lost <= 1)%nat.
Proof.
  pose proof busy_state as Hb. destruct busy_end as [[es s']|] eqn:E; [|destruct Hb].
  destruct Hb as (Hh & Hd & _ & Hp).
  destruct (system_crash (Crc := crc32_ieee) (fun l => l) (fun l => reflexivity l) busy
    (fresh_handle sample_config) fresh_world ∅ es s' (power_cut (world s')) sample_config
    fresh_ready busy_in_range E Hd) as (sp' & hd & w'' & m' & lost & Hs & Ho & Hr & Hm & Hl).
  - destruct (run_sim (Crc := crc32_ieee) busy _ _ _ _ (ready_sim _ _ _ fresh_ready) busy_in_range E)
      as (sp & _ & base & t & mi & [Hph _ _ _ _ _]).
    destruct (phase_lagging _ _ _ _ _ _ Hph) as [[iv He] _ _].
    eapply crash_power_cut; apply He.
  - exists es, s', sp', hd, w'', m', lost. specialize (Hl Hp). rewrite Hh in Hl.
    split; [reflexivity|]. split; [exact Hs|]. split; [exact Ho|]. split; [exact Hr|]. split; [exact Hm|exact Hl].
Defined.
