(* ===== verification/Keeps.v ===== *)
(** * What code keeps

    [keeps P Q c]: the code [c] keeps [P] of its state, whether it returns, fails or
    panics, and what it returns satisfies [Q]. Here are a rule for each construct of
    the monad, the tactic [keep] that follows the code with them, and the system
    calls, under every schedule of faults. *)

From Stdlib Require Import ZArith Lia Strings.Byte.
From stdpp Require Import base numbers list strings gmap.
From S2P Require Import Prelude Bytes Crc Streams Text Config FileSystem Lock.

Local Open Scope Z_scope.

(** ** The judgement *)

Definition keeps {S A} (P : S -> Prop) (Q : A -> Prop) (c : M S A) : Prop :=
  forall s, P s -> P (snd (c s)) /\ match fst (c s) with Ok a => Q a | _ => True end.

(** A predicate on each part of the state. *)
Definition both {S T} (P : S -> Prop) (Q : T -> Prop) (s : S * T) : Prop := P (fst s) /\ Q (snd s).

Definition any {A} (a : A) : Prop := True.

Section rules.
Context {S : Type} (P : S -> Prop).

Lemma keeps_ret {A} (Q : A -> Prop) a : Q a -> keeps P Q (ret a).
Proof. intros Ha s Hs. done. Qed.

Lemma keeps_throw {A} (Q : A -> Prop) e : keeps P Q (throw e).
Proof. intros s Hs. done. Qed.

Lemma keeps_panic {A} (Q : A -> Prop) : keeps P Q panic.
Proof. intros s Hs. done. Qed.

Lemma keeps_bind {A B} (Q : A -> Prop) (R : B -> Prop) c k :
  keeps P Q c -> (forall a, Q a -> keeps P R (k a)) -> keeps P R (bind c k).
Proof.
  intros Hc Hk s Hs. specialize (Hc s Hs). unfold bind. destruct (c s) as [[a|e|] s']; cbn in *.
  - apply Hk; apply Hc.
  - split; [apply Hc|done].
  - split; [apply Hc|done].
Qed.

Lemma keeps_mcatch {A B} (Q : A -> Prop) (R : B -> Prop) c k h :
  keeps P Q c -> (forall a, Q a -> keeps P R (k a)) -> (forall e, keeps P R (h e)) ->
  keeps P R (mcatch c k h).
Proof.
  intros Hc Hk Hh s Hs. specialize (Hc s Hs). unfold mcatch. destruct (c s) as [[a|e|] s']; cbn in *.
  - apply Hk; apply Hc.
  - apply Hh, Hc.
  - split; [apply Hc|done].
Qed.

Lemma keeps_gets {A} (f : S -> A) : keeps P (fun a => exists s, P s /\ f s = a) (gets f).
Proof. intros s Hs. split; [done|]. by exists s. Qed.

Lemma keeps_modify f : (forall s, P s -> P (f s)) -> keeps P any (modify f).
Proof. intros Hf s Hs. split; [by apply Hf|done]. Qed.

Lemma keeps_outcome {A} (o : outcome A) : keeps P (fun a => o = Ok a) (of_outcome o).
Proof. intros s Hs. split; [done|]. by destruct o. Qed.

Lemma keeps_weaken {A} (Q Q' : A -> Prop) c : keeps P Q c -> (forall a, Q a -> Q' a) -> keeps P Q' c.
Proof. intros Hc HQ s Hs. specialize (Hc s Hs) as [? HQc]. split; [done|]. destruct (fst (c s)); eauto. Qed.

Lemma keeps_any {A} (Q : A -> Prop) c : keeps P Q c -> keeps P any c.
Proof. intros Hc. by eapply keeps_weaken. Qed.

Lemma keeps_fst {T A} (R : T -> Prop) (Q : A -> Prop) c : keeps P Q c -> keeps (both P R) Q (on_fst c).
Proof.
  intros Hc [s t] [Hs Ht]. specialize (Hc s Hs). unfold on_fst, both in *. cbn [fst snd] in *.
  destruct (c s) as [o s']. cbn in *. tauto.
Qed.

Lemma keeps_snd {T A} (R : T -> Prop) (Q : A -> Prop) c : keeps P Q c -> keeps (both R P) Q (on_snd c).
Proof.
  intros Hc [t s] [Ht Hs]. specialize (Hc s Hs). unfold on_snd, both in *. cbn [fst snd] in *.
  destruct (c s) as [o s']. cbn in *. tauto.
Qed.
End rules.

Create HintDb keeps.
#[export] Hint Resolve keeps_throw keeps_panic keeps_gets keeps_outcome keeps_fst keeps_snd : keeps.
#[export] Hint Extern 1 (keeps _ any _) => eapply keeps_any : keeps.

(** Follow the code: a rule for each construct, and the hints for what it calls. *)
Ltac keep :=
  repeat lazymatch goal with
  | |- keeps _ _ (bind _ _) => eapply keeps_bind; [solve [eauto with keeps]|intros ? ?; cbn beta zeta in *]
  | |- keeps _ _ (ret _) => apply keeps_ret
  | |- keeps _ _ (throw _) => apply keeps_throw
  | |- keeps _ _ panic => apply keeps_panic
  | |- keeps _ _ (match _ with _ => _ end) => case_match; cbn beta zeta
  | |- keeps _ any (on_fst _) => solve [eauto with keeps]
  | |- keeps _ any (on_snd _) => solve [eauto with keeps]
  end.

(** ** The world *)

(** What [Duration] can hold, in milliseconds. *)
Definition duration_max : Z := 1000 * 2 ^ 64 - 1.

Definition clock_typed (w : World) : Prop :=
  clock w <= duration_max /\ Forall (fun t => t <= duration_max) (ticks w).

(** No file is longer than this. *)
Definition sizes (n : Z) (w : World) : Prop := forall h, blen (bytes_of w h) <= n.

(** The largest size of a file. *)
Definition i64_max : Z := 2 ^ 63 - 1.

(** Predicates that calls which write no bytes keep. *)
Class Structural (P : World -> Prop) : Prop := {
  st_faults : forall w fs, P w -> P (set_faults w fs);
  st_dir : forall w d, P w -> P (set_dir w d);
  st_flock : forall w b, P w -> P (set_flock w b);
  st_new_file : forall w name, P w -> P (new_file w name);
  st_sync : forall w h n, P w -> P (set_inode w h {| content := bytes_of w h; durable := n |});
  st_now : keeps P (fun t => 0 <= t <= duration_max) unix_now
}.

Lemma keeps_clock : keeps clock_typed (fun t => 0 <= t <= duration_max) unix_now.
Proof.
  intros w Hw. pose proof Hw as [Hc Ht]. unfold unix_now. destruct (ticks w) as [|t ts] eqn:E.
  - destruct (Z.ltb_spec (clock w) 0); (split; [done|]); cbn; lia || done.
  - apply Forall_cons in Ht as [? ?]. destruct (Z.ltb_spec t 0); (split; [done|]); cbn; lia || done.
Qed.

#[export] Instance clock_structural : Structural clock_typed.
Proof. split; try done. apply keeps_clock. Qed.

(** The clock and the sizes of the files. *)
Definition limits (n : Z) (w : World) : Prop := clock_typed w /\ sizes n w.

Lemma sizes_set_inode n w h i : sizes n w -> blen (content i) <= n -> sizes n (set_inode w h i).
Proof. intros Hs Hi h'. rewrite bytes_of_set_inode. by case_decide. Qed.

#[export] Instance limits_structural n : 0 <= n -> Structural (limits n).
Proof.
  intros Hn. split.
  - by intros w fs [].
  - by intros w d [].
  - by intros w b [].
  - intros w name [? Hs]. split; [done|]. intros h. destruct (decide (h = next_inode w)) as [->|].
    + rewrite bytes_of_new_file_eq, blen_nil. lia.
    + by rewrite bytes_of_new_file.
  - intros w h d [? Hs]. split; [done|]. apply sizes_set_inode; [done|apply Hs].
  - intros w [Hc Hs]. destruct (keeps_clock w Hc) as [Hc' Ht]. split; [split; [done|]|done].
    intros h. unfold unix_now. destruct (ticks w); destruct (_ <? _); apply Hs.
Qed.

(** A system call, from the call and its failures. *)
Lemma keeps_syscall {A} (P : World -> Prop) `{!Structural P} (Q : A -> Prop) call failed :
  keeps P Q call -> (forall f, keeps P Q (failed f)) -> keeps P Q (syscall call failed).
Proof.
  intros Hc Hf w Hw. unfold syscall. destruct (faults w) as [|[f|] fs]; [by apply Hc| |].
  - apply Hf, st_faults, Hw.
  - apply Hc, st_faults, Hw.
Qed.

(** The calls of the code: the cases of the call, then its failure. *)
Ltac world_call :=
  apply keeps_syscall; [done|intros ?w ?Hw; repeat case_match|intros ?f; try apply keeps_throw];
  try done; cbn [fst snd]; try (split; [first [by apply st_dir|by apply st_flock|by apply st_new_file|by apply st_sync]|done]).

Section world_calls.
Context (P : World -> Prop) `{!Structural P}.
Abbreviation kw := (keeps P any).

Lemma keeps_nothing : kw (syscall (ret tt) fails).
Proof using All. world_call. Qed.
Lemma keeps_create_dir_all : kw create_dir_all.
Proof using All. apply keeps_nothing. Qed.
Lemma keeps_read_dir order : kw (read_dir order).
Proof using All. world_call. Qed.
Lemma keeps_is_file name : kw (is_file name).
Proof using All. by intros w Hw. Qed.
Lemma keeps_exists name : kw (exists_ name).
Proof using All. world_call. Qed.
Lemma keeps_path_exists name : kw (path_exists name).
Proof using All. world_call. Qed.
Lemma keeps_open_create name : kw (open_create name).
Proof using All. world_call. Qed.
Lemma keeps_open_read name : kw (open_read name).
Proof using All. world_call. Qed.
Lemma keeps_sync_all h : kw (sync_all h).
Proof using All. world_call. Qed.
Lemma keeps_read_exact_at h n off : kw (read_exact_at h n off).
Proof using All. world_call. Qed.
Lemma keeps_remove_file name : kw (remove_file name).
Proof using All. world_call. Qed.
Lemma keeps_rename from to : kw (rename from to).
Proof using All. world_call. Qed.
Lemma keeps_file_stream h : kw (file_stream h).
Proof using All. world_call. Qed.
Lemma keeps_try_lock : kw LockFile.try_lock.
Proof using All. world_call. Qed.
Lemma keeps_unlock : kw LockFile.unlock.
Proof using All. apply keeps_modify. intros w. apply st_flock. Qed.
Lemma keeps_read_to_string h : kw (LockFile.read_to_string h).
Proof using All. world_call. Qed.
Lemma keeps_metadata_len h : keeps P (fun n => 0 <= n) (metadata_len h).
Proof using All.
  apply keeps_syscall; [done| |by intros f w Hw]. intros w Hw. split; [done|apply blen_nonneg].
Qed.
End world_calls.

(** The calls that write. *)
Lemma keeps_write_all h bs : keeps clock_typed any (file_write_all h bs).
Proof. apply keeps_syscall; [apply _|by intros w Hw|by intros f w Hw]. Qed.

(** The sizes that the code reads. *)
Lemma keeps_metadata_limit n h :
  0 <= n -> keeps (limits n) (fun len => 0 <= len <= n) (metadata_len h).
Proof.
  intros Hn. apply keeps_syscall; [by apply limits_structural| |by intros f w Hw].
  intros w [Hc Hs]. split; [done|]. split; [apply blen_nonneg|apply Hs].
Qed.

Lemma keeps_set_len n h pos : 0 <= pos <= n -> keeps (limits n) any (set_len h pos).
Proof.
  intros Hp. apply keeps_syscall; [apply limits_structural; lia| |by intros f w Hw].
  intros w [Hc Hs]. split; [split; [done|]|done]. apply sizes_set_inode; [done|]. cbn [content].
  autorewrite with blen. unfold ztake, blen. rewrite length_take, length_replicate. lia.
Qed.

#[export] Hint Resolve keeps_nothing keeps_create_dir_all keeps_read_dir keeps_is_file keeps_exists
  keeps_path_exists keeps_open_create keeps_open_read keeps_sync_all keeps_read_exact_at
  keeps_remove_file keeps_rename keeps_file_stream keeps_try_lock keeps_unlock keeps_read_to_string
  keeps_metadata_len keeps_write_all st_now : keeps.
#[export] Hint Extern 0 (Structural _) => apply _ : keeps.
#[export] Hint Extern 0 (keeps (limits _) _ (metadata_len _)) => by apply keeps_metadata_limit : keeps.
