(* ===== verification/Cut.v ===== *)
(** * Steps that are cut short: the writers

    The process can stop in the middle of a step of a thread, between two system
    calls or while a write is under way. What it leaves then is what the step leaves
    when the system calls from there on fail, so that a step under an arbitrary
    schedule of faults stands for a step that is cut at an arbitrary point. This
    file says what it means that such a world still holds a map ([saved]), and shows
    that the two halves of a write, cut anywhere, leave the map before or after. *)

From Stdlib Require Import ZArith Lia Strings.Byte.
From stdpp Require Import base numbers list strings gmap.
From S2P Require Import Prelude Bytes Crc CommandFormat HintFormat Streams Reader KeyDir Text Names Config FileSystem Lock BTree Engine Load Merge MergeSteps System Log Inv EngineProofs Replay Recovery Durability Faults MergeFiles MergeState MergeCopy MergePublish MergeProofs Interference Phases PhaseSteps SystemProofs SystemTheorems Keeps.
Import Command(Command, Set_, Rm).
Import Shared Bitcask.

Local Open Scope Z_scope.

(** The bytes of all files of the directory. *)
Definition stored_bytes (w : World) : Z :=
  foldr (fun e n => blen (bytes_of w (snd e)) + n) 0 (map_to_list (dir w)).

(** ** What a crash leaves of a world *)

(** Every crash of [w] could be a crash of [w']. *)
Definition crash_below (w w' : World) : Prop := forall w'', crash w w'' -> crash w' w''.

Lemma crash_below_refl w : crash_below w w.
Proof. by intros w''. Qed.

Lemma crash_below_trans w1 w2 w3 : crash_below w1 w2 -> crash_below w2 w3 -> crash_below w1 w3.
Proof. intros H1 H2 w'' H. by apply H2, H1. Qed.

(** The clock, the lock and the coming faults do not survive. *)
Lemma crash_below_same w w' :
  dir w' = dir w -> others w' = others w -> inodes w' = inodes w -> next_inode w' = next_inode w ->
  crash_below w w'.
Proof.
  intros Hd Ho Hi Hn w'' [C1 C2 C3 C4 C5 C6 C7]. split; try done; try congruence.
  intros h. destruct (C7 h) as (n & H). exists n. unfold durable_of, bytes_of in *. by rewrite Hi.
Qed.

Lemma crash_below_calm w : crash_below w (calm w).
Proof. by apply crash_below_same. Qed.

(** Part of a write is what a crash may leave of all of it. *)
Lemma crash_below_append w h bs n :
  crash_below (append_bytes w h (take n bs)) (append_bytes w h bs).
Proof.
  intros w'' [C1 C2 C3 C4 C5 C6 C7]. split; try done. intros f. destruct (C7 f) as (k & Hk & Hb & Hdu).
  rewrite !durable_of_append, !bytes_of_append in *. exists k. case_decide; [|done].
  subst f. rewrite blen_app in *.
  assert (blen (take n bs) <= blen bs) as Hle by (unfold blen; rewrite length_take; lia).
  split_and!; [lia|lia| |done]. rewrite Hb. unfold ztake.
  destruct (decide (Z.to_nat k <= length (bytes_of w h))%nat) as [Hs|Hs].
  - by rewrite !take_app_le.
  - rewrite !take_app_ge by lia. f_equal. rewrite take_take. f_equal.
    unfold blen in Hk. rewrite length_take in Hk. lia.
Qed.

Section cut.
Context `{Crc : Crc32}.

(** ** The size of the log *)

Lemma foldr_submseteq {A} (f : A -> Z) l k :
  (forall x, 0 <= f x) -> l ⊆+ k -> foldr (fun e n => f e + n) 0 l <= foldr (fun e n => f e + n) 0 k.
Proof.
  intros Hf. induction 1 as [|x l k _ IH|x y l|x l k _ IH|l k r _ IH1 _ IH2]; cbn [foldr]; try lia.
  pose proof (Hf x). lia.
Qed.

Lemma disk_bytes w front cur cmds tail :
  disk w front cur cmds tail -> total_bytes (front ++ [(cur, cmds)]) <= stored_bytes w.
Proof.
  intros Hd. set (fs := front ++ [(cur, cmds)]).
  assert (forall l, (forall f, f ∈ l -> f ∈ fs) -> ascending l -> exists es : list (Name * nat),
    total_bytes l <= foldr (fun e n => blen (bytes_of w (snd e)) + n) 0 es /\
    NoDup es /\ (forall e, e ∈ es -> e ∈ map_to_list (dir w) /\ exists id, is_u64 id /\ id ∈ l.*1 /\ fst e = data_file_name id)) as Hex.
  { induction l as [|[id cs] l IH]; intros Hin Hasc.
    { exists []. split_and!; [done|constructor|by intros e ?%not_elem_of_nil]. }
    destruct IH as (es & Hsum & Hnd & Hes); [intros f Hf; apply Hin; by right|by eapply sorted_from_ok|].
    assert (is_u64 id /\ exists h, dir w !! data_file_name id = Some h /\ blen (enc cs) <= blen (bytes_of w h))
      as (Hid & h & Hh & Hb).
    { pose proof (Hin (id, cs) ltac:(left)) as Hf. unfold fs in Hf.
      apply elem_of_app in Hf as [Hf|[= -> ->]%list_elem_of_singleton].
      - destruct (d_sealed _ _ _ _ _ Hd _ _ Hf) as [Hu _ _ (h & Hh & Hb & _) _]. split; [done|].
        exists h. rewrite Hb. split; [done|lia].
      - split; [apply (d_cur _ _ _ _ _ Hd)|]. destruct (d_active _ _ _ _ _ Hd) as (h & Hh & Hb).
        exists h. rewrite Hb, blen_app. pose proof (blen_nonneg tail). split; [done|lia]. }
    exists ((data_file_name id, h) :: es). split_and!.
    - rewrite total_bytes_cons. cbn [foldr snd]. lia.
    - constructor; [|done]. intros Hx. destruct (Hes _ Hx) as (_ & i & Hi & Hil & E). cbn [fst] in E.
      apply data_file_name_inj in E; [|done|done]. subst i.
      apply list_elem_of_fmap in Hil as ([i c] & -> & Hil). cbn [fst] in Hasc.
      pose proof (sorted_from_elem _ _ _ _ Hasc Hil). lia.
    - intros e [->|He]%elem_of_cons.
      + split; [by apply elem_of_map_to_list|]. exists id. split_and!; [done|left|done].
      + destruct (Hes e He) as (? & i & ? & ? & ?). split; [done|]. exists i. split_and!; [done|by right|done]. }
  destruct (Hex fs) as (es & Hsum & Hnd & Hes); [done|apply Hd|].
  etrans; [exact Hsum|]. unfold stored_bytes.
  apply (foldr_submseteq (fun e : Name * nat => blen (bytes_of w (snd e)))); [intros; apply blen_nonneg|].
  apply NoDup_submseteq; [done|]. intros e He. by apply Hes.
Qed.

(** ** A world that holds a map *)

(** Whatever a crash leaves of [w], it is what a crash leaves of an open store that
    stores [m]; all but the last [n] commands of its active file are synced when
    [strict] holds. *)
Definition saved (strict : Prop) (n : nat) (m : gmap (list byte) (list byte)) (w : World) : Prop :=
  exists sh w' base t, engine sh w' (base ++ later t) (cur t) (cmds t) /\
    values (state_of (log_of base t)) = m /\ total_bytes (log_of base t) <= u64_max /\
    crash_below w w' /\ (strict -> synced_but n sh w' t).

Lemma saved_engine strict n m w sh base t :
  engine sh (calm w) (base ++ later t) (cur t) (cmds t) -> values (state_of (log_of base t)) = m ->
  stored_bytes w <= u64_max -> (strict -> synced_but n sh (calm w) t) -> saved strict n m w.
Proof.
  intros He Hm Hb Hs. exists sh, (calm w), base, t. split_and!; try done; [|apply crash_below_calm].
  rewrite log_of_eq. etrans; [eapply disk_bytes, He|exact Hb].
Qed.

(** ** What code keeps of the world *)

Definition world_keeps {X A} (R : World -> Prop) (c : M (X * World) A) : Prop :=
  keeps (fun s => R (snd s)) any c.

Lemma keeps_intro {S A} (P : S -> Prop) (c : M S A) : (forall s, P s -> P (snd (c s))) -> keeps P any c.
Proof. intros H s Hs. split; [by apply H|]. by destruct (fst (c s)). Qed.

Lemma world_keeps_intro {X A} R (c : M (X * World) A) :
  (forall x w, R w -> R (snd (snd (c (x, w))))) -> world_keeps R c.
Proof. intros H. apply keeps_intro. intros [x w]. apply H. Qed.

(** A system call under any schedule. *)
Lemma keeps_call {A} (R : World -> Prop) (Q : A -> Prop) call failed :
  (forall w fs, R w -> R (set_faults w fs)) -> keeps R Q call -> (forall f, keeps R Q (failed f)) ->
  keeps R Q (syscall call failed).
Proof.
  intros HR Hc Hf w Hw. unfold syscall. destruct (faults w) as [|[f|] fs]; [by apply Hc|by apply Hf, HR|by apply Hc, HR].
Qed.

Section world_keeps.
Context (R : World -> Prop).

Lemma world_keeps_on {X A} (c : M World A) : keeps R any c -> world_keeps R (@on_snd X World A c).
Proof.
  intros Hc. apply world_keeps_intro. intros x w Hw. specialize (Hc w Hw). unfold on_snd. cbn [fst snd] in *.
  destruct (c w). apply Hc.
Qed.

Lemma world_keeps_off {X A} (c : M X A) : world_keeps R (on_fst c).
Proof. apply world_keeps_intro. intros x w Hw. unfold on_fst. cbn [fst snd] in *. by destruct (c x). Qed.

Lemma world_keeps_gets {X A} (f : X * World -> A) : world_keeps R (gets f).
Proof. by intros [x w] Hw. Qed.

Lemma world_keeps_outcome {X A} (o : outcome A) : @world_keeps X A R (of_outcome o).
Proof. by apply world_keeps_intro. Qed.

Lemma world_keeps_ret {X A} (a : A) : @world_keeps X A R (ret a).
Proof. by intros [x w] Hw. Qed.

Lemma world_keeps_bind {X A B} (c : M (X * World) A) (k : A -> M (X * World) B) :
  world_keeps R c -> (forall a, world_keeps R (k a)) -> world_keeps R (bind c k).
Proof. intros Hc Hk. eapply keeps_bind; [exact Hc|]. intros a _. apply Hk. Qed.

Lemma world_keeps_catch {X A B} (c : M (X * World) A) (k : A -> M (X * World) B) h :
  world_keeps R c -> (forall a, world_keeps R (k a)) -> (forall e, world_keeps R (h e)) ->
  world_keeps R (mcatch c k h).
Proof. intros Hc Hk Hh. eapply keeps_mcatch; [exact Hc| |done]. intros a _. apply Hk. Qed.

Lemma world_keeps_shared {A} (c : SM A) : world_keeps R c -> world_keeps R (on_shared c).
Proof.
  intros Hc. apply world_keeps_intro. intros h w Hw. specialize (Hc (shared h, w) Hw). unfold on_shared.
  cbn [fst snd] in *. destruct (c (shared h, w)) as [o [sh w']]. apply Hc.
Qed.

Lemma world_keeps_bucket {A} (k : list byte) (body : Index.HashMap -> SM (A * Index.HashMap)) :
  (forall m, world_keeps R (body m)) -> world_keeps R (with_bucket k body).
Proof.
  intros Hb [sh w] Hw. unfold with_bucket. cbn [fst]. destruct (Index.write_access _ _) as [m| |]; [|done|done].
  specialize (Hb m (sh, w) Hw). destruct (body m (sh, w)) as [[[a m']|e|] [sh' w']]; (split; [apply Hb|done]).
Qed.

Lemma world_keeps_lock {A} (c : SM A) : world_keeps R c -> world_keeps R (with_writer_lock c).
Proof.
  intros Hc [sh w] Hw. unfold with_writer_lock. cbn [fst]. destruct (writer_poisoned sh); [done|].
  specialize (Hc (sh, w) Hw). destruct (c (sh, w)) as [[a|e|] [sh' w']]; (split; [apply Hc|done]).
Qed.

Lemma world_keeps_lock_b {A} (c : BM A) : world_keeps R c -> world_keeps R (with_writer_lock_b c).
Proof.
  intros Hc [h w] Hw. unfold with_writer_lock_b. cbn [fst]. destruct (writer_poisoned _); [done|].
  specialize (Hc (h, w) Hw). destruct (c (h, w)) as [[a|e|] [h' w']]; (split; [apply Hc|done]).
Qed.

End world_keeps.

End cut.

Create HintDb world_keeps.
#[export] Hint Resolve world_keeps_on world_keeps_off world_keeps_gets world_keeps_outcome world_keeps_ret
  world_keeps_shared world_keeps_bucket world_keeps_lock world_keeps_lock_b : world_keeps.

(** Follow code that changes the world only by the calls the hints know. *)
Ltac follow :=
  repeat lazymatch goal with
  | |- world_keeps _ (bind _ _) => apply world_keeps_bind; [|intros ?; cbn beta zeta]
  | |- world_keeps _ (mcatch _ _ _) => apply world_keeps_catch; [|intros ?; cbn beta zeta..]
  | |- world_keeps _ (match _ with _ => _ end) => case_match; cbn beta zeta
  | |- world_keeps _ (with_bucket _ _) => apply world_keeps_bucket; intros ?
  | |- world_keeps _ (with_writer_lock _) => apply world_keeps_lock
  | |- world_keeps _ (with_writer_lock_b _) => apply world_keeps_lock_b
  | |- world_keeps _ (on_shared _) => apply world_keeps_shared
  end; auto with world_keeps.

Section pure.
Context `{Crc : Crc32} (R : World -> Prop).

Lemma world_keeps_update_writer f : world_keeps R (update_writer f).
Proof. apply world_keeps_off. Qed.
Lemma world_keeps_readers_update f : world_keeps R (readers_update f).
Proof. apply world_keeps_off. Qed.
Lemma world_keeps_get_writer : world_keeps R get_writer.
Proof. apply world_keeps_gets. Qed.
Lemma world_keeps_get_config : world_keeps R get_config.
Proof. apply world_keeps_gets. Qed.
#[local] Hint Resolve world_keeps_update_writer world_keeps_readers_update world_keeps_get_writer
  world_keeps_get_config : world_keeps.

Lemma world_keeps_add_stale n : world_keeps R (add_stale n).
Proof. unfold add_stale. follow. Qed.
#[local] Hint Resolve world_keeps_add_stale : world_keeps.

Lemma world_keeps_append_index c n : world_keeps R (append_index c n).
Proof. unfold append_index. follow. Qed.

End pure.
#[export] Hint Resolve world_keeps_update_writer world_keeps_readers_update world_keeps_get_writer
  world_keeps_get_config world_keeps_add_stale world_keeps_append_index : world_keeps.

(** ** The first half of a write *)

(** Where a computation leaves the world. *)
Definition left_in {X A} (r : outcome A * (X * World)) : World := snd (snd r).

Section writes.
Context `{Crc : Crc32}.

Lemma append_record_cut c h w :
  exists n, calm (left_in (append_record c (h, w))) =
      append_bytes (calm w) (file (writer (shared h))) (take n (Command.serialize c)) /\
    (faults w = [] -> take n (Command.serialize c) = Command.serialize c).
Proof.
  unfold append_record. unfold bind at 1, on_shared at 1, get_writer, gets. cbn [fst snd].
  set (h' := {| shared := shared h; compaction_tx := compaction_tx h |}).
  set (f := file (writer (shared h))). set (bs := Command.serialize c).
  unfold bind at 1, on_snd at 1. cbn [fst snd]. unfold file_write_all.
  match goal with |- context [syscall ?c ?e w] => destruct (syscall_cases c e w) as [[fs E]|(ft & fs & E)] end.
  - rewrite E. exists (length bs). rewrite firstn_all. split; [|done].
    unfold left_in. match goal with |- calm (?k (h', ?w1)).2.2 = _ =>
      assert (world_keeps (eq w1) k) as Hk by follow; destruct (Hk (h', w1) eq_refl) as [<- _] end.
    done.
  - rewrite E. exists (partial ft). split; [done|]. intros Hc. unfold syscall in E.
    rewrite Hc in E. discriminate E.
Qed.

(** A write that is cut in its first half: the record is not there, or there in part,
    or there, and is the last of the active file. *)
Lemma write_record_cut strict pc h w base t mi (mk : Z -> Command) :
  let w' := left_in (write_record mk (h, w)) in
  phase pc (shared h) (calm w) base t mi -> readers_good (shared h) (calm w) (cur t) ->
  room 1 (shared h) -> (forall ts, is_u64 ts -> good_cmd (mk ts)) ->
  stored_bytes w' + record_max <= u64_max ->
  (strict -> synced_but 0 (shared h) (calm w) t) ->
  exists ts, is_u64 ts /\ saved strict 1 (values (state_of (log_of base (tail_write t (mk ts))))) w'.
Proof.
  intros w' Hph Hgood Hroom Hmk Hb Hs.
  destruct (clock_step pc h (calm w) base t mi Hph Hgood) as (tm & tks & Hnow & Hts & [Hph1 _ _ _ _]).
  set (w1 := set_clock (calm w) tm tks) in *. pose proof (phase_lagging _ _ _ _ _ _ Hph1) as Hl1.
  set (c := mk (as_secs tm)). pose proof (Hmk _ Hts) as Hc. fold c in Hc.
  destruct (append_record_lagging h w1 base t mi c Hl1 Hroom Hc) as (h2 & w2 & Hrun & [[iv He] _ _] & _ & Hfile & Hdur).
  pose proof Hl1 as [[iv1 He1] _ _]. pose proof (e_lock _ _ _ _ _ He1) as Hlock. cbn [set_index writer_poisoned] in Hlock.
  destruct (append_record_cut c h w1) as (n1 & Hw2 & Hall). rewrite Hrun in Hw2. cbn [left_in snd] in Hw2.
  rewrite Hall in Hw2 by done. change (calm w1) with w1 in Hw2.
  assert (exists n, calm w' = append_bytes w1 (file (writer (shared h))) (take n (Command.serialize c))) as [n Hw'].
  { apply unix_now_calm in Hnow. unfold w', write_record, bind at 1, on_snd at 1. cbn [fst snd]. rewrite Hnow.
    fold w1. fold c. unfold with_writer_lock_b. cbn [fst]. rewrite Hlock.
    destruct (append_record_cut c h (set_faults w1 (faults w))) as (n & Hn & _). exists n.
    etrans; [|exact Hn]. by destruct (append_record c (h, set_faults w1 (faults w))) as [[a|e|] [h3 w3]]. }
  exists (as_secs tm). split; [done|]. exists (set_index (shared h2) iv), w2, base, (tail_write t c).
  split_and!; try done.
  - rewrite log_of_eq, total_bytes_app, total_bytes_one. cbn [tail_write later cur cmds].
    rewrite enc_app, enc_one, blen_app. pose proof (serialize_max c Hc).
    pose proof (disk_append _ _ _ _ _ _ (take n (Command.serialize c)) (e_disk _ _ _ _ _ He1) (e_file _ _ _ _ _ He1)) as Hd.
    cbn [set_index writer] in Hd. rewrite <- Hw' in Hd. apply disk_bytes in Hd.
    rewrite total_bytes_app, total_bytes_one in Hd. change (stored_bytes (calm w')) with (stored_bytes w') in Hd. lia.
  - apply (crash_below_trans _ (calm w')); [apply crash_below_calm|]. rewrite Hw'.
    eapply crash_below_trans; [apply crash_below_append|]. rewrite <- Hw2. by apply crash_below_same.
  - intros Hst. destruct (Hs Hst) as (pre & post & Hcm & Hn & Hd). exists pre, (post ++ [c]).
    assert (post = []) as -> by (destruct post; [done|cbn in Hn; lia]). rewrite app_nil_r in Hcm. subst pre.
    split_and!; [done|done|]. cbn [set_index writer]. rewrite Hfile, Hdur. exact Hd.
Qed.

(** ** The second half of a write *)

(** The file under [name], with at least [d] bytes on stable storage. *)
Definition kept (name : Name) (f : File) (d : Z) (w : World) : Prop :=
  dir w !! name = Some f /\ d <= durable_of w f /\ (f < next_inode w)%nat /\ inodes_ok w.

Lemma kept_faults name f d w fs : kept name f d w -> kept name f d (set_faults w fs).
Proof. done. Qed.

Lemma kept_sync name f d h : keeps (kept name f d) any (sync_all h).
Proof.
  apply keeps_call; [apply kept_faults| |intros ft; apply keeps_throw]. intros w (Hn & Hd & Hlt & Hi).
  split; [|done]. cbn [snd]. change (kept name f d (synced w h)). split_and!; try done.
  - unfold synced. rewrite durable_of_set_inode. case_decide; [|done]. subst. cbn. etrans; [exact Hd|]. apply Hi.
  - by apply (sw_inodes _ _ _ (side_write_synced h w)).
Qed.

Lemma kept_open_create name f d n : keeps (kept name f d) any (open_create n).
Proof.
  apply keeps_call; [apply kept_faults| |intros ft; apply keeps_throw]. intros w (Hn & Hd & Hlt & Hi).
  case_decide; [done|]. destruct (dir w !! n) eqn:E; [done|]. split; [|done]. cbn [snd]. split_and!.
  - cbn. rewrite lookup_insert_ne; [done|]. intros ->. by rewrite Hn in E.
  - rewrite durable_of_new_file by lia. done.
  - cbn. lia.
  - by apply inodes_ok_new_file.
Qed.

Lemma kept_open_read name f d n : keeps (kept name f d) any (open_read n).
Proof.
  apply keeps_call; [apply kept_faults| |intros ft; apply keeps_throw]. intros w Hw.
  case_decide; [done|]. by destruct (dir w !! n).
Qed.

Lemma kept_now name f d : keeps (kept name f d) any unix_now.
Proof. intros w Hw. unfold unix_now. destruct (ticks w); destruct (_ <? 0); done. Qed.
#[local] Hint Resolve kept_sync kept_open_create kept_open_read kept_now : world_keeps.

Lemma world_keeps_sync name f d : world_keeps (kept name f d) sync.
Proof. unfold sync. follow. Qed.
Lemma world_keeps_rotate_to name f d n : world_keeps (kept name f d) (rotate_to n).
Proof. unfold rotate_to. pose proof (world_keeps_sync name f d). follow. Qed.
Lemma world_keeps_post_write name f d : world_keeps (kept name f d) post_write_ops.
Proof.
  unfold post_write_ops, compaction_trigger, handle_policy, try_send, rotate_if_full.
  pose proof (world_keeps_sync name f d). pose proof (world_keeps_rotate_to name f d). follow.
Qed.

(** The log is that of [t], perhaps with a new active file; of the file that was
    active, [d] bytes are on stable storage. *)
Lemma recorded_saved strict n sh w base t f d :
  recorded sh w (base ++ later t) (cur t) (cmds t) -> kept (data_file_name (cur t)) f d w ->
  stored_bytes w <= u64_max ->
  (strict -> exists pre post, cmds t = pre ++ post /\ (length post <= n)%nat /\ blen (enc pre) <= d) ->
  saved strict n (values (state_of (log_of base t))) w.
Proof.
  intros Hrec (Hn & Hd & _) Hb Hs.
  destruct (recorded_engine _ _ _ _ _ Hrec) as (sh' & front' & cur' & cmds' & He' & Hlog).
  pose proof (proj1 (same_log_state _ _ Hlog)) as Hst. rewrite log_of_eq, <- Hst.
  apply same_log_cases in Hlog as [(-> & -> & ->)|[-> ->]].
  - rewrite <- log_of_eq. eapply saved_engine; [exact He'|done|done|]. intros Hst'.
    destruct (Hs Hst') as (pre & post & Hc & Hn1 & Hd1). exists pre, post. split_and!; [done|done|].
    pose proof (e_file _ _ _ _ _ He') as Hf'. cbn [calm set_faults dir] in Hf'. rewrite Hn in Hf'.
    injection Hf' as <-. change (durable_of (calm w) f) with (durable_of w f). lia.
  - apply (saved_engine strict n _ w sh' base (tail_rotate t cur')); try done.
    + cbn [tail_rotate later cur cmds]. by rewrite app_assoc.
    + by rewrite log_of_eq; cbn [tail_rotate later cur cmds]; rewrite app_assoc.
    + intros _. exists [], []. split_and!; [done|cbn; lia|]. apply (e_inodes _ _ _ _ _ He').
Qed.

Lemma engine_kept sh w front cur cmds :
  engine sh (calm w) front cur cmds ->
  kept (data_file_name cur) (file (writer sh)) (durable_of (calm w) (file (writer sh))) w.
Proof.
  intros He. split_and!; [apply (e_file _ _ _ _ _ He)|done| |apply (e_inodes _ _ _ _ _ He)].
  apply (engine_file_lt _ _ _ _ _ He).
Qed.

(** A write that is cut in its second half. *)
Lemma post_write_cut strict n h w base t mi :
  let w' := left_in (with_writer_lock_b post_write_ops (h, w)) in
  lagging (shared h) (calm w) base t mi -> room 1 (shared h) -> stored_bytes w' <= u64_max ->
  (strict -> synced_but n (shared h) (calm w) t) ->
  saved strict n (values (state_of (log_of base t))) w'.
Proof.
  intros w' [[iv He] Hi Hlen] (_ & _ & Hr) Hb Hs.
  destruct (post_write_ops_faulty (with_index h iv) w (base ++ later t) (cur t) (cmds t) He)
    as (o & h1 & w1 & Hrun & Ho & Hrec); [cbn; lia|].
  destruct (blind_h_run _ _ _ _ _ _ _ blind_post_write_ops Hrun) as (h2 & Hrun2 & _ & _).
  assert (w' = w1) as E.
  { unfold w', with_writer_lock_b. cbn [fst].
    pose proof (e_lock _ _ _ _ _ He) as Hl. cbn [set_index writer_poisoned] in Hl. rewrite Hl, Hrun2.
    by destruct Ho as [->|[k ->]]. }
  clearbody w'. subst w1. eapply recorded_saved; [exact Hrec| |done|exact Hs].
  pose proof (world_keeps_post_write _ _ _ (h, w) (engine_kept _ _ _ _ _ He)) as [Hk _].
  by rewrite Hrun2 in Hk.
Qed.

End writes.
