(* ===== verification/CutOpen.v ===== *)
(** * Opening that is cut short

    The process can stop, or system calls can fail, while [open] is recovering a
    directory. Recovery only removes what it does not need (outputs of unfinished
    merges, hint files) and cuts a torn record off, so that the next [open] finds
    the same map, however often it is interrupted. *)

From Stdlib Require Import ZArith Lia Strings.Byte.
From stdpp Require Import base numbers list strings gmap.
From S2P Require Import Prelude Bytes Crc CommandFormat HintFormat Streams Reader KeyDir Text Names Config FileSystem Lock BTree Engine Load Merge MergeSteps System Log Inv EngineProofs Replay Recovery Durability Faults MergeFiles MergeState MergeCopy MergePublish MergeProofs Interference Phases PhaseSteps SystemProofs SystemTheorems Keeps Cut.
Import Command(Command, Set_, Rm).
Import RecordReader.

Local Open Scope Z_scope.

(** ** Readers over a stream that fails *)

(** No system call fails with the error that [read_exact] reports at the end of a
    file: the operating system has no such error. *)
Definition no_eof (fs : list (option Fault)) : Prop :=
  Forall (fun f => match f with Some f => kind f <> UnexpectedEof | None => True end) fs.

(** [rr] reads what [rr0] reads, up to a point where it fails. *)
Record failing (rr rr0 : RecordReader) : Prop := {
  f_position : position rr = position rr0;
  f_len : file_len rr = file_len rr0;
  f_kind : exists k, fault (reader rr) = Some k /\ k <> UnexpectedEof;
  f_avail : exists n, avail (reader rr) = take n (avail (reader rr0))
}.

Lemma read_exact_failing n k (s s0 : Stream) m :
  fault s = Some k -> avail s = take m (avail s0) ->
  (exists s', read_exact n s = (Err (Io k), s')) \/
  exists s' s0' bs, read_exact n s = (Ok bs, s') /\ read_exact n s0 = (Ok bs, s0') /\
    fault s' = Some k /\ exists m', avail s' = take m' (avail s0').
Proof.
  intros Hk Ha. unfold read_exact. destruct (Z.leb_spec n (blen (avail s))) as [Hle|Hgt].
  - right. assert (n <= blen (avail s0)) as Hle0.
    { rewrite Ha in Hle. unfold blen in *. rewrite length_take in Hle. lia. }
    rewrite (proj2 (Z.leb_le _ _) Hle0). eexists _, _, _. split; [done|]. split; [|split; [done|]].
    + do 2 f_equal. rewrite Ha. unfold ztake. rewrite take_take. f_equal. rewrite Ha in Hle.
      unfold blen in Hle. rewrite length_take in Hle. lia.
    + cbn [avail]. rewrite Ha. unfold zdrop. exists (m - Z.to_nat n)%nat. by rewrite skipn_firstn_comm.
  - left. rewrite Hk. by eexists.
Qed.

(** A step of such a reader fails, or does what the other does. *)
Lemma next_record_failing rr rr0 o rr' o0 rr0' :
  failing rr rr0 -> next_record rr = (o, rr') -> next_record rr0 = (o0, rr0') ->
  (exists e, o = Err e) \/
  (o = o0 /\ forall p bs, o0 = Ok (Record_ p bs) -> failing rr' rr0').
Proof.
  intros [F1 F2 (k & Hk & Hne) (m & Ha)] H H0.
  unfold next_record, bind at 1 2, gets, mcatch at 1, on_reader at 1 in H. rewrite F1, F2 in H.
  unfold next_record, bind at 1 2, gets, mcatch at 1, on_reader at 1 in H0.
  destruct (read_exact_failing HEADER_LEN k _ _ m Hk Ha) as [(s' & E)|(s' & s0' & bs & E & E0 & Hk' & m' & Ha')].
  { rewrite E in H. rewrite decide_False in H by congruence. injection H as <- <-. left. by eexists. }
  rewrite E in H. rewrite E0 in H0. unfold bind at 1, of_outcome at 1 in H. unfold bind at 1, of_outcome at 1 in H0.
  destruct (u64_sub _ _) as [r|e|]; [|left; injection H as <- <-; by eexists|right; injection H as <- <-; by injection H0 as <- <-].
  unfold bind at 1, of_outcome at 1 in H. unfold bind at 1, of_outcome at 1 in H0.
  destruct (u64_sub _ _) as [r'|e|]; [|left; injection H as <- <-; by eexists|right; injection H as <- <-; by injection H0 as <- <-].
  destruct (r' <? _); [right; injection H as <- <-; by injection H0 as <- <-|].
  unfold mcatch, on_reader in H, H0. cbn [reader] in H, H0.
  destruct (read_exact_failing (Command.body_len bs) k _ _ m' Hk' Ha') as [(s2 & E2)|(s2 & s02 & bs2 & E2 & E02 & Hk2 & m2 & Ha2)].
  { rewrite E2 in H. rewrite decide_False in H by congruence. injection H as <- <-. left. by eexists. }
  rewrite E2 in H. rewrite E02 in H0. unfold bind, modify, ret in H, H0. cbn in H, H0.
  injection H as <- <-. injection H0 as <- <-. right. split; [done|]. intros _ _ _.
  split; cbn [position file_len reader]; [done|done|by exists k|by exists m2].
Qed.

(** ** Calls that report what they did *)

(** When [c] returns normally it did what it does without faults. *)
Definition truthful {A} (c : M World A) : Prop := forall w a w',
  c w = (Ok a, w') -> c (calm w) = (Ok a, calm w').

Lemma truthful_bind {A B} (c : M World A) (k : A -> M World B) :
  truthful c -> (forall a, truthful (k a)) -> truthful (bind c k).
Proof.
  intros Hc Hk w b w' Hrun. unfold bind in *. destruct (c w) as [[a|e|] w1] eqn:E; try done.
  rewrite (Hc _ _ _ E). by apply Hk.
Qed.

Lemma truthful_ret {A} (a : A) : truthful (ret a).
Proof. by intros w a' w' [= <- <-]. Qed.

Lemma truthful_call {A} (call : M World A) :
  (forall w fs, call (set_faults w fs) = (fst (call w), set_faults (snd (call w)) fs)) ->
  truthful (syscall call fails).
Proof.
  intros Hc w a w' Hrun. rewrite syscall_calm by done.
  destruct (syscall_cases call fails w) as [[fs E]|(ft & fs & E)]; rewrite E in Hrun; [|done].
  rewrite Hc in Hrun. injection Hrun as Ho <-. unfold calm at 1. rewrite Hc, Ho. done.
Qed.

Lemma truthful_scan_entry name found : truthful (Open.scan_entry name found).
Proof.
  unfold Open.scan_entry. apply truthful_bind; [by apply truthful_call|]. intros _.
  apply truthful_bind; [by intros w a w' [= <- <-]|]. intros f. destruct (negb f); [apply truthful_ret|].
  destruct (negb _); [apply truthful_ret|].
  assert (truthful (remove_file name)) as Hrm
    by (apply truthful_call; intros w fs; cbn [set_faults dir]; by destruct (dir w !! name)).
  destruct (get_file_id name) as [id|].
  - apply truthful_bind; [|intros h; apply truthful_ret]. apply truthful_call. intros w fs.
    cbn [set_faults others dir]. case_decide; [done|]. by destruct (dir w !! name).
  - apply truthful_bind; [|intros _; apply truthful_ret]. destruct (ends_with _ name); [done|].
    destruct (get_hint_id name) as [id|]; [|apply truthful_ret].
    apply truthful_bind; [by apply truthful_call|]. intros [|]; [apply truthful_ret|done].
Qed.

Lemma truthful_scan names found : truthful (Open.scan_dir names found).
Proof.
  revert found. induction names as [|n names IH]; intros found; cbn [Open.scan_dir]; [apply truthful_ret|].
  apply truthful_bind; [apply truthful_scan_entry|]. intros f. apply IH.
Qed.

Lemma truthful_read_dir order : truthful (read_dir order).
Proof. by apply truthful_call. Qed.

Section cut.
Context `{Crc : Crc32}.

(** ** What recovery keeps *)

Section settled.
Context (front : list (Z * list Command)) (cur : Z) (cmds : list Command) (h : File).

(** A directory that a crash left: the log, perhaps with a torn record at the end of
    the active file [h], all of it on stable storage. *)
Record settled (w : World) : Prop := {
  st_disk : exists tail, disk w front cur cmds tail /\ (tail = [] \/ torn tail);
  st_active : dir w !! data_file_name cur = Some h;
  st_durable : forall f, durable_of w f = blen (bytes_of w f);
  st_marker : marker_ok w;
  st_clock : clock_ok 0 w;
  st_no_eof : no_eof (faults w)
}.

Lemma settled_inodes w : settled w -> inodes_ok w.
Proof. intros Hs f. rewrite (st_durable _ Hs). split; [apply blen_nonneg|done]. Qed.

(** Files may be forgotten, if the log does not need them. *)
Lemma settled_step w w' :
  settled w -> disk_step w w' ->
  (forall f, durable_of w' f = blen (bytes_of w' f)) -> marker_ok w' -> clock_ok 0 w' -> no_eof (faults w') ->
  settled w'.
Proof.
  intros [(tail & Hd & Ht) S2 S3 S4 S5 S6] Hst Hdu Hm Hc Hf. split; try done.
  - exists tail. split; [|done]. by eapply disk_step_disk.
  - rewrite (ds_data _ _ Hst); [done|]. apply (d_cur _ _ _ _ _ Hd).
Qed.

Lemma settled_same w w' :
  settled w -> dir w' = dir w -> others w' = others w -> inodes w' = inodes w -> next_inode w' = next_inode w ->
  clock_ok 0 w' -> no_eof (faults w') -> settled w'.
Proof.
  intros Hs E1 E2 E3 E4 Hc Hf. pose proof (st_disk _ Hs) as (tail & Hd & _).
  assert (forall f, bytes_of w' f = bytes_of w f /\ durable_of w' f = durable_of w f) as Hb.
  { intros f. unfold bytes_of, durable_of. by rewrite E3. }
  eapply settled_step; [exact Hs|..]; try done.
  - apply disk_step_same; try done; [apply Hd| |]; intros f; destruct (Hb f); [done|lia].
  - intros f. destruct (Hb f) as [-> ->]. apply Hs.
  - eapply marker_ok_step; [apply Hs|done|]. intros f Hf'. rewrite E1. by destruct (Hb f) as [-> ->].
Qed.

(** A system call, whose failures are not ends of files. *)
Lemma settled_call {A} (Q : A -> Prop) call failed :
  keeps settled Q call -> (forall f, kind f <> UnexpectedEof -> keeps settled Q (failed f)) ->
  keeps settled Q (syscall call failed).
Proof.
  intros Hc Hf w Hw. unfold syscall. pose proof (st_no_eof _ Hw) as Hn. destruct (faults w) as [|x fs] eqn:E; [by apply Hc|].
  apply Forall_cons in Hn as [Hx Hfs]. assert (settled (set_faults w fs)) as Hw'.
  { eapply settled_same; [exact Hw|done..|apply Hw|done]. }
  destruct x as [f|]; [by apply Hf|by apply Hc].
Qed.

(** Calls that leave the directory. *)
Lemma settled_reads {A} (call : M World A) failed :
  (forall w, snd (call w) = w) -> (forall f w, snd (failed f w) = w) -> keeps settled any (syscall call failed).
Proof.
  intros Hc Hf. apply settled_call; [|intros f _]; intros w Hw; rewrite ?Hc, ?Hf; (split; [done|by case_match]).
Qed.

Lemma settled_remove name :
  get_file_id name = None -> name <> LockFile.LOCK_FILE_NAME -> keeps settled any (remove_file name).
Proof.
  intros Hn Hl. apply settled_call; [|intros f _; apply keeps_throw]. intros w Hw.
  destruct (dir w !! name) as [f|] eqn:E; [|done]. split; [|done]. cbn [snd].
  pose proof (st_disk _ Hw) as (tail & Hd & _). pose proof (d_dir _ _ _ _ _ Hd) as [Dl Df].
  assert (forall n k, delete name (dir w) !! n = Some k -> dir w !! n = Some k) as Hsub
    by by intros n k [_ ?]%lookup_delete_Some.
  eapply settled_step; [exact Hw|..]; try apply Hw.
  - split; cbn [dir set_dir others]; try done.
    + intros n k Hk. left. by apply Hsub.
    + intros id Hid. apply lookup_delete_ne. intros ->. by rewrite get_file_id_data in Hn.
    + split; cbn [dir set_dir next_inode]; [|by intros n k Hk%Hsub; eapply Df].
      intros n1 n2 k H1%Hsub H2%Hsub. by eapply Dl.
  - eapply marker_ok_step; [apply Hw|done|]. intros k Hk. cbn [dir set_dir]. by rewrite lookup_delete_ne.
Qed.

Lemma settled_open_create name :
  (forall w, settled w -> is_Some (dir w !! name)) -> keeps settled any (open_create name).
Proof.
  intros Hn. apply settled_call; [|intros f _; apply keeps_throw]. intros w Hw. destruct (Hn w Hw) as [k Hk].
  case_decide; [done|]. by rewrite Hk.
Qed.

Lemma settled_now : keeps settled any unix_now.
Proof.
  intros w Hw. destruct (unix_now_ok 0 w (st_clock _ Hw)) as (t & ts & -> & Ht & Hc). split; [|done]. cbn [snd].
  eapply settled_same; [exact Hw|done..| |apply Hw]. eapply clock_ok_weaken, Hc. lia.
Qed.

(** Cutting the torn record off. *)
Lemma settled_cut : keeps settled any (set_len h (blen (enc cmds))).
Proof.
  apply settled_call; [|intros f _; apply keeps_throw]. intros w Hw. split; [|done]. cbn [snd].
  pose proof (st_disk _ Hw) as (tail & Hd & _). pose proof (d_active _ _ _ _ _ Hd) as (h' & Hh' & Hb).
  rewrite (st_active _ Hw) in Hh'. injection Hh' as <-. rewrite Hb.
  replace (ztake (blen (enc cmds)) (enc cmds ++ tail) ++ _) with (enc cmds).
  2:{ rewrite ztake_app, blen_app by done. pose proof (blen_nonneg tail).
      replace (Z.to_nat (blen (enc cmds) - (blen (enc cmds) + blen tail))) with 0%nat by lia. by rewrite app_nil_r. }
  set (i := {| content := enc cmds; durable := _ |}).
  assert (durable i = blen (enc cmds)) as Hi.
  { cbn. rewrite (st_durable _ Hw), Hb, blen_app. pose proof (blen_nonneg tail). lia. }
  pose proof (disk_set_active w front cur cmds tail h i [] Hd (st_active _ Hw)) as Hd'.
  split; try apply Hw.
  - exists []. split; [apply Hd'; by rewrite app_nil_r|by left].
  - intros f. rewrite durable_of_set_inode, bytes_of_set_inode. case_decide; [done|apply Hw].
  - eapply marker_ok_step; [apply Hw|done|]. intros k Hk. rewrite durable_of_set_inode, bytes_of_set_inode.
    assert (h <> k) as Hne; [|by rewrite !decide_False by done]. intros <-.
    pose proof (d_links _ (d_dir _ _ _ _ _ Hd) _ _ _ Hk (st_active _ Hw)) as E.
    apply (data_not_neutral cur); [apply (d_cur _ _ _ _ _ Hd)|]. rewrite <- E. apply lock_neutral.
Qed.

(** ** Replaying the log *)

(** The loader's writer is on the active file; the world satisfies [R]. *)
Definition loader_at (R : World -> Prop) (s : Loader.Loader * World) : Prop :=
  current_file_id (Loader.writer (fst s)) = cur /\ file (Loader.writer (fst s)) = h /\ R (snd s).

Section loader.
Context (R : World -> Prop).

Lemma loader_upd f :
  (forall l, current_file_id (Loader.writer (f l)) = current_file_id (Loader.writer l) /\
             file (Loader.writer (f l)) = file (Loader.writer l)) ->
  keeps (loader_at R) any (Loader.upd f).
Proof.
  intros Hf [l w] (H1 & H2 & H3). split; [|done]. cbn [fst snd] in *. destruct (Hf l) as [E1 E2].
  split_and!; cbn; congruence || done.
Qed.

Lemma loader_call {A} (c : M World A) : keeps R any c -> keeps (loader_at R) any (on_snd c).
Proof.
  intros Hc [l w] (H1 & H2 & H3). cbn [fst snd] in *. destruct (Hc w H3) as [H _]. unfold on_snd. cbn [fst snd].
  destruct (c w) as [o w']. split; [by split_and!|by destruct o].
Qed.

Lemma loader_hint_loop fuel id rr : keeps (loader_at R) any (Loader.hint_loop fuel id rr).
Proof.
  revert rr. induction fuel as [|fuel IH]; intros rr; cbn [Loader.hint_loop]; [apply keeps_panic|].
  destruct (next_record rr) as [o rr']. eapply keeps_bind; [apply keeps_outcome|]. intros r _.
  destruct r as [p bs| |p]; [|by apply keeps_ret|by apply keeps_ret].
  destruct (IndexValue.deserialize bs id) as [[[k v] n]|e|]; [|by apply keeps_ret|apply keeps_panic].
  eapply keeps_bind; [by apply loader_upd|]. intros _ _. apply IH.
Qed.

Lemma loader_record id p bs : keeps (loader_at R) any (Loader.replay_record id p bs).
Proof.
  unfold Loader.replay_record. eapply keeps_bind; [apply keeps_outcome|]. intros d _.
  eapply (keeps_bind _ any).
  - destruct (fst d); cbn zeta; [by apply loader_upd|].
    eapply keeps_bind; [apply keeps_gets|]. intros l _. eapply keeps_bind; [apply keeps_outcome|]. intros st _.
    eapply keeps_bind; [by apply loader_upd|]. intros _ _. by apply loader_upd.
  - intros _ _. eapply keeps_bind; [apply keeps_gets|]. intros l _. eapply keeps_bind; [apply keeps_outcome|].
    intros o _. by apply loader_upd.
Qed.

(** A file that is not the active one is only read. *)
Lemma loader_data_other fuel id rr : id <> cur -> keeps (loader_at R) any (Loader.data_loop fuel id rr).
Proof.
  intros Hid. revert rr. induction fuel as [|fuel IH]; intros rr; cbn [Loader.data_loop]; [apply keeps_panic|].
  destruct (next_record rr) as [o rr']. eapply keeps_bind; [apply keeps_outcome|]. intros r _.
  destruct r as [p bs| |p]; [|by apply keeps_ret|].
  - eapply keeps_bind; [apply loader_record|]. intros _ _. apply IH.
  - eapply keeps_bind; [apply keeps_gets|]. intros l ([l' w'] & (Hc & _) & <-). cbn [fst] in *.
    rewrite Hc, (proj2 (Z.eqb_neq _ _)) by done. apply keeps_throw.
Qed.
End loader.

(** The active file is read, and a torn record at its end is cut off. *)
Lemma loader_data_active fuel rr rr0 pre post tail b l w :
  loader_at settled (l, w) -> tail = [] \/ torn tail ->
  cmds = pre ++ post -> Forall good_cmd cmds -> rr0 = at_pos (enc cmds ++ tail) (blen (enc pre)) b ->
  rr = rr0 \/ failing rr rr0 ->
  loader_at settled (snd (Loader.data_loop fuel cur rr (l, w))).
Proof.
  intros Hl Ht. revert rr rr0 pre post b l Hl. induction fuel as [|fuel IH]; intros rr rr0 pre post b l Hl Hc Hg Hrr0 Hrr; [done|].
  cbn [Loader.data_loop]. destruct (next_record rr) as [o rr'] eqn:En. destruct (next_record rr0) as [o0 rr0'] eqn:En0.
  rewrite bind_outcome.
  assert ((exists e, o = Err e) \/ (o = o0 /\ forall p bs, o0 = Ok (Record_ p bs) -> rr' = rr0' \/ failing rr' rr0')) as [[e ->]|[-> Hnext]].
  { destruct Hrr as [->|Hf]; [right; rewrite En in En0; injection En0 as -> ->; split; [done|by left]|].
    destruct (next_record_failing _ _ _ _ _ _ Hf En En0) as [?|[-> Hx]]; [by left|right]. split; [done|]. intros p bs E. right. by eapply Hx. }
  { done. }
  clear En Hrr rr. subst rr0. assert (0 <= blen (enc pre) <= blen (enc cmds ++ tail)) as Hp.
  { rewrite Hc, enc_app, !blen_app. pose proof (blen_nonneg (enc pre)). pose proof (blen_nonneg (enc post)).
    pose proof (blen_nonneg tail). lia. }
  assert (zdrop (blen (enc pre)) (enc cmds ++ tail) = enc post ++ tail) as Hz.
  { rewrite Hc, enc_app, <- app_assoc. by apply zdrop_app. }
  destruct post as [|c post].
  - rewrite app_nil_r in Hc. subst pre. change (enc [] ++ tail) with tail in Hz. destruct Ht as [->|Ht].
    + rewrite app_nil_r in *. rewrite next_record_clean in En0. by injection En0 as <- <-.
    + rewrite <- Hz in Ht. destruct (next_record_torn _ b _ Hp Ht) as [s' E]. rewrite E in En0. injection En0 as <- <-.
      destruct Hl as (H1 & H2 & H3). cbn [fst snd] in *. unfold bind at 1, gets. cbn [fst]. rewrite H1, Z.eqb_refl, H2.
      destruct (settled_cut w H3) as [Hs _]. unfold bind at 1, on_snd. cbn [fst snd].
      destruct (set_len h (blen (enc cmds)) w) as [[[]|e|] w1]; by split_and!.
  - rewrite enc_cons, <- app_assoc in Hz.
    assert (good_cmd c) as Hgc by (rewrite Hc in Hg; by apply Forall_app in Hg as [_ [? _]%Forall_cons]).
    destruct (next_record_framed _ b _ _ _ Hp (framed_command c (proj1 Hgc)) Hz) as (E & _ & _).
    rewrite E in En0. injection En0 as <- <-.
    destruct Hl as (H1 & H2 & H3). destruct (loader_record (eq w) cur (blen (enc pre)) (Command.serialize c) (l, w)) as [(R1 & R2 & R3) _];
      [by split_and!|]. unfold bind.
    destruct (Loader.replay_record cur (blen (enc pre)) (Command.serialize c) (l, w)) as [[[]|e|] [l1 w1]];
      cbn [fst snd] in *; subst w1; [|by split_and!|by split_and!].
    eapply (IH rr' _ (pre ++ [c]) post (Command.serialize c) l1).
    + by split_and!.
    + by rewrite <- app_assoc.
    + done.
    + by rewrite enc_app, enc_one, blen_app.
    + by eapply Hnext.
Qed.

Lemma settled_exists name : keeps settled any (exists_ name).
Proof. by apply settled_reads. Qed.
Lemma settled_open_read name : keeps settled any (open_read name).
Proof. apply settled_reads; [|done]. intros w. case_decide; [done|]. by destruct (dir w !! name). Qed.
Lemma settled_metadata f : keeps settled any (metadata_len f).
Proof. by apply settled_reads. Qed.
Lemma settled_stream f : keeps settled any (file_stream f).
Proof. by apply settled_reads. Qed.

Lemma hint_not_lock id : is_u64 id -> hint_file_name id <> LockFile.LOCK_FILE_NAME.
Proof. intros Hid E. apply (hint_not_neutral id Hid). rewrite E. apply lock_neutral. Qed.

(** A hint file is read, and deleted when it is damaged. *)
Lemma loader_hint id : is_u64 id -> keeps (loader_at settled) any (Loader.replay_hint id).
Proof.
  intros Hid. unfold Loader.replay_hint. eapply keeps_bind; [apply keeps_gets|]. intros l _. cbn zeta.
  eapply (keeps_bind _ any).
  { destruct (negb _); [apply loader_call, settled_exists|by apply keeps_ret]. }
  intros [|] _; [|by apply keeps_ret].
  eapply keeps_bind; [apply loader_call, settled_open_read|]. intros f _.
  eapply keeps_bind; [apply loader_call, settled_metadata|]. intros len _.
  eapply keeps_bind; [apply loader_call, settled_stream|]. intros st _.
  eapply keeps_bind; [apply loader_hint_loop|]. intros [|] _; [by apply keeps_ret|].
  eapply keeps_bind; [|intros _ _; by apply keeps_ret].
  apply loader_call, settled_remove; [apply get_file_id_hint|by apply hint_not_lock].
Qed.

(** The stream over the active file. *)
Lemma stream_cases f w s w1 :
  no_eof (faults w) -> file_stream f w = (Ok s, w1) ->
  calm w1 = calm w /\ no_eof (faults w1) /\
  (s = cursor_over (bytes_of w f) \/
   exists k n, s = {| avail := take n (bytes_of w f); fault := Some k |} /\ k <> UnexpectedEof).
Proof.
  intros Hn. unfold file_stream, syscall. destruct (faults w) as [|[ft|] fs] eqn:E.
  - intros [= <- <-]. rewrite E. split_and!; [done|done|by left].
  - apply Forall_cons in Hn as [Hk Hn]. intros [= <- <-]. split_and!; [done|done|right]. by eexists _, _.
  - apply Forall_cons in Hn as [_ Hn]. intros [= <- <-]. split_and!; [done|done|by left].
Qed.

Lemma metadata_cases f w n w1 :
  no_eof (faults w) -> metadata_len f w = (Ok n, w1) ->
  calm w1 = calm w /\ no_eof (faults w1) /\ n = blen (bytes_of w f).
Proof.
  intros Hn. unfold metadata_len, syscall. destruct (faults w) as [|[ft|] fs] eqn:E; [..|].
  - intros [= <- <-]. by rewrite E.
  - done.
  - apply Forall_cons in Hn as [_ Hn]. by intros [= <- <-].
Qed.

Lemma settled_calm w w' : settled w -> calm w' = calm w -> no_eof (faults w') -> settled w'.
Proof.
  intros Hs E Hn. eapply settled_same; [exact Hs|..]; try done; try by apply (f_equal dir) in E.
  - by apply (f_equal others) in E.
  - by apply (f_equal inodes) in E.
  - by apply (f_equal next_inode) in E.
  - change (clock_ok 0 (calm w')). rewrite E. apply Hs.
Qed.

Lemma loader_file id f :
  is_u64 id -> (id = cur -> f = h) -> keeps (loader_at settled) any (Loader.replay_file id f).
Proof.
  intros Hid Hf. unfold Loader.replay_file. eapply keeps_bind; [by apply loader_hint|].
  intros [|] _; [by apply keeps_ret|]. destruct (decide (id = cur)) as [->|Hne].
  2:{ eapply keeps_bind; [apply loader_call, settled_stream|]. intros st _.
      eapply keeps_bind; [apply loader_call, settled_metadata|]. intros len _.
      eapply keeps_bind; [by apply loader_upd|]. intros _ _. by apply loader_data_other. }
  rewrite (Hf eq_refl). clear Hf f. apply keeps_intro. intros [l w] (H1 & H2 & H3). cbn [fst snd] in *.
  destruct (settled_stream h w H3) as [Hs1 _]. unfold bind at 1, on_snd at 1. cbn [fst snd].
  destruct (file_stream h w) as [[st|e|] w1] eqn:E1; cbn [snd] in *; [|by split_and!|by split_and!].
  destruct (stream_cases h w st w1 (st_no_eof _ H3) E1) as (Ec1 & Hn1 & Hst).
  destruct (settled_metadata h w1 Hs1) as [Hs2 _]. unfold bind at 1, on_snd at 1. cbn [fst snd].
  destruct (metadata_len h w1) as [[len|e|] w2] eqn:E2; cbn [snd] in *; [|by split_and!|by split_and!].
  destruct (metadata_cases h w1 len w2 Hn1 E2) as (Ec2 & Hn2 & ->).
  change (bytes_of w1 h) with (bytes_of (calm w1) h). rewrite Ec1. change (bytes_of (calm w) h) with (bytes_of w h).
  pose proof (st_disk _ H3) as (tail & Hd & Ht). pose proof (d_active _ _ _ _ _ Hd) as (h' & Hh' & Hb).
  rewrite (st_active _ H3) in Hh'. injection Hh' as <-. rewrite Hb in *.
  pose proof (d_cur _ _ _ _ _ Hd) as (_ & Hg & _).
  unfold bind, Loader.upd, on_fst, modify. cbn [fst snd].
  apply (loader_data_active _ _ (at_pos (enc cmds ++ tail) 0 []) [] cmds tail [] _ w2); try done.
  destruct Hst as [->|(k & n & -> & Hk)]; [by left|right].
  split; cbn [new at_pos position file_len reader]; [done|done|by exists k|by exists n].
Qed.

Lemma loader_files files :
  Forall (fun e => is_u64 (fst e) /\ (fst e = cur -> snd e = h)) files ->
  keeps (loader_at settled) any (Loader.replay_files files).
Proof.
  induction files as [|[id f] files IH]; intros HF; cbn [Loader.replay_files]; [by apply keeps_ret|].
  apply Forall_cons in HF as [[Hid Hf] HF]. eapply keeps_bind; [by apply loader_file|].
  intros [|] _; [by apply keeps_ret|by apply IH].
Qed.

Lemma active_exists w : settled w -> is_Some (dir w !! data_file_name cur).
Proof. intros Hw. by rewrite (st_active _ Hw). Qed.

Lemma open_read_cases name w f w1 : open_read name w = (Ok f, w1) -> dir w !! name = Some f.
Proof.
  unfold open_read. match goal with |- context [syscall ?c ?e w] => destruct (syscall_cases c e w) as [[fs ->]|(ft & fs & ->)] end;
    [|done]. case_decide; [done|]. cbn [set_faults dir]. by destruct (dir w !! name) as [k|]; [intros [= <- _]|].
Qed.

Lemma open_create_cases name w k f w1 : dir w !! name = Some k -> open_create name w = (Ok f, w1) ->
  f = k /\ dir w1 = dir w.
Proof.
  intros Hk. unfold open_create.
  match goal with |- context [syscall ?c ?e w] => destruct (syscall_cases c e w) as [[fs ->]|(ft & fs & ->)] end;
    [|done]. case_decide; [done|]. cbn [set_faults dir]. rewrite Hk. by intros [= <- <-].
Qed.

(** The end of [open]. *)
Lemma settled_load c lf rh :
  btree_ok rh -> (forall id f, (id, f) ∈ rh -> is_u64 id) -> keeps settled any (Open.load c lf rh cur).
Proof.
  intros Hok Hids. apply keeps_intro. intros w Hw. unfold Open.load. cbn zeta.
  destruct (settled_open_create _ active_exists w Hw) as [H1 _]. unfold bind at 1.
  destruct (open_create (data_file_name cur) w) as [[f|e|] w1] eqn:E1; cbn [snd] in H1; [|done|done].
  destruct (open_create_cases _ _ _ _ _ (st_active _ Hw) E1) as [-> _].
  destruct (settled_now w1 H1) as [H2 _]. unfold bind at 1.
  destruct (unix_now w1) as [[now|e|] w2]; cbn [snd] in H2; [|done|done].
  destruct (settled_open_read (data_file_name cur) w2 H2) as [H3 _]. unfold bind at 1.
  destruct (open_read (data_file_name cur) w2) as [[f|e|] w3] eqn:E3; cbn [snd] in H3; [|done|done].
  apply open_read_cases in E3. rewrite (st_active _ H2) in E3. injection E3 as <-.
  set (l := Loader.Build_Loader _ _ _).
  assert (loader_at settled (snd (Loader.replay (l, w3)))) as (_ & _ & Hr).
  { unfold Loader.replay, bind at 1, gets. cbn [fst]. apply loader_files; [|by split_and!].
    apply Forall_forall. intros [id f] Hin. cbn [l Loader.readers] in Hin.
    apply btree_elem_insert in Hin as [[-> ->]|[Hne Hin]]; [| |done]; cbn [fst snd].
    - split; [|done]. destruct (st_disk _ Hw) as (tail & Hd & _). apply (d_cur _ _ _ _ _ Hd).
    - split; [by eapply Hids|done]. }
  by destruct (Loader.replay (l, w3)) as [[[]|e|] [l' w4]].
Qed.

(** ** The walk over the directory *)

Lemma settled_scan_entry name found : keeps settled any (Open.scan_entry name found).
Proof.
  unfold Open.scan_entry. eapply (keeps_bind _ any); [by apply settled_reads|]. intros _ _.
  eapply (keeps_bind _ any); [by intros w Hw|]. intros isf _. destruct (negb isf); [by apply keeps_ret|].
  destruct (negb _); [by apply keeps_ret|]. destruct (get_file_id name) as [id|] eqn:Eid.
  { eapply keeps_bind; [apply settled_open_read|]. intros f _. by apply keeps_ret. }
  eapply (keeps_bind _ any); [|intros _ _; by apply keeps_ret]. destruct (ends_with _ name) eqn:Ee.
  { apply settled_remove; [done|]. by intros ->. }
  destruct (get_hint_id name) as [id|] eqn:Eh; [|by apply keeps_ret].
  eapply keeps_bind; [apply settled_exists|]. intros [|] _; [by apply keeps_ret|].
  apply settled_remove; [done|]. by intros ->.
Qed.

Lemma settled_scan names found : keeps settled any (Open.scan_dir names found).
Proof.
  revert found. induction names as [|n names IH]; intros found; cbn [Open.scan_dir]; [by apply keeps_ret|].
  eapply keeps_bind; [apply settled_scan_entry|]. intros f _. apply IH.
Qed.

Section open.
Context (order : list Name -> list Name) (order_perm : forall l, order l ≡ₚ l).

(** A walk that ends normally has found the files of the log. *)
Lemma walk_found w names w1 found w2 :
  settled w -> read_dir order w = (Ok names, w1) -> Open.scan_dir names ([], None) w1 = (Ok found, w2) ->
  found = (handles (calm w) (front ++ [(cur, cmds)]), Some cur).
Proof using order_perm.
  intros Hw Hrd Hscan. pose proof (st_disk _ Hw) as (tail & Hd & _).
  assert (disk (calm w) front cur cmds tail) as Hd'.
  { eapply disk_step_disk; [|exact Hd]. apply disk_step_same; try done. apply Hd. }
  apply truthful_read_dir in Hrd. apply truthful_scan in Hscan.
  destruct (read_dir_run order order_perm (calm w) eq_refl) as (names' & Hrd' & Hall).
  rewrite Hrd in Hrd'. pose proof (f_equal snd Hrd') as Ew. cbn [snd] in Ew. rewrite Ew in Hscan.
  assert (names' = names) as -> by congruence.
  destruct (scan_dir_run names ([], None) (calm w) eq_refl (disk_names_ok _ _ _ _ _ Hd')) as (w3 & Hscan' & _).
  rewrite Hscan in Hscan'. injection Hscan' as E _.
  destruct (found_log (calm w) front cur cmds tail names Hd') as [Hf Hs].
  { intros n Hn. apply Hall. by left. }
  rewrite <- E in Hf, Hs. by destruct found; cbn in *; subst.
Qed.

Lemma settled_open_locked c lf : keeps settled any (Open.open_locked order c lf).
Proof using order_perm.
  apply keeps_intro. intros w Hw. unfold Open.open_locked.
  assert (keeps settled any (read_dir order)) as Hr by by apply settled_reads.
  destruct (Hr w Hw) as [H1 _]. unfold bind at 1.
  destruct (read_dir order w) as [[names|e|] w1] eqn:E1; cbn [snd] in H1; [|done|done].
  destruct (settled_scan names ([], None) w1 H1) as [H2 _]. unfold bind at 1.
  destruct (Open.scan_dir names ([], None) w1) as [[found|e|] w2] eqn:E2; cbn [snd] in H2; [|done|done].
  rewrite (walk_found _ _ _ _ _ Hw E1 E2).
  pose proof (st_disk _ Hw) as (tail & Hd & _). apply settled_load; [| |done].
  - apply handles_ok, Hd.
  - intros id f Hin. apply handles_elem in Hin as (cs & Hin & _). by destruct (disk_file _ _ _ _ _ _ _ Hd Hin).
Qed.

(** ** The lock file *)

Lemma lock_exists w : settled w -> is_Some (dir w !! LockFile.LOCK_FILE_NAME).
Proof using. intros Hw. destruct (st_marker _ Hw) as (_ & k & -> & _). done. Qed.

Lemma settled_flock b : keeps settled any (modify (fun w => set_flock w b)).
Proof using. apply keeps_intro. intros w Hw. eapply settled_same; [exact Hw|done..|apply Hw|apply Hw]. Qed.

(** The marker is there, so that nothing is written. *)
Lemma settled_check k :
  keeps (fun w => settled w /\ dir w !! LockFile.LOCK_FILE_NAME = Some k) any
    (LockFile.check_marker k StoreType.Bitcask).
Proof using.
  apply keeps_intro. intros w [Hw Hk]. destruct (LockFile.check_marker k StoreType.Bitcask w) as [o w'] eqn:E.
  cbn [snd]. enough (exists fs, no_eof fs /\ w' = set_faults w fs) as (fs & Hfs & ->).
  { split; [|done]. eapply settled_calm; [exact Hw|done|done]. }
  destruct (st_marker _ Hw) as (_ & k' & Hk' & Hu & Ht & _). rewrite Hk in Hk'. injection Hk' as <-.
  pose proof (st_no_eof _ Hw) as Hn. unfold LockFile.check_marker, bind at 1, LockFile.read_to_string, syscall in E.
  destruct (faults w) as [|[ft|] fs] eqn:Ef.
  - rewrite Hu, Ht, decide_False, decide_True in E by done. injection E as _ <-. exists []. split; [done|].
    destruct w. cbn in *. by subst.
  - apply Forall_cons in Hn as [_ Hn]. injection E as _ <-. by exists fs.
  - apply Forall_cons in Hn as [_ Hn]. change (bytes_of (set_faults w fs) k) with (bytes_of w k) in E.
    rewrite Hu, Ht, decide_False, decide_True in E by done. injection E as _ <-. by exists fs.
Qed.

Lemma settled_acquire : keeps settled any (LockFile.acquire StoreType.Bitcask).
Proof using.
  apply keeps_intro. intros w Hw. unfold LockFile.acquire. destruct (settled_open_create _ lock_exists w Hw) as [H1 _].
  unfold bind at 1. destruct (open_create LockFile.LOCK_FILE_NAME w) as [[f|e|] w1] eqn:E1; cbn [snd] in H1; [|done|done].
  destruct (st_marker _ Hw) as (_ & k & Hk & _). destruct (open_create_cases _ _ _ _ _ Hk E1) as [-> Ed].
  rewrite <- Ed in Hk. set (R := fun w => settled w /\ dir w !! LockFile.LOCK_FILE_NAME = Some k).
  assert (keeps R any LockFile.try_lock) as Hlock.
  { intros w2 [H2 Hk2]. pose proof (st_no_eof _ H2) as Hn. unfold LockFile.try_lock, syscall.
    assert (forall fs b, no_eof fs -> R (set_faults w2 fs) /\ R (set_flock (set_faults w2 fs) b)) as Hset.
    { intros fs b Hfs. split; (split; [|done]); (eapply settled_same; [exact H2|done..|apply H2|done]). }
    destruct (faults w2) as [|[ft|] fs] eqn:Ef.
    - destruct (flock w2); [done|]. split; [|done]. split; [|done]. eapply settled_same; [exact H2|done..|apply H2|].
      cbn. by rewrite Ef.
    - apply Forall_cons in Hn as [_ Hn]. split; [by apply (Hset fs true)|done].
    - apply Forall_cons in Hn as [_ Hn]. cbn [set_faults flock]. destruct (flock w2); (split; [by apply (Hset fs true)|done]). }
  assert (keeps R any (LockFile.try_lock ;;! mcatch (LockFile.check_marker k StoreType.Bitcask)
    (fun _ => ret {| LockFile.file := k |}) (fun e => LockFile.unlock ;;! throw e))) as Hall; [|by apply (Hall w1)].
  eapply keeps_bind; [exact Hlock|]. intros _ _. eapply keeps_mcatch; [apply settled_check|intros; by apply keeps_ret|].
  intros e. eapply keeps_bind; [|intros _ _; apply keeps_throw]. apply keeps_intro. intros w2 [H2 Hk2]. split; [|done].
  by apply (settled_flock false w2).
Qed.

(** Recovery, under any schedule, keeps what the directory stores. *)
Lemma settled_open c : keeps settled any (Open.open order c).
Proof using order_perm.
  unfold Open.open. eapply (keeps_bind _ any); [by apply settled_reads|]. intros _ _.
  eapply keeps_bind; [apply settled_acquire|]. intros lf _.
  eapply keeps_mcatch; [apply settled_open_locked|intros; by apply keeps_ret|].
  intros e. eapply keeps_bind; [apply settled_flock|]. intros _ _. apply keeps_throw.
Qed.
End open.

End settled.
(** ** Recoveries that are interrupted *)

Section open.
Context (order : list Name -> list Name) (order_perm : forall l, order l ≡ₚ l).

(** From [w] the directory is opened any number of times; every time the system calls
    fail from some point on, or now and then, and the process or the machine stops. *)
Inductive interrupted : World -> World -> Prop :=
| not_again w : interrupted w w
| again c fs w o w1 w2 w3 :
    no_eof fs -> Open.open order c (set_faults w fs) = (o, w1) -> crash w1 w2 -> interrupted w2 w3 ->
    interrupted w w3.

(** A directory after a crash. *)
Definition stopped (w : World) : Prop := flock w = false /\ faults w = [].

Lemma settled_crash front cur cmds h w w' :
  settled front cur cmds h w -> crash w w' -> settled front cur cmds h w' /\ stopped w'.
Proof using.
  intros Hs Hcr. split; [|split; apply Hcr].
  assert (forall f, bytes_of w' f = bytes_of w f /\ durable_of w' f = durable_of w f) as Hb.
  { intros f. destruct (crash_full w w' f Hcr) as [E Hl]; [rewrite (st_durable _ _ _ _ _ Hs); lia|].
    destruct (c_bytes _ _ Hcr f) as (n & Hn & _ & Hdu). rewrite (st_durable _ _ _ _ _ Hs) in *. split; [done|lia]. }
  pose proof (st_disk _ _ _ _ _ Hs) as (tail & Hd & _). eapply settled_step; [exact Hs|..].
  - apply disk_step_same; [apply Hd|apply Hcr..| |]; intros f; destruct (Hb f); [done|lia].
  - intros f. destruct (Hb f) as [-> ->]. apply Hs.
  - eapply crash_marker; [exact Hcr|apply Hs].
  - apply Hcr.
  - rewrite (c_faults _ _ Hcr). constructor.
Qed.

Lemma interrupted_settled front cur cmds h w w' :
  interrupted w w' -> settled front cur cmds h w -> stopped w -> settled front cur cmds h w' /\ stopped w'.
Proof using order_perm.
  induction 1 as [w|c fs w o w1 w2 w3 Hn Hopen Hcr _ IH]; intros Hs Hst; [done|].
  assert (settled front cur cmds h (set_faults w fs)) as Hs' by (eapply settled_calm; [exact Hs|done|done]).
  destruct (settled_open _ _ _ _ order order_perm c _ Hs') as [H1 _]. rewrite Hopen in H1.
  destruct (settled_crash _ _ _ _ _ _ H1 Hcr) as [H2 H2']. by apply IH.
Qed.

Lemma settled_ready front cur cmds h w c :
  settled front cur cmds h w -> stopped w -> total_bytes (front ++ [(cur, cmds)]) <= u64_max ->
  exists hd w', Open.open order c w = (Ok hd, w') /\ ready hd w' (values (state_of (front ++ [(cur, cmds)]))).
Proof using order_perm.
  intros Hs [Hfl Hf] Htot. pose proof (st_disk _ _ _ _ _ Hs) as (tail & Hd & Ht).
  pose proof (st_marker _ _ _ _ _ Hs) as Hm.
  destruct (open_engine order order_perm c w front cur cmds tail) as (hd & w' & Hrun & He & Hop); try done.
  - by eapply settled_inodes.
  - apply Hs.
  - split; [done|]. split; [apply Hm|by right].
  - exists hd, w'. split; [done|]. exists front, cur, cmds. split_and!; try done.
    + eapply exact_good; [exact He|]. apply (o_readers _ _ _ _ _ _ Hop).
    + intros _. apply (o_synced _ _ _ _ _ _ Hop), locked_synced. intros f. rewrite (st_durable _ _ _ _ _ Hs). done.
Qed.

(** What a crash leaves of an open store. *)
Lemma engine_crash_settled sh w w' front cur cmds :
  engine sh w front cur cmds -> crash w w' ->
  exists cmds1 cmds2 h, cmds = cmds1 ++ cmds2 /\ settled front cur cmds1 h w' /\ stopped w' /\
    (forall pre post, cmds = pre ++ post -> blen (enc pre) <= durable_of w (file (Shared.writer sh)) ->
       exists mid, cmds1 = pre ++ mid).
Proof using.
  intros He Hcr. destruct (crash_disk _ _ _ _ _ _ He Hcr) as (cmds1 & cmds2 & tail & Hc & Hd & Ht & Hmax).
  pose proof (d_active _ _ _ _ _ Hd) as (h & Hh & _). exists cmds1, cmds2, h. split_and!; try done; [|split; apply Hcr].
  split; try done.
  - by exists tail.
  - intros f. destruct (c_bytes _ _ Hcr f) as (n & Hn & -> & ->). pose proof (e_inodes _ _ _ _ _ He f).
    rewrite blen_ztake by lia. done.
  - eapply crash_marker; [exact Hcr|apply He].
  - apply Hcr.
  - rewrite (c_faults _ _ Hcr). constructor.
Qed.

(** Opening again after a crash and any number of interrupted recoveries. *)
Lemma saved_reopens strict n m w w1 w2 c :
  saved strict n m w -> crash w w1 -> interrupted w1 w2 ->
  exists hd w3 m' lost, Open.open order c w2 = (Ok hd, w3) /\ ready hd w3 m' /\
    m = foldl after m' lost /\ (strict -> (length lost <= n)%nat).
Proof using order_perm.
  intros (sh & wg & base & t & He & Hm & Hb & Hbelow & Hs) Hcr Hint. rewrite log_of_eq in *.
  destruct (engine_crash_settled _ _ _ _ _ _ He (Hbelow _ Hcr)) as (c1 & c2 & h & Hc & Hset & Hst & Hmax).
  destruct (interrupted_settled _ _ _ _ _ _ Hint Hset Hst) as [Hset2 Hst2].
  rewrite total_bytes_app, total_bytes_one, Hc, enc_app, blen_app in Hb. pose proof (blen_nonneg (enc c2)).
  destruct (settled_ready _ _ _ _ _ c Hset2 Hst2) as (hd & w3 & Hopen & Hrd);
    [rewrite total_bytes_app, total_bytes_one; lia|].
  eexists hd, w3, _, c2. split_and!; [done|exact Hrd| |].
  - by rewrite <- Hm, Hc, values_more.
  - intros Hp. destruct (Hs Hp) as (pre & post & Hpre & Hn & Hd).
    destruct (Hmax pre post Hpre Hd) as [mid ->]. rewrite Hc, <- app_assoc in Hpre.
    apply app_inv_head in Hpre. subst post. rewrite length_app in Hn. lia.
Qed.

End open.
End cut.
