(* ===== verification/CutMerge.v ===== *)
(** * Steps that are cut short: the merge

    A step of the merge thread that is cut at any system call: the directory still
    holds the map. An output that is being written is beside the log, so that
    however much of it is there does not matter; once it is renamed it is complete,
    and holds copies; a source that is deleted has no live record. *)

From Stdlib Require Import ZArith Lia Strings.Byte.
From stdpp Require Import base numbers list strings gmap.
From S2P Require Import Prelude Bytes Crc CommandFormat HintFormat Streams Reader KeyDir Text Names Config FileSystem Lock BTree Engine Load Merge MergeSteps System Log Inv EngineProofs Replay Recovery Durability Faults MergeFiles MergeState MergeCopy MergePublish MergeProofs Interference Phases PhaseSteps SystemProofs SystemTheorems Keeps Cut.
Import Command(Command, Set_, Rm).
Import RecordReader Shared Compaction Merger.
Import MergeOutput(MergeOutput).

Local Open Scope Z_scope.

(** ** Code that reports what it did *)

(** When [c] returns normally, none of its system calls mattered: it did what it does
    without faults. *)
Definition honest {X A} (c : M (X * World) A) : Prop := forall x w a x' w',
  c (x, w) = (Ok a, (x', w')) -> c (x, calm w) = (Ok a, (x', calm w')).

Lemma honest_bind {X A B} (c : M (X * World) A) (k : A -> M (X * World) B) :
  honest c -> (forall a, honest (k a)) -> honest (bind c k).
Proof.
  intros Hc Hk x w b x' w' Hrun. unfold bind in *. destruct (c (x, w)) as [[a|e|] [x1 w1]] eqn:E; try done.
  rewrite (Hc _ _ _ _ _ E). by apply Hk.
Qed.

Lemma honest_gets {X A} (f : X -> A) : honest (gets (fun s : X * World => f (fst s))).
Proof. intros x w a x' w' [= <- <- <-]. done. Qed.

Lemma honest_sync_all {X} h : honest (@on_snd X World unit (sync_all h)).
Proof.
  intros x w a x' w'. unfold on_snd. cbn [fst snd]. unfold sync_all.
  match goal with |- context [syscall ?c ?e w] => destruct (syscall_cases c e w) as [[fs ->]|(ft & fs & ->)] end;
    [|done]. rewrite syscall_calm by done. by intros [= <- <- <-].
Qed.

Lemma honest_write h bs w a w' :
  file_write_all h bs w = (Ok a, w') -> file_write_all h bs (calm w) = (Ok a, calm w').
Proof.
  rewrite (file_write_all_calm (calm w)) by done. unfold file_write_all.
  match goal with |- context [syscall ?c ?e w] => destruct (syscall_cases c e w) as [[fs ->]|(ft & fs & ->)] end;
    [|done]. by intros [= <- <-].
Qed.

Lemma honest_flush : honest BufWriter.flush.
Proof.
  intros b w a b' w'. unfold BufWriter.flush. destruct (BufWriter.buffer b) as [|x bs]; [by intros [= <- <- <-]|].
  destruct (file_write_all (BufWriter.file b) (x :: bs) w) as [[[]|e|] w1] eqn:E; try done.
  rewrite (honest_write _ _ _ _ _ E). by intros [= <- <- <-].
Qed.

Lemma honest_on_data {A} (c : M (BufWriter.BufWriter * World) A) : honest c -> honest (MergeOutput.on_data c).
Proof.
  intros Hc out w a out' w'. unfold MergeOutput.on_data. destruct (c (MergeOutput.data out, w)) as [o [d w1]] eqn:E.
  intros [= -> <- <-]. by rewrite (Hc _ _ _ _ _ E).
Qed.

Lemma honest_on_hint {A} (c : M (BufWriter.BufWriter * World) A) : honest c -> honest (MergeOutput.on_hint c).
Proof.
  intros Hc out w a out' w'. unfold MergeOutput.on_hint. destruct (c (MergeOutput.hint out, w)) as [o [d w1]] eqn:E.
  intros [= -> <- <-]. by rewrite (Hc _ _ _ _ _ E).
Qed.

(** An output whose [sync] returns is on stable storage. *)
Lemma honest_sync : honest MergeOutput.sync.
Proof.
  unfold MergeOutput.sync. apply honest_bind; [apply honest_on_data, honest_flush|]. intros _.
  apply honest_bind; [apply (honest_gets (fun o => o))|]. intros out.
  apply honest_bind; [apply honest_sync_all|]. intros _.
  apply honest_bind; [apply honest_on_hint, honest_flush|]. intros _.
  apply honest_bind; [apply (honest_gets (fun o => o))|]. intros out'. apply honest_sync_all.
Qed.

Section cut.
Context `{Crc : Crc32}.

(** ** Writing beside the log *)

(** The log is that of [t], whatever is beside it; [d] bytes of the active file are on
    stable storage. *)
Definition whole (sh : Shared) (base : list (Z * list Command)) (t : Tail) (d : Z) (w : World) : Prop :=
  engine sh (calm w) (base ++ later t) (cur t) (cmds t) /\ d <= durable_of w (file (writer sh)).

Lemma saved_whole strict n sh sh' base t w w' :
  file (writer sh') = file (writer sh) -> whole sh' base t (durable_of (calm w) (file (writer sh))) w' ->
  stored_bytes w' <= u64_max -> (strict -> synced_but n sh (calm w) t) ->
  saved strict n (values (state_of (log_of base t))) w'.
Proof.
  intros E [He Hd] Hb Hs. eapply saved_engine; [exact He|done|done|]. intros Hst.
  destruct (Hs Hst) as (pre & post & Hc & Hn & Hd1). exists pre, post. split_and!; [done|done|].
  rewrite E in *. change (durable_of (calm w') ?f) with (durable_of w' f). lia.
Qed.

Lemma whole_faults sh base t d w fs : whole sh base t d w -> whole sh base t d (set_faults w fs).
Proof. done. Qed.

(** The files of an output that is being written, beside the log. *)
Record output_at (base : list (Z * list Command)) (t : Tail) (id : Z) (hd hh : File) (w : World) : Prop := {
  oa_id : is_u64 id;
  oa_new : id ∉ (base ++ later t).*1;
  oa_data : dir w !! data_file_name_compaction id = Some hd;
  oa_hint : dir w !! hint_file_name id = Some hh
}.

Definition outside (sh : Shared) (base : list (Z * list Command)) (t : Tail) (d id : Z) (hd hh : File)
  (w : World) : Prop := whole sh base t d w /\ output_at base t id hd hh w.

Lemma outside_faults sh base t d id hd hh w fs :
  outside sh base t d id hd hh w -> outside sh base t d id hd hh (set_faults w fs).
Proof. intros [Hw []]. by split. Qed.

(** A change of one of the two files. *)
Lemma outside_side sh base t d id hd hh f w w' :
  outside sh base t d id hd hh w -> f = hd \/ f = hh -> side_write f (calm w) (calm w') ->
  outside sh base t d id hd hh w'.
Proof.
  intros [[He Hd] [O1 O2 O3 O4]] Hf Hsw.
  assert (exists n, dir (calm w) !! n = Some f /\ beside (base ++ later t) n) as (n & Hn & Hb).
  { destruct Hf as [->| ->]; [eexists; split; [exact O3|]|eexists; split; [exact O4|]]; exists id; (split; [done|]);
      [by left|by right]. }
  pose proof (sw_dir _ _ _ Hsw) as Ed. cbn [calm set_faults dir] in Ed. split; [split|split; try done].
  - by eapply engine_side_write.
  - destruct (sw_same _ _ _ Hsw (file (writer sh))) as [_ E].
    + intros <-. pose proof (d_links _ (d_dir _ _ _ _ _ (e_disk _ _ _ _ _ He)) _ _ _ Hn (e_file _ _ _ _ _ He)) as E.
      by apply (beside_not_data (base ++ later t) n (cur t)).
    + change (durable_of w' (file (writer sh)) = durable_of w (file (writer sh))) in E. lia.
  - by rewrite Ed.
  - by rewrite Ed.
Qed.

Section outside.
Context (sh : Shared) (base : list (Z * list Command)) (t : Tail) (d id : Z) (hd hh : File).
Abbreviation R := (outside sh base t d id hd hh).

Lemma outside_write f bs : f = hd \/ f = hh -> keeps R any (file_write_all f bs).
Proof.
  intros Hf. apply keeps_call; [apply outside_faults|intros w Hw|intros ft w Hw]; (split; [|done]); cbn [snd];
    (eapply outside_side; [exact Hw|exact Hf|]).
  - exact (side_write_append f (calm w) bs).
  - exact (side_write_append f (calm w) (take (partial ft) bs)).
Qed.

Lemma outside_sync f : f = hd \/ f = hh -> keeps R any (sync_all f).
Proof.
  intros Hf. apply keeps_call; [apply outside_faults| |intros ft; apply keeps_throw]. intros w Hw.
  split; [|done]. cbn [snd]. eapply outside_side; [exact Hw|exact Hf|]. exact (side_write_synced f (calm w)).
Qed.

(** A buffered writer over one of the two files. *)
Definition writer_on (f : File) (s : BufWriter.BufWriter * World) : Prop :=
  BufWriter.file (fst s) = f /\ R (snd s).

Lemma outside_flush f : f = hd \/ f = hh -> keeps (writer_on f) any BufWriter.flush.
Proof.
  intros Hf [b w] [Hb Hw]. cbn [fst snd] in *. unfold BufWriter.flush.
  destruct (BufWriter.buffer b) as [|x bs] eqn:Eb; [done|]. rewrite Hb.
  destruct (outside_write f (x :: bs) Hf w Hw) as [Hw' _].
  destruct (file_write_all f (x :: bs) w) as [o w1]. split; [by split|]. by destruct o.
Qed.

Lemma outside_write_all f bs : f = hd \/ f = hh -> keeps (writer_on f) any (BufWriter.write_all bs).
Proof.
  intros Hf. unfold BufWriter.write_all. eapply keeps_bind; [apply keeps_gets|]. intros b ([b0 w0] & [Hb _] & <-).
  assert (forall l, keeps (writer_on f) any (BufWriter.push l)) as Hp by by intros l [b1 w1] [H1 H2].
  cbn beta zeta. cbn [fst] in *. case_match; [apply Hp|]. eapply keeps_bind.
  - instantiate (1 := any). case_match; [by apply outside_flush|]. by apply keeps_ret.
  - intros _ _. case_match; [|apply Hp]. intros [b1 w1] [H1 H2]. cbn [fst snd] in *.
    destruct (outside_write (BufWriter.file b0) bs ltac:(by rewrite Hb) w1 H2) as [Hw' _].
    unfold on_snd. cbn [fst snd]. destruct (file_write_all _ _ w1) as [o w2]. split; [by split|]. by destruct o.
Qed.

(** The output that is being written. *)
Definition output_on (s : MergeOutput * World) : Prop :=
  BufWriter.file (MergeOutput.data (fst s)) = hd /\ BufWriter.file (MergeOutput.hint (fst s)) = hh /\ R (snd s).

Lemma output_on_data {A} (c : M (BufWriter.BufWriter * World) A) :
  keeps (writer_on hd) any c -> keeps output_on any (MergeOutput.on_data c).
Proof.
  intros Hc [out w] (Hd1 & Hd2 & Hw). cbn [fst snd] in *. unfold MergeOutput.on_data.
  destruct (Hc (MergeOutput.data out, w)) as [[H1 H2] _]; [by split|].
  destruct (c (MergeOutput.data out, w)) as [o [b w1]]. split; [by split_and!|]. by destruct o.
Qed.

Lemma output_on_hint {A} (c : M (BufWriter.BufWriter * World) A) :
  keeps (writer_on hh) any c -> keeps output_on any (MergeOutput.on_hint c).
Proof.
  intros Hc [out w] (Hd1 & Hd2 & Hw). cbn [fst snd] in *. unfold MergeOutput.on_hint.
  destruct (Hc (MergeOutput.hint out, w)) as [[H1 H2] _]; [by split|].
  destruct (c (MergeOutput.hint out, w)) as [o [b w1]]. split; [by split_and!|]. by destruct o.
Qed.

Lemma output_on_sync_all f : f = hd \/ f = hh -> keeps output_on any (on_snd (sync_all f)).
Proof.
  intros Hf [out w] (Hd1 & Hd2 & Hw). cbn [fst snd] in *. unfold on_snd. cbn [fst snd].
  destruct (outside_sync f Hf w Hw) as [Hw' _]. destruct (sync_all f w) as [o w1]. split; [by split_and!|].
  by destruct o.
Qed.

Lemma output_on_append record k ts : keeps output_on any (MergeOutput.append record k ts).
Proof.
  unfold MergeOutput.append. eapply keeps_bind; [apply output_on_data, outside_write_all; by left|]. intros _ _.
  eapply keeps_bind; [apply keeps_gets|]. intros out _.
  eapply keeps_bind; [apply output_on_hint, outside_write_all; by right|]. intros _ _.
  eapply keeps_bind; [apply keeps_outcome|]. intros total _.
  eapply keeps_bind; [instantiate (1 := any); by intros [o w] H|]. intros _ _. by apply keeps_ret.
Qed.

Lemma output_on_sync : keeps output_on any MergeOutput.sync.
Proof.
  unfold MergeOutput.sync. eapply keeps_bind; [apply output_on_data, outside_flush; by left|]. intros _ _.
  eapply keeps_bind; [apply keeps_gets|]. intros out ([o w] & (Ho & _) & <-). cbn [fst] in *.
  eapply keeps_bind; [apply output_on_sync_all; by left|]. intros _ _.
  eapply keeps_bind; [apply output_on_hint, outside_flush; by right|]. intros _ _.
  eapply keeps_bind; [apply keeps_gets|]. intros out ([o' w'] & (_ & Ho' & _) & <-). cbn [fst] in *.
  apply output_on_sync_all. by right.
Qed.

End outside.
(** ** The steps *)

(** The world after a step of the merge thread. *)
Definition step_leaves (pc : PC) (sh : Shared) (w : World) : World := snd (snd (step pc (sh, w))).

Lemma run_local_leaves {A} m (c : MM A) k s : snd (snd (run_local m c k s)) = snd (snd (snd (c (m, s)))).
Proof. unfold run_local. by destruct (c (m, s)) as [[a|e|] [m' s']]. Qed.

(** The map is there after the step, wherever it was cut. *)
Definition survives_cut (pc : PC) (sh : Shared) (w : World) (base : list (Z * list Command)) (t : Tail) : Prop :=
  forall strict n, stored_bytes (step_leaves pc sh w) <= u64_max ->
  (strict -> synced_but n sh (calm w) t) ->
  saved strict n (values (state_of (log_of base t))) (step_leaves pc sh w).

Lemma cut_same pc sh w base t mi :
  lagging sh (calm w) base t mi -> calm (step_leaves pc sh w) = calm w -> survives_cut pc sh w base t.
Proof.
  intros [[iv He] _ _] E strict n Hb Hs. eapply (saved_whole _ _ sh (set_index sh iv)); [done| |done|exact Hs].
  split; [by rewrite E|]. cbn [set_index writer]. rewrite <- E. done.
Qed.

(** A step that only writes beside the log. *)
Lemma cut_whole pc sh w base t :
  whole sh base t (durable_of (calm w) (file (writer sh))) (step_leaves pc sh w) ->
  survives_cut pc sh w base t.
Proof. intros Hw strict n Hb Hs. by eapply saved_whole. Qed.

(** The start of a merge. *)
Lemma total_len_runs w0 snap :
  keeps (fun s : Shared * World => calm (snd s) = calm w0)
    (fun n => 0 <= n <= foldr (fun e k => blen (bytes_of w0 (snd e)) + k) 0 snap) (total_len snap).
Proof.
  induction snap as [|[id f] snap IH]; cbn [total_len foldr snd]; [by apply keeps_ret|].
  pose proof (blen_nonneg (bytes_of w0 f)) as Hf.
  eapply (keeps_bind _ (fun n => 0 <= n <= blen (bytes_of w0 f))).
  - eapply (keeps_mcatch _ (fun n => 0 <= n <= blen (bytes_of w0 f))).
    + intros [sh w] Hw. cbn [fst snd] in Hw. unfold on_snd. cbn [fst snd]. unfold metadata_len.
      match goal with |- context [syscall ?c ?e w] => destruct (syscall_cases c e w) as [[fs ->]|(ft & fs & ->)] end;
        [|done]. split; [done|]. cbn. change (bytes_of (set_faults w fs) f) with (bytes_of (calm w) f).
      rewrite Hw. change (bytes_of (calm w0) f) with (bytes_of w0 f). lia.
    + intros n Hn. by apply keeps_ret.
    + intros e. apply keeps_ret. lia.
  - intros n Hn. eapply keeps_bind; [exact IH|]. intros r Hr. cbn beta in Hr. eapply keeps_weaken; [apply keeps_outcome|].
    intros v Hv. unfold u64_add in Hv. destruct (_ <=? _); [|done]. injection Hv as <-. lia.
Qed.

Lemma total_len_shared snap sh w o sh' w' : total_len snap (sh, w) = (o, (sh', w')) -> sh' = sh.
Proof.
  assert (keeps (fun s : Shared * World => fst s = sh) any (total_len snap)) as Hk.
  { induction snap as [|[id f] snap IH]; cbn [total_len]; [by apply keeps_ret|].
    eapply keeps_bind; [instantiate (1 := any)|intros n _; eapply keeps_bind; [exact IH|]].
    - eapply keeps_mcatch; [instantiate (1 := any)|intros n _; by apply keeps_ret|intros e; by apply keeps_ret].
      intros [s1 w1] Hs. cbn in Hs |- *. unfold on_snd. cbn. by destruct (metadata_len f w1) as [[] ?].
    - intros r _. eapply keeps_any, keeps_outcome. }
  intros E. destruct (Hk (sh, w) eq_refl) as [H _]. by rewrite E in H.
Qed.

Lemma begin_cut sh w front cur cmds o sh' w' :
  engine sh (calm w) front cur cmds -> roomy sh (calm w) -> begin (sh, w) = (o, (sh', w')) ->
  calm w' = calm w \/
  exists sh2, recorded sh2 w' front cur cmds /\
    kept (data_file_name cur) (file (writer sh)) (durable_of (calm w) (file (writer sh))) w'.
Proof.
  intros He (_ & Hthr & _ & Hids) Hrun. unfold begin, with_writer_lock in Hrun. cbn [fst] in Hrun.
  rewrite (e_lock _ _ _ _ _ He) in Hrun. unfold bind at 1 2, get_writer, get_config, gets in Hrun. cbn [fst] in Hrun.
  destruct (_ <? _); [left; by injection Hrun as <- <- <-|]. unfold bind at 1 in Hrun. cbn [fst] in Hrun.
  fold (snapshot sh) in Hrun. case_decide; [left; by injection Hrun as <- <- <-|].
  pose proof (total_len_runs w (snapshot sh) (sh, w) eq_refl) as Hlen. fold (snapshot_bytes sh w) in Hlen.
  unfold bind at 1 in Hrun.
  destruct (total_len (snapshot sh) (sh, w)) as [[total|e|] [sh1 w1]] eqn:El; cbn [fst snd] in Hlen;
    [|left; injection Hrun as <- <- <-; apply Hlen|left; injection Hrun as <- <- <-; apply Hlen].
  destruct Hlen as [Hw1 Htot]. assert (sh1 = sh) as -> by by eapply total_len_shared.
  rewrite (proj2 (Z.eqb_neq _ _)) in Hrun by lia. pose proof (e_cur _ _ _ _ _ He) as Hcur.
  pose proof (Z.div_pos _ _ (proj1 Htot) Hthr). pose proof (Z.div_le_mono _ _ _ Hthr (proj2 Htot)).
  change (snapshot_bytes sh (calm w)) with (snapshot_bytes sh w) in Hids.
  rewrite bind_outcome in Hrun. unfold u64_add in Hrun. rewrite (proj2 (Z.leb_le _ _)) in Hrun by lia.
  rewrite bind_outcome, (proj2 (Z.leb_le _ _)) in Hrun by lia.
  rewrite <- Hw1 in He |- *. pose proof (d_cur _ _ _ _ _ (e_disk _ _ _ _ _ He)) as [Hu _].
  set (next := current_file_id (writer sh) + (total / Config.file_size_threshold (config sh) + 2) + 1) in *.
  destruct (rotate_to_faulty sh w1 front cur cmds next He) as (o2 & sh2 & w2 & Hrot & Ho & Hcase);
    [unfold next; lia|unfold next; ulia|]. right. exists sh2.
  pose proof (world_keeps_rotate_to _ _ _ next (sh, w1) (engine_kept _ _ _ _ _ He)) as [Hk _]. rewrite Hrot in Hk.
  assert (w' = w2) as ->. { unfold bind in Hrun. rewrite Hrot in Hrun. destruct Ho as [->|[k ->]]; by injection Hrun. }
  split; [|exact Hk]. destruct Hcase as [(_ & _ & He')|[(_ & He')|(_ & Hh)]].
  - left. exists front, cur, cmds. split; [done|by left].
  - left. eexists _, _, _. split; [exact He'|]. right. by eexists.
  - right. by eexists _, _.
Qed.

Lemma start_cut sh w base t mi :
  phase Starting sh (calm w) base t mi -> roomy sh (calm w) -> survives_cut Starting sh w base t.
Proof.
  intros Hph Hroom. pose proof (phase_lagging _ _ _ _ _ _ Hph) as Hl. destruct Hph as [-> He].
  destruct (begin (sh, w)) as [o [sh' w']] eqn:E.
  assert (step_leaves Starting sh w = w') as Ew.
  { unfold step_leaves. cbn [step]. rewrite E. by destruct o as [[]| |]. }
  destruct (begin_cut _ _ _ _ _ _ _ _ He Hroom E) as [Hc|(sh2 & Hrec & Hk)].
  - eapply cut_same; [exact Hl|]. by rewrite Ew.
  - intros strict n Hb Hs. rewrite Ew in *. by eapply recorded_saved.
Qed.

(** Opening the next source creates the files of an output. *)
Lemma whole_create sh base t d n id :
  is_u64 id -> id < cur t -> (n = data_file_name_compaction id \/ (n = hint_file_name id /\ id ∉ (base ++ later t).*1)) ->
  keeps (whole sh base t d) any (open_create n).
Proof.
  intros Hid Hlt Hn. apply keeps_call; [apply whole_faults| |intros ft; apply keeps_throw]. intros w [He Hd].
  case_decide; [done|]. destruct (dir w !! n) eqn:E; [done|]. split; [|done]. cbn [snd]. split.
  - exact (engine_side_create sh (calm w) _ _ _ n id He E Hid Hlt Hn).
  - pose proof (engine_file_lt _ _ _ _ _ He) as Hf. cbn in Hf. rewrite durable_of_new_file by lia. done.
Qed.

Lemma whole_open sh base t d id :
  is_u64 id -> id < cur t -> id ∉ (base ++ later t).*1 -> keeps (whole sh base t d) any (MergeOutput.open id).
Proof.
  intros Hid Hlt Hn. unfold MergeOutput.open.
  eapply keeps_bind; [eapply whole_create; [done|done|by left]|]. intros f _.
  eapply keeps_bind; [eapply whole_create; [done|done|by right]|]. intros f' _. by apply keeps_ret.
Qed.

(** What code of the merge keeps of the world. *)
Definition merge_keeps {A} (R : World -> Prop) (c : MM A) : Prop :=
  keeps (fun s => R (snd (snd s))) any c.

Lemma merge_keeps_world {A} R (c : M World A) : keeps R any c -> merge_keeps R (on_world c).
Proof.
  intros Hc [m [sh w]] Hw. unfold on_world, on_snd. cbn [fst snd] in *. destruct (Hc w Hw) as [H _].
  destruct (c w) as [[a|e|] w1]; by split.
Qed.

Lemma merge_keeps_shared {A} R (c : SM A) : world_keeps R c -> merge_keeps R (on_shared c).
Proof.
  intros Hc [m [sh w]] Hw. unfold on_shared, on_snd. cbn [fst snd] in *. destruct (Hc (sh, w) Hw) as [H _].
  destruct (c (sh, w)) as [[a|e|] [sh1 w1]]; by split.
Qed.

Lemma whole_reads {A} sh base t d (call : M World A) :
  (forall w, calm (snd (call w)) = calm w) -> keeps (whole sh base t d) any call.
Proof.
  intros Hc w Hw. specialize (Hc w). destruct (call w) as [o w1]. cbn [fst snd] in *. split; [|by destruct o].
  destruct Hw as [He Hd]. rewrite <- Hc in He. split; [done|]. etrans; [exact Hd|].
  change (durable_of (calm w) (file (writer sh)) <= durable_of (calm w1) (file (writer sh))). by rewrite Hc.
Qed.

Lemma calm_stream h w : calm (snd (file_stream h w)) = calm w.
Proof.
  unfold file_stream.
  match goal with |- context [syscall ?c ?e w] => by destruct (syscall_cases c e w) as [[fs ->]|(ft & fs & ->)] end.
Qed.

Lemma calm_metadata h w : calm (snd (metadata_len h w)) = calm w.
Proof.
  unfold metadata_len.
  match goal with |- context [syscall ?c ?e w] => by destruct (syscall_cases c e w) as [[fs ->]|(ft & fs & ->)] end.
Qed.

Section plan.
Context (pl : Plan) (Hpl : plan_ok pl).

Lemma ensure_output_cut seen n m sh w outs oc t :
  merging pl seen n m sh (calm w) outs oc t -> old_active pl + Z.of_nat (length outs) + 2 < new_active pl ->
  whole sh (mlog pl outs) t (durable_of (calm w) (file (writer sh)))
    (snd (snd (snd (ensure_output (m, (sh, w)))))).
Proof using Hpl.
  intros Hm Hroom. pose proof (mg_engine Hm) as He. unfold ensure_output. unfold bind at 1, gets. cbn [fst].
  destruct (output m) as [out|] eqn:Eo; [by split|]. rewrite bind_outcome.
  pose proof (mg_next Hm) as Hnext. unfold opened in Hnext. rewrite Eo in Hnext.
  pose proof (pl_old _ Hpl) as [HP0 _]. pose proof (pl_new _ Hpl) as HN. pose proof (cur_new pl Hm).
  unfold u64_add. rewrite (proj2 (Z.leb_le _ _)) by ulia. set (id := next_compaction_file_id m + 1).
  unfold upd at 1, bind at 1, on_fst at 1, modify at 1. cbn [fst snd].
  match goal with |- whole _ _ _ ?d (snd (snd (snd (?k ?s)))) => enough (merge_keeps (whole sh (mlog pl outs) t d) k) as Hk;
    [apply (Hk s); by split|] end.
  eapply keeps_bind.
  - apply merge_keeps_world, whole_open; [unfold id; ulia|unfold id; lia|].
    rewrite fmap_app, not_elem_of_app. split; [apply (mlog_not_in pl Hpl Hm); unfold id; lia|].
    intros Hin. apply (tail_not_in pl Hm id); [unfold id; lia|]. unfold tail_files. rewrite fmap_app.
    apply elem_of_app. by left.
  - intros out _ [m1 s1] H1. done.
Qed.

End plan.

Lemma file_cut start m f todo sh w base t mi :
  phase (AtFile start m (f :: todo)) sh (calm w) base t mi -> survives_cut (AtFile start m (f :: todo)) sh w base t.
Proof.
  intros (-> & pl & d & rest & outs & oc & -> & Hsp & Hrd & Hm & [Hfull|[? _]]); [|done].
  pose proof (rd_plan _ _ _ _ _ _ _ _ Hrd) as Hpl.
  pose proof (output_room pl Hpl _ _ _ _ _ _ _ _ Hm Hfull (done_bytes _ _ _ Hsp)) as Hroom.
  pose proof (ensure_output_cut pl Hpl _ _ _ _ _ _ _ _ Hm Hroom) as Hens.
  apply cut_whole. unfold step_leaves. destruct f as [id f]. cbn [step]. rewrite run_local_leaves.
  unfold open_source, bind at 1. destruct (ensure_output (m, (sh, w))) as [[[]|e|] s1]; [|done|done].
  match goal with |- whole _ _ _ ?d (snd (snd (snd (?k ?s)))) =>
    enough (merge_keeps (whole sh (mlog pl outs) t d) k) as Hk; [by apply (Hk s)|] end.
  eapply keeps_bind; [apply merge_keeps_world, whole_reads, calm_stream|]. intros st _.
  eapply keeps_bind; [apply merge_keeps_world, whole_reads, calm_metadata|]. intros len _. by apply keeps_ret.
Qed.

(** Copying a record appends to the files of the output. *)
Lemma outside_output pl (Hpl : plan_ok pl) seen n m sh w outs oc t out :
  merging pl seen n m sh (calm w) outs oc t -> old_active pl + Z.of_nat (length outs) + 2 < new_active pl ->
  output m = Some out ->
  output_on sh (mlog pl outs) t (durable_of (calm w) (file (writer sh))) (MergeOutput.id out)
    (BufWriter.file (MergeOutput.data out)) (BufWriter.file (MergeOutput.hint out)) (out, w).
Proof.
  intros Hm Hroom Eo. destruct (output_facts pl Hm Eo) as (Hw & Hid & _).
  pose proof (pl_old _ Hpl). pose proof (pl_new _ Hpl). split_and!; [done|done|]. split.
  - split; [apply (mg_engine Hm)|done].
  - split; [rewrite Hid; ulia| |apply (wr_data _ _ _ Hw)|apply (wr_hint _ _ _ Hw)].
    rewrite fmap_app, not_elem_of_app. split; [apply (mlog_not_in pl Hpl Hm); lia|].
    intros Hx. apply (tail_not_in pl Hm (MergeOutput.id out)); [lia|]. unfold tail_files. rewrite fmap_app.
    apply elem_of_app. by left.
Qed.

(** The output slot holds an output over the files [hd] and [hh]. *)
Definition slot_on (sh : Shared) (base : list (Z * list Command)) (t : Tail) (d id : Z) (hd hh : File)
  (s : Merge * (Shared * World)) : Prop :=
  exists out, output (fst s) = Some out /\ output_on sh base t d id hd hh (out, snd (snd s)).

Lemma slot_on_output {A} sh base t d id hd hh (c : M (MergeOutput * World) A) :
  keeps (output_on sh base t d id hd hh) any c -> keeps (slot_on sh base t d id hd hh) any (on_output c).
Proof.
  intros Hc [m [s w]] (out & Eo & Hout). cbn [fst snd] in *. unfold on_output. rewrite Eo.
  destruct (Hc _ Hout) as [H _]. destruct (c (out, w)) as [o [out' w']]. split; [|by destruct o].
  exists out'. by split.
Qed.

Lemma record_cut start m id fuel rr todo sh w base t mi :
  phase (AtRecord start m id fuel rr todo) sh (calm w) base t mi ->
  survives_cut (AtRecord start m id fuel rr todo) sh w base t.
Proof.
  intros Hph. pose proof (phase_lagging _ _ _ _ _ _ Hph) as Hl.
  destruct Hph as (-> & pl & d & rest & outs & oc & pre & post & b & -> & Hsp & Hrd & Hrr & Hfu & Hm & Hfull & Ho).
  pose proof (rd_plan _ _ _ _ _ _ _ _ Hrd) as Hpl.
  destruct (output m) as [out|] eqn:Eo; [|done].
  assert (total_bytes d + blen (enc pre) <= total_bytes (srcs pl)) as Hd.
  { rewrite Hsp, total_bytes_app, total_bytes_cons, enc_app, blen_app.
    pose proof (total_bytes_nonneg rest). pose proof (blen_nonneg (enc post)). lia. }
  pose proof (output_room pl Hpl _ _ _ _ _ _ _ _ Hm Hfull Hd) as Hroom.
  pose proof (outside_output pl Hpl _ _ _ _ _ _ _ _ _ Hm Hroom Eo) as Hout.
  assert (slot_on sh (mlog pl outs) t (durable_of (calm w) (file (writer sh))) (MergeOutput.id out)
    (BufWriter.file (MergeOutput.data out)) (BufWriter.file (MergeOutput.hint out)) (m, (sh, w))) as Hslot by by exists out.
  destruct fuel as [|fuel]; [by eapply cut_same|].
  destruct (next_record rr) as [o rr'] eqn:En. destruct o as [[position bytes| |position]|e|].
  3-5: eapply cut_same; [exact Hl|]; unfold step_leaves; cbn [step record_step]; by rewrite En.
  2:{ eapply cut_same; [exact Hl|]. unfold step_leaves. cbn [step record_step]. rewrite En, run_local_leaves.
      match goal with |- calm (snd (snd (snd (?k ?s)))) = _ =>
        assert (merge_keeps (eq w) k) as Hk; [|destruct (Hk s eq_refl) as [<- _]; done] end.
      eapply keeps_bind; [instantiate (1 := any); by intros [? [? ?]] ?|]. intros _ _. unfold end_source.
      intros [m1 [s1 w1]] H1. split; [|by case_match].
      unfold bind at 1 2, gets, on_shared, on_snd. cbn [fst snd get_config gets]. by destruct (output m1). }
  apply cut_whole. unfold step_leaves. cbn [step record_step]. rewrite En, run_local_leaves.
  assert (keeps (slot_on sh (mlog pl outs) t (durable_of (calm w) (file (writer sh))) (MergeOutput.id out)
    (BufWriter.file (MergeOutput.data out)) (BufWriter.file (MergeOutput.hint out))) any (merge_record id position bytes)) as Hk.
  { unfold merge_record. eapply keeps_bind; [apply keeps_outcome|]. intros c _. destruct (fst c) as [ts k v|]; [|by apply keeps_ret].
    eapply keeps_bind; [apply keeps_gets|]. intros s1 _. eapply keeps_bind; [apply keeps_outcome|]. intros mp _.
    case_match; [|by apply keeps_ret]. cbn zeta.
    eapply keeps_bind; [apply slot_on_output, output_on_append|]. intros iv _.
    intros [m1 s2] (o1 & E1 & H1). split; [|done]. by exists o1. }
  destruct (Hk _ Hslot) as [(out' & _ & _ & _ & Hw & _) _]. exact Hw.
Qed.

(** Publishing: the rename makes a complete file part of the log. *)
Lemma publish_rename pl (Hpl : plan_ok pl) seen n m sh w w1 outs oc t out out' :
  merging pl seen n m sh (calm w) outs oc t -> old_active pl + Z.of_nat (length outs) + 2 < new_active pl ->
  n <= total_bytes (srcs pl) -> output m = Some out -> MergeOutput.sync (out, w) = (Ok tt, (out', w1)) ->
  let hd := BufWriter.file (MergeOutput.data out) in let oid := MergeOutput.id out in
  dir w1 !! data_file_name_compaction oid = Some hd /\
  exists sh', engine sh' (published (calm w1) oid hd) (mlog pl (outs ++ [(oid, oc)]) ++ later t) (cur t) (cmds t) /\
    writer sh' = writer sh.
Proof.
  intros Hm Hroom Hn Eo Hsync hd oid. apply honest_sync in Hsync. pose proof (mg_engine Hm) as He.
  destruct (output_facts pl Hm Eo) as (Hw & Hid & _).
  destruct (outside_output pl Hpl _ _ _ _ _ _ _ _ _ Hm Hroom Eo) as (_ & _ & _ & [Hou Hnin _ _]).
  destruct (output_sync_run (calm w) out oc eq_refl (d_dir _ _ _ _ _ (e_disk _ _ _ _ _ He)) Hw)
    as (out2 & wa & wb & Hrun & Hs1 & Hs2 & Hdb & Hdd & Hhb & Hhd).
  rewrite Hsync in Hrun. injection Hrun as <- <-.
  destruct (engine_output_writes _ _ _ _ _ _ _ _ _ He Hw Hou Hnin Hs1 Hs2) as (He2 & _ & Ed).
  destruct (index_exists (places (state_of (flog pl (outs ++ [(oid, oc)]) t)))) as [iv Hiv]. split.
  - change (dir (calm w1) !! data_file_name_compaction oid = Some hd). rewrite Ed. apply (wr_data _ _ _ Hw).
  - eexists. split; [exact (publish_engine pl Hpl Hm Eo (calm w1) iv Hroom Hn He2 Ed Hdb Hdd Hhb Hhd Hiv)|done].
Qed.

(** After the rename only a handle is opened. *)
Lemma publish_rest_calm w0 n k (ps : list PendingUpdate) :
  merge_keeps (fun w => calm w = calm w0)
    (let! f := on_world (open_read n) in on_shared (readers_update (k f)) ;;!
     upd (fun m => set_pending (set_output m None) []) ;;! ret ps).
Proof.
  eapply keeps_bind; [apply (merge_keeps_world (fun w => calm w = calm w0))|].
  - intros w4 H4. unfold open_read.
    match goal with |- context [syscall ?c ?e w4] => destruct (syscall_cases c e w4) as [[fs' ->]|(ft & fs' & ->)] end;
      [|done]. case_decide; [done|]. by destruct (dir _ !! _).
  - intros f _. eapply keeps_bind; [apply (merge_keeps_shared (fun w => calm w = calm w0)), world_keeps_readers_update|].
    intros _ _. by intros [m1 [s1 w4]] H4.
Qed.

Lemma publish_output_cut pl (Hpl : plan_ok pl) seen n m sh w outs oc t out o m' sh2 w' :
  let d := durable_of (calm w) (file (writer sh)) in let oid := MergeOutput.id out in
  merging pl seen n m sh (calm w) outs oc t -> old_active pl + Z.of_nat (length outs) + 2 < new_active pl ->
  n <= total_bytes (srcs pl) -> output m = Some out -> publish_output (m, (sh, w)) = (o, (m', (sh2, w'))) ->
  whole sh (mlog pl outs) t d w' \/
  exists sh', whole sh' (mlog pl (outs ++ [(oid, oc)])) t d w' /\ writer sh' = writer sh.
Proof.
  intros d oid Hm Hroom Hn Eo Hrun. pose proof (outside_output pl Hpl _ _ _ _ _ _ _ _ _ Hm Hroom Eo) as Hout.
  destruct (output_on_sync _ _ _ _ _ _ _ _ Hout) as [(_ & _ & Hw1 & _) _]. fold d in Hw1.
  unfold publish_output, bind at 1, gets in Hrun. cbn [fst] in Hrun. rewrite Eo in Hrun.
  unfold bind at 1, on_output in Hrun. rewrite Eo in Hrun.
  destruct (MergeOutput.sync (out, w)) as [[[]|e|] [out' w1]] eqn:Esync; cbn [fst snd] in *;
    [|left; by injection Hrun as <- <- <- <-|left; by injection Hrun as <- <- <- <-].
  destruct (publish_rename pl Hpl _ _ _ _ _ _ _ _ _ _ _ Hm Hroom Hn Eo Esync) as (Hdir & sh' & He' & Hwr).
  unfold bind at 1, on_world at 1, on_snd at 1 2 in Hrun. cbn [fst snd] in Hrun. unfold rename in Hrun.
  match type of Hrun with context [syscall ?c ?e w1] => destruct (syscall_cases c e w1) as [[fs E]|(ft & fs & E)] end;
    rewrite E in Hrun; [|left; by injection Hrun as <- <- <- <-].
  cbn [set_faults dir] in Hrun. rewrite Hdir in Hrun. right. exists sh'. split; [|done].
  set (w2 := set_dir _ _) in Hrun.
  assert (calm w' = calm w2) as E3.
  { pose proof (publish_rest_calm w2 (data_file_name oid) (fun f => BTreeMap.insert oid f)
      (pending_records m) (set_output m (Some out'), (sh, w2)) eq_refl) as [Hk _]. fold oid in Hrun.
    by rewrite Hrun in Hk. }
  destruct Hw1 as [_ Hdu]. split; [by rewrite E3|]. rewrite Hwr. etrans; [exact Hdu|].
  change (durable_of w1 (file (writer sh))) with (durable_of (calm w2) (file (writer sh))). rewrite <- E3. done.
Qed.

Lemma publish_cut start m todo sh w base t mi :
  phase (AtPublish start m todo) sh (calm w) base t mi -> survives_cut (AtPublish start m todo) sh w base t.
Proof.
  intros (-> & pl & d & rest & outs & oc & -> & Hsp & Hrd & Hm & Hfull & Ho & _).
  pose proof (rd_plan _ _ _ _ _ _ _ _ Hrd) as Hpl. pose proof (done_bytes _ _ _ Hsp) as Hd.
  pose proof (output_room pl Hpl _ _ _ _ _ _ _ _ Hm Hfull Hd) as Hroom.
  destruct (output m) as [out|] eqn:Eo; [|done].
  destruct (publish_output (m, (sh, w))) as [o [m' [sh2 w']]] eqn:Hrun.
  assert (step_leaves (AtPublish start m todo) sh w = w') as Ew.
  { unfold step_leaves. cbn [step]. by rewrite run_local_leaves, Hrun. }
  intros strict k. rewrite Ew. intros Hb Hs.
  destruct (publish_output_cut pl Hpl _ _ _ _ _ _ _ _ _ _ _ _ _ Hm Hroom Hd Eo Hrun) as [Hw|(sh' & Hw & Hwr)].
  - by eapply saved_whole.
  - rewrite <- (published_values pl _ _ _ _ _ _ _ _ _ Hm Eo). by eapply saved_whole; [rewrite Hwr| | |exact Hs].
Qed.

(** Deleting a source: its data file goes first, its hint file may stay. *)
Lemma deleted_data id w : deleted id w (set_dir w (delete (data_file_name id) (dir w))).
Proof.
  split; [done|apply lookup_delete_eq|..]; cbn [dir set_dir].
  - intros n h Hn. by apply lookup_delete_Some in Hn as [_ ?].
  - intros n H1 H2. by apply lookup_delete_ne.
Qed.

Lemma deleted_hint id w w' :
  deleted id w w' -> deleted id w (set_dir w' (delete (hint_file_name id) (dir w'))).
Proof.
  intros [D1 D2 D3 D4]. split; cbn [dir set_dir].
  - by rewrite D1.
  - rewrite lookup_delete_ne; [done|]. apply not_eq_sym, data_ne_hint.
  - intros n h [_ Hn]%lookup_delete_Some. by apply D3.
  - intros n H1 H2. rewrite lookup_delete_ne by done. by apply D4.
Qed.

Lemma remove_file_cut n w :
  let w' := snd (remove_file n w) in
  calm w' = calm w \/ calm w' = set_dir (calm w) (delete n (dir w)).
Proof.
  unfold remove_file.
  match goal with |- context [syscall ?c ?e w] => destruct (syscall_cases c e w) as [[fs ->]|(ft & fs & ->)] end;
    [|by left]. cbn [set_faults dir]. destruct (dir w !! n); [by right|by left].
Qed.

Lemma path_exists_cut n w : exists b, fst (path_exists n w) = Ok b /\ calm (snd (path_exists n w)) = calm w.
Proof.
  unfold path_exists.
  match goal with |- context [syscall ?c ?e w] => destruct (syscall_cases c e w) as [[fs ->]|(ft & fs & ->)] end;
    by eexists.
Qed.

Lemma remove_source_cut id w o w' :
  remove_source id w = (o, w') -> calm w' = calm w \/ deleted id (calm w) (calm w').
Proof.
  intros Hrun. unfold remove_source, bind at 1 in Hrun. pose proof (remove_file_cut (data_file_name id) w) as H1.
  destruct (remove_file (data_file_name id) w) as [o1 w1] eqn:E1. cbn [snd] in H1. cbn zeta in H1.
  destruct H1 as [H1|H1].
  { assert (forall a, o1 <> Ok a) as Hno.
    { intros a ->. unfold remove_file in E1.
      match type of E1 with syscall ?c ?e w = _ => destruct (syscall_cases c e w) as [[fs E]|(ft & fs & E)] end;
        rewrite E in E1; [|done]. cbn [set_faults dir] in E1. destruct (dir w !! data_file_name id) as [h|] eqn:Eh; [|done].
      injection E1 as _ <-. apply (f_equal (fun v => dir v !! data_file_name id)) in H1.
      cbn [calm set_faults set_dir dir] in H1. by rewrite lookup_delete_eq, Eh in H1. }
    left. destruct o1; [by destruct (Hno a)|by injection Hrun as <- <-|by injection Hrun as <- <-]. }
  right. pose proof (deleted_data id (calm w)) as Hd. cbn [calm set_faults dir] in Hd. fold (calm w) in Hd.
  rewrite <- H1 in Hd. destruct o1 as [[]|e|]; [|by injection Hrun as <- <-|by injection Hrun as <- <-].
  unfold bind in Hrun. destruct (path_exists_cut (hint_file_name id) w1) as (b & Hb & Hw2).
  destruct (path_exists (hint_file_name id) w1) as [o2 w2]. cbn [fst snd] in *. subst o2. rewrite <- Hw2 in Hd.
  destruct b; [|by injection Hrun as <- <-].
  pose proof (remove_file_cut (hint_file_name id) w2) as H3. rewrite Hrun in H3. cbn [snd] in H3.
  destruct H3 as [->| ->]; [done|]. exact (deleted_hint id (calm w) (calm w2) Hd).
Qed.

Lemma remove_cut start m id ids sh w base t mi :
  phase (AtRemove start m (id :: ids)) sh (calm w) base t mi ->
  survives_cut (AtRemove start m (id :: ids)) sh w base t.
Proof.
  intros Hph. pose proof (phase_lagging _ _ _ _ _ _ Hph) as Hl.
  destruct Hph as (-> & Ho & Hst & fr & rest & old & Hr).
  destruct (remove_source id w) as [o w'] eqn:Hrun.
  assert (step_leaves (AtRemove start m (id :: ids)) sh w = w') as Ew.
  { unfold step_leaves. cbn [step]. rewrite run_local_leaves. unfold on_world, on_snd. cbn [fst snd]. by rewrite Hrun. }
  destruct (remove_source_cut _ _ _ _ Hrun) as [Hc|Hdel]; [eapply cut_same; [exact Hl|by rewrite Ew]|].
  intros strict n Hb Hs. rewrite Ew in *.
  pose proof (rm_engine _ _ _ _ _ _ _ _ Hr) as He.
  destruct (removing_head _ _ _ _ _ _ _ _ _ Hr) as [(cs & fr' & -> & Hfr)|[Hfr Hno]].
  - destruct (removing_delete _ _ _ _ _ _ _ _ _ _ Hr Hfr) as (_ & _ & _ & _ & Est). rewrite Est.
    rewrite (rm_base _ _ _ _ _ _ _ _ Hr) in He, Est. rewrite !log_of_eq in Est.
    pose proof (engine_delete _ _ _ _ _ _ _ _ He Hdel Est) as He'.
    eapply saved_whole; [reflexivity| |done|exact Hs]. split; [exact He'|].
    change (durable_of w' (file (writer sh))) with (durable_of (calm w') (file (writer sh))).
    by rewrite (del_rest _ _ _ Hdel).
  - assert (calm w' = calm w) as E.
    { clear Hdel Hb Ew. revert Hrun. unfold remove_source, bind at 1, remove_file.
      match goal with |- context [syscall ?c ?e w] => destruct (syscall_cases c e w) as [[fs ->]|(ft & fs & ->)] end;
        [|by intros [= <- <-]]. cbn [set_faults dir] in *. cbn [calm set_faults dir] in Hno. rewrite Hno.
      by intros [= <- <-]. }
    rewrite <- Ew in *. by eapply cut_same.
Qed.

(** The map survives a step of the merge thread that is cut anywhere. *)
Lemma merge_cut pc sh w base t mi :
  phase pc sh (calm w) base t mi -> roomy sh (calm w) -> survives_cut pc sh w base t.
Proof.
  intros Hph Hroom. pose proof (phase_lagging _ _ _ _ _ _ Hph) as Hl.
  assert (forall w', step_leaves pc sh w = w' -> calm w' = calm w -> survives_cut pc sh w base t) as Hsame.
  { intros w' E Ew. eapply cut_same; [exact Hl|by rewrite E]. }
  destruct pc as [| |start m [|f todo]|start m id fuel rr todo|start m todo|start m [|p ps] todo|start m [|id ids]|start m|o m|].
  - by eapply Hsame.
  - by eapply start_cut.
  - eapply Hsame; [|done]. unfold step_leaves. cbn [step]. by destruct (output m).
  - by eapply file_cut.
  - by eapply record_cut.
  - by eapply publish_cut.
  - by eapply Hsame.
  - eapply Hsame; [|done]. unfold step_leaves. cbn [step]. rewrite run_local_leaves.
    assert (merge_keeps (eq w) (on_shared (apply_pending p))) as Hk.
    { apply merge_keeps_shared. unfold apply_pending. follow. }
    by destruct (Hk (m, (sh, w)) eq_refl) as [<- _].
  - by eapply Hsame.
  - by eapply remove_cut.
  - eapply Hsame; [|done]. unfold step_leaves. cbn [step]. rewrite run_local_leaves.
    assert (merge_keeps (eq w) (on_shared (finish_stale (init_stale_bytes start)))) as Hk.
    { apply merge_keeps_shared. unfold finish_stale. follow. }
    by destruct (Hk (m, (sh, w)) eq_refl) as [<- _].
  - destruct Hph as (_ & Ho & _). eapply Hsame; [|done]. unfold step_leaves.
    destruct o; cbn [step snd]; unfold drop_output; by rewrite Ho.
  - done.
Qed.

End cut.
