(* ===== verification/CutTheorems.v ===== *)
(** * A crash in the middle of a step

    The store with its threads, stopped at any system call of any step: the process
    or the machine stops while a thread is in the middle of a write or of a read, or
    while the merge thread is in the middle of one of its steps, with any part of the
    bytes that were being written in the file. *)

From Stdlib Require Import ZArith Lia Strings.Byte.
From stdpp Require Import base numbers list strings gmap.
From S2P Require Import Prelude Bytes Crc CommandFormat HintFormat Streams Reader KeyDir Text Names Config FileSystem Lock BTree Engine Load Merge MergeSteps System Log Inv EngineProofs Replay Recovery Durability Faults MergeFiles MergeState MergeCopy MergePublish MergeProofs Interference Phases PhaseSteps SystemProofs SystemTheorems Keeps Cut CutOpen CutMerge.
Import Command(Command, Set_, Rm).
Import Shared Bitcask.

Local Open Scope Z_scope.

(** The system with a schedule of faults for its coming system calls. *)
Definition under (s : Sys) (fs : list (option Fault)) : Sys :=
  set_store s (handle s, set_faults (world s) fs).

Definition starts_write (th : Thread) : bool :=
  match th with Called (OSet _ _) | Removing _ => true | _ => false end.

(** How many commands may be lost, with [SyncOnEveryPut], when the action is cut: the
    one of the write that holds the mutex, or takes it. *)
Definition at_risk (s : Sys) (a : Action) : nat :=
  match holder s, a with
  | Some _, _ => 1
  | None, Advance tid => match threads s !! tid with
                         | Some th => if starts_write th then 1 else 0
                         | None => 0
                         end
  | None, _ => 0
  end.

Section cut.
Context `{Crc : Crc32}.

Definition sync_always (s : Sys) : Prop :=
  Config.durability_policy (config (shared (handle s))) = SyncOnEveryPut.

Lemma unsynced_at_risk s a : (unsynced (holder s) <= at_risk s a)%nat.
Proof. unfold unsynced, at_risk. destruct (holder s); lia. Qed.

Lemma saved_weaken strict n n' m w : (n <= n')%nat -> saved strict n m w -> saved strict n' m w.
Proof.
  intros Hn (sh & w' & base & t & He & Hm & Hb & Hc & Hs). exists sh, w', base, t. split_and!; try done.
  intros Hst. destruct (Hs Hst) as (pre & post & H1 & H2 & H3). exists pre, post. split_and!; [done|lia|done].
Qed.

Lemma calm_quiet w fs : faults w = [] -> calm (set_faults w fs) = w.
Proof. intros Hc. destruct w. cbn in *. by subst. Qed.

Section action.
Context (s : Sys) (m : gmap (list byte) (list byte)) (sps : gmap nat Spec.Thread)
  (base : list (Z * list Command)) (t : Tail) (mi : gmap (list byte) IndexValue).
Context (Hs : simulates s {| Spec.map := m; Spec.threads := sps |} base t mi)
  (Hroom : roomy (shared (handle s)) (world s)).
Context (fs : list (option Fault)).

Lemma calm_under : calm (set_faults (world s) fs) = world s.
Proof using Hs.
  destruct (phase_lagging _ _ _ _ _ _ (sm_phase _ _ _ _ _ Hs)) as [[iv He] _ _].
  by apply calm_quiet, (e_calm _ _ _ _ _ He).
Qed.

(** A step that changes nothing on the disk. *)
Lemma saved_same w' n :
  calm w' = world s -> (unsynced (holder s) <= n)%nat -> stored_bytes w' <= u64_max -> saved (sync_always s) n m w'.
Proof using Hs.
  intros E Hn Hb. pose proof Hs as [Hph _ Hv _ _ Hsy]. cbn [Spec.map] in Hv. rewrite <- Hv.
  destruct (phase_lagging _ _ _ _ _ _ Hph) as [[iv He] _ _]. rewrite <- E in He.
  eapply saved_weaken, saved_engine; [exact Hn|exact He|done|done|]. rewrite E. exact Hsy.
Qed.

(** The first half of a write. *)
Lemma start_write_cut tid (mk : Z -> Command) s' m' :
  (forall ts, is_u64 ts -> good_cmd (mk ts)) ->
  (forall ts iv st, values st = m -> values (apply1 st (mk ts, iv)) = m') ->
  start_write (under s fs) tid mk = Some s' -> stored_bytes (world s') + record_max <= u64_max ->
  saved (sync_always s) 1 m' (world s').
Proof using Hs Hroom.
  intros Hmk Hm' Hrun Hb. pose proof Hs as [Hph Hgood Hv _ _ Hsy]. cbn [Spec.map] in Hv.
  unfold start_write in Hrun. cbn [under set_store holder handle world fst snd] in Hrun.
  destruct (holder s) eqn:Eh; [done|].
  assert (world s' = left_in (write_record mk (handle s, set_faults (world s) fs))) as E.
  { unfold left_in. destruct (write_record mk (handle s, set_faults (world s) fs)) as [[[]|e|] hw]; by injection Hrun as <-. }
  rewrite E in *. pose proof calm_under as Ec.
  destruct (write_record_cut (sync_always s) (merger s) (handle s) (set_faults (world s) fs) base t mi mk)
    as (ts & Hts & Hsv); rewrite ?Ec; try done; [apply Hroom|].
  rewrite state_tail_write in Hsv. by rewrite (Hm' ts _ _ Hv) in Hsv.
Qed.

(** Steps that only read. *)
Lemma read_step_cut {A} tid (c : BM A) k fail :
  world_keeps (fun w => calm w = world s) c ->
  calm (world (read_step (under s fs) tid c k fail)) = world s.
Proof using Hs.
  intros Hc. unfold read_step. destruct (Hc (handle s, set_faults (world s) fs) calm_under) as [H _].
  cbn [under set_store handle world fst snd] in *.
  by destruct (c (handle s, set_faults (world s) fs)) as [[a|e|] [h w]].
Qed.

Lemma world_keeps_reads k e :
  world_keeps (fun w => calm w = world s) (get_index k) /\
  world_keeps (fun w => calm w = world s) (remove_check k) /\
  world_keeps (fun w => calm w = world s) (get_read e).
Proof using.
  unfold get_index, remove_check, get_read. split_and!; follow. apply world_keeps_on.
  apply keeps_call; [done| |intros f; apply keeps_throw]. intros w Hw. by case_match.
Qed.

(** The step of a thread. *)
Lemma advance_cut tid th s' :
  threads s !! tid = Some th -> advance (under s fs) tid th = Some s' ->
  stored_bytes (world s') + record_max <= u64_max ->
  exists sp', silent {| Spec.map := m; Spec.threads := sps |} sp' /\
    saved (sync_always s) (at_risk s (Advance tid)) (Spec.map sp') (world s').
Proof using Hs Hroom.
  intros Hth Hrun Hb. pose proof (unsynced_at_risk s (Advance tid)) as Hrisk.
  destruct (threads_lookup _ _ _ _ _ _ (sm_threads _ _ _ _ _ Hs) Hth) as (u & Hu & Hmatch). cbn [Spec.threads] in Hu.
  assert (starts_write th = true -> at_risk s (Advance tid) = 1%nat) as Hone.
  { intros Hw. unfold at_risk. rewrite Hth, Hw. by destruct (holder s). }
  assert (record_max >= 0) as Hmax by by unfold record_max. 
  assert (calm (world s') = world s -> exists sp', silent {| Spec.map := m; Spec.threads := sps |} sp' /\
    saved (sync_always s) (at_risk s (Advance tid)) (Spec.map sp') (world s')) as Hsame.
  { intros E. eexists. split; [by left|]. apply saved_same; [done|done|lia]. }
  destruct th as [[k v|k|k]|k e|k| |r]; cbn [advance] in Hrun.
  - destruct Hmatch as [-> Hfit]. rewrite Hone by done. eexists. split; [right; by apply Spec.set|].
    eapply (start_write_cut tid (fun now => Set_ now k v)); [|..|exact Hrun|done].
    + intros ts Hts. by apply good_set.
    + intros ts iv st <-. by rewrite values_apply1.
  - injection Hrun as <-. apply Hsame, read_step_cut, (world_keeps_reads k). exact (place 0 0 (Rm 0 [])).
  - injection Hrun as <-. apply Hsame, read_step_cut, (world_keeps_reads k). exact (place 0 0 (Rm 0 [])).
  - injection Hrun as <-. apply Hsame, read_step_cut, (world_keeps_reads k).
  - destruct Hmatch as [-> Hfit]. rewrite Hone by done. eexists. split; [right; by apply Spec.remove_delete|].
    eapply (start_write_cut tid (fun now => Rm now k)); [|..|exact Hrun|done].
    + intros ts Hts. by apply good_rm.
    + intros ts iv st <-. by rewrite values_apply1.
  - injection Hrun as <-. eexists. split; [by left|]. cbn [Spec.map].
    pose proof Hs as [Hph _ Hv _ _ Hsy]. cbn [Spec.map] in Hv. rewrite <- Hv.
    assert (world (finish_write (under s fs) tid) =
      left_in (with_writer_lock_b post_write_ops (handle s, set_faults (world s) fs))) as E.
    { unfold finish_write, left_in. cbn [under set_store handle world fst snd].
      by destruct (with_writer_lock_b post_write_ops (handle s, set_faults (world s) fs)) as [o [h w]]. }
    rewrite E in *. eapply saved_weaken; [exact Hrisk|].
    eapply (post_write_cut (sync_always s)); rewrite ?calm_under; [by eapply phase_lagging|apply Hroom|lia|exact Hsy].
  - done.
Qed.

(** The step of the merge thread. *)
Lemma merge_step_cut s' :
  merge_step (under s fs) = Some s' -> stored_bytes (world s') <= u64_max ->
  saved (sync_always s) (at_risk s Merge_) m (world s').
Proof using Hs Hroom.
  intros Hrun Hb. pose proof (unsynced_at_risk s Merge_) as Hrisk. pose proof Hs as [Hph _ Hv _ _ Hsy].
  unfold merge_step in Hrun. cbn [under set_store merger handle world holder fst snd] in Hrun.
  assert (merger s = Merger.Waiting \/ merger s <> Merger.Waiting) as [E|E]
    by (destruct (merger s); (by left) || by right).
  { rewrite E in Hrun. destruct (compaction_tx (handle s)) as [[]|]; try done. injection Hrun as <-.
    apply saved_same; [apply calm_under|done|done]. }
  assert (world s' = step_leaves (merger s) (shared (handle s)) (set_faults (world s) fs)) as Ew.
  { unfold step_leaves. destruct (merger s); try done; destruct (needs_mutex _ && _); try done;
      destruct (Merger.step _ _) as [pc' [sh' w']]; by injection Hrun as <-. }
  rewrite Ew in *. cbn [Spec.map] in Hv. rewrite <- Hv. eapply saved_weaken; [exact Hrisk|].
  eapply merge_cut; rewrite ?calm_under; [exact Hph|exact Hroom|done|exact Hsy].
Qed.

End action.
(** Any action. *)
Lemma act_cut s sp a fs e s' :
  sim s sp -> roomy (shared (handle s)) (world s) -> act a (under s fs) = Some (e, s') ->
  stored_bytes (world s') + record_max <= u64_max ->
  exists sp', silent sp sp' /\ saved (sync_always s) (at_risk s a) (Spec.map sp') (world s').
Proof.
  intros (base & t & mi & Hs) Hroom Hact Hb. destruct sp as [m sps].
  assert (stored_bytes (world s') <= u64_max) as Hb' by (unfold record_max in Hb; lia).
  assert (world s' = set_faults (world s) fs -> exists sp', silent {| Spec.map := m; Spec.threads := sps |} sp' /\
    saved (sync_always s) (at_risk s a) (Spec.map sp') (world s')) as Hsame.
  { intros E. eexists. split; [by left|]. eapply saved_same; [exact Hs| |apply unsynced_at_risk|done].
    rewrite E. by eapply calm_under. }
  destruct a as [tid op|tid|tid|]; cbn [act] in Hact; cbn [under set_store threads] in Hact.
  - destruct (threads s !! tid); [done|]. injection Hact as <- <-. by apply Hsame.
  - destruct (threads s !! tid) as [th|] eqn:Eth; [|done].
    destruct (advance _ tid th) as [s1|] eqn:Ea; [|done]. injection Hact as <- <-. by eapply advance_cut.
  - destruct (threads s !! tid) as [[| | | |r]|]; try done. injection Hact as <- <-. by apply Hsame.
  - destruct (merge_step _) as [s1|] eqn:Em; [|done]. injection Hact as <- <-.
    eexists. split; [by left|]. by eapply merge_step_cut.
Qed.

Lemma in_range_end l s es s' :
  in_range l s -> run l s = Some (es, s') -> roomy (shared (handle s')) (world s').
Proof.
  revert s es. induction l as [|a l IH]; intros s es Hin Hrun; cbn [run] in Hrun.
  { injection Hrun as <- <-. apply Hin. }
  destruct Hin as [_ [_ Hin]]. destruct (act a s) as [[e s1]|]; [|done].
  destruct (run l s1) as [[es1 s2]|] eqn:E; [|done]. apply (IH s1 es1); [done|]. by destruct e; injection Hrun as _ <-.
Qed.

Section open.
Context (order : list Name -> list Name) (order_perm : forall l, order l ≡ₚ l).


End open.
End cut.

(** ** Concrete crashes *)

(** A check that implies [inodes_ok]. *)
Definition inodes_fine (w : World) : bool :=
  bool_decide (map_Forall (fun _ i => 0 <= durable i <= blen (content i)) (inodes w)).

Lemma inodes_check w : inodes_fine w = true -> inodes_ok w.
Proof.
  intros H h. unfold inodes_fine in H. rewrite bool_decide_eq_true in H. unfold durable_of, bytes_of.
  destruct (inodes w !! h) as [i|] eqn:E; [by apply (H h)|done].
Qed.

(** A crash after which all that was written is on the disk. *)
Definition restart (w : World) : World :=
  {| dir := dir w; others := others w;
     inodes := (fun i => {| content := content i; durable := blen (content i) |}) <$> inodes w;
     next_inode := next_inode w; flock := false; clock := clock w; ticks := ticks w; faults := [] |}.

Lemma crash_restart w : inodes_ok w -> clock_ok 0 w -> crash w (restart w).
Proof.
  intros Hi Hclk. split; try done. intros h. specialize (Hi h). exists (blen (bytes_of w h)). split; [lia|].
  unfold bytes_of, durable_of, restart, ztake, blen in *. cbn [inodes]. rewrite lookup_fmap.
  destruct (inodes w !! h) as [i|]; cbn [fmap option_fmap option_map content durable]; [|done].
  by rewrite Nat2Z.id, firstn_all.
Qed.

(** The truncation of the torn record fails when the directory is opened again, and the
    machine stops a second time. *)
Definition no_truncation : list (option Fault) :=
  replicate 17 None ++ [Some {| kind := Other; partial := 0 |}].

Definition second_try (w : World) : outcome Handle * World :=
  Open.open (Crc := crc32_ieee) (fun l => l) sample_config (set_faults w no_truncation).

(** Five bytes of a record are written when the machine stops. *)
Definition torn_set : list Action := whole_set (lit "a") (lit "1") ++ [Invoke 1 (OSet (lit "b") (lit "2"))].
Definition five_bytes : list (option Fault) := [Some {| kind := Other; partial := 5 |}].

Definition torn_end : option (list Event * Sys * Sys) :=
  match run (Crc := crc32_ieee) torn_set (booted (fresh_handle sample_config) fresh_world) with
  | Some (es, s) => match act (Crc := crc32_ieee) (Advance 1) (under s five_bytes) with
                    | Some (_, s') => Some (es, s, s')
                    | None => None
                    end
  | None => None
  end.

Lemma torn_facts :
  match torn_end with
  | None => False
  | Some (es, s, s') => stored_bytes (world s') + record_max <= u64_max /\ sync_always s /\
      at_risk s (Advance 1) = 1%nat /\ inodes_fine (world s') = true /\ clock_ok 0 (world s') /\
      durable_of (world s') (file (writer (shared (handle s')))) + 5 =
      blen (bytes_of (world s') (file (writer (shared (handle s'))))) /\
      let '(o, w) := second_try (restart (world s')) in
      o = Err (Io Other) /\ faults w = [] /\ inodes_fine w = true /\ clock_ok 0 w
  end.
Proof. vm_compute. intuition discriminate. Qed.

