(* ===== verification/Closing.v ===== *)
(** * A merge left alone, and closing the store

    Between the calls of one thread a merge may run to its end, at the latest when
    the last handle is dropped: whatever handles of merged files are left over from
    earlier merges, it ends without a panic and the store has the same map. So a
    store that is closed leaves its map in the directory, with a merge still due or
    not. *)

From Stdlib Require Import ZArith Lia Strings.Byte.
From stdpp Require Import base numbers list strings gmap.
From S2P Require Import Prelude Bytes Crc CommandFormat HintFormat Streams Reader KeyDir Text Names Config FileSystem Lock BTree Engine Load Merge MergeSteps Log Inv EngineProofs Replay Recovery Durability FirstOpen MergeState MergeProofs Interference Phases PhaseSteps SystemTheorems Cut.
Import Command(Command, Set_, Rm).
Import Shared Bitcask Merger.

Local Open Scope Z_scope.

Section closing.
Context `{Crc : Crc32}.

(** ** The machine left alone *)

Lemma step_not_starting pc s : pc <> Starting -> fst (step pc s) <> Starting.
Proof.
  intros Hne E. destruct (step pc s) as [pc' s'] eqn:Hs. cbn [fst] in E. subst pc'.
  assert (moves pc Starting) as Hm%moves_below.
  { destruct pc; try done; cbn [moves]; by eexists s, s'. }
  unfold below in Hm. cbn [rank] in Hm. destruct pc; try done; cbn [rank] in Hm; inversion Hm; lia.
Qed.

(** Where the machine is after any number of steps. *)
Definition arrived (c : PC * (Shared * World)) (m : gmap (list byte) (list byte)) (cfg : Config.Config) : Prop :=
  exists base t mi, phase (fst c) (fst (snd c)) (snd (snd c)) base t mi /\
    readers_good (fst (snd c)) (snd (snd c)) (cur t) /\
    values (state_of (log_of base t)) = m /\ config (fst (snd c)) = cfg.

Lemma arrived_step pc s m cfg :
  arrived (pc, s) m cfg -> (pc = Starting -> roomy (fst s) (snd s)) -> arrived (step pc s) m cfg.
Proof.
  destruct s as [sh w]. intros (base & t & mi & Hph & Hg & Hv & Hc) Hroom. cbn [fst snd] in *.
  destruct (merge_steps _ _ _ _ _ _ Hph Hg Hroom) as (pc' & sh' & w' & b' & t' & mi' & Hs & Hph' & []).
  rewrite Hs. exists b', t', mi'. cbn [fst snd]. split_and!; (done || congruence).
Qed.

Lemma arrived_steps n c m cfg :
  arrived c m cfg -> fst c <> Starting -> arrived (steps n c) m cfg /\ fst (steps n c) <> Starting.
Proof.
  intros Ha Hne. induction n as [|n [IH IHn]]; [done|].
  change (steps (S n) c) with (let '(pc, s) := steps n c in step pc s).
  destruct (steps n c) as [pc s]. split.
  - by apply arrived_step.
  - by apply step_not_starting.
Qed.

(** [run_compaction] on an open store, whatever handles earlier merges left: it
    returns, with an error perhaps, and the store has the same map. *)
Lemma compaction_alone sh w front cur cmds :
  engine sh w front cur cmds -> readers_good sh w cur -> roomy sh w ->
  exists o sh' w' front' cur' cmds',
    Compaction.run_compaction (sh, w) = (o, (sh', w')) /\ o <> Panic /\
    engine sh' w' front' cur' cmds' /\ readers_good sh' w' cur' /\ config sh' = config sh /\
    values (state_of (front' ++ [(cur', cmds')])) = values (state_of (front ++ [(cur, cmds)])).
Proof.
  intros He Hg Hr. pose proof (compaction_steps (sh, w)) as Hsteps.
  destruct (Compaction.run_compaction (sh, w)) as [o [sh' w']]. destruct Hsteps as [n Hn].
  assert (arrived (settled o, (sh', w')) (values (state_of (front ++ [(cur, cmds)]))) (config sh))
    as (base & t & mi & Hph & Hg' & Hv & Hc).
  { destruct n as [|n]; [by destruct o|]. rewrite <- Hn. unfold steps. rewrite Nat.iter_succ_r.
    apply arrived_steps.
    - apply arrived_step; [|done]. set (t := {| later := front; MergeState.cur := cur; MergeState.cmds := cmds |}).
      by exists [], t, (up_to_date [] t).
    - cbn [step]. by destruct (Compaction.begin (sh, w)) as [[[start|]|e|] s']. }
  cbn [fst snd] in *. rewrite log_of_eq in Hv.
  exists o, sh', w', (base ++ later t), (MergeState.cur t), (MergeState.cmds t).
  destruct o; cbn [settled phase] in Hph; [..|done]; by destruct Hph.
Qed.

(** ** The handles of a store that has not merged yet *)

(** Ascending maps with the same keys have their keys in the same order. *)
Lemma sorted_keys_eq {V W} lo (l : list (Z * V)) (k : list (Z * W)) :
  sorted_from lo l -> sorted_from lo k -> (forall i, i ∈ l.*1 <-> i ∈ k.*1) -> l.*1 = k.*1.
Proof.
  revert lo k. induction l as [|[i v] l IH]; intros lo [|[j u] k] Hl Hk Hin; cbn [fmap list_fmap fst] in *.
  - done.
  - by destruct (not_elem_of_nil j); apply Hin; left.
  - by destruct (not_elem_of_nil i); apply Hin; left.
  - destruct Hl as [_ Hl], Hk as [_ Hk].
    assert (forall A x (m : list (Z * A)) n, sorted_from x m -> n ∈ m.*1 -> x < n) as Hlt.
    { intros A x m n Hm ([n' a] & -> & Hn)%list_elem_of_fmap. by eapply sorted_from_elem. }
    assert (i = j) as ->.
    { assert (i ∈ j :: k.*1) as [->|Hi]%elem_of_cons by (apply Hin; left); [done|].
      assert (j ∈ i :: l.*1) as [->|Hj]%elem_of_cons by (apply Hin; left); [done|].
      pose proof (Hlt _ _ _ _ Hk Hi). pose proof (Hlt _ _ _ _ Hl Hj). lia. }
    f_equal. apply (IH j k Hl Hk). intros n. specialize (Hin n). rewrite !elem_of_cons in Hin.
    split; intros Hn; [pose proof (Hlt _ _ _ _ Hl Hn)|pose proof (Hlt _ _ _ _ Hk Hn)];
      destruct Hin as [H1 H2]; [destruct (H1 (or_intror Hn))|destruct (H2 (or_intror Hn))]; (done || lia).
Qed.

(** The handles are those of the files of the log, as [open] leaves them. *)
Definition handles_exact (sh : Shared) (log : list (Z * list Command)) : Prop := (readers sh).*1 = log.*1.

Lemma handles_exact_good sh w front cur cmds :
  engine sh w front cur cmds -> handles_exact sh (front ++ [(cur, cmds)]) -> readers_good sh w cur.
Proof. intros He. by apply (exact_good _ _ _ _ _ He). Qed.

Lemma handles_exact_bytes sh w front cur cmds :
  engine sh w front cur cmds -> handles_exact sh (front ++ [(cur, cmds)]) ->
  snapshot_bytes sh w = total_bytes front.
Proof.
  intros He Hx. unfold handles_exact in Hx. rewrite fmap_app in Hx.
  destruct (sources_exact _ _ _ _ _ He Hx) as [Hs _ _ _].
  symmetry. by apply handles_bytes in Hs.
Qed.

(** A write keeps that, rotating or not. *)
Lemma handles_exact_advance n sh w front cur cmds sh' w' front' cur' cmds' c :
  engine sh w front cur cmds -> engine sh' w' front' cur' cmds' -> advances n sh w sh' w' ->
  same_log (front ++ [(cur, cmds ++ [c])]) (front' ++ [(cur', cmds')]) ->
  handles_exact sh (front ++ [(cur, cmds)]) -> handles_exact sh' (front' ++ [(cur', cmds')]).
Proof.
  intros He He' Ha Hlog Hx. unfold handles_exact in *.
  pose proof (e_readers_ok _ _ _ _ _ He') as [lo1 Hs1]%btree_ok_from.
  pose proof (d_ascending _ _ _ _ _ (e_disk _ _ _ _ _ He')) as [lo2 Hs2]%btree_ok_from.
  apply (sorted_keys_eq (lo1 `min` lo2)); [eapply sorted_from_weaken; [|done]; lia..|].
  assert (forall i, i ∈ (front ++ [(cur, cmds)]).*1 -> i ∈ (front' ++ [(cur', cmds')]).*1) as Hsub.
  { intros i. destruct Hlog as [->|[id ->]]; rewrite !fmap_app; cbn [fmap list_fmap fst]; rewrite !elem_of_app; tauto. }
  intros i. split.
  - intros ([i' h] & -> & Hin)%list_elem_of_fmap. cbn [fst].
    pose proof (e_readers _ _ _ _ _ He' _ _ Hin) as (_ & Hle & _).
    apply btree_get_elem in Hin; [|apply He'].
    destruct (decide (BTreeMap.get i' (readers sh') = BTreeMap.get i' (readers sh))) as [E|E].
    + rewrite Hin in E. symmetry in E. apply btree_get_elem in E; [|apply He].
      apply Hsub. rewrite <- Hx. by apply (list_elem_of_fmap_2 fst) in E.
    + apply (g_readers_new _ _ _ _ (a_grown _ _ _ _ _ Ha)) in E. pose proof (a_cur _ _ _ _ _ Ha).
      rewrite (e_cur _ _ _ _ _ He), (e_cur _ _ _ _ _ He') in *.
      assert (i' = cur') as -> by lia. rewrite fmap_app. apply elem_of_app. right. left.
  - intros ([i' cs] & -> & Hin)%list_elem_of_fmap. cbn [fst].
    pose proof (e_covered _ _ _ _ _ He' _ _ Hin) as Hcov.
    apply elem_of_app in Hin as [Hin|Hin%list_elem_of_singleton].
    + destruct (d_sealed _ _ _ _ _ (e_disk _ _ _ _ _ He') _ _ Hin) as [_ _ _ (h & Hh & _) _].
      rewrite Hh in Hcov. apply btree_get_elem in Hcov; [|apply He']. by apply (list_elem_of_fmap_2 fst) in Hcov.
    + injection Hin as -> ->. rewrite (e_file _ _ _ _ _ He') in Hcov.
      apply btree_get_elem in Hcov; [|apply He']. by apply (list_elem_of_fmap_2 fst) in Hcov.
Qed.

(** ** Room for more writes *)

Lemma room_weaken n n' sh : n' <= n -> room n sh -> room n' sh.
Proof. unfold room, record_max. intros ? (? & ? & ?). split_and!; lia. Qed.

(** [n] more records, the ids of their files and those a merge reserves. *)
Definition budget (n : Z) (c : Config.Config) (bytes last : Z) : Prop :=
  bytes + n * record_max <= u64_max /\ 0 < Config.file_size_threshold c /\
  last + n + (bytes + n * record_max) / Config.file_size_threshold c + 3 <= u64_max.

Lemma budget_weaken n n' c b b' l l' :
  budget n c b l -> n' <= n -> b' + n' * record_max <= b + n * record_max -> l' + n' <= l + n ->
  budget n' c b' l'.
Proof.
  intros (H1 & Ht & H3) Hn Hb Hl. pose proof (Z.div_le_mono _ _ _ Ht Hb). split_and!; lia.
Qed.

(** An open store that has the map [m] and room for [n] more writes, and has not
    merged yet. *)
Definition open_for (n : Z) (h : Handle) (w : World) (m : gmap (list byte) (list byte)) : Prop :=
  exists front cur cmds, engine (shared h) w front cur cmds /\
    handles_exact (shared h) (front ++ [(cur, cmds)]) /\ room n (shared h) /\
    budget n (config (shared h)) (total_bytes (front ++ [(cur, cmds)])) cur /\
    values (state_of (front ++ [(cur, cmds)])) = m.

Lemma open_for_weaken n n' h w m : n' <= n -> open_for n h w m -> open_for n' h w m.
Proof.
  intros Hle (front & cur & cmds & He & Hx & (R1 & R2 & R3) & Hb & Hm). exists front, cur, cmds.
  assert (n' * record_max <= n * record_max) by (unfold record_max; nia).
  split_and!; try done; [unfold room; split_and!; lia|]. eapply budget_weaken; [exact Hb|lia..].
Qed.

(** After a command is appended. *)
Lemma open_for_write n h w front cur cmds c h' w' front' cur' cmds' :
  engine (shared h) w front cur cmds -> handles_exact (shared h) (front ++ [(cur, cmds)]) ->
  room n (shared h) -> budget n (config (shared h)) (total_bytes (front ++ [(cur, cmds)])) cur ->
  good_cmd c -> engine (shared h') w' front' cur' cmds' ->
  same_log (front ++ [(cur, cmds ++ [c])]) (front' ++ [(cur', cmds')]) ->
  advances record_max (shared h) w (shared h') w' ->
  open_for (n - 1) h' w' (values (state_of (front ++ [(cur, cmds ++ [c])]))).
Proof.
  intros He Hx Hr Hb Hc He' Hlog Ha. exists front', cur', cmds'.
  destruct (same_log_state _ _ Hlog) as [Est Etb]. split_and!; try done.
  - eapply (handles_exact_advance record_max); [exact He|exact He'|done..].
  - by eapply room_advances; [exact Ha| |].
  - rewrite (a_config _ _ _ _ _ Ha). pose proof (serialize_max c Hc) as Hs.
    pose proof (a_cur _ _ _ _ _ Ha) as Hcur. rewrite (e_cur _ _ _ _ _ He), (e_cur _ _ _ _ _ He') in Hcur.
    eapply budget_weaken; [exact Hb|lia| |lia].
    rewrite Etb, !total_bytes_app, !total_bytes_one, enc_app, enc_one, blen_app. lia.
  - by rewrite Est.
Qed.

Lemma open_for_set n h w m k v :
  open_for n h w m -> 0 < n -> fits k v ->
  exists h' w', set_ k v (h, w) = (Ok tt, (h', w')) /\ open_for (n - 1) h' w' (<[k := v]> m).
Proof.
  intros (front & cur & cmds & He & Hx & Hr & Hb & <-) Hn Hf.
  destruct (set_engine h w front cur cmds k v He) as
    (ts & h' & w' & front' & cur' & cmds' & Hrun & Hg & He' & Hst & Hadv & _);
    [eapply (room_weaken n); [lia|done]|done|].
  exists h', w'. split; [done|].
  pose proof (open_for_write n h w front cur cmds _ h' w' front' cur' cmds' He Hx Hr Hb Hg He' Hst Hadv) as Ho.
  by rewrite state_of_snoc, values_apply1 in Ho.
Qed.

Lemma open_for_remove n h w m k :
  open_for n h w m -> 0 < n ->
  exists h' w', remove k (h, w) = (match m !! k with Some _ => Ok tt | None => Err KeyNotFound end, (h', w')) /\
    open_for (n - 1) h' w' (delete k m).
Proof.
  intros Ho Hn. pose proof Ho as (front & cur & cmds & He & Hx & Hr & Hb & <-).
  pose proof (remove_engine h w front cur cmds k He) as H. rewrite values_lookup.
  specialize (H ltac:(eapply (room_weaken n); [lia|exact Hr])).
  destruct (state_of (front ++ [(cur, cmds)]) !! k) as [e|] eqn:E.
  - destruct H as (ts & h' & w' & front' & cur' & cmds' & Hrun & Hg & He' & Hst & Hadv & _).
    exists h', w'. split; [done|].
    pose proof (open_for_write n h w front cur cmds _ h' w' front' cur' cmds' He Hx Hr Hb Hg He' Hst Hadv) as Ho'.
    by rewrite state_of_snoc, values_apply1 in Ho'.
  - exists h, w. split; [done|]. rewrite delete_id by by rewrite values_lookup, E.
    eapply open_for_weaken; [|exact Ho]. lia.
Qed.

Lemma open_for_get n h w m k : open_for n h w m -> get 1 k (h, w) = (Ok (m !! k), (h, w)).
Proof.
  intros (front & cur & cmds & He & _ & _ & _ & <-).
  apply get_readable; [by apply engine_readable|apply He].
Qed.

(** ** From the directory to the store and back *)

(** A directory that nobody has open and that stores [m], with a torn record at the
    end of the active file perhaps. *)
Definition resting (w : World) (m : gmap (list byte) (list byte)) : Prop :=
  faults w = [] /\ inodes_ok w /\ clock_ok 0 w /\ lock_free w /\
  exists front cur cmds tail, disk w front cur cmds tail /\ (tail = [] \/ torn tail) /\
    values (state_of (front ++ [(cur, cmds)])) = m.

(** A process that ends without closing its store: the system releases the lock, and
    what was written, synced or not, stays. *)
Lemma engine_rests sh w front cur cmds :
  engine sh w front cur cmds -> resting (set_flock w false) (values (state_of (front ++ [(cur, cmds)]))).
Proof.
  intros He. pose proof (e_marker _ _ _ _ _ He) as [Ho (k & Hk)]. split_and!; try apply He.
  - eapply clock_ok_weaken, (e_clock _ _ _ _ _ He). destruct (e_clock _ _ _ _ _ He). lia.
  - split; [done|]. split; [apply Ho|]. right. split; [done|]. by exists k.
  - exists front, cur, cmds, []. split_and!; [|by left|done].
    eapply disk_step_disk; [|apply He]. by apply disk_step_same; [apply He|..].
Qed.

(** The ids of the data files of a directory. *)
Definition file_ids (w : World) : list Z := omap (fun e => get_file_id (fst e)) (map_to_list (dir w)).

(** The directory has room for [n] more writes, in its files or in the first one. *)
Definition spacious (n : Z) (c : Config.Config) (w : World) : Prop :=
  Forall (budget n c (stored_bytes w)) (1 :: file_ids w).

Lemma file_ids_elem w id h : is_u64 id -> dir w !! data_file_name id = Some h -> id ∈ file_ids w.
Proof.
  intros Hid Hh. apply list_elem_of_omap. exists (data_file_name id, h).
  split; [by apply elem_of_map_to_list|]. by apply get_file_id_data.
Qed.

Lemma spacious_disk n c w front cur cmds tail :
  0 <= n -> spacious n c w -> disk w front cur cmds tail ->
  budget n c (total_bytes (front ++ [(cur, cmds)])) cur.
Proof.
  intros Hn Hs Hd. destruct (d_active _ _ _ _ _ Hd) as (h & Hh & _).
  pose proof (file_ids_elem w cur h (proj1 (d_cur _ _ _ _ _ Hd)) Hh) as Hin.
  eapply Forall_forall in Hs; [|right; exact Hin]. eapply budget_weaken; [exact Hs|lia| |lia].
  pose proof (disk_bytes _ _ _ _ _ Hd). lia.
Qed.

Lemma spacious_by n c w ids bytes :
  file_ids w = ids -> stored_bytes w = bytes -> Forall (budget n c bytes) (1 :: ids) -> spacious n c w.
Proof. by intros <- <-. Qed.

(** Closing: a merge that is still due runs to its end, the active file is synced
    and the lock is released; the map is in the directory. *)
Lemma close_store n h w m :
  open_for n h w m -> 0 < n ->
  exists h' w', Compaction.drop_handle (h, w) = (Ok tt, (h', w')) /\ resting w' m.
Proof.
  intros (front & cur & cmds & He & Hx & Hr & (B1 & Ht & B3) & Hm) Hn.
  assert (0 <= total_bytes front) by apply total_bytes_nonneg.
  assert (total_bytes front <= total_bytes (front ++ [(cur, cmds)])) as Hle.
  { rewrite total_bytes_app, total_bytes_one. pose proof (blen_nonneg (enc cmds)). lia. }
  assert (0 <= n * record_max) by (unfold record_max; lia).
  assert (roomy (shared h) w) as Hroomy.
  { unfold roomy. rewrite (handles_exact_bytes _ _ _ _ _ He Hx), (e_cur _ _ _ _ _ He).
    split_and!; [by eapply room_weaken; [|exact Hr]; lia|done|lia|].
    assert (total_bytes front <= total_bytes (front ++ [(cur, cmds)]) + n * record_max) as Hb by lia.
    pose proof (Z.div_le_mono _ _ _ Ht Hb). lia. }
  assert (exists h1 w1 front1 cur1 cmds1, Compaction.thread_turn (h, w) = (Ok tt, (h1, w1)) /\
    compaction_tx h1 <> Some true /\ engine (shared h1) w1 front1 cur1 cmds1 /\
    values (state_of (front1 ++ [(cur1, cmds1)])) = m)
    as (h1 & w1 & front1 & cur1 & cmds1 & Hturn & Htx & He1 & Hm1).
  { unfold Compaction.thread_turn, bind at 1, gets. cbn [fst].
    destruct (compaction_tx h) as [[]|] eqn:Etx; [|by eexists h, w, front, cur, cmds; rewrite Etx..].
    unfold bind, on_fst, modify, mcatch, on_shared. cbn [fst snd shared compaction_tx].
    destruct (compaction_alone _ _ _ _ _ He (handles_exact_good _ _ _ _ _ He Hx) Hroomy)
      as (o & sh' & w' & front' & cur' & cmds' & -> & Ho & He' & _ & _ & Hv).
    exists {| shared := sh'; compaction_tx := Some false |}, w', front', cur', cmds'.
    split_and!; [by destruct o as [[]| |]|done|done|congruence]. }
  destruct (close_engine h1 w1 _ _ _ He1 Htx) as (h' & w' & Hrun & Hd & Hf & Hi & Hc & Hl).
  exists h', w'. split; [|split_and!; try done; exists front1, cur1, cmds1, []; by split_and!; [|left|]].
  unfold Compaction.drop_handle in *. mstep Hturn.
  assert (Compaction.thread_turn (h1, w1) = (Ok tt, (h1, w1))) as Hturn1.
  { unfold Compaction.thread_turn, bind, gets. cbn [fst]. by destruct (compaction_tx h1) as [[]|]. }
  by rewrite (bind_ok _ _ _ _ _ Hturn1) in Hrun.
Qed.

(** A directory to start from: one that stores [m], or a new one for the empty map. *)
Definition startable (w : World) (m : gmap (list byte) (list byte)) : Prop :=
  resting w m \/
  faults w = [] /\ inodes_ok w /\ clock_ok 0 w /\ lock_free w /\ no_store w /\ m = ∅.

Section open.
Context (order : list Name -> list Name) (order_perm : forall l, order l ≡ₚ l).

Lemma open_resting n c w m :
  resting w m -> 0 <= n -> spacious n c w ->
  exists hd w', Open.open order c w = (Ok hd, w') /\ open_for n hd w' m /\
    config (shared hd) = c /\ flock w' = true.
Proof using order_perm.
  intros (Hc & Hi & Hclk & Hl & front & cur & cmds & tail & Hd & Ht & Hm) Hn Hs.
  pose proof (spacious_disk _ _ _ _ _ _ _ Hn Hs Hd) as Hb. pose proof Hb as (B1 & Bt & B2).
  pose proof (proj1 (d_cur _ _ _ _ _ Hd)) as Hcur.
  assert (0 <= n * record_max) by (unfold record_max; lia).
  destruct (open_engine order order_perm c w front cur cmds tail Hc Hi Hclk Hl Hd Ht)
    as (hd & w' & Hrun & He & Hop); [lia|].
  assert (config (shared hd) = c) as Hcfg by apply Hop.
  exists hd, w'. split_and!; [done| |done|].
  - exists front, cur, cmds. split_and!; [done|apply (o_readers _ _ _ _ _ _ Hop)| | |done].
    + eapply opened_room; [done|exact He|exact Hop|done|]. pose proof (total_bytes_nonneg (front ++ [(cur, cmds)])).
      assert (0 <= (total_bytes (front ++ [(cur, cmds)]) + n * record_max) / Config.file_size_threshold c)
        by (apply Z.div_pos; lia). lia.
    + by rewrite Hcfg.
  - destruct (locked_same w Hi) as (_ & _ & _ & Hfl & _). by rewrite (o_flock _ _ _ _ _ _ Hop).
Qed.

Lemma open_startable n c w m :
  startable w m -> 0 <= n -> spacious n c w ->
  exists hd w', Open.open order c w = (Ok hd, w') /\ open_for n hd w' m /\
    config (shared hd) = c /\ flock w' = true.
Proof using order_perm.
  intros [Hr|(Hc & Hi & Hclk & Hl & Hns & ->)] Hn Hs; [by apply open_resting|].
  destruct (open_first order order_perm c w Hc Hi Hclk Hl Hns) as (hd & w' & w3 & Hrun & He & Hop & Hfl).
  assert (config (shared hd) = c) as Hcfg by apply Hop.
  assert (0 <= stored_bytes w) as Hb0.
  { unfold stored_bytes. induction (map_to_list (dir w)) as [|e l IH]; cbn [foldr]; [done|].
    pose proof (blen_nonneg (bytes_of w (snd e))). lia. }
  assert (budget n c (total_bytes [(1, [])]) 1) as Hb.
  { apply Forall_cons in Hs as [Hs _]. eapply budget_weaken; [exact Hs|lia| |lia].
    change (total_bytes [(1, [])]) with 0. lia. }
  exists hd, w'. split_and!; try done. exists [], 1, []. rewrite Hcfg. split_and!; try done.
  - apply (o_readers _ _ _ _ _ _ Hop).
  - eapply (opened_room n _ _ hd w3 w' [] 1 []); [done|exact He|exact Hop|apply Hb|].
    destruct Hb as (B1 & _). change (total_bytes [(1, [])]) with 0 in B1. unfold record_max, u64_max in *. lia.
Qed.

End open.

End closing.

(** ** Concrete stores *)

Lemma fresh_open_for n c :
  0 <= n <= 1000 -> 20 <= Config.file_size_threshold c ->
  open_for (Crc := crc32_ieee) n (fresh_handle c) fresh_world ∅.
Proof.
  intros Hn Ht. exists [], 1, []. split_and!; [apply fresh_engine|done|by apply fresh_room| |done].
  unfold budget. cbn [fresh_handle shared config]. change (total_bytes _) with 0.
  assert (n * record_max / Config.file_size_threshold c <= n * record_max / 1).
  { apply Z.div_le_compat_l; [unfold record_max; lia|lia]. }
  rewrite Z.div_1_r, Z.add_0_l in *. unfold record_max, u64_max in *. split_and!; lia.
Qed.

Lemma resting_resting : resting (Crc := crc32_ieee) resting_world ∅.
Proof.
  destruct resting_at_rest as (H1 & H2 & H3 & H4 & front & cur & cmds & tail & Hd & Ht & _ & _ & Hm).
  split_and!; try done. by exists front, cur, cmds, tail.
Qed.

Lemma resting_spacious : spacious 100 sample_config resting_world.
Proof.
  assert (file_ids resting_world = [1]) as E1 by (vm_compute; reflexivity).
  assert (stored_bytes resting_world = 7) as E2 by (vm_compute; reflexivity).
  unfold spacious. rewrite E1, E2. repeat constructor; vm_compute; intuition discriminate.
Qed.

(** A store with two files whose next merge is due, closed and opened again. *)
Definition busy_store : Handle * World :=
  snd ((set_ (Crc := crc32_ieee) (lit "k") (lit "v") ;;! set_ (Crc := crc32_ieee) (lit "k") (lit "w"))
    (fresh_handle sample_config, fresh_world)).

Lemma busy_open_for :
  open_for (Crc := crc32_ieee) 98 (fst busy_store) (snd busy_store) (<[lit "k" := lit "w"]> (<[lit "k" := lit "v"]> ∅)).
Proof.
  destruct (open_for_set (Crc := crc32_ieee) 100 _ _ _ (lit "k") (lit "v") (fresh_open_for 100 sample_config
    ltac:(lia) ltac:(vm_compute; discriminate))) as (h1 & w1 & H1 & Ho1); [lia|vm_compute; intuition discriminate|].
  destruct (open_for_set (Crc := crc32_ieee) 99 _ _ _ (lit "k") (lit "w") Ho1)
    as (h2 & w2 & H2 & Ho2); [lia|vm_compute; intuition discriminate|].
  unfold busy_store. rewrite (bind_ok _ _ _ _ _ H1), H2. exact Ho2.
Qed.

