(* ===== verification/Interval.v ===== *)
(** * Syncing on an interval

    With the policy [SyncOnInterval] of src/storage/policy.rs a write syncs the
    active file when the last sync is [flush_threshold_millis] or more ago. A crash
    then loses only writes that are recent: whatever had returned that long before
    the last call began is there after the next open. (Nothing syncs while no call
    is made, so what the last call left unsynced stays so until the next one.) *)

From Stdlib Require Import ZArith Lia Strings.Byte.
From stdpp Require Import base numbers list strings gmap.
From S2P Require Import Prelude Bytes Crc CommandFormat HintFormat Streams Reader KeyDir Text Names Config FileSystem Lock BTree Engine Load Merge Log Inv EngineProofs Replay Recovery Durability MergeState SystemTheorems CutTheorems Closing.
Import Command(Command, Set_, Rm).
Import Shared Bitcask.

Local Open Scope Z_scope.

Section interval.
Context `{Crc : Crc32}.

(** ** One write *)

(** After a write at the time [now] or later: everything is synced, or nothing new
    is, because the last sync is not long ago. *)
Definition synced_or_recent (thr now : Z) (sh : Shared) (w : World) (sh' : Shared) (w' : World) : Prop :=
  all_durable sh' w' \/
  current_file_id (writer sh') = current_file_id (writer sh) /\ file (writer sh') = file (writer sh) /\
  last_ts_flushed (writer sh') = last_ts_flushed (writer sh) /\
  durable_of w' (file (writer sh)) = durable_of w (file (writer sh)) /\
  now < last_ts_flushed (writer sh) + thr.

Lemma now_later sh w front cur cmds :
  engine sh w front cur cmds ->
  exists t ts, unix_now w = (Ok t, set_clock w t ts) /\ clock w <= t < 2 ^ 64 /\ clock_ok t (set_clock w t ts) /\
    engine sh (set_clock w t ts) front cur cmds.
Proof.
  intros He. pose proof (e_clock _ _ _ _ _ He) as (H0 & H1 & H2).
  destruct (unix_now_ok (clock w) w) as (t & ts & Hnow & Ht & Hclk); [unfold clock_ok; split_and!; (done || lia)|].
  exists t, ts. split_and!; try done; [lia|lia|].
  eapply engine_quiet; [exact He|apply quiet_clock, He|apply keeps_refl| |apply He].
  eapply clock_ok_weaken, Hclk. lia.
Qed.

Lemma policy_interval h w front cur cmds :
  engine (shared h) w front cur cmds ->
  Config.durability_policy (config (shared h)) = SyncOnInterval ->
  exists sh' w', handle_policy (h, w) = (Ok tt, (with_shared h sh', w')) /\ engine sh' w' front cur cmds /\
    config sh' = config (shared h) /\
    synced_or_recent (Config.flush_threshold_millis (config (shared h))) (clock w) (shared h) w sh' w'.
Proof.
  intros He Hpol. destruct h as [sh tx]. cbn [shared] in *.
  destruct (now_later _ _ _ _ _ He) as (t & ts & Hnow & Ht & Hclk & He1).
  pose proof (e_clock _ _ _ _ _ He) as (H0 & _).
  unfold handle_policy. unfold bind at 1, on_shared at 1, get_config, gets. cbn [fst snd shared compaction_tx].
  rewrite Hpol. unfold bind at 1, on_snd at 1. cbn [fst snd]. rewrite Hnow.
  unfold bind at 1, on_shared at 1, get_writer, gets. cbn [fst snd shared compaction_tx].
  rewrite as_millis_id by lia. rewrite bind_outcome. unfold u64_sub. rewrite (proj2 (Z.leb_le _ _)) by lia. zcase.
  - pose proof (sync_run sh (set_clock w t ts) (e_calm _ _ _ _ _ He1)) as Hsync.
    rewrite (bind_ok _ _ _ _ _ (on_shared_run _ {| shared := sh; compaction_tx := tx |} _ _ _ _ Hsync)).
    destruct (sync_engine _ _ _ _ _ He1) as [He2 _].
    eexists _, _. split; [done|]. split_and!; [|done|].
    + eapply engine_quiet; [exact He2|apply quiet_refl, He2|by split|exact Hclk|apply He2].
    + left. unfold all_durable. cbn. rewrite durable_synced.
      by rewrite (q_bytes _ _ (quiet_synced _ _ (e_inodes _ _ _ _ _ He1))).
  - exists sh, (set_clock w t ts). split; [done|]. split_and!; [done|done|].
    right. split_and!; [done|done|done|done|lia].
Qed.

Lemma rotate_interval sh w front cur cmds sh' w' :
  engine sh w front cur cmds -> current_file_id (writer sh) < u64_max ->
  rotate_if_full (sh, w) = (Ok tt, (sh', w')) -> sh' = sh /\ w' = w \/ all_durable sh' w'.
Proof.
  intros He Hmax. unfold rotate_if_full. unfold bind at 1 2, get_writer, get_config, gets. cbn [fst]. zcase.
  { intros [= <- <-]. by left. }
  pose proof (e_cur _ _ _ _ _ He) as Hcur. pose proof (d_cur _ _ _ _ _ (e_disk _ _ _ _ _ He)) as [Hu _].
  rewrite bind_outcome. unfold u64_add. rewrite (proj2 (Z.leb_le _ _)) by lia.
  destruct (rotate_to_engine sh w front cur cmds (current_file_id (writer sh) + 1) He)
    as (t & w1 & -> & He' & _); [lia|unfold is_u64, u64_max in *; lia|].
  intros [= <- <-]. right. unfold all_durable. destruct (engine_active He') as (f & _ & -> & ->).
  apply (e_inodes _ _ _ _ _ He').
Qed.

(** [set] under the policy. *)
Lemma set_interval h w front cur cmds k v h' w' :
  engine (shared h) w front cur cmds -> room 1 (shared h) -> fits k v ->
  Config.durability_policy (config (shared h)) = SyncOnInterval ->
  set_ k v (h, w) = (Ok tt, (h', w')) ->
  synced_or_recent (Config.flush_threshold_millis (config (shared h))) (clock w) (shared h) w (shared h') w'.
Proof.
  intros He Hr Hf Hpol. destruct (now_later _ _ _ _ _ He) as (t & ts & Hnow & Ht & _ & He0).
  unfold set_, bind at 1, on_snd at 1. cbn [fst snd]. rewrite Hnow. set (w0 := set_clock w t ts) in *.
  pose proof (e_clock _ _ _ _ _ He) as (H0 & _).
  set (c := Set_ (as_secs t) k v). assert (good_cmd c) as Hc by (apply good_set; [apply as_secs_u64; lia|done]).
  destruct (append_record_fits _ _ _ _ _ c He0 Hr Hc) as [Hs Ho].
  destruct (append_record_run h w0 c _ (e_calm _ _ _ _ _ He0) (e_index _ _ _ _ _ He0) Hs Ho) as (i & Hrun & Hi).
  destruct (append_record_engine h w0 front cur cmds c He0 Hr Hc) as (h1 & w1 & Hrun' & He1 & _ & _).
  rewrite Hrun in Hrun'. injection Hrun' as <- <-.
  unfold append, with_writer_lock_b. cbn [fst]. rewrite (e_lock _ _ _ _ _ He), (bind_ok _ _ _ _ _ Hrun).
  unfold post_write_ops. rewrite (bind_ok _ _ _ _ _ (compaction_trigger_run _ _)).
  match goal with |- context [signalled ?x] => set (h1 := x) in * end.
  set (w1 := append_bytes w0 _ _) in *.
  destruct (policy_interval (signalled h1) w1 front cur (cmds ++ [c]) He1 Hpol) as (sh2 & w2 & Hp & He2 & _ & Hcase).
  rewrite (bind_ok _ _ _ _ _ Hp). unfold on_shared at 1. cbn [fst snd shared with_shared].
  destruct (rotate_if_full_engine sh2 w2 front cur (cmds ++ [c]) He2) as (sh3 & w3 & _ & _ & _ & Hrot & _).
  { rewrite (e_cur _ _ _ _ _ He2), <- (e_cur _ _ _ _ _ He). destruct Hr as (_ & _ & Hr). lia. }
  rewrite Hrot. intros [= <- <-]. cbn [shared with_shared].
  destruct (rotate_interval sh2 w2 front cur (cmds ++ [c]) sh3 w3 He2) as [[-> ->]|Hall]; [|done| |by left].
  { rewrite (e_cur _ _ _ _ _ He2), <- (e_cur _ _ _ _ _ He). destruct Hr as (_ & _ & Hr). lia. }
  destruct Hcase as [Hall|(E1 & E2 & E3 & E4 & Hlt)]; [by left|]. right.
  cbn in E1, E2, E3, E4, Hlt. rewrite E2, E1, E3, E4. unfold w1. rewrite durable_of_append.
  split_and!; try done. change (clock w0) with t in Hlt. cbn. lia.
Qed.
(** ** Writes in a row *)

(** Sets one after another, with the time at which each of them returned. *)
Fixpoint timed_sets (l : list (list byte * list byte)) : BM (list Z) :=
  match l with
  | [] => ret []
  | (k, v) :: l =>
      set_ k v ;;!
      let! t := gets (fun s => clock (snd s)) in
      let! ts := timed_sets l in
      ret (t :: ts)
  end.

(** The map after them. *)
Definition stored (m : gmap (list byte) (list byte)) (l : list (list byte * list byte))
  : gmap (list byte) (list byte) :=
  foldl (fun m x => <[fst x := snd x]> m) m l.

(** The command of a set. *)
Definition command_for (c : Command) (x : list byte * list byte) : Prop :=
  exists ts, c = Set_ ts (fst x) (snd x).

Lemma stored_commands m cs l : Forall2 command_for cs l -> foldl after m cs = stored m l.
Proof. intros H. revert m. induction H as [|c x cs l (ts & ->) _ IH]; intros m; [done|]. cbn. apply IH. Qed.

(** After the sets [l], which returned at [times], the first [k] of them are on
    stable storage, and the others have returned since the last sync. *)
Definition synced_upto (n : Z) (h : Handle) (w : World) (m : gmap (list byte) (list byte))
  (l : list (list byte * list byte)) (times : list Z) (k : nat) : Prop :=
  exists front cur pre post, engine (shared h) w front cur (pre ++ post) /\ room n (shared h) /\
    total_bytes (front ++ [(cur, pre ++ post)]) + n * record_max <= u64_max /\
    blen (enc pre) <= durable_of w (file (writer (shared h))) /\
    values (state_of (front ++ [(cur, pre)])) = stored m (take k l) /\
    Forall2 command_for post (drop k l) /\
    Forall (fun t => last_ts_flushed (writer (shared h)) <= t) (drop k times) /\
    length times = length l /\ (k <= length l)%nat.

(** A part of the unsynced commands is the first sets up to some later one. *)
Lemma synced_upto_values m l k front cur pre post :
  (k <= length l)%nat ->
  values (state_of (front ++ [(cur, pre)])) = stored m (take k l) -> Forall2 command_for post (drop k l) ->
  forall mid, mid `prefix_of` post ->
  exists j, (k <= j)%nat /\ values (state_of (front ++ [(cur, pre ++ mid)])) = stored m (take j l) /\
    (mid = post -> take j l = l).
Proof.
  intros Hk Hv Hp mid [rest ->]. apply Forall2_app_inv_l in Hp as (l1 & l2 & H1 & H2 & Hd).
  exists (k + length l1)%nat. rewrite values_more, Hv, (stored_commands _ _ _ H1).
  assert (take (k + length l1) l = take k l ++ l1) as Ht.
  { rewrite <- (take_drop k l) at 1. rewrite Hd, take_app_ge, length_take by (rewrite length_take; lia).
    f_equal. replace (k + length l1 - k `min` length l)%nat with (length l1) by lia. apply take_app_length. }
  split_and!; [lia| |].
  - unfold stored. by rewrite Ht, foldl_app.
  - intros E. assert (rest = []) as ->.
    { apply (f_equal length) in E. rewrite length_app in E. destruct rest; [done|cbn in E; lia]. }
    apply Forall2_nil_inv_l in H2 as ->. rewrite app_nil_r in Hd. by rewrite Ht, <- Hd, take_drop.
Qed.

(** While the active file stays the same, a command is added at its end. *)
Lemma unrotated_log h w front cur cmds c h' w' front' cur' cmds' :
  engine h w front cur cmds -> engine h' w' front' cur' cmds' ->
  same_log (front ++ [(cur, cmds ++ [c])]) (front' ++ [(cur', cmds')]) ->
  current_file_id (writer h') = current_file_id (writer h) ->
  front' ++ [(cur', cmds')] = front ++ [(cur, cmds ++ [c])].
Proof.
  intros He He' [E|[id E]] Ecur; [done|exfalso].
  apply app_inj_tail in E as [E [= -> ->]].
  rewrite (e_cur _ _ _ _ _ He), (e_cur _ _ _ _ _ He') in Ecur. subst id.
  pose proof (ascending_lt _ _ _ cur (cmds ++ [c]) (d_ascending _ _ _ _ _ (e_disk _ _ _ _ _ He'))) as Hlt.
  rewrite E in Hlt. specialize (Hlt ltac:(apply elem_of_app; right; left)). lia.
Qed.

Lemma synced_upto_set n h w m l times k key v :
  synced_upto n h w m l times k -> 0 < n -> fits key v ->
  Config.durability_policy (config (shared h)) = SyncOnInterval ->
  exists h' w' k', set_ key v (h, w) = (Ok tt, (h', w')) /\
    synced_upto (n - 1) h' w' m (l ++ [(key, v)]) (times ++ [clock w']) k' /\
    config (shared h') = config (shared h) /\
    (forall i t, times !! i = Some t ->
       t + Config.flush_threshold_millis (config (shared h)) <= clock w -> (i < k')%nat).
Proof.
  intros (front & cur & pre & post & He & Hr & Htot & Hd & Hv & Hp & Ht & Hlen & Hk) Hn Hf Hpol.
  assert (room 1 (shared h)) as Hr1 by (eapply room_weaken; [|exact Hr]; lia).
  destruct (set_engine h w front cur (pre ++ post) key v He Hr1 Hf) as
    (ts & h' & w' & front' & cur' & cmds' & Hrun & Hg & He' & Hlog & Hadv & _).
  set (c := Set_ ts key v) in *.
  assert (total_bytes (front' ++ [(cur', cmds')]) + (n - 1) * record_max <= u64_max) as Htot'.
  { rewrite (proj2 (same_log_state _ _ Hlog)). rewrite !total_bytes_app, !total_bytes_one in *.
    rewrite enc_app, enc_one, blen_app. pose proof (serialize_max c Hg). lia. }
  assert (room (n - 1) (shared h')) as Hr' by (by eapply room_advances; [exact Hadv| |]).
  assert (Forall2 command_for (post ++ [c]) (drop k (l ++ [(key, v)]))) as Hp'.
  { rewrite drop_app_le by done. apply Forall2_app; [done|]. constructor; [by exists ts|constructor]. }
  pose proof (a_config _ _ _ _ _ Hadv) as Hcfg.
  destruct (set_interval h w front cur (pre ++ post) key v h' w' He Hr1 Hf Hpol Hrun)
    as [Hall|(Ecur & Efile & Elast & Edur & Hnow)].
  - exists h', w', (length (l ++ [(key, v)])). split_and!; [done| |done|].
    + exists front', cur', cmds', []. rewrite app_nil_r, !take_ge, !drop_ge
        by (rewrite ?length_app; cbn [length]; rewrite ?length_app; cbn [length]; lia).
      split_and!; try done; [| |by rewrite !length_app, Hlen].
      * unfold all_durable in Hall. destruct (engine_active He') as (f & _ & Ef & Eb). by rewrite Ef, Eb in *.
      * rewrite (proj1 (same_log_state _ _ Hlog)), <- app_assoc, values_more.
        assert (values (state_of (front ++ [(cur, pre)])) = stored m (take k (l ++ [(key, v)]))) as Hv'
          by by rewrite take_app_le.
        destruct (synced_upto_values m (l ++ [(key, v)]) k front cur pre (post ++ [c])
          ltac:(rewrite length_app; lia) Hv' Hp' (post ++ [c])) as (j & _ & Hvj & Hj); [done|]. by rewrite values_more, (Hj eq_refl) in Hvj.
    + intros i t Hi _. apply lookup_lt_Some in Hi. rewrite length_app, <- Hlen. lia.
  - pose proof (unrotated_log _ _ _ _ _ _ _ _ _ _ _ He He' Hlog Ecur) as Elog. rewrite <- app_assoc in Elog.
    apply app_inj_tail in Elog as [-> [= -> ->]].
    exists h', w', k. split_and!; [done| |done|].
    + exists front, cur, pre, (post ++ [c]). rewrite take_app_le by done.
      split_and!; try done; [by rewrite Efile, Edur| |by rewrite !length_app, Hlen|rewrite length_app; lia].
      rewrite drop_app_le by lia. apply Forall_app. rewrite Elast. split; [done|]. constructor; [|constructor].
      rewrite <- Elast. apply (e_clock _ _ _ _ _ He').
    + intros i t Hi Hthr. destruct (decide (i < k)%nat) as [|Hge]; [done|]. exfalso.
      assert (t ∈ drop k times) as Hin.
      { apply list_elem_of_lookup. exists (i - k)%nat. rewrite lookup_drop. by replace (k + (i - k))%nat with i by lia. }
      eapply Forall_forall in Ht; [|exact Hin]. cbn in Ht. lia.
Qed.

(** A run of sets, from any point of the history. *)
Lemma timed_sets_run l' n h w m l times k :
  synced_upto n h w m l times k -> Z.of_nat (length l') <= n -> Forall (fun x => fits (fst x) (snd x)) l' ->
  Config.durability_policy (config (shared h)) = SyncOnInterval ->
  exists times' h' w' k', timed_sets l' (h, w) = (Ok times', (h', w')) /\
    synced_upto (n - Z.of_nat (length l')) h' w' m (l ++ l') (times ++ times') k' /\
    config (shared h') = config (shared h).
Proof.
  revert n h w l times k. induction l' as [|[key v] l' IH]; intros n h w l times k Hs Hn Hf Hpol.
  { exists [], h, w, k. rewrite Z.sub_0_r, !app_nil_r. by split_and!. }
  apply Forall_cons in Hf as [Hf1 Hf]. cbn [length fst snd] in *.
  destruct (synced_upto_set n h w m l times k key v Hs ltac:(lia) Hf1 Hpol) as (h1 & w1 & k1 & Hrun & Hs1 & Hc1 & _).
  destruct (IH (n - 1) h1 w1 _ _ k1 Hs1 ltac:(lia) Hf) as (times' & h' & w' & k' & Hrun' & Hs' & Hc'); [by rewrite Hc1|].
  exists (clock w1 :: times'), h', w', k'. split_and!.
  - cbn [timed_sets]. rewrite (bind_ok _ _ _ _ _ Hrun). unfold bind at 1, gets. cbn [fst snd].
    by rewrite (bind_ok _ _ _ _ _ Hrun').
  - rewrite <- !app_assoc in Hs'. cbn [app] in Hs'.
    by replace (n - Z.of_nat (S (length l'))) with (n - 1 - Z.of_nat (length l')) by lia.
  - congruence.
Qed.

(** The start: everything is synced. *)
Lemma open_for_synced n h w m :
  open_for n h w m -> all_durable (shared h) w -> synced_upto n h w m [] [] 0.
Proof.
  intros (front & cur & cmds & He & _ & Hr & (Hb & _) & Hm) Hd. exists front, cur, cmds, [].
  rewrite app_nil_r. split_and!; try done.
  unfold all_durable in Hd. destruct (engine_active He) as (f & _ & Ef & Eb). by rewrite Ef, Eb in *.
Qed.

Section open.
Context (order : list Name -> list Name) (order_perm : forall l, order l ≡ₚ l).

(** C16. What [SyncOnInterval] promises: after any sets [l] on a store that is synced,
    and one more set [x], a crash leaves a directory that opens with the first [j] of
    these sets, in order, and whatever had returned [flush_threshold_millis] before
    the last call began is among them. *)
Theorem interval_durability n h w m l x c :
  open_for n h w m -> all_durable (shared h) w -> Z.of_nat (length l) < n ->
  Forall (fun x => fits (fst x) (snd x)) (l ++ [x]) ->
  Config.durability_policy (config (shared h)) = SyncOnInterval ->
  exists times h1 w1 h2 w2, timed_sets l (h, w) = (Ok times, (h1, w1)) /\ length times = length l /\
    set_ (fst x) (snd x) (h1, w1) = (Ok tt, (h2, w2)) /\
    forall w3, crash w2 w3 -> exists j hd w4, Open.open order c w3 = (Ok hd, w4) /\
      ready hd w4 (stored m (take j (l ++ [x]))) /\
      forall i t, times !! i = Some t ->
        t + Config.flush_threshold_millis (config (shared h)) <= clock w1 -> (i < j)%nat.
Proof using order_perm.
  intros Ho Hd Hn [Hf Hfx]%Forall_app Hpol. apply Forall_cons in Hfx as [Hfx _]. destruct x as [key v].
  destruct (timed_sets_run l n h w m [] [] 0 (open_for_synced _ _ _ _ Ho Hd)) as
    (times & h1 & w1 & k1 & Hrun & Hs1 & Hc1); [lia|done|done|]. cbn [app] in Hs1.
  destruct (synced_upto_set _ h1 w1 m l times k1 key v Hs1 ltac:(lia) Hfx) as
    (h2 & w2 & k2 & Hset & Hs2 & Hc2 & Hold); [by rewrite Hc1|].
  assert (length times = length l) as Hlen by (by destruct Hs1 as (? & ? & ? & ? & _ & _ & _ & _ & _ & _ & _ & ? & _)).
  exists times, h1, w1, h2, w2. split_and!; try done. intros w3 Hcr.
  destruct Hs2 as (front & cur & pre & post & He & _ & Htot & Hdu & Hv & Hp & _ & _ & Hk).
  assert (0 <= (n - Z.of_nat (length l) - 1) * record_max) by (unfold record_max; lia).
  destruct (crash_ready order order_perm (shared h2) w2 w3 front cur (pre ++ post) c He ltac:(lia) Hcr)
    as (hd & w4 & cmds1 & cmds2 & Hopen & Hcm & Hready & Hmid).
  destruct (Hmid pre post eq_refl Hdu) as [mid ->]. rewrite <- app_assoc in Hcm. apply app_inv_head in Hcm.
  destruct (synced_upto_values m (l ++ [(key, v)]) k2 front cur pre post Hk Hv Hp mid) as (j & Hj & Hvj & _);
    [by exists cmds2|].
  exists j, hd, w4. rewrite <- Hvj. split_and!; try done. intros i t Hi Ht. rewrite <- Hc1 in Ht.
  specialize (Hold i t Hi Ht). lia.
Qed.
End open.

End interval.

(** ** A concrete run *)

(** Three sets at 0, 1.2 and 1.3 seconds, with a threshold of a second: the second one
    syncs, so that the third is the only one a power cut can take. *)
Definition every_second : Config.Config :=
  {| Config.durability_policy := SyncOnInterval; Config.file_size_threshold := 1000;
     Config.compaction_threshold := 1000; Config.flush_threshold_millis := 1000;
     Config.store_type := StoreType.Bitcask |}.

Definition second_world : World :=
  set_clock fresh_world 1700000000000
    [1700000000000; 1700000000000; 1700000001200; 1700000001200; 1700000001300; 1700000001300].

Lemma second_open_for : open_for (Crc := crc32_ieee) 100 (fresh_handle every_second) second_world ∅.
Proof.
  destruct (fresh_open_for 100 every_second ltac:(lia) ltac:(vm_compute; discriminate))
    as (front & cur & cmds & He & Hx & Hr & Hb & Hm).
  exists front, cur, cmds. split_and!; try done.
  eapply engine_quiet; [exact He|apply quiet_clock, He|apply keeps_refl| |apply He].
  vm_compute. intuition discriminate.
Qed.

(** The world after the three sets. *)
Definition three_set_world : World :=
  snd (snd ((timed_sets (Crc := crc32_ieee) [(lit "a", lit "1"); (lit "b", lit "2")] ;;!
             set_ (Crc := crc32_ieee) (lit "c") (lit "3")) (fresh_handle every_second, second_world))).

Lemma three_set_facts :
  inodes_fine three_set_world = true /\ clock_ok 0 three_set_world /\
  fst (timed_sets (Crc := crc32_ieee) [(lit "a", lit "1"); (lit "b", lit "2")] (fresh_handle every_second, second_world))
    = Ok [1700000000000; 1700000001200] /\
  clock (snd (snd (timed_sets (Crc := crc32_ieee) [(lit "a", lit "1"); (lit "b", lit "2")]
    (fresh_handle every_second, second_world)))) = 1700000001200.
Proof. vm_compute. intuition discriminate. Qed.

Lemma interval_durability_witness :
  exists times h1 w1 h2 w2 j hd w4,
    timed_sets (Crc := crc32_ieee) [(lit "a", lit "1"); (lit "b", lit "2")] (fresh_handle every_second, second_world) =
      (Ok times, (h1, w1)) /\
    set_ (Crc := crc32_ieee) (lit "c") (lit "3") (h1, w1) = (Ok tt, (h2, w2)) /\
    Open.open (Crc := crc32_ieee) (fun l => l) every_second (power_cut w2) = (Ok hd, w4) /\
    ready (Crc := crc32_ieee) hd w4 (stored ∅ (take j [(lit "a", lit "1"); (lit "b", lit "2"); (lit "c", lit "3")])) /\
    (0 < j)%nat.
Proof.
  destruct (interval_durability (Crc := crc32_ieee) (fun l => l) (fun l => reflexivity l) 100
    (fresh_handle every_second) second_world ∅ [(lit "a", lit "1"); (lit "b", lit "2")] (lit "c", lit "3") every_second)
    as (times & h1 & w1 & h2 & w2 & Hrun & _ & Hset & Hall).
  - apply second_open_for.
  - vm_compute. discriminate.
  - vm_compute. reflexivity.
  - repeat constructor; vm_compute; intuition discriminate.
  - reflexivity.
  - destruct three_set_facts as (Hi & Hc & Ht & Hw).
    assert (three_set_world = w2) as E by (unfold three_set_world; rewrite (bind_ok _ _ _ _ _ Hrun); cbn [fst snd] in Hset; rewrite Hset; reflexivity).
    rewrite E in Hi, Hc. rewrite Hrun in Ht, Hw. cbn [fst snd] in Ht, Hw. injection Ht as ->.
    destruct (Hall (power_cut w2)) as (j & hd & w4 & Hopen & Hready & Hold).
    { apply (crash_power_cut 0); [apply inodes_check, Hi|exact Hc]. }
    exists [1700000000000; 1700000001200], h1, w1, h2, w2, j, hd, w4.
    split; [exact Hrun|]. split; [exact Hset|]. split; [exact Hopen|]. split; [exact Hready|].
    apply (Hold 0%nat 1700000000000); [reflexivity|]. rewrite Hw. vm_compute. discriminate.
Defined.
