(* ===== verification/TypedStore.v ===== *)
(** * The types of the store

    The state of an open store is well typed: every machine integer is in its
    range, the index has its sixteen buckets with every key in the bucket of its
    hash, and the readers map is ordered. The operations of the engine, the record
    reader and the decoders keep this, without any other assumption on the state. *)

From Stdlib Require Import ZArith Lia Strings.Byte.
From stdpp Require Import base numbers list strings gmap.
From S2P Require Import Prelude Bytes Crc CommandFormat HintFormat Streams Reader KeyDir Text Names Config FileSystem Lock BTree Engine Load Merge MergeSteps System Keeps.
Import RecordReader Shared Bitcask.

Local Open Scope Z_scope.

(** ** The state of the store *)

Definition value_typed (e : IndexValue) : Prop :=
  is_u64 (IndexValue.file_id e) /\ is_u64 (IndexValue.ts e) /\ is_u64 (IndexValue.offset e) /\
  is_u64 (IndexValue.len e).

(** The map of the bucket [i]. *)
Definition bucket_typed (i : nat) (m : Index.HashMap) : Prop :=
  forall k e, m !! k = Some e -> Index.get_bucket k = i /\ value_typed e.

Definition index_typed (idx : Index.Index) : Prop :=
  length (Index.index idx) = Index.INDEX_BUCKETS_NUM /\
  forall i l, Index.index idx !! i = Some l -> bucket_typed i (Index.locked_map l).

Record writer_typed (w : WriterState) : Prop := {
  wt_id : is_u64 (current_file_id w);
  wt_offset : is_u64 (offset w);
  wt_flushed : is_u64 (flushed_offset w);
  wt_ts : is_u64 (last_ts_flushed w);
  wt_stale : is_u64 (stale_bytes_count w)
}.

(** Ascending ids. *)
Definition ids_typed (r : list (Z * File)) : Prop := btree_ok r /\ Forall (fun e => is_u64 (fst e)) r.

Record config_typed (c : Config.Config) : Prop := {
  ct_file_size : is_u64 (Config.file_size_threshold c);
  ct_compaction : is_u64 (Config.compaction_threshold c);
  ct_flush : is_u64 (Config.flush_threshold_millis c)
}.

Record shared_typed (sh : Shared) : Prop := {
  sh_index : index_typed (index sh);
  sh_readers : ids_typed (readers sh);
  sh_writer : writer_typed (writer sh);
  sh_config : config_typed (config sh)
}.

(** The state that the methods of [Shared] run on. *)
Abbreviation store_typed := (both shared_typed clock_typed).
Definition handle_typed (h : Handle) : Prop := shared_typed (shared h).

(** ** Arithmetic *)

Lemma u64_add_typed a b c : 0 <= a -> 0 <= b -> u64_add a b = Ok c -> is_u64 c.
Proof. unfold u64_add. destruct (Z.leb_spec (a + b) u64_max); [|done]. intros ? ? [= <-]. ulia. Qed.

Lemma u64_sub_typed a b c : is_u64 a -> 0 <= b -> u64_sub a b = Ok c -> is_u64 c.
Proof. unfold u64_sub. destruct (Z.leb_spec b a); [|done]. intros ? ? [= <-]. ulia. Qed.

Lemma as_millis_typed t : is_u64 (as_millis t).
Proof. unfold as_millis, as_u64, is_u64. apply Z.mod_pos_bound. lia. Qed.

Lemma as_secs_typed t : 0 <= t <= duration_max -> is_u64 (as_secs t).
Proof.
  intros [? Ht]. unfold as_secs, is_u64. split; [apply Z.div_pos; lia|].
  apply Z.div_lt_upper_bound; [lia|]. unfold duration_max in Ht. lia.
Qed.
Lemma zero_typed : is_u64 0.
Proof. done. Qed.
#[export] Hint Resolve as_millis_typed zero_typed : keeps.

(** ** The writer, the readers, the index *)

Lemma keeps_get_writer : keeps store_typed writer_typed get_writer.
Proof. intros s [Hs ?]. split; [done|]. apply Hs. Qed.

Lemma keeps_get_config : keeps store_typed config_typed get_config.
Proof. intros s [Hs ?]. split; [done|]. apply Hs. Qed.

Lemma keeps_update_writer f :
  (forall w, writer_typed w -> writer_typed (f w)) -> keeps store_typed any (update_writer f).
Proof.
  intros Hf. apply keeps_fst, keeps_modify. intros sh [Hi Hr Hw Hc]. split; [done|done| |done]. by apply Hf.
Qed.

Lemma insert_typed id f r : is_u64 id -> ids_typed r -> ids_typed (BTreeMap.insert id f r).
Proof.
  intros Hid [Hok Hr]. split; [by apply btree_insert_ok|]. clear Hok.
  induction Hr as [|[k g] r Hk Hr IH]; cbn [BTreeMap.insert].
  - by rewrite Forall_singleton.
  - repeat case_match; rewrite ?Forall_cons; done.
Qed.

Lemma keeps_readers_update id f :
  is_u64 id -> keeps store_typed any (readers_update (BTreeMap.insert id f)).
Proof.
  intros Hid. apply keeps_fst, keeps_modify. intros sh [Hi Hr Hw Hc]. split; [done| |done|done].
  by apply insert_typed.
Qed.

Lemma access_typed idx key m :
  index_typed idx -> Index.access idx key = Ok m -> bucket_typed (Index.get_bucket key) m.
Proof.
  intros [_ Hi]. unfold Index.access. destruct (_ !! _) as [l|] eqn:E; [|done].
  case_match; [done|]. intros [= <-]. by apply Hi.
Qed.

(** A lock whose content changes. *)
Lemma alter_typed idx key f :
  index_typed idx ->
  (forall l, bucket_typed (Index.get_bucket key) (Index.locked_map l) ->
             bucket_typed (Index.get_bucket key) (Index.locked_map (f l))) ->
  index_typed {| Index.index := alter f (Index.get_bucket key) (Index.index idx) |}.
Proof.
  intros [Hl Hi] Hf. split; cbn [Index.index]; [by rewrite length_alter|].
  intros i l. rewrite list_lookup_alter. case_decide as E; [subst i|apply Hi].
  destruct (_ !! _) as [l'|] eqn:E; [|done]. intros [= <-]. by apply Hf, Hi.
Qed.

Lemma keeps_with_bucket {A} (Q : A -> Prop) key body :
  (forall m, bucket_typed (Index.get_bucket key) m ->
     keeps store_typed (fun r => Q (fst r) /\ bucket_typed (Index.get_bucket key) (snd r)) (body m)) ->
  keeps store_typed Q (with_bucket key body).
Proof.
  intros Hb s [Hs Hw]. unfold with_bucket, Index.write_access.
  destruct (Index.access (index (fst s)) key) as [m|e|] eqn:E; [|done|done].
  specialize (Hb m (access_typed _ _ _ (sh_index _ Hs) E) s (conj Hs Hw)).
  destruct (body m s) as [[[a m']|e|] [sh w]]; cbn in *; [|done|].
  - destruct Hb as ([[Hi Hr Hwr Hc] ?] & ? & Hm). split; [|done]. split; [|done]. split; [|done..].
    cbn. by apply alter_typed.
  - destruct Hb as ([[Hi Hr Hwr Hc] ?] & _). split; [|done]. split; [|done]. split; [|done..].
    cbn. by apply alter_typed.
Qed.

Lemma bucket_insert_typed i m key e :
  bucket_typed i m -> Index.get_bucket key = i -> value_typed e -> bucket_typed i (<[key := e]> m).
Proof. intros Hm Hk He k v. rewrite lookup_insert_Some. intros [[<- <-]|[_ ?]]; [done|by apply Hm]. Qed.

Lemma bucket_delete_typed i m key : bucket_typed i m -> bucket_typed i (delete key m).
Proof. intros Hm k v. rewrite lookup_delete_Some. intros [_ ?]. by apply Hm. Qed.

#[export] Hint Resolve keeps_get_writer keeps_get_config keeps_readers_update : keeps.
#[export] Hint Resolve Build_writer_typed wt_id wt_offset wt_flushed wt_ts wt_stale : keeps.

(** The update of some fields of the writer. *)
Ltac writer_update :=
  apply keeps_update_writer; intros ?w []; split; cbn; eauto with keeps.

#[export] Hint Extern 2 (keeps _ _ (update_writer _)) => writer_update : keeps.

Lemma keeps_sync : keeps store_typed any sync.
Proof. unfold sync. keep. writer_update. Qed.
#[export] Hint Resolve keeps_sync : keeps.

Lemma keeps_rotate_to id : is_u64 id -> keeps store_typed any (rotate_to id).
Proof. intros Hid. unfold rotate_to. keep. eauto with keeps. Qed.
#[export] Hint Resolve keeps_rotate_to : keeps.

Lemma keeps_rotate_if_full : keeps store_typed any rotate_if_full.
Proof.
  unfold rotate_if_full. keep; [done|]. apply keeps_rotate_to.
  eapply u64_add_typed; [| |done]; [|lia]. apply (wt_id _ H).
Qed.

Lemma keeps_add_stale n : 0 <= n -> keeps store_typed any (add_stale n).
Proof.
  intros Hn. unfold add_stale. keep. assert (is_u64 a0) by (eapply u64_add_typed; [apply (wt_stale _ H)|done|done]).
  writer_update.
Qed.
#[export] Hint Resolve keeps_rotate_if_full keeps_add_stale : keeps.

Lemma keeps_writer_lock {A} (Q : A -> Prop) body :
  keeps store_typed Q body -> keeps store_typed Q (with_writer_lock body).
Proof.
  intros Hb s Hs. unfold with_writer_lock. case_match; [done|]. specialize (Hb s Hs).
  destruct (body s) as [[a|e|] [sh w]]; cbn in *; [done|done|]. destruct Hb as [[[] ?] _]. done.
Qed.

(** ** The operations *)

Abbreviation handle_world := (both handle_typed clock_typed).

Lemma keeps_on_shared {A} (Q : A -> Prop) c : keeps store_typed Q c -> keeps handle_world Q (on_shared c).
Proof.
  intros Hc s [Hs Hw]. specialize (Hc (shared (fst s), snd s) (conj Hs Hw)). unfold on_shared.
  destruct (c _) as [o [sh w]]. by destruct Hc as [[]].
Qed.
#[export] Hint Resolve keeps_on_shared : keeps.

Lemma keeps_try_send : keeps handle_world any try_send.
Proof. apply keeps_fst, keeps_modify. done. Qed.
#[export] Hint Resolve keeps_try_send : keeps.

Lemma keeps_handle_policy : keeps handle_world any handle_policy.
Proof. unfold handle_policy. keep; eauto with keeps; done. Qed.

Lemma keeps_compaction_trigger : keeps handle_world any compaction_trigger.
Proof. unfold compaction_trigger. keep; eauto with keeps; done. Qed.
#[export] Hint Resolve keeps_handle_policy keeps_compaction_trigger : keeps.

Lemma keeps_post_write_ops : keeps handle_world any post_write_ops.
Proof. unfold post_write_ops. keep. eauto with keeps. Qed.

Lemma keeps_writer_lock_b {A} (Q : A -> Prop) body :
  keeps handle_world Q body -> keeps handle_world Q (with_writer_lock_b body).
Proof.
  intros Hb s Hs. unfold with_writer_lock_b. case_match; [done|]. specialize (Hb s Hs).
  destruct (body s) as [[a|e|] [sh w]]; cbn in *; [done|done|]. destruct Hb as [[[] ?] _]. done.
Qed.

Section ops.
Context `{Crc : Crc32}.

(** A command whose record fits in memory. *)
Definition command_typed (c : Command.Command) : Prop :=
  is_u64 (Command.get_timestamp c) /\ is_u64 (blen (Command.serialize c)).

Lemma keeps_append_index c n :
  is_u64 (Command.get_timestamp c) -> is_u64 n -> keeps store_typed any (append_index c n).
Proof.
  intros Hts Hn. unfold append_index. keep.
  - apply keeps_with_bucket. intros m Hm. set (v := {| IndexValue.len := n |}).
    assert (value_typed v) as Hv by (destruct H; done).
    destruct (m !! _) as [old|] eqn:E.
    + destruct (Hm _ _ E) as (_ & _ & _ & _ & Hl). eapply keeps_bind; [apply keeps_add_stale; apply Hl|].
      intros _ _. apply keeps_ret. split; [done|]. by apply bucket_insert_typed.
    + apply keeps_ret. split; [done|]. by apply bucket_insert_typed.
  - apply keeps_with_bucket. intros m Hm. destruct (m !! _) as [old|] eqn:E.
    + destruct (Hm _ _ E) as (_ & _ & _ & _ & Hl). eapply keeps_bind; [apply keeps_add_stale; apply Hl|].
      intros _ _. apply keeps_ret. split; [done|]. by apply bucket_delete_typed.
    + apply keeps_ret. split; [done|]. by apply bucket_delete_typed.
Qed.
#[local] Hint Resolve keeps_append_index : keeps.

Lemma keeps_append_record c : command_typed c -> keeps handle_world any (append_record c).
Proof.
  intros [Hts Hl]. unfold append_record. keep.
  assert (is_u64 a3) by (eapply u64_add_typed; [|apply Hl|done]; by destruct H2 as [_ []]).
  eauto with keeps.
Qed.

(** The arguments of a call fit in memory. *)
Definition op_typed (op : Op) : Prop :=
  match op with
  | OSet k v => blen k + blen v <= i64_max
  | OGet k | ORemove k => blen k <= i64_max
  end.

Lemma set_command_typed k v t :
  blen k + blen v <= i64_max -> is_u64 t -> command_typed (Command.Set_ t k v).
Proof.
  intros Hkv Ht. split; [done|]. rewrite blen_serialize.
  pose proof (blen_nonneg k). pose proof (blen_nonneg v). cbn. unfold Command.HEADER_LEN, i64_max in *. ulia.
Qed.

Lemma rm_command_typed k t : blen k <= i64_max -> is_u64 t -> command_typed (Command.Rm t k).
Proof.
  intros Hk Ht. split; [done|]. rewrite blen_serialize.
  pose proof (blen_nonneg k). cbn. unfold Command.HEADER_LEN, i64_max in *. ulia.
Qed.

Lemma keeps_write_record mk :
  (forall t, is_u64 t -> command_typed (mk t)) -> keeps handle_world any (write_record mk).
Proof.
  intros Hmk. unfold write_record. keep. apply keeps_writer_lock_b, keeps_append_record, Hmk.
  by apply as_secs_typed.
Qed.

Lemma keeps_get_index key :
  keeps handle_world (fun o => match o with Some e => value_typed e | None => True end) (get_index key).
Proof.
  unfold get_index. keep. destruct H as (s & [Hs _] & <-).
  destruct (a0 !! key) as [e|] eqn:E; [|done]. by apply (access_typed _ _ _ (sh_index _ Hs) H0 _ _ E).
Qed.

Lemma keeps_get_read e : keeps handle_world any (get_read e).
Proof. unfold get_read. keep; done. Qed.

Lemma keeps_remove_check key : keeps handle_world any (remove_check key).
Proof. unfold remove_check. keep. done. Qed.
End ops.

(** ** Reading the files *)

(** The largest file, and the marker that opening a store may add to one. *)
Definition file_max : Z := i64_max + 8.

Lemma file_max_pos : 0 <= file_max.
Proof. done. Qed.

#[export] Instance file_limits : Structural (limits file_max) := limits_structural _ file_max_pos.

#[export] Instance start_limits : Structural (limits i64_max) := limits_structural i64_max ltac:(done).

(** Positions of a file. *)
Definition is_pos (z : Z) : Prop := 0 <= z <= file_max.

Lemma pos_typed z : is_pos z -> is_u64 z.
Proof. unfold is_pos, file_max, i64_max. ulia. Qed.

(** A reader over a file of [len] bytes. *)
Definition reader_at (len : Z) (rr : RecordReader) : Prop :=
  file_len rr = len /\ 0 <= position rr <= len.

Definition reader_typed (rr : RecordReader) : Prop :=
  0 <= position rr <= file_len rr /\ file_len rr <= file_max.

Definition read_typed (r : RecordRead) : Prop :=
  match r with
  | Record_ p bytes => is_pos p /\ is_u64 (blen bytes)
  | TornTail p => is_pos p
  | CleanEof => True
  end.

Lemma new_reader_typed s n : 0 <= n <= file_max -> reader_typed (RecordReader.new s n).
Proof. intros. split; cbn; lia. Qed.

Lemma from_le_below bs n : 0 <= n -> blen bs <= n -> 0 <= from_le bs < 256 ^ n.
Proof.
  intros Hn Hl. pose proof (from_le_range bs) as Hr. pose proof (blen_nonneg bs).
  pose proof (Z.pow_le_mono_r 256 (blen bs) n ltac:(lia) Hl). lia.
Qed.

Lemma blen_slice_le {A} (l : list A) a b : a <= b -> blen (slice l a b) <= b - a.
Proof. intros. unfold slice, blen. rewrite length_take. lia. Qed.

Lemma body_len_typed header : is_u32 (Command.body_len header).
Proof. apply (from_le_below _ 4); [lia|]. by apply (blen_slice_le _ 4 8). Qed.

Lemma keeps_on_reader len n :
  keeps (reader_at len) (fun bs => blen bs = Z.max 0 n) (on_reader (read_exact n)).
Proof.
  intros rr Hrr. unfold on_reader, read_exact. destruct (Z.leb_spec n (blen (avail (reader rr)))); [|done].
  cbn. split; [done|]. unfold ztake, blen in *. rewrite length_take. lia.
Qed.
#[export] Hint Resolve keeps_on_reader : keeps.

Lemma keeps_next_record len : len <= file_max -> keeps (reader_at len) read_typed next_record.
Proof.
  intros Hlen. unfold next_record. keep. destruct H as (r1 & [_ Hp] & <-), H0 as (r2 & [Hl _] & <-).
  assert (is_pos (position r1)) as Hpos by (unfold is_pos; lia).
  eapply keeps_mcatch; [apply keeps_on_reader| |intros e; by keep].
  intros header Hh. pose proof (body_len_typed header) as Hb. keep; [done|].
  unfold u64_sub in *. repeat case_match; simplify_eq.
  eapply keeps_mcatch; [apply keeps_on_reader| |intros e; by keep].
  intros body Hbody. eapply keeps_bind; [apply keeps_modify|intros _ _; apply keeps_ret].
  - intros rr [? ?]. split; [done|]. cbn. unfold is_u32, HEADER_LEN, Command.HEADER_LEN in *. lia.
  - split; [done|]. rewrite blen_app. unfold is_u32, HEADER_LEN, Command.HEADER_LEN in *. ulia.
Qed.

Lemma next_record_typed rr o rr' :
  reader_typed rr -> next_record rr = (o, rr') ->
  reader_typed rr' /\ match o with Ok r => read_typed r | _ => True end.
Proof.
  intros [Hp Hl] E. pose proof (keeps_next_record (file_len rr) Hl rr (conj eq_refl Hp)) as [[Hl' Hp'] Hr].
  rewrite E in *. cbn in *. split; [|done]. split; lia.
Qed.

(** ** The decoders *)

Section decoders.
Context `{Crc : Crc32}.

Lemma deserialize_typed buf c n :
  Command.deserialize buf = Ok (c, n) -> is_u64 (Command.get_timestamp c).
Proof.
  unfold Command.deserialize. destruct (Command.deserialize_at buf 0) as [o k] eqn:E. cbn. intros ->.
  by apply deserialize_at_inv in E as (? & ? & _ & _ & _ & _ & _ & _ & _ & ?).
Qed.

Lemma keeps_read_u64 buf : keeps any is_u64 (BytesUtil.read_u64 buf).
Proof.
  intros c _. split; [done|]. unfold BytesUtil.read_u64, checked_add. repeat case_match; simplify_eq/=; try done.
  apply (from_le_below _ 8); [lia|]. pose proof (blen_slice_le buf c (c + 8)). lia.
Qed.

Lemma keeps_read_any {A} (c : M Z A) : keeps any any c.
Proof. intros s _. split; [done|]. by case_match. Qed.

Lemma hint_typed buf id k v n :
  is_u64 id -> IndexValue.deserialize buf id = Ok (k, v, n) -> value_typed v.
Proof.
  intros Hid. unfold IndexValue.deserialize.
  assert (keeps any (fun r => value_typed (snd (fst r))) (IndexValue.deserialize_at buf id)) as Hk.
  { unfold IndexValue.deserialize_at.
    repeat lazymatch goal with
    | |- keeps _ _ (bind _ _) =>
        eapply keeps_bind; [solve [apply keeps_read_u64|apply keeps_read_any]|intros ? ?]
    | |- keeps _ _ _ => first [apply keeps_throw|apply keeps_ret|case_match]
    end. done. }
  destruct (Hk 0 I) as [_ Hv]. intros E. rewrite E in Hv. apply Hv.
Qed.
End decoders.
