(* ===== verification/TypedMerge.v ===== *)
(** * The types of the merge and of the system

    The local variables of the merge, wherever it is, and the calls under way are
    well typed; every step of every thread keeps this. *)

From Stdlib Require Import ZArith Lia Strings.Byte.
From stdpp Require Import base numbers list strings gmap.
From S2P Require Import Prelude Bytes Crc CommandFormat HintFormat Streams Reader KeyDir Text Names Config FileSystem Lock BTree Engine Load Merge MergeSteps System Keeps TypedStore.
Import RecordReader Shared Bitcask.

Local Open Scope Z_scope.

(** ** The merge *)

Import Compaction.

Definition output_typed (out : MergeOutput.MergeOutput) : Prop :=
  is_u64 (MergeOutput.id out) /\ is_u64 (MergeOutput.written out).

Definition pending_typed (p : PendingUpdate) : Prop :=
  value_typed (previous_value p) /\ value_typed (new_value p).

Record start_typed (start : Start) : Prop := {
  st_snapshot : Forall (fun e => is_u64 (fst e)) (readers_snapshot start);
  st_stale : is_u64 (init_stale_bytes start);
  st_first : is_u64 (first_compacted_file_id start)
}.

Record merge_typed (m : Merge) : Prop := {
  mt_output : match output m with Some out => output_typed out | None => True end;
  mt_next : is_u64 (next_compaction_file_id m);
  mt_pending : Forall pending_typed (pending_records m);
  mt_remove : Forall is_u64 (ids_to_remove m);
  mt_new : Forall is_u64 (new_files m)
}.

Abbreviation merge_world := (both merge_typed store_typed).

Lemma keeps_upd (P : World -> Prop) f :
  (forall m, merge_typed m -> merge_typed (f m)) ->
  keeps (both merge_typed (both shared_typed P)) any (upd f).
Proof. intros Hf. by apply keeps_fst, keeps_modify. Qed.

Lemma keeps_merge_shared {A} (Q : A -> Prop) c :
  keeps store_typed Q c -> keeps merge_world Q (Compaction.on_shared c).
Proof. apply keeps_snd. Qed.

Lemma keeps_merge_world {A} (P : World -> Prop) (Q : A -> Prop) c :
  keeps P Q c -> keeps (both merge_typed (both shared_typed P)) Q (on_world c).
Proof. intros Hc. by apply keeps_snd, keeps_snd. Qed.

Lemma keeps_on_output {A} (Q : A -> Prop) c :
  keeps (both output_typed clock_typed) Q c -> keeps merge_world Q (on_output c).
Proof.
  intros Hc [m [sh w]] [Hm [Hs Hw]]. pose proof Hm as [Ho Hn Hp Hr Hf]. cbn [fst snd] in *. unfold on_output.
  destruct (output m) as [out|]; [|done]. specialize (Hc (out, w) (conj Ho Hw)).
  destruct (c (out, w)) as [o [out' w']]. destruct Hc as [[Ho' Hw'] HQ]. cbn in *.
  split; [|done]. by split; [split|].
Qed.

(** The buffered writers hold no integers. *)
Abbreviation writer_world := (both (@any BufWriter.BufWriter) clock_typed).

Lemma keeps_flush : keeps writer_world any BufWriter.flush.
Proof.
  intros [b w] [_ Hw]. unfold BufWriter.flush. destruct (BufWriter.buffer b) as [|x bs]; [done|].
  destruct (keeps_write_all (BufWriter.file b) (x :: bs) w Hw) as [Hw' _].
  destruct (file_write_all _ _ w) as [o w']. cbn in *. split; [done|by destruct o].
Qed.
#[export] Hint Resolve keeps_flush : keeps.

Lemma keeps_push bs : keeps writer_world any (BufWriter.push bs).
Proof. by apply keeps_fst, keeps_modify. Qed.

Lemma keeps_buf_write bs : keeps writer_world any (BufWriter.write_all bs).
Proof.
  unfold BufWriter.write_all. keep; [apply keeps_push|].
  eapply (keeps_bind _ any); [case_match; [apply keeps_flush|by apply keeps_ret]|intros ? _].
  keep. apply keeps_push.
Qed.

Lemma keeps_on_data {A} (Q : A -> Prop) c :
  keeps writer_world Q c -> keeps (both output_typed clock_typed) Q (MergeOutput.on_data c).
Proof.
  intros Hc [out w] [Ho Hw]. specialize (Hc (MergeOutput.data out, w) (conj I Hw)).
  unfold MergeOutput.on_data. destruct (c _) as [o [d w']]. destruct Hc as [[_ ?] ?]. done.
Qed.
Lemma keeps_on_hint {A} (Q : A -> Prop) c :
  keeps writer_world Q c -> keeps (both output_typed clock_typed) Q (MergeOutput.on_hint c).
Proof.
  intros Hc [out w] [Ho Hw]. specialize (Hc (MergeOutput.hint out, w) (conj I Hw)).
  unfold MergeOutput.on_hint. destruct (c _) as [o [d w']]. destruct Hc as [[_ ?] ?]. done.
Qed.
#[export] Hint Resolve keeps_buf_write keeps_on_data keeps_on_hint keeps_merge_shared keeps_merge_world
  keeps_on_output : keeps.

Lemma keeps_output_sync : keeps (both output_typed clock_typed) any MergeOutput.sync.
Proof. unfold MergeOutput.sync. keep. Qed.

Lemma keeps_output_open (P : World -> Prop) `{!Structural P} id :
  is_u64 id -> keeps P output_typed (MergeOutput.open id).
Proof. intros Hid. unfold MergeOutput.open. keep. done. Qed.
#[export] Hint Resolve keeps_output_sync keeps_output_open : keeps.

Lemma drop_clock out w : clock_typed w -> clock_typed (MergeOutput.drop out w).
Proof.
  intros Hw. unfold MergeOutput.drop.
  destruct (keeps_flush (MergeOutput.data out, w) (conj I Hw)) as [[_ H1] _].
  destruct (BufWriter.flush (MergeOutput.data out, w)) as [o1 [b1 w1]]. cbn [fst snd] in H1.
  destruct (keeps_flush (MergeOutput.hint out, w1) (conj I H1)) as [[_ H2] _].
  by destruct (BufWriter.flush (MergeOutput.hint out, w1)) as [o2 [b2 w2]].
Qed.

Section merge.
Context `{Crc : Crc32}.

Lemma keeps_total_len snapshot : keeps store_typed (fun n => 0 <= n) (total_len snapshot).
Proof.
  induction snapshot as [|[id f] snapshot IH]; cbn [total_len]; [by apply keeps_ret|].
  eapply (keeps_bind _ (fun n => 0 <= n)).
  - eapply keeps_mcatch; [eauto with keeps|intros n Hn; by apply keeps_ret|intros e; by apply keeps_ret].
  - intros n Hn. eapply keeps_bind; [exact IH|]. intros r Hr.
    eapply keeps_weaken; [apply keeps_outcome|]. intros t Ht. by apply (u64_add_typed n r t).
Qed.

Lemma keeps_begin :
  keeps store_typed (fun o => match o with Some start => start_typed start | None => True end) begin.
Proof.
  apply keeps_writer_lock. eapply keeps_bind; [apply keeps_get_writer|intros w Hw].
  keep; try done.
  eapply keeps_bind; [apply keeps_total_len|intros total Ht]. keep.
  assert (is_u64 a2) as Hnext.
  { pose proof (ct_file_size _ H) as Hc. pose proof (wt_id _ Hw) as Hid.
    assert (is_u64 a1) as Ha1.
    { eapply u64_add_typed; [apply Hid| |exact H4]. apply Z.eqb_neq in H3.
      pose proof (Z.div_pos total (Config.file_size_threshold a) Ht). ulia. }
    eapply u64_add_typed; [apply Ha1| |done]. lia. }
  keep. destruct H1 as (s & [Hs _] & <-). split; cbn; [|apply Hw|apply Hw].
  apply Forall_forall. intros e [_ He]%list_elem_of_filter.
  destruct (sh_readers _ Hs) as [_ Hids]. rewrite Forall_forall in Hids. by apply Hids.
Qed.

Lemma keeps_ensure_output (P : World -> Prop) `{!Structural P} :
  keeps (both merge_typed (both shared_typed P)) any ensure_output.
Proof.
  unfold ensure_output. keep; [done|]. destruct H as (s & [Hm _] & <-).
  assert (is_u64 a0) as Hn by (eapply u64_add_typed; [apply (mt_next _ Hm)| |done]; lia).
  eapply keeps_bind; [apply keeps_upd; by intros m []|intros _ _]. keep.
  apply keeps_upd. by intros m [].
Qed.

Lemma keeps_output_append record key ts :
  is_u64 ts -> is_u64 (blen record) ->
  keeps (both output_typed clock_typed) value_typed (MergeOutput.append record key ts).
Proof.
  intros Hts Hr. unfold MergeOutput.append. keep. destruct H0 as (s & [Ho _] & <-).
  assert (is_u64 a2) as Hw by (eapply u64_add_typed; [apply Ho|apply Hr|done]).
  eapply keeps_bind; [apply keeps_fst, keeps_modify|intros _ _]. { by intros out []. }
  keep. by destruct Ho.
Qed.
#[local] Hint Resolve keeps_ensure_output keeps_output_append : keeps.

Lemma keeps_merge_record file_id position bytes :
  is_u64 file_id -> is_u64 position -> is_u64 (blen bytes) ->
  keeps merge_world any (merge_record file_id position bytes).
Proof.
  intros Hf Hp Hb. unfold merge_record. keep; try done. destruct a as [c n].
  apply deserialize_typed in H. cbn [fst] in *. subst c. cbn in H.
  keep. apply keeps_upd. intros m []. split; try done. cbn. apply Forall_app. split; [done|].
  by apply Forall_singleton.
Qed.

(** The start of a source file reads how long it is. *)
Lemma keeps_open_source f :
  keeps (both merge_typed (both shared_typed (limits file_max))) (fun r => reader_typed (snd r)) (open_source f).
Proof.
  unfold open_source. keep. by apply new_reader_typed.
Qed.

Lemma keeps_end_source : keeps merge_world any end_source.
Proof.
  unfold end_source. keep. destruct H as (s & [Hm _] & <-). eapply keeps_bind; [apply keeps_upd|by intros; apply keeps_ret].
  intros m' []. split; try done. cbn. pose proof (mt_output _ Hm) as Ho. rewrite H1 in Ho.
  constructor; [apply Ho|done].
Qed.

Lemma keeps_publish_output : keeps merge_world (Forall pending_typed) publish_output.
Proof.
  unfold publish_output. keep. destruct H as (s & [Hm _] & <-).
  pose proof (mt_output _ Hm) as Ho. rewrite H0 in Ho. destruct Ho as [Hid _]. keep.
  eapply keeps_bind; [apply keeps_upd; by intros m' []|intros _ _]. apply keeps_ret, Hm.
Qed.

Lemma keeps_apply_pending p : pending_typed p -> keeps store_typed any (apply_pending p).
Proof.
  intros [_ Hp]. unfold apply_pending. apply keeps_with_bucket. intros m Hm. apply keeps_ret. split; [done|]. cbn.
  case_match; [by apply bucket_insert_typed|done].
Qed.

Lemma keeps_remove_source id : keeps clock_typed any (remove_source id).
Proof. unfold remove_source. by keep; eauto with keeps. Qed.

Lemma keeps_finish_stale init : is_u64 init -> keeps store_typed any (finish_stale init).
Proof.
  intros Hi. apply keeps_writer_lock. keep.
  assert (is_u64 a0) by (eapply u64_sub_typed; [apply (wt_stale _ H)|apply Hi|done]). writer_update.
Qed.

(** ** The merge thread *)

Import Merger.

Definition todo_typed (todo : list (Z * File)) : Prop := Forall (fun e => is_u64 (fst e)) todo.

Definition pc_typed (pc : PC) : Prop :=
  match pc with
  | AtFile start m todo | AtPublish start m todo => start_typed start /\ merge_typed m /\ todo_typed todo
  | AtRecord start m file_id _ rr todo =>
      start_typed start /\ merge_typed m /\ todo_typed todo /\ is_u64 file_id /\ reader_typed rr
  | AtUpdate start m ps todo =>
      start_typed start /\ merge_typed m /\ todo_typed todo /\ Forall pending_typed ps
  | AtRemove start m ids => start_typed start /\ merge_typed m /\ Forall is_u64 ids
  | AtStale start m => start_typed start /\ merge_typed m
  | Finished _ m => merge_typed m
  | Waiting | Starting | Dead => True
  end.

(** A machine and the store. *)
Definition machine_typed (c : PC * (Shared * World)) : Prop := pc_typed (fst c) /\ store_typed (snd c).

Lemma run_local_in {A} (P : World -> Prop) (Q : A -> Prop) m c k s :
  (forall w, P w -> clock_typed w) -> keeps (both merge_typed (both shared_typed P)) Q c ->
  merge_typed m -> both shared_typed P s ->
  (forall m' a, merge_typed m' -> Q a -> pc_typed (k m' a)) -> machine_typed (run_local m c k s).
Proof.
  intros HP Hc Hm Hs Hk. specialize (Hc (m, s) (conj Hm Hs)). unfold run_local.
  destruct (c (m, s)) as [[a|e|] [m' s']]; cbn in Hc; destruct Hc as [[Hm' [Hsh Hw]] Ha];
    (split; [|split; [done|by apply HP]]); try done.
  by apply Hk.
Qed.

Lemma run_local_typed {A} (Q : A -> Prop) m c k s :
  keeps merge_world Q c -> merge_typed m -> store_typed s ->
  (forall m' a, merge_typed m' -> Q a -> pc_typed (k m' a)) -> machine_typed (run_local m c k s).
Proof. by apply run_local_in. Qed.

Lemma init_merge_typed start : start_typed start -> merge_typed (init_merge start).
Proof. intros []. by split; cbn. Qed.

Lemma no_merge_typed : merge_typed no_merge.
Proof. by split; cbn. Qed.

Lemma record_step_typed start m file_id fuel rr todo s :
  pc_typed (AtRecord start m file_id fuel rr todo) -> store_typed s ->
  machine_typed (record_step start m file_id fuel rr todo s).
Proof.
  intros (Hst & Hm & Htodo & Hf & Hrr) Hs. unfold record_step. destruct fuel as [|fuel]; [done|].
  destruct (next_record rr) as [o rr'] eqn:E. apply next_record_typed in E as [Hrr' Hr]; [|done].
  destruct o as [[position bytes| |position]|e|]; try done.
  - destruct Hr as [Hp Hb]. apply (run_local_typed any); try done.
    apply keeps_merge_record; [done|by apply pos_typed|done].
  - apply (run_local_typed any); try done.
    + eapply keeps_bind; [apply keeps_upd|intros _ _; apply keeps_end_source].
      intros m' []. split; try done. cbn. apply Forall_app. split; [done|]. by apply Forall_singleton.
    + by intros m' [|].
Qed.

Lemma sizes_limits w : sizes i64_max w -> clock_typed w -> limits file_max w.
Proof. intros Hs Hc. split; [done|]. intros h. specialize (Hs h). unfold file_max. lia. Qed.

Lemma drop_output_typed m s : store_typed s -> store_typed (fst s, drop_output m (snd s)).
Proof. intros [Hs Hw]. split; [done|]. cbn. unfold drop_output. case_match; [by apply drop_clock|done]. Qed.

(** A step of the merge thread, wherever it is. *)
Lemma step_typed pc s :
  sizes i64_max (snd s) -> pc_typed pc -> store_typed s -> machine_typed (step pc s).
Proof.
  intros Hsz Hpc Hs.
  destruct pc as [| |start m [|[id f] todo]|start m file_id fuel rr todo|start m todo|start m [|p ps] todo
                 |start m [|id ids]|start m|o m|]; cbn [step].
  - done.
  - destruct (keeps_begin s Hs) as [Hs' Hst]. destruct (begin s) as [[[start|]|e|] s']; cbn in *;
      (split; [|done]); try apply no_merge_typed.
    split_and!; [done|by apply init_merge_typed|by apply st_snapshot].
  - destruct Hpc as (Hst & Hm & Hnil). destruct (output m); (split; [|done]); [done|].
    split_and!; [done|done|by apply mt_remove].
  - destruct Hpc as (Hst & Hm & [Hid Htodo]%Forall_cons).
    eapply (run_local_in (limits file_max)); [by intros w []|apply keeps_open_source|done| |].
    + destruct Hs. split; [done|]. by apply sizes_limits.
    + by intros m' [fuel rr] Hm' Hrr.
  - by apply record_step_typed.
  - destruct Hpc as (Hst & Hm & Htodo). by apply (run_local_typed _ _ _ _ _ keeps_publish_output).
  - destruct Hpc as (Hst & Hm & Htodo & _). done.
  - destruct Hpc as (Hst & Hm & Htodo & [Hp Hps]%Forall_cons).
    by apply (run_local_typed any); [apply keeps_merge_shared, keeps_apply_pending|..].
  - by destruct Hpc as (Hst & Hm & _).
  - destruct Hpc as (Hst & Hm & [_ Hids]%Forall_cons).
    by apply (run_local_typed any); [apply keeps_merge_world, keeps_remove_source|..].
  - destruct Hpc as (Hst & Hm).
    by apply (run_local_typed any); [apply keeps_merge_shared, keeps_finish_stale, Hst|..].
  - destruct o; (split; [done|by apply drop_output_typed]).
  - done.
Qed.
End merge.

(** ** The whole system *)

Section system.
Context `{Crc : Crc32}.

Definition thread_typed (t : Thread) : Prop :=
  match t with
  | Called op => op_typed op
  | Reading k e => blen k <= i64_max /\ value_typed e
  | Removing k => blen k <= i64_max
  | Posting | Returning _ => True
  end.

Record sys_typed (s : Sys) : Prop := {
  sy_handle : handle_typed (handle s);
  sy_clock : clock_typed (world s);
  sy_merger : pc_typed (merger s);
  sy_threads : map_Forall (fun _ t => thread_typed t) (threads s)
}.

(** What the caller and the file system see to: arguments fit in memory, and no
    file is larger than files can be. *)
Definition action_typed (a : Action) : Prop :=
  match a with Invoke _ op => op_typed op | _ => True end.

Fixpoint run_limits (l : list Action) (s : Sys) : Prop :=
  sizes i64_max (world s) /\
  match l with
  | [] => True
  | a :: l => action_typed a /\ match act a s with Some (_, s') => run_limits l s' | None => True end
  end.

Lemma set_thread_typed s tid t : sys_typed s -> thread_typed t -> sys_typed (set_thread s tid t).
Proof. intros [] Ht. split; try done. by apply map_Forall_insert_2. Qed.

Lemma set_store_typed s hw : sys_typed s -> handle_world hw -> sys_typed (set_store s hw).
Proof. intros [] []. by split. Qed.

Lemma set_holder_typed s o : sys_typed s -> sys_typed (set_holder s o).
Proof. intros []. by split. Qed.

Lemma start_write_typed s tid mk s' :
  sys_typed s -> (forall t, is_u64 t -> command_typed (mk t)) -> start_write s tid mk = Some s' -> sys_typed s'.
Proof.
  intros Hs Hmk. unfold start_write. destruct (holder s); [done|].
  destruct (keeps_write_record mk Hmk (handle s, world s)) as [Hw _]; [split; apply Hs|].
  destruct (write_record mk _) as [[[]|e|] hw]; intros [= <-];
    repeat first [apply set_holder_typed|apply set_thread_typed|apply set_store_typed]; done.
Qed.

Lemma read_step_typed {A} (Q : A -> Prop) s tid (c : BM A) k fail :
  sys_typed s -> keeps handle_world Q c -> (forall a, Q a -> thread_typed (k a)) ->
  sys_typed (read_step s tid c k fail).
Proof.
  intros Hs Hc Hk. destruct (Hc (handle s, world s)) as [Hw HQ]; [split; apply Hs|].
  unfold read_step. destruct (c _) as [[a|e|] hw]; apply set_thread_typed; auto; by apply set_store_typed.
Qed.

Lemma finish_write_typed s tid : sys_typed s -> sys_typed (finish_write s tid).
Proof.
  intros Hs. destruct (keeps_writer_lock_b _ _ keeps_post_write_ops (handle s, world s)) as [Hw _]; [split; apply Hs|].
  unfold finish_write. destruct (with_writer_lock_b _ _) as [o hw].
  apply set_holder_typed, set_thread_typed; [by apply set_store_typed|done].
Qed.

Lemma advance_typed s tid t s' :
  sys_typed s -> thread_typed t -> advance s tid t = Some s' -> sys_typed s'.
Proof.
  intros Hs Ht. destruct t as [[k v|k|k]|k e|k| |r]; cbn [advance].
  - apply start_write_typed; [done|]. intros t. by apply set_command_typed.
  - intros [= <-]. eapply read_step_typed; [done|apply keeps_get_index|]. by intros [e|].
  - intros [= <-]. eapply read_step_typed; [done|apply keeps_remove_check|]. by intros [|].
  - intros [= <-]. eapply read_step_typed; [done|apply keeps_get_read|]. destruct Ht. by intros [|].
  - apply start_write_typed; [done|]. intros t. by apply rm_command_typed.
  - intros [= <-]. by apply finish_write_typed.
  - done.
Qed.

Lemma merge_step_typed s s' : sizes i64_max (world s) -> sys_typed s -> merge_step s = Some s' -> sys_typed s'.
Proof.
  intros Hsz [Hh Hc Hm Ht]. unfold merge_step.
  pose proof (step_typed (merger s) (shared (handle s), world s) Hsz Hm (conj Hh Hc)) as [Hpc [Hsh Hw]].
  destruct (merger s) eqn:E; [destruct (compaction_tx (handle s)) as [[]|]; [intros [= <-]; by split|done..]|..];
    (destruct (needs_mutex _ && _); [done|]);
    rewrite <- E in *; destruct (Merger.step (merger s) _) as [pc' [sh w]]; cbn in *; intros [= <-]; by split.
Qed.

Lemma act_typed a s e s' :
  sizes i64_max (world s) -> action_typed a -> sys_typed s -> act a s = Some (e, s') -> sys_typed s'.
Proof.
  intros Hsz Ha Hs. destruct a as [tid op|tid|tid|]; cbn [act].
  - destruct (threads s !! tid); [done|]. intros [= <- <-]. by apply set_thread_typed.
  - destruct (threads s !! tid) as [t|] eqn:E; [|done].
    destruct (advance s tid t) as [s1|] eqn:Ea; [|done]. intros [= <- <-].
    eapply advance_typed; [done| |done]. by apply (sy_threads _ Hs tid).
  - destruct (threads s !! tid) as [[]|]; try done. intros [= <- <-]. destruct Hs. split; try done.
    by apply map_Forall_delete.
  - destruct (merge_step s) as [s1|] eqn:Em; [|done]. intros [= <- <-]. by eapply merge_step_typed.
Qed.

Lemma run_typed l s es s' : run_limits l s -> sys_typed s -> run l s = Some (es, s') -> sys_typed s'.
Proof.
  revert s es. induction l as [|a l IH]; intros s es Hl Hs Hrun; cbn [run run_limits] in *; [by simplify_eq|].
  destruct Hl as (Hsz & Ha & Hl). destruct (act a s) as [[e s1]|] eqn:Ea; [|done].
  destruct (run l s1) as [[es1 s2]|] eqn:Er; [|done]. injection Hrun as _ <-.
  eapply IH; [done| |done]. by eapply act_typed.
Qed.
End system.
