(* ===== verification/Typing.v ===== *)
(** * The types of the state

    [open] gives a well-typed store, whatever the directory holds, and every run of
    the threads and the merge keeps it well typed, in whatever state the store and
    the directory are, whichever system calls fail, and whether a call returns, fails
    or panics half way. *)

From Stdlib Require Import ZArith Lia Strings.Byte.
From stdpp Require Import base numbers list strings gmap.
From S2P Require Import Prelude Bytes Crc CommandFormat HintFormat Streams Reader KeyDir Text Names Config FileSystem Lock BTree Engine Load Merge MergeSteps System SystemTheorems Keeps TypedStore TypedMerge.
Import RecordReader Shared Bitcask.

Local Open Scope Z_scope.

(** ** Opening *)

Import Loader.

Definition buckets_typed (arr : list Index.HashMap) : Prop :=
  length arr = Index.INDEX_BUCKETS_NUM /\ forall i m, arr !! i = Some m -> bucket_typed i m.

Record loader_typed (l : Loader) : Prop := {
  lo_readers : ids_typed (Loader.readers l);
  lo_index : buckets_typed (Loader.index l);
  lo_writer : writer_typed (Loader.writer l)
}.

Abbreviation load_world := (both loader_typed (limits file_max)).

Lemma bucket_update_typed arr key f :
  buckets_typed arr ->
  (forall m, bucket_typed (Index.get_bucket key) m -> bucket_typed (Index.get_bucket key) (f m)) ->
  buckets_typed (Index.bucket_update arr key f).
Proof.
  intros [Hl Ha] Hf. unfold Index.bucket_update. destruct (arr !! _) as [m|] eqn:E; [|done].
  split; [by rewrite length_insert|]. intros i m'. rewrite list_lookup_insert_Some.
  intros [(<- & <- & _)|[_ ?]]; [by apply Hf, Ha|by apply Ha].
Qed.

Lemma keeps_load_upd f : (forall l, loader_typed l -> loader_typed (f l)) -> keeps load_world any (Loader.upd f).
Proof. intros Hf. by apply keeps_fst, keeps_modify. Qed.

Lemma insert_loader key v l :
  value_typed v -> loader_typed l ->
  loader_typed (Loader.set_index l (Index.bucket_insert (Loader.index l) key v)).
Proof.
  intros Hv [Hr Hi Hw]. split; [done| |done]. apply bucket_update_typed; [done|]. intros m Hm.
  by apply bucket_insert_typed.
Qed.

Section load.
Context `{Crc : Crc32}.

Lemma keeps_hint_loop fuel file_id rr :
  is_u64 file_id -> reader_typed rr -> keeps load_world any (hint_loop fuel file_id rr).
Proof.
  intros Hid. revert rr. induction fuel as [|fuel IH]; intros rr Hrr; cbn [hint_loop]; [apply keeps_panic|].
  destruct (next_record rr) as [o rr'] eqn:E. apply next_record_typed in E as [Hrr' Hr]; [|done].
  eapply keeps_bind; [apply keeps_outcome|intros r ->]. destruct r as [p bytes| |p]; [|by apply keeps_ret..].
  destruct (IndexValue.deserialize bytes file_id) as [[[key value] n]|e|] eqn:Ed;
    [|by apply keeps_ret|apply keeps_panic].
  apply hint_typed in Ed; [|done]. eapply keeps_bind; [apply keeps_load_upd; intros l; by apply insert_loader|intros _ _]. by apply IH.
Qed.

Lemma keeps_replay_record file_id position bytes :
  is_u64 file_id -> is_u64 position -> is_u64 (blen bytes) ->
  keeps load_world any (replay_record file_id position bytes).
Proof.
  intros Hid Hp Hb. unfold replay_record. eapply keeps_bind; [apply keeps_outcome|intros [c n] Hd].
  apply deserialize_typed in Hd. eapply (keeps_bind _ any).
  - destruct c as [ts key value|ts key]; cbn [fst].
    + apply keeps_load_upd. intros l. by apply insert_loader.
    + keep. destruct H as (s & [[Hr Hi Hw] _] & <-).
      assert (is_u64 a0) as Ha by (eapply u64_add_typed; [apply (wt_stale _ Hw)|apply Hb|done]).
      eapply keeps_bind; [apply keeps_load_upd|intros _ _; apply keeps_load_upd].
      * intros l [? ? []]. by split.
      * intros l [? Hl ?]. split; [done| |done]. apply bucket_update_typed; [done|]. intros m. apply bucket_delete_typed.
  - intros _ _. keep. destruct H as (s & [[Hr Hi Hw] _] & <-).
    assert (is_u64 a0) as Ha by (eapply u64_add_typed; [apply (wt_offset _ Hw)|apply Hb|done]).
    apply keeps_load_upd. intros l [? ? []]. by split.
Qed.

Lemma keeps_data_loop fuel file_id rr :
  is_u64 file_id -> reader_typed rr -> keeps load_world any (data_loop fuel file_id rr).
Proof.
  intros Hid. revert rr. induction fuel as [|fuel IH]; intros rr Hrr; cbn [data_loop]; [apply keeps_panic|].
  destruct (next_record rr) as [o rr'] eqn:E. apply next_record_typed in E as [Hrr' Hr]; [|done].
  eapply keeps_bind; [apply keeps_outcome|intros r ->]. destruct r as [p bytes| |p]; cbn in Hr.
  - destruct Hr as [Hp Hb]. eapply keeps_bind; [by apply keeps_replay_record; [|apply pos_typed|]|intros _ _]. by apply IH.
  - by apply keeps_ret.
  - keep. eapply keeps_bind; [by apply keeps_snd, keeps_set_len|intros _ _].
    eapply keeps_bind; [apply keeps_load_upd|intros _ _; by apply keeps_ret].
    intros l [? ? []]. split; [done|done|]. split; try done. by apply pos_typed.
Qed.
#[local] Hint Resolve keeps_hint_loop keeps_data_loop new_reader_typed : keeps.

Lemma keeps_replay_hint file_id : is_u64 file_id -> keeps load_world any (replay_hint file_id).
Proof.
  intros Hid. unfold replay_hint. keep.
  eapply (keeps_bind _ any); [case_match; [eauto with keeps|by apply keeps_ret]|intros use _].
  by keep.
Qed.
#[local] Hint Resolve keeps_replay_hint : keeps.

Lemma keeps_replay_file file_id f : is_u64 file_id -> keeps load_world any (replay_file file_id f).
Proof.
  intros Hid. unfold replay_file. keep; [done|].
  eapply keeps_bind; [apply keeps_load_upd|intros _ _; by apply keeps_data_loop, new_reader_typed].
  intros l [? ? []]. by split.
Qed.

Lemma keeps_replay_files files :
  Forall (fun e => is_u64 (fst e)) files -> keeps load_world any (replay_files files).
Proof.
  induction 1 as [|[id f] files Hid Hfiles IH]; cbn [replay_files]; [by apply keeps_ret|].
  eapply keeps_bind; [by apply keeps_replay_file|intros stop _]. keep; done.
Qed.

Lemma keeps_replay : keeps load_world any replay.
Proof.
  unfold replay. keep. destruct H as (s & [Hl _] & <-). apply keeps_replay_files, (lo_readers _ Hl).
Qed.

(** What [open] finds in the directory. *)
Definition found_typed (found : Open.Found) : Prop :=
  ids_typed (fst found) /\ match snd found with Some id => is_u64 id | None => True end.

Lemma keeps_scan_entry name found :
  found_typed found -> keeps (limits file_max) found_typed (Open.scan_entry name found).
Proof.
  intros Hf. unfold Open.scan_entry. keep; try done.
  - destruct Hf as [Hids Hmax]. match goal with Hn : get_file_id name = Some _ |- _ => apply get_file_id_range in Hn end.
    split; [by apply insert_typed|]. cbn. destruct (snd found); [ulia|done].
  - eapply (keeps_bind _ any); [by keep; eauto with keeps|intros _ _]. by apply keeps_ret.
Qed.

Lemma keeps_scan_dir names found :
  found_typed found -> keeps (limits file_max) found_typed (Open.scan_dir names found).
Proof.
  revert found. induction names as [|name names IH]; intros found Hf; cbn [Open.scan_dir]; [by apply keeps_ret|].
  eapply keeps_bind; [by apply keeps_scan_entry|exact IH].
Qed.

(** A handle as [open] returns it. *)
Lemma from_typed arr : buckets_typed arr -> index_typed (Index.from arr).
Proof.
  intros [Hl Ha]. split; cbn; [by rewrite length_fmap|]. intros i l.
  rewrite list_lookup_fmap_Some. intros (m & -> & Hm). by apply Ha.
Qed.

Lemma empty_buckets_typed : buckets_typed (replicate Index.INDEX_BUCKETS_NUM ∅).
Proof. split; [done|]. intros i m [-> _]%lookup_replicate. by intros k e ?%lookup_empty_Some. Qed.

Lemma keeps_load config lock_file handlers id :
  config_typed config -> ids_typed handlers -> is_u64 id ->
  keeps (limits file_max) handle_typed (Open.load config lock_file handlers id).
Proof.
  intros Hc Hh Hid. unfold Open.load. keep. intros w Hw.
  set (l0 := {| Loader.readers := _ |}). assert (loader_typed l0) as Hl.
  { split; [by apply insert_typed|apply empty_buckets_typed|]. split; cbn; auto with keeps. }
  destruct (keeps_replay (l0, w) (conj Hl Hw)) as [[Hl' Hw'] _].
  destruct (replay (l0, w)) as [[[]|e|] [l w']]; cbn in *; [|done|done]. split; [done|].
  destruct Hl'. split; try done. by apply from_typed.
Qed.

Lemma keeps_open_locked order config lock_file :
  config_typed config -> keeps (limits file_max) handle_typed (Open.open_locked order config lock_file).
Proof.
  intros Hc. unfold Open.open_locked. keep.
  eapply keeps_bind; [apply keeps_scan_dir; by split|intros [handlers max_id] [Hh Hm]].
  apply keeps_load; [done|done|]. by destruct max_id.
Qed.

(** Taking the lock may write the marker. *)
Lemma write_limits h bs w :
  blen bs <= 8 -> limits i64_max w -> limits file_max (snd (file_write_all h bs w)).
Proof.
  intros Hb [Hc Hs].
  assert (forall w' bs', clock_typed w' -> sizes i64_max w' -> blen bs' <= 8 ->
    limits file_max (append_bytes w' h bs')) as Happ.
  { intros w' bs' Hc' Hs' Hb'. split; [done|]. intros f. rewrite bytes_of_append. specialize (Hs' f).
    case_decide; [rewrite blen_app|]; unfold file_max; lia. }
  unfold file_write_all, syscall. destruct (faults w) as [|[f|] fs]; apply Happ; try done.
  unfold blen in *. rewrite length_take. lia.
Qed.

Lemma limits_weaken w : limits i64_max w -> limits file_max w.
Proof. intros [? ?]. by apply sizes_limits. Qed.

Lemma check_marker_limits h engine w :
  limits i64_max w -> limits file_max (snd (LockFile.check_marker h engine w)).
Proof.
  intros Hw. unfold LockFile.check_marker, bind.
  destruct (keeps_read_to_string (limits i64_max) h w Hw) as [H1 _].
  destruct (LockFile.read_to_string h w) as [[m|e|] w1]; cbn [fst snd] in *; [|by apply limits_weaken..].
  assert (blen (StoreType.as_str engine) <= 8) as Hm by (by destruct engine).
  repeat case_decide; [|by apply limits_weaken..].
  pose proof (write_limits h _ w1 Hm H1) as H2.
  destruct (file_write_all h (StoreType.as_str engine) w1) as [[[]|e|] w2]; [|done|done].
  apply (keeps_sync_all (limits file_max) h w2 H2).
Qed.

Lemma acquire_limits engine w : limits i64_max w -> limits file_max (snd (LockFile.acquire engine w)).
Proof.
  intros Hw. unfold LockFile.acquire, bind.
  destruct (keeps_open_create (limits i64_max) LockFile.LOCK_FILE_NAME w Hw) as [H1 _].
  destruct (open_create _ w) as [[h|e|] w1]; cbn [fst snd] in *; [|by apply limits_weaken..].
  destruct (keeps_try_lock (limits i64_max) w1 H1) as [H2 _].
  destruct (LockFile.try_lock w1) as [[[]|e|] w2]; cbn [fst snd] in *; [|by apply limits_weaken..].
  pose proof (check_marker_limits h engine w2 H2) as H3. unfold mcatch.
  destruct (LockFile.check_marker h engine w2) as [[[]|e|] w3]; [done| |done].
  by apply (st_flock (P := limits file_max)).
Qed.

Lemma open_typed order config w h w' :
  config_typed config -> clock_typed w -> sizes i64_max w ->
  Open.open order config w = (Ok h, w') -> handle_typed h /\ clock_typed w'.
Proof.
  intros Hc Hw Hs. unfold Open.open, bind.
  destruct (keeps_create_dir_all (limits i64_max) w (conj Hw Hs)) as [H1 _].
  destruct (create_dir_all w) as [[[]|e|] w1]; cbn [fst snd] in *; [|done|done].
  pose proof (acquire_limits StoreType.Bitcask w1 H1) as H2.
  destruct (LockFile.acquire _ w1) as [[lf|e|] w2]; cbn [snd] in *; [|done|done].
  destruct (keeps_open_locked order config lf Hc w2 H2) as [H3 Hh]. unfold mcatch.
  destruct (Open.open_locked order config lf w2) as [[hd|e|] w3]; cbn in *; [|done|done].
  intros [= <- <-]. split; [done|apply H3].
Qed.

End load.

(** ** A concrete run *)

Definition sizes_check (w : World) : bool :=
  forallb (fun e => blen (content (snd e)) <=? i64_max) (map_to_list (inodes w)).

Lemma sizes_checked w : sizes_check w = true -> sizes i64_max w.
Proof.
  intros Hc h. unfold bytes_of. destruct (inodes w !! h) as [i|] eqn:E; [|done].
  apply elem_of_map_to_list in E. unfold sizes_check in Hc. rewrite forallb_forall in Hc.
  specialize (Hc (h, i) (proj1 (list_elem_of_In _ _) E)). cbn in Hc. lia.
Qed.

(** A directory in which a data file holds garbage; the first write fails half way. *)
Definition hostile_world : World :=
  {| dir := {[ data_file_name 7 := 0%nat ]}; others := [];
     inodes := {[ 0%nat := {| content := lit "rubbish"; durable := 7 |} ]}; next_inode := 1;
     flock := false; clock := 1700000000000; ticks := [];
     faults := replicate 15 None ++ [Some {| kind := Other; partial := 3 |}] |}.

Definition hostile_open : outcome Handle * World :=
  Open.open (Crc := crc32_ieee) (fun l => l) (Config.new StoreType.Bitcask) hostile_world.

Definition hostile_run : list Action :=
  [Invoke 1 (OSet (lit "a") (lit "1")); Advance 1; Respond 1;
   Invoke 1 (OSet (lit "a") (lit "2")); Invoke 2 (OGet (lit "a")); Advance 1; Advance 2; Advance 1; Advance 2;
   Respond 1; Respond 2].

Fixpoint run_limits_check (l : list Action) (s : Sys) : bool :=
  sizes_check (world s) &&
  match l with
  | [] => true
  | a :: l =>
      match a with
      | Invoke _ (OSet k v) => blen k + blen v <=? i64_max
      | Invoke _ (OGet k) | Invoke _ (ORemove k) => blen k <=? i64_max
      | _ => true
      end && match act (Crc := crc32_ieee) a s with Some (_, s') => run_limits_check l s' | None => true end
  end.

Lemma run_limits_checked l s : run_limits_check l s = true -> run_limits (Crc := crc32_ieee) l s.
Proof.
  revert s. induction l as [|a l IH]; intros s; cbn [run_limits_check run_limits].
  { rewrite andb_true_r. intros H. split; [by apply sizes_checked|done]. }
  intros [Hs [Ha Hl]%andb_prop]%andb_prop. split; [by apply sizes_checked|]. split.
  - destruct a as [tid [k v|k|k]|tid|tid|]; cbn; lia || done.
  - destruct (act a s) as [[e s']|]; [by apply IH|done].
Qed.

(** Both the failed write and the read after it fail; the types hold all the same. *)
Lemma hostile_state :
  match hostile_open with
  | (Ok h, w) =>
      run_limits_check hostile_run (booted h w) = true /\
      match run (Crc := crc32_ieee) hostile_run (booted h w) with
      | Some (es, s) => es !! 1%nat = Some (Ret 1 (RUnit (Err (Io Other)))) /\
                        es !! 5%nat = Some (Ret 2 (RGet (Err (Io UnexpectedEof))))
      | None => False
      end
  | _ => False
  end.
Proof. vm_compute. split_and!; reflexivity. Qed.

