(* ===== verification/Findings.v ===== *)
(** * Behaviour that differs from what the code means to do

    Concrete runs of the model, evaluated by the kernel, on which the engine does
    not do what its comments and its callers expect. Each run starts from a new
    store. *)

From Stdlib Require Import ZArith Lia Strings.Byte.
From stdpp Require Import base numbers list strings gmap.
From S2P Require Import Prelude Bytes Crc CommandFormat HintFormat Streams Reader KeyDir Text Names Config FileSystem Lock BTree Engine Load Merge MergeSteps System Log Inv EngineProofs Durability MergeState Phases PhaseSteps SystemProofs SystemTheorems.
Import Bitcask.

Local Open Scope Z_scope.

#[local] Existing Instance crc32_ieee.

(** A call whose result is kept, so that the run goes on after an error. *)
Definition attempt {S A} (c : M S A) : M S (outcome A) := fun s => let (o, s') := c s in (Ok o, s').

Definition merge : BM unit := on_shared Compaction.run_compaction.

Definition data_file_there (id : Z) : BM bool :=
  gets (fun s => bool_decide (is_Some (dir (snd s) !! data_file_name id))).

Definition stale_bytes : BM Z := gets (fun s => stale_bytes_count (Shared.writer (shared (fst s)))).

(** Every record fills a file, every overwrite makes a merge due. *)
Definition small_files : Config.Config :=
  {| Config.durability_policy := OsDecides; Config.file_size_threshold := 20;
     Config.compaction_threshold := 1; Config.flush_threshold_millis := 1000;
     Config.store_type := StoreType.Bitcask |}.

Definition two_merges : BM (outcome unit * outcome unit * (Z * Z) * bool) :=
  set_ (lit "a") (lit "1") ;;! set_ (lit "a") (lit "2") ;;!
  let! first := attempt merge in
  let! stale1 := stale_bytes in
  set_ (lit "a") (lit "3") ;;! set_ (lit "a") (lit "4") ;;!
  let! second := attempt merge in
  let! stale2 := stale_bytes in
  let! kept := data_file_there 4 in
  ret (first, second, (stale1, stale2), kept).

(** The second merge of a process fails: [run_compaction] deletes the merged
    files but leaves their ids in the readers map, so the next merge takes them
    into its snapshot again and its first [remove_file] returns [NotFound]. The
    first merge brings the stale count down to 0; the second one leaves it, and
    the files it was to delete (000004.data, the output of the first) stay. *)
Theorem second_merge_fails :
  fst (two_merges (fresh_handle small_files, fresh_world)) =
  Ok (Ok tt, Err (Io NotFound), (0, 54), true).
Proof. vm_compute. reflexivity. Qed.

(** The coming system calls: the write of the next record fails after [n] bytes. *)
Definition next_write_fails (n : nat) : BM unit :=
  on_snd (modify (fun w => set_faults w [Some {| kind := Other; partial := n |}])).

Definition write_after_failure (n : nat) : BM (outcome unit * outcome unit * outcome (option (list byte))) :=
  next_write_fails n ;;!
  let! failed := attempt (set_ (lit "a") (lit "1")) in
  let! next := attempt (set_ (lit "b") (lit "2")) in
  let! read := attempt (get 1 (lit "b")) in
  ret (failed, next, read).

Definition one_file : Config.Config := Config.new StoreType.Bitcask.

(** A write that fails half way breaks the next one: the bytes that were
    written stay in the file, but [offset] is not advanced, so the next record is
    indexed where the rest of the failed one is. [set] returns [Ok(())] and the
    key cannot be read. When the failed write wrote nothing, all is well. *)
Theorem failed_write_misplaces_next :
  fst (write_after_failure 5 (fresh_handle one_file, fresh_world)) =
    Ok (Err (Io Other), Ok tt, Err (Io UnexpectedEof)) /\
  fst (write_after_failure 0 (fresh_handle one_file, fresh_world)) =
    Ok (Err (Io Other), Ok tt, Ok (Some (lit "2"))).
Proof. vm_compute. split; reflexivity. Qed.

(** The clock is set back by a second. *)
Definition clock_back : World :=
  set_clock fresh_world 1699999999000 [].

Definition on_interval : Config.Config :=
  {| Config.durability_policy := SyncOnInterval; Config.file_size_threshold := 1000;
     Config.compaction_threshold := 1000; Config.flush_threshold_millis := 1000;
     Config.store_type := StoreType.Bitcask |}.

(** The outcome of a call on a handle and of the next one, from another thread:
    a panic ends the thread that made the first. *)
Definition two_threads {A B} (c1 : BM A) (c2 : BM B) (s : Handle * World) : outcome A * outcome B :=
  let (o1, s1) := c1 s in (o1, fst (c2 s1)).

(** A clock that goes back stops the store: with [SyncOnInterval], the first
    write after the clock was set back computes [now - last_ts_flushed] below 0,
    panics holding the writer's mutex, and from then on every write fails with
    [LockPoisoned]. *)
Theorem clock_step_back_poisons :
  two_threads (set_ (lit "a") (lit "1")) (set_ (lit "b") (lit "2"))
    (fresh_handle on_interval, clock_back) = (Panic, Err LockPoisoned).
Proof. vm_compute. reflexivity. Qed.

(** ** A merge beside a writer *)

(** A record fills half a file. *)
Definition half_files (policy : DurabilityPolicy) : Config.Config :=
  {| Config.durability_policy := policy; Config.file_size_threshold := 40;
     Config.compaction_threshold := 1; Config.flush_threshold_millis := 1000;
     Config.store_type := StoreType.Bitcask |}.

(** [a = 1] and [b = 1] fill the first file, which is sealed and synced; [b = 2]
    makes a merge due; the merge takes its snapshot; then [a = 9] is written to
    the new active file, and the merge runs to its end. *)
Definition overwrite_during_merge : list Action :=
  whole_set (lit "a") (lit "1") ++ whole_set (lit "b") (lit "1") ++ whole_set (lit "b") (lit "2") ++
  [Merge_; Merge_] ++ whole_set (lit "a") (lit "9") ++ replicate 11 Merge_.

(** What the key [k] reads as after the machine has lost power and the store is
    opened again. *)
Definition read_after_power_cut (c : Config.Config) (k : list byte) (w : World)
  : outcome (option (list byte)) :=
  match Open.open (fun l => l) c (power_cut w) with
  | (Ok h, w') => fst (get 1 k (h, w'))
  | (Err e, _) => Err e
  | (Panic, _) => Panic
  end.

(** The value of [a] when the power fails at the end of a run. *)
Definition a_of (policy : DurabilityPolicy) (l : list Action) : option (outcome (option (list byte))) :=
  (fun r => read_after_power_cut (half_files policy) (lit "a") (world (snd r))) <$>
  run l (booted (fresh_handle (half_files policy)) fresh_world).

(** The same [n] steps before the end of [overwrite_during_merge]. *)
Definition a_after (policy : DurabilityPolicy) (n : nat) : option (outcome (option (list byte))) :=
  a_of policy (take (length overwrite_during_merge - n) overwrite_during_merge).

(** The same, with [a = 9] still between its write and its sync when the merge
    has deleted the sources and the power fails. *)
Definition overwrite_in_flight : list Action :=
  whole_set (lit "a") (lit "1") ++ whole_set (lit "b") (lit "1") ++ whole_set (lit "b") (lit "2") ++
  [Merge_; Merge_; Invoke 1 (OSet (lit "a") (lit "9")); Advance 1] ++ replicate 9 Merge_.


(** ** A failed merge and the next one *)

(** The [n]-th system call from now on fails. *)
Definition fault_at (n : nat) : BM unit :=
  on_snd (modify (fun w => set_faults w (replicate n None ++ [Some {| kind := Other; partial := 0 |}]))).
Definition no_faults : BM unit := on_snd (modify (fun w => set_faults w [])).

Definition reopen (c : Config.Config) : BM unit := fun s =>
  let '(_, (h, w)) := Compaction.drop_handle s in
  match Open.open (fun l => l) c w with
  | (Ok h', w') => (Ok tt, (h', w'))
  | (Err e, w') => (Err e, (h, w'))
  | (Panic, w') => (Panic, (h, w'))
  end.

(** A merge whose [n]-th system call fails, then [remove k], a merge without
    errors, and what [k] reads as before and after the store is reopened. *)
Definition merge_fails_once (n : nat)
  : BM (outcome unit * outcome unit * outcome (option (list byte)) * outcome (option (list byte))) :=
  set_ (lit "k") (lit "v") ;;! set_ (lit "a") (lit "1") ;;! set_ (lit "a") (lit "2") ;;!
  fault_at n ;;! let! first := attempt merge in no_faults ;;!
  remove (lit "k") ;;! set_ (lit "a") (lit "3") ;;!
  let! second := attempt merge in
  let! before := attempt (get 1 (lit "k")) in
  reopen small_files ;;!
  let! after := attempt (get 1 (lit "k")) in
  ret (first, second, before, after).


(** ** A rotation that fails half way *)

(** The first write fills the file; of the rotation that follows, the opening of
    the new file for reading fails. The next write succeeds. *)
Definition lost_reader : BM (outcome unit * outcome unit) :=
  fault_at 3 ;;! let! first := attempt (set_ (lit "a") (lit "1")) in no_faults ;;!
  let! second := attempt (set_ (lit "b") (lit "2")) in
  ret (first, second).

Definition after_lost_reader : outcome (outcome unit * outcome unit) * (Handle * World) :=
  lost_reader (fresh_handle small_files, fresh_world).

(** A turn of [get] that changes nothing and does not return is repeated for ever. *)
Lemma get_stuck k h w fuel :
  get_once k (h, w) = (Ok None, (h, w)) -> get fuel k (h, w) = (Panic, (h, w)).
Proof. intros H. induction fuel as [|fuel IH]; [done|]. cbn [get]. by rewrite (bind_ok _ _ _ _ _ H). Qed.


(** ** A merge that reserves too few ids *)

(** Five sealed files, four of them with a live record; the first [n] system calls of
    the merge, which ask for the sizes of the files, fail; then [e = 5] is set and
    read, before and after the store is reopened. *)
Definition sizes_unknown (n : nat)
  : BM (outcome unit * outcome unit * outcome (option (list byte)) * outcome (option (list byte))) :=
  set_ (lit "a") (lit "1") ;;! set_ (lit "b") (lit "1") ;;! set_ (lit "c") (lit "1") ;;!
  set_ (lit "d") (lit "1") ;;! set_ (lit "d") (lit "2") ;;!
  on_snd (modify (fun w => set_faults w (replicate n (Some {| kind := Other; partial := 0 |})))) ;;!
  let! merged := attempt merge in no_faults ;;!
  let! written := attempt (set_ (lit "e") (lit "5")) in
  let! before := attempt (get 1 (lit "e")) in
  reopen small_files ;;!
  let! after := attempt (get 1 (lit "e")) in
  ret (merged, written, before, after).

(** One failed size is taken for 0: when [metadata] of the sealed files fails, the
    merge does not stop but reserves ids for nothing; its third output gets the id of
    the active file, and renaming it replaces that file. The merge and the next
    [set] return [Ok(())], but [get] of the new key returns the value of another key,
    and after the store is reopened the key is gone. Without the errors, or with
    fewer, the key is read back. *)
Theorem unknown_sizes_lose_active_file :
  fst (sizes_unknown 5 (fresh_handle small_files, fresh_world)) =
    Ok (Ok tt, Ok tt, Ok (Some (lit "1")), Ok None) /\
  fst (sizes_unknown 0 (fresh_handle small_files, fresh_world)) =
    Ok (Ok tt, Ok tt, Ok (Some (lit "5")), Ok (Some (lit "5"))) /\
  fst (sizes_unknown 2 (fresh_handle small_files, fresh_world)) =
    Ok (Ok tt, Ok tt, Ok (Some (lit "5")), Ok (Some (lit "5"))).
Proof. vm_compute. split_and!; reflexivity. Qed.

(** ** A lock file that is written in part *)

(** The first open of a new directory, whose [n]-th system call fails after [k]
    bytes, and the next one. *)
Definition forget {A} (o : outcome A) : outcome unit :=
  match o with Ok _ => Ok tt | Err e => Err e | Panic => Panic end.

Definition stamp_fails (n k : nat) : outcome unit * outcome unit :=
  let w := set_faults empty_world (replicate n None ++ [Some {| kind := Other; partial := k |}]) in
  let (first, w1) := Open.open (fun l => l) small_files w in
  let (second, _) := Open.open (fun l => l) small_files (set_faults w1 []) in
  (forget first, forget second).

(** A directory whose first open stopped in the middle of writing the engine's name
    is not opened again: the lock file has a name that is no engine's. *)
Theorem half_stamp_refuses :
  stamp_fails 4 3 = (Err (Io Other), Err (EngineMismatch (lit "bit") (lit "bitcask"))) /\
  stamp_fails 4 0 = (Err (Io Other), Ok tt) /\
  forall engine w, faults w = [] -> LockFile.LOCK_FILE_NAME ∉ others w -> flock w = false ->
    marker w = lit "bit" ->
    fst (LockFile.acquire engine w) = Err (EngineMismatch (lit "bit") (StoreType.as_str engine)).
Proof.
  split_and!; [vm_compute; reflexivity|vm_compute; reflexivity|]. intros engine w Hf Ho Hl Hm.
  rewrite acquire_run, Hl, Hm by done. cbn [utf8_valid]. by destruct engine.
Qed.

(** ** Garbage from before a restart *)

(** A merge is due when 100 bytes are stale. *)
Definition merge_at_100 : Config.Config :=
  {| Config.durability_policy := OsDecides; Config.file_size_threshold := 20;
     Config.compaction_threshold := 100; Config.flush_threshold_millis := 1000;
     Config.store_type := StoreType.Bitcask |}.

(** Five sets of one key, with [middle] between the third and the fourth: the stale
    bytes that are counted, the bytes of the data files other than the last record,
    and whether a merge was signalled. *)
Definition overwrite_five (middle : BM unit) : BM (Z * Z * option bool) :=
  set_ (lit "a") (lit "1") ;;! set_ (lit "a") (lit "2") ;;! set_ (lit "a") (lit "3") ;;!
  middle ;;!
  set_ (lit "a") (lit "4") ;;! set_ (lit "a") (lit "5") ;;!
  let! stale := stale_bytes in
  let! s := gets id in
  let bytes := foldr Z.add 0 ((fun e => blen (bytes_of (snd s) (snd e))) <$> Shared.readers (shared (fst s))) in
  ret (stale, bytes - blen (Command.serialize (Command.Set_ 0 (lit "a") (lit "5"))), compaction_tx (fst s)).

(** A restart forgets what is stale: [replay] counts the tombstones it reads, but not
    the records that later ones overwrite. With 108 stale bytes in the files a merge
    is signalled, unless the store was reopened on the way. *)
Theorem reopen_forgets_garbage :
  fst (overwrite_five (ret tt) (fresh_handle merge_at_100, fresh_world)) = Ok (108, 108, Some true) /\
  fst (overwrite_five (reopen merge_at_100) (fresh_handle merge_at_100, fresh_world)) = Ok (54, 108, Some false).
Proof. vm_compute. split; reflexivity. Qed.

(** ** Two removes at once *)

Definition remove_race : list Action :=
  whole_set (lit "a") (lit "1") ++
  [Invoke 1 (ORemove (lit "a")); Invoke 2 (ORemove (lit "a")); Advance 1; Advance 2;
   Advance 1; Advance 1; Advance 2; Advance 2; Respond 1; Respond 2].

(** [remove] is not atomic: of two threads that remove the same key at the same
    time both can succeed, where one after the other the second gets
    [KeyNotFound]: the index is checked before the writer's mutex is taken and not
    again after. *)
Theorem both_removes_succeed :
  fst <$> run remove_race (booted (fresh_handle one_file) fresh_world) =
  Some [Call 1 (OSet (lit "a") (lit "1")); Ret 1 (RUnit (Ok tt));
        Call 1 (ORemove (lit "a")); Call 2 (ORemove (lit "a"));
        Ret 1 (RUnit (Ok tt)); Ret 2 (RUnit (Ok tt))].
Proof. vm_compute. reflexivity. Qed.
