(* ===== verification/KvStore.v ===== *)
(** * The store interface

    The trait [KvStore] of src/storage/kvstore.rs as a class, the laws its
    clients (the server, the REPL) rely on, and its implementations: [Bitcask],
    [SledStore] (src/storage/sled_store.rs, over a database that is a parameter
    here) and the dispatching enum [Store]. *)

From Stdlib Require Import ZArith Lia Strings.Byte.
From stdpp Require Import base numbers list strings gmap.
From S2P Require Import Prelude Bytes Crc CommandFormat Streams Text Config FileSystem Lock Engine Load Log Inv EngineProofs Recovery Durability Closing.

Local Open Scope Z_scope.

(** The methods, on the state of a store. *)
Class KvStore (St : Type) : Type := {
  kv_set : list byte -> list byte -> M St unit;
  kv_remove : list byte -> M St unit;
  kv_get : list byte -> M St (option (list byte))
}.

(** A key and a value that every engine accepts. *)
Definition small (k v : list byte) : Prop :=
  blen k + blen v + 28 <= u32_max /\ utf8_valid v = true.

(** The contract: [kv_holds n s m] says that the store [s] stores the map [m] and
    has room for [n] more writes. *)
Class KvStoreLaws (St : Type) `{KvStore St} : Type := {
  kv_holds : Z -> St -> gmap (list byte) (list byte) -> Prop;
  kv_mono : forall n n' s m, kv_holds n s m -> n' <= n -> kv_holds n' s m;
  kv_set_law : forall n s m k v, kv_holds n s m -> 0 < n -> small k v ->
    exists s', kv_set k v s = (Ok tt, s') /\ kv_holds (n - 1) s' (<[k := v]> m);
  kv_remove_law : forall n s m k, kv_holds n s m -> 0 < n ->
    exists s', kv_remove k s = (match m !! k with Some _ => Ok tt | None => Err KeyNotFound end, s') /\
      kv_holds (n - 1) s' (delete k m);
  kv_get_law : forall n s m k, kv_holds n s m ->
    exists s', kv_get k s = (Ok (m !! k), s') /\ kv_holds n s' m
}.

(** ** Bitcask *)

Section bitcask.
Context `{Crc : Crc32}.

(** [impl KvStore for Bitcask]; the retry loop of [get] runs for as many turns as
    it needs, and one is enough when no other thread runs. *)
#[export] Instance bitcask_store : KvStore (Bitcask.Handle * World) := {
  kv_set := Bitcask.set_;
  kv_remove := Bitcask.remove;
  kv_get := Bitcask.get 1
}.

Lemma small_fits k v : small k v -> fits k v.
Proof.
  intros [Hl Hu]. unfold fits. cbn [Command.encoded_body_len].
  pose proof (blen_nonneg v). split_and!; (done || lia).
Qed.

#[export] Instance bitcask_laws : KvStoreLaws (Bitcask.Handle * World).
Proof.
  refine {| kv_holds := fun n s m => open_for n (fst s) (snd s) m |}.
  - intros n n' s m Ho Hle. by eapply open_for_weaken.
  - intros n [h w] m k v Ho Hn Hs.
    destruct (open_for_set n h w m k v Ho Hn (small_fits _ _ Hs)) as (h' & w' & H & Ho'). by exists (h', w').
  - intros n [h w] m k Ho Hn.
    destruct (open_for_remove n h w m k Ho Hn) as (h' & w' & H & Ho'). by exists (h', w').
  - intros n [h w] m k Ho. exists (h, w). split; [by apply (open_for_get n)|done].
Defined.

End bitcask.

(** ** Sled *)

Module SledStore.

(** The errors of the database that the code tells apart. *)
Inductive SledError : Type :=
| SIo (kind : ErrorKind)
| SCorruption
| SOther (msg : list byte).

Definition from_error (e : SledError) : KvsError :=
  match e with
  | SIo k => Io k
  | SCorruption => Corruption
  | SOther msg => InvalidData msg
  end.

(** The operations of the database that the code calls, each with the database
    it leaves. *)
Class SledDb (Db : Type) : Type := {
  db_insert : list byte -> list byte -> Db -> (SledError + option (list byte)) * Db;
  db_remove : list byte -> Db -> (SledError + option (list byte)) * Db;
  db_get : list byte -> Db -> (SledError + option (list byte)) * Db;
  db_flush : Db -> (SledError + Z) * Db
}.

Record SledStore (Db : Type) : Type := { db : Db; sync_every_put : bool }.
Arguments db {Db} _.
Arguments sync_every_put {Db} _.

Section sled.
Context {Db : Type} `{!SledDb Db}.

(** [self.db.op(..)?] *)
Definition on_db {A} (op : Db -> (SledError + A) * Db) : M (SledStore Db) A := fun s =>
  let (r, d) := op (db s) in
  (match r with inl e => Err (from_error e) | inr a => Ok a end,
   {| db := d; sync_every_put := sync_every_put s |}).

Definition sync_if : M (SledStore Db) unit :=
  let! s := gets (fun s => s) in
  if sync_every_put s then on_db db_flush ;;! ret tt else ret tt.

Definition set_ (key value : list byte) : M (SledStore Db) unit :=
  on_db (db_insert key value) ;;!
  sync_if.

Definition remove (key : list byte) : M (SledStore Db) unit :=
  let! old := on_db (db_remove key) in
  match old with
  | Some _ => sync_if
  | None => throw KeyNotFound
  end.

Definition get (key : list byte) : M (SledStore Db) (option (list byte)) :=
  let! v := on_db (db_get key) in
  match v with
  | Some v => let! s := of_outcome (from_utf8 v) in ret (Some s)
  | None => ret None
  end.

(** What [open] makes of the policy: the flush interval it passes to the database
    and whether every write is flushed. *)
Definition flush_every_ms (c : Config.Config) : option Z :=
  match Config.durability_policy c with
  | SyncOnInterval => Some (Config.flush_threshold_millis c)
  | _ => None
  end.

(** [SledStore::open], with opening the database as a parameter. *)
Definition open (db_open : option Z -> World -> (SledError + Db) * World) (c : Config.Config)
  : M World (SledStore Db) :=
  create_dir_all ;;!
  let! lock := LockFile.acquire StoreType.Sled in
  fun w =>
    match db_open (flush_every_ms c) w with
    | (inl e, w') => (Err (from_error e), set_flock w' false)
    | (inr d, w') =>
        (Ok {| db := d;
               sync_every_put := match Config.durability_policy c with
                                 | SyncOnEveryPut => true | _ => false end |}, w')
    end.

End sled.

(** What the database documents: it is a map, and a flush does not change it. *)
Class SledDbLaws (Db : Type) `{!SledDb Db} : Type := {
  db_map : Db -> gmap (list byte) (list byte);
  db_insert_law : forall k v d, exists d', db_insert k v d = (inr (db_map d !! k), d') /\
    db_map d' = <[k := v]> (db_map d);
  db_remove_law : forall k d, exists d', db_remove k d = (inr (db_map d !! k), d') /\
    db_map d' = delete k (db_map d);
  db_get_law : forall k d, exists d', db_get k d = (inr (db_map d !! k), d') /\
    db_map d' = db_map d;
  db_flush_law : forall d, exists n d', db_flush d = (inr n, d') /\ db_map d' = db_map d
}.

End SledStore.

Import SledStore(SledDb, SledDbLaws, db, sync_every_put).

Section sled_store.
Context {Db : Type} `{!SledDb Db}.

#[export] Instance sled_store : KvStore (SledStore.SledStore Db) := {
  kv_set := SledStore.set_;
  kv_remove := SledStore.remove;
  kv_get := SledStore.get
}.

Context `{!SledDbLaws Db}.

Lemma sync_if_run s :
  exists s', SledStore.sync_if s = (Ok tt, s') /\
    SledStore.db_map (db s') = SledStore.db_map (db s).
Proof.
  unfold SledStore.sync_if, bind, gets. destruct (sync_every_put s) eqn:E; [|by exists s].
  destruct (SledStore.db_flush_law (db s)) as (n & d' & Hf & Hm).
  unfold SledStore.on_db. rewrite Hf. eexists. by split.
Qed.

(** The values of the database are text. *)
Definition sled_holds (s : SledStore.SledStore Db) (m : gmap (list byte) (list byte)) : Prop :=
  SledStore.db_map (db s) = m /\ map_Forall (fun _ v => utf8_valid v = true) m.

#[export] Instance sled_laws : KvStoreLaws (SledStore.SledStore Db).
Proof using All.
  refine {| kv_holds := fun _ s m => sled_holds s m |}.
  - done.
  - intros n s m k v [<- Hu] _ [_ Hv]. cbn [kv_set sled_store]. unfold SledStore.set_.
    destruct (SledStore.db_insert_law k v (db s)) as (d' & Hi & Hm).
    unfold bind at 1, SledStore.on_db. rewrite Hi.
    destruct (sync_if_run {| db := d'; sync_every_put := sync_every_put s |}) as (s' & Hs & Hm').
    exists s'. split; [exact Hs|]. split; [by rewrite Hm'|]. by apply map_Forall_insert_2.
  - intros n s m k [<- Hu] _. cbn [kv_remove sled_store]. unfold SledStore.remove.
    destruct (SledStore.db_remove_law k (db s)) as (d' & Hi & Hm).
    unfold bind at 1, SledStore.on_db. rewrite Hi.
    assert (map_Forall (fun _ v => utf8_valid v = true) (delete k (SledStore.db_map (db s))))
      as Hu' by by apply map_Forall_delete.
    destruct (SledStore.db_map (db s) !! k) as [v|] eqn:E.
    + destruct (sync_if_run {| db := d'; sync_every_put := sync_every_put s |}) as (s' & Hs & Hm').
      exists s'. split; [exact Hs|]. split; [by rewrite Hm'|done].
    + eexists. split; [done|]. by split.
  - intros n s m k [<- Hu]. cbn [kv_get sled_store]. unfold SledStore.get.
    destruct (SledStore.db_get_law k (db s)) as (d' & Hi & Hm).
    unfold bind at 1, SledStore.on_db. rewrite Hi. eexists.
    destruct (SledStore.db_map (db s) !! k) as [v|] eqn:E.
    + rewrite bind_outcome. unfold from_utf8. rewrite (Hu k v E). split; [done|]. by split.
    + split; [done|]. by split.
Defined.

End sled_store.

(** ** The dispatching store *)

Section store.
Context {A B : Type} `{!KvStore A} `{!KvStore B}.

(** [enum Store]: one of the two engines. *)
Inductive Store : Type := StBitcask (s : A) | StSled (s : B).

(** Run a method of the engine inside. *)
Definition dispatch {R} (f : M A R) (g : M B R) : M Store R := fun s =>
  match s with
  | StBitcask s => let (o, s') := f s in (o, StBitcask s')
  | StSled s => let (o, s') := g s in (o, StSled s')
  end.

#[export] Instance store_store : KvStore Store := {
  kv_set := fun k v => dispatch (kv_set k v) (kv_set k v);
  kv_remove := fun k => dispatch (kv_remove k) (kv_remove k);
  kv_get := fun k => dispatch (kv_get k) (kv_get k)
}.

Context `{!KvStoreLaws A} `{!KvStoreLaws B}.

#[export] Instance store_laws : KvStoreLaws Store.
Proof using All.
  refine {| kv_holds := fun n s m =>
    match s with StBitcask s => kv_holds n s m | StSled s => kv_holds n s m end |}.
  - intros n n' [s|s] m Hh Hle; by eapply kv_mono.
  - intros n [s|s] m k v Hh Hn Hs; cbn [kv_set store_store dispatch];
      destruct (kv_set_law n s m k v Hh Hn Hs) as (s' & Hrun & Hh'); rewrite Hrun; by eexists.
  - intros n [s|s] m k Hh Hn; cbn [kv_remove store_store dispatch];
      destruct (kv_remove_law n s m k Hh Hn) as (s' & Hrun & Hh'); rewrite Hrun; by eexists.
  - intros n [s|s] m k Hh; cbn [kv_get store_store dispatch];
      destruct (kv_get_law n s m k Hh) as (s' & Hrun & Hh'); rewrite Hrun; by eexists.
Defined.

End store.
Arguments Store : clear implicits.

(** [impl KvStore for Store]'s [open]: the engine that the configuration names. *)
Section store_open.
Context `{Crc : Crc32} {Db : Type} `{!SledDb Db}.
Context (order : list Name -> list Name) (db_open : option Z -> World -> (SledStore.SledError + Db) * World).

Definition store_open (c : Config.Config) (w : World)
  : outcome (Store (Bitcask.Handle * World) (SledStore.SledStore Db)) * World :=
  match Config.store_type c with
  | StoreType.Bitcask =>
      match Open.open order c w with
      | (Ok h, w') => (Ok (StBitcask (h, w')), w')
      | (Err e, w') => (Err e, w')
      | (Panic, w') => (Panic, w')
      end
  | StoreType.Sled =>
      match SledStore.open db_open c w with
      | (Ok s, w') => (Ok (StSled s), w')
      | (Err e, w') => (Err e, w')
      | (Panic, w') => (Panic, w')
      end
  end.
End store_open.

(** A database that is a map in memory. *)
#[export] Instance map_db : SledDb (gmap (list byte) (list byte)) := {
  db_insert := fun k v d => (inr (d !! k), <[k := v]> d);
  db_remove := fun k d => (inr (d !! k), delete k d);
  db_get := fun k d => (inr (d !! k), d);
  db_flush := fun d => (inr 0, d)
}.

#[export] Instance map_db_laws : SledDbLaws (gmap (list byte) (list byte)).
Proof.
  refine {| SledStore.db_map := fun d => d |}; intros; [by eexists..|]. by exists 0, d.
Defined.

(** ** Histories *)

(** A client's calls and what each of them returned. *)
Inductive Op : Type :=
| OSet (key value : list byte)
| ORemove (key : list byte)
| OGet (key : list byte).

Inductive Reply : Type :=
| RUnit (o : outcome unit)
| RVal (o : outcome (option (list byte))).

Definition op_small (op : Op) : Prop :=
  match op with OSet k v => small k v | _ => True end.

(** The calls on a store, one after the other; an error does not stop the client. *)
Definition run_op {St} `{KvStore St} (op : Op) (s : St) : Reply * St :=
  match op with
  | OSet k v => let (o, s') := kv_set k v s in (RUnit o, s')
  | ORemove k => let (o, s') := kv_remove k s in (RUnit o, s')
  | OGet k => let (o, s') := kv_get k s in (RVal o, s')
  end.

Fixpoint run_ops {St} `{KvStore St} (ops : list Op) (s : St) : list Reply * St :=
  match ops with
  | [] => ([], s)
  | op :: ops =>
      let (r, s1) := run_op op s in
      let (rs, s2) := run_ops ops s1 in (r :: rs, s2)
  end.

(** The same calls on the abstract map. *)
Definition spec_op (op : Op) (m : gmap (list byte) (list byte))
  : Reply * gmap (list byte) (list byte) :=
  match op with
  | OSet k v => (RUnit (Ok tt), <[k := v]> m)
  | ORemove k => (RUnit (match m !! k with Some _ => Ok tt | None => Err KeyNotFound end), delete k m)
  | OGet k => (RVal (Ok (m !! k)), m)
  end.

Fixpoint spec_ops (ops : list Op) (m : gmap (list byte) (list byte))
  : list Reply * gmap (list byte) (list byte) :=
  match ops with
  | [] => ([], m)
  | op :: ops =>
      let (r, m1) := spec_op op m in
      let (rs, m2) := spec_ops ops m1 in (r :: rs, m2)
  end.

Section histories.
Context {St : Type} `{KvStoreLaws St}.

Lemma kv_holds_step n s m op :
  kv_holds n s m -> 0 < n -> op_small op ->
  exists s', run_op op s = (fst (spec_op op m), s') /\ kv_holds (n - 1) s' (snd (spec_op op m)).
Proof.
  intros Hh Hn Hs. destruct op as [k v|k|k]; cbn [run_op spec_op fst snd op_small] in *.
  - destruct (kv_set_law n s m k v Hh Hn Hs) as (s' & -> & Hh'). by exists s'.
  - destruct (kv_remove_law n s m k Hh Hn) as (s' & -> & Hh'). by exists s'.
  - destruct (kv_get_law n s m k Hh) as (s' & -> & Hh'). exists s'. split; [done|].
    eapply kv_mono; [exact Hh'|lia].
Qed.

Lemma run_ops_law n s m ops :
  kv_holds n s m -> Z.of_nat (length ops) <= n -> Forall op_small ops ->
  exists s', run_ops ops s = (fst (spec_ops ops m), s') /\
    kv_holds (n - Z.of_nat (length ops)) s' (snd (spec_ops ops m)).
Proof.
  revert n s m. induction ops as [|op ops IH]; intros n s m Hh Hn Hs.
  { exists s. split; [done|]. cbn. by rewrite Z.sub_0_r. }
  apply Forall_cons in Hs as [Hop Hs]. cbn [length] in Hn. cbn [run_ops spec_ops].
  destruct (kv_holds_step n s m op Hh ltac:(lia) Hop) as (s1 & -> & Hh1).
  destruct (spec_op op m) as [r m1]. cbn [fst snd] in *.
  destruct (IH (n - 1) s1 m1 Hh1 ltac:(lia) Hs) as (s2 & -> & Hh2).
  destruct (spec_ops ops m1) as [rs m2]. cbn [fst snd] in *. exists s2. split; [done|].
  by replace (n - Z.of_nat (length (op :: ops))) with (n - 1 - Z.of_nat (length ops))
    by (cbn [length]; lia).
Qed.


End histories.

(** ** Opening and running *)

Section end_to_end.
Context `{Crc : Crc32} {Db : Type} `{!SledDb Db} `{!SledDbLaws Db}.
Context (order : list Name -> list Name) (order_perm : forall l, order l ≡ₚ l).
Context (db_open : option Z -> World -> (SledStore.SledError + Db) * World).

(** C18. End to end: opening a new directory, or one that stores [m], through
    [Store::open] and then making any sequence of calls on the store gives the
    replies of the abstract map [m], across rotations, whatever the policy. *)
Theorem open_then_run n c w m ops :
  Config.store_type c = StoreType.Bitcask -> startable w m -> spacious n c w ->
  Z.of_nat (length ops) <= n -> Forall op_small ops ->
  exists s w' s', store_open order db_open c w = (Ok s, w') /\
    run_ops ops s = (fst (spec_ops ops m), s') /\
    kv_holds (n - Z.of_nat (length ops)) s' (snd (spec_ops ops m)).
Proof using order_perm.
  intros Hty Hw Hs Hops Hsm.
  destruct (open_startable order order_perm n c w m Hw ltac:(lia) Hs) as (hd & w' & Hrun & Ho & _).
  destruct (run_ops_law n (StBitcask (hd, w') : Store _ (SledStore.SledStore Db)) m ops)
    as (s' & Hr & Hh'); [exact Ho|done|done|].
  exists (StBitcask (hd, w')), w', s'. split; [|done]. unfold store_open. by rewrite Hty, Hrun.
Qed.

End end_to_end.


#[local] Existing Instance crc32_ieee.

Lemma open_then_run_witness :
  exists s w' s', store_open (Crc := crc32_ieee) (Db := gmap (list byte) (list byte))
      (fun l => l) (fun _ w => (inr ∅, w)) sample_config resting_world = (Ok s, w') /\
    run_ops [OSet (lit "a") (lit "1"); OGet (lit "a")] s =
      ([RUnit (Ok tt); RVal (Ok (Some (lit "1")))], s').
Proof.
  destruct (open_then_run (Crc := crc32_ieee) (Db := gmap (list byte) (list byte))
    (fun l => l) (fun l => reflexivity l) (fun _ w => (inr ∅, w)) 100 sample_config resting_world ∅
    [OSet (lit "a") (lit "1"); OGet (lit "a")]) as (s & w' & s' & Ho & Hr & _).
  - reflexivity.
  - left. apply resting_resting.
  - apply resting_spacious.
  - vm_compute. discriminate.
  - repeat constructor; vm_compute; intuition discriminate.
  - exists s, w', s'. split; [exact Ho|exact Hr].
Defined.
