(* ===== verification/Threads.v ===== *)
(** * Stores that several threads use

    What the server asks of a store: handles that can be cloned into threads, whose
    calls are under way at the same time ([trait KvStore: Clone + Send]). The class
    [ThreadedStore] has the actions of such a store, [ThreadedLaws] the promise that
    they refine the map of System.v. Bitcask with its merge thread is one instance,
    the store over sled another, and [Store] dispatches. *)

From Stdlib Require Import ZArith Lia Strings.Byte.
From stdpp Require Import base numbers list strings gmap.
From S2P Require Import Prelude Bytes Crc Text Config FileSystem Engine Merge MergeSteps KvStore System EngineProofs MergeState Interference Phases PhaseSteps SystemProofs SystemTheorems.
Import SledStore(SledDb, SledDbLaws).

Local Open Scope Z_scope.

(** ** The interface *)

Class ThreadedStore (St : Type) : Type := {
  act_on : Action -> St -> option (option Event * St)
}.

Section runs.
Context {St : Type} `{!ThreadedStore St}.

(** A schedule of actions: what was seen, and the final state. *)
Fixpoint run_on (l : list Action) (s : St) : option (list Event * St) :=
  match l with
  | [] => Some ([], s)
  | a :: l =>
      match act_on a s with
      | None => None
      | Some (e, s') =>
          match run_on l s' with
          | None => None
          | Some (es, s'') => Some (option_list e ++ es, s'')
          end
      end
  end.

Lemma run_on_app l l' s es s1 es' s2 :
  run_on l s = Some (es, s1) -> run_on l' s1 = Some (es', s2) -> run_on (l ++ l') s = Some (es ++ es', s2).
Proof.
  revert s es. induction l as [|a l IH]; intros s es Hrun Hrun'; cbn [run_on app] in *.
  { by injection Hrun as <- <-. }
  destruct (act_on a s) as [[e s']|]; [|done]. destruct (run_on l s') as [[es0 s0]|] eqn:Er; [|done].
  injection Hrun as <- ->. by rewrite (IH s' es0 Er Hrun'), app_assoc.
Qed.

End runs.

Definition call_of (tid : nat) (e : Event) : option Op :=
  match e with Call t op => if decide (t = tid) then Some op else None | Ret _ _ => None end.
Definition return_of (tid : nat) (e : Event) : option Res :=
  match e with Ret t r => if decide (t = tid) then Some r else None | Call _ _ => None end.

(** The calls and the returns of a thread in what is seen. *)
Definition calls (tid : nat) (es : list Event) : list Op := omap (call_of tid) es.
Definition returns (tid : nat) (es : list Event) : list Res := omap (return_of tid) es.

(** What is seen of an action. *)
Definition seen (a : Action) (e : option Event) : Prop :=
  match a with
  | Invoke tid op => e = Some (Call tid op)
  | Respond tid => exists r, e = Some (Ret tid r)
  | Advance _ | Merge_ => e = None
  end.

(** Values are [&str]. *)
Definition op_text (op : Op) : Prop := match op with OSet _ v => utf8_valid v = true | _ => True end.

Class ThreadedLaws (St : Type) `{!ThreadedStore St} : Type := {
  (** the store is where the specification can be *)
  follows : St -> Spec.State -> Prop;
  (** the bounds within which the store keeps its promise *)
  bounded : Action -> St -> Prop;
  act_seen : forall a s e s', act_on a s = Some (e, s') -> seen a e;
  act_follows : forall a s e s' sp, follows s sp -> bounded a s ->
    (forall tid op, a = Invoke tid op -> op_text op) -> act_on a s = Some (e, s') ->
    exists sp', Spec.run sp (option_list e) sp' /\ follows s' sp'
}.

Section laws.
Context {St : Type} `{ThreadedLaws St}.

(** Every action of the schedule is within the bounds. *)
Fixpoint bounded_run (l : list Action) (s : St) : Prop :=
  match l with
  | [] => True
  | a :: l => bounded a s /\ match act_on a s with Some (_, s') => bounded_run l s' | None => True end
  end.

(** The calls that the schedule makes. *)
Definition invoked (l : list Action) : list Op :=
  omap (fun a => match a with Invoke _ op => Some op | _ => None end) l.

(** Every run of a store refines the map. *)
Lemma run_follows l s es s' sp :
  follows s sp -> bounded_run l s -> Forall op_text (invoked l) -> run_on l s = Some (es, s') ->
  exists sp', Spec.run sp es sp' /\ follows s' sp'.
Proof.
  revert s es sp. induction l as [|a l IH]; intros s es sp Hf Hb Ht Hrun; cbn [run_on bounded_run] in *.
  { injection Hrun as <- <-. exists sp. split; [constructor|done]. }
  destruct (act_on a s) as [[e s1]|] eqn:Ea; [|done]. destruct Hb as [Hb Hbl].
  destruct (run_on l s1) as [[es1 s2]|] eqn:Er; [|done]. injection Hrun as <- <-.
  assert ((forall tid op, a = Invoke tid op -> op_text op) /\ Forall op_text (invoked l)) as [Ha Hl].
  { unfold invoked in Ht. cbn [omap list_omap] in Ht.
    destruct a as [tid op| | |]; try (by split; [done|]). apply Forall_cons in Ht as [Hop Ht].
    split; [|done]. by intros tid' op' [= -> ->]. }
  destruct (act_follows _ _ _ _ _ Hf Hb Ha Ea) as (sp1 & Hr1 & Hf1).
  destruct (IH _ _ _ Hf1 Hbl Hl Er) as (sp2 & Hr2 & Hf2). exists sp2. split; [|done].
  by eapply spec_run_app.
Qed.

End laws.

(** A call that nothing interrupts. *)
Definition call_store {St} `{KvStore St} (op : Op) (s : St) : Res * St :=
  match op with
  | OGet k => let (o, s') := kv_get k s in (RGet o, s')
  | OSet k v => let (o, s') := kv_set k v s in (RUnit o, s')
  | ORemove k => let (o, s') := kv_remove k s in (RUnit o, s')
  end.

(** ** Bitcask *)

Section bitcask.
Context `{Crc : Crc32}.

#[export] Instance sys_threaded : ThreadedStore Sys := { act_on := act }.

Lemma run_on_sys l s : run_on l s = run l s.
Proof.
  revert s. induction l as [|a l IH]; intros s; [done|]. cbn [run_on run act_on sys_threaded].
  destruct (act a s) as [[e s1]|]; [|done]. rewrite IH. destruct (run l s1) as [[es s2]|]; [|done]. by destruct e.
Qed.

#[export] Instance sys_laws : ThreadedLaws Sys.
Proof.
  refine {| follows := sim; bounded a s := roomy (Engine.Bitcask.shared (handle s)) (world s) /\ action_fits a |}.
  - intros a s e s' Hact. cbn [act_on sys_threaded] in Hact. destruct a as [tid op|tid|tid|]; cbn [act seen] in *.
    + destruct (threads s !! tid); [done|]. by injection Hact as <- <-.
    + destruct (threads s !! tid) as [th|]; [|done]. destruct (advance s tid th); [|done]. by injection Hact as <- <-.
    + destruct (threads s !! tid) as [[| | | |r]|]; try done. injection Hact as <- <-. by exists r.
    + destruct (merge_step s); [|done]. by injection Hact as <- <-.
  - intros a s e s' sp Hs [Hr Hf] _ Hact. destruct (act_sim a s e s' sp Hs Hr Hf Hact) as (sp' & Hstep & Hs').
    exists sp'. split; [|done]. destruct e as [ev|]; cbn [option_list].
    + eapply Spec.run_event; [exact Hstep|constructor].
    + destruct Hstep as [->|Hstep]; [constructor|]. eapply Spec.run_silent; [exact Hstep|constructor].
Defined.

Lemma bounded_run_sys l s : in_range l s -> bounded_run l s.
Proof.
  revert s. induction l as [|a l IH]; intros s Hin; [done|]. cbn [in_range bounded_run] in *.
  destruct Hin as (Hr & Hf & Hin). split; [by split|]. cbn [act_on sys_threaded].
  destruct (act a s) as [[e s1]|]; [by apply IH|done].
Qed.

End bitcask.

(** ** Sled

    The methods of [SledStore] are cut between their calls of the database, each of
    which the database makes atomic for all its threads. *)

Inductive SledThread : Type :=
| SCalled (op : Op)
(** the write is done, [sync_every_put] is looked at next *)
| SSyncing
| SReturning (r : Res).

Record SledSys (Db : Type) : Type := {
  sled : SledStore.SledStore Db;
  sled_threads : gmap nat SledThread
}.
Arguments sled {Db} _.
Arguments sled_threads {Db} _.

Section sled.
Context {Db : Type} `{!SledDb Db}.

(** The store as it is opened. *)
Definition sled_booted (s : SledStore.SledStore Db) : SledSys Db := {| sled := s; sled_threads := ∅ |}.

Definition set_sled (s : SledSys Db) (st : SledStore.SledStore Db) (tid : nat) (t : SledThread) : SledSys Db :=
  {| sled := st; sled_threads := <[tid := t]> (sled_threads s) |}.

(** Run a part of a method; an error is returned. *)
Definition sled_step {A} (s : SledSys Db) (tid : nat) (c : M (SledStore.SledStore Db) A) (k : A -> SledThread)
  (fail : outcome A -> Res) : SledSys Db :=
  match c (sled s) with
  | (Ok a, st) => set_sled s st tid (k a)
  | (o, st) => set_sled s st tid (SReturning (fail o))
  end.

Definition sled_advance (s : SledSys Db) (tid : nat) (t : SledThread) : option (SledSys Db) :=
  match t with
  | SCalled (OSet k v) =>
      Some (sled_step s tid (SledStore.on_db (SledStore.db_insert k v)) (fun _ => SSyncing) to_unit)
  | SCalled (ORemove k) =>
      Some (sled_step s tid (SledStore.on_db (SledStore.db_remove k))
        (fun old => match old with Some _ => SSyncing | None => SReturning (RUnit (Err KeyNotFound)) end) to_unit)
  | SCalled (OGet k) =>
      Some (sled_step s tid (SledStore.get k) (fun v => SReturning (RGet (Ok v))) to_get)
  | SSyncing => Some (sled_step s tid SledStore.sync_if (fun _ => SReturning (RUnit (Ok tt))) to_unit)
  | SReturning _ => None
  end.

#[export] Instance sled_threaded : ThreadedStore (SledSys Db) := {
  act_on a s :=
    match a with
    | Invoke tid op =>
        match sled_threads s !! tid with
        | None => Some (Some (Call tid op), set_sled s (sled s) tid (SCalled op))
        | Some _ => None
        end
    | Advance tid =>
        match sled_threads s !! tid with
        | Some t => pair None <$> sled_advance s tid t
        | None => None
        end
    | Respond tid =>
        match sled_threads s !! tid with
        | Some (SReturning r) =>
            Some (Some (Ret tid r), {| sled := sled s; sled_threads := delete tid (sled_threads s) |})
        | _ => None
        end
    (* the store has no thread of its own *)
    | Merge_ => None
    end
}.

(** A call whose steps nothing interrupts is the method. *)
Lemma sled_alone op s tid :
  sled_threads s !! tid = Some (SCalled op) ->
  exists n s', run_on (replicate n (Advance tid)) s = Some ([], s') /\
    sled_threads s' = <[tid := SReturning (fst (call_store op (sled s)))]> (sled_threads s) /\
    sled s' = snd (call_store op (sled s)).
Proof.
  intros Ht.
  assert (forall s1, sled_advance s tid (SCalled op) = Some s1 ->
    run_on [Advance tid] s = Some ([], s1)) as H1.
  { intros s1 E. cbn [run_on act_on sled_threaded]. rewrite Ht, E. done. }
  assert (forall st, exists s', run_on [Advance tid] (set_sled s st tid SSyncing) = Some ([], s') /\
    sled_threads s' = <[tid := SReturning (RUnit (fst (SledStore.sync_if st)))]> (sled_threads s) /\
    sled s' = snd (SledStore.sync_if st)) as H2.
  { intros st. cbn [run_on act_on sled_threaded set_sled sled_threads sled]. rewrite lookup_insert, decide_True by done.
    cbn [sled_advance]. unfold sled_step. change (sled (set_sled s st tid SSyncing)) with st.
    destruct (SledStore.sync_if st) as [[[]|e|] st'] eqn:E; (eexists; split; [done|]);
      (split; [|done]); cbn [set_sled sled_threads fst]; by rewrite insert_insert_eq. }
  destruct op as [k v|k|k]; cbn [sled_advance call_store kv_set kv_get kv_remove sled_store] in *.
  - unfold SledStore.set_, bind. unfold sled_step in H1.
    destruct (SledStore.on_db (SledStore.db_insert k v) (sled s)) as [[r|e|] st];
      [|by exists 1%nat; eexists; split; [apply H1|]..].
    destruct (H2 st) as (s' & Hr & Hth & Hs). exists 2%nat, s'. split; [|by destruct (SledStore.sync_if st)].
    exact (run_on_app [Advance tid] [Advance tid] _ _ _ _ _ (H1 _ eq_refl) Hr).
  - exists 1%nat. eexists. split; [by apply H1|]. unfold sled_step.
    by destruct (SledStore.get k (sled s)) as [[r|e|] st].
  - unfold SledStore.remove, bind. unfold sled_step in H1.
    destruct (SledStore.on_db (SledStore.db_remove k) (sled s)) as [[[old|]|e|] st];
      [|by exists 1%nat; eexists; split; [apply H1|]..].
    destruct (H2 st) as (s' & Hr & Hth & Hs). exists 2%nat, s'. split; [|by destruct (SledStore.sync_if st)].
    exact (run_on_app [Advance tid] [Advance tid] _ _ _ _ _ (H1 _ eq_refl) Hr).
Qed.

(** ** Its promise *)

Context `{!SledDbLaws Db}.

(** Where the specification is when a thread is there. *)
Definition sled_matches (th : SledThread) (sp : Spec.Thread) : Prop :=
  match th with
  | SCalled op => sp = Spec.Pending op /\ op_text op
  | SSyncing => sp = Spec.Done (RUnit (Ok tt))
  | SReturning r => sp = Spec.Done r
  end.

Definition sled_follows (s : SledSys Db) (sp : Spec.State) : Prop :=
  sled_holds (sled s) (Spec.map sp) /\
  forall tid, option_Forall2 sled_matches (sled_threads s !! tid) (Spec.threads sp !! tid).

Lemma sled_matches_set (ts : gmap nat SledThread) (sps : gmap nat Spec.Thread) tid th u :
  (forall t, option_Forall2 sled_matches (ts !! t) (sps !! t)) -> sled_matches th u ->
  forall t, option_Forall2 sled_matches (<[tid := th]> ts !! t) (<[tid := u]> sps !! t).
Proof. intros Hts Hm t. rewrite !lookup_insert. case_decide; [by constructor|apply Hts]. Qed.

Lemma sled_matches_keep (ts : gmap nat SledThread) (sps : gmap nat Spec.Thread) tid th u :
  (forall t, option_Forall2 sled_matches (ts !! t) (sps !! t)) -> sps !! tid = Some u -> sled_matches th u ->
  forall t, option_Forall2 sled_matches (<[tid := th]> ts !! t) (sps !! t).
Proof. intros Hts Hu Hm t. rewrite lookup_insert. case_decide as E; [subst; rewrite Hu; by constructor|apply Hts]. Qed.

(** One part of a method. *)
Lemma sled_advance_follows s sp tid th s' :
  sled_follows s sp -> sled_threads s !! tid = Some th -> sled_advance s tid th = Some s' ->
  exists sp', Spec.run sp [] sp' /\ sled_follows s' sp'.
Proof.
  intros [[Hm Hu] Hts] Eth Ha. destruct sp as [m sps]. cbn [Spec.map Spec.threads] in *.
  pose proof (Hts tid) as Ht. rewrite Eth in Ht. inversion Ht as [x u Hmt Ex Eu|]; subst; clear Ht.
  assert (forall sp, Spec.run sp [] sp) as Hnil by constructor.
  destruct th as [[k v|k|k]| |r]; cbn [sled_advance] in Ha; [..|done]; injection Ha as <-; unfold sled_step.
  - destruct Hmt as [-> Hv]. destruct (SledStore.db_insert_law k v (SledStore.db (sled s))) as (d' & Hi & Hm').
    unfold SledStore.on_db. rewrite Hi. eexists. split.
    { eapply Spec.run_silent; [by apply Spec.set|apply Hnil]. }
    split; [|by apply sled_matches_set]. split; [done|]. by apply map_Forall_insert_2.
  - destruct Hmt as [-> _]. destruct (kv_get_law 0 (sled s) (SledStore.db_map (SledStore.db (sled s))) k) as (st & Hg & [Hst Hu']).
    { by split. }
    cbn [kv_get sled_store] in Hg. rewrite Hg. eexists. split.
    { eapply Spec.run_silent; [by apply Spec.get|apply Hnil]. }
    split; [by split|by apply sled_matches_set].
  - destruct Hmt as [-> _]. destruct (SledStore.db_remove_law k (SledStore.db (sled s))) as (d' & Hi & Hm').
    assert (map_Forall (fun _ v => utf8_valid v = true) (delete k (SledStore.db_map (SledStore.db (sled s))))) as Hu'
      by by apply map_Forall_delete.
    unfold SledStore.on_db. rewrite Hi.
    destruct (SledStore.db_map (SledStore.db (sled s)) !! k) as [v|] eqn:E; eexists; split.
    + eapply Spec.run_silent; [eapply Spec.remove_found; [done|by rewrite E]|].
      eapply Spec.run_silent; [apply Spec.remove_delete, lookup_insert_eq|apply Hnil].
    + split; [by split|]. cbn [Spec.threads set_sled sled_threads]. rewrite insert_insert_eq. by apply sled_matches_set.
    + eapply Spec.run_silent; [by eapply Spec.remove_missing|apply Hnil].
    + split; [split; [|done]|by apply sled_matches_set]. cbn. by rewrite Hm', delete_id.
  - cbn [sled_matches] in Hmt. destruct (sync_if_run (sled s)) as (st & Hs & Hst). rewrite Hs.
    eexists. split; [apply Hnil|]. split; [by split|by eapply sled_matches_keep].
Qed.

#[export] Instance sled_threaded_laws : ThreadedLaws (SledSys Db).
Proof.
  refine {| follows := sled_follows; bounded _ _ := True |}.
  - intros a s e s' Hact. cbn [act_on sled_threaded] in Hact. destruct a as [tid op|tid|tid|]; cbn [seen] in *; [..|done].
    + destruct (sled_threads s !! tid); [done|]. by injection Hact as <- <-.
    + destruct (sled_threads s !! tid) as [th|]; [|done]. destruct (sled_advance s tid th); [|done]. by injection Hact as <- <-.
    + destruct (sled_threads s !! tid) as [[| |r]|]; try done. injection Hact as <- <-. by exists r.
  - intros a s e s' [m sps] Hf _ Htext Hact. pose proof Hf as [Hh Hts]. cbn [act_on sled_threaded Spec.map Spec.threads] in *.
    destruct a as [tid op|tid|tid|]; [..|done].
    + pose proof (Hts tid) as Ht. destruct (sled_threads s !! tid); [done|]. injection Hact as <- <-.
      inversion Ht as [|E1 E2]. eexists. split; [eapply Spec.run_event; [by apply Spec.call|constructor]|].
      split; [done|]. apply sled_matches_set; [done|]. split; [done|by eapply Htext].
    + destruct (sled_threads s !! tid) as [th|] eqn:Eth; [|done].
      destruct (sled_advance s tid th) as [s1|] eqn:Ea; [|done]. injection Hact as <- <-. by eapply sled_advance_follows.
    + pose proof (Hts tid) as Ht. destruct (sled_threads s !! tid) as [[| |r]|] eqn:Eth; try done. injection Hact as <- <-.
      inversion Ht as [x u Hmt Ex Eu|]; subst; clear Ht. cbn [sled_matches] in Hmt. subst u.
      eexists. split; [eapply Spec.run_event; [by apply Spec.return_|constructor]|].
      split; [done|]. intros t. cbn [sled_threads Spec.threads]. rewrite !lookup_delete. case_decide; [constructor|apply Hts].
Defined.

End sled.

(** ** The dispatching store *)

Section store.
Context {A B : Type}.

#[export] Instance store_threaded `{!ThreadedStore A} `{!ThreadedStore B} : ThreadedStore (Store A B) := {
  act_on a s :=
    match s with
    | StBitcask s => (fun '(e, s') => (e, StBitcask s')) <$> act_on a s
    | StSled s => (fun '(e, s') => (e, StSled s')) <$> act_on a s
    end
}.

#[export] Instance store_threaded_laws `{!ThreadedStore A} `{!ThreadedStore B} `{!ThreadedLaws A} `{!ThreadedLaws B}
  : ThreadedLaws (Store A B).
Proof.
  refine {| follows := fun s sp => match s with StBitcask s => follows s sp | StSled s => follows s sp end;
            bounded := fun a s => match s with StBitcask s => bounded a s | StSled s => bounded a s end |}.
  - intros a [s|s] e s' Hact; cbn [act_on store_threaded] in Hact;
      (destruct (act_on a s) as [[e1 s1]|] eqn:E; [|done]); injection Hact as <- <-; exact (act_seen a s _ _ E).
  - intros a [s|s] e s' sp Hf Hb Ht Hact; cbn [act_on store_threaded] in Hact;
      (destruct (act_on a s) as [[e1 s1]|] eqn:E; [|done]); injection Hact as <- <-;
      by destruct (act_follows a s e1 s1 sp Hf Hb Ht E) as (sp' & Hr & Hf'); exists sp'.
Defined.

End store.
