(* ===== verification/OneWriter.v ===== *)
(** * Keys that one thread writes

    What a client with several threads can rely on without looking at the other
    keys: when all writes of a key come from one thread, the key is an atomic register
    for all the threads that read it. The theorem is about the specification of
    System.v and so holds of every store that refines it (Threads.v): Bitcask while it
    merges, and sled. It is what the tests of src/tests/tests.rs with several threads
    look for. *)

From Stdlib Require Import ZArith Lia Strings.Byte.
From stdpp Require Import base numbers list strings gmap.
From S2P Require Import Prelude Bytes Crc Text Config FileSystem Engine System EngineProofs SystemProofs SystemTheorems Threads.

Section watch.
Context (k : list byte).

(** What a call makes of the value of [k], when it writes it. *)
Definition writes_key (op : Op) : option (option (list byte)) :=
  match op with
  | OSet k' v => if decide (k' = k) then Some (Some v) else None
  | ORemove k' => if decide (k' = k) then Some None else None
  | OGet _ => None
  end.

Definition is_write (op : Op) : nat := match writes_key op with Some _ => 1 | None => 0 end.

(** A call under way, with the number of writes and of reads of [k] that had returned
    when it began. *)
Record Current : Type := { c_op : Op; c_before : nat; c_since : nat }.

(** A read of [k] that has returned: its value, what had returned when it began, and
    how many writes of [k] had been called when it returned. *)
Record Read : Type := { value : option (list byte); before : nat; since : nat; until : nat }.

(** What an observer knows of [k]. *)
Record Watch : Type := {
  current : gmap nat Current;
  (** what the writes that were called write, in order *)
  written : list (option (list byte));
  (** how many of them have returned *)
  returned : nat;
  reads : list Read
}.

Definition read_of (c : Current) (r : Res) (until : nat) : list Read :=
  match c_op c, r with
  | OGet k', RGet (Ok v) =>
      if decide (k' = k) then
        [{| value := v; before := c_before c; since := c_since c; until := until |}]
      else []
  | _, _ => []
  end.

Definition watch_event (x : Watch) (e : Event) : Watch :=
  match e with
  | Call t op =>
      {| current := <[t := {| c_op := op; c_before := returned x; c_since := length (reads x) |}]> (current x);
         written := written x ++ option_list (writes_key op);
         returned := returned x; reads := reads x |}
  | Ret t r =>
      match current x !! t with
      | None => x
      | Some c =>
          {| current := delete t (current x); written := written x;
             returned := returned x + is_write (c_op c);
             reads := reads x ++ read_of c r (length (written x)) |}
      end
  end.

Definition unwatched : Watch := {| current := ∅; written := []; returned := 0; reads := [] |}.

Definition watch (es : list Event) : Watch := foldl watch_event unwatched es.

(** Nobody but [owner] writes [k]. *)
Definition only_writer (owner : nat) (es : list Event) : Prop :=
  forall t op, Call t op ∈ es -> is_Some (writes_key op) -> t = owner.

(** ** The invariant *)

Section owner.
Context (v0 : option (list byte)) (owner : nat).

(** The values of [k], one after the other. *)
Definition history (x : Watch) : list (option (list byte)) := v0 :: written x.

(** The read saw the value with the number [i]. *)
Definition read_ok (h : list (option (list byte))) (r : Read) (i : nat) : Prop :=
  before r <= i <= until r /\ h !! i = Some (value r).

(** A read does not see an older value than one that returned before it began. *)
Definition in_order (rs : list Read) (idx : list nat) : Prop :=
  forall b r, rs !! b = Some r -> since r <= b /\
    forall a i j, a < since r -> idx !! a = Some i -> idx !! b = Some j -> i <= j.

(** Calls that have not taken effect. *)
Definition undone (th : Spec.Thread) : nat := match th with Spec.Done _ => 0 | _ => 1 end.

(** A call of the program and where the specification is in it, when [n] writes have
    taken effect and the reads so far saw [idx]. *)
Definition call_ok (h : list (option (list byte))) (n : nat) (idx : list nat) (t : nat) (c : Current)
  (th : Spec.Thread) : Prop :=
  (is_Some (writes_key (c_op c)) -> t = owner) /\ c_before c <= n /\ c_since c <= length idx /\
  match th with
  | Spec.Pending op => op = c_op c
  | Spec.Removing k' => c_op c = ORemove k'
  | Spec.Done r => forall v, c_op c = OGet k -> r = RGet (Ok v) ->
      exists i, c_before c <= i <= n /\ h !! i = Some v /\ forall a j, a < c_since c -> idx !! a = Some j -> j <= i
  end.

(** The writes of the owner that are called but have not returned, or not taken effect. *)
Definition pending_write (x : Watch) : nat :=
  match current x !! owner with Some c => is_write (c_op c) | None => 0 end.
Definition undone_write (x : Watch) (sp : Spec.State) : nat :=
  match current x !! owner, Spec.threads sp !! owner with
  | Some c, Some th => undone th * is_write (c_op c)
  | _, _ => 0
  end.

Record register (x : Watch) (sp : Spec.State) (n : nat) (idx : list nat) : Prop := {
  g_calls : forall t, match current x !! t, Spec.threads sp !! t with
                      | None, None => True
                      | Some c, Some th => call_ok (history x) n idx t c th
                      | _, _ => False
                      end;
  g_returned : returned x + pending_write x = length (written x);
  g_done : n + undone_write x sp = length (written x);
  g_last : forall c w, current x !! owner = Some c -> writes_key (c_op c) = Some w -> last (written x) = Some w;
  g_value : history x !! n = Some (Spec.map sp !! k);
  g_reads : Forall2 (read_ok (history x)) (reads x) idx;
  g_order : in_order (reads x) idx;
  g_seen : Forall (fun i => i <= n) idx
}.

Lemma is_write_some op : is_Some (writes_key op) -> is_write op = 1.
Proof. intros [w Hw]. unfold is_write. by rewrite Hw. Qed.

Lemma is_write_not op t : (is_Some (writes_key op) -> t = owner) -> t <> owner -> is_write op = 0.
Proof. intros H Hne. unfold is_write. destruct (writes_key op) eqn:E; [|done]. destruct Hne. by apply H. Qed.

Lemma call_ok_weaken h h' n n' idx js t c th :
  h `prefix_of` h' -> n <= n' -> call_ok h n idx t c th -> call_ok h' n' (idx ++ js) t c th.
Proof.
  intros Hp Hn (Hw & Hb & Hs & Hth). split_and!; [done|lia|rewrite length_app; lia|].
  destruct th as [op|k'|r]; [done|done|]. intros v Hop Hr. destruct (Hth v Hop Hr) as (i & Hi & Hv & Ha).
  exists i. split_and!; [lia..|by eapply prefix_lookup_Some|].
  intros a j Hlt Hj. apply (Ha a j Hlt). by rewrite lookup_app_l in Hj by lia.
Qed.

Lemma returned_done x sp n idx : register x sp n idx -> returned x <= n.
Proof.
  intros [Hc Hr Hd _ _ _ _ _]. specialize (Hc owner). unfold pending_write, undone_write in *.
  destruct (current x !! owner) as [c|]; [|lia]. destruct (Spec.threads sp !! owner) as [th|]; [|done].
  assert (undone th <= 1) by (destruct th; cbn; lia). nia.
Qed.

(** A call begins. *)
Lemma register_call x sp n idx t op :
  register x sp n idx -> Spec.threads sp !! t = None -> (is_Some (writes_key op) -> t = owner) ->
  register (watch_event x (Call t op))
    {| Spec.map := Spec.map sp; Spec.threads := <[t := Spec.Pending op]> (Spec.threads sp) |} n idx.
Proof.
  intros Hg Ht Hown. pose proof (returned_done _ _ _ _ Hg) as Hle. destruct Hg as [Hc Hr Hd Hl Hv Hrd Ho Hs].
  assert (current x !! t = None) as Hct by (specialize (Hc t); rewrite Ht in Hc; by destruct (current x !! t)).
  pose proof (Forall2_length _ _ _ Hrd) as Hlen.
  assert (history x `prefix_of` v0 :: written x ++ option_list (writes_key op)) as Hp
    by (by exists (option_list (writes_key op))).
  assert (length (option_list (writes_key op)) = is_write op) as Hw
    by (unfold is_write; by destruct (writes_key op)).
  split; cbn [watch_event current written returned reads Spec.map Spec.threads history]; unfold history in *.
  - intros t'. rewrite !lookup_insert. case_decide as E.
    + subst t'. split_and!; cbn [c_op c_before c_since]; [done|done|lia|done].
    + specialize (Hc t'). destruct (current x !! t') as [c|], (Spec.threads sp !! t') as [th|]; try done.
      rewrite <- (app_nil_r idx). eapply call_ok_weaken; [exact Hp| |exact Hc]; done.
  - unfold pending_write in *. cbn [current]. rewrite lookup_insert, length_app, Hw.
    case_decide as E; [subst; rewrite Hct in Hr; cbn; lia|]. rewrite (is_write_not op t); [lia|done|congruence].
  - unfold undone_write in *. cbn [current Spec.threads]. rewrite !lookup_insert, length_app, Hw.
    case_decide as E; [subst; rewrite Hct in Hd; cbn; lia|]. rewrite (is_write_not op t); [lia|done|congruence].
  - intros c w. rewrite lookup_insert. case_decide as E.
    + intros [= <-] Hw'. cbn [c_op] in Hw'. rewrite Hw'. cbn. by rewrite last_snoc.
    + intros H1 H2. destruct (writes_key op) eqn:Eop; [destruct E; by apply Hown|]. cbn. rewrite app_nil_r. by eapply Hl.
  - by eapply prefix_lookup_Some.
  - eapply Forall2_impl; [exact Hrd|]. intros r i [Hi Hh]. split; [done|]. by eapply prefix_lookup_Some.
  - done.
  - done.
Qed.

(** A call takes effect, or [remove] has found its key. *)
Lemma register_effect x m m' ts n idx t c th th' :
  register x {| Spec.map := m; Spec.threads := ts |} n idx ->
  current x !! t = Some c -> ts !! t = Some th -> undone th = 1 ->
  let n' := n + (1 - undone th') * is_write (c_op c) in
  history x !! n' = Some (m' !! k) -> call_ok (history x) n' idx t c th' ->
  register x {| Spec.map := m'; Spec.threads := <[t := th']> ts |} n' idx.
Proof.
  intros [Hc Hr Hd Hl Hv Hrd Ho Hs] Hct Htt Hun n' Hv' Hok'. cbn [Spec.map Spec.threads] in *.
  assert (n <= n') by lia. assert (undone th' <= 1) by (destruct th'; cbn; lia).
  pose proof (Hc t) as Hct'. rewrite Hct, Htt in Hct'. destruct Hct' as [Hown _].
  split; cbn [Spec.map Spec.threads]; try done.
  - intros t'. rewrite lookup_insert. case_decide as E; [subst t'; by rewrite Hct|].
    specialize (Hc t'). destruct (current x !! t') as [c'|], (ts !! t') as [th1|]; try done.
    rewrite <- (app_nil_r idx). by eapply call_ok_weaken.
  - unfold undone_write in *. cbn [Spec.threads] in *. rewrite lookup_insert. case_decide as E.
    + subst t. rewrite Hct, Htt, Hun in Hd. rewrite Hct. unfold n'. destruct (undone th') as [|[|u]]; lia.
    + unfold n'. rewrite (is_write_not (c_op c) t); [|done|congruence]. destruct (current x !! owner); [|lia].
      destruct (ts !! owner); lia.
  - eapply Forall_impl; [exact Hs|]. cbn. lia.
Qed.

(** A call returns. *)
Lemma register_return x sp n idx t r :
  register x sp n idx -> Spec.threads sp !! t = Some (Spec.Done r) ->
  exists idx', register (watch_event x (Ret t r))
    {| Spec.map := Spec.map sp; Spec.threads := delete t (Spec.threads sp) |} n idx'.
Proof.
  intros [Hc Hr Hd Hl Hv Hrd Ho Hs] Ht. pose proof (Hc t) as Hct. rewrite Ht in Hct.
  destruct (current x !! t) as [c|] eqn:Ec; [|done]. destruct Hct as (Hown & Hb & Hsi & Hdone).
  pose proof (Forall2_length _ _ _ Hrd) as Hlen.
  assert (exists js, Forall2 (read_ok (history x)) (read_of c r (length (written x))) js /\
    Forall (fun i => i <= n) js /\ forall q j, read_of c r (length (written x)) = [q] -> js = [j] ->
      since q <= length idx /\ forall a i, a < since q -> idx !! a = Some i -> i <= j) as (js & H1 & H2 & H3).
  { unfold read_of. destruct (c_op c) as [|k'|] eqn:Eop; [by exists []| |by exists []].
    destruct r as [|[v|e|]]; [by exists []| |by exists []..]. case_decide as E; [subst k'|by exists []].
    destruct (Hdone v eq_refl eq_refl) as (i & Hi & Hhi & Ha). exists [i]. split_and!.
    - constructor; [|constructor]. split; [cbn [before until]; lia|done].
    - constructor; [lia|constructor].
    - intros q j [= <-] [= <-]. split; [done|exact Ha]. }
  exists (idx ++ js). cbn [watch_event]. rewrite Ec. assert (undone (Spec.Done r) = 0) as Hu by done.
  split; cbn [current written returned reads Spec.map Spec.threads]; [..|done| | |].
  - intros t'. rewrite !lookup_delete. case_decide as E; [done|]. specialize (Hc t').
    destruct (current x !! t') as [c'|], (Spec.threads sp !! t') as [th|]; try done. by apply (call_ok_weaken (history x) (history x) n n).
  - unfold pending_write in *. cbn [current]. rewrite lookup_delete. case_decide as E; [subst; rewrite Ec in Hr; lia|].
    rewrite (is_write_not (c_op c) t); [lia|done|congruence].
  - unfold undone_write in *. cbn [current Spec.threads]. rewrite !lookup_delete.
    case_decide as E; [subst; rewrite Ec, Ht, Hu in Hd; lia|done].
  - intros c' w. rewrite lookup_delete. case_decide; [done|]. apply Hl.
  - by apply Forall2_app.
  - intros b q Hb'. destruct (decide (b < length (reads x))) as [Hlt|Hge].
    + rewrite lookup_app_l in Hb' by done. destruct (Ho b q Hb') as [Hsq Hq]. split; [done|].
      intros a i j Ha. rewrite !lookup_app_l by lia. by apply Hq.
    + rewrite lookup_app_r in Hb' by lia. destruct (read_of c r (length (written x))) as [|q' [|q2 l]] eqn:Er.
      * done.
      * apply Forall2_cons_inv_l in H1 as (j & js' & _ & Hnil & ->). apply Forall2_nil_inv_l in Hnil as ->.
        destruct (H3 q' j eq_refl eq_refl) as [Hsq Hq]. destruct (b - length (reads x)) as [|d] eqn:Ed; [|done].
        injection Hb' as <-. assert (b = length idx) as -> by lia. split; [done|].
        intros a i j' Ha. rewrite lookup_app_l by lia. rewrite lookup_app_r, Nat.sub_diag by lia.
        intros Hi [= <-]. by eapply Hq.
      * exfalso. unfold read_of in Er. repeat case_match; done.
  - by apply Forall_app.
Qed.

Lemma last_history x n :
  (1 + n) = length (written x) -> history x !! (n + 1) = last (written x).
Proof.
  intros Hn. unfold history. rewrite Nat.add_comm. cbn [lookup list_lookup Nat.add]. rewrite last_lookup, <- Hn. done.
Qed.

(** A write of any key takes effect. *)
Lemma register_write x m m' ts n idx t c th r :
  register x {| Spec.map := m; Spec.threads := ts |} n idx ->
  current x !! t = Some c -> ts !! t = Some th -> undone th = 1 -> c_op c <> OGet k ->
  m' !! k = default (m !! k) (writes_key (c_op c)) ->
  exists n', register x {| Spec.map := m'; Spec.threads := <[t := Spec.Done r]> ts |} n' idx.
Proof.
  intros Hg Hct Ht Hun Hop Hm'. pose proof (g_calls _ _ _ _ Hg t) as Hc. cbn [Spec.threads] in Hc.
  rewrite Hct, Ht in Hc. destruct Hc as (Ho & Hb & Hs & _).
  eexists. eapply register_effect; [exact Hg|exact Hct|exact Ht|done| |split_and!; [done|lia|done|done]].
  cbn [undone]. rewrite Nat.sub_0_r, Nat.mul_1_l, Hm'. destruct (writes_key (c_op c)) as [w|] eqn:Ew.
  - assert (t = owner) as -> by by apply Ho. rewrite is_write_some by by rewrite Ew.
    rewrite last_history; [by eapply (g_last _ _ _ _ Hg)|]. pose proof (g_done _ _ _ _ Hg) as Hd. unfold undone_write in Hd.
    cbn [Spec.threads] in Hd. rewrite Hct, Ht, Hun, is_write_some in Hd by (by rewrite Ew). lia.
  - unfold is_write. rewrite Ew, Nat.add_0_r. apply (g_value _ _ _ _ Hg).
Qed.

(** A step of the specification. *)
Lemma register_step x sp e sp' n idx :
  Spec.step sp e sp' -> register x sp n idx ->
  (forall t op, e = Some (Call t op) -> is_Some (writes_key op) -> t = owner) ->
  exists n' idx', register (foldl watch_event x (option_list e)) sp' n' idx'.
Proof.
  intros Hstep Hg Hown.
  assert (forall t th, Spec.threads sp !! t = Some th ->
    exists c, current x !! t = Some c /\ call_ok (history x) n idx t c th) as Hcur.
  { intros t th Ht. pose proof (g_calls _ _ _ _ Hg t) as Hc. rewrite Ht in Hc.
    destruct (current x !! t) as [c|]; [by exists c|done]. }
  destruct Hstep as [m ts t op Ht|m ts t k' v Ht|m ts t k' Ht|m ts t k' Ht Hm|m ts t k' Ht Hm|m ts t k' Ht|m ts t r Ht];
    cbn [Spec.threads] in *; cbn [option_list foldl];
    [|destruct (Hcur t _ Ht) as (c & Hct & Hok); destruct Hok as (Ho & Hb & Hs & Hop); cbn beta iota in Hop..].
  - exists n, idx. apply (register_call x {| Spec.map := m; Spec.threads := ts |}); [done|done|by eapply Hown].
  - edestruct register_write as [n' Hg']; [exact Hg|exact Hct|exact Ht|done|by rewrite <- Hop| |by exists n', idx].
    rewrite <- Hop. cbn [writes_key]. rewrite lookup_insert. by case_decide.
  - exists n, idx. assert (is_write (c_op c) = 0) as Hw by by rewrite <- Hop.
    replace n with (n + (1 - undone (Spec.Done (RGet (Ok (m !! k'))))) * is_write (c_op c)) at 1 by lia.
    eapply register_effect; [exact Hg|exact Hct|exact Ht|done|..]; rewrite Hw, Nat.mul_0_r, Nat.add_0_r;
      [apply (g_value _ _ _ _ Hg)|].
    split_and!; [done..|]. intros v'. rewrite <- Hop. intros [= ->] [= <-].
    exists n. split_and!; [done|done|apply (g_value _ _ _ _ Hg)|]. intros a j _ Hj.
    pose proof (g_seen _ _ _ _ Hg) as Hse. by eapply Forall_lookup in Hse.
  - edestruct register_write as [n' Hg']; [exact Hg|exact Hct|exact Ht|done|by rewrite <- Hop| |by exists n', idx].
    rewrite <- Hop. cbn [writes_key]. case_decide; by subst.
  - exists n, idx. replace n with (n + (1 - undone (Spec.Removing k')) * is_write (c_op c)) at 1 by (cbn; lia).
    eapply register_effect; [exact Hg|exact Hct|exact Ht|done|..]; cbn [undone]; rewrite Nat.sub_diag, Nat.mul_0_l, Nat.add_0_r.
    + apply (g_value _ _ _ _ Hg).
    + by split_and!.
  - edestruct register_write as [n' Hg']; [exact Hg|exact Hct|exact Ht|done|by rewrite Hop| |by exists n', idx].
    rewrite Hop. cbn [writes_key]. rewrite lookup_delete. by case_decide.
  - exists n. exact (register_return x {| Spec.map := m; Spec.threads := ts |} n idx t r Hg Ht).
Qed.

Lemma register_run x sp es sp' n idx :
  Spec.run sp es sp' -> register x sp n idx -> only_writer owner es ->
  exists n' idx', register (foldl watch_event x es) sp' n' idx'.
Proof.
  intros Hrun. revert x n idx. induction Hrun as [|s1 s2 s3 es H1 _ IH|s1 s2 s3 e es H1 _ IH]; intros x n idx Hg Hown.
  - by exists n, idx.
  - destruct (register_step _ _ _ _ _ _ H1 Hg ltac:(done)) as (n1 & idx1 & Hg1). by eapply IH.
  - destruct (register_step _ _ _ _ _ _ H1 Hg) as (n1 & idx1 & Hg1).
    { intros t op [= ->]. apply Hown. left. }
    eapply IH; [exact Hg1|]. intros t op Hin. apply Hown. by right.
Qed.

End owner.
End watch.

(** ** The theorem *)

Lemma unwatched_register k m owner : register k (m !! k) owner unwatched (idle_map m) 0 [].
Proof.
  split; cbn [unwatched idle_map current written returned reads Spec.map Spec.threads]; try done.
Qed.

(** Is a call of the thread under way? *)
Definition under_way (sp : Spec.State) (t : nat) : nat :=
  match Spec.threads sp !! t with Some _ => 1 | None => 0 end.

(** A thread has a call under way, or as many returns as calls. *)
Lemma calls_returns sp es sp' t :
  Spec.run sp es sp' ->
  length (calls t es) + under_way sp t = length (returns t es) + under_way sp' t.
Proof.
  unfold under_way.
  induction 1 as [|s1 s2 s3 es H1 _ IH|s1 s2 s3 e es H1 _ IH]; [done|..].
  - rewrite <- IH. f_equal. inversion H1 as [|m ts t' k' v E|m ts t' k' E|m ts t' k' E _|m ts t' k' E _|m ts t' k' E|];
      subst; cbn [Spec.threads]; rewrite lookup_insert; (case_decide; [subst; by rewrite E|done]).
  - inversion H1 as [m ts t' op E|?????|????|?????|?????|????|m ts t' r E]; subst; 
      cbn [Spec.threads] in *; unfold calls, returns in *; cbn [omap list_omap call_of return_of].
    + rewrite lookup_insert in IH. destruct (decide (t' = t)) as [->|]; [rewrite E; cbn [length]; lia|done].
    + rewrite lookup_delete in IH. destruct (decide (t' = t)) as [->|]; [rewrite E; cbn [length]; lia|done].
Qed.

(** When all calls have returned, the specification is a map at rest. *)
Lemma joined_idle m es sp :
  Spec.run (idle_map m) es sp -> (forall t, length (returns t es) = length (calls t es)) ->
  sp = idle_map (Spec.map sp).
Proof.
  intros Hrun Hj. destruct sp as [m' ts]. unfold idle_map. f_equal. apply map_eq. intros t.
  pose proof (calls_returns _ _ _ t Hrun) as Hc. unfold under_way in Hc. rewrite Hj in Hc. cbn [idle_map Spec.threads] in Hc.
  rewrite lookup_empty in *. destruct (ts !! t); [lia|done].
Qed.

(** The values of a key are those that the calls of its writer write. *)
Lemma watch_written k owner es : only_writer k owner es -> written (watch k es) = omap (writes_key k) (calls owner es).
Proof.
  intros Hown. unfold watch.
  assert (forall x, written (foldl (watch_event k) x es) = written x ++ omap (writes_key k) (calls owner es)) as H;
    [|apply H].
  revert Hown. induction es as [|e es IH]; intros Hown x; [by rewrite app_nil_r|].
  cbn [foldl]. rewrite IH by (intros t op Hin; apply Hown; by right).
  destruct e as [t op|t r]; cbn [calls omap list_omap call_of watch_event written].
  - rewrite <- app_assoc. f_equal. specialize (Hown t op ltac:(left)). destruct (decide (t = owner)) as [->|Hne].
    + cbn [omap list_omap]. by destruct (writes_key k op).
    + destruct (writes_key k op); [destruct Hne; by apply Hown|done].
  - by destruct (current x !! t).
Qed.

Section threaded.
Context {St : Type} `{ThreadedLaws St}.

Lemma run_register l s m es s' k owner :
  follows s (idle_map m) -> bounded_run l s -> Forall op_text (invoked l) -> run_on l s = Some (es, s') ->
  only_writer k owner es ->
  exists sp n idx, Spec.run (idle_map m) es sp /\ follows s' sp /\ register k (m !! k) owner (watch k es) sp n idx.
Proof.
  intros Hf Hb Ht Hrun Hown. destruct (run_follows l s es s' _ Hf Hb Ht Hrun) as (sp & Hsp & Hf').
  destruct (register_run k (m !! k) owner _ _ _ _ _ _ Hsp (unwatched_register k m owner) Hown) as (n & idx & Hg).
  by exists sp, n, idx.
Qed.

(** C10. A key that one thread writes is an atomic register, whatever the other threads
    do to the store and whatever merges run: take any run of a store that has [m], in
    which no thread but [owner] calls [set] or [remove] for the key. The values of the
    key are [m]'s and then those that the calls of [owner] write, in their order. Every
    [get] of the key that has returned saw one of these values: none that is older than
    the last write that had returned when it began, none whose write had not been
    called when it returned, and none that is older than what another [get] saw that
    had returned when it began. When no write is under way, the last value is the one
    that the store has. *)
Theorem one_writer_register l s m es s' k owner :
  follows s (idle_map m) -> bounded_run l s -> Forall op_text (invoked l) -> run_on l s = Some (es, s') ->
  only_writer k owner es ->
  let h := history (m !! k) (watch k es) in
  exists idx sp, Forall2 (read_ok h) (reads (watch k es)) idx /\ in_order (reads (watch k es)) idx /\
    follows s' sp /\ (current (watch k es) !! owner = None -> last h = Some (Spec.map sp !! k)).
Proof.
  intros Hf Hb Ht Hrun Hown h. destruct (run_register l s m es s' k owner Hf Hb Ht Hrun Hown) as (sp & n & idx & _ & Hf' & Hg).
  exists idx, sp. split_and!; [apply Hg|apply Hg|done|]. intros Hc.
  pose proof (g_done _ _ _ _ _ _ _ Hg) as Hd. unfold undone_write in Hd. rewrite Hc, Nat.add_0_r in Hd.
  rewrite <- (g_value _ _ _ _ _ _ _ Hg). unfold h, history. rewrite last_lookup. cbn [length Nat.pred]. by rewrite Hd.
Qed.

End threaded.

(** ** A concrete run *)

#[local] Existing Instance crc32_ieee.

(** In the run [busy] of SystemTheorems.v the key [a] is written by the thread 1 only. *)
Lemma busy_one_writer :
  match busy_end with
  | None => False
  | Some (es, _) => only_writer (lit "a") 1 es /\
      reads (watch (lit "a") es) = [{| value := Some (lit "2"); before := 2; since := 0; until := 2 |}]
  end.
Proof.
  assert (match busy_end with Some (es, _) => Forall (fun e =>
    match e with Call t op => is_Some (writes_key (lit "a") op) -> t = 1 | Ret _ _ => True end) es | None => False end) as Ho.
  { vm_compute. repeat constructor; intros [v Hv]; discriminate. }
  destruct busy_end as [[es s']|] eqn:E; [|done]. split; [by intros t op Hin%(proj1 (Forall_forall _ _) Ho)|].
  assert (es = match busy_end with Some (es, _) => es | None => [] end) as -> by by rewrite E.
  vm_compute. reflexivity.
Qed.

Lemma one_writer_register_witness :
  exists es s' idx, busy_end = Some (es, s') /\
    Forall2 (read_ok (history None (watch (lit "a") es))) (reads (watch (lit "a") es)) idx /\ idx = [2].
Proof.
  pose proof busy_one_writer as Hb. destruct busy_end as [[es s']|] eqn:E; [|destruct Hb]. destruct Hb as [Ho Hr].
  destruct (one_writer_register (H := sys_laws) busy (booted (fresh_handle sample_config) fresh_world) ∅ es s' (lit "a") 1)
    as (idx & sp & Hi & _).
  - exact (ready_sim _ _ _ fresh_ready).
  - apply bounded_run_sys, busy_in_range.
  - repeat constructor.
  - rewrite run_on_sys. exact E.
  - exact Ho.
  - exists es, s', idx. split; [reflexivity|]. split; [exact Hi|]. rewrite Hr in Hi. inversion Hi as [|r i rs js [Hle _] Hnil]; subst.
    inversion Hnil; subst. f_equal. cbn in Hle. lia.
Defined.
