(* ===== verification/Protocol.v ===== *)
(** * The wire protocol

    src/network/error.rs and src/network/protocol.rs: frames of a type byte, a
    length and a payload; requests, responses and error codes; and [execute],
    which runs a request on a store. A writer is a [Sink]: what was handed to
    the operating system, what is still buffered, and how many more bytes it
    takes before it fails. *)

From Stdlib Require Import ZArith Lia Strings.Byte.
From stdpp Require Import base numbers list strings gmap.
From S2P Require Import Prelude Bytes Streams Text.

Local Open Scope Z_scope.

(** ** Writers *)

(** [TcpStream] has [capacity] 0, [BufWriter] has 8 KiB. *)
Record Sink : Type := {
  capacity : Z;
  sent : list byte;
  pending : list byte;
  budget : option nat
}.

Module Sink.

(** The bytes go to the stream; past the budget the connection is broken. *)
Definition raw_write (bs : list byte) : M Sink unit := fun s =>
  match budget s with
  | None => (Ok tt, {| capacity := capacity s; sent := sent s ++ bs; pending := pending s;
                       budget := None |})
  | Some n =>
      ((if (length bs <=? n)%nat then Ok tt else Err (Io Other)),
       {| capacity := capacity s; sent := sent s ++ take n bs; pending := pending s;
          budget := Some (n - length bs)%nat |})
  end.

Definition set_pending (bs : list byte) : M Sink unit :=
  modify (fun s => {| capacity := capacity s; sent := sent s; pending := bs;
                      budget := budget s |}).

Definition flush : M Sink unit :=
  let! bs := gets pending in
  set_pending [] ;;!
  raw_write bs.

Definition write_all (bs : list byte) : M Sink unit :=
  let! s := gets (fun s => s) in
  let spare := capacity s - blen (pending s) in
  if blen bs <? spare then set_pending (pending s ++ bs)
  else
    (if spare <? blen bs then flush else ret tt) ;;!
    if capacity s <=? blen bs then raw_write bs
    else let! s := gets (fun s => s) in set_pending (pending s ++ bs).

End Sink.

(** ** Error codes *)

Inductive ErrorCode : Type := CKeyNotFound | CInternal | CInvalidRequest.

#[global] Instance ErrorCode_eq_dec : EqDecision ErrorCode.
Proof. solve_decision. Defined.

Module ErrorCode.

(** [code as u8] *)
Definition as_u8 (c : ErrorCode) : Z :=
  match c with CKeyNotFound => 1 | CInternal => 2 | CInvalidRequest => 3 end.

Definition to_string (c : ErrorCode) : list byte :=
  match c with
  | CKeyNotFound => lit "Key not found"
  | CInternal => lit "Internal server error"
  | CInvalidRequest => lit "Invalid request"
  end.

Definition from_error (err : KvsError) : ErrorCode :=
  match err with
  | KeyNotFound => CKeyNotFound
  | InvalidData _ => CInvalidRequest
  | _ => CInternal
  end.

Definition into_error (code : ErrorCode) : KvsError :=
  match code with
  | CKeyNotFound => KeyNotFound
  | CInvalidRequest => InvalidData (lit "rejected by server")
  | CInternal => ServerInternal
  end.

Definition try_from (b : Z) : outcome ErrorCode :=
  if b =? 1 then Ok CKeyNotFound
  else if b =? 2 then Ok CInternal
  else if b =? 3 then Ok CInvalidRequest
  else Err UnexpectedCommandType.

End ErrorCode.

(** ** Requests and responses *)

Inductive Request : Type :=
| RGet (key : list byte)
| RSet (key value : list byte)
| RRm (key : list byte).

Inductive Response : Type :=
| ROk
| RValue (v : list byte)
| RError (code : ErrorCode).

#[global] Instance Request_eq_dec : EqDecision Request.
Proof. solve_decision. Defined.
#[global] Instance Response_eq_dec : EqDecision Response.
Proof. solve_decision. Defined.

Module Protocol.

Definition MAX_PAYLOAD : Z := Z.shiftl 16 20.

Definition REQ_GET : byte := x00.
Definition REQ_SET : byte := x01.
Definition REQ_RM : byte := x02.
Definition RESP_OK : byte := x00.
Definition RESP_VALUE : byte := x01.
Definition RESP_ERROR : byte := x02.

Definition read_frame : M Stream (option (byte * list byte)) :=
  mcatch (read_exact 1)
    (fun msg_type =>
       let! len := read_exact 4 in
       let len := from_le len in
       if MAX_PAYLOAD <? len then throw (InvalidData (lit "payload too large"))
       else
         let! payload := read_exact len in
         ret (Some (default x00 (head msg_type), payload)))
    (fun e => if decide (e = Io UnexpectedEof) then ret None else throw e).

Definition write_frame (msg_type : byte) (payload : list byte) : M Sink unit :=
  if u32_max <? blen payload then throw (InvalidData (lit "payload too large"))
  else
    Sink.write_all [msg_type] ;;!
    Sink.write_all (u32_to_le_bytes (blen payload)) ;;!
    Sink.write_all payload ;;!
    Sink.flush.

(** The type byte and the payload of a request. *)
Definition request_frame (req : Request) : byte * list byte :=
  match req with
  | RGet key => (REQ_GET, key)
  | RRm key => (REQ_RM, key)
  | RSet key value => (REQ_SET, u32_to_le_bytes (as_u32 (blen key)) ++ key ++ value)
  end.

Definition write_request (req : Request) : M Sink unit :=
  let (msg_type, payload) := request_frame req in write_frame msg_type payload.

Definition utf8 (b : list byte) : outcome (list byte) :=
  if utf8_valid b then Ok b else Err (InvalidData (lit "invalid utf-8")).

Definition decode_request (msg_type : byte) (payload : list byte) : outcome Request :=
  if decide (msg_type = REQ_GET) then
    match utf8 payload with Ok k => Ok (RGet k) | Err e => Err e | Panic => Panic end
  else if decide (msg_type = REQ_RM) then
    match utf8 payload with Ok k => Ok (RRm k) | Err e => Err e | Panic => Panic end
  else if decide (msg_type = REQ_SET) then
    if blen payload <? 4 then Err (InvalidData (lit "short set payload"))
    else
      let key_len := from_le (ztake 4 payload) in
      let rest := zdrop 4 payload in
      if blen rest <? key_len then Err (InvalidData (lit "short set payload"))
      else match utf8 (ztake key_len rest) with
           | Ok key => match utf8 (zdrop key_len rest) with
                       | Ok value => Ok (RSet key value)
                       | Err e => Err e
                       | Panic => Panic
                       end
           | Err e => Err e
           | Panic => Panic
           end
  else Err UnexpectedCommandType.

Definition response_frame (resp : Response) : byte * list byte :=
  match resp with
  | ROk => (RESP_OK, [])
  | RValue v => (RESP_VALUE, v)
  | RError code => (RESP_ERROR, [byte_of_Z (ErrorCode.as_u8 code)])
  end.

Definition write_response (resp : Response) : M Sink unit :=
  let (msg_type, payload) := response_frame resp in write_frame msg_type payload.

Definition decode_response (msg_type : byte) (payload : list byte) : outcome Response :=
  if decide (msg_type = RESP_OK) then Ok ROk
  else if decide (msg_type = RESP_VALUE) then
    match from_utf8 payload with Ok v => Ok (RValue v) | Err e => Err e | Panic => Panic end
  else if decide (msg_type = RESP_ERROR) then
    match payload with
    | [] => Err (InvalidData (lit "missing error code"))
    | code :: _ => match ErrorCode.try_from (u8 code) with
                   | Ok c => Ok (RError c) | Err e => Err e | Panic => Panic end
    end
  else Err UnexpectedCommandType.

End Protocol.

Import Protocol.

(** ** Writing *)

(** A writer that does not fail. *)
Definition open_sink (s : Sink) : Prop := budget s = None /\ blen (pending s) <= capacity s.

(** Everything that was written, delivered or not. *)
Definition output (s : Sink) : list byte := sent s ++ pending s.

Lemma flush_open s :
  open_sink s ->
  Sink.flush s = (Ok tt, {| capacity := capacity s; sent := output s; pending := [];
                            budget := None |}).
Proof. intros [Hb _]. unfold Sink.flush, bind, gets, Sink.set_pending, modify, Sink.raw_write. cbn. by rewrite Hb. Qed.

Lemma write_all_open s bs :
  open_sink s ->
  exists s', Sink.write_all bs s = (Ok tt, s') /\ open_sink s' /\ capacity s' = capacity s /\
    output s' = output s ++ bs.
Proof.
  intros Hs. pose proof Hs as [Hb Hp]. unfold Sink.write_all. unfold bind at 1, gets at 1.
  destruct (Z.ltb_spec (blen bs) (capacity s - blen (pending s))).
  { eexists. split; [done|]. split; [split; [done|cbn; blia]|]. split; [done|].
    unfold output. cbn. by rewrite app_assoc. }
  destruct (Z.ltb_spec (capacity s - blen (pending s)) (blen bs)).
  - mstep (flush_open s Hs). destruct (Z.leb_spec (capacity s) (blen bs)).
    + unfold Sink.raw_write. cbn [budget]. eexists. split; [done|].
      split; [split; [done|cbn; blia]|]. split; [done|]. unfold output. cbn. by rewrite !app_nil_r.
    + unfold bind, gets, Sink.set_pending, modify. eexists. split; [done|].
      split; [split; [done|cbn; blia]|]. split; [done|]. unfold output. cbn. done.
  - unfold bind at 1, ret. destruct (Z.leb_spec (capacity s) (blen bs)).
    + assert (pending s = []) as Hp0 by (apply blen_0_nil; pose proof (blen_nonneg (pending s)); lia).
      unfold Sink.raw_write. rewrite Hb. eexists. split; [done|].
      split; [split; [done|cbn; by rewrite Hp0 in *]|]. split; [done|].
      unfold output. cbn. rewrite Hp0. by rewrite !app_nil_r.
    + unfold bind, gets, Sink.set_pending, modify. eexists. split; [done|].
      split; [split; [done|cbn; blia]|]. split; [done|]. unfold output. cbn. by rewrite app_assoc.
Qed.

(** The bytes of a frame. *)
Definition frame_bytes (msg_type : byte) (payload : list byte) : list byte :=
  msg_type :: u32_to_le_bytes (blen payload) ++ payload.

Lemma write_frame_open s msg_type payload :
  open_sink s -> blen payload <= u32_max ->
  exists s', write_frame msg_type payload s = (Ok tt, s') /\ open_sink s' /\ pending s' = [] /\
    capacity s' = capacity s /\ sent s' = output s ++ frame_bytes msg_type payload.
Proof.
  intros Hs Hl. unfold write_frame. rewrite (proj2 (Z.ltb_ge _ _)) by lia.
  destruct (write_all_open s [msg_type] Hs) as (s1 & R1 & H1 & C1 & O1). mstep R1.
  destruct (write_all_open s1 (u32_to_le_bytes (blen payload)) H1) as (s2 & R2 & H2 & C2 & O2).
  mstep R2. destruct (write_all_open s2 payload H2) as (s3 & R3 & H3 & C3 & O3). mstep R3.
  rewrite (flush_open s3 H3). eexists. split; [done|].
  split; [split; [done|]|]. { cbn. destruct H3. blia. }
  split; [done|]. split; [cbn; congruence|]. cbn [sent].
  rewrite O3, O2, O1. unfold frame_bytes. by rewrite <- !app_assoc.
Qed.

(** ** Reading *)

Lemma MAX_PAYLOAD_eq : MAX_PAYLOAD = 16777216.
Proof. reflexivity. Qed.

Lemma read_frame_bytes msg_type payload rest f :
  blen payload <= MAX_PAYLOAD ->
  read_frame {| avail := frame_bytes msg_type payload ++ rest; fault := f |} =
  (Ok (Some (msg_type, payload)), {| avail := rest; fault := f |}).
Proof.
  intros Hl. pose proof (blen_nonneg payload). rewrite MAX_PAYLOAD_eq in Hl.
  unfold read_frame, mcatch, frame_bytes. cbn [app].
  change (msg_type :: ?l) with ([msg_type] ++ l). rewrite <- !app_assoc.
  rewrite (read_exact_app [msg_type]) by done. cbn [head default].
  rewrite (bind_ok _ _ _ _ _ (read_exact_app (u32_to_le_bytes (blen payload)) (payload ++ rest) 4 f
    ltac:(by rewrite blen_u32_le))). cbn zeta.
  rewrite from_le_u32 by (unfold is_u32; lia).
  rewrite (proj2 (Z.ltb_ge _ _)) by (rewrite MAX_PAYLOAD_eq; lia).
  by rewrite (bind_ok _ _ _ _ _ (read_exact_app payload rest _ f eq_refl)).
Qed.

Lemma utf8_ok b : utf8_valid b = true -> utf8 b = Ok b.
Proof. intros H. unfold utf8. by rewrite H. Qed.

(** Requests whose strings are text. *)
Definition request_ok (req : Request) : Prop :=
  match req with
  | RGet key | RRm key => utf8_valid key = true
  | RSet key value => utf8_valid key = true /\ utf8_valid value = true
  end /\ blen (snd (request_frame req)) <= MAX_PAYLOAD.

Definition response_ok (resp : Response) : Prop :=
  match resp with RValue v => utf8_valid v = true /\ blen v <= MAX_PAYLOAD | _ => True end.

Lemma decode_request_frame req :
  request_ok req -> decode_request (fst (request_frame req)) (snd (request_frame req)) = Ok req.
Proof.
  intros [Hu Hl]. destruct req as [key|key value|key]; cbn [request_frame fst snd] in *;
    unfold decode_request; cbn [REQ_GET REQ_SET REQ_RM].
  - rewrite decide_True by done. by rewrite utf8_ok.
  - rewrite !decide_False, decide_True by done. destruct Hu as [Hk Hv].
    pose proof (blen_nonneg key). pose proof (blen_nonneg value).
    assert (blen key < 2 ^ 32) as Hk32.
    { rewrite MAX_PAYLOAD_eq in Hl. autorewrite with blen in Hl. lia. }
    assert (as_u32 (blen key) = blen key) as -> by (apply Z.mod_small; lia).
    rewrite (proj2 (Z.ltb_ge _ _)) by (autorewrite with blen; lia).
    rewrite ztake_app, zdrop_app, from_le_u32 by (done || by rewrite blen_u32_le || unfold is_u32; lia).
    rewrite (proj2 (Z.ltb_ge _ _)) by (autorewrite with blen; lia).
    by rewrite ztake_app, zdrop_app, !utf8_ok.
  - rewrite decide_False, decide_True by done. by rewrite utf8_ok.
Qed.

Lemma decode_response_frame resp :
  response_ok resp ->
  decode_response (fst (response_frame resp)) (snd (response_frame resp)) = Ok resp.
Proof.
  intros Hok. destruct resp as [|v|[]]; cbn [response_frame fst snd]; unfold decode_response; cbn; try done.
  destruct Hok as [Hv _]. unfold from_utf8. by rewrite Hv.
Qed.

(** Requests round trip over the wire: writing a request to a connection
    that works succeeds and delivers one frame after what was written before;
    reading that frame, whatever follows it in the stream, consumes exactly its
    bytes and decodes to the request. *)
Theorem request_roundtrip req s :
  open_sink s -> request_ok req ->
  exists s' wire, write_request req s = (Ok tt, s') /\ sent s' = output s ++ wire /\
    pending s' = [] /\
    forall rest f, exists ty payload,
      read_frame {| avail := wire ++ rest; fault := f |} =
        (Ok (Some (ty, payload)), {| avail := rest; fault := f |}) /\
      decode_request ty payload = Ok req.
Proof.
  intros Hs Hok. pose proof Hok as [_ Hl]. unfold write_request.
  pose proof (decode_request_frame req Hok) as Hd. rewrite MAX_PAYLOAD_eq in Hl.
  destruct (request_frame req) as [ty payload] eqn:E. cbn [fst snd] in *.
  destruct (write_frame_open s ty payload Hs) as (s' & Hw & _ & Hp & _ & Hsent); [ulia|].
  exists s', (frame_bytes ty payload). split_and!; try done. intros rest f. exists ty, payload.
  split; [|done]. apply read_frame_bytes. by rewrite MAX_PAYLOAD_eq.
Qed.

(** Responses round trip over the wire, error codes included. *)
Theorem response_roundtrip resp s :
  open_sink s -> response_ok resp ->
  exists s' wire, write_response resp s = (Ok tt, s') /\ sent s' = output s ++ wire /\
    pending s' = [] /\
    forall rest f, exists ty payload,
      read_frame {| avail := wire ++ rest; fault := f |} =
        (Ok (Some (ty, payload)), {| avail := rest; fault := f |}) /\
      decode_response ty payload = Ok resp.
Proof.
  intros Hs Hok. unfold write_response. pose proof (decode_response_frame resp Hok) as Hd.
  assert (blen (snd (response_frame resp)) <= MAX_PAYLOAD) as Hl
    by (rewrite MAX_PAYLOAD_eq; destruct resp; [done|destruct Hok; rewrite <- MAX_PAYLOAD_eq; done|done]).
  destruct (response_frame resp) as [ty payload] eqn:E. cbn [fst snd] in *.
  destruct (write_frame_open s ty payload Hs) as (s' & Hw & _ & Hp & _ & Hsent);
    [rewrite MAX_PAYLOAD_eq in Hl; ulia|].
  exists s', (frame_bytes ty payload). split_and!; try done. intros rest f. exists ty, payload.
  split; [|done]. by apply read_frame_bytes.
Qed.

(** Torn frames: a stream that ends inside a frame is an [UnexpectedEof]
    error, and a stream that ends before its first byte is a clean close. *)
Theorem frame_truncated ty payload n :
  blen payload <= MAX_PAYLOAD -> 0 <= n < blen (frame_bytes ty payload) ->
  fst (read_frame (cursor_over (ztake n (frame_bytes ty payload)))) =
  if n =? 0 then Ok None else Err (Io UnexpectedEof).
Proof.
  intros Hl Hn. unfold frame_bytes in *. rewrite blen_cons, blen_app, blen_u32_le in Hn.
  rewrite MAX_PAYLOAD_eq in Hl. pose proof (blen_nonneg payload).
  destruct (Z.eqb_spec n 0) as [->|Hn0]; [done|].
  replace (ztake n (ty :: u32_to_le_bytes (blen payload) ++ payload))
    with ([ty] ++ ztake (n - 1) (u32_to_le_bytes (blen payload) ++ payload)).
  2:{ unfold ztake. replace (Z.to_nat n) with (S (Z.to_nat (n - 1))) by lia. done. }
  unfold read_frame, mcatch, cursor_over. rewrite (read_exact_app [ty]) by done.
  destruct (Z.lt_ge_cases (n - 1) 4) as [H4|H4].
  - set (s := {| avail := ztake (n - 1) (u32_to_le_bytes (blen payload) ++ payload);
                 fault := None |}).
    assert (blen (avail s) < 4) as Hs
      by (cbn [avail s]; rewrite blen_ztake; [lia|rewrite blen_app, blen_u32_le; lia]).
    by rewrite (bind_err _ _ _ _ _ (read_exact_short 4 s Hs)).
  - replace (ztake (n - 1) (u32_to_le_bytes (blen payload) ++ payload))
      with (u32_to_le_bytes (blen payload) ++ ztake (n - 5) payload).
    2:{ unfold ztake. rewrite take_app_ge by (rewrite length_u32_le; lia).
        rewrite length_u32_le. f_equal. f_equal. lia. }
    rewrite (bind_ok _ _ _ _ _ (read_exact_app (u32_to_le_bytes (blen payload)) _ 4 None
      ltac:(by rewrite blen_u32_le))). cbn zeta.
    rewrite from_le_u32 by (unfold is_u32; lia).
    rewrite (proj2 (Z.ltb_ge _ _)) by (rewrite MAX_PAYLOAD_eq; lia).
    set (s := {| avail := ztake (n - 5) payload; fault := None |}).
    assert (blen (avail s) < blen payload) as Hs by (cbn [avail s]; rewrite blen_ztake; lia).
    by rewrite (bind_err _ _ _ _ _ (read_exact_short (blen payload) s Hs)).
Qed.

Lemma utf8_inv b r : utf8 b = Ok r -> r = b.
Proof. unfold utf8. case_match; [by intros [= ->]|done]. Qed.

Lemma decode_request_cases ty payload :
  blen payload <= MAX_PAYLOAD ->
  match decode_request ty payload with
  | Ok req => request_frame req = (ty, payload) /\ request_ok req
  | Err e => e = UnexpectedCommandType \/ exists msg, e = InvalidData msg
  | Panic => False
  end.
Proof.
  intros Hl. assert (forall b, match utf8 b with
    | Ok r => r = b /\ utf8_valid b = true | Err e => exists msg, e = InvalidData msg
    | Panic => False end) as Hu
    by (intros b; unfold utf8; destruct (utf8_valid b); [done|by eexists]).
  unfold decode_request. case_decide as H1; [|case_decide as H2; [|case_decide as H3; [|by left]]].
  - pose proof (Hu payload). case_match; try done; [|by right]. destruct H as [-> ?]. by subst ty.
  - pose proof (Hu payload). case_match; try done; [|by right]. destruct H as [-> ?]. by subst ty.
  - zcase; [by right; eexists|by right; eexists|].
    set (rest := zdrop 4 payload) in *. set (kl := from_le (ztake 4 payload)) in *.
    pose proof (Hu (ztake kl rest)) as Hk. pose proof (Hu (zdrop kl rest)) as Hv.
    destruct (utf8 (ztake kl rest)) as [k| |] eqn:Ek; try done; [|by right].
    destruct (utf8 (zdrop kl rest)) as [v| |] eqn:Ev; try done; [|by right].
    destruct Hk as [-> Hk], Hv as [-> Hv]. subst ty.
    pose proof (from_le_range (ztake 4 payload)) as Hr. fold kl in Hr.
    assert (request_frame (RSet (ztake kl rest) (zdrop kl rest)) = (REQ_SET, payload)) as Hf.
    { cbn [request_frame]. f_equal. rewrite blen_ztake by lia.
      rewrite blen_ztake in Hr by lia. unfold as_u32. rewrite Z.mod_small by (cbn in Hr; lia).
      replace (ztake kl rest ++ zdrop kl rest) with rest by (symmetry; apply take_drop).
      unfold kl, u32_to_le_bytes. rewrite to_le_from_le.
      - apply take_drop.
      - pose proof (blen_ztake 4 payload ltac:(lia)) as H4. unfold blen in H4. lia. }
    split; [done|]. split; [by split|]. by rewrite Hf.
Qed.

(** Decoding a request is exact: whatever the type byte and the payload, it
    ends with a request or with [InvalidData] or [UnexpectedCommandType], never
    a panic; and a request comes from one frame only. *)
Theorem decode_request_exact ty payload :
  blen payload <= MAX_PAYLOAD ->
  match decode_request ty payload with
  | Ok req => request_ok req /\
      forall ty' payload', blen payload' <= MAX_PAYLOAD ->
        decode_request ty' payload' = Ok req -> ty' = ty /\ payload' = payload
  | Err e => e = UnexpectedCommandType \/ exists msg, e = InvalidData msg
  | Panic => False
  end.
Proof.
  intros Hl. pose proof (decode_request_cases ty payload Hl) as Hc.
  destruct (decode_request ty payload) as [req|e|]; try done. destruct Hc as [Hf Hok].
  split; [done|]. intros ty' payload' Hl' Hd.
  pose proof (decode_request_cases ty' payload' Hl') as Hc. rewrite Hd, Hf in Hc.
  by destruct Hc as [[= -> ->] _].
Qed.

(** ** Concrete runs *)

Definition tcp_sink : Sink := {| capacity := 0; sent := []; pending := []; budget := None |}.

Lemma tcp_sink_open : open_sink tcp_sink.
Proof. split; [reflexivity|]. vm_compute. discriminate. Qed.

Lemma request_roundtrip_witness :
  exists s' wire, write_request (RSet (lit "aa") (lit "aaaa")) tcp_sink = (Ok tt, s') /\
    sent s' = wire /\ wire = lit "" ++ [x01; x0a; x00; x00; x00; x02; x00; x00; x00] ++ lit "aaaaaa".
Proof.
  destruct (request_roundtrip (RSet (lit "aa") (lit "aaaa")) tcp_sink) as (s' & wire & Hw & Hs & _ & _).
  - apply tcp_sink_open.
  - vm_compute. intuition discriminate.
  - exists s', wire. split; [exact Hw|]. cbn in Hs. split; [exact Hs|].
    vm_compute in Hw. injection Hw as <-. vm_compute in Hs. subst wire. reflexivity.
Defined.

Lemma response_roundtrip_witness :
  exists s' wire, write_response (RError CInvalidRequest) tcp_sink = (Ok tt, s') /\ sent s' = wire.
Proof.
  destruct (response_roundtrip (RError CInvalidRequest) tcp_sink) as (s' & wire & Hw & Hs & _).
  - apply tcp_sink_open.
  - exact I.
  - exists s', wire. split; [exact Hw|exact Hs].
Defined.

Lemma frame_truncated_witness :
  fst (read_frame (cursor_over (ztake 6 (frame_bytes REQ_GET (lit "key"))))) =
  Err (Io UnexpectedEof).
Proof.
  apply (frame_truncated REQ_GET (lit "key") 6); vm_compute; intuition discriminate.
Defined.

Lemma decode_request_exact_witness :
  exists e, decode_request REQ_SET (lit "abc") = Err e /\
    (e = UnexpectedCommandType \/ exists msg, e = InvalidData msg).
Proof.
  pose proof (decode_request_exact REQ_SET (lit "abc") ltac:(vm_compute; discriminate)) as H.
  destruct (decode_request REQ_SET (lit "abc")) as [r|e|] eqn:E;
    [vm_compute in E; discriminate| |vm_compute in E; discriminate].
  exists e. split; [reflexivity|exact H].
Defined.
