(* ===== verification/Resp.v ===== *)
(** * The Redis protocol

    src/network/resp.rs: framing, parsing and writing of the RESP2 subset that
    the server speaks to Redis clients. *)

From Stdlib Require Import ZArith Lia Strings.Byte.
From stdpp Require Import base numbers list strings gmap.
From S2P Require Import Prelude Bytes Streams Text Protocol.

Import Protocol.

Local Open Scope Z_scope.

#[local] Set Warnings "-register-all".

Inductive RespValue : Type :=
| SimpleString (s : list byte)
| RespError (s : list byte)
| Integer (i : Z)
| BulkString (s : option (list byte))
| Array (items : option (list RespValue)).

Inductive RespCommand : Type := CGet | CSet | CDel.

Inductive RespRequest : Type :=
| Kv (req : Request)
| ConfigGet (names : list (list byte)).

Module Resp.

Definition MAX_ARRAY_LEN : Z := Z.shiftl 1 20.
Definition MAX_DEPTH : Z := 32.

Definition CRLF : list byte := [x0d; x0a].

Definition command_of (req : Request) : RespCommand :=
  match req with RGet _ => CGet | RSet _ _ => CSet | RRm _ => CDel end.

Definition is_resp (msg_type : byte) : bool :=
  bool_decide (msg_type ∈ lit "+-:$*").

Definition protocol_error (msg : list byte) : KvsError :=
  InvalidData (lit "Protocol error: " ++ msg).

Definition unexpected_eof : KvsError := Io UnexpectedEof.

(** The digits of a length, most significant first. *)
Fixpoint digits_val (acc : Z) (ds : list byte) : Z :=
  match ds with
  | [] => acc
  | d :: ds => digits_val (acc * 10 + digit_val d) ds
  end.

Definition parse_len (body : list byte) : outcome (option Z) :=
  if decide (body = lit "-1") then Ok None
  else if (bool_decide (body = []) || (10 <? blen body) || negb (forallb is_digit body))
  then Err (protocol_error (lit "invalid length"))
  else Ok (Some (digits_val 0 body)).

(** ** Framing *)

(** The loop of [read_frame_resp]. *)
Fixpoint frame_loop (fuel : nat) (pend : Z) (frame : list byte) : M Stream (option (list byte)) :=
  match fuel with
  | O => panic
  | S fuel =>
      if pend =? 0 then ret (Some frame)
      else
        let pend := pend - 1 in
        let! line := read_until x0a in
        if decide (line = []) then
          if decide (frame = []) then ret None else throw unexpected_eof
        else if (blen line <? 3) || negb (ends_with CRLF line) then
          throw (protocol_error (lit "expected CRLF-terminated line"))
        else
          let kind := default x00 (head line) in
          let body := slice line 1 (blen line - 2) in
          let frame := frame ++ line in
          if bool_decide (kind ∈ lit "+-:") then frame_loop fuel pend frame
          else if decide (kind = x24) then
            let! len := of_outcome (parse_len body) in
            match len with
            | None => frame_loop fuel pend frame
            | Some len =>
                if MAX_PAYLOAD <? len then throw (protocol_error (lit "bulk string too large"))
                else
                  let! data := read_exact (len + 2) in
                  if negb (ends_with CRLF (frame ++ data))
                  then throw (protocol_error (lit "bulk string not CRLF-terminated"))
                  else frame_loop fuel pend (frame ++ data)
            end
          else if decide (kind = x2a) then
            let! len := of_outcome (parse_len body) in
            match len with
            | None => frame_loop fuel pend frame
            | Some len =>
                if (MAX_ARRAY_LEN <? len) || (MAX_ARRAY_LEN <? pend + len)
                then throw (protocol_error (lit "array too large"))
                else frame_loop fuel (pend + len) frame
            end
          else throw (protocol_error (lit "unknown type byte"))
  end.

(** Every turn but the last reads a line, so the bytes of the stream bound the
    number of turns. *)
Definition read_frame_resp : M Stream (option (list byte)) := fun s =>
  frame_loop (S (S (length (avail s)))) 1 [] s.

(** ** Parsing *)

(** [buf.windows(2).position(|w| w == b"\r\n")] *)
Fixpoint find_crlf (buf : list byte) : option Z :=
  match buf with
  | x :: buf' =>
      match buf' with
      | y :: _ => if decide (x = x0d /\ y = x0a) then Some 0
                  else match find_crlf buf' with Some n => Some (n + 1) | None => None end
      | [] => None
      end
  | [] => None
  end.

Definition take_line (buf : list byte) : outcome (byte * list byte * Z) :=
  match find_crlf buf with
  | None => Err (protocol_error (lit "expected CRLF-terminated line"))
  | Some e =>
      if e =? 0 then Err (protocol_error (lit "empty line"))
      else Ok (default x00 (head buf), slice buf 1 e, e + 2)
  end.

Definition parse_i64 (body : list byte) : outcome Z :=
  if utf8_valid body then
    match parse_i64_str body with
    | Some i => Ok i
    | None => Err (protocol_error (lit "invalid integer"))
    end
  else Err (protocol_error (lit "invalid integer")).

(** [parse_value] and the loop over the items of an array; [fuel] bounds the
    number of values and items still to be parsed. *)
Fixpoint parse_value (fuel : nat) (buf : list byte) (depth : Z) : outcome (RespValue * Z) :=
  match fuel with
  | O => Panic
  | S fuel =>
      if MAX_DEPTH <? depth then Err (protocol_error (lit "nesting too deep"))
      else
        match take_line buf with
        | Err e => Err e
        | Panic => Panic
        | Ok (kind, body, used) =>
            if decide (kind = x2b) then Ok (SimpleString body, used)
            else if decide (kind = x2d) then Ok (RespError body, used)
            else if decide (kind = x3a) then
              match parse_i64 body with
              | Ok i => Ok (Integer i, used) | Err e => Err e | Panic => Panic
              end
            else if decide (kind = x24) then
              match parse_len body with
              | Err e => Err e
              | Panic => Panic
              | Ok None => Ok (BulkString None, used)
              | Ok (Some len) =>
                  if blen buf <? used + len then Err (protocol_error (lit "short bulk string"))
                  else if (used + len + 2 <=? blen buf) &&
                          bool_decide (slice buf (used + len) (used + len + 2) = CRLF)
                  then Ok (BulkString (Some (slice buf used (used + len))), used + len + 2)
                  else Err (protocol_error (lit "bulk string not CRLF-terminated"))
              end
            else if decide (kind = x2a) then
              match parse_len body with
              | Err e => Err e
              | Panic => Panic
              | Ok None => Ok (Array None, used)
              | Ok (Some len) =>
                  match parse_items fuel buf used len depth with
                  | Ok (items, used) => Ok (Array (Some items), used)
                  | Err e => Err e
                  | Panic => Panic
                  end
              end
            else Err (protocol_error (lit "unknown type byte"))
        end
  end
with parse_items (fuel : nat) (buf : list byte) (used count depth : Z)
  : outcome (list RespValue * Z) :=
  match fuel with
  | O => Panic
  | S fuel =>
      if count <=? 0 then Ok ([], used)
      else
        match parse_value fuel (zdrop used buf) (depth + 1) with
        | Err e => Err e
        | Panic => Panic
        | Ok (item, n) =>
            match parse_items fuel buf (used + n) (count - 1) depth with
            | Ok (items, used) => Ok (item :: items, used)
            | Err e => Err e
            | Panic => Panic
            end
        end
  end.

Definition parse_fuel (buf : list byte) : nat := S (S (2 * length buf)).

Definition parse_resp (buf : list byte) : outcome RespValue :=
  match parse_value (parse_fuel buf) buf 0 with
  | Ok (value, used) =>
      if used =? blen buf then Ok value
      else Err (protocol_error (lit "trailing bytes after value"))
  | Err e => Err e
  | Panic => Panic
  end.

(** ** Commands *)

Definition to_ascii_lowercase (s : list byte) : list byte :=
  (fun x => if in_range 65 90 x then byte_of_Z (u8 x + 32) else x) <$> s.

Definition eq_ignore_ascii_case (a b : list byte) : bool :=
  bool_decide (to_ascii_lowercase a = to_ascii_lowercase b).

(** [.map(..).collect::<Result<Vec<&[u8]>>>()] *)
Fixpoint bulk_args (items : list RespValue) : outcome (list (list byte)) :=
  match items with
  | [] => Ok []
  | BulkString (Some b) :: items =>
      match bulk_args items with Ok bs => Ok (b :: bs) | Err e => Err e | Panic => Panic end
  | _ :: _ => Err (protocol_error (lit "expected bulk string"))
  end.

Definition wrong_args (name : list byte) : KvsError :=
  InvalidData (lit "wrong number of arguments for '" ++
               to_ascii_lowercase (from_utf8_lossy name) ++ lit "' command").

(** The command [name] with its arguments. *)
Definition decode_command (name : list byte) (args : list (list byte)) : outcome RespRequest :=
  if eq_ignore_ascii_case name (lit "GET") then
    match args with
    | [k] => match utf8 k with Ok k => Ok (Kv (RGet k)) | Err e => Err e | Panic => Panic end
    | _ => Err (wrong_args name)
    end
  else if eq_ignore_ascii_case name (lit "SET") then
    match args with
    | [k; v] => match utf8 k with
                | Ok k => match utf8 v with
                          | Ok v => Ok (Kv (RSet k v)) | Err e => Err e | Panic => Panic end
                | Err e => Err e | Panic => Panic
                end
    | _ => Err (wrong_args name)
    end
  else if eq_ignore_ascii_case name (lit "DEL") then
    match args with
    | [k] => match utf8 k with Ok k => Ok (Kv (RRm k)) | Err e => Err e | Panic => Panic end
    | _ => Err (wrong_args name)
    end
  else if eq_ignore_ascii_case name (lit "CONFIG") then
    match args with
    | sub :: names =>
        if eq_ignore_ascii_case sub (lit "GET") then Ok (ConfigGet names)
        else Err (InvalidData (lit "unknown subcommand for 'config' command"))
    | [] => Err (InvalidData (lit "unknown subcommand for 'config' command"))
    end
  else Err (InvalidData (lit "unknown command '" ++ from_utf8_lossy name ++ lit "'")).

Definition decode_request_resp (frame : list byte) : outcome RespRequest :=
  match parse_resp frame with
  | Err e => Err e
  | Panic => Panic
  | Ok (Array (Some (item :: items))) =>
      match bulk_args (item :: items) with
      | Ok (name :: args) => decode_command name args
      | Ok [] => Panic
      | Err e => Err e
      | Panic => Panic
      end
  | Ok _ => Err (protocol_error (lit "expected non-empty array"))
  end.

(** ** Replies *)

Definition bulk (v : list byte) : list byte := lit "$" ++ show_u64 (blen v) ++ CRLF ++ v ++ CRLF.

Definition no_newlines (msg : list byte) : list byte :=
  (fun x => if decide (x = x0d \/ x = x0a) then x20 else x) <$> msg.

Definition write_error (msg : list byte) : M Sink unit :=
  Sink.write_all (lit "-ERR " ++ no_newlines msg ++ CRLF).

Definition write_response_resp (cmd : RespCommand) (resp : Response) : M Sink unit :=
  match cmd, resp with
  | _, RValue v =>
      Sink.write_all (lit "$" ++ show_u64 (blen v) ++ CRLF) ;;!
      Sink.write_all v ;;!
      Sink.write_all CRLF
  | CDel, ROk => Sink.write_all (lit ":1" ++ CRLF)
  | CDel, RError CKeyNotFound => Sink.write_all (lit ":0" ++ CRLF)
  | CGet, RError CKeyNotFound => Sink.write_all (lit "$-1" ++ CRLF)
  | _, ROk => Sink.write_all (lit "+OK" ++ CRLF)
  | _, RError code => write_error (ErrorCode.to_string code)
  end.

Fixpoint write_names (names : list (list byte)) : M Sink unit :=
  match names with
  | [] => ret tt
  | name :: names =>
      Sink.write_all (lit "$" ++ show_u64 (blen name) ++ CRLF) ;;!
      Sink.write_all name ;;!
      Sink.write_all (CRLF ++ lit "$0" ++ CRLF ++ CRLF) ;;!
      write_names names
  end.

Definition write_config_get (names : list (list byte)) : M Sink unit :=
  Sink.write_all (lit "*" ++ show_u64 (blen names * 2) ++ CRLF) ;;!
  write_names names.

(** [other.to_string()] is the [Display] of src/storage/error.rs; the text of an
    error that wraps another crate's is that crate's. *)
Definition to_string (wrapped : KvsError -> list byte) (e : KvsError) : list byte :=
  match e with
  | KeyNotFound => lit "Key not found"
  | UnexpectedCommandType => lit "Unexpected command type"
  | Corruption => lit "Corrupted record"
  | MissingDataFile id => lit "Data file not found, id " ++ show_u64 id
  | LockPoisoned => lit "Lock poisoned"
  | StoreLocked => lit "Store is locked by another process"
  | InvalidData msg => lit "Invalid data: " ++ msg
  | ServerInternal => lit "Internal server error"
  | EngineMismatch found requested =>
      lit "Store directory belongs to the '" ++ found ++ lit "' engine, not '" ++
      requested ++ lit "'"
  | Io _ | Serde | Clock | Utf8 => wrapped e
  end.

Definition decode_error_message (wrapped : KvsError -> list byte) (err : KvsError) : list byte :=
  match err with InvalidData msg => msg | other => to_string wrapped other end.

End Resp.
