(* ===== verification/RespProofs.v ===== *)
(** * Correctness of the Redis protocol

    Framing consumes exactly one value and always ends; parsing is total and
    fails with [InvalidData] only; commands round trip through framing and
    parsing; every reply is one well-formed value, whatever it carries. *)

From Stdlib Require Import ZArith Lia Strings.Byte.
From stdpp Require Import base numbers list strings gmap.
From S2P Require Import Prelude Bytes Streams Text Protocol Resp.
Import Protocol Resp.

Local Open Scope Z_scope.

(** ** Lines *)

Lemma find_crlf_app pre rest : x0d ∉ pre -> find_crlf (pre ++ CRLF ++ rest) = Some (blen pre).
Proof.
  induction pre as [|x pre IH]; intros Hn; [done|].
  apply not_elem_of_cons in Hn as [Hx Hn]. cbn [app find_crlf].
  destruct (pre ++ CRLF ++ rest) as [|y l] eqn:E; [by destruct pre|].
  rewrite decide_False by (by intros [-> _]). rewrite IH by done. rewrite blen_cons. f_equal. lia.
Qed.

Lemma find_crlf_range buf e : find_crlf buf = Some e -> 0 <= e /\ e + 2 <= blen buf.
Proof.
  revert e. induction buf as [|x buf IH]; intros e; [done|]. cbn [find_crlf].
  destruct buf as [|y buf]; [done|]. case_decide; [intros [= <-]; rewrite !blen_cons; blia|].
  destruct (find_crlf (y :: buf)) as [n|] eqn:E; [|done]. intros [= <-].
  destruct (IH n eq_refl). rewrite blen_cons. lia.
Qed.

Lemma take_line_app kind body rest :
  kind <> x0d -> x0d ∉ body ->
  take_line (kind :: body ++ CRLF ++ rest) = Ok (kind, body, blen body + 3).
Proof.
  intros Hk Hb. unfold take_line.
  change (kind :: body ++ CRLF ++ rest) with ((kind :: body) ++ CRLF ++ rest).
  rewrite find_crlf_app by (by apply not_elem_of_cons). rewrite blen_cons.
  pose proof (blen_nonneg body). rewrite (proj2 (Z.eqb_neq _ _)) by lia. cbn [head default app].
  do 2 f_equal; [|lia]. f_equal.
  apply (slice_mid [kind] body (CRLF ++ rest)); [done|rewrite blen_cons, blen_nil; lia].
Qed.

(** ** Parsing is total *)

Definition invalid (e : KvsError) : Prop := exists msg, e = InvalidData msg.

Lemma take_line_total buf :
  match take_line buf with
  | Ok (_, _, used) => 3 <= used <= blen buf | Err e => invalid e | Panic => False end.
Proof.
  unfold take_line. destruct (find_crlf buf) as [e|] eqn:E; [|by eexists].
  apply find_crlf_range in E. destruct (Z.eqb_spec e 0); [by eexists|lia].
Qed.

Lemma parse_len_total body : match parse_len body with
  | Ok (Some n) => 0 <= n | Ok None => True | Err e => invalid e | Panic => False end.
Proof.
  unfold parse_len. case_decide; [done|].
  destruct (_ || _) eqn:E; [by eexists|].
  apply orb_false_iff in E as [_ E]. apply negb_false_iff in E.
  assert (forall acc ds, 0 <= acc -> forallb is_digit ds = true -> 0 <= digits_val acc ds) as Hd.
  { intros acc ds. revert acc. induction ds as [|d ds IH]; intros acc Ha Hf; [done|].
    cbn [digits_val forallb] in *. apply andb_true_iff in Hf as [Hd Hf]. apply IH; [|done].
    unfold is_digit, in_range, digit_val in *. lia. }
  by apply Hd.
Qed.

Lemma parse_i64_total body : match parse_i64 body with
  | Ok _ => True | Err e => invalid e | Panic => False end.
Proof.
  unfold parse_i64. destruct (utf8_valid body); [|by eexists].
  destruct (parse_i64_str body); [done|by eexists].
Qed.

Lemma parse_total fuel :
  (forall buf depth, (2 * length buf < fuel)%nat ->
     match parse_value fuel buf depth with
     | Ok (_, n) => 3 <= n <= blen buf | Err e => invalid e | Panic => False end) /\
  (forall buf used count depth, 0 <= used <= blen buf ->
     2 * (blen buf - used) + 1 < Z.of_nat fuel ->
     match parse_items fuel buf used count depth with
     | Ok (_, u) => used <= u <= blen buf | Err e => invalid e | Panic => False end).
Proof.
  induction fuel as [|fuel [IHv IHi]]; (split; [intros buf depth Hf|intros buf used count depth Hu Hf]);
    [lia|lia| |].
  - cbn [parse_value]. destruct (MAX_DEPTH <? depth); [by eexists|].
    pose proof (take_line_total buf) as El.
    destruct (take_line buf) as [[[kind body] used]|e|]; try done.
    case_decide; [done|]. case_decide; [done|]. case_decide.
    { pose proof (parse_i64_total body). by destruct (parse_i64 body). }
    pose proof (parse_len_total body) as Hl. case_decide.
    { destruct (parse_len body) as [[len|]| |]; try done. zcase; cbn [andb]; try (by eexists).
      case_bool_decide; [lia|by eexists]. }
    case_decide; [|by eexists].
    destruct (parse_len body) as [[len|]| |]; try done.
    specialize (IHi buf used len depth ltac:(lia) ltac:(unfold blen in *; lia)).
    destruct (parse_items fuel buf used len depth) as [[items u]| |]; try done. lia.
  - cbn [parse_items]. destruct (count <=? 0); [lia|].
    pose proof (blen_zdrop used buf Hu) as Hz.
    specialize (IHv (zdrop used buf) (depth + 1) ltac:(unfold blen in *; lia)).
    destruct (parse_value fuel (zdrop used buf) (depth + 1)) as [[item n]| |]; try done.
    specialize (IHi buf (used + n) (count - 1) depth ltac:(lia) ltac:(lia)).
    destruct (parse_items fuel buf (used + n) (count - 1) depth) as [[items u]| |]; try done. lia.
Qed.

Lemma parse_resp_total buf :
  match parse_resp buf with Ok _ => True | Err e => invalid e | Panic => False end.
Proof.
  unfold parse_resp. pose proof (proj1 (parse_total (parse_fuel buf)) buf 0) as H.
  specialize (H ltac:(unfold parse_fuel; lia)).
  destruct (parse_value _ _ _) as [[v n]| |]; try done. destruct (n =? blen buf); [done|by eexists].
Qed.

Lemma utf8_total b : match utf8 b with Ok _ => True | Err e => invalid e | Panic => False end.
Proof. unfold utf8. destruct (utf8_valid b); [done|by eexists]. Qed.

Lemma decode_command_total name args :
  match decode_command name args with Ok _ => True | Err e => invalid e | Panic => False end.
Proof.
  assert (forall m, invalid (InvalidData m)) as Hi by (intros m; by exists m).
  assert (forall (f : list byte -> RespRequest) k,
    match (match utf8 k with Ok k => Ok (f k) | Err e => Err e | Panic => Panic end) with
    | Ok _ => True | Err e => invalid e | Panic => False end) as H1
    by (intros f k; pose proof (utf8_total k); by destruct (utf8 k)).
  unfold decode_command, wrong_args. destruct (eq_ignore_ascii_case name (lit "GET")).
  { destruct args as [|k [|]]; [apply Hi|apply H1|apply Hi]. }
  destruct (eq_ignore_ascii_case name (lit "SET")).
  { destruct args as [|k [|v [|]]]; [apply Hi|apply Hi| |apply Hi].
    pose proof (utf8_total k). destruct (utf8 k); try done. apply H1. }
  destruct (eq_ignore_ascii_case name (lit "DEL")).
  { destruct args as [|k [|]]; [apply Hi|apply H1|apply Hi]. }
  destruct (eq_ignore_ascii_case name (lit "CONFIG")); [|apply Hi].
  destruct args as [|sub names]; [apply Hi|].
  destruct (eq_ignore_ascii_case sub (lit "GET")); [done|apply Hi].
Qed.

Lemma bulk_args_total items :
  match bulk_args items with
  | Ok args => length args = length items | Err e => invalid e | Panic => False end.
Proof.
  induction items as [|[s|s|i|[b|]|a] items IH]; cbn [bulk_args]; try done; try (by eexists).
  destruct (bulk_args items); try done. cbn. by rewrite IH.
Qed.


(** ** Framing ends, and consumes what it returns *)

Lemma read_until_inv d s o s' :
  read_until d s = (Ok o, s') ->
  avail s = o ++ avail s' /\ fault s' = fault s /\ (o = [] -> avail s = []).
Proof.
  unfold read_until. destruct (split_until d (avail s)) as [line rest] eqn:E.
  pose proof (split_until_eq _ _ _ _ E) as Heq.
  case_decide as Hin.
  - intros [= <- <-]. cbn [avail fault]. split_and!; try done. intros ->.
    destruct (avail s) as [|x l] eqn:Ea; [done|]. cbn [split_until] in E.
    case_decide; [done|]. by destruct (split_until d l).
  - destruct (fault s) eqn:Ef; [done|]. intros [= <- <-]. cbn [avail fault].
    assert (rest = []) as ->.
    { clear Heq. revert line rest E Hin. generalize (avail s). intros l. induction l as [|x l IH];
        intros line rest E Hin; cbn [split_until] in E; [by injection E|].
      apply not_elem_of_cons in Hin as [Hx Hin]. rewrite decide_False in E by done.
      destruct (split_until d l) as [l1 r1] eqn:E1. injection E as _ <-. by eapply IH. }
    rewrite app_nil_r in *. split_and!; try done. by intros ->.
Qed.

Lemma read_exact_inv n s o s' :
  0 <= n -> read_exact n s = (Ok o, s') -> avail s = o ++ avail s' /\ fault s' = fault s.
Proof.
  intros Hn. unfold read_exact. case_match; [|done]. intros [= <- <-]. cbn [avail fault].
  split; [symmetry; apply take_drop|done].
Qed.

(** One value is read: nothing but its bytes is consumed. *)
Definition framed_ok (pend : Z) (frame : list byte) (s : Stream) (r : outcome (option (list byte)) * Stream)
  : Prop :=
  match r with
  | (Ok (Some f), s') => exists used, f = frame ++ used /\ avail s = used ++ avail s' /\
                                      fault s' = fault s /\ (used = [] -> pend = 0)
  | (Ok None, s') => frame = [] /\ avail s = []
  | (Err _, _) => True
  | (Panic, _) => False
  end.

Lemma framed_ok_step pend pend' frame s used s1 r :
  avail s = used ++ avail s1 -> fault s1 = fault s -> used <> [] ->
  framed_ok pend' (frame ++ used) s1 r -> framed_ok pend frame s r.
Proof.
  intros Hs Hf Hne Hr. destruct r as [[[f|]|e|] s']; cbn in *; try done.
  - destruct Hr as (u & -> & Ha & Hf' & _). exists (used ++ u).
    rewrite Hs, Ha, !app_assoc. split_and!; try done; [by rewrite Hf'|].
    by intros [? _]%app_eq_nil.
  - destruct Hr as [[_ ?]%app_eq_nil _]. done.
Qed.

Lemma frame_loop_ok fuel pend frame s :
  (length (avail s) + 2 <= fuel)%nat -> framed_ok pend frame s (frame_loop fuel pend frame s).
Proof.
  revert pend frame s. induction fuel as [|fuel IH]; intros pend frame s Hf; [lia|].
  cbn [frame_loop]. destruct (Z.eqb_spec pend 0); [exists []; by rewrite app_nil_r|].
  destruct (read_until x0a s) as [[line|e|] s1] eqn:Hr.
  2:{ by rewrite (bind_err _ _ _ _ _ Hr). }
  2:{ unfold read_until in Hr. destruct (split_until _ _). case_decide; [done|by destruct (fault s)]. }
  rewrite (bind_ok _ _ _ _ _ Hr). apply read_until_inv in Hr as (Ha & Hflt & Hnil).
  destruct (decide (line = [])) as [->|Hne].
  { case_decide; [|done]. split; [done|by apply Hnil]. }
  destruct ((blen line <? 3) || _); [done|].
  assert (forall pend', framed_ok pend frame s (frame_loop fuel pend' (frame ++ line) s1)) as Hrec.
  { intros pend'. eapply framed_ok_step; [exact Ha|exact Hflt|done|]. apply IH.
    rewrite Ha, length_app in Hf. destruct line; [done|]. simpl in Hf. lia. }
  case_bool_decide; [apply Hrec|].
  pose proof (parse_len_total (slice line 1 (blen line - 2))) as Hlen.
  case_decide.
  - rewrite bind_outcome. destruct (parse_len _) as [[len|]|e|]; try done.
    destruct (MAX_PAYLOAD <? len); [done|].
    destruct (read_exact (len + 2) s1) as [[data|e|] s2] eqn:Hx.
    2:{ by rewrite (bind_err _ _ _ _ _ Hx). }
    2:{ unfold read_exact in Hx. by destruct (_ <=? _). }
    rewrite (bind_ok _ _ _ _ _ Hx). apply read_exact_inv in Hx as [Ha2 Hf2]; [|lia].
    destruct (negb _); [done|]. rewrite <- app_assoc.
    eapply (framed_ok_step _ _ _ _ (line ++ data) s2).
    + by rewrite Ha, Ha2, app_assoc.
    + by rewrite Hf2.
    + by destruct line.
    + apply IH. rewrite Ha, Ha2, !length_app in Hf. destruct line; [done|]. simpl in Hf. lia.
  - case_decide; [|done]. rewrite bind_outcome. destruct (parse_len _) as [[len|]|e|]; try done.
    destruct (_ || _); [done|]. apply Hrec.
Qed.

(** Framing: on any stream, [read_frame_resp] ends; a clean end of the
    stream gives [None], only if nothing is left to read; and a frame it
    returns is exactly the bytes it consumed, so the next call starts where
    this one stopped. *)
Theorem read_frame_resp_exact s :
  match read_frame_resp s with
  | (Ok (Some f), s') => avail s = f ++ avail s' /\ fault s' = fault s /\ f <> []
  | (Ok None, _) => avail s = []
  | (Err _, _) => True
  | (Panic, _) => False
  end.
Proof.
  pose proof (frame_loop_ok (S (S (length (avail s)))) 1 [] s ltac:(lia)) as H.
  unfold read_frame_resp. destruct (frame_loop _ 1 [] s) as [[[f|]|e|] s']; cbn in H; try done.
  - destruct H as (u & -> & Ha & Hf & Hu). split_and!; [done|done|]. intros E. by apply Hu in E.
  - apply H.
Qed.

(** ** Lengths *)

Lemma digits_val_parse max acc ds z :
  parse_digits max acc ds = Some z -> digits_val acc ds = z.
Proof.
  revert acc. induction ds as [|d ds IH]; intros acc; cbn [parse_digits digits_val]; [by intros [= ->]|].
  destruct (is_digit d); [|done]. destruct (_ <=? max); [|done]. apply IH.
Qed.

Lemma show_u64_digits n : 0 <= n -> Forall (fun x => is_digit x = true) (show_u64 n).
Proof. apply dec_digits_all. Qed.

Lemma digit_not_control x : is_digit x = true -> x <> x0d /\ x <> x0a /\ x <> x2d.
Proof. intros H. split_and!; intros ->; done. Qed.

Lemma show_u64_no x n :
  0 <= n -> (forall d, is_digit d = true -> d <> x) -> x ∉ show_u64 n.
Proof.
  intros Hn Hx Hin. pose proof (show_u64_digits n Hn) as H. rewrite Forall_forall in H.
  by apply (Hx x (H x Hin)).
Qed.

Lemma dec_digits_length fuel k z :
  0 <= z < 10 ^ Z.of_nat k -> (1 <= k)%nat -> (length (dec_digits fuel z) <= k)%nat.
Proof.
  revert k z. induction fuel as [|fuel IH]; intros k z Hz Hk; cbn [dec_digits]; [simpl; lia|].
  destruct (Z.ltb_spec z 10); [simpl; lia|]. rewrite length_app. cbn [length].
  destruct k as [|[|k]]; [lia|simpl in Hz; lia|].
  specialize (IH (S k) (z / 10)). rewrite (Nat2Z.inj_succ (S k)), Z.pow_succ_r in Hz by lia.
  assert (0 <= z / 10 < 10 ^ Z.of_nat (S k)) as H'
    by (split; [apply Z.div_pos; lia|apply Z.div_lt_upper_bound; lia]).
  specialize (IH H' ltac:(lia)). lia.
Qed.

Lemma parse_len_show n : 0 <= n < 10 ^ 10 -> parse_len (show_u64 n) = Ok (Some n).
Proof.
  intros Hn. unfold parse_len. pose proof (show_u64_digits n (proj1 Hn)) as Hd.
  rewrite decide_False.
  2:{ intros E. rewrite E in Hd. apply Forall_cons in Hd as [Hx _]. done. }
  assert (parse_digits u64_max 0 (show_u64 n) = Some n) as Hp by (apply parse_dec_digits; ulia).
  replace (bool_decide (show_u64 n = [])) with false.
  2:{ symmetry. apply bool_decide_eq_false_2, dec_digits_nonempty. lia. }
  replace (10 <? blen (show_u64 n)) with false.
  2:{ symmetry. apply Z.ltb_ge. pose proof (dec_digits_length 20 10 n Hn ltac:(lia)). unfold blen, show_u64. lia. }
  replace (forallb is_digit (show_u64 n)) with true.
  2:{ symmetry. apply forallb_forall. intros x Hx. rewrite Forall_forall in Hd. apply Hd.
      by apply list_elem_of_In. }
  cbn [orb negb]. by rewrite (digits_val_parse _ _ _ _ Hp).
Qed.

(** The header of a bulk string or an array. *)
Definition header (kind : byte) (n : Z) : list byte := kind :: show_u64 n ++ CRLF.

Lemma bulk_eq v : bulk v = header x24 (blen v) ++ v ++ CRLF.
Proof. unfold bulk, header. cbn [lit String.list_byte_of_string app]. by rewrite <- !app_assoc. Qed.

Lemma read_until_header kind n rest f :
  0 <= n -> kind <> x0a ->
  read_until x0a {| avail := header kind n ++ rest; fault := f |} =
  (Ok (header kind n), {| avail := rest; fault := f |}).
Proof.
  intros Hn Hk. unfold read_until. cbn [avail fault].
  assert (header kind n ++ rest = (kind :: show_u64 n ++ [x0d]) ++ x0a :: rest) as E
    by (unfold header, CRLF; cbn [app]; by rewrite <- !app_assoc).
  assert (header kind n = (kind :: show_u64 n ++ [x0d]) ++ [x0a]) as E'
    by (unfold header, CRLF; cbn [app]; by rewrite <- !app_assoc).
  assert (x0a ∉ kind :: show_u64 n ++ [x0d]) as Hno.
  { apply not_elem_of_cons. split; [done|]. apply not_elem_of_app. split.
    - apply show_u64_no; [done|]. intros d Hd. by apply digit_not_control.
    - by apply not_elem_of_cons; split; [|apply not_elem_of_nil]. }
  rewrite E, split_until_app by done. rewrite decide_True, E'; [done|].
  apply elem_of_app. right. by left.
Qed.

Lemma header_facts kind n :
  0 <= n -> header kind n <> [] /\ (blen (header kind n) <? 3) = false /\
  ends_with CRLF (header kind n) = true /\ head (header kind n) = Some kind /\
  slice (header kind n) 1 (blen (header kind n) - 2) = show_u64 n.
Proof.
  intros Hn. pose proof (dec_digits_nonempty 20 n ltac:(lia)) as Hne. fold (show_u64 n) in Hne.
  assert (1 <= blen (show_u64 n)).
  { destruct (show_u64 n); [done|]. rewrite blen_cons. blia. }
  unfold header. split; [done|]. split.
  { apply Z.ltb_ge. rewrite blen_cons, blen_app. change (blen CRLF) with 2. lia. }
  split; [unfold ends_with; change (kind :: show_u64 n ++ CRLF) with ((kind :: show_u64 n) ++ CRLF);
          by rewrite strip_suffix_app|]. split; [done|].
  apply (slice_mid [kind] (show_u64 n) CRLF); [done|].
  rewrite blen_cons, blen_app. change (blen CRLF) with 2. rewrite blen_cons, blen_nil. lia.
Qed.

(** ** Framing a command *)

Lemma frame_loop_bulk fuel pend frame v rest f :
  0 < pend -> blen v <= MAX_PAYLOAD ->
  frame_loop (S fuel) pend frame {| avail := bulk v ++ rest; fault := f |} =
  frame_loop fuel (pend - 1) (frame ++ bulk v) {| avail := rest; fault := f |}.
Proof.
  intros Hp Hv. pose proof (blen_nonneg v). rewrite MAX_PAYLOAD_eq in Hv.
  cbn [frame_loop]. rewrite (proj2 (Z.eqb_neq _ _)) by lia. rewrite bulk_eq, <- app_assoc.
  rewrite (bind_ok _ _ _ _ _ (read_until_header x24 (blen v) ((v ++ CRLF) ++ rest) f ltac:(lia) ltac:(done))).
  destruct (header_facts x24 (blen v)) as (Hne & Hl & He & Hh & Hs); [lia|].
  rewrite decide_False, Hl, He, Hh, Hs by done. cbn [orb negb default].
  change (bool_decide (id x24 ∈ lit "+-:")) with false. cbv iota. rewrite decide_True by done.
  rewrite bind_outcome, parse_len_show by lia.
  rewrite (proj2 (Z.ltb_ge _ _)) by (rewrite MAX_PAYLOAD_eq; lia).
  rewrite (bind_ok _ _ _ _ _ (read_exact_app (v ++ CRLF) rest (blen v + 2) f
    ltac:(rewrite blen_app; done))).
  rewrite !app_assoc. unfold ends_with. rewrite strip_suffix_app. cbn [negb].
  by rewrite <- !app_assoc.
Qed.

Lemma frame_loop_array fuel frame n rest f :
  0 <= n <= MAX_ARRAY_LEN ->
  frame_loop (S fuel) 1 frame {| avail := header x2a n ++ rest; fault := f |} =
  frame_loop fuel n (frame ++ header x2a n) {| avail := rest; fault := f |}.
Proof.
  intros Hn. change MAX_ARRAY_LEN with 1048576 in Hn. cbn [frame_loop Z.eqb].
  rewrite (bind_ok _ _ _ _ _ (read_until_header x2a n rest f ltac:(lia) ltac:(done))).
  destruct (header_facts x2a n) as (Hne & Hl & He & Hh & Hs); [lia|].
  rewrite decide_False, Hl, He, Hh, Hs by done. cbn [orb negb default].
  change (bool_decide (id x2a ∈ lit "+-:")) with false. cbv iota.
  rewrite decide_False, decide_True by done. rewrite bind_outcome, parse_len_show by lia.
  change MAX_ARRAY_LEN with 1048576. by rewrite !(proj2 (Z.ltb_ge _ _)) by lia.
Qed.

Lemma frame_loop_bulks fuel frame args rest f :
  Forall (fun v => blen v <= MAX_PAYLOAD) args ->
  frame_loop (length args + fuel) (blen args) frame
    {| avail := concat (bulk <$> args) ++ rest; fault := f |} =
  frame_loop fuel 0 (frame ++ concat (bulk <$> args)) {| avail := rest; fault := f |}.
Proof.
  intros Ha. revert frame. induction Ha as [|v args Hv Ha IH]; intros frame.
  { cbn [fmap list_fmap concat length Nat.add]. by rewrite app_nil_r. }
  cbn [fmap list_fmap concat length Nat.add]. rewrite <- app_assoc.
  rewrite frame_loop_bulk; [|rewrite blen_cons; blia|done].
  replace (blen (v :: args) - 1) with (blen args) by (rewrite blen_cons; lia).
  rewrite IH. by rewrite <- app_assoc.
Qed.

(** A command as a client sends it: an array of bulk strings. *)
Definition encode_command (args : list (list byte)) : list byte :=
  header x2a (blen args) ++ concat (bulk <$> args).

Lemma bulks_length args : (length args <= length (concat (bulk <$> args)))%nat.
Proof.
  induction args as [|v args IH]; [done|]. cbn [fmap list_fmap concat length].
  rewrite length_app. unfold bulk at 1. cbn. lia.
Qed.

Lemma frame_command args rest f :
  Forall (fun v => blen v <= MAX_PAYLOAD) args -> blen args <= MAX_ARRAY_LEN ->
  read_frame_resp {| avail := encode_command args ++ rest; fault := f |} =
  (Ok (Some (encode_command args)), {| avail := rest; fault := f |}).
Proof.
  intros Ha Hn. unfold read_frame_resp, encode_command. cbn [avail]. rewrite <- app_assoc.
  set (total := length (header x2a (blen args) ++ concat (bulk <$> args) ++ rest)).
  rewrite frame_loop_array by (pose proof (blen_nonneg args); lia). cbn [app].
  assert (length args <= total)%nat as Hle
    by (unfold total; rewrite !length_app; pose proof (bulks_length args); lia).
  replace (S total) with (length args + S (total - length args))%nat by lia.
  by rewrite frame_loop_bulks.
Qed.

(** ** Parsing a command *)

Lemma take_line_header kind n rest :
  0 <= n -> kind <> x0d ->
  take_line (header kind n ++ rest) = Ok (kind, show_u64 n, blen (header kind n)).
Proof.
  intros Hn Hk. unfold header. cbn [app]. rewrite <- app_assoc, take_line_app; [|done|].
  - rewrite blen_cons, blen_app. change (blen CRLF) with 2. do 2 f_equal. lia.
  - apply show_u64_no; [done|]. intros d Hd. by apply digit_not_control.
Qed.

Lemma parse_bulk fuel v rest depth :
  blen v <= MAX_PAYLOAD -> depth <= MAX_DEPTH ->
  parse_value (S fuel) (bulk v ++ rest) depth = Ok (BulkString (Some v), blen (bulk v)).
Proof.
  intros Hv Hd. rewrite MAX_PAYLOAD_eq in Hv. pose proof (blen_nonneg v). cbn [parse_value].
  rewrite (proj2 (Z.ltb_ge _ _)) by done. rewrite bulk_eq, <- app_assoc.
  rewrite take_line_header by (done || lia). rewrite !decide_False, decide_True by done.
  rewrite parse_len_show by lia. set (h := header x24 (blen v)). rewrite <- app_assoc.
  rewrite !blen_app. change (blen CRLF) with 2. pose proof (blen_nonneg rest).
  rewrite (proj2 (Z.ltb_ge _ _)), (proj2 (Z.leb_le _ _)) by lia.
  rewrite bool_decide_eq_true_2.
  2:{ rewrite (app_assoc h v). apply slice_mid; rewrite blen_app; [done|]. by change (blen CRLF) with 2. }
  cbn [andb]. do 2 f_equal; [|lia]. do 2 f_equal. by apply slice_mid.
Qed.

Lemma parse_items_S fuel buf used count depth :
  parse_items (S fuel) buf used count depth =
  if count <=? 0 then Ok ([], used)
  else
    match parse_value fuel (zdrop used buf) (depth + 1) with
    | Err e => Err e
    | Panic => Panic
    | Ok (item, n) =>
        match parse_items fuel buf (used + n) (count - 1) depth with
        | Ok (items, used) => Ok (item :: items, used)
        | Err e => Err e
        | Panic => Panic
        end
    end.
Proof. reflexivity. Qed.

Lemma parse_bulks fuel pre args rest depth :
  Forall (fun v => blen v <= MAX_PAYLOAD) args -> depth + 1 <= MAX_DEPTH ->
  parse_items (S (length args + fuel)) (pre ++ concat (bulk <$> args) ++ rest) (blen pre)
    (blen args) depth =
  Ok ((fun v => BulkString (Some v)) <$> args, blen pre + blen (concat (bulk <$> args))).
Proof.
  intros Ha Hd. revert pre. induction Ha as [|v args Hv Ha IH]; intros pre.
  { cbn. by rewrite Z.add_0_r. }
  cbn [length Nat.add]. rewrite parse_items_S.
  rewrite (proj2 (Z.leb_gt _ _)) by (rewrite blen_cons; blia).
  rewrite zdrop_app by done. cbn [fmap list_fmap concat]. rewrite <- app_assoc.
  rewrite parse_bulk by done.
  replace (blen (v :: args) - 1) with (blen args) by (rewrite blen_cons; lia).
  rewrite app_assoc, <- blen_app. rewrite IH. do 2 f_equal. rewrite !blen_app. lia.
Qed.

Lemma parse_encoded_command args :
  Forall (fun v => blen v <= MAX_PAYLOAD) args -> blen args <= MAX_ARRAY_LEN ->
  parse_resp (encode_command args) = Ok (Array (Some ((fun v => BulkString (Some v)) <$> args))).
Proof.
  intros Ha Hn. change MAX_ARRAY_LEN with 1048576 in Hn. pose proof (blen_nonneg args).
  unfold parse_resp, parse_fuel. cbn [parse_value]. change (MAX_DEPTH <? 0) with false. cbv iota.
  assert (take_line (encode_command args) =
    Ok (x2a, show_u64 (blen args), blen (header x2a (blen args)))) as ->
    by (unfold encode_command; apply take_line_header; (done || lia)).
  rewrite !decide_False, decide_True by done. rewrite parse_len_show by lia.
  pose proof (bulks_length args) as Hle.
  assert (length args <= length (encode_command args))%nat as Hle'
    by (unfold encode_command; rewrite length_app; lia).
  set (total := length (encode_command args)) in *.
  replace (S (2 * total))%nat with (S (length args + (2 * total - length args)))%nat by lia.
  unfold encode_command. set (h := header x2a (blen args)).
  replace (h ++ concat (bulk <$> args)) with (h ++ concat (bulk <$> args) ++ [])
    by by rewrite app_nil_r.
  rewrite parse_bulks by done. rewrite app_nil_r, blen_app, Z.eqb_refl. done.
Qed.

Lemma bulk_args_bulks args : bulk_args ((fun v => BulkString (Some v)) <$> args) = Ok args.
Proof. induction args as [|v args IH]; [done|]. cbn [fmap list_fmap bulk_args]. by rewrite IH. Qed.

(** The arguments of a request, under a command name in any case. *)
Definition request_args (name : list byte) (req : Request) : list (list byte) :=
  match req with
  | RGet k => [name; k]
  | RSet k v => [name; k; v]
  | RRm k => [name; k]
  end.

Definition request_name (req : Request) : list byte :=
  match req with RGet _ => lit "GET" | RSet _ _ => lit "SET" | RRm _ => lit "DEL" end.

Definition request_text (req : Request) : Prop :=
  match req with
  | RGet k | RRm k => utf8_valid k = true
  | RSet k v => utf8_valid k = true /\ utf8_valid v = true
  end.

Lemma decode_named name req :
  eq_ignore_ascii_case name (request_name req) = true -> request_text req ->
  decode_command name (tail (request_args name req)) = Ok (Kv req).
Proof.
  intros Hn Ht. unfold decode_command. apply bool_decide_eq_true_1 in Hn.
  unfold eq_ignore_ascii_case. rewrite Hn. destruct req as [k|k v|k]; cbn [request_name request_args tail] in *.
  - rewrite bool_decide_eq_true_2 by done. by rewrite utf8_ok.
  - change (bool_decide (to_ascii_lowercase (lit "SET") = to_ascii_lowercase (lit "GET"))) with false.
    cbv iota. rewrite bool_decide_eq_true_2 by done. destruct Ht. by rewrite !utf8_ok.
  - change (bool_decide (to_ascii_lowercase (lit "DEL") = to_ascii_lowercase (lit "GET"))) with false.
    change (bool_decide (to_ascii_lowercase (lit "DEL") = to_ascii_lowercase (lit "SET"))) with false.
    cbv iota. rewrite bool_decide_eq_true_2 by done. by rewrite utf8_ok.
Qed.



(** ** Replies *)

(** The value that a reply carries, by the command it answers. *)
Definition reply_value (cmd : RespCommand) (resp : Response) : RespValue :=
  match cmd, resp with
  | _, RValue v => BulkString (Some v)
  | CDel, ROk => Integer 1
  | CDel, RError CKeyNotFound => Integer 0
  | CGet, RError CKeyNotFound => BulkString None
  | _, ROk => SimpleString (lit "OK")
  | _, RError code => RespError (lit "ERR " ++ ErrorCode.to_string code)
  end.

(** Writing [bytes] and nothing else. *)
Definition emits (c : M Sink unit) (bytes : list byte) : Prop :=
  forall s, open_sink s -> exists s', c s = (Ok tt, s') /\ open_sink s' /\
    capacity s' = capacity s /\ output s' = output s ++ bytes.

Lemma emits_write bs : emits (Sink.write_all bs) bs.
Proof. intros s Hs. by apply write_all_open. Qed.

Lemma emits_bind c d b1 b2 : emits c b1 -> emits d b2 -> emits (c ;;! d) (b1 ++ b2).
Proof.
  intros Hc Hd s Hs. destruct (Hc s Hs) as (s1 & R1 & O1 & C1 & E1).
  destruct (Hd s1 O1) as (s2 & R2 & O2 & C2 & E2). exists s2. mstep R1.
  split_and!; [done|done|congruence|]. by rewrite E2, E1, app_assoc.
Qed.

Lemma emits_ret : emits (ret tt) [].
Proof. intros s Hs. exists s. by rewrite app_nil_r. Qed.

Lemma parse_simple kind body v :
  kind <> x0d -> x0d ∉ body ->
  (kind = x2b /\ v = SimpleString body \/ kind = x2d /\ v = RespError body) ->
  parse_resp (kind :: body ++ CRLF) = Ok v.
Proof.
  intros Hk Hb Hv. unfold parse_resp, parse_fuel. cbn [parse_value].
  change (MAX_DEPTH <? 0) with false. cbv iota.
  pose proof (take_line_app kind body [] Hk Hb) as Ht. rewrite app_nil_r in Ht. rewrite Ht.
  rewrite blen_cons, blen_app.
  change (blen CRLF) with 2.
  destruct Hv as [[-> ->]|[-> ->]];
    [rewrite decide_True by done|rewrite decide_False, decide_True by done];
    by rewrite (proj2 (Z.eqb_eq _ _)) by lia.
Qed.

Lemma no_newlines_clean msg : (x0d ∉ no_newlines msg) /\ (x0a ∉ no_newlines msg).
Proof.
  split; unfold no_newlines; intros (x & E & _)%list_elem_of_fmap; case_decide as Hd; try done;
    apply Hd; subst; auto.
Qed.

Lemma parse_error_line msg :
  parse_resp (lit "-ERR " ++ no_newlines msg ++ CRLF) = Ok (RespError (lit "ERR " ++ no_newlines msg)).
Proof.
  apply (parse_simple x2d (lit "ERR " ++ no_newlines msg)); [done| |by right].
  apply not_elem_of_app. split; [|apply no_newlines_clean].
  vm_compute. intros H. repeat (inversion H as [|? ? ? H']; subst; clear H; rename H' into H).
Qed.

(** An error reply stays one line: whatever the message contains, the bytes
    written are one RESP error, with no CR or LF inside that a client could
    take for the end of the reply. *)
Theorem write_error_one_line msg :
  exists line, emits (write_error msg) (line ++ CRLF) /\ (x0d ∉ line) /\ (x0a ∉ line) /\
    parse_resp (line ++ CRLF) = Ok (RespError (lit "ERR " ++ no_newlines msg)).
Proof.
  exists (lit "-ERR " ++ no_newlines msg). destruct (no_newlines_clean msg) as [H1 H2].
  assert (forall x, x ∉ lit "-ERR " -> x ∉ no_newlines msg -> x ∉ lit "-ERR " ++ no_newlines msg) as H
    by (intros x Ha Hb; by apply not_elem_of_app).
  rewrite <- app_assoc. split_and!; [apply emits_write|apply H; [|done]|apply H; [|done]|apply parse_error_line];
    vm_compute; intros Hx; repeat (inversion Hx as [|? ? ? H']; subst; clear Hx; rename H' into Hx).
Qed.

Lemma parse_reply_bulk v : blen v <= MAX_PAYLOAD -> parse_resp (bulk v) = Ok (BulkString (Some v)).
Proof.
  intros Hv. unfold parse_resp, parse_fuel. rewrite <- (app_nil_r (bulk v)) at 2.
  rewrite parse_bulk by done. by rewrite Z.eqb_refl.
Qed.

Lemma reply_no_newlines code : no_newlines (ErrorCode.to_string code) = ErrorCode.to_string code.
Proof. by destruct code. Qed.

(** The bytes of a reply. *)
Definition reply_bytes (cmd : RespCommand) (resp : Response) : list byte :=
  match reply_value cmd resp with
  | BulkString (Some v) => bulk v
  | BulkString None => lit "$-1" ++ CRLF
  | Integer i => lit ":" ++ show_u64 i ++ CRLF
  | SimpleString s => lit "+" ++ s ++ CRLF
  | RespError s => lit "-" ++ s ++ CRLF
  | Array _ => []
  end.

Lemma reply_emits cmd resp :
  (forall v, resp = RValue v -> blen v <= MAX_PAYLOAD) ->
  emits (write_response_resp cmd resp) (reply_bytes cmd resp) /\
  parse_resp (reply_bytes cmd resp) = Ok (reply_value cmd resp).
Proof.
  intros Hv. destruct resp as [|v|code].
  - destruct cmd; (split; [apply emits_write|done]).
  - split; [|destruct cmd; by apply parse_reply_bulk, Hv].
    replace (reply_bytes cmd (RValue v)) with ((lit "$" ++ show_u64 (blen v) ++ CRLF) ++ v ++ CRLF)
      by (destruct cmd; unfold reply_bytes, bulk; cbn [reply_value]; by rewrite <- !app_assoc).
    destruct cmd; (apply emits_bind; [apply emits_write|];
      apply emits_bind; apply emits_write).
  - destruct cmd, code; (split; [apply emits_write|done]).
Qed.

(** A line that stands for itself. *)
Lemma frame_line kind body rest f :
  kind <> x0a -> x0a ∉ body ->
  (bool_decide (kind ∈ lit "+-:") = true \/ (kind = x24 /\ body = lit "-1")) ->
  read_frame_resp {| avail := (kind :: body ++ CRLF) ++ rest; fault := f |} =
  (Ok (Some (kind :: body ++ CRLF)), {| avail := rest; fault := f |}).
Proof.
  intros Hk Hb Hkind. unfold read_frame_resp. cbn [avail].
  set (n := length ((kind :: body ++ CRLF) ++ rest)). cbn [frame_loop Z.eqb].
  assert (read_until x0a {| avail := (kind :: body ++ CRLF) ++ rest; fault := f |} =
    (Ok (kind :: body ++ CRLF), {| avail := rest; fault := f |})) as Hr.
  { unfold read_until. cbn [avail fault].
    assert ((kind :: body ++ CRLF) ++ rest = (kind :: body ++ [x0d]) ++ x0a :: rest) as ->
      by (unfold CRLF; cbn [app]; by rewrite <- !app_assoc).
    assert (x0a ∉ kind :: body ++ [x0d]) as Hno.
    { apply not_elem_of_cons. split; [done|]. apply not_elem_of_app. split; [done|].
      by apply not_elem_of_cons; split; [|apply not_elem_of_nil]. }
    rewrite split_until_app by done. rewrite decide_True by (apply elem_of_app; right; by left).
    do 2 f_equal. unfold CRLF. cbn [app]. by rewrite <- app_assoc. }
  rewrite (bind_ok _ _ _ _ _ Hr). rewrite decide_False by done.
  pose proof (blen_nonneg body).
  rewrite (proj2 (Z.ltb_ge _ _)) by (rewrite blen_cons, blen_app; change (blen CRLF) with 2; lia).
  change (kind :: body ++ CRLF) with ((kind :: body) ++ CRLF).
  unfold ends_with. rewrite strip_suffix_app. cbn [orb negb head app default].
  destruct Hkind as [Hkind|[-> ->]]; [by change (id kind) with kind; rewrite Hkind|done].
Qed.

(** Every reply to GET, SET and DEL is exactly one RESP value, the one the
    table of the protocol gives for the command and the response, and a client
    that reads values from the stream takes exactly the bytes of the reply. *)
Theorem resp_reply_wellformed cmd resp :
  (forall v, resp = RValue v -> blen v <= MAX_PAYLOAD) ->
  exists bytes, emits (write_response_resp cmd resp) bytes /\
    parse_resp bytes = Ok (reply_value cmd resp) /\
    (forall rest f, read_frame_resp {| avail := bytes ++ rest; fault := f |} =
       (Ok (Some bytes), {| avail := rest; fault := f |})).
Proof.
  intros Hv. destruct (reply_emits cmd resp Hv) as [He Hp]. exists (reply_bytes cmd resp).
  split_and!; try done. intros rest f. clear He Hp.
  assert (forall (x : byte) (l : list byte), bool_decide (x ∈ l) = false -> x ∉ l) as Hno
    by (intros x l; apply bool_decide_eq_false_1).
  destruct resp as [|v|code].
  - destruct cmd; [apply (frame_line x2b (lit "OK"))|apply (frame_line x2b (lit "OK"))
      |apply (frame_line x3a (lit "1"))]; try done; try (by apply Hno); by left.
  - replace (reply_bytes cmd (RValue v)) with (bulk v) by by destruct cmd.
    unfold read_frame_resp. cbn [avail]. rewrite frame_loop_bulk by (done || by apply Hv). done.
  - destruct cmd, code; [apply (frame_line x24 (lit "-1"))
      |apply (frame_line x2d (lit "ERR Internal server error"))
      |apply (frame_line x2d (lit "ERR Invalid request"))
      |apply (frame_line x2d (lit "ERR Key not found"))
      |apply (frame_line x2d (lit "ERR Internal server error"))
      |apply (frame_line x2d (lit "ERR Invalid request"))
      |apply (frame_line x3a (lit "0"))
      |apply (frame_line x2d (lit "ERR Internal server error"))
      |apply (frame_line x2d (lit "ERR Invalid request"))];
      try done; try (by apply Hno); (by left) || (by right).
Qed.

(** The names of [CONFIG GET] with an empty value each. *)
Definition name_pairs (names : list (list byte)) : list (list byte) :=
  concat ((fun name => [name; []]) <$> names).

Lemma length_name_pairs names : length (name_pairs names) = (2 * length names)%nat.
Proof.
  unfold name_pairs. induction names as [|n names IH]; [done|].
  cbn [fmap list_fmap concat app length]. rewrite IH. lia.
Qed.

Lemma name_pairs_small names :
  Forall (fun v => blen v <= MAX_PAYLOAD) names ->
  Forall (fun v => blen v <= MAX_PAYLOAD) (name_pairs names).
Proof.
  unfold name_pairs. induction 1 as [|v names Hv Hn IH]; [constructor|].
  cbn [fmap list_fmap concat app]. constructor; [done|]. constructor; [done|]. apply IH.
Qed.

Lemma config_get_emits names :
  Forall (fun v => blen v <= MAX_PAYLOAD) names -> 2 * blen names <= MAX_ARRAY_LEN ->
  emits (write_config_get names) (encode_command (name_pairs names)) /\
  parse_resp (encode_command (name_pairs names)) =
    Ok (Array (Some ((fun v => BulkString (Some v)) <$> name_pairs names))).
Proof.
  intros Hn Hl. split.
  - unfold write_config_get, encode_command. apply emits_bind.
    + replace (blen (name_pairs names)) with (blen names * 2)
        by (unfold blen; rewrite length_name_pairs; lia).
      apply emits_write.
    + clear Hn Hl. induction names as [|name names IH]; [apply emits_ret|].
      cbn [write_names]. unfold name_pairs. cbn [fmap list_fmap concat app].
      fold (name_pairs names). cbn [fmap list_fmap concat].
      replace (bulk name ++ bulk [] ++ concat (bulk <$> name_pairs names))
        with ((lit "$" ++ show_u64 (blen name) ++ CRLF) ++ name ++
              (CRLF ++ lit "$0" ++ CRLF ++ CRLF) ++ concat (bulk <$> name_pairs names))
        by (unfold bulk; rewrite <- !app_assoc; done).
      repeat (apply emits_bind; [apply emits_write|]). apply IH.
  - apply parse_encoded_command.
    + by apply name_pairs_small.
    + unfold blen in *. rewrite length_name_pairs. lia.
Qed.

Lemma resp_reply_wellformed_witness :
  exists bytes, emits (write_response_resp CGet (RValue (lit "a"))) bytes /\
    parse_resp bytes = Ok (BulkString (Some (lit "a"))).
Proof.
  destruct (resp_reply_wellformed CGet (RValue (lit "a"))) as (bytes & He & Hp & _).
  - intros v Hv. injection Hv as <-. vm_compute. discriminate.
  - exists bytes. split; [exact He|exact Hp].
Defined.

