(* ===== verification/Server.v ===== *)
(** * Server and client

    [execute] of src/network/protocol.rs, the connection handlers of
    src/bin/kvs-server.rs and the client's [call] of src/bin/kvs-client.rs. A
    connection is the bytes that arrive and a writer; the handlers are proved
    against the interface of KvStore.v, so the theorems hold for every engine. *)

From Stdlib Require Import ZArith Lia Strings.Byte.
From stdpp Require Import base numbers list strings gmap.
From S2P Require Import Prelude Bytes Crc Streams Text FileSystem Engine EngineProofs Closing KvStore Protocol Resp RespProofs.
Import Protocol Resp.

Local Open Scope Z_scope.

Section server.
Context {St : Type} `{KvStore St}.

(** [result.unwrap_or_else(|e| Response::Error(ErrorCode::from(&e)))] *)
Definition respond {A} (c : M St A) (f : A -> Response) : M St Response :=
  mcatch c (fun a => ret (f a)) (fun e => ret (RError (ErrorCode.from_error e))).

Definition execute (req : Request) : M St Response :=
  match req with
  | RGet key => respond (kv_get key) (fun v => match v with
                                               | Some v => RValue v
                                               | None => RError CKeyNotFound
                                               end)
  | RSet key value => respond (kv_set key value) (fun _ => ROk)
  | RRm key => respond (kv_remove key) (fun _ => ROk)
  end.

(** ** Connections *)

(** The store, the stream of arriving bytes, the writer. *)
Definition CM (A : Type) : Type := M (St * (Stream * Sink)) A.
Definition on_reader {A} (c : M Stream A) : CM A := on_snd (on_fst c).
Definition on_writer {A} (c : M Sink A) : CM A := on_snd (on_snd c).

(** The loop over the frames of the custom protocol. *)
Fixpoint frames_loop (fuel : nat) : CM unit :=
  match fuel with
  | O => panic
  | S fuel =>
      let! frame := on_reader read_frame in
      match frame with
      | None => ret tt
      | Some (msg_type, payload) =>
          let! resp := match decode_request msg_type payload with
                       | Ok req => on_fst (execute req)
                       | Err _ => ret (RError CInvalidRequest)
                       | Panic => panic
                       end in
          on_writer (write_response resp) ;;!
          frames_loop fuel
      end
  end.

Section resp.
(** Whether the read buffer is empty depends on how the bytes arrive. *)
Context (buffer_empty : Stream -> bool) (wrapped : KvsError -> list byte).

Fixpoint resp_loop (fuel : nat) : CM unit :=
  match fuel with
  | O => panic
  | S fuel =>
      let! frame := on_reader read_frame_resp in
      match frame with
      | None => on_writer Sink.flush
      | Some frame =>
          match decode_request_resp frame with
          | Ok (Kv req) =>
              let cmd := command_of req in
              let! resp := on_fst (execute req) in
              on_writer (write_response_resp cmd resp)
          | Ok (ConfigGet names) => on_writer (write_config_get names)
          | Err e => on_writer (write_error (decode_error_message wrapped e))
          | Panic => panic
          end ;;!
          let! s := gets (fun c => fst (snd c)) in
          (if buffer_empty s then on_writer Sink.flush else ret tt) ;;!
          resp_loop fuel
      end
  end.

(** Every frame has at least one byte. *)
Definition handle_resp : CM unit := fun c => resp_loop (S (length (avail (fst (snd c))))) c.

Definition handle : CM unit := fun c =>
  let s := fst (snd c) in
  match avail s with
  | [] => match fault s with
          | None => (Ok tt, c)                 (* connection closed *)
          | Some k => (Err (Io k), c)
          end
  | first :: _ =>
      if is_resp first then handle_resp c
      else frames_loop (S (length (avail s))) c
  end.
End resp.

End server.

(** ** The client *)

Definition call (req : Request) : M (Stream * Sink) Response :=
  on_snd (write_request req) ;;!
  let! frame := on_fst read_frame in
  match frame with
  | None => throw (Io UnexpectedEof)
  | Some (msg_type, payload) =>
      let! resp := of_outcome (decode_response msg_type payload) in
      match resp with
      | RError code => throw (ErrorCode.into_error code)
      | resp => ret resp
      end
  end.

(** ** What a request means *)

Definition spec_request (req : Request) (m : gmap (list byte) (list byte))
  : Response * gmap (list byte) (list byte) :=
  match req with
  | RGet k => (match m !! k with Some v => RValue v | None => RError CKeyNotFound end, m)
  | RSet k v => (ROk, <[k := v]> m)
  | RRm k => (match m !! k with Some _ => ROk | None => RError CKeyNotFound end, delete k m)
  end.

(** A frame of the custom protocol, well formed or not. *)
Definition spec_frame (f : byte * list byte) (m : gmap (list byte) (list byte))
  : Response * gmap (list byte) (list byte) :=
  match decode_request (fst f) (snd f) with
  | Ok req => spec_request req m
  | _ => (RError CInvalidRequest, m)
  end.

Fixpoint spec_frames (fs : list (byte * list byte)) (m : gmap (list byte) (list byte))
  : list Response * gmap (list byte) (list byte) :=
  match fs with
  | [] => ([], m)
  | f :: fs =>
      let (r, m1) := spec_frame f m in
      let (rs, m2) := spec_frames fs m1 in (r :: rs, m2)
  end.

(** Values that fit in one frame. *)
Definition values_ok (m : gmap (list byte) (list byte)) : Prop :=
  map_Forall (fun _ v => utf8_valid v = true /\ blen v <= MAX_PAYLOAD) m.

Section theorems.
Context {St : Type} `{KvStoreLaws St}.

Lemma execute_law n s m req :
  kv_holds n s m -> 0 < n -> (forall k v, req = RSet k v -> small k v) ->
  exists s', execute req s = (Ok (fst (spec_request req m)), s') /\
    kv_holds (n - 1) s' (snd (spec_request req m)).
Proof.
  intros Hh Hn Hs. destruct req as [k|k v|k]; cbn [execute spec_request fst snd];
    unfold respond, mcatch.
  - destruct (kv_get_law n s m k Hh) as (s' & -> & Hh'). exists s'.
    split; [by destruct (m !! k)|]. eapply kv_mono; [exact Hh'|lia].
  - destruct (kv_set_law n s m k v Hh Hn (Hs k v eq_refl)) as (s' & -> & Hh'). by exists s'.
  - destruct (kv_remove_law n s m k Hh Hn) as (s' & -> & Hh'). exists s'.
    split; [by destruct (m !! k)|done].
Qed.

(** A decoded request is within the limits of every engine. *)
Lemma decoded_small ty payload k v :
  blen payload <= MAX_PAYLOAD -> decode_request ty payload = Ok (RSet k v) ->
  small k v /\ utf8_valid v = true /\ blen v <= MAX_PAYLOAD.
Proof.
  intros Hl Hd. pose proof (decode_request_cases ty payload Hl) as Hc. rewrite Hd in Hc.
  destruct Hc as [E [[_ Hv] _]]. apply (f_equal snd) in E. cbn [request_frame snd] in E.
  rewrite <- E in Hl. rewrite MAX_PAYLOAD_eq in *.
  rewrite !blen_app, blen_u32_le in Hl. pose proof (blen_nonneg k). pose proof (blen_nonneg v).
  split_and!; [split; [ulia|done]|done|lia].
Qed.

Lemma values_ok_request m req :
  values_ok m ->
  (forall k v, req = RSet k v -> utf8_valid v = true /\ blen v <= MAX_PAYLOAD) ->
  values_ok (snd (spec_request req m)) /\ response_ok (fst (spec_request req m)).
Proof.
  intros Hm Hs. destruct req as [k|k v|k]; cbn [spec_request fst snd].
  - split; [done|]. destruct (m !! k) as [v|] eqn:E; [by apply (Hm k v)|done].
  - split; [|done]. apply map_Forall_insert_2; [|done]. by apply (Hs k v).
  - split; [by apply map_Forall_delete|]. by destruct (m !! k).
Qed.

Lemma response_frame_len resp :
  response_ok resp -> blen (snd (response_frame resp)) <= MAX_PAYLOAD.
Proof.
  intros Hok. destruct resp as [|v|c]; [done|by destruct Hok|]. rewrite MAX_PAYLOAD_eq. done.
Qed.

Lemma write_response_open resp s :
  open_sink s -> response_ok resp ->
  exists s', write_response resp s = (Ok tt, s') /\ open_sink s' /\ pending s' = [] /\
    sent s' = output s ++ frame_bytes (fst (response_frame resp)) (snd (response_frame resp)).
Proof.
  intros Hs Hok. unfold write_response. pose proof (response_frame_len resp Hok) as Hl.
  destruct (response_frame resp) as [ty payload]. cbn [fst snd] in *.
  destruct (write_frame_open s ty payload Hs) as (s' & Hw & Ho & Hp & _ & Hsent);
    [rewrite MAX_PAYLOAD_eq in Hl; ulia|]. by exists s'.
Qed.

(** The bytes of a list of frames, and of responses. *)
Definition wire (fs : list (byte * list byte)) : list byte :=
  concat ((fun f => frame_bytes (fst f) (snd f)) <$> fs).

Lemma spec_frame_step n s m f :
  kv_holds n s m -> 0 < n -> values_ok m -> blen (snd f) <= MAX_PAYLOAD ->
  let r := fst (spec_frame f m) in let m' := snd (spec_frame f m) in
  response_ok r /\ values_ok m' /\
  exists s', kv_holds (n - 1) s' m' /\ forall c,
    (match decode_request (fst f) (snd f) with
     | Ok req => on_fst (execute req)
     | Err _ => ret (RError CInvalidRequest)
     | Panic => panic
     end : CM Response) (s, c) = (Ok r, (s', c)).
Proof.
  intros Hh Hn Hm Hl. unfold spec_frame.
  pose proof (decode_request_cases (fst f) (snd f) Hl) as Hc.
  destruct (decode_request (fst f) (snd f)) as [req|e|] eqn:Hd; cbn zeta.
  - assert (forall k v, req = RSet k v -> small k v /\ utf8_valid v = true /\ blen v <= MAX_PAYLOAD)
      as Hsm by (intros k v ->; by eapply decoded_small).
    destruct (execute_law n s m req Hh Hn) as (s' & Hrun & Hh'); [intros k v E; by apply Hsm|].
    destruct (values_ok_request m req Hm) as [Hv Hr]; [intros k v E; by apply (Hsm k v)|].
    split_and!; try done. exists s'. split; [done|]. intros c. unfold on_fst. cbn [fst snd].
    by rewrite Hrun.
  - split_and!; try done. exists s. split; [|done]. eapply kv_mono; [exact Hh|lia].
  - done.
Qed.

Lemma frames_loop_wire fs fuel n s m out :
  Forall (fun f => blen (snd f) <= MAX_PAYLOAD) fs -> (length fs < fuel)%nat ->
  kv_holds n s m -> Z.of_nat (length fs) <= n -> values_ok m -> open_sink out ->
  pending out = [] ->
  exists s' out',
    frames_loop fuel (s, (cursor_over (wire fs), out)) = (Ok tt, (s', (cursor_over [], out'))) /\
    kv_holds (n - Z.of_nat (length fs)) s' (snd (spec_frames fs m)) /\ pending out' = [] /\
    sent out' = sent out ++ wire (response_frame <$> fst (spec_frames fs m)).
Proof.
  revert fuel n s m out. induction fs as [|f fs IH]; intros fuel n s m out Hl Hf Hh Hn Hm Ho Hp;
    (destruct fuel as [|fuel]; [simpl in Hf; lia|]); cbn [frames_loop].
  { exists s, out. split; [done|]. rewrite Z.sub_0_r. split_and!; try done.
    unfold wire. cbn. by rewrite app_nil_r. }
  apply Forall_cons in Hl as [Hl1 Hl]. cbn [length] in *.
  destruct (spec_frame_step n s m f Hh ltac:(lia) Hm Hl1) as (Hr & Hm1 & s1 & Hh1 & Hrun).
  cbn [spec_frames]. destruct (spec_frame f m) as [r m1]. cbn [fst snd] in *.
  destruct (write_response_open r out Ho Hr) as (out1 & Hw & Ho1 & Hp1 & Hsent1).
  destruct (IH fuel (n - 1) s1 m1 out1 Hl ltac:(lia) Hh1 ltac:(lia) Hm1 Ho1 Hp1)
    as (s' & out' & Hloop & Hh' & Hp' & Hsent').
  destruct (spec_frames fs m1) as [rs m2]. cbn [fst snd] in *.
  exists s', out'. split; [|split_and!; [|done|]].
  - unfold bind at 1, on_reader, on_snd at 1, on_fst at 1. cbn [fst snd].
    unfold wire. cbn [fmap list_fmap concat]. unfold cursor_over at 1.
    rewrite read_frame_bytes by done. destruct f as [ty payload]. cbn [fst snd] in *.
    rewrite (bind_ok _ _ _ _ _ (Hrun _)).
    unfold bind at 1, on_writer, on_snd at 1 2. cbn [fst snd]. rewrite Hw. exact Hloop.
  - by replace (n - Z.of_nat (S (length fs))) with (n - 1 - Z.of_nat (length fs)) by lia.
  - rewrite Hsent', Hsent1. unfold output, wire. rewrite Hp, app_nil_r.
    cbn [fmap list_fmap concat]. by rewrite <- app_assoc.
Qed.

Lemma wire_length fs : (length fs <= length (wire fs))%nat.
Proof.
  unfold wire. induction fs as [|f fs IH]; [done|]. cbn [fmap list_fmap concat length].
  rewrite length_app. unfold frame_bytes at 1. cbn. lia.
Qed.

(** [handle] on the frames [fs]. *)
Lemma handle_wire buffer_empty wrapped fs n s m out :
  Forall (fun f => blen (snd f) <= MAX_PAYLOAD /\ is_resp (fst f) = false) fs ->
  kv_holds n s m -> Z.of_nat (length fs) <= n -> values_ok m -> open_sink out ->
  pending out = [] ->
  exists s' out',
    handle buffer_empty wrapped (s, (cursor_over (wire fs), out)) =
      (Ok tt, (s', (cursor_over [], out'))) /\
    kv_holds (n - Z.of_nat (length fs)) s' (snd (spec_frames fs m)) /\
    sent out' = sent out ++ wire (response_frame <$> fst (spec_frames fs m)).
Proof.
  intros Hl Hh Hn Hm Ho Hp.
  destruct (frames_loop_wire fs (S (length (wire fs))) n s m out) as (s' & out' & Hrun & Hh' & _ & Hs);
    try done; [by eapply Forall_impl; [exact Hl|intros f []]|pose proof (wire_length fs); lia|].
  unfold handle. cbn [fst snd avail fault cursor_over]. destruct fs as [|[ty payload] fs].
  - exists s, out. cbn. rewrite Z.sub_0_r. split_and!; try done. unfold wire. cbn. by rewrite app_nil_r.
  - exists s', out'. split_and!; [|done|done].
    apply Forall_cons in Hl as [[_ Hr] _]. cbn [fst] in Hr.
    unfold wire in *. cbn [fmap list_fmap concat frame_bytes app fst snd] in *.
    by rewrite Hr.
Qed.

(** C33. The server on a connection that speaks the custom protocol: it reads the
    frames one by one, answers each with the response of the abstract map, a
    frame that does not decode with [InvalidRequest] and nothing changed, and
    returns when the client closes. The responses are delivered in the order of
    the requests. This holds for every store that satisfies the laws. *)
Theorem handle_spec buffer_empty wrapped fs n s m out :
  Forall (fun f => blen (snd f) <= MAX_PAYLOAD /\ is_resp (fst f) = false) fs ->
  kv_holds n s m -> Z.of_nat (length fs) <= n -> values_ok m -> open_sink out ->
  pending out = [] ->
  exists s' out',
    handle buffer_empty wrapped (s, (cursor_over (wire fs), out)) =
      (Ok tt, (s', (cursor_over [], out'))) /\
    kv_holds (n - Z.of_nat (length fs)) s' (snd (spec_frames fs m)) /\
    sent out' = sent out ++ wire (response_frame <$> fst (spec_frames fs m)).
Proof. apply handle_wire. Qed.

(** ** Redis clients *)

(** What a command means: the reply and the map after it. *)
Definition spec_command (args : list (list byte)) (m : gmap (list byte) (list byte))
  : RespValue * gmap (list byte) (list byte) :=
  match args with
  | [] => (RespError [], m)
  | name :: rest =>
      match decode_command name rest with
      | Ok (Kv req) => (reply_value (command_of req) (fst (spec_request req m)),
                        snd (spec_request req m))
      | Ok (ConfigGet names) =>
          (Array (Some ((fun v => BulkString (Some v)) <$> name_pairs names)), m)
      | Err e => (RespError (lit "ERR " ++ no_newlines (decode_error_message (fun _ => []) e)), m)
      | Panic => (RespError [], m)
      end
  end.

Fixpoint spec_commands (cs : list (list (list byte))) (m : gmap (list byte) (list byte))
  : list RespValue * gmap (list byte) (list byte) :=
  match cs with
  | [] => ([], m)
  | c :: cs =>
      let (r, m1) := spec_command c m in
      let (rs, m2) := spec_commands cs m1 in (r :: rs, m2)
  end.

(** A command within the limits: not empty, arguments of at most the payload
    limit, not more of them than an array may have pairs. *)
Definition command_small (args : list (list byte)) : Prop :=
  args <> [] /\ Forall (fun v => blen v <= MAX_PAYLOAD) args /\ 2 * blen args <= MAX_ARRAY_LEN.

Lemma decode_command_set name rest k v :
  Forall (fun v => blen v <= MAX_PAYLOAD) rest -> decode_command name rest = Ok (Kv (RSet k v)) ->
  small k v /\ utf8_valid v = true /\ blen v <= MAX_PAYLOAD.
Proof.
  intros Hl Hd. unfold decode_command, utf8 in Hd.
  repeat (case_match; try done); simplify_eq.
  apply Forall_cons in Hl as [Hk Hl]. apply Forall_cons in Hl as [Hv _]. rewrite MAX_PAYLOAD_eq in *.
  split_and!; try done. split; [ulia|done].
Qed.

Lemma decode_command_config name rest names :
  decode_command name rest = Ok (ConfigGet names) -> exists sub, rest = sub :: names.
Proof.
  intros Hd. unfold decode_command, utf8 in Hd. repeat (case_match; try done); simplify_eq. by eexists.
Qed.


Lemma emits_on_writer (c : M Sink unit) bytes (s : St) r out :
  emits c bytes -> open_sink out ->
  exists out', on_writer c (s, (r, out)) = (Ok tt, (s, (r, out'))) /\ open_sink out' /\
    output out' = output out ++ bytes.
Proof.
  intros He Ho. destruct (He out Ho) as (out' & Hrun & Ho' & _ & E). exists out'.
  unfold on_writer, on_snd. cbn [fst snd]. by rewrite Hrun.
Qed.

Lemma flush_on_writer (s : St) r out :
  open_sink out ->
  exists out', on_writer Sink.flush (s, (r, out)) = (Ok tt, (s, (r, out'))) /\ open_sink out' /\
    output out' = output out /\ pending out' = [].
Proof.
  intros Ho. eexists. unfold on_writer, on_snd. cbn [fst snd]. rewrite (flush_open out Ho).
  split; [done|]. split; [split; [done|]|]. { destruct Ho. cbn. blia. }
  split; [|done]. unfold output at 1. cbn. by rewrite app_nil_r.
Qed.

Section resp.
Context (buffer_empty : Stream -> bool) (wrapped : KvsError -> list byte).

(** The part of a turn that answers a frame. *)
Definition answer (frame : list byte) : CM (St := St) unit :=
  match decode_request_resp frame with
  | Ok (Kv req) =>
      let cmd := command_of req in
      let! resp := on_fst (execute req) in
      on_writer (write_response_resp cmd resp)
  | Ok (ConfigGet names) => on_writer (write_config_get names)
  | Err e => on_writer (write_error (decode_error_message wrapped e))
  | Panic => panic
  end.

Lemma decode_request_resp_command args :
  command_small args ->
  decode_request_resp (encode_command args) = decode_command (hd [] args) (tl args).
Proof using.
  intros (Hne & Hl & Hn). unfold decode_request_resp. pose proof (blen_nonneg args).
  rewrite parse_encoded_command by (done || lia). destruct args as [|name rest]; [done|].
  cbn [fmap list_fmap]. pose proof (bulk_args_bulks (name :: rest)) as Hb.
  cbn [fmap list_fmap] in Hb. by rewrite Hb.
Qed.

Lemma answer_step n s m args r out :
  kv_holds n s m -> 0 < n -> values_ok m -> command_small args -> open_sink out ->
  exists s' out' bytes,
    answer (encode_command args) (s, (r, out)) = (Ok tt, (s', (r, out'))) /\
    kv_holds (n - 1) s' (snd (spec_command args m)) /\ values_ok (snd (spec_command args m)) /\
    open_sink out' /\ output out' = output out ++ bytes /\
    parse_resp bytes = Ok (fst (spec_command args m)).
Proof using.
  intros Hh Hn Hm Hs Ho. unfold answer. rewrite decode_request_resp_command by done.
  pose proof Hs as (Hne & Hl & Hlen). destruct args as [|name rest]; [done|]. cbn [hd tl spec_command].
  apply Forall_cons in Hl as [_ Hl]. pose proof (decode_command_total name rest) as Ht.
  assert (kv_holds (n - 1) s m) as Hh' by (eapply kv_mono; [exact Hh|lia]).
  destruct (decode_command name rest) as [[req|names]|e|] eqn:Hd; cbn [fst snd]; [| | |done].
  - assert (forall k v, req = RSet k v -> small k v /\ utf8_valid v = true /\ blen v <= MAX_PAYLOAD)
      as Hsm by (intros k v ->; by eapply decode_command_set).
    destruct (execute_law n s m req Hh Hn) as (s' & Hrun & Hh1); [intros k v E; by apply Hsm|].
    destruct (values_ok_request m req Hm) as [Hv Hr]; [intros k v E; by apply (Hsm k v)|].
    destruct (reply_emits (command_of req) (fst (spec_request req m))) as [He Hp].
    { intros v E. rewrite E in Hr. by destruct Hr. }
    destruct (emits_on_writer _ _ s' r out He Ho) as (out' & Hw & Ho' & Eo).
    exists s', out', (reply_bytes (command_of req) (fst (spec_request req m))).
    split_and!; try done. unfold bind at 1, on_fst. cbn [fst snd]. by rewrite Hrun.
  - destruct (decode_command_config _ _ _ Hd) as [sub ->]. apply Forall_cons in Hl as [_ Hl].
    destruct (config_get_emits names) as [He Hp]; [done|rewrite !blen_cons in Hlen; lia|].
    destruct (emits_on_writer _ _ s r out He Ho) as (out' & Hw & Ho' & Eo).
    by exists s, out', (encode_command (name_pairs names)).
  - destruct Ht as [msg ->]. cbn [decode_error_message].
    destruct (emits_on_writer _ _ s r out (emits_write (lit "-ERR " ++ no_newlines msg ++ CRLF)) Ho)
      as (out' & Hw & Ho' & Eo).
    exists s, out', (lit "-ERR " ++ no_newlines msg ++ CRLF). split_and!; try done.
    apply parse_error_line.
Qed.

Lemma resp_loop_commands cs fuel n s m out :
  Forall command_small cs -> (length cs < fuel)%nat ->
  kv_holds n s m -> Z.of_nat (length cs) <= n -> values_ok m -> open_sink out ->
  exists s' out' replies,
    resp_loop buffer_empty wrapped fuel (s, (cursor_over (concat (encode_command <$> cs)), out)) =
      (Ok tt, (s', (cursor_over [], out'))) /\
    kv_holds (n - Z.of_nat (length cs)) s' (snd (spec_commands cs m)) /\ pending out' = [] /\
    sent out' = output out ++ concat replies /\
    Forall2 (fun b v => parse_resp b = Ok v) replies (fst (spec_commands cs m)).
Proof using.
  revert fuel n s m out. induction cs as [|c cs IH]; intros fuel n s m out Hc Hf Hh Hn Hm Ho;
    (destruct fuel as [|fuel]; [simpl in Hf; lia|]); cbn [resp_loop].
  { destruct (flush_on_writer s (cursor_over []) out Ho) as (out' & Hfl & _ & Eo & Hp).
    exists s, out', []. rewrite Z.sub_0_r. split_and!; try done.
    unfold output in Eo at 1. rewrite Hp, app_nil_r in Eo. cbn. by rewrite app_nil_r. }
  apply Forall_cons in Hc as [Hc1 Hc]. cbn [length] in *.
  set (rest := cursor_over (concat (encode_command <$> cs))).
  destruct (answer_step n s m c rest out Hh ltac:(lia) Hm Hc1 Ho)
    as (s1 & out1 & bytes & Hans & Hh1 & Hm1 & Ho1 & E1 & Hp1).
  cbn [spec_commands]. destruct (spec_command c m) as [v m1]. cbn [fst snd] in *.
  assert (exists out2, (if buffer_empty rest then on_writer Sink.flush else ret tt)
    (s1, (rest, out1)) = (Ok tt, (s1, (rest, out2))) /\ open_sink out2 /\
    output out2 = output out1) as (out2 & Hfl & Ho2 & E2).
  { destruct (buffer_empty rest); [|by exists out1].
    destruct (flush_on_writer s1 rest out1 Ho1) as (out2 & ? & ? & ? & _). by exists out2. }
  destruct (IH fuel (n - 1) s1 m1 out2 Hc ltac:(lia) Hh1 ltac:(lia) Hm1 Ho2)
    as (s' & out' & replies & Hloop & Hh' & Hp' & Hsent & Hall).
  destruct (spec_commands cs m1) as [vs m2]. cbn [fst snd] in *.
  exists s', out', (bytes :: replies). split; [|split_and!; [|done| |by constructor]].
  - destruct Hc1 as (Hne & Hl & Hlen). pose proof (blen_nonneg c).
    unfold bind at 1, on_reader, on_snd at 1, on_fst at 1. cbn [fst snd fmap list_fmap concat].
    unfold cursor_over at 1. rewrite frame_command by (done || lia).
    fold (answer (encode_command c)). rewrite (bind_ok _ _ _ _ _ Hans).
    unfold bind at 1, gets. cbn [fst snd]. rewrite (bind_ok _ _ _ _ _ Hfl). exact Hloop.
  - by replace (n - Z.of_nat (S (length cs))) with (n - 1 - Z.of_nat (length cs)) by lia.
  - rewrite Hsent, E2, E1. cbn [concat]. by rewrite app_assoc.
Qed.

(** C34. The server on a connection of a Redis client: it answers every command,
    in order, with one RESP value that is the reply of the abstract map
    (errors, unknown commands and wrong arguments get one error line and change
    nothing), and has flushed all replies when the client closes, whatever way
    the bytes arrived in. This holds for every store that satisfies the laws. *)
Theorem handle_resp_spec cs n s m out :
  Forall command_small cs -> kv_holds n s m -> Z.of_nat (length cs) <= n -> values_ok m ->
  open_sink out ->
  exists s' out' replies,
    handle buffer_empty wrapped (s, (cursor_over (concat (encode_command <$> cs)), out)) =
      (Ok tt, (s', (cursor_over [], out'))) /\
    kv_holds (n - Z.of_nat (length cs)) s' (snd (spec_commands cs m)) /\
    output out' = output out ++ concat replies /\ (cs <> [] -> pending out' = []) /\
    Forall2 (fun b v => parse_resp b = Ok v) replies (fst (spec_commands cs m)).
Proof using.
  intros Hc Hh Hn Hm Ho. unfold handle. cbn [fst snd avail fault cursor_over].
  destruct cs as [|c cs].
  { exists s, out, []. cbn. rewrite Z.sub_0_r, app_nil_r. by split_and!. }
  assert (length (c :: cs) <= length (concat (encode_command <$> (c :: cs))))%nat as Hlen.
  { clear. induction (c :: cs) as [|a l IH]; [done|]. cbn [fmap list_fmap concat length].
    rewrite length_app. unfold encode_command at 1, header. cbn. lia. }
  destruct (resp_loop_commands (c :: cs) (S (length (concat (encode_command <$> (c :: cs))))) n s m out)
    as (s' & out' & replies & Hrun & Hh' & Hp & Hsent & Hall); try done; [lia|].
  exists s', out', replies. split_and!; try done.
  unfold output at 1. by rewrite Hp, app_nil_r.
Qed.

End resp.

(** ** The client *)

(** The client's view: [call] sends exactly the request's frame, and turns
    the server's answer back into a result: a value, [Ok], [KeyNotFound], a
    rejected request or an internal error; a connection that closes without an
    answer is an [UnexpectedEof]. *)
Theorem call_spec req out answer rest :
  open_sink out -> request_ok req -> (forall resp, answer = Some resp -> response_ok resp) ->
  exists out',
    open_sink out' /\ pending out' = [] /\
    sent out' = output out ++ frame_bytes (fst (request_frame req)) (snd (request_frame req)) /\
    call req (match answer with
              | Some resp => cursor_over (wire [response_frame resp] ++ rest)
              | None => cursor_over [] end, out) =
    (match answer with
     | Some (RError code) => Err (ErrorCode.into_error code)
     | Some resp => Ok resp
     | None => Err (Io UnexpectedEof)
     end, (cursor_over (match answer with Some _ => rest | None => [] end), out')).
Proof using.
  intros Ho Hreq Hok. destruct Hreq as [_ Hl].
  unfold call, write_request. destruct (request_frame req) as [ty payload]. cbn [fst snd] in *.
  rewrite MAX_PAYLOAD_eq in Hl.
  destruct (write_frame_open out ty payload Ho) as (out' & Hw & Ho' & Hp' & _ & Hsent); [ulia|].
  exists out'. split_and!; try done. unfold bind at 1, on_snd at 1. cbn [fst snd]. rewrite Hw.
  unfold bind at 1, on_fst at 1. cbn [fst snd].
  destruct answer as [resp|]; [|done]. specialize (Hok resp eq_refl).
  pose proof (response_frame_len resp Hok) as Hlen. pose proof (decode_response_frame resp Hok) as Hd.
  unfold wire. cbn [fmap list_fmap concat]. rewrite app_nil_r. unfold cursor_over at 1.
  rewrite read_frame_bytes by done. rewrite bind_outcome, Hd. by destruct resp.
Qed.

End theorems.

(** ** Concrete runs *)

(** A new store served over a socket. *)
Definition served : Bitcask.Handle * World := (fresh_handle sample_config, fresh_world).

Lemma served_holds : kv_holds (KvStoreLaws := bitcask_laws (Crc := crc32_ieee)) 100 served ∅.
Proof. apply fresh_open_for; [lia|done]. Qed.

Lemma handle_spec_witness :
  exists c, handle (H := bitcask_store (Crc := crc32_ieee)) (fun _ => true) (fun _ => [])
      (served, (cursor_over (wire [request_frame (RSet (lit "k") (lit "v")); (x07, lit "?");
                                   request_frame (RGet (lit "k")); request_frame (RRm (lit "x"))]),
                tcp_sink)) = (Ok tt, c) /\
    sent (snd (snd c)) = wire (response_frame <$> [ROk; RError CInvalidRequest; RValue (lit "v");
                                                   RError CKeyNotFound]).
Proof.
  destruct (handle_spec (H0 := bitcask_laws (Crc := crc32_ieee)) (fun _ => true) (fun _ => [])
    [request_frame (RSet (lit "k") (lit "v")); (x07, lit "?");
     request_frame (RGet (lit "k")); request_frame (RRm (lit "x"))] 100 served ∅ tcp_sink)
    as (s' & out' & Hrun & _ & Hsent).
  - repeat constructor; vm_compute; intuition discriminate.
  - apply served_holds.
  - vm_compute. discriminate.
  - apply map_Forall_empty.
  - apply tcp_sink_open.
  - reflexivity.
  - eexists. split; [exact Hrun|]. cbn [fst snd]. rewrite Hsent. vm_compute. reflexivity.
Defined.

Lemma handle_resp_spec_witness :
  exists c replies, handle (H := bitcask_store (Crc := crc32_ieee)) (fun _ => true) (fun _ => [])
      (served, (cursor_over (concat (encode_command <$>
         [[lit "SET"; lit "k"; lit "v"]; [lit "get"; lit "k"]; [lit "DEL"; lit "x"]])), tcp_sink))
      = (Ok tt, c) /\
    Forall2 (fun b v => parse_resp b = Ok v) replies
      [SimpleString (lit "OK"); BulkString (Some (lit "v")); Integer 0].
Proof.
  destruct (handle_resp_spec (H0 := bitcask_laws (Crc := crc32_ieee)) (fun _ => true) (fun _ => [])
    [[lit "SET"; lit "k"; lit "v"]; [lit "get"; lit "k"]; [lit "DEL"; lit "x"]]
    100 served ∅ tcp_sink)
    as (s' & out' & replies & Hrun & _ & _ & _ & Hall).
  - repeat constructor; vm_compute; intuition discriminate.
  - apply served_holds.
  - vm_compute. discriminate.
  - apply map_Forall_empty.
  - apply tcp_sink_open.
  - exists (s', (cursor_over [], out')), replies. split; [exact Hrun|]. exact Hall.
Defined.

Lemma call_spec_witness :
  fst (call (RRm (lit "k")) (cursor_over (wire [response_frame (RError CKeyNotFound)]), tcp_sink))
  = Err KeyNotFound.
Proof.
  destruct (call_spec (RRm (lit "k")) tcp_sink (Some (RError CKeyNotFound)) [])
    as (out' & _ & _ & _ & Hrun).
  - apply tcp_sink_open.
  - vm_compute. intuition discriminate.
  - intros resp E. injection E as <-. exact I.
  - rewrite app_nil_r in Hrun. rewrite Hrun. reflexivity.
Defined.
