(* ===== verification/Connections.v ===== *)
(** * The server with its connections

    [main] of src/bin/kvs-server.rs accepts connections and runs [handle] for each
    of them in a thread of its own, on clones of one store. Here any number of
    connections, of both protocols, are served by one store of any kind that several
    threads can use (Threads.v): a turn of [handle] reads a frame and calls the store,
    the steps of the calls interleave, and the result of each is what is answered. *)

From Stdlib Require Import ZArith Lia Strings.Byte.
From stdpp Require Import base numbers list strings gmap.
From S2P Require Import Prelude Bytes Crc Streams Text Config FileSystem Engine System EngineProofs SystemProofs SystemTheorems KvStore Protocol Resp Server Threads.
Import System.
Import Protocol Resp.

Local Open Scope Z_scope.

(** ** One connection *)

(** A frame as it was read, in the protocol of its connection. *)
Inductive Frame : Type :=
| Custom (msg_type : byte) (payload : list byte)
| Redis (frame : list byte).

(** The protocol of a connection, which its first byte decides. *)
Inductive Wire : Type := WCustom | WRedis.

Inductive Status : Type :=
(** nothing read yet *)
| Fresh
(** at the head of the loop of [handle] or [handle_resp] *)
| Idle (p : Wire)
(** in the call of the store for this frame *)
| Waiting (p : Wire) (f : Frame) (req : Request)
(** [handle] has returned [Ok(())] *)
| Closed (p : Wire)
(** [handle] has returned an error, or has panicked *)
| Broken.

Record Conn : Type := {
  rx : Stream;
  tx : Sink;
  status : Status;
  (** the frames read so far, each with the stream after it *)
  served : list (Frame * Stream)
}.

Definition receive (p : Wire) : M Stream (option Frame) :=
  match p with
  | WCustom =>
      let! r := read_frame in
      ret (match r with Some (ty, payload) => Some (Custom ty payload) | None => None end)
  | WRedis => let! r := read_frame_resp in ret (Redis <$> r)
  end.

(** The request of a frame that is to be run on the store. *)
Definition request_of (f : Frame) : option Request :=
  match f with
  | Custom ty payload => match decode_request ty payload with Ok req => Some req | _ => None end
  | Redis frame => match decode_request_resp frame with Ok (Kv req) => Some req | _ => None end
  end.

Definition op_of (req : Request) : Op :=
  match req with
  | Protocol.RGet k => OGet k
  | RSet k v => OSet k v
  | RRm k => ORemove k
  end.

(** [execute]: the response to a request, from the result of the call. *)
Definition response_of (r : Res) : option Response :=
  match r with
  | System.RGet (Ok (Some v)) => Some (RValue v)
  | System.RGet (Ok None) => Some (RError CKeyNotFound)
  | System.RUnit (Ok _) => Some ROk
  | System.RGet (Err e) | System.RUnit (Err e) => Some (RError (ErrorCode.from_error e))
  | System.RGet Panic | System.RUnit Panic => None
  end.

(** The store that the connections share, and the connections. *)
Record Server (St : Type) : Type := {
  store : St;
  conns : gmap nat Conn
}.
Arguments store {St} _.
Arguments conns {St} _.

Section connection.
(** Whether the read buffer is empty depends on how the bytes arrive. *)
Context (buffer_empty : Stream -> bool) (wrapped : KvsError -> list byte).

(** The answer to a frame that does not go to the store. *)
Definition answer_direct (f : Frame) : M Sink unit :=
  match f with
  | Custom ty payload =>
      match decode_request ty payload with
      | Ok _ => ret tt
      | Err _ => write_response (RError CInvalidRequest)
      | Panic => panic
      end
  | Redis frame =>
      match decode_request_resp frame with
      | Ok (Kv _) => ret tt
      | Ok (ConfigGet names) => write_config_get names
      | Err e => write_error (decode_error_message wrapped e)
      | Panic => panic
      end
  end.

(** The answer to a request, from the result of its call. *)
Definition answer_call (f : Frame) (req : Request) (r : Res) : M Sink unit :=
  match response_of r with
  | None => panic
  | Some resp =>
      match f with
      | Custom _ _ => write_response resp
      | Redis _ => write_response_resp (command_of req) resp
      end
  end.

(** The flush at the end of a turn of [handle_resp]. *)
Definition end_turn (f : Frame) (s : Stream) : M Sink unit :=
  match f with
  | Custom _ _ => ret tt
  | Redis _ => if buffer_empty s then Sink.flush else ret tt
  end.

(** What is written when the client has closed. *)
Definition closing (p : Wire) : M Sink unit :=
  match p with WCustom => ret tt | WRedis => Sink.flush end.

(** Write, then go on with the status [next]; an error or a panic ends [handle]. *)
Definition write_then (c : Conn) (s : Stream) (served : list (Frame * Stream)) (out : M Sink unit)
  (next : Status) : Conn :=
  let (o, t) := out (tx c) in
  {| rx := s; tx := t; status := match o with Ok _ => next | _ => Broken end; served := served |}.

Definition set_status (c : Conn) (st : Status) : Conn :=
  {| rx := rx c; tx := tx c; status := st; served := served c |}.

(** A turn up to the call of the store: the request, if there is one to run. *)
Definition serve (c : Conn) : option (Conn * option Request) :=
  match status c with
  | Fresh =>
      Some (set_status c (match avail (rx c) with
        | [] => match fault (rx c) with None => Closed WCustom | Some _ => Broken end
        | first :: _ => Idle (if is_resp first then WRedis else WCustom)
        end), None)
  | Idle p =>
      Some (match receive p (rx c) with
      | (Ok None, s) => (write_then c s (served c) (closing p) (Closed p), None)
      | (Ok (Some f), s) =>
          let served := served c ++ [(f, s)] in
          match request_of f with
          | Some req =>
              ({| rx := s; tx := tx c; status := Waiting p f req; served := served |}, Some req)
          | None => (write_then c s served (answer_direct f ;;! end_turn f s) (Idle p), None)
          end
      | (_, s) => ({| rx := s; tx := tx c; status := Broken; served := served c |}, None)
      end)
  | _ => None
  end.

(** The rest of the turn, with the result of the call. *)
Definition finish (c : Conn) (r : Res) : option Conn :=
  match status c with
  | Waiting p f req =>
      Some (write_then c (rx c) (served c) (answer_call f req r ;;! end_turn f (rx c)) (Idle p))
  | _ => None
  end.

(** ** The server *)

Inductive SAction : Type :=
(** a client connects; the bytes it will send, and a writer to it *)
| Accept (tid : nat) (stream : Stream) (sink : Sink)
(** a connection's thread reads its next frame and calls the store *)
| Serve (tid : nat)
(** it goes on inside the call *)
| Work (tid : nat)
(** the call returns and is answered *)
| Reply (tid : nat)
(** the store's own thread takes a step *)
| Compact.

Section threaded.
Context {St : Type} `{!ThreadedStore St}.

Definition set_conn (s : Server St) (st : St) (tid : nat) (c : Conn) : Server St :=
  {| store := st; conns := <[tid := c]> (conns s) |}.

(** One action of the server: the action of the store in it and what is seen of it. *)
Definition server_act (a : SAction) (s : Server St) : option (list Action * list Event * Server St) :=
  match a with
  | Accept tid stream sink =>
      match conns s !! tid with
      | None => Some ([], [], set_conn s (store s) tid
                        {| rx := stream; tx := sink; status := Fresh; served := [] |})
      | Some _ => None
      end
  | Serve tid =>
      match conns s !! tid with
      | None => None
      | Some c =>
          match serve c with
          | None => None
          | Some (c', None) => Some ([], [], set_conn s (store s) tid c')
          | Some (c', Some req) =>
              let call := Invoke tid (op_of req) in
              match act_on call (store s) with
              | Some (e, st) => Some ([call], option_list e, set_conn s st tid c')
              | None => None
              end
          end
      end
  | Work tid =>
      match act_on (Advance tid) (store s) with
      | Some (e, st) => Some ([Advance tid], option_list e, {| store := st; conns := conns s |})
      | None => None
      end
  | Reply tid =>
      match conns s !! tid, act_on (Respond tid) (store s) with
      | Some c, Some (Some (Ret _ r), st) =>
          match finish c r with
          | Some c' => Some ([Respond tid], [Ret tid r], set_conn s st tid c')
          | None => None
          end
      | _, _ => None
      end
  | Compact =>
      match act_on Merge_ (store s) with
      | Some (e, st) => Some ([Merge_], option_list e, {| store := st; conns := conns s |})
      | None => None
      end
  end.

(** A schedule of the server: the actions of the store, what is seen of them, and
    the final state. *)
Fixpoint server_run (l : list SAction) (s : Server St) : option (list Action * list Event * Server St) :=
  match l with
  | [] => Some ([], [], s)
  | a :: l =>
      match server_act a s with
      | None => None
      | Some (acts, es, s') =>
          match server_run l s' with
          | None => None
          | Some (acts', es', s'') => Some (acts ++ acts', es ++ es', s'')
          end
      end
  end.

(** ** What a connection has done *)

Definition requests (fs : list (Frame * Stream)) : list Request := omap (fun x => request_of (fst x)) fs.

(** The answers to frames, in order, with the results of the calls. *)
Fixpoint script (fs : list (Frame * Stream)) (rs : list Res) : M Sink unit :=
  match fs with
  | [] => ret tt
  | (f, s) :: fs =>
      match request_of f, rs with
      | None, _ => (answer_direct f ;;! end_turn f s) ;;! script fs rs
      | Some req, r :: rs => (answer_call f req r ;;! end_turn f s) ;;! script fs rs
      | Some _, [] => ret tt
      end
  end.

(** The frames [fs] are what is read from [s], up to [s']. *)
Inductive reads (p : Wire) : Stream -> list (Frame * Stream) -> Stream -> Prop :=
| reads_nil s : reads p s [] s
| reads_snoc s fs s1 f s2 :
    reads p s fs s1 -> receive p s1 = (Ok (Some f), s2) -> reads p s (fs ++ [(f, s2)]) s2.

(** ** The invariant *)

(** The protocol that [handle] chooses for a stream. *)
Definition wire_of (s : Stream) : Wire :=
  match avail s with first :: _ => if is_resp first then WRedis else WCustom | [] => WCustom end.

(** A connection, its stream and writer at the beginning, and what was seen of it. *)
Record conn_ok (s0 : Stream) (t0 : Sink) (c : Conn) (cs : list Op) (rs : list Res) : Prop := {
  (** every frame with a request was called, in order *)
  ck_calls : cs = op_of <$> requests (served c);
  (** every call was answered, but for the one under way *)
  ck_returns : (length (requests (served c)) =
    length rs + match status c with Waiting _ _ _ => 1 | _ => 0 end)%nat;
  ck_status :
    match status c with
    | Fresh => served c = [] /\ rx c = s0 /\ tx c = t0
    | Idle p => p = wire_of s0 /\ reads p s0 (served c) (rx c) /\ script (served c) rs t0 = (Ok tt, tx c)
    | Waiting p f req => p = wire_of s0 /\
        exists before, served c = before ++ [(f, rx c)] /\ request_of f = Some req /\
          reads p s0 (served c) (rx c) /\ script before rs t0 = (Ok tt, tx c)
    | Closed p => p = wire_of s0 /\
        (* the stream was empty, or it was read to its end *)
        (avail s0 = [] /\ served c = [] /\ tx c = t0 \/
         (exists s1, reads p s0 (served c) s1 /\ receive p s1 = (Ok None, rx c)) /\
         (script (served c) rs ;;! closing p) t0 = (Ok tt, tx c))
    | Broken => True
    end
}.

Lemma script_app fs fs' rs rs' t :
  length (requests fs) = length rs ->
  script (fs ++ fs') (rs ++ rs') t = (script fs rs ;;! script fs' rs') t.
Proof.
  revert rs t. induction fs as [|[f s] fs IH]; intros rs t Hl.
  { by destruct rs. }
  cbn [app script]. unfold requests in Hl. cbn [omap list_omap fst] in Hl.
  destruct (request_of f) as [req|]; [destruct rs as [|r rs]; [done|]|].
  - injection Hl as Hl. cbn [app]. rewrite (bind_assoc (answer_call f req r ;;! end_turn f s)).
    apply bind_ext. intros _ t'. apply IH, Hl.
  - rewrite (bind_assoc (answer_direct f ;;! end_turn f s)). apply bind_ext. intros _ t'. apply IH, Hl.
Qed.

Lemma requests_snoc fs f s : requests (fs ++ [(f, s)]) = requests fs ++ option_list (request_of f).
Proof. unfold requests. rewrite omap_app. cbn. by destruct (request_of f). Qed.

(** Answers to one more frame. *)
Lemma script_direct fs f s rs t t1 :
  length (requests fs) = length rs -> request_of f = None -> script fs rs t = (Ok tt, t1) ->
  script (fs ++ [(f, s)]) rs t = (answer_direct f ;;! end_turn f s) t1.
Proof.
  intros Hl Hr Hs. rewrite <- (app_nil_r rs), script_app by done. rewrite (bind_ok _ _ _ _ _ Hs).
  cbn [script]. rewrite Hr. unfold bind at 1. by destruct ((answer_direct f ;;! end_turn f s) t1) as [[[]| |] t2].
Qed.

Lemma script_call fs f s rs r t t1 req :
  length (requests fs) = length rs -> request_of f = Some req -> script fs rs t = (Ok tt, t1) ->
  script (fs ++ [(f, s)]) (rs ++ [r]) t = (answer_call f req r ;;! end_turn f s) t1.
Proof.
  intros Hl Hr Hs. rewrite script_app by done. rewrite (bind_ok _ _ _ _ _ Hs).
  cbn [script]. rewrite Hr. unfold bind at 1. by destruct ((answer_call f req r ;;! end_turn f s) t1) as [[[]| |] t2].
Qed.

Lemma serve_ok s0 t0 c cs rs c' r :
  conn_ok s0 t0 c cs rs -> serve c = Some (c', r) ->
  conn_ok s0 t0 c' (cs ++ option_list (op_of <$> r)) rs.
Proof.
  intros [Hc Hn Hs] Hserve. unfold serve in Hserve. destruct (status c) as [|p|p f req|p|] eqn:Est; try done.
  - destruct Hs as (Hsv & Hrx & Htx). injection Hserve as <- <-. rewrite Nat.add_0_r in Hn.
    split; cbn [set_status status served rx tx option_list fmap option_fmap option_map].
    + by rewrite app_nil_r.
    + destruct (avail (rx c)); [destruct (fault (rx c))|]; cbn -[requests]; lia.
    + rewrite Hsv, Hrx, Htx. unfold wire_of. destruct (avail s0); [destruct (fault s0); [done|]|].
      * split; [done|by left].
      * split_and!; [done|constructor|done].
  - destruct Hs as (Hp & Hrd & Hsc). injection Hserve as Hserve. rewrite Nat.add_0_r in Hn.
    destruct (receive p (rx c)) as [[[f|]|e|] s] eqn:Erc.
    + destruct (request_of f) as [req|] eqn:Ereq.
      * injection Hserve as <- <-. split; cbn [status served rx tx].
        -- rewrite requests_snoc, Ereq, fmap_app, Hc. done.
        -- rewrite requests_snoc, Ereq, length_app. cbn. lia.
        -- split; [done|]. exists (served c). split_and!; try done. by eapply reads_snoc.
      * injection Hserve as <- <-. unfold write_then.
        pose proof (script_direct (served c) f s rs t0 (tx c) Hn Ereq Hsc) as Hsc'.
        destruct ((answer_direct f ;;! end_turn f s) (tx c)) as [o t1].
        split; cbn [status served rx tx option_list fmap option_fmap option_map].
        -- by rewrite requests_snoc, Ereq, !app_nil_r.
        -- rewrite requests_snoc, Ereq, app_nil_r. destruct o; cbn -[requests]; lia.
        -- destruct o as [[]|e|]; [|done|done]. split_and!; [done|by eapply reads_snoc|done].
    + injection Hserve as <- <-. unfold write_then. destruct (closing p (tx c)) as [o t1] eqn:Ecl.
      split; cbn [status served rx tx option_list fmap option_fmap option_map]; [by rewrite app_nil_r|destruct o; cbn -[requests]; lia|].
      destruct o as [[]|e|]; [|done|done]. split; [done|]. right. split; [by eexists|]. by rewrite (bind_ok _ _ _ _ _ Hsc).
    + injection Hserve as <- <-. split; cbn -[requests]; [by rewrite app_nil_r|lia|done].
    + injection Hserve as <- <-. split; cbn -[requests]; [by rewrite app_nil_r|lia|done].
Qed.

Lemma finish_ok s0 t0 c cs rs r c' :
  conn_ok s0 t0 c cs rs -> finish c r = Some c' -> conn_ok s0 t0 c' cs (rs ++ [r]).
Proof.
  intros [Hc Hn Hs] Hfin. unfold finish in Hfin. destruct (status c) as [|p|p f req|p|] eqn:Est; try done.
  destruct Hs as (Hp & before & Hsv & Hreq & Hrd & Hsc). injection Hfin as <-. unfold write_then.
  assert (length (requests before) = length rs) as Hl.
  { rewrite Hsv, requests_snoc, Hreq, length_app in Hn. cbn in Hn. lia. }
  pose proof (script_call before f (rx c) rs r t0 (tx c) req Hl Hreq Hsc) as Hsc'.
  destruct ((answer_call f req r ;;! end_turn f (rx c)) (tx c)) as [o t1].
  split; cbn [status served rx tx]; [done| |].
  - rewrite length_app. cbn [length]. destruct o; lia.
  - destruct o as [[]|e|]; [|done|done]. split_and!; [done|done|]. by rewrite Hsv.
Qed.

(** ** The invariant of the server *)

(** What was seen of every connection; [origin] is how it began. *)
Definition server_ok (origin : nat -> Stream -> Sink -> Prop) (es : list Event) (s : Server St) : Prop :=
  forall tid, match conns s !! tid with
              | Some c => exists s0 t0, origin tid s0 t0 /\ conn_ok s0 t0 c (calls tid es) (returns tid es)
              | None => calls tid es = [] /\ returns tid es = []
              end.

Lemma calls_app tid es es' : calls tid (es ++ es') = calls tid es ++ calls tid es'.
Proof. apply omap_app. Qed.
Lemma returns_app tid es es' : returns tid (es ++ es') = returns tid es ++ returns tid es'.
Proof. apply omap_app. Qed.

(** One connection goes on; nothing is seen of the others. *)
Lemma server_ok_conn origin es es1 s st tid c' :
  server_ok origin es s -> (forall t, t <> tid -> calls t es1 = [] /\ returns t es1 = []) ->
  (exists s0 t0, origin tid s0 t0 /\ conn_ok s0 t0 c' (calls tid es ++ calls tid es1) (returns tid es ++ returns tid es1)) ->
  server_ok origin (es ++ es1) (set_conn s st tid c').
Proof.
  intros Hok Hoth Hc t. cbn [set_conn conns]. rewrite lookup_insert, calls_app, returns_app.
  case_decide as E; [by subst|]. destruct (Hoth t) as [-> ->]; [done|]. rewrite !app_nil_r. apply Hok.
Qed.

Context `{!ThreadedLaws St}.

Lemma server_act_ok origin es s a acts es1 s1 :
  server_ok origin es s -> (forall tid s0 t0, a = Accept tid s0 t0 -> origin tid s0 t0) ->
  server_act a s = Some (acts, es1, s1) -> server_ok origin (es ++ es1) s1.
Proof.
  intros Hok Horg Hact. destruct a as [tid s0 t0|tid|tid|tid|]; cbn [server_act] in Hact.
  - specialize (Hok tid) as Hc. destruct (conns s !! tid) eqn:E; [done|]. injection Hact as <- <- <-.
    apply server_ok_conn; [done|done|]. exists s0, t0. split; [by apply Horg|].
    destruct Hc as [-> ->]. by split.
  - specialize (Hok tid) as Hc. destruct (conns s !! tid) as [c|] eqn:E; [|done].
    destruct (serve c) as [[c' r]|] eqn:Es; [|done]. destruct Hc as (s0 & t0 & Ho & Hc).
    pose proof (serve_ok _ _ _ _ _ _ _ Hc Es) as Hc'. destruct r as [req|].
    + destruct (act_on (Invoke tid (op_of req)) (store s)) as [[e st]|] eqn:Ea; [|done].
      apply act_seen in Ea. cbn [seen] in Ea. subst e. injection Hact as <- <- <-.
      apply server_ok_conn; [done| |].
      * intros t Ht. cbn. by rewrite decide_False by congruence.
      * exists s0, t0. split; [done|]. cbn. rewrite decide_True by done. by rewrite app_nil_r.
    + injection Hact as <- <- <-. apply server_ok_conn; [done|done|]. exists s0, t0. split; [done|].
      change (returns tid []) with (@nil Res). by rewrite (app_nil_r (returns tid es)).
  - destruct (act_on (Advance tid) (store s)) as [[e st]|] eqn:Ea; [|done].
    apply act_seen in Ea. cbn [seen] in Ea. subst e. injection Hact as <- <- <-. by rewrite app_nil_r.
  - specialize (Hok tid) as Hc. destruct (conns s !! tid) as [c|] eqn:E; [|done].
    destruct (act_on (Respond tid) (store s)) as [[e st]|] eqn:Ea; [|done].
    apply act_seen in Ea. destruct Ea as [r ->].
    destruct (finish c r) as [c'|] eqn:Ef; [|done]. injection Hact as <- <- <-.
    destruct Hc as (s0 & t0 & Ho & Hc). apply server_ok_conn; [done| |].
    + intros t Ht. cbn. by rewrite decide_False by congruence.
    + exists s0, t0. split; [done|]. cbn. rewrite decide_True, app_nil_r by done. by eapply finish_ok.
  - destruct (act_on Merge_ (store s)) as [[e st]|] eqn:Ea; [|done].
    apply act_seen in Ea. cbn [seen] in Ea. subst e. injection Hact as <- <- <-. by rewrite app_nil_r.
Qed.

Lemma server_run_ok origin l es s acts es1 s1 :
  server_ok origin es s -> (forall tid s0 t0, Accept tid s0 t0 ∈ l -> origin tid s0 t0) ->
  server_run l s = Some (acts, es1, s1) -> server_ok origin (es ++ es1) s1.
Proof.
  revert es s acts es1 s1. induction l as [|a l IH]; intros es s acts es1 s1 Hok Horg Hrun; cbn [server_run] in Hrun.
  { injection Hrun as <- <- <-. by rewrite app_nil_r. }
  destruct (server_act a s) as [[[acts2 es2] s2]|] eqn:Ea; [|done].
  destruct (server_run l s2) as [[[acts3 es3] s3]|] eqn:Er; [|done]. injection Hrun as <- <- <-.
  rewrite app_assoc. eapply IH; [|intros; apply Horg; by right|exact Er].
  eapply server_act_ok; [exact Hok| |exact Ea]. intros tid s0 t0 ->. apply Horg. left.
Qed.

(** ** The store below the server *)

(** The requests that are decoded have values that are text. *)
Lemma request_of_text f req : request_of f = Some req -> op_text (op_of req).
Proof.
  assert (forall v r, utf8 v = Ok r -> utf8_valid r = true) as Hu.
  { intros v r. unfold utf8. destruct (utf8_valid v) eqn:E; [by intros [= <-]|done]. }
  destruct f as [ty payload|frame]; cbn [request_of].
  - unfold decode_request. intros H. repeat case_match; simplify_eq; first [done|by eapply Hu].
  - unfold decode_request_resp, decode_command. intros H. repeat case_match; simplify_eq; first [done|by eapply Hu].
Qed.

Lemma serve_text c c' req : serve c = Some (c', Some req) -> op_text (op_of req).
Proof.
  unfold serve. destruct (status c) as [|p| | |]; try done. intros [= H].
  destruct (receive p (rx c)) as [[[f|]|e|] s]; try done.
  destruct (request_of f) as [req'|] eqn:E; [|done]. injection H as _ <-. by eapply request_of_text.
Qed.

(** The actions of the store in an action of the server. *)
Lemma server_act_store s a acts es s1 :
  server_act a s = Some (acts, es, s1) ->
  run_on acts (store s) = Some (es, store s1) /\ Forall op_text (invoked acts).
Proof.
  assert (forall x e st, act_on x (store s) = Some (e, st) ->
    run_on [x] (store s) = Some (option_list e, st)) as Hone.
  { intros x e st E. cbn [run_on]. by rewrite E, app_nil_r. }
  intros Hact. destruct a as [tid s0 t0|tid|tid|tid|]; cbn [server_act] in Hact.
  - destruct (conns s !! tid); [done|]. by injection Hact as <- <- <-.
  - destruct (conns s !! tid) as [c|]; [|done]. destruct (serve c) as [[c' [req|]]|] eqn:Es; [| |done].
    + destruct (act_on _ _) as [[e st]|] eqn:Ea; [|done]. injection Hact as <- <- <-.
      split; [by apply Hone|]. constructor; [by eapply serve_text|constructor].
    + by injection Hact as <- <- <-.
  - destruct (act_on _ _) as [[e st]|] eqn:Ea; [|done]. injection Hact as <- <- <-. split; [by apply Hone|constructor].
  - destruct (conns s !! tid) as [c|]; [|done]. destruct (act_on _ _) as [[e st]|] eqn:Ea; [|done].
    pose proof Ea as [r ->]%act_seen. destruct (finish c r) as [c'|]; [|done]. injection Hact as <- <- <-.
    split; [by apply Hone in Ea|constructor].
  - destruct (act_on _ _) as [[e st]|] eqn:Ea; [|done]. injection Hact as <- <- <-. split; [by apply Hone|constructor].
Qed.

(** The actions of the store in a run of the server are a run of the store. *)
Lemma server_run_store l s acts es s1 :
  server_run l s = Some (acts, es, s1) ->
  run_on acts (store s) = Some (es, store s1) /\ Forall op_text (invoked acts).
Proof.
  revert s acts es. induction l as [|a l IH]; intros s acts es Hrun; cbn [server_run] in Hrun.
  { by injection Hrun as <- <- <-. }
  destruct (server_act a s) as [[[acts2 es2] s2]|] eqn:Ea; [|done].
  destruct (server_run l s2) as [[[acts3 es3] s3]|] eqn:Er; [|done]. injection Hrun as <- <- <-.
  apply server_act_store in Ea as [Ea Ha]. destruct (IH _ _ _ Er) as [Hr Hl].
  split; [by eapply run_on_app|]. unfold invoked in *. rewrite omap_app. by apply Forall_app.
Qed.

(** ** The theorem *)

(** The server before any client connects. *)
Definition listening (s : St) : Server St := {| store := s; conns := ∅ |}.

(** The server with any number of clients, of both protocols, whose requests are
    served at the same time on one store: what the connections do to the store is a
    run of the map specification (every request takes effect between the moment its
    frame is read and the moment it is answered), and every connection reads the
    frames of its own stream in order, calls the store exactly for those that hold a
    request, and has written exactly the answers to them: the result of the call, or
    the direct answer of a frame that is no request, in order. *)
Theorem server_refines l s0 m acts es s :
  follows s0 (idle_map m) -> server_run l (listening s0) = Some (acts, es, s) -> bounded_run acts s0 ->
  (exists sp, Spec.run (idle_map m) es sp /\ follows (store s) sp) /\
  (forall tid c, conns s !! tid = Some c ->
     exists r0 t0, Accept tid r0 t0 ∈ l /\ conn_ok r0 t0 c (calls tid es) (returns tid es)).
Proof.
  intros Hf Hrun Hb. destruct (server_run_store _ _ _ _ _ Hrun) as [Hr Ht]. split.
  - by apply (run_follows acts s0).
  - intros tid c Hc.
    assert (server_ok (fun tid r0 t0 => Accept tid r0 t0 ∈ l) [] (listening s0)) as H0.
    { intros t. cbn [listening conns]. by rewrite lookup_empty. }
    pose proof (server_run_ok _ l [] _ _ _ _ H0 (fun _ _ _ H => H) Hrun tid) as Hok.
    by rewrite Hc in Hok.
Qed.

End threaded.
End connection.

(** ** A concrete run *)

(** A client of each protocol: [SET a 1] over frames, [GET a] over RESP. *)
Definition custom_client : Stream :=
  cursor_over ([REQ_SET] ++ u32_to_le_bytes 6 ++ u32_to_le_bytes 1 ++ lit "a1").
Definition redis_client : Stream :=
  cursor_over (lit "*2" ++ CRLF ++ bulk (lit "GET") ++ bulk (lit "a")).

Definition two_clients : list SAction :=
  [Accept 1 custom_client tcp_sink; Accept 2 redis_client tcp_sink; Serve 1; Serve 2; Serve 1; Work 1;
   Serve 2; Work 1; Work 2; Reply 1; Work 2; Reply 2; Serve 1; Serve 2].

#[local] Existing Instance crc32_ieee.

Definition two_served : option (list Action * list Event * Server Sys) :=
  server_run (fun _ => true) (fun _ => []) two_clients (listening (booted (fresh_handle sample_config) fresh_world)).

Lemma two_served_state :
  match two_served with
  | Some (acts, es, s) => in_range acts (booted (fresh_handle sample_config) fresh_world) /\
      (sent ∘ tx <$> conns s !! 1%nat) = Some ([RESP_OK] ++ u32_to_le_bytes 0) /\
      (sent ∘ tx <$> conns s !! 2%nat) = Some (bulk (lit "1"))
  | None => False
  end.
Proof. vm_compute. intuition discriminate. Qed.

Lemma server_refines_witness :
  exists acts es s sp c, two_served = Some (acts, es, s) /\ Spec.run (idle_map ∅) es sp /\
    conns s !! 2%nat = Some c /\ sent (tx c) = bulk (lit "1") /\
    exists s0 t0, conn_ok (fun _ => true) (fun _ => []) s0 t0 c (calls 2 es) (returns 2 es).
Proof.
  pose proof two_served_state as Hst. destruct two_served as [[[acts es] s]|] eqn:E; [|destruct Hst].
  destruct Hst as (Hin & _ & H2). destruct (conns s !! 2%nat) as [c|] eqn:Ec; [|discriminate].
  destruct (server_refines (ThreadedLaws0 := sys_laws) (fun _ => true) (fun _ => []) two_clients
    (booted (fresh_handle sample_config) fresh_world) ∅ acts es s (ready_sim _ _ _ fresh_ready) E
    (bounded_run_sys _ _ Hin)) as [(sp & Hsp & _) Hconn].
  destruct (Hconn 2%nat c Ec) as (s0 & t0 & _ & Hok).
  exists acts, es, s, sp, c. split; [reflexivity|]. split; [exact Hsp|]. split; [exact Ec|].
  split; [injection H2 as H2; exact H2|]. exists s0, t0. exact Hok.
Defined.
