(* ===== verification/Turns.v ===== *)
(** * A connection, turn by turn

    Connections.v cuts [handle] of src/bin/kvs-server.rs into turns, each with a
    call of the store in the middle, so that the calls of many connections can
    interleave; Server.v has the same code as loops. Here the two are the same
    program: over every store, the turns of a connection that is served alone are
    [handle], and they come to an end on every stream. *)

From Stdlib Require Import ZArith Lia Strings.Byte.
From stdpp Require Import base numbers list strings gmap.
From S2P Require Import Prelude Bytes Crc Streams Text FileSystem Engine KvStore System Protocol Resp RespProofs Server Threads Connections.
Import Protocol Resp.

Local Open Scope Z_scope.

Section turns.
Context {St : Type} `{KvStore St}.
Context (buffer_empty : Stream -> bool) (wrapped : KvsError -> list byte).

(** One turn: read, call, answer. *)
Definition turn (c : Conn) (s : St) : option (Conn * St) :=
  match serve buffer_empty wrapped c with
  | None => None
  | Some (c', None) => Some (c', s)
  | Some (c', Some req) =>
      let (r, s') := call_store (op_of req) s in
      match finish buffer_empty c' r with Some c'' => Some (c'', s') | None => None end
  end.

Fixpoint turns (n : nat) (c : Conn) (s : St) : Conn * St :=
  match n with
  | O => (c, s)
  | S n => match turn c s with Some (c', s') => turns n c' s' | None => (c, s) end
  end.

Definition accepted (r : Stream) (t : Sink) : Conn :=
  {| rx := r; tx := t; status := Fresh; served := [] |}.

(** How a connection stands when [handle] has returned this. *)
Definition ended (o : outcome unit) (st : Status) : Prop :=
  match o with Ok _ => exists p, st = Closed p | _ => st = Broken end.

(** The loop of a protocol. *)
Definition loop (p : Wire) (fuel : nat) : CM (St := St) unit :=
  match p with
  | WCustom => frames_loop fuel
  | WRedis => resp_loop buffer_empty wrapped fuel
  end.

(** ** Lemmas *)

Lemma read_exact_drops n r o r' :
  read_exact n r = (Ok o, r') -> length (avail r') = (length (avail r) - Z.to_nat n)%nat /\ n <= blen (avail r).
Proof.
  unfold read_exact. destruct (Z.leb_spec n (blen (avail r))); [|done]. intros [= <- <-].
  cbn [avail]. split; [apply length_drop|done].
Qed.

(** A frame takes at least one byte. *)
Lemma receive_consumes p r f r' :
  receive p r = (Ok (Some f), r') -> (length (avail r') < length (avail r))%nat.
Proof.
  intros Hr. destruct p; cbn [receive] in Hr; apply bind_inv in Hr as (x & r1 & Hr & Hx).
  - destruct x as [[ty payload]|]; [|done]. injection Hx as _ <-. unfold read_frame, mcatch in Hr.
    destruct (read_exact 1 r) as [[b|e|] r2] eqn:E1; [|by destruct (decide _)|done].
    apply read_exact_drops in E1 as [E1 Hb].
    apply bind_inv in Hr as (b4 & r3 & E2 & Hr). apply read_exact_drops in E2 as [E2 _].
    cbn zeta in Hr. destruct (_ <? _); [done|].
    apply bind_inv in Hr as (pl & r4 & E3 & Hr). apply read_exact_drops in E3 as [E3 _].
    injection Hr as _ _ <-. unfold blen in Hb. lia.
  - destruct x as [frame|]; [|done]. injection Hx as _ <-.
    pose proof (read_frame_resp_exact r) as Hex. rewrite Hr in Hex. destruct Hex as (-> & _ & Hne).
    rewrite length_app. destruct frame; [done|]. cbn [length]. lia.
Qed.

(** [execute] is the call of the store and the response to its result. *)
Lemma execute_call req s :
  execute req s =
  let (r, s') := call_store (op_of req) s in
  (match response_of r with Some resp => Ok resp | None => Panic end, s').
Proof.
  destruct req as [k|k v|k]; cbn [execute op_of call_store]; unfold respond, mcatch.
  - by destruct (kv_get k s) as [[[v|]|e|] s'].
  - by destruct (kv_set k v s) as [[[]|e|] s'].
  - by destruct (kv_remove k s) as [[[]|e|] s'].
Qed.

(** What the loops do with a frame. *)
Definition answer (f : Frame) (r' : Stream) : M (St * Sink) unit := fun st =>
  match request_of f with
  | Some req =>
      let (r, s') := call_store (op_of req) (fst st) in
      on_snd (answer_call f req r ;;! end_turn buffer_empty f r') (s', snd st)
  | None => on_snd (answer_direct wrapped f ;;! end_turn buffer_empty f r') st
  end.

(** The end of a turn of [handle_resp], after what it has written. *)
Local Ltac flush_after out :=
  destruct out as [[[]| |] ?]; cbn [fst snd]; [|done|done];
  destruct (buffer_empty _); cbn [fst snd]; [|done];
  destruct (Sink.flush _) as [[[]| |] ?]; done.

(** A turn of a loop. *)
Lemma loop_step p fuel s r t :
  loop p (S fuel) (s, (r, t)) =
  match receive p r with
  | (Ok None, r') => let (o, t') := closing p t in (o, (s, (r', t')))
  | (Ok (Some f), r') =>
      match answer f r' (s, t) with
      | (Ok _, (s', t')) => loop p fuel (s', (r', t'))
      | (o, (s', t')) => (o, (s', (r', t')))
      end
  | (Err e, r') => (Err e, (s, (r', t)))
  | (Panic, r') => (Panic, (s, (r', t)))
  end.
Proof.
  destruct p; cbn [loop frames_loop resp_loop receive closing]; unfold answer, bind, on_reader, on_writer, on_snd, on_fst, gets, ret; cbn [fst snd].
  - destruct (read_frame r) as [[[[ty payload]|]|e|] r']; try done. cbn [request_of].
    destruct (decode_request ty payload) as [req|e|] eqn:Ed; cbn [fst snd answer_direct answer_call end_turn];
      rewrite ?Ed; [|by destruct (write_response _ t) as [[[]|e'|] t']|done].
    rewrite execute_call. destruct (call_store (op_of req) s) as [res s']. unfold answer_call.
    destruct (response_of res) as [resp|]; [|done]. cbn [fst snd].
    by destruct (write_response resp t) as [[[]|e|] t'].
  - destruct (read_frame_resp r) as [[[frame|]|e|] r']; try done; cbn [fmap option_fmap option_map request_of fst snd];
      [|by destruct (Sink.flush t) as [[[]|e'|] t']].
    destruct (decode_request_resp frame) as [[req|names]|e|] eqn:Ed; cbn [fst snd answer_direct end_turn];
      rewrite ?Ed; [|flush_after (write_config_get names t)|flush_after (write_error (decode_error_message wrapped e) t)|done].
    rewrite execute_call. destruct (call_store (op_of req) s) as [res s']. unfold answer_call.
    destruct (response_of res) as [resp|]; [|done]. cbn [fst snd].
    flush_after (write_response_resp (command_of req) resp t).
Qed.

(** The turn of the connection that goes with it. *)
Lemma turn_step p c s :
  status c = Idle p ->
  turn c s =
  Some (match receive p (rx c) with
  | (Ok None, r') => (write_then c r' (served c) (closing p) (Closed p), s)
  | (Ok (Some f), r') =>
      let '(o, (s', t')) := answer f r' (s, tx c) in
      ({| rx := r'; tx := t'; status := match o with Ok _ => Idle p | _ => Broken end;
          served := served c ++ [(f, r')] |}, s')
  | (_, r') => ({| rx := r'; tx := tx c; status := Broken; served := served c |}, s)
  end).
Proof.
  intros Hst. unfold turn, serve. rewrite Hst. destruct (receive p (rx c)) as [[[f|]|e|] r']; try done.
  unfold answer. destruct (request_of f) as [req|].
  - cbn [fst snd]. destruct (call_store (op_of req) s) as [res s'].
    unfold finish, write_then, on_snd. cbn [status rx tx served fst snd].
    by destruct ((_ ;;! _) (tx c)) as [[[]|e|] t'].
  - unfold write_then, on_snd. cbn [fst snd].
    by destruct ((_ ;;! _) (tx c)) as [[[]|e|] t'].
Qed.

Lemma turns_ended n c s o : ended o (status c) -> turns n c s = (c, s).
Proof.
  intros He. destruct n; [done|]. cbn [turns]. unfold turn, serve.
  destruct o; [destruct He as [p ->]|rewrite He|rewrite He]; done.
Qed.

Lemma turns_loop p fuel c s :
  status c = Idle p -> (length (avail (rx c)) < fuel)%nat ->
  let '(c', s') := turns fuel c s in
  exists o, loop p fuel (s, (rx c, tx c)) = (o, (s', (rx c', tx c'))) /\ ended o (status c').
Proof.
  revert c s. induction fuel as [|fuel IH]; intros c s Hst Hfuel; [lia|].
  cbn [turns]. rewrite loop_step, (turn_step p) by done.
  destruct (receive p (rx c)) as [[[f|]|e|] r'] eqn:Er.
  - apply receive_consumes in Er. destruct (answer f r' (s, tx c)) as [[[]|e|] [s' t']].
    + specialize (IH {| rx := r'; tx := t'; status := Idle p; served := served c ++ [(f, r')] |} s').
      cbn [status rx tx] in IH. apply IH; [done|lia].
    + rewrite (turns_ended _ _ _ (Err e)) by done. by exists (Err e).
    + rewrite (turns_ended _ _ _ Panic) by done. by exists Panic.
  - unfold write_then. destruct (closing p (tx c)) as [o t'] eqn:Ec.
    rewrite (turns_ended _ _ _ o) by (destruct o; [by eexists|done|done]).
    exists o. split; [done|]. destruct o; [by eexists|done|done].
  - rewrite (turns_ended _ _ _ (Err e)) by done. by exists (Err e).
  - rewrite (turns_ended _ _ _ Panic) by done. by exists Panic.
Qed.

(** C32. The two models of a connection are one: over every store and on every stream,
    whatever the client sends and however the stream ends, [handle] does to the store,
    the stream and the writer exactly what the turns of the connection do when nothing
    comes between them; and the connection comes to its end, with [Ok(())] exactly if
    it is closed, after at most one turn for each byte and two more. *)
Theorem handle_is_turns s r t :
  let '(c, s') := turns (S (S (length (avail r)))) (accepted r t) s in
  exists o, handle buffer_empty wrapped (s, (r, t)) = (o, (s', (rx c, tx c))) /\ ended o (status c).
Proof.
  remember (S (length (avail r))) as n eqn:Hn.
  cbn [turns]. unfold turn at 1, handle. cbn [serve accepted status rx tx fst snd set_status].
  destruct (avail r) as [|first rest] eqn:Ea.
  { destruct (fault r) as [k|].
    - rewrite (turns_ended _ _ _ (Err (Io k))) by done. by exists (Err (Io k)).
    - rewrite (turns_ended _ _ _ (Ok tt)) by (by eexists). exists (Ok tt). split; [done|by eexists]. }
  set (p := if is_resp first then WRedis else WCustom).
  pose proof (turns_loop p n (set_status (accepted r t) (Idle p)) s eq_refl) as Hl.
  cbn [set_status accepted rx tx served] in Hl. rewrite Ea in Hl. specialize (Hl ltac:(lia)).
  unfold handle_resp. cbn [fst snd set_status accepted rx tx served]. rewrite Ea, <- Hn.
  destruct (turns n _ s) as [c s']. subst p. by destruct (is_resp first).
Qed.

End turns.
