(* ===== verification/Repl.v ===== *)
(** * The command line programs

    The command parser of src/repl_helper.rs, the loop of src/bin/kvs.rs over the
    lines that the user types, with the commands on a store, and the loop of
    src/bin/kvs-client.rs, the same with a connection to the server instead of a
    store. What is printed is state; the line editor is another crate's: what it
    returns for each prompt, and whether it takes a line into its history, are
    parameters. *)

From Stdlib Require Import ZArith Lia Strings.Byte.
From stdpp Require Import base numbers list strings gmap.
From S2P Require Import Prelude Bytes Crc Streams Text FileSystem Engine EngineProofs Closing KvStore Protocol Resp Server.
Import Protocol Resp.

Local Open Scope Z_scope.

(** ** The terminal *)

(** A line on standard output, on standard error, or of the log on standard error. *)
Inductive Printed : Type :=
| Out (line : list byte)
| ErrOut (line : list byte)
| Logged (line : list byte).

(** What was printed, and the logger of the process, if it has installed one: whether
    errors pass its filter. *)
Record Console : Type := {
  printed : list Printed;
  logger : option bool
}.

Definition emit (p : Printed) : M Console unit :=
  modify (fun c => {| printed := printed c ++ [p]; logger := logger c |}).
Definition println (line : list byte) : M Console unit := emit (Out line).
Definition eprintln (line : list byte) : M Console unit := emit (ErrOut line).

(** [error!]: without a logger the message is lost. *)
Definition error (msg : list byte) : M Console unit := fun c =>
  if decide (logger c = Some true) then emit (Logged msg) c else (Ok tt, c).

(** [log::configure_logger]: the filter of the environment, which may be unset or
    not readable, and otherwise the default, [kvs=info], which errors of the crate
    pass; a second logger is a panic. *)
Definition configure_logger (env_filter : option bool) : M Console unit := fun c =>
  match logger c with
  | None => (Ok tt, {| printed := printed c; logger := Some (default true env_filter) |})
  | Some _ => (Panic, c)
  end.

Definition print_help : M Console unit :=
  println (lit "Available commands:") ;;!
  println (lit "  set <KEY> <VALUE>  Set the value of a key") ;;!
  println (lit "  get <KEY>          Get the value of a key") ;;!
  println (lit "  rm <KEY>           Remove a key") ;;!
  println (lit "  help               Show this help") ;;!
  println (lit "  quit               Exit").

(** What [rl.readline] returns. *)
Inductive Readline : Type :=
| Line (line : list byte)
| Eof
| Interrupted
| Failed (msg : list byte).

(** ** The command parser *)

Inductive ReplCommand : Type :=
| ReplSet (key value : list byte)
| ReplGet (key : list byte)
| ReplRm (key : list byte).

Definition parse_command (input : list byte) : M Console (option ReplCommand) :=
  match split_whitespace input with
  | [] => ret None
  | command :: parts =>
      if decide (command = lit "set") then
        match parts with
        | key :: value :: _ => ret (Some (ReplSet key value))
        | _ => error (lit "Usage: set <KEY> <VALUE>") ;;! ret None
        end
      else if decide (command = lit "get") then
        match parts with
        | key :: _ => ret (Some (ReplGet key))
        | [] => error (lit "Usage: get <KEY>") ;;! ret None
        end
      else if decide (command = lit "rm") then
        match parts with
        | key :: _ => ret (Some (ReplRm key))
        | [] => error (lit "Usage: rm <KEY>") ;;! ret None
        end
      else
        error (lit "Unknown command: " ++ command) ;;!
        error (lit "Type 'help' for available commands.") ;;!
        ret None
  end.

(** ** The loop *)

(** The loop was left, or it waits for the next line. *)
Inductive Session : Type := Exited | Prompting.

Section loop.
(** What a command does, and the error of the editor for a line that it does not
    take into its history. *)
Context {St : Type} (run : ReplCommand -> M (St * Console) unit).
Context (add_history_entry : list byte -> option (list byte)).

(** The loop over what [readline] returned so far. *)
Fixpoint repl_loop (events : list Readline) : M (St * Console) Session :=
  match events with
  | [] => ret Prompting
  | Line line :: events =>
      let line := trim line in
      if decide (line = []) then repl_loop events
      else
        (match add_history_entry line with None => ret tt | Some _ => panic end) ;;!
        if decide (line = lit "quit" \/ line = lit "exit") then ret Exited
        else
          (if decide (line = lit "help") then on_snd print_help
           else
             let! command := on_snd (parse_command line) in
             match command with
             | Some c => run c
             | None => ret tt
             end) ;;!
          repl_loop events
  | Eof :: _ => ret Exited
  | Interrupted :: events => on_snd (println (lit "^C")) ;;! repl_loop events
  | Failed msg :: _ => on_snd (eprintln (lit "Error: " ++ msg)) ;;! ret Exited
  end.
End loop.

(** ** The store program *)

Section local.
Context {St : Type} `{KvStore St}.
(** The texts of errors of other crates. *)
Context (wrapped : KvsError -> list byte) (add_history_entry : list byte -> option (list byte)).

Definition print_error {S} (e : KvsError) : M (S * Console) unit :=
  on_snd (eprintln (lit "Error: " ++ to_string wrapped e)).

Definition repl_set (key value : list byte) : M (St * Console) unit :=
  mcatch (on_fst (kv_set key value))
    (fun _ => on_snd (println (lit "SET " ++ key ++ lit " = " ++ value)))
    print_error.

Definition repl_get (key : list byte) : M (St * Console) unit :=
  mcatch (on_fst (kv_get key))
    (fun v => on_snd (match v with
                      | Some value => println value
                      | None => println (lit "Key not found")
                      end))
    print_error.

Definition repl_rm (key : list byte) : M (St * Console) unit :=
  mcatch (on_fst (kv_remove key))
    (fun _ => on_snd (println (lit "Removed key: " ++ key)))
    print_error.

Definition run_local (c : ReplCommand) : M (St * Console) unit :=
  match c with
  | ReplSet key value => repl_set key value
  | ReplGet key => repl_get key
  | ReplRm key => repl_rm key
  end.

Definition repl : list Readline -> M (St * Console) Session := repl_loop run_local add_history_entry.
End local.

(** ** The client program *)

Section remote.
Context (wrapped : KvsError -> list byte) (debug : Response -> list byte).
Context (add_history_entry : list byte -> option (list byte)).

Definition unexpected (other : Response) : M Console unit :=
  eprintln (lit "Error: unexpected response " ++ debug other).

Definition client_set (key value : list byte) : M ((Stream * Sink) * Console) unit :=
  mcatch (on_fst (call (RSet key value)))
    (fun r => on_snd (match r with
                      | ROk => println (lit "SET " ++ key ++ lit " = " ++ value)
                      | other => unexpected other
                      end))
    (print_error wrapped).

Definition client_get (key : list byte) : M ((Stream * Sink) * Console) unit :=
  mcatch (on_fst (call (RGet key)))
    (fun r => on_snd (match r with RValue value => println value | other => unexpected other end))
    (fun e => match e with
              | KeyNotFound => on_snd (println (lit "Key not found"))
              | e => print_error wrapped e
              end).

Definition client_rm (key : list byte) : M ((Stream * Sink) * Console) unit :=
  mcatch (on_fst (call (RRm key)))
    (fun r => on_snd (match r with
                      | ROk => println (lit "Removed key: " ++ key)
                      | other => unexpected other
                      end))
    (print_error wrapped).

Definition run_remote (c : ReplCommand) : M ((Stream * Sink) * Console) unit :=
  match c with
  | ReplSet key value => client_set key value
  | ReplGet key => client_get key
  | ReplRm key => client_rm key
  end.

Definition client_repl : list Readline -> M ((Stream * Sink) * Console) Session :=
  repl_loop run_remote add_history_entry.
End remote.

(** ** The abstract map as a store *)

#[export] Instance map_store : KvStore (gmap (list byte) (list byte)) := {
  kv_set := fun k v m => (Ok tt, <[k := v]> m);
  kv_remove := fun k m => (match m !! k with Some _ => Ok tt | None => Err KeyNotFound end, delete k m);
  kv_get := fun k m => (Ok (m !! k), m)
}.

(** The command of a line, which does not depend on the terminal. *)
Definition command_of_line (line : list byte) : option ReplCommand :=
  match fst (parse_command line {| printed := []; logger := None |}) with Ok c => c | _ => None end.

(** Parsing returns the command and touches nothing but the log. *)
Lemma parse_command_run line con :
  exists con', parse_command line con = (Ok (command_of_line line), con').
Proof.
  unfold command_of_line, parse_command. destruct (split_whitespace line) as [|command parts]; [by eexists|].
  repeat case_decide; destruct parts as [|key [|value parts]], con as [p [[]|]]; by eexists.
Qed.

(** A line whose command, if any, is within the limits. *)
Definition line_small (ev : Readline) : Prop :=
  match ev with
  | Line line => forall k v, command_of_line (trim line) = Some (ReplSet k v) -> small k v
  | _ => True
  end.

(** The command that the loop runs for an event, and whether it leaves the loop. *)
Definition command_for (ev : Readline) : option ReplCommand :=
  match ev with
  | Line line =>
      let line := trim line in
      if decide (line = [] \/ line = lit "quit" \/ line = lit "exit" \/ line = lit "help") then None
      else command_of_line line
  | _ => None
  end.

Definition ends (ev : Readline) : bool :=
  match ev with
  | Line line => bool_decide (trim line = lit "quit" \/ trim line = lit "exit")
  | Eof | Failed _ => true
  | Interrupted => false
  end.

(** ** Two ways to run commands that print the same *)

Section alike.
Context {A B : Type} (run1 : ReplCommand -> M (A * Console) unit) (run2 : ReplCommand -> M (B * Console) unit).
Context (add_history_entry : list byte -> option (list byte)).
Context (history_ok : forall line, add_history_entry line = None).
(** How the two states are related before the rest of the events. *)
Context (R : list Readline -> A -> B -> Prop).
Context (alike_run : forall ev events c a b con, R (ev :: events) a b -> command_for ev = Some c ->
  exists a' b' con', run1 c (a, con) = (Ok tt, (a', con')) /\ run2 c (b, con) = (Ok tt, (b', con')) /\
    R events a' b').
Context (alike_skip : forall ev events a b,
  ends ev = false -> command_for ev = None -> R (ev :: events) a b -> R events a b).

Lemma repl_loop_alike events a b con :
  R events a b ->
  exists session a' b' con' rest, repl_loop run1 add_history_entry events (a, con) = (Ok session, (a', con')) /\
    repl_loop run2 add_history_entry events (b, con) = (Ok session, (b', con')) /\ R rest a' b' /\
    match session with Prompting => rest = [] | Exited => exists ev rest', rest = ev :: rest' /\ ends ev = true end.
Proof using All.
  revert a b con. induction events as [|ev events IH]; intros a b con HR.
  { by exists Prompting, a, b, con, []. }
  pose proof (alike_skip ev events a b) as Hskip. pose proof (alike_run ev events) as Hrun.
  cbn [repl_loop]. destruct ev as [line| | |msg]; cbn [ends command_for] in *.
  - destruct (decide (trim line = [])) as [E0|E0].
    { apply IH, Hskip; [by rewrite E0|by rewrite decide_True by by left|done]. }
    rewrite history_ok. rewrite !(bind_ok (ret tt) _ _ tt _ eq_refl).
    destruct (decide (trim line = lit "quit" \/ trim line = lit "exit")) as [E1|E1].
    { exists Exited, a, b, con, (Line line :: events). split_and!; try done.
      eexists _, _. split; [done|]. cbn [ends]. by apply bool_decide_eq_true. }
    rewrite bool_decide_eq_false_2 in Hskip by done.
    destruct (decide (trim line = lit "help")) as [E2|E2].
    { rewrite decide_True in Hskip by tauto.
      rewrite !(bind_ok (on_snd print_help) _ _ tt _ eq_refl). by apply IH, Hskip. }
    rewrite decide_False in Hskip, Hrun by tauto.
    destruct (parse_command_run (trim line) con) as [con1 Hp].
    assert (forall X (x : X), on_snd (parse_command (trim line)) (x, con) =
      (Ok (command_of_line (trim line)), (x, con1))) as Hp'.
    { intros X x. unfold on_snd. cbn [fst snd]. by rewrite Hp. }
    rewrite !bind_assoc, !(bind_ok _ _ _ _ _ (Hp' _ _)).
    destruct (command_of_line (trim line)) as [c|]; [|by apply IH, Hskip].
    destruct (Hrun c a b con1 HR eq_refl) as (a' & b' & con' & H1 & H2 & HR').
    rewrite (bind_ok _ _ _ _ _ H1), (bind_ok _ _ _ _ _ H2). by apply IH.
  - by exists Exited, a, b, con, (Eof :: events); split_and!; [..|eexists _, _].
  - by apply IH, Hskip.
  - eexists Exited, a, b, _, (Failed msg :: events). by split_and!; [..|eexists _, _].
Qed.
End alike.

Section theorems.
Context {St : Type} `{KvStoreLaws St} (wrapped : KvsError -> list byte).
Context (add_history_entry : list byte -> option (list byte)).
Context (history_ok : forall line, add_history_entry line = None).

Lemma run_local_law n s m con c :
  kv_holds n s m -> 0 < n -> (forall k v, c = ReplSet k v -> small k v) ->
  exists s' m' con', run_local wrapped c (s, con) = (Ok tt, (s', con')) /\
    run_local wrapped c (m, con) = (Ok tt, (m', con')) /\ kv_holds (n - 1) s' m'.
Proof using.
  intros Hh Hn Hs. destruct c as [k v|k|k]; cbn [run_local];
    unfold repl_set, repl_get, repl_rm, mcatch, on_fst; cbn [fst snd kv_set kv_get kv_remove map_store].
  - destruct (kv_set_law n s m k v Hh Hn (Hs k v eq_refl)) as (s' & -> & Hh'). by eexists s', _, _.
  - destruct (kv_get_law n s m k Hh) as (s' & -> & Hh').
    destruct (m !! k); eexists s', m, _; (split_and!; [done|done|eapply kv_mono; [exact Hh'|lia]]).
  - destruct (kv_remove_law n s m k Hh Hn) as (s' & -> & Hh'). destruct (m !! k); by eexists s', _, _.
Qed.

(** A session on a store and on the map it stores. *)
Lemma repl_map n s m con events :
  kv_holds n s m -> Z.of_nat (length events) <= n -> Forall line_small events ->
  exists session s' m' con', repl wrapped add_history_entry events (s, con) = (Ok session, (s', con')) /\
    repl wrapped add_history_entry events (m, con) = (Ok session, (m', con')) /\
    kv_holds (n - Z.of_nat (length events)) s' m'.
Proof using history_ok.
  intros Hh Hn Hl. set (k := n - Z.of_nat (length events)).
  destruct (repl_loop_alike (run_local wrapped) (run_local wrapped) add_history_entry history_ok
    (fun events s m => kv_holds (k + Z.of_nat (length events)) s m /\ 0 <= k /\ Forall line_small events))
    with (events := events) (a := s) (b := m) (con := con)
    as (session & s' & m' & con' & rest & Hr1 & Hr2 & (Hh' & _) & _).
  - intros ev evs c a b con1 (Ha & Hk & [Hl1 Hl2]%Forall_cons) Hc. cbn [length] in Ha.
    destruct (run_local_law (k + Z.of_nat (S (length evs))) a b con1 c Ha ltac:(lia)) as (a' & b' & con' & H1 & H2 & H3).
    { intros k1 v1 ->. destruct ev as [line| | |]; cbn [command_for] in Hc; try done.
      case_decide; [done|]. by apply Hl1. }
    exists a', b', con'. split_and!; try done.
    by replace (k + Z.of_nat (length evs)) with (k + Z.of_nat (S (length evs)) - 1) by lia.
  - intros ev evs a b _ _ (Ha & Hk & [_ Hl2]%Forall_cons). split_and!; try done.
    eapply kv_mono; [exact Ha|]. cbn [length]. lia.
  - split_and!; [|lia|done]. by replace (k + Z.of_nat (length events)) with n by lia.
  - exists session, s', m', con'. split_and!; try done. eapply kv_mono; [exact Hh'|lia].
Qed.

(** A session at the prompt shows the abstract map: whatever lines are typed
    (commands with missing or extra words, unknown commands, blank lines, [help],
    interrupts), everything the program prints and logs is what it would print on a
    plain map, up to the line that ends the session, and the store ends storing the
    map. *)
Theorem repl_refines n s m con events :
  kv_holds n s m -> Z.of_nat (length events) <= n -> Forall line_small events ->
  exists session s' m' con', repl wrapped add_history_entry events (s, con) = (Ok session, (s', con')) /\
    repl wrapped add_history_entry events (m, con) = (Ok session, (m', con')) /\ kv_holds 0 s' m'.
Proof using history_ok.
  intros Hh Hn Hl. destruct (repl_map n s m con events Hh Hn Hl) as (session & s' & m' & con' & H1 & H2 & H3).
  exists session, s', m', con'. split_and!; try done. eapply kv_mono; [exact H3|lia].
Qed.

End theorems.

Definition console0 (logger : option bool) : Console := Build_Console [] logger.

Lemma repl_refines_witness :
  exists s', repl (H := bitcask_store (Crc := crc32_ieee)) (fun _ => []) (fun _ => None)
    [Line (lit " set k v "); Line (lit "get k"); Line (lit "rm x"); Interrupted; Line (lit "");
     Line (lit "set k"); Line (lit "quit"); Line (lit "get k")] (served, console0 (Some true)) =
  (Ok Exited, (s', {| printed := [Out (lit "SET k = v"); Out (lit "v"); ErrOut (lit "Error: Key not found");
                                  Out (lit "^C"); Logged (lit "Usage: set <KEY> <VALUE>")]; logger := Some true |})).
Proof.
  destruct (repl_refines (H0 := bitcask_laws (Crc := crc32_ieee)) (fun _ => []) (fun _ => None)
    (fun _ => eq_refl) 100 served ∅ (console0 (Some true))
    [Line (lit " set k v "); Line (lit "get k"); Line (lit "rm x"); Interrupted; Line (lit "");
     Line (lit "set k"); Line (lit "quit"); Line (lit "get k")])
    as (session & s' & m' & con' & Hr & Hr' & _).
  - apply served_holds.
  - vm_compute. discriminate.
  - repeat apply List.Forall_cons; try apply List.Forall_nil; try exact I; intros k v E;
      vm_compute in E; try discriminate; injection E as <- <-; vm_compute; intuition discriminate.
  - exists s'. rewrite Hr. pose proof (f_equal fst Hr') as E1. pose proof (f_equal (fun x => snd (snd x)) Hr') as E2.
    clear Hr Hr'. vm_compute in E1, E2. injection E1 as <-. by rewrite <- E2.
Defined.
