(* ===== verification/Programs.v ===== *)
(** * The programs

    [main] of src/bin/kvs.rs and of src/bin/kvs-client.rs. The line editor, the
    command line parser and connecting are other crates' or the system's: their
    results are parameters. A process is where it is after what was typed so far;
    the directory it leaves when it ends is the start of the next run. *)

From Stdlib Require Import ZArith Lia Strings.Byte.
From stdpp Require Import base numbers list strings gmap.
From S2P Require Import Prelude Bytes Crc Streams Text Names Config FileSystem Lock Engine Load Merge EngineProofs Recovery Durability FirstOpen Cut Closing KvStore Protocol Resp Server Repl.
Import Protocol Resp.

Local Open Scope Z_scope.

(** [main] has returned, it waits at the prompt, or it has panicked. *)
Inductive Process (W S : Type) : Type :=
| Returned (w : W)
| Waits (s : S)
| Panicked (w : W).
Arguments Returned {W S} w.
Arguments Waits {W S} s.
Arguments Panicked {W S} w.

(** The terminal of a new process. *)
Definition new_console : Console := {| printed := []; logger := None |}.

(** ** [kvs] *)

(** The command line of [kvs]; the directory is the one the [World] is of. *)
Module KvsArgs.

Record Args : Type := { dir : list byte; store_type : StoreType.StoreType }.

Definition default_args : Args := {| dir := lit "kvs/"; store_type := StoreType.Bitcask |}.

(** [kvs --dir dir] *)
Definition in_dir (dir : list byte) : Args := {| dir := dir; store_type := store_type default_args |}.

End KvsArgs.

Section kvs.
Context `{Crc : Crc32} {Db : Type} `{!SledStore.SledDb Db}.
Context (order : list Name -> list Name) (db_open : option Z -> World -> (SledStore.SledError + Db) * World).
(** What dropping the database does to the directory. *)
Context (db_drop : Db -> World -> World).
Context (wrapped : KvsError -> list byte) (add_history_entry : list byte -> option (list byte)).
(** [DefaultEditor::new()] and the filter in the environment. *)
Context (new_editor : option (list byte)) (env_filter : option bool).

(** The end of [kvstore]: the directory it leaves, unlocked. *)
Definition drop_store (s : Store (Bitcask.Handle * World) (SledStore.SledStore Db)) (w : World) : World :=
  match s with
  | StBitcask hw => snd (snd (Compaction.drop_handle hw))
  | StSled s => set_flock (db_drop (SledStore.db s) w) false
  end.

(** The lines before the store is opened. *)
Definition greeting : M Console unit :=
  configure_logger env_filter ;;!
  (match new_editor with None => ret tt | Some _ => panic end) ;;!
  print_help.

Definition kvs_main (args : KvsArgs.Args) (events : list Readline) (w : World)
  : Process World (Store (Bitcask.Handle * World) (SledStore.SledStore Db)) * Console :=
  match greeting new_console with
  | (Ok _, con) =>
      match store_open order db_open (Config.new (KvsArgs.store_type args)) w with
      | (Ok s, w') =>
          match repl wrapped add_history_entry events (s, con) with
          | (Ok Prompting, (s', con')) => (Waits s', con')
          | (Ok Exited, (s', con')) => (Returned (drop_store s' w'), con')
          | (_, (s', con')) => (Panicked (drop_store s' w'), con')
          end
      | (Err err, w') =>
          (Returned w', snd (eprintln (lit "Error opening KvStore: " ++ to_string wrapped err) con))
      | (Panic, w') => (Panicked w', con)
      end
  | (_, con) => (Panicked w, con)
  end.

Context (dir : list byte).

(** Runs of the program one after another on the same directory: what each of them
    printed, and where the last one is. *)
Fixpoint kvs_runs (runs : list (list Readline)) (w : World)
  : list Console * Process World (Store (Bitcask.Handle * World) (SledStore.SledStore Db)) :=
  match runs with
  | [] => ([], Returned w)
  | events :: runs =>
      match kvs_main (KvsArgs.in_dir dir) events w with
      | (Returned w', con) => let (cons, p) := kvs_runs runs w' in (con :: cons, p)
      | (p, con) => ([con], p)
      end
  end.

(** The same runs on a plain map that stays from run to run. *)
Fixpoint map_runs (runs : list (list Readline)) (m : gmap (list byte) (list byte)) : list Console :=
  match runs with
  | [] => []
  | events :: runs =>
      match repl wrapped add_history_entry events (m, snd (greeting new_console)) with
      | (Ok Exited, (m', con)) => con :: map_runs runs m'
      | (_, (_, con)) => [con]
      end
  end.

(** Every run finds a directory with room for what it writes. *)
Fixpoint runs_fit (runs : list (list Readline)) (w : World) : Prop :=
  match runs with
  | [] => True
  | events :: runs =>
      spacious (Z.of_nat (length events) + 1) (Config.new StoreType.Bitcask) w /\
      Forall line_small events /\
      match fst (kvs_main (KvsArgs.in_dir dir) events w) with
      | Returned w' => runs_fit runs w'
      | _ => True
      end
  end.

(** The store of the program stays the one it opened. *)
#[local] Instance opened_laws : KvStoreLaws (Store (Bitcask.Handle * World) (SledStore.SledStore Db)).
Proof.
  refine {| kv_holds := fun n s m => exists hw, s = StBitcask hw /\ open_for n (fst hw) (snd hw) m |}.
  - intros n n' s m ([h w] & -> & Ho) Hle. exists (h, w). split; [done|]. by eapply open_for_weaken.
  - intros n s m k v ([h w] & -> & Ho) Hn Hs.
    destruct (open_for_set n h w m k v Ho Hn (small_fits _ _ Hs)) as (h' & w' & E & Ho').
    exists (StBitcask (h', w')).
    cbn [kv_set kv_remove store_store dispatch bitcask_store]. rewrite E. split; [done|]. by exists (h', w').
  - intros n s m k ([h w] & -> & Ho) Hn.
    destruct (open_for_remove n h w m k Ho Hn) as (h' & w' & E & Ho').
    exists (StBitcask (h', w')).
    cbn [kv_set kv_remove store_store dispatch bitcask_store]. rewrite E. split; [done|]. by exists (h', w').
  - intros n s m k ([h w] & -> & Ho). exists (StBitcask (h, w)). cbn [kv_get store_store dispatch bitcask_store].
    rewrite (open_for_get n h w m k Ho). split; [done|]. by exists (h, w).
Defined.

Section laws.
Context (order_perm : forall l, order l ≡ₚ l) (history_ok : forall line, add_history_entry line = None).
Context (editor_ok : new_editor = None).

(** A run of the program on a directory that stores [m]. *)
Lemma kvs_main_run events w m :
  startable w m -> spacious (Z.of_nat (length events) + 1) (Config.new StoreType.Bitcask) w ->
  Forall line_small events ->
  exists session m' con, repl wrapped add_history_entry events (m, snd (greeting new_console)) =
      (Ok session, (m', con)) /\
    match session with
    | Exited => exists w', kvs_main (KvsArgs.in_dir dir) events w = (Returned w', con) /\ resting w' m'
    | Prompting => exists h w', kvs_main (KvsArgs.in_dir dir) events w = (Waits (StBitcask (h, w')), con) /\
        open_for 1 h w' m'
    end.
Proof using order_perm history_ok editor_ok.
  intros Hw Hs Hl. set (n := Z.of_nat (length events)) in *.
  destruct (open_startable order order_perm (n + 1) _ w m Hw ltac:(lia) Hs) as (hd & w1 & Hopen & Ho & Hcfg & _).
  assert (greeting new_console = (Ok tt, snd (greeting new_console))) as Hg.
  { unfold greeting. by rewrite editor_ok. }
  destruct (repl_map wrapped add_history_entry history_ok (n + 1) (StBitcask (hd, w1)) m
    (snd (greeting new_console)) events)
    as (session & s' & m' & con & Hr & Hrm & Hh); [by exists (hd, w1)|lia|done|].
  replace (n + 1 - Z.of_nat (length events)) with 1 in Hh by lia. destruct Hh as ([h' w'] & -> & Hh).
  exists session, m', con. split; [done|]. unfold kvs_main, store_open. rewrite Hg.
  cbn [Config.store_type Config.new KvsArgs.store_type KvsArgs.in_dir KvsArgs.default_args].
  rewrite Hopen, Hr. destruct session; [|by exists h', w'].
  destruct (close_store 1 h' w' m' Hh ltac:(lia)) as (h2 & w2 & Hd & Hrest).
  cbn [drop_store]. rewrite Hd. by exists w2.
Qed.

(** C35. What is set stays from run to run: start [kvs] on a new directory or on one
    that stores [m], type anything, leave it with [quit], [exit], Ctrl-D or an error
    of the terminal, start it again, and so on, any number of times. Every run
    prints, line by line, what it would print if all runs worked on one plain map
    in memory, whether merges ran when the program ended or not. *)
Theorem kvs_runs_refine runs w m :
  startable w m -> runs_fit runs w -> fst (kvs_runs runs w) = map_runs runs m.
Proof using order_perm history_ok editor_ok.
  revert w m. induction runs as [|events runs IH]; intros w m Hw Hf; [done|].
  cbn [runs_fit kvs_runs map_runs] in *. destruct Hf as (Hs & Hl & Hf).
  destruct (kvs_main_run events w m Hw Hs Hl) as (session & m' & con & -> & Hrun).
  destruct session.
  - destruct Hrun as (w' & Hk & Hr). rewrite Hk in Hf |- *. cbn [fst] in Hf.
    rewrite <- (IH w' m') by (done || by left). by destruct (kvs_runs runs w').
  - destruct Hrun as (h & w' & -> & _). done.
Qed.

(** Another process has the directory open: the program says so and returns, with
    nothing changed but for an empty lock file if there was none. *)
Lemma kvs_main_locked events w :
  faults w = [] -> LockFile.LOCK_FILE_NAME ∉ others w -> flock w = true ->
  kvs_main (KvsArgs.in_dir dir) events w =
  (Returned (with_lock_file w),
   snd (eprintln (lit "Error opening KvStore: " ++ to_string wrapped StoreLocked) (snd (greeting new_console)))).
Proof using editor_ok.
  intros Hc Ho Hfl. unfold kvs_main, store_open.
  cbn [Config.store_type Config.new KvsArgs.store_type KvsArgs.in_dir KvsArgs.default_args].
  unfold greeting. rewrite editor_ok. cbn [fst snd bind ret].
  assert (Open.open order (Config.new StoreType.Bitcask) w = (Err StoreLocked, with_lock_file w)) as ->; [|done].
  unfold Open.open, create_dir_all, bind at 1. rewrite syscall_calm by done. unfold ret at 1.
  unfold bind. by rewrite acquire_run, Hfl by done.
Qed.
End laws.
End kvs.

(** Three runs: a set, a look at it, and a prompt that is still open. *)
Definition three_runs : list (list Readline) :=
  [[Line (lit "set a 1"); Line (lit "nope"); Line (lit "quit")]; [Line (lit "get a"); Eof];
   [Line (lit "rm a"); Line (lit "rm a")]].

(** The directory that a run leaves. *)
Definition left_world (events : list Readline) (w : World) : World :=
  match fst (kvs_main (Crc := crc32_ieee) (Db := gmap (list byte) (list byte)) (fun l => l) (fun _ w => (inr ∅, w))
    (fun _ w => w) (fun _ => []) (fun _ => None) None None KvsArgs.default_args events w) with
  | Returned w' => w'
  | _ => w
  end.

Ltac fits_here ids bytes :=
  apply (spacious_by _ _ _ ids bytes); [vm_compute; reflexivity|vm_compute; reflexivity|];
  repeat constructor; vm_compute; intuition discriminate.

Ltac lines_small :=
  repeat apply List.Forall_cons; try apply List.Forall_nil; try exact I; intros k v E;
  vm_compute in E; try discriminate; injection E as <- <-; vm_compute; intuition discriminate.

Lemma kvs_runs_refine_witness :
  exists help, snd (print_help (console0 (Some true))) = {| printed := help; logger := Some true |} /\
  fst (kvs_runs (Crc := crc32_ieee) (Db := gmap (list byte) (list byte)) (fun l => l) (fun _ w => (inr ∅, w))
    (fun _ w => w) (fun _ => []) (fun _ => None) None None (lit "kvs/") three_runs empty_world) =
  (fun lines => {| printed := help ++ lines; logger := Some true |}) <$>
    [[Out (lit "SET a = 1"); Logged (lit "Unknown command: nope"); Logged (lit "Type 'help' for available commands.")];
     [Out (lit "1")]; [Out (lit "Removed key: a"); ErrOut (lit "Error: Key not found")]].
Proof.
  eexists. split; [vm_compute; reflexivity|].
  rewrite (kvs_runs_refine (Crc := crc32_ieee) (fun l => l) (fun _ w => (inr ∅, w)) (fun _ w => w) (fun _ => [])
    (fun _ => None) None None (lit "kvs/") (fun l => reflexivity l) (fun _ => eq_refl) eq_refl three_runs empty_world ∅).
  - vm_compute. reflexivity.
  - right. split; [reflexivity|]. split; [intros h; by vm_compute|]. split; [vm_compute; intuition discriminate|].
    split; [split; [reflexivity|]; split; [apply not_elem_of_nil|by left]|]. split; [apply empty_no_store|done].
  - cbn [three_runs runs_fit].
    set (w1 := left_world [Line (lit "set a 1"); Line (lit "nope"); Line (lit "quit")] empty_world).
    set (w2 := left_world [Line (lit "get a"); Eof] w1).
    split; [fits_here ([] : list Z) 0|]. split; [lines_small|].
    match goal with |- match ?r with _ => _ end => assert (r = Returned w1) as -> by (vm_compute; reflexivity) end.
    split; [fits_here [1] 34|]. split; [lines_small|].
    match goal with |- match ?r with _ => _ end => assert (r = Returned w2) as -> by (vm_compute; reflexivity) end.
    split; [fits_here [1] 34|]. split; [lines_small|].
    case_match; exact I.
Defined.

(** ** [kvs-client] *)

(** The command line of [kvs-client]. *)
Module ClientArgs.

Record Args : Type := { addr : list byte }.

Definition default_args : Args := {| addr := lit "127.0.0.1:4000" |}.

End ClientArgs.

Section client.
Context (wrapped : KvsError -> list byte) (debug : Response -> list byte).
Context (add_history_entry : list byte -> option (list byte)) (new_editor : option (list byte)).

(** [TcpStream::connect(args.addr)] has failed with this message, or gives the two
    directions of the connection. *)
Definition client_main (args : ClientArgs.Args) (connect : list byte + Stream * Sink) (events : list Readline)
  : Process (option (Stream * Sink)) (Stream * Sink) * Console :=
  match connect with
  | inl err =>
      (Returned None, snd (eprintln (lit "Error connecting to " ++ ClientArgs.addr args ++ lit ": " ++ err) new_console))
  | inr stream =>
      match ((match new_editor with None => ret tt | Some _ => panic end) ;;! print_help) new_console with
      | (Ok _, con) =>
          match client_repl wrapped debug add_history_entry events (stream, con) with
          | (Ok Prompting, (stream', con')) => (Waits stream', con')
          | (Ok Exited, (stream', con')) => (Returned (Some stream'), con')
          | (_, (stream', con')) => (Panicked (Some stream'), con')
          end
      | (_, con) => (Panicked (Some stream), con)
      end
  end.

(** The requests that a session sends. *)
Definition request_for (c : ReplCommand) : Request :=
  match c with ReplSet k v => RSet k v | ReplGet k => RGet k | ReplRm k => RRm k end.

Fixpoint typed (events : list Readline) : list Request :=
  match events with
  | [] => []
  | ev :: events => if ends ev then [] else option_list (request_for <$> command_for ev) ++ typed events
  end.

Definition typed_frames (events : list Readline) : list (byte * list byte) := request_frame <$> typed events.

(** Lines whose requests fit in a frame. *)
Definition sendable (events : list Readline) : Prop := Forall request_ok (typed events).

Lemma command_not_ends ev c : command_for ev = Some c -> ends ev = false.
Proof using.
  destruct ev as [line| | |]; cbn [command_for ends]; try done. case_decide as Hn; [done|]. intros _.
  apply bool_decide_eq_false. clear -Hn. tauto.
Qed.

Lemma typed_cons ev c events :
  command_for ev = Some c -> typed (ev :: events) = request_for c :: typed events.
Proof using. intros Hc. cbn [typed]. by rewrite (command_not_ends _ _ Hc), Hc. Qed.

(** A request that is answered by the server of the map is printed as the command on
    the map is. *)
Lemma remote_as_local (c : ReplCommand) (m : gmap (list byte) (list byte)) (out : Sink) (con : Console) rest :
  open_sink out -> pending out = [] -> request_ok (request_for c) ->
  response_ok (fst (spec_request (request_for c) m)) ->
  exists out' con',
    run_remote wrapped debug c
      ((cursor_over (wire [response_frame (fst (spec_request (request_for c) m))] ++ rest), out), con) =
      (Ok tt, ((cursor_over rest, out'), con')) /\
    run_local wrapped c (m, con) = (Ok tt, (snd (spec_request (request_for c) m), con')) /\
    open_sink out' /\ pending out' = [] /\
    sent out' = sent out ++ wire [request_frame (request_for c)].
Proof.
  intros Ho Hp Hreq Hresp.
  destruct (call_spec (request_for c) out (Some (fst (spec_request (request_for c) m))) rest Ho Hreq)
    as (out' & Ho' & Hp' & Hs & Hcall); [by intros resp [= <-]|].
  assert (forall f, frame_bytes (fst f) (snd f) = wire [f]) as Hw by (intros f; unfold wire; cbn; by rewrite app_nil_r).
  exists out'. unfold output in Hs. rewrite Hw, Hp, app_nil_r in Hs. rewrite Hs.
  destruct c as [k v|k|k]; cbn [run_remote run_local request_for spec_request fst snd] in *;
    unfold client_set, client_get, client_rm, repl_set, repl_get, repl_rm, mcatch, on_fst; cbn [fst snd];
    rewrite Hcall; cbn [kv_set kv_get kv_remove map_store]; [by eexists|..]; destruct (m !! k); by eexists.
Qed.

Context (history_ok : forall line, add_history_entry line = None).

(** A session of the client whose requests a server of the map [m] has answered. *)
Lemma client_session events m out con :
  sendable events -> values_ok m -> open_sink out -> pending out = [] ->
  exists session out' con',
    client_repl wrapped debug add_history_entry events
      ((cursor_over (wire (response_frame <$> fst (spec_frames (typed_frames events) m))), out), con) =
      (Ok session, ((cursor_over [], out'), con')) /\
    repl wrapped add_history_entry events (m, con) =
      (Ok session, (snd (spec_frames (typed_frames events) m), con')) /\
    sent out' = sent out ++ wire (typed_frames events).
Proof using history_ok.
  intros Hsend Hv Ho Hp.
  set (final := snd (spec_frames (typed_frames events) m)).
  set (total := sent out ++ wire (typed_frames events)).
  destruct (repl_loop_alike (run_remote wrapped debug) (run_local wrapped) add_history_entry history_ok
    (fun evs (s : Stream * Sink) mm =>
       fst s = cursor_over (wire (response_frame <$> fst (spec_frames (typed_frames evs) mm))) /\
       open_sink (snd s) /\ pending (snd s) = [] /\ values_ok mm /\ sendable evs /\
       sent (snd s) ++ wire (typed_frames evs) = total /\ snd (spec_frames (typed_frames evs) mm) = final))
    with (events := events) (con := con) (b := m)
      (a := (cursor_over (wire (response_frame <$> fst (spec_frames (typed_frames events) m))), out))
    as (session & [st' out'] & m' & con' & rest & Hr1 & Hr2 & HR & Hend).
  - intros ev evs c [st sk] mm con1 (E & Hsk & Hpk & Hvm & Hsn & Ht & Hf) Hc. cbn [fst snd] in *. subst st.
    unfold sendable, typed_frames in *. rewrite (typed_cons _ _ _ Hc) in *. apply Forall_cons in Hsn as [Hq Hsn].
    cbn [fmap list_fmap spec_frames] in *. unfold spec_frame in *. rewrite (decode_request_frame _ Hq) in *.
    destruct (values_ok_request mm (request_for c) Hvm) as [Hvm' Hresp].
    { intros k v E. rewrite E in Hq. destruct Hq as [[_ Hu] Hl]. cbn [request_frame snd] in Hl.
      rewrite !blen_app in Hl. pose proof (blen_nonneg k). pose proof (blen_nonneg (u32_to_le_bytes (as_u32 (blen k)))).
      split; [done|lia]. }
    destruct (remote_as_local c mm sk con1 (wire (response_frame <$>
      fst (spec_frames (request_frame <$> typed evs) (snd (spec_request (request_for c) mm)))))
      Hsk Hpk Hq Hresp) as (sk' & con' & H1 & H2 & H3 & H4 & H5).
    destruct (spec_request (request_for c) mm) as [r mm'] eqn:Er. cbn [fst snd] in *.
    destruct (spec_frames (request_frame <$> typed evs) mm') as [rs mf] eqn:Ef. cbn [fst snd] in *.
    eexists (_, sk'), mm', con'. cbn [fst snd].
    assert (forall f fs, wire (f :: fs) = wire [f] ++ wire fs) as Hw.
    { intros f fs. unfold wire. cbn [fmap list_fmap concat]. by rewrite app_nil_r. }
    split; [cbn [fmap list_fmap]; rewrite Hw; exact H1|]. split_and!; try done; [by rewrite Ef| |by rewrite Ef].
    by rewrite H5, <- app_assoc, <- Hw.
  - intros ev evs [st sk] mm Hne Hc. unfold sendable, typed_frames. cbn [typed]. by rewrite Hne, Hc.
  - by cbn [fst snd].
  - assert (typed rest = []) as Et.
    { destruct session; [|by subst rest]. destruct Hend as (ev & rest' & -> & He). cbn [typed]. by rewrite He. }
    destruct HR as (E & _ & _ & _ & _ & Ht & Hf). cbn [fst snd] in *. unfold typed_frames in E, Ht, Hf.
    rewrite Et in *. cbn [fmap list_fmap spec_frames fst snd] in *. subst st' m'.
    exists session, out', con'. split_and!; [exact Hr1|exact Hr2|]. fold total. rewrite <- Ht. change (wire []) with (@nil byte). by rewrite app_nil_r.
Qed.

(** C37. The commands are the same locally and over the network: a session of
    [kvs-client] with a server that serves any store of the interface. The bytes
    that the client sends are the bytes the server's [handle] reads, and what
    [handle] answers is what the client reads; [handle] returns [Ok(())], and what
    the client prints, line by line, is what [kvs] prints for the same lines on a
    plain map with the contents of the store, which ends storing what the map ends
    as. *)
Theorem client_as_local `{KvStoreLaws St} buffer_empty n (s : St) m out cout events con :
  kv_holds n s m -> Z.of_nat (length (typed events)) <= n -> values_ok m -> sendable events ->
  open_sink out -> output out = [] -> open_sink cout -> output cout = [] ->
  exists session s' m' con' server_out client_out,
    handle buffer_empty wrapped (s, (cursor_over (sent client_out), out)) =
      (Ok tt, (s', (cursor_over [], server_out))) /\
    client_repl wrapped debug add_history_entry events ((cursor_over (sent server_out), cout), con) =
      (Ok session, ((cursor_over [], client_out), con')) /\
    repl wrapped add_history_entry events (m, con) = (Ok session, (m', con')) /\
    kv_holds (n - Z.of_nat (length (typed events))) s' m'.
Proof using history_ok.
  intros Hh Hn Hv Hs Ho [He Hp]%app_eq_nil Hco [Hce Hcp]%app_eq_nil.
  destruct (client_session events m cout con Hs Hv Hco Hcp) as (session & client_out & con' & Hc & Hl & Hsent).
  assert (length (typed_frames events) = length (typed events)) as Hlen by apply length_fmap.
  destruct (handle_wire buffer_empty wrapped (typed_frames events) n s m out) as (s' & server_out & Hrun & Hh' & Hso);
    try done; [|by rewrite Hlen|].
  { apply Forall_fmap. eapply Forall_impl; [exact Hs|]. intros req [_ Hl']. split; [done|]. by destruct req. }
  rewrite Hce in Hsent. rewrite He in Hso. rewrite Hlen in Hh'.
  exists session, s', (snd (spec_frames (typed_frames events) m)), con', server_out, client_out.
  rewrite Hsent, Hso. by split_and!.
Qed.
End client.

(** [kvs-client] installs no logger: for a line that is no command it prints nothing,
    where [kvs] says what is wrong. *)
Lemma client_says_nothing line printed :
  let con := {| printed := printed; logger := None |} in
  parse_command line con = (Ok (command_of_line line), con).
Proof.
  unfold command_of_line, parse_command. destruct (split_whitespace line) as [|command parts]; [done|].
  repeat case_decide; by destruct parts as [|key [|value parts]].
Qed.

Lemma kvs_says_usage printed :
  parse_command (lit "set k") {| printed := printed; logger := Some true |} =
  (Ok None, {| printed := printed ++ [Logged (lit "Usage: set <KEY> <VALUE>")]; logger := Some true |}).
Proof. done. Qed.

(** The server's side of a connection, a [BufWriter]. *)
Definition buffered_sink : Sink := {| capacity := 8192; sent := []; pending := []; Protocol.budget := None |}.

Lemma client_as_local_witness :
  exists s' server_out client_out,
    handle (H := bitcask_store (Crc := crc32_ieee)) (fun _ => true) (fun _ => [])
      (served, (cursor_over (sent client_out), buffered_sink)) = (Ok tt, (s', (cursor_over [], server_out))) /\
    client_repl (fun _ => []) (fun _ => []) (fun _ => None)
      [Line (lit "set k v"); Line (lit "nope"); Line (lit "get k"); Interrupted; Line (lit "rm x"); Line (lit "quit")]
      ((cursor_over (sent server_out), tcp_sink), new_console) =
    (Ok Exited, ((cursor_over [], client_out),
      {| printed := [Out (lit "SET k = v"); Out (lit "v"); Out (lit "^C"); ErrOut (lit "Error: Key not found")];
         logger := None |})).
Proof.
  destruct (client_as_local (H0 := bitcask_laws (Crc := crc32_ieee)) (fun _ => []) (fun _ => []) (fun _ => None)
    (fun _ => eq_refl) (fun _ => true) 100 served ∅ buffered_sink tcp_sink
    [Line (lit "set k v"); Line (lit "nope"); Line (lit "get k"); Interrupted; Line (lit "rm x"); Line (lit "quit")]
    new_console) as (session & s' & m' & con' & server_out & client_out & Hs & Hc & Hl & _).
  - apply served_holds.
  - vm_compute. discriminate.
  - apply map_Forall_empty.
  - unfold sendable. repeat constructor; vm_compute; intuition discriminate.
  - split; [reflexivity|vm_compute; discriminate].
  - reflexivity.
  - apply tcp_sink_open.
  - reflexivity.
  - exists s', server_out, client_out. split; [exact Hs|]. rewrite Hc.
    pose proof (f_equal fst Hl) as E1. pose proof (f_equal (fun x => snd (snd x)) Hl) as E2.
    clear Hl Hc Hs. vm_compute in E1, E2. injection E1 as <-. by rewrite <- E2.
Defined.
