(* ===== verification/ServerMain.v ===== *)
(** * The server program

    [main] of src/bin/kvs-server.rs: it opens the store of the engine that its
    arguments name, binds the address and starts a thread for every connection it
    accepts, until accepting fails. The arguments, and the results of the system
    calls (bind, accept, the peer's address, the new thread), are inputs; the
    connections are those of Connections.v. *)

From Stdlib Require Import ZArith Lia Strings.Byte.
From stdpp Require Import base numbers list strings gmap.
From S2P Require Import Prelude Bytes Crc Streams Text Config FileSystem Lock Engine Load Merge System Inv EngineProofs Durability FirstOpen MergeState Interference Phases SystemProofs SystemTheorems Cut Closing KvStore Protocol Resp Server Threads Connections Programs.
Import System.
Import Protocol Resp.
Import SledStore(SledDb, SledDbLaws).

Local Open Scope Z_scope.

(** The command line; the directory is the one the [World] is of, and the result of
    binding the address is an input. *)
Module ServerArgs.

Record Args : Type := {
  addr : list byte;
  dir : list byte;
  store_type : StoreType.StoreType
}.

Definition default_args : Args :=
  {| addr := lit "127.0.0.1:4000"; dir := lit "kvs/"; store_type := StoreType.Bitcask |}.

End ServerArgs.

(** What [listener.incoming()] gives next: an error, or a connection, with the
    results of [peer_addr] and of [spawn] for it. *)
Inductive Incoming : Type :=
| AcceptFailed (kind : ErrorKind)
| Connected (tid : nat) (stream : Stream) (sink : Sink) (peer_addr : ErrorKind + list byte)
    (spawned : option ErrorKind).

(** A turn of the loop in [main]. *)
Definition take_connection {St} (i : Incoming) : M (Server St) unit :=
  match i with
  | AcceptFailed kind => throw (Io kind)
  | Connected tid stream sink peer_addr spawned =>
      match peer_addr with
      | inl kind => throw (Io kind)
      | inr _ =>
          match spawned with
          | Some kind => throw (Io kind)
          | None => modify (fun s => set_conn s (store s) tid
                      {| rx := stream; tx := sink; status := Fresh; served := [] |})
          end
      end
  end.

(** [main] waits for the next connection, or it has returned an error and the
    process is gone, with the store and the connections as they were. *)
Inductive ServerProcess (St : Type) : Type :=
| Listening (s : Server St)
| Ended (e : KvsError) (s : Server St).
Arguments Listening {St} s.
Arguments Ended {St} e s.

Definition server_of {St} (p : ServerProcess St) : Server St := match p with Listening s | Ended _ s => s end.

(** A step of the process: of [main], or of a connection's thread or the merge's. *)
Inductive MStep : Type :=
| Next (i : Incoming)
| Step (a : SAction).

Section main.
Context (buffer_empty : Stream -> bool) (wrapped : KvsError -> list byte).
Context {St : Type} `{!ThreadedStore St}.

Definition main_act (x : MStep) (p : ServerProcess St) : option (list Action * list Event * ServerProcess St) :=
  match p, x with
  | Ended _ _, _ => None
  | Listening s, Next i =>
      (* a new thread has a new id *)
      if match i with Connected tid _ _ _ _ => bool_decide (is_Some (conns s !! tid)) | _ => false end then None
      else
        match take_connection i s with
        | (Ok _, s') => Some ([], [], Listening s')
        | (Err e, s') => Some ([], [], Ended e s')
        | (Panic, _) => None
        end
  | Listening _, Step (Accept _ _ _) => None
  | Listening s, Step a =>
      (fun '(acts, es, s') => (acts, es, Listening s')) <$> server_act buffer_empty wrapped a s
  end.

Fixpoint main_run (l : list MStep) (p : ServerProcess St) : option (list Action * list Event * ServerProcess St) :=
  match l with
  | [] => Some ([], [], p)
  | x :: l =>
      match main_act x p with
      | None => None
      | Some (acts, es, p') =>
          match main_run l p' with
          | None => None
          | Some (acts', es', p'') => Some (acts ++ acts', es ++ es', p'')
          end
      end
  end.

(** ** A run of [main] is a run of the server *)

(** The action of the server in a step of the process. *)
Definition step_action (x : MStep) : option SAction :=
  match x with
  | Next (Connected tid stream sink (inr _) None) => Some (Accept tid stream sink)
  | Next _ | Step (Accept _ _ _) => None
  | Step a => Some a
  end.

(** The error that ends [main]. *)
Definition step_error (x : MStep) : option KvsError :=
  match x with
  | Next (AcceptFailed k) | Next (Connected _ _ _ (inl k) _) | Next (Connected _ _ _ (inr _) (Some k)) => Some (Io k)
  | _ => None
  end.

Lemma main_act_server x p acts es p' :
  main_act x p = Some (acts, es, p') ->
  server_run buffer_empty wrapped (option_list (step_action x)) (server_of p) = Some (acts, es, server_of p') /\
  exists s, p = Listening s /\ match p' with Ended e _ => step_error x = Some e | Listening _ => step_error x = None end.
Proof.
  destruct p as [s|e s]; cbn [main_act]; [|done]. destruct x as [[k|tid st sk [k|peer] [k'|]]|a];
    cbn [take_connection step_action option_list step_error server_of].
  - intros [= <- <- <-]. split; [done|]. by exists s.
  - case_bool_decide; [done|]. intros [= <- <- <-]. split; [done|]. by exists s.
  - case_bool_decide; [done|]. intros [= <- <- <-]. split; [done|]. by exists s.
  - case_bool_decide; [done|]. intros [= <- <- <-]. split; [done|]. by exists s.
  - case_bool_decide as Hc; [done|]. intros [= <- <- <-]. split; [|by exists s].
    change (option_list (Some (Accept tid st sk))) with [Accept tid st sk]. cbn [server_run server_act].
    destruct (conns s !! tid) eqn:Ec; [by destruct Hc|done].
  - assert (forall a, (fun '(acts, es, s') => (acts, es, Listening s')) <$> server_act buffer_empty wrapped a s =
      Some (acts, es, p') -> server_run buffer_empty wrapped [a] s = Some (acts, es, server_of p') /\
      exists s1, p' = Listening s1) as Hother.
    { intros b. cbn [server_run]. destruct (server_act buffer_empty wrapped b s) as [[[acts1 es1] s1]|]; [|done].
      cbn. intros [= <- <- <-]. rewrite !app_nil_r. split; [done|by exists s1]. }
    destruct a as [|tid|tid|tid|]; [done|..]; intros [H (s1 & ->)]%Hother; (split; [exact H|by exists s]).
Qed.

Lemma server_run_app l1 l2 s acts1 es1 s1 acts2 es2 s2 :
  server_run buffer_empty wrapped l1 s = Some (acts1, es1, s1) ->
  server_run buffer_empty wrapped l2 s1 = Some (acts2, es2, s2) ->
  server_run buffer_empty wrapped (l1 ++ l2) s = Some (acts1 ++ acts2, es1 ++ es2, s2).
Proof.
  revert s acts1 es1. induction l1 as [|a l1 IH]; intros s acts1 es1 H1 H2; cbn [server_run app] in *.
  { by injection H1 as <- <- <-. }
  destruct (server_act buffer_empty wrapped a s) as [[[acts es] s']|]; [|done].
  destruct (server_run buffer_empty wrapped l1 s') as [[[acts' es'] s'']|] eqn:E; [|done].
  injection H1 as <- <- <-. by rewrite (IH _ _ _ E H2), !app_assoc.
Qed.

(** A run of [main] is a run of the server, and [main] ends with the first error. *)
Lemma main_run_server l p acts es p' :
  main_run l p = Some (acts, es, p') ->
  server_run buffer_empty wrapped (omap step_action l) (server_of p) = Some (acts, es, server_of p') /\
  (forall s, p = Listening s ->
     match p' with
     | Ended e _ => exists l' x, l = l' ++ [x] /\ Forall (fun x => step_error x = None) l' /\ step_error x = Some e
     | Listening _ => Forall (fun x => step_error x = None) l
     end).
Proof.
  revert p acts es. induction l as [|x l IH]; intros p acts es Hrun; cbn [main_run] in Hrun.
  { injection Hrun as <- <- <-. split; [done|]. by intros s ->. }
  destruct (main_act x p) as [[[acts1 es1] p1]|] eqn:Ea; [|done].
  destruct (main_run l p1) as [[[acts2 es2] p2]|] eqn:Er; [|done]. injection Hrun as <- <- <-.
  destruct (main_act_server _ _ _ _ _ Ea) as [Hs (s & -> & Hx)]. destruct (IH _ _ _ Er) as [Hs' Hp].
  split.
  - replace (omap step_action (x :: l)) with (option_list (step_action x) ++ omap step_action l)
      by by cbn; destruct (step_action x). by eapply server_run_app.
  - intros _ _. destruct p1 as [s1|e s1].
    + specialize (Hp s1 eq_refl). destruct p2; [by constructor|].
      destruct Hp as (l' & y & -> & Hl & Hy). exists (x :: l'), y. by split_and!; [|constructor|].
    + destruct l as [|y l]; [|done]. injection Er as <- <- <-. by exists [], x.
Qed.

End main.

(** ** The start of the program *)

Section boot.
Context (buffer_empty : Stream -> bool) (wrapped : KvsError -> list byte).
Context `{Crc : Crc32} {Db : Type} `{!SledDb Db}.
Context (order : list Name -> list Name) (db_open : option Z -> World -> (SledStore.SledError + Db) * World).
Context (db_drop : Db -> World -> World).

(** The store that is opened, before any thread uses it. *)
Definition share (s : Store (Bitcask.Handle * World) (SledStore.SledStore Db)) : Store Sys (SledSys Db) :=
  match s with
  | StBitcask (h, w) => StBitcask (booted h w)
  | StSled s => StSled (sled_booted s)
  end.

(** [main] up to its loop; the result of [bind]. *)
Definition server_boot (args : ServerArgs.Args) (bind : option ErrorKind) (w : World)
  : outcome (ServerProcess (Store Sys (SledSys Db))) * World :=
  match store_open order db_open (Config.new (ServerArgs.store_type args)) w with
  | (Ok s, w') =>
      match bind with
      | None => (Ok (Listening (listening (share s))), w')
      | Some kind => (Err (Io kind), drop_store db_drop s w')
      end
  | (Err e, w') => (Err e, w')
  | (Panic, w') => (Panic, w')
  end.

(** ** The promise of the program *)

Context `{!SledDbLaws Db} (order_perm : forall l, order l ≡ₚ l).

(** A directory that the server can be started on and that has [m]: for Bitcask one
    that stores [m] or a new one, for sled one that nobody holds, of no other engine,
    in which the database finds [m]. *)
Definition servable (args : ServerArgs.Args) (w : World) (m : gmap (list byte) (list byte)) : Prop :=
  match ServerArgs.store_type args with
  | StoreType.Bitcask => startable w m /\ spacious 1 (Config.new StoreType.Bitcask) w
  | StoreType.Sled =>
      faults w = [] /\ flock w = false /\ (LockFile.LOCK_FILE_NAME ∉ others w) /\
      utf8_valid (marker w) = true /\ trim (marker w) ∈ [[]; StoreType.as_str StoreType.Sled] /\
      map_Forall (fun _ v => utf8_valid v = true) m /\
      forall w1, exists d w2, db_open None w1 = (inr d, w2) /\ SledStore.db_map d = m
  end.

(** What the process leaves when it is gone: the directory, or the database. *)
Definition left_behind (s : Store Sys (SledSys Db)) (m : gmap (list byte) (list byte)) : Prop :=
  match s with
  | StBitcask s => resting (set_flock (world s) false) m
  | StSled s => sled_holds (sled s) m
  end.

(** Opening the store over sled. *)
Lemma sled_opens w m :
  servable {| ServerArgs.addr := []; ServerArgs.dir := []; ServerArgs.store_type := StoreType.Sled |} w m ->
  exists s w', SledStore.open db_open (Config.new StoreType.Sled) w = (Ok s, w') /\ sled_holds s m.
Proof.
  intros (Hf & Hl & Ho & Hu & Hm & Ht & Hdb). unfold SledStore.open, bind at 1, create_dir_all, syscall.
  rewrite Hf. unfold ret. unfold bind. rewrite acquire_run, Hl, Hu by done.
  assert (forall w1, exists s w2, match db_open (SledStore.flush_every_ms (Config.new StoreType.Sled)) w1 with
    | (inl e, w') => (Err (SledStore.from_error e), set_flock w' false)
    | (inr d, w') => (Ok {| SledStore.db := d; SledStore.sync_every_put := false |}, w')
    end = (Ok s, w2) /\ sled_holds s m) as Hop.
  { intros w1. destruct (Hdb w1) as (d & w2 & Hd & Hmd).
    change (SledStore.flush_every_ms (Config.new StoreType.Sled)) with (@None Z). rewrite Hd.
    eexists _, _. split; [reflexivity|]. by split. }
  case_decide as E; [apply Hop|]. rewrite !elem_of_cons in Hm. destruct Hm as [Hm|[Hm|Hm%not_elem_of_nil]]; [done| |done].
  rewrite decide_True by done. apply Hop.
Qed.

(** Starting: the store comes up and stands where the map does. *)
Lemma server_boots args w m :
  servable args w m ->
  exists s0 w', server_boot args None w = (Ok (Listening (listening s0)), w') /\ follows s0 (idle_map m).
Proof using order_perm.
  unfold servable, server_boot, store_open. cbn [Config.store_type Config.new].
  destruct (ServerArgs.store_type args) eqn:Et; cbn [Config.store_type Config.new].
  - intros [Hw Hs].
    destruct (open_startable order order_perm 1 _ w m Hw ltac:(lia) Hs) as (hd & w1 & -> & Ho & Hcfg & _).
    eexists _, _. split; [reflexivity|]. apply ready_sim.
    destruct Ho as (front & cur & cmds & He & Hx & _ & _ & Hm). exists front, cur, cmds.
    split_and!; try done; [by eapply handles_exact_good|]. by rewrite Hcfg.
  - intros Hw. destruct (sled_opens w m) as (s & w' & -> & Hh); [exact Hw|].
    eexists _, _. split; [reflexivity|]. split; [exact Hh|]. intros tid. cbn. rewrite !lookup_empty. constructor.
Qed.

(** Whatever the threads are at, what the map has is there for the next process. *)
Lemma follows_left s sp : follows s sp -> left_behind s (Spec.map sp).
Proof.
  destruct s as [s|s]; cbn [follows store_threaded_laws left_behind].
  - intros (base & t & mi & [Hph _ Hv _ _ _]). apply phase_lagging in Hph as [[iv He] _ _].
    apply engine_rests in He. rewrite <- log_of_eq, Hv in He. exact He.
  - by intros [Hh _].
Qed.

(** C31. The server program, with either engine, on a new directory or on one that
    has [m]: it comes up, and in every run of it, with any number of clients of both
    protocols that are served at the same time (while Bitcask merges), what the
    connections do to the store is a run of the map specification, and every
    connection is one that [main] accepted, reads its frames in order, calls the
    store exactly for the requests among them and has written exactly the answers to
    them. [main] goes on until the first error of accepting, of the peer's address or
    of the new thread, which it returns. When the process has gone, by that error or
    by a kill at any moment, the directory (for sled, the database) has everything
    that took effect, for the next run. *)
Theorem server_main_refines args w m :
  servable args w m ->
  exists s0 w', server_boot args None w = (Ok (Listening (listening s0)), w') /\
  forall l acts es p, main_run buffer_empty wrapped l (Listening (listening s0)) = Some (acts, es, p) ->
    bounded_run acts s0 ->
    (exists sp, Spec.run (idle_map m) es sp /\ left_behind (store (server_of p)) (Spec.map sp)) /\
    (forall tid c, conns (server_of p) !! tid = Some c -> exists stream sink peer,
       Next (Connected tid stream sink (inr peer) None) ∈ l /\
       conn_ok buffer_empty wrapped stream sink c (calls tid es) (returns tid es)) /\
    match p with
    | Ended e _ => exists l' x, l = l' ++ [x] /\ Forall (fun x => step_error x = None) l' /\ step_error x = Some e
    | Listening _ => Forall (fun x => step_error x = None) l
    end.
Proof using order_perm.
  intros Hw. destruct (server_boots args w m Hw) as (s0 & w' & Hb & Hf). exists s0, w'. split; [exact Hb|].
  intros l acts es p Hrun Hin. destruct (main_run_server _ _ _ _ _ _ _ Hrun) as [Hsr Hend]. cbn [server_of] in Hsr.
  destruct (server_refines buffer_empty wrapped _ s0 m acts es (server_of p) Hf Hsr Hin) as [(sp & Hsp & Hl) Hconn].
  split_and!; [exists sp; split; [done|by apply follows_left]| |by eapply Hend].
  intros tid c Hc. destruct (Hconn tid c Hc) as (st & sk & Hacc & Hok).
  apply list_elem_of_omap in Hacc as (x & Hx & Ex).
  assert (exists peer, x = Next (Connected tid st sk (inr peer) None)) as [peer ->].
  { destruct x as [[k|tid' st' sk' [k|peer] [k'|]]|[]]; try done. injection Ex as -> -> ->. by exists peer. }
  by exists st, sk, peer.
Qed.

End boot.

(** ** A concrete run *)

#[local] Existing Instance crc32_ieee.

(** A client of each protocol is served; then a third one has gone when its address
    is asked for. *)
Definition three_clients : list MStep :=
  [Next (Connected 1 custom_client tcp_sink (inr (lit "a")) None);
   Next (Connected 2 redis_client tcp_sink (inr (lit "b")) None)] ++
  (Step <$> [Serve 1; Serve 2; Serve 1; Work 1; Serve 2; Work 1; Work 2; Reply 1; Work 2; Reply 2]) ++
  [Next (Connected 3 (cursor_over []) tcp_sink (inl Other) None)].

Abbreviation MapDb := (gmap (list byte) (list byte)).

Definition booted_server : outcome (ServerProcess (Store Sys (SledSys MapDb))) * World :=
  server_boot (fun l => l) (fun _ w => (inr ∅, w)) (fun _ w => w) ServerArgs.default_args None empty_world.

Definition three_served (s0 : Store Sys (SledSys MapDb))
  : option (list Action * list Event * ServerProcess (Store Sys (SledSys MapDb))) :=
  main_run (fun _ => true) (fun _ => []) three_clients (Listening (listening s0)).

Lemma three_served_state :
  match booted_server with
  | (Ok (Listening s), _) =>
      match three_served (store s), store s with
      | Some (acts, es, Ended e s'), StBitcask sys =>
          in_range acts sys /\ e = Io Other /\ (sent ∘ tx <$> conns s' !! 2%nat) = Some (bulk (lit "1"))
      | _, _ => False
      end
  | _ => False
  end.
Proof. vm_compute. intuition discriminate. Qed.

Lemma bounded_run_bitcask acts (s : Sys) :
  in_range acts s -> bounded_run (St := Store Sys (SledSys MapDb)) acts (StBitcask s).
Proof.
  revert s. induction acts as [|a acts IH]; intros s Hin; [done|]. cbn [in_range bounded_run] in *.
  destruct Hin as (Hr & Hf & Hin). split; [by split|]. cbn [act_on store_threaded sys_threaded].
  destruct (act a s) as [[e s1]|]; [by apply IH|done].
Qed.

Lemma empty_servable :
  servable (Db := MapDb) (fun _ w => (inr ∅, w)) ServerArgs.default_args empty_world ∅.
Proof.
  split.
  - right. split; [reflexivity|]. split; [intros h; by vm_compute|]. split; [vm_compute; intuition discriminate|].
    split; [split; [reflexivity|]; split; [apply not_elem_of_nil|by left]|]. split; [apply empty_no_store|done].
  - apply (spacious_by _ _ _ [] 0); [vm_compute; reflexivity|vm_compute; reflexivity|].
    repeat constructor; vm_compute; intuition discriminate.
Qed.

Lemma server_main_refines_witness :
  exists s0 w' acts es e s sp, booted_server = (Ok (Listening (listening s0)), w') /\
    three_served s0 = Some (acts, es, Ended e s) /\ Spec.run (idle_map ∅) es sp /\
    left_behind (store s) (Spec.map sp) /\ e = Io Other.
Proof.
  destruct (server_main_refines (fun _ => true) (fun _ => []) (fun l => l) (fun _ w => (inr ∅, w)) (fun _ w => w)
    (fun l => reflexivity l) ServerArgs.default_args empty_world ∅ empty_servable) as (s0 & w' & Hb & Hall).
  pose proof three_served_state as Hst. unfold booted_server in Hst |- *. rewrite Hb in Hst |- *. cbn [listening store] in Hst.
  destruct (three_served s0) as [[[acts es] [s|e s]]|] eqn:Er; [destruct Hst| |destruct Hst].
  destruct s0 as [sys|sl]; [|destruct Hst]. destruct Hst as (Hin & He & _).
  destruct (Hall _ _ _ _ Er (bounded_run_bitcask _ _ Hin)) as ((sp & Hsp & Hrest) & _ & _).
  exists (StBitcask sys), w', acts, es, e, s, sp. split; [reflexivity|]. split; [exact Er|].
  split; [exact Hsp|]. split; [exact Hrest|exact He].
Defined.
