(* ===== verification/ClientServer.v ===== *)
(** * Clients of a running server

    [kvs-client] and [kvs-server] together: one client among any number of others,
    over the bytes of the wire, on a store that all of them use. What it prints is
    what [kvs] prints for the same lines when the calls of the store have the results
    that the calls of the connection had, and those are the results of the
    specification of System.v. *)

From Stdlib Require Import ZArith Lia Strings.Byte.
From stdpp Require Import base numbers list strings gmap.
From S2P Require Import Prelude Bytes Crc Streams Text Config FileSystem Lock Engine System EngineProofs SystemProofs SystemTheorems KvStore Protocol Resp Server Threads Connections Repl Programs ServerMain.
Import System.
Import Protocol Resp.
Import SledStore(SledDb, SledDbLaws).

Local Open Scope Z_scope.

(** ** The results of a thread *)

(** The results that a call can have, with values that fit in a frame. *)
Definition res_of (op : Op) (r : Res) : Prop :=
  match op, r with
  | OSet _ _, System.RUnit (Ok _) => True
  | OGet _, System.RGet (Ok v) => from_option (fun v => response_ok (RValue v)) True v
  | ORemove _, System.RUnit (Ok _ | Err KeyNotFound) => True
  | _, _ => False
  end.

(** Values that clients write are within the limit of a frame. *)
Definition small_writes (es : list Event) : Prop :=
  forall t k v, Call t (OSet k v) ∈ es -> response_ok (RValue v).

(** The calls of a thread with their results, and the call under way. *)
Definition results_ok (sp : Spec.State) (t : nat) (cs : list Op) (rs : list Res) : Prop :=
  match Spec.threads sp !! t with
  | None => Forall2 res_of cs rs
  | Some th => exists cs' op, cs = cs' ++ [op] /\ Forall2 res_of cs' rs /\
      match th with
      | Spec.Pending op' => op = op'
      | Spec.Removing k => op = ORemove k
      | Spec.Done r => res_of op r
      end
  end.

Definition small_spec (sp : Spec.State) : Prop :=
  map_Forall (fun _ v => response_ok (RValue v)) (Spec.map sp) /\
  forall t k v, Spec.threads sp !! t = Some (Spec.Pending (OSet k v)) -> response_ok (RValue v).

Lemma small_spec_step sp e sp' :
  Spec.step sp e sp' -> (forall t k v, e = Some (Call t (OSet k v)) -> response_ok (RValue v)) ->
  small_spec sp -> small_spec sp'.
Proof.
  intros Hstep Hcall [Hm Hp].
  destruct Hstep; cbn [Spec.map Spec.threads] in *; (split; cbn [Spec.map Spec.threads];
    [try done|intros t' k1 v1; rewrite ?lookup_insert, ?lookup_delete; case_decide; try done; try apply Hp]).
  - intros [= ->]. by eapply Hcall.
  - apply map_Forall_insert_2; [by eapply Hp|done].
  - by apply map_Forall_delete.
Qed.

(** The thread that an event is of. *)
Definition thread_of (e : option Event) : option nat :=
  match e with Some (Call t _) | Some (Ret t _) => Some t | None => None end.

Lemma results_ok_step t sp e sp' cs rs :
  Spec.step sp e sp' -> small_spec sp -> results_ok sp t cs rs ->
  results_ok sp' t (cs ++ calls t (option_list e)) (rs ++ returns t (option_list e)).
Proof.
  intros Hstep [Hm _] Hok. unfold results_ok in *.
  assert (forall e, thread_of e <> Some t ->
    cs ++ calls t (option_list e) = cs /\ rs ++ returns t (option_list e) = rs) as Hother.
  { intros [[t' op|t' r]|] Hne; cbn in *; [rewrite decide_False by congruence..|]; by rewrite !app_nil_r. }
  destruct (decide (thread_of e = Some t)) as [He|He].
  - destruct Hstep as [m ts t' op E| | | | | |m ts t' r E]; cbn [Spec.threads option_list thread_of] in *; try done; injection He as ->;
      unfold calls, returns, option_list; cbn [option_rect omap list_omap call_of return_of]; rewrite decide_True by done; rewrite ?app_nil_r.
    + rewrite E in Hok. rewrite lookup_insert_eq. by exists cs, op.
    + rewrite E in Hok. rewrite lookup_delete_eq. destruct Hok as (cs' & op & -> & Hall & Hr).
      apply Forall2_app; [done|]. by constructor.
  - destruct (Hother e He) as [-> ->].
    destruct Hstep as [m ts t' op E|m ts t' k v E|m ts t' k E|m ts t' k E Hk|m ts t' k E Hk|m ts t' k E|m ts t' r E];
      cbn [Spec.threads] in *; rewrite ?lookup_insert, ?lookup_delete; case_decide as Et; try done; subst t'; try (by destruct He);
      rewrite E in Hok; destruct Hok as (cs' & op & -> & Hall & Hop); exists cs', op; (split; [done|]); (split; [done|]);
      subst op; cbn [res_of]; try done.
    destruct (m !! k) as [v|] eqn:Ek; cbn; [by apply (Hm k)|done].
Qed.

(** In a run of the specification, the returns of a thread are results of its calls. *)
Lemma results_ok_run t sp es sp' cs rs :
  Spec.run sp es sp' -> small_writes es -> small_spec sp -> results_ok sp t cs rs ->
  results_ok sp' t (cs ++ calls t es) (rs ++ returns t es).
Proof.
  intros Hrun. revert cs rs. induction Hrun as [|s1 s2 s3 es H1 _ IH|s1 s2 s3 e es H1 _ IH]; intros cs rs Hw Hs Hok.
  - by rewrite !app_nil_r.
  - apply IH; [done|by eapply small_spec_step|]. pose proof (results_ok_step t _ _ _ _ _ H1 Hs Hok) as H2.
    unfold calls at 1, returns at 1, option_list in H2. cbn [option_rect omap list_omap] in H2. by rewrite !app_nil_r in H2.
  - assert (small_spec s2) as Hs2.
    { eapply small_spec_step; [exact H1| |exact Hs]. intros t' k v [= ->]. apply (Hw t' k). left. }
    change (e :: es) with ([e] ++ es). unfold calls, returns in *. rewrite !omap_app, !app_assoc.
    apply IH; [intros t' k v Hin; apply (Hw t' k v); by right|done|]. exact (results_ok_step t _ _ _ _ _ H1 Hs Hok).
Qed.

(** ** What a connection of [kvs-client] reads and writes *)

Definition custom (f : byte * list byte) : Frame := Custom (fst f) (snd f).

Lemma wire_cons f fs : wire (f :: fs) = frame_bytes (fst f) (snd f) ++ wire fs.
Proof. done. Qed.

Lemma receive_wire f fs :
  blen (snd f) <= MAX_PAYLOAD ->
  receive WCustom (cursor_over (wire (f :: fs))) = (Ok (Some (custom f)), cursor_over (wire fs)).
Proof. intros Hl. unfold receive, bind, cursor_over. rewrite wire_cons, read_frame_bytes by done. done. Qed.

(** The frames are those that were sent, in order. *)
Lemma reads_wire fs served s1 :
  Forall (fun f => blen (snd f) <= MAX_PAYLOAD) fs -> reads WCustom (cursor_over (wire fs)) served s1 ->
  exists fs1 fs2, fs = fs1 ++ fs2 /\ served.*1 = custom <$> fs1 /\ s1 = cursor_over (wire fs2).
Proof.
  intros Hl. remember (cursor_over (wire fs)) as s0 eqn:E. induction 1 as [s|s served s1 f s2 _ IH Hrc]; subst s.
  { by exists [], fs. }
  destruct (IH eq_refl) as (fs1 & fs2 & -> & Hs & ->). destruct fs2 as [|g fs2].
  { by vm_compute in Hrc. }
  apply Forall_app in Hl as [_ [Hg _]%Forall_cons]. rewrite receive_wire in Hrc by done. injection Hrc as <- <-.
  exists (fs1 ++ [g]), fs2. rewrite <- app_assoc. split_and!; [done| |done]. by rewrite !fmap_app, Hs.
Qed.

(** The response to a result. *)
Definition answer_of (r : Res) : Response := default ROk (response_of r).

Lemma response_of_res op r :
  res_of op r -> response_of r = Some (answer_of r) /\ response_ok (answer_of r).
Proof.
  destruct op as [k v|k|k], r as [[u|e|]|[[w|]|e|]]; cbn; try done.
Qed.

(** The answers to requests. *)
Lemma script_wire buffer_empty wrapped reqs served rs t0 :
  served.*1 = custom <$> (request_frame <$> reqs) -> Forall request_ok reqs ->
  Forall2 res_of (op_of <$> reqs) rs -> open_sink t0 -> pending t0 = [] ->
  exists t1, script buffer_empty wrapped served rs t0 = (Ok tt, t1) /\ open_sink t1 /\ pending t1 = [] /\
    sent t1 = sent t0 ++ wire (response_frame <$> (answer_of <$> rs)).
Proof.
  revert served rs t0. induction reqs as [|req reqs IH]; intros served rs t0 Hs Hq Hr Ho Hp.
  { apply fmap_nil_inv in Hs as ->. apply Forall2_nil_inv_l in Hr as ->. exists t0. by rewrite app_nil_r. }
  destruct served as [|[f s] served]; [done|]. injection Hs as -> Hs.
  apply Forall_cons in Hq as [Hq1 Hq]. apply Forall2_cons_inv_l in Hr as (r & rs' & Hr1 & Hr & ->).
  cbn [script]. unfold custom, request_of. rewrite (decode_request_frame req Hq1).
  destruct (response_of_res _ _ Hr1) as [Hresp Hok]. unfold answer_call, end_turn. rewrite Hresp.
  pose proof (response_frame_len _ Hok) as Hlen. rewrite MAX_PAYLOAD_eq in Hlen.
  assert (write_response (answer_of r) t0 =
    write_frame (fst (response_frame (answer_of r))) (snd (response_frame (answer_of r))) t0) as Hwr
    by (unfold write_response; by destruct (answer_of r)).
  destruct (write_frame_open t0 (fst (response_frame (answer_of r))) (snd (response_frame (answer_of r))) Ho)
    as (t1 & Hw & Ho1 & Hp1 & _ & Hs1); [ulia|]. rewrite Hw in Hwr.
  destruct (IH served rs' t1 Hs Hq Hr Ho1 Hp1) as (t2 & Hsc & Ho2 & Hp2 & Hs2).
  exists t2. split_and!; [|done|done|].
  - unfold bind at 1 2. rewrite Hwr. exact Hsc.
  - rewrite Hs2, Hs1. unfold output. rewrite Hp, app_nil_r. cbn [fmap list_fmap]. by rewrite wire_cons, app_assoc.
Qed.

(** ** The client against given results *)

(** A store whose calls return what is next on a list. *)
Definition next_unit : M (list Res) unit := fun rs =>
  match rs with System.RUnit o :: rs => (o, rs) | _ => (Panic, rs) end.
Definition next_get : M (list Res) (option (list byte)) := fun rs =>
  match rs with System.RGet o :: rs => (o, rs) | _ => (Panic, rs) end.

#[local] Instance results_store : KvStore (list Res) := {
  kv_set := fun _ _ => next_unit; kv_remove := fun _ => next_unit; kv_get := fun _ => next_get
}.

Section client.
Context (wrapped : KvsError -> list byte) (debug : Response -> list byte).
Context (add_history_entry : list byte -> option (list byte)) (history_ok : forall line, add_history_entry line = None).

(** One command: the answer to its request is printed as the result of its call. *)
Lemma remote_as_result (c : ReplCommand) r rs (out : Sink) (con : Console) rest :
  open_sink out -> pending out = [] -> request_ok (request_for c) -> res_of (op_of (request_for c)) r ->
  exists out' con',
    run_remote wrapped debug c ((cursor_over (wire [response_frame (answer_of r)] ++ rest), out), con) =
      (Ok tt, ((cursor_over rest, out'), con')) /\
    run_local wrapped c (r :: rs, con) = (Ok tt, (rs, con')) /\
    open_sink out' /\ pending out' = [] /\ sent out' = sent out ++ wire [request_frame (request_for c)].
Proof.
  intros Ho Hp Hreq Hr. destruct (response_of_res _ _ Hr) as [_ Hok].
  destruct (call_spec (request_for c) out (Some (answer_of r)) rest Ho Hreq)
    as (out' & Ho' & Hp' & Hs & Hcall); [by intros resp [= <-]|].
  exists out'. unfold output in Hs. rewrite Hp, app_nil_r in Hs.
  rewrite <- (app_nil_r (frame_bytes _ _)) in Hs. change (_ ++ []) with (wire [request_frame (request_for c)]) in Hs.
  rewrite Hs. destruct c as [k v|k|k]; cbn [run_remote run_local request_for op_of] in *;
    unfold client_set, client_get, client_rm, repl_set, repl_get, repl_rm, mcatch, on_fst; cbn [fst snd];
    rewrite Hcall; cbn [kv_set kv_get kv_remove results_store next_unit next_get];
    destruct r as [[[]|e|]|[[w|]|e|]]; try done; try (by eexists); destruct e; try done; by eexists.
Qed.

(** A session whose requests were answered with these results. *)
Lemma client_results events rs out con :
  sendable events -> Forall2 res_of (op_of <$> typed events) rs -> open_sink out -> pending out = [] ->
  exists session out' con',
    client_repl wrapped debug add_history_entry events
      ((cursor_over (wire (response_frame <$> (answer_of <$> rs))), out), con) =
      (Ok session, ((cursor_over [], out'), con')) /\
    repl wrapped add_history_entry events (rs, con) = (Ok session, ([], con')) /\
    sent out' = sent out ++ wire (typed_frames events).
Proof using history_ok.
  intros Hsend Hr Ho Hp. set (total := sent out ++ wire (typed_frames events)).
  destruct (repl_loop_alike (run_remote wrapped debug) (run_local wrapped) add_history_entry history_ok
    (fun evs (s : Stream * Sink) rs =>
       fst s = cursor_over (wire (response_frame <$> (answer_of <$> rs))) /\
       open_sink (snd s) /\ pending (snd s) = [] /\ sendable evs /\ Forall2 res_of (op_of <$> typed evs) rs /\
       sent (snd s) ++ wire (typed_frames evs) = total))
    with (events := events) (con := con) (b := rs)
      (a := (cursor_over (wire (response_frame <$> (answer_of <$> rs))), out))
    as (session & [st' out'] & rs' & con' & rest & Hr1 & Hr2 & HR & Hend).
  - intros ev evs c [st sk] rs1 con1 (E & Hsk & Hpk & Hsn & Hres & Ht) Hc. cbn [fst snd] in *. subst st.
    unfold sendable, typed_frames in *. rewrite (typed_cons _ _ _ Hc) in *. apply Forall_cons in Hsn as [Hq Hsn].
    cbn [fmap list_fmap] in *. apply Forall2_cons_inv_l in Hres as (r & rs2 & Hr1 & Hres & ->). cbn [fmap list_fmap].
    destruct (remote_as_result c r rs2 sk con1 (wire (response_frame <$> (answer_of <$> rs2))) Hsk Hpk Hq Hr1)
      as (sk' & con' & H1 & H2 & H3 & H4 & H5).
    rewrite wire_cons, app_nil_r in H1. rewrite wire_cons.
    eexists (_, sk'), rs2, con'. cbn [fst snd]. split; [exact H1|]. split_and!; try done.
    rewrite wire_cons, app_nil_r in H5. by rewrite H5, <- app_assoc, <- wire_cons.
  - intros ev evs [st sk] rs1 Hne Hc. unfold sendable, typed_frames. cbn [typed]. by rewrite Hne, Hc.
  - by cbn [fst snd].
  - assert (typed rest = []) as Et.
    { destruct session; [|by subst rest]. destruct Hend as (ev & rest' & -> & He). cbn [typed]. by rewrite He. }
    destruct HR as (E & _ & _ & _ & Hres & Ht). cbn [fst snd] in *. unfold typed_frames in Ht. rewrite Et in *.
    cbn [fmap list_fmap] in *. apply Forall2_nil_inv_l in Hres as ->. subst st'.
    exists session, out', con'. split_and!; [exact Hr1|exact Hr2|]. fold total. rewrite <- Ht.
    change (wire []) with (@nil byte). by rewrite app_nil_r.
Qed.
End client.

(** ** The connection of a client *)

Lemma requests_custom served reqs :
  served.*1 = custom <$> (request_frame <$> reqs) -> Forall request_ok reqs -> requests served = reqs.
Proof.
  revert reqs. induction served as [|[f s] served IH]; intros [|req reqs] E Hq; try done.
  injection E as -> E. apply Forall_cons in Hq as [Hq1 Hq]. unfold requests. cbn [omap list_omap fst].
  unfold custom, request_of at 1. rewrite (decode_request_frame req Hq1). f_equal. by apply IH.
Qed.

(** A connection that has come to its end, over the bytes that a client has sent. *)
Lemma client_connection buffer_empty wrapped reqs out c cs rs p :
  conn_ok buffer_empty wrapped (cursor_over (wire (request_frame <$> reqs))) out c cs rs -> status c = Closed p ->
  Forall request_ok reqs -> open_sink out -> pending out = [] ->
  cs = op_of <$> reqs /\ length rs = length reqs /\
  (Forall2 res_of cs rs -> sent (tx c) = sent out ++ wire (response_frame <$> (answer_of <$> rs))).
Proof.
  intros [Hcs Hlen Hst] Hclosed Hq Ho Hp. rewrite Hclosed in Hst, Hlen. destruct Hst as [-> Hst].
  assert (Forall (fun f => blen (snd f) <= MAX_PAYLOAD) (request_frame <$> reqs)) as Hl.
  { apply Forall_fmap. eapply Forall_impl; [exact Hq|]. by intros req [_ H]. }
  assert (wire_of (cursor_over (wire (request_frame <$> reqs))) = WCustom) as Hw
    by (destruct reqs as [|[] reqs]; done).
  rewrite Hw in Hst. destruct Hst as [(Hav & Hsv & Htx)|[(s1 & Hrd & Hrc) Hsc]].
  - assert (reqs = []) as -> by by destruct reqs. rewrite Hsv in Hcs, Hlen.
    assert (rs = []) as -> by (destruct rs; [done|cbn in Hlen; lia]).
    split_and!; [done|done|]. intros _. by rewrite Htx, app_nil_r.
  - destruct (reads_wire _ _ _ Hl Hrd) as (fs1 & fs2 & Efs & Hsv & ->).
    assert (fs2 = []) as ->.
    { destruct fs2 as [|f fs2]; [done|]. rewrite Efs in Hl. apply Forall_app in Hl as [_ [Hf _]%Forall_cons].
      by rewrite receive_wire in Hrc. }
    rewrite app_nil_r in Efs. subst fs1. pose proof (requests_custom _ _ Hsv Hq) as Hreqs. rewrite Hreqs in Hcs, Hlen.
    split_and!; [done|lia|]. intros Hres. rewrite Hcs in Hres.
    destruct (script_wire buffer_empty wrapped reqs (served c) rs out Hsv Hq Hres Ho Hp) as (t1 & Hs & _ & _ & Hs1).
    unfold bind in Hsc. rewrite Hs in Hsc. cbn [closing] in Hsc. injection Hsc as <-. exact Hs1.
Qed.

Section together.
Context (buffer_empty : Stream -> bool) (wrapped : KvsError -> list byte) (debug : Response -> list byte).
Context (add_history_entry : list byte -> option (list byte)) (history_ok : forall line, add_history_entry line = None).
Context `{Crc : Crc32} {Db : Type} `{!SledDb Db} `{!SledDbLaws Db}.
Context (order : list Name -> list Name) (db_open : option Z -> World -> (SledStore.SledError + Db) * World).
Context (db_drop : Db -> World -> World) (order_perm : forall l, order l ≡ₚ l).

(** C36. The client and the server together: take any run of the server program, with
    either engine, on a directory that has [m], and one of its connections that has
    come to its end, from a client that typed [events] at the prompt of [kvs-client].
    The connection has made the calls of the typed commands, in their order. The
    client, reading what the connection wrote, has sent exactly what the connection
    read, and has printed, line by line, what [kvs] prints for the same lines with a
    store whose calls return the results of these calls; and the calls and results of
    all connections together are a run of the map specification. *)
Theorem client_of_server args w m :
  servable db_open args w m -> values_ok m ->
  exists s0 w', server_boot order db_open db_drop args None w = (Ok (Listening (listening s0)), w') /\
  forall l acts es p tid c q events out cout con,
    main_run buffer_empty wrapped l (Listening (listening s0)) = Some (acts, es, p) -> bounded_run acts s0 ->
    small_writes es -> conns (server_of p) !! tid = Some c -> status c = Closed q ->
    (forall stream sink peer, Next (Connected tid stream sink (inr peer) None) ∈ l ->
       stream = cursor_over (wire (typed_frames events)) /\ sink = out) ->
    sendable events -> open_sink out -> output out = [] -> open_sink cout -> output cout = [] ->
    (exists sp, Spec.run (idle_map m) es sp) /\ calls tid es = op_of <$> typed events /\
    exists session cout' con',
      client_repl wrapped debug add_history_entry events ((cursor_over (sent (tx c)), cout), con) =
        (Ok session, ((cursor_over [], cout'), con')) /\
      sent cout' = wire (typed_frames events) /\
      repl wrapped add_history_entry events (returns tid es, con) = (Ok session, ([], con')).
Proof using order_perm history_ok.
  intros Hw Hm. destruct (server_boots order db_open db_drop order_perm args w m Hw) as (s0 & w' & Hb & Hf).
  exists s0, w'. split; [exact Hb|].
  intros l acts es p tid c q events out cout con Hrun Hbd Hsmall Hc Hcl Hacc Hsend Ho [He Hp]%app_eq_nil Hco [Hce Hcp]%app_eq_nil.
  destruct (main_run_server _ _ _ _ _ _ _ Hrun) as [Hsr _].
  destruct (server_refines buffer_empty wrapped _ s0 m acts es (server_of p) Hf Hsr Hbd) as [(sp & Hsp & _) Hconn].
  destruct (Hconn tid c Hc) as (st & sk & Hin & Hok). apply list_elem_of_omap in Hin as (x & Hx & Ex).
  assert (st = cursor_over (wire (typed_frames events)) /\ sk = out) as [-> ->].
  { destruct x as [[k|tid' st' sk' [k|peer] [k'|]]|[]]; try done. injection Ex as -> -> ->. by eapply Hacc. }
  destruct (client_connection _ _ (typed events) out c _ _ q Hok Hcl Hsend Ho Hp) as (Hcalls & Hlen & Hsent).
  assert (Forall2 res_of (calls tid es) (returns tid es)) as Hres.
  { pose proof (results_ok_run tid _ _ _ [] [] Hsp Hsmall) as Hr. cbn [app] in Hr.
    assert (results_ok sp tid (calls tid es) (returns tid es)) as Hr'.
    { apply Hr; [|by unfold results_ok; cbn; rewrite lookup_empty]. split; [exact Hm|]. intros t k v. cbn.
      by rewrite lookup_empty. }
    unfold results_ok in Hr'. destruct (Spec.threads sp !! tid) as [th|]; [exfalso|exact Hr'].
    destruct Hr' as (cs' & op & E & Hall & _). apply Forall2_length in Hall. rewrite Hcalls in E.
    apply (f_equal length) in E. rewrite length_fmap, length_app in E. cbn in E. lia. }
  split; [by exists sp|]. split; [exact Hcalls|]. rewrite (Hsent Hres), He. rewrite Hcalls in Hres.
  destruct (client_results wrapped debug add_history_entry history_ok events _ cout con Hsend Hres Hco Hcp)
    as (session & cout' & con' & H1 & H2 & H3). exists session, cout', con'. by rewrite H3, Hce.
Qed.
End together.

(** ** A concrete run *)

#[local] Existing Instance crc32_ieee.

Definition at_the_prompt : list Readline :=
  [Line (lit "set a 1"); Line (lit "get a"); Line (lit "rm b"); Line (lit "quit")].

(** A client with these lines, beside a client of the other protocol. *)
Definition client_steps : list MStep :=
  [Next (Connected 1 (cursor_over (wire (typed_frames at_the_prompt))) tcp_sink (inr (lit "a")) None);
   Next (Connected 2 redis_client tcp_sink (inr (lit "b")) None)] ++
  (Step <$> [Serve 1; Serve 2; Serve 1; Work 1; Serve 2; Work 1; Work 2; Reply 1; Serve 1; Work 2; Work 1; Reply 2;
             Work 1; Reply 1; Serve 1; Work 1; Reply 1; Serve 1]).

Definition client_served (s0 : Store Sys (SledSys MapDb))
  : option (list Action * list Event * ServerProcess (Store Sys (SledSys MapDb))) :=
  main_run (fun _ => true) (fun _ => []) client_steps (Listening (listening s0)).

Lemma client_served_state :
  match booted_server with
  | (Ok (Listening s), _) =>
      match client_served (store s), store s with
      | Some (acts, es, p), StBitcask sys =>
          in_range acts sys /\
          forallb (fun e => match e with
            | Call _ (OSet _ v) => utf8_valid v && (blen v <=? MAX_PAYLOAD) | _ => true end) es = true /\
          match conns (server_of p) !! 1%nat with Some c => status c = Closed WCustom | None => False end
      | _, _ => False
      end
  | _ => False
  end.
Proof. vm_compute. intuition discriminate. Qed.

Lemma client_accepted :
  Forall (fun x => match x with
    | Next (Connected 1 stream sink (inr _) None) =>
        stream = cursor_over (wire (typed_frames at_the_prompt)) /\ sink = tcp_sink
    | _ => True
    end) client_steps.
Proof.
  unfold client_steps. apply Forall_app. split; [by repeat constructor|]. by apply Forall_fmap, Forall_true.
Qed.

Lemma client_of_server_witness :
  exists s0 w' acts es p c session cout' con', booted_server = (Ok (Listening (listening s0)), w') /\
    client_served s0 = Some (acts, es, p) /\ conns (server_of p) !! 1%nat = Some c /\
    client_repl (fun _ => []) (fun _ => []) (fun _ => None) at_the_prompt
      ((cursor_over (sent (tx c)), tcp_sink), new_console) = (Ok session, ((cursor_over [], cout'), con')) /\
    calls 1 es = [OSet (lit "a") (lit "1"); OGet (lit "a"); ORemove (lit "b")].
Proof.
  destruct (client_of_server (fun _ => true) (fun _ => []) (fun _ => []) (fun _ => None) (fun _ => eq_refl)
    (fun l => l) (fun _ w => (inr ∅, w)) (fun _ w => w) (fun l => reflexivity l) ServerArgs.default_args empty_world ∅
    empty_servable (map_Forall_empty _)) as (s0 & w' & Hb & Hall).
  pose proof client_served_state as Hst. unfold booted_server in Hst |- *. rewrite Hb in Hst |- *. cbn [listening store] in Hst.
  destruct (client_served s0) as [[[acts es] p]|] eqn:Er; [|destruct Hst].
  destruct s0 as [sys|sl]; [|destruct Hst]. destruct Hst as (Hin & Hsm & Hcl).
  destruct (conns (server_of p) !! 1%nat) as [c|] eqn:Ec; [|destruct Hcl].
  destruct (Hall client_steps acts es p 1%nat c WCustom at_the_prompt tcp_sink tcp_sink new_console Er
    (bounded_run_bitcask _ _ Hin)) as (_ & Hcalls & session & cout' & con' & Hc & _ & Hl).
  - intros t k v Hv. apply list_elem_of_In in Hv. pose proof (proj1 (List.forallb_forall _ _) Hsm _ Hv) as Hb'.
    cbn beta iota in Hb'. apply andb_prop in Hb' as [Hu Hle]. split; [exact Hu|]. apply Z.leb_le, Hle.
  - exact Ec.
  - exact Hcl.
  - intros stream sink peer Hx. exact (proj1 (Forall_forall _ _) client_accepted _ Hx).
  - unfold sendable. repeat constructor; vm_compute; intuition discriminate.
  - apply tcp_sink_open.
  - reflexivity.
  - apply tcp_sink_open.
  - reflexivity.
  - exists (StBitcask sys), w', acts, es, p, c, session, cout', con'. split; [reflexivity|]. split; [exact Er|].
    split; [exact Ec|]. split; [exact Hc|exact Hcalls].
Defined.
