(* ===== verification/Testing.v ===== *)
(** * Unit tests as programs of the model

    The unit tests of the repository are Rust functions that panic when an
    assertion fails. They are translated with the same means: an assertion is a
    computation that panics, [unwrap] turns an error into a panic, and a test
    passes when it ends with [Ok(())]. *)

From Stdlib Require Import ZArith Strings.Byte.
From stdpp Require Import base numbers list strings.
From S2P Require Import Prelude.

Local Open Scope Z_scope.

Section assertions.
Context {S : Type}.

(** [assert!], [assert_eq!] *)
Definition assert_ (b : bool) : M S unit := if b then ret tt else panic.
Definition assert_eq {A} `{EqDecision A} (a b : A) : M S unit := assert_ (bool_decide (a = b)).

(** [.unwrap()], [.unwrap_err()] *)
Definition unwrap {A} (c : M S A) : M S A := mcatch c ret (fun _ => panic).
Definition unwrap_err {A} (c : M S A) : M S KvsError := mcatch c (fun _ => panic) ret.

(** [match r { Err(e) if p(e) => {}, other => panic!(..) }] *)
Definition assert_err {A} (p : KvsError -> bool) (c : M S A) : M S unit :=
  let! e := unwrap_err c in assert_ (p e).

(** [for x in l { .. }] *)
Fixpoint for_each {A} (l : list A) (body : A -> M S unit) : M S unit :=
  match l with
  | [] => ret tt
  | x :: l => body x ;;! for_each l body
  end.

(** A block with a local variable that [c] mutates. *)
Definition local {L A} (init : L) (c : M L A) : M S A := fun s => (fst (c init), s).

(** The result of a test that is run from [s]. *)
Definition passes (s : S) (test : M S unit) : Prop := fst (test s) = Ok tt.

End assertions.

(** A test that uses no state but its own variables. *)
Abbreviation Test := (M unit unit).

(** The errors that the tests tell apart. *)
Definition is_corruption (e : KvsError) : bool := bool_decide (e = Corruption).
Definition is_eof (e : KvsError) : bool := bool_decide (e = Io UnexpectedEof).
Definition is_invalid_data (e : KvsError) : bool :=
  match e with InvalidData _ => true | _ => false end.
Definition is_unexpected_command_type (e : KvsError) : bool :=
  bool_decide (e = UnexpectedCommandType).

(** [bytes[i] ^= mask] *)
Definition xor_at (i : nat) (mask : Z) (bytes : list byte) : list byte :=
  alter (fun x => byte_of_Z (Z.lxor (u8 x) mask)) i bytes.

(** [bytes[at..at + new.len()].copy_from_slice(new)] *)
Definition copy_from_slice (at_ : Z) (new bytes : list byte) : list byte :=
  ztake at_ bytes ++ new ++ zdrop (at_ + blen new) bytes.

(** Prove that all tests of a list pass, by running them. *)
Ltac run_tests :=
  repeat first [apply List.Forall_nil | apply List.Forall_cons]; vm_compute; reflexivity.
