(* ===== verification/CodecTests.v ===== *)
(** * The unit tests of the codecs

    The tests of src/storage/bytes_util.rs, command.rs, index_value.rs,
    record_reader.rs, index.rs, lock_file.rs and src/repl_helper.rs, run on the
    model with CRC-32/IEEE as the checksum. (The test that counts 40 000 keys per
    bucket is left out: it measures the hash function.) *)

From Stdlib Require Import ZArith Lia Strings.Byte.
From stdpp Require Import base numbers list strings gmap.
From S2P Require Import Prelude Bytes Crc CommandFormat HintFormat Streams Reader KeyDir Text Config FileSystem Lock Server Repl Testing.

Local Open Scope Z_scope.

#[local] Existing Instance crc32_ieee.

(** ** bytes_util.rs *)

Module BytesUtilTests.
Import BytesUtil.

Definition cursor : M Z Z := gets (fun c => c).
Definition set_cursor (z : Z) : M Z unit := modify (fun _ => z).

Definition reads_advance_cursor_in_order : M Z unit :=
  let buf := [x07] ++ u32_to_le_bytes 0xDEADBEEF ++ u64_to_le_bytes 0x1122334455667788 ++
    lit "tail" in
  set_cursor 0 ;;!
  let! v := unwrap (read_u8 buf) in assert_eq v 7 ;;!
  let! v := unwrap (read_u32 buf) in assert_eq v 0xDEADBEEF ;;!
  let! v := unwrap (read_u64 buf) in assert_eq v 0x1122334455667788 ;;!
  let! v := unwrap (read_bytes buf 4) in assert_eq v (lit "tail") ;;!
  let! c := cursor in assert_eq c (blen buf).

Definition values_are_little_endian : M Z unit :=
  let buf := [x01; x02; x03; x04; x05; x06; x07; x08] in
  set_cursor 0 ;;!
  let! v := unwrap (read_u32 buf) in assert_eq v 0x04030201 ;;!
  set_cursor 0 ;;!
  let! v := unwrap (read_u64 buf) in assert_eq v 0x0807060504030201.

Definition short_buffer_is_eof_and_cursor_is_untouched : M Z unit :=
  let buf := replicate 3 x00 in
  set_cursor 0 ;;!
  assert_err is_eof (read_u32 buf) ;;! let! c := cursor in assert_eq c 0 ;;!
  assert_err is_eof (read_u64 buf) ;;! let! c := cursor in assert_eq c 0 ;;!
  assert_err is_eof (read_bytes buf 4) ;;! let! c := cursor in assert_eq c 0 ;;!
  set_cursor (blen buf) ;;!
  assert_err is_eof (read_u8 buf) ;;! let! c := cursor in assert_eq c (blen buf).

Definition zero_length_read_bytes_is_empty : M Z unit :=
  let buf := [x01; x02] in
  set_cursor 1 ;;!
  let! v := unwrap (read_bytes buf 0) in assert_eq v [] ;;!
  let! c := cursor in assert_eq c 1.

Definition is_invalid_data_kind (e : KvsError) : bool := bool_decide (e = Io InvalidDataKind).

Definition overflowing_cursor_is_invalid_data_not_panic : M Z unit :=
  let buf := replicate 8 x00 in
  set_cursor usize_max ;;! assert_err is_invalid_data_kind (read_u32 buf) ;;!
  set_cursor usize_max ;;! assert_err is_invalid_data_kind (read_u64 buf) ;;!
  set_cursor 1 ;;! assert_err is_invalid_data_kind (read_bytes buf usize_max).

Lemma bytes_util_tests_pass : Forall (passes 0)
  [reads_advance_cursor_in_order; values_are_little_endian;
   short_buffer_is_eof_and_cursor_is_untouched; zero_length_read_bytes_is_empty;
   overflowing_cursor_is_invalid_data_not_panic].
Proof. run_tests. Qed.

End BytesUtilTests.

(** ** command.rs *)

Module CommandTests.
Import Command.

Definition deserialize_ (bytes : list byte) : M unit (Command * Z) := of_outcome (deserialize bytes).

Definition sample_set : list byte := serialize (Set_ 42 (lit "key1") (lit "value1")).

Definition raw_record (body : list byte) : list byte :=
  let buf := replicate (Z.to_nat CRC_LEN) x00 ++ u32_to_le_bytes (as_u32 (blen body)) ++ body in
  let crc := hash (zdrop CRC_LEN buf) in
  copy_from_slice 0 (u32_to_le_bytes crc) buf.

Definition assert_corruption (bytes : list byte) : Test := assert_err is_corruption (deserialize_ bytes).
Definition assert_eof (bytes : list byte) : Test := assert_err is_eof (deserialize_ bytes).

(** Decoding gives the command and uses up all the bytes. *)
Definition decodes_to (bytes : list byte) (c : Command) : Test :=
  let! r := unwrap (deserialize_ bytes) in
  assert_eq (fst r) c ;;! assert_eq (snd r) (blen bytes).

Definition command_serde_roundtrip : Test :=
  let set := Set_ 42 (lit "key1") (lit "value1") in
  decodes_to (serialize set) set ;;!
  let rm := Rm 43 (lit "key2") in
  decodes_to (serialize rm) rm.

Definition roundtrip_timestamp_extremes : Test :=
  for_each [0; 1; u64_max] (fun ts =>
    let cmd := Set_ ts (lit "k") (lit "v") in
    let! r := unwrap (deserialize_ (serialize cmd)) in
    assert_eq (fst r) cmd).

Definition roundtrip_empty_key_and_value : Test :=
  let set := Set_ 1 [] [] in
  decodes_to (serialize set) set ;;!
  let rm := Rm 2 [] in
  decodes_to (serialize rm) rm.

Definition deserialize_consumes_exactly_one_record : Test :=
  let first := Set_ 1 (lit "key1") (lit "value1") in
  let second := Rm 2 (lit "key1") in
  let first_len := blen (serialize first) in
  let buf := serialize first ++ serialize second in
  let! r := unwrap (deserialize_ buf) in
  assert_eq (fst r) first ;;! assert_eq (snd r) first_len ;;!
  let! r := unwrap (deserialize_ (zdrop first_len buf)) in
  assert_eq (fst r) second ;;! assert_eq (first_len + snd r) (blen buf).

Definition every_single_bit_flip_is_rejected : Test :=
  let bytes := sample_set in
  for_each (seq 0 (length bytes)) (fun byte_idx =>
    for_each (seqZ 0 8) (fun bit =>
      assert_err (fun _ => true) (deserialize_ (xor_at byte_idx (Z.shiftl 1 bit) bytes)))).

Definition corrupted_crc_field_is_corruption : Test :=
  assert_corruption (xor_at 0 0xFF sample_set).

Definition corrupted_body_is_corruption : Test :=
  let bytes := sample_set in
  assert_corruption (xor_at (length bytes - 1) 0x01 bytes) ;;!
  assert_corruption (xor_at (Z.to_nat HEADER_LEN) 0x01 bytes).

Definition truncated_buffer_is_eof_not_corruption : Test :=
  let bytes := sample_set in
  for_each (seq 0 (length bytes)) (fun prefix_len => assert_eof (take prefix_len bytes)).

Definition oversized_body_len_is_eof : Test :=
  assert_eof (copy_from_slice CRC_LEN (u32_to_le_bytes u32_max) sample_set).

Definition unknown_command_type_with_valid_crc_is_rejected : Test :=
  let body := u64_to_le_bytes 42 ++ [x07] ++ u32_to_le_bytes 1 ++ lit "k" in
  assert_err is_unexpected_command_type (deserialize_ (raw_record body)).

Definition zero_header : list byte := replicate (Z.to_nat HEADER_LEN) x00.

Definition body_len_reads_little_endian_length_field : Test :=
  assert_eq (body_len (copy_from_slice CRC_LEN (u32_to_le_bytes 0x01020304) zero_header)) 0x01020304.

Definition body_len_ignores_crc_bytes : Test :=
  let header := copy_from_slice CRC_LEN (u32_to_le_bytes 7) zero_header in
  assert_eq (body_len header) 7 ;;!
  let header := copy_from_slice 0 (u32_to_le_bytes u32_max) header in
  assert_eq (body_len header) 7.

Definition body_len_boundary_values : Test :=
  assert_eq (body_len zero_header) 0 ;;!
  assert_eq (body_len (copy_from_slice CRC_LEN (u32_to_le_bytes u32_max) zero_header)) u32_max.

Definition body_len_matches_serialized_record : Test :=
  for_each [Set_ 42 (lit "key1") (lit "value1"); Rm 43 (lit "key2")] (fun cmd =>
    let bytes := serialize cmd in
    assert_eq (body_len (ztake HEADER_LEN bytes)) (blen bytes - HEADER_LEN)).

Definition valid_crc_but_inconsistent_inner_lengths_is_corruption : Test :=
  let body := u64_to_le_bytes 42 ++ [byte_of_Z (command_type_u8 TRm)] ++ u32_to_le_bytes 1 ++
    lit "ab" in
  assert_corruption (raw_record body).

Lemma command_tests_pass : Forall (passes tt)
  [command_serde_roundtrip; roundtrip_timestamp_extremes; roundtrip_empty_key_and_value;
   deserialize_consumes_exactly_one_record; every_single_bit_flip_is_rejected;
   corrupted_crc_field_is_corruption; corrupted_body_is_corruption;
   truncated_buffer_is_eof_not_corruption; oversized_body_len_is_eof;
   unknown_command_type_with_valid_crc_is_rejected; body_len_reads_little_endian_length_field;
   body_len_ignores_crc_bytes; body_len_boundary_values; body_len_matches_serialized_record;
   valid_crc_but_inconsistent_inner_lengths_is_corruption].
Proof. run_tests. Qed.

End CommandTests.

(** ** index_value.rs *)

Module IndexValueTests.
Import HintFormat.IndexValue.

Definition deserialize_ (bytes : list byte) (id : Z) : M unit (list byte * IndexValue * Z) :=
  of_outcome (deserialize bytes id).

Definition sample : list byte * IndexValue :=
  let iv := {| file_id := 7; ts := 99; offset := 4096; len := 123 |} in
  (serialize iv (lit "key1"), iv).

Definition assert_corruption (bytes : list byte) : Test := assert_err is_corruption (deserialize_ bytes 0).
Definition assert_eof (bytes : list byte) : Test := assert_err is_eof (deserialize_ bytes 0).

Definition roundtrip : Test :=
  let '(bytes, iv) := sample in
  let! r := unwrap (deserialize_ bytes (file_id iv)) in
  assert_eq r (lit "key1", iv, blen bytes).

Definition file_id_comes_from_the_caller_not_the_record : Test :=
  let '(bytes, iv) := sample in
  let! r := unwrap (deserialize_ bytes 42) in
  let '(_, decoded, _) := r in
  assert_eq (file_id decoded) 42 ;;! assert_eq (ts decoded) (ts iv) ;;!
  assert_eq (offset decoded) (offset iv) ;;! assert_eq (len decoded) (len iv).

Definition roundtrip_empty_key_and_extreme_values : Test :=
  let iv := {| file_id := u64_max; ts := u64_max; offset := u64_max; len := usize_max |} in
  let bytes := serialize iv [] in
  let! r := unwrap (deserialize_ bytes (file_id iv)) in
  assert_eq r ([], iv, blen bytes).

Definition deserialize_consumes_exactly_one_record : Test :=
  let first := {| file_id := 1; ts := 10; offset := 0; len := 10 |} in
  let second := {| file_id := 1; ts := 20; offset := 100; len := 20 |} in
  let first_len := blen (serialize first (lit "alpha")) in
  let buf := serialize first (lit "alpha") ++ serialize second (lit "beta") in
  let! r := unwrap (deserialize_ buf 1) in
  assert_eq r (lit "alpha", first, first_len) ;;!
  let! r := unwrap (deserialize_ (zdrop first_len buf) 1) in
  assert_eq r (lit "beta", second, blen buf - first_len).

Definition every_single_bit_flip_is_rejected : Test :=
  let '(bytes, _) := sample in
  for_each (seq 0 (length bytes)) (fun byte_idx =>
    for_each (seqZ 0 8) (fun bit =>
      assert_err (fun _ => true) (deserialize_ (xor_at byte_idx (Z.shiftl 1 bit) bytes) 0))).

Definition corrupted_crc_is_corruption : Test :=
  assert_corruption (xor_at 0 0xFF (fst sample)).

Definition truncated_buffer_is_eof_not_corruption : Test :=
  let '(bytes, _) := sample in
  for_each (seq 0 (length bytes)) (fun prefix_len => assert_eof (take prefix_len bytes)).

Definition valid_crc_but_inconsistent_key_len_is_corruption : Test :=
  let '(bytes, _) := sample in
  let key_len_pos := HEADER_LEN in
  let key_len := from_le (slice bytes key_len_pos (key_len_pos + 4)) in
  let bytes := copy_from_slice key_len_pos (u32_to_le_bytes (key_len - 1)) bytes in
  let crc := hash (zdrop CRC_LEN bytes) in
  assert_corruption (copy_from_slice 0 (u32_to_le_bytes crc) bytes).

Lemma index_value_tests_pass : Forall (passes tt)
  [roundtrip; file_id_comes_from_the_caller_not_the_record; roundtrip_empty_key_and_extreme_values;
   deserialize_consumes_exactly_one_record; every_single_bit_flip_is_rejected;
   corrupted_crc_is_corruption; truncated_buffer_is_eof_not_corruption;
   valid_crc_but_inconsistent_key_len_is_corruption].
Proof. run_tests. Qed.

End IndexValueTests.

(** ** record_reader.rs *)

Module RecordReaderTests.
Import Reader.RecordReader.

Definition record (key value : list byte) : list byte :=
  Command.serialize (Command.Set_ 1 key value).

Definition expect_record (read : RecordRead) : M RecordReader (Z * list byte) :=
  match read with
  | Record_ position bytes => ret (position, bytes)
  | _ => panic
  end.

Definition reader_over (buf : list byte) : RecordReader := new (cursor_over buf) (blen buf).

Definition yields_records_then_clean_eof : Test :=
  let first := record (lit "alpha") (lit "beta") in
  let second := record (lit "gamma") (lit "delta") in
  local (reader_over (first ++ second)) (
    let! r := next_record in let! r := expect_record r in assert_eq r (0, first) ;;!
    let! r := next_record in let! r := expect_record r in assert_eq r (blen first, second) ;;!
    let! r := next_record in assert_eq r CleanEof ;;!
    let! r := next_record in assert_eq r CleanEof).

Definition partial_header_at_tail_is_torn : Test :=
  let first := record (lit "alpha") (lit "beta") in
  local (reader_over (first ++ [xaa; xbb; xcc])) (
    let! r := next_record in expect_record r ;;!
    let! r := next_record in assert_eq r (TornTail (blen first))).

Definition oversized_body_len_is_torn_tail : Test :=
  let buf := copy_from_slice 4 (u32_to_le_bytes u32_max) (replicate (Z.to_nat HEADER_LEN) x00) in
  local (reader_over buf) (let! r := next_record in assert_eq r (TornTail 0)).

Definition body_shorter_than_file_len_claims_is_torn : Test :=
  let full := record (lit "alpha") (lit "beta") in
  local (new (cursor_over (ztake (HEADER_LEN + 2) full)) (blen full))
    (let! r := next_record in assert_eq r (TornTail 0)).

Lemma record_reader_tests_pass : Forall (passes tt)
  [yields_records_then_clean_eof; partial_header_at_tail_is_torn; oversized_body_len_is_torn_tail;
   body_shorter_than_file_len_claims_is_torn].
Proof. run_tests. Qed.

End RecordReaderTests.

(** ** index.rs *)

Module IndexTests.
Import Index.

Definition get_bucket_is_deterministic_and_in_range : Test :=
  for_each (seqZ 0 1000) (fun i =>
    let key := lit "key" ++ show_u64 i in
    let bucket := get_bucket key in
    assert_ (bucket <? INDEX_BUCKETS_NUM)%nat ;;!
    assert_eq bucket (get_bucket key)) ;;!
  assert_ (get_bucket [] <? INDEX_BUCKETS_NUM)%nat.

Lemma for_each_ok {S A} (l : list A) (body : A -> M S unit) s :
  (forall x, body x s = (Ok tt, s)) -> for_each l body s = (Ok tt, s).
Proof. intros H. induction l as [|x l IH]; cbn [for_each]; [done|]. by rewrite (bind_ok _ _ _ _ _ (H x)). Qed.

Lemma in_range_ok {S} key (s : S) : assert_ (get_bucket key <? INDEX_BUCKETS_NUM)%nat s = (Ok tt, s).
Proof. unfold assert_. by rewrite (proj2 (Nat.ltb_lt _ _) (get_bucket_lt key)). Qed.

Lemma index_tests_pass : passes tt get_bucket_is_deterministic_and_in_range.
Proof.
  unfold passes, get_bucket_is_deterministic_and_in_range. generalize (seqZ 0 1000). intros l.
  rewrite (bind_ok _ _ _ tt tt); [by rewrite in_range_ok|]. apply for_each_ok. intros i.
  rewrite (bind_ok _ _ _ _ _ (in_range_ok _ _)). unfold assert_eq. by rewrite bool_decide_true.
Qed.

End IndexTests.

(** ** lock_file.rs *)

Module LockFileTests.
Import LockFile.

(** [std::fs::read_to_string], [std::fs::write] of a file of the directory. *)
Definition fs_read_to_string (name : Name) : M World (list byte) :=
  let! h := open_read name in read_to_string h.
Definition fs_write (name : Name) (bytes : list byte) : M World unit :=
  let! h := open_create name in set_len h 0 ;;! file_write_all h bytes.

(** [tempdir()] *)
Definition empty_dir : World :=
  {| dir := ∅; others := []; inodes := ∅; next_inode := 0; flock := false;
     clock := 1700000000000; ticks := []; faults := [] |}.

Definition fresh_lock_file_is_stamped_and_reopens_for_same_engine : M World unit :=
  acquire StoreType.Sled ;;!
  let! marker := fs_read_to_string LOCK_FILE_NAME in
  assert_eq marker (lit "sled") ;;!
  unlock ;;!
  acquire StoreType.Sled ;;!
  ret tt.

Definition other_engine_is_refused : M World unit :=
  acquire StoreType.Bitcask ;;! unlock ;;!
  assert_err (fun e => bool_decide (e = EngineMismatch (lit "bitcask") (lit "sled")))
    (acquire StoreType.Sled).

Definition garbage_marker_is_refused_not_overwritten : M World unit :=
  let garbage := lit "rocksdb" ++ [x0a] in
  fs_write LOCK_FILE_NAME garbage ;;!
  assert_err (fun e => match e with
                       | EngineMismatch found _ => bool_decide (found = lit "rocksdb")
                       | _ => false
                       end) (acquire StoreType.Bitcask) ;;!
  let! marker := fs_read_to_string LOCK_FILE_NAME in
  assert_eq marker garbage.

Definition held_lock_blocks_second_acquire : M World unit :=
  acquire StoreType.Bitcask ;;!
  assert_err (fun e => bool_decide (e = StoreLocked)) (acquire StoreType.Bitcask).

Lemma lock_file_tests_pass : Forall (passes empty_dir)
  [fresh_lock_file_is_stamped_and_reopens_for_same_engine; other_engine_is_refused;
   garbage_marker_is_refused_not_overwritten; held_lock_blocks_second_acquire].
Proof. run_tests. Qed.

End LockFileTests.

(** ** repl_helper.rs *)

Module ReplTests.

#[global] Instance ReplCommand_eq_dec : EqDecision ReplCommand.
Proof. solve_decision. Defined.

Definition parses_valid_commands : Test :=
  assert_eq (command_of_line (lit "set k v")) (Some (ReplSet (lit "k") (lit "v"))) ;;!
  assert_eq (command_of_line (lit "get k")) (Some (ReplGet (lit "k"))) ;;!
  assert_eq (command_of_line (lit "rm k")) (Some (ReplRm (lit "k"))) ;;!
  assert_eq (command_of_line (lit "  set   k   v  ")) (Some (ReplSet (lit "k") (lit "v"))).

Definition rejects_missing_args_and_unknown_commands : Test :=
  assert_eq (command_of_line (lit "")) None ;;!
  assert_eq (command_of_line (lit "set")) None ;;!
  assert_eq (command_of_line (lit "set k")) None ;;!
  assert_eq (command_of_line (lit "get")) None ;;!
  assert_eq (command_of_line (lit "rm")) None ;;!
  assert_eq (command_of_line (lit "nope k")) None.

Lemma repl_tests_pass : Forall (passes tt)
  [parses_valid_commands; rejects_missing_args_and_unknown_commands].
Proof. run_tests. Qed.

End ReplTests.
