(* ===== verification/StoreTests.v ===== *)
(** * The unit tests of the engine

    The tests of src/storage/bitcask.rs, run on the model: directories as a crash
    or a merge leaves them are built file by file, opened, read and written. *)

From Stdlib Require Import ZArith Lia Strings.Byte.
From stdpp Require Import base numbers list strings gmap.
From S2P Require Import Prelude Bytes Crc CommandFormat HintFormat Streams Reader KeyDir Text Names Config FileSystem Lock BTree Engine Load Merge Testing CodecTests.
Import Command(Command, Set_).
Import LockFileTests(fs_write, empty_dir).

Local Open Scope Z_scope.

#[local] Existing Instance crc32_ieee.

(** [let bitcask = Bitcask::open(Config::new(..))?; body; drop(bitcask)] *)
Definition with_store (body : Bitcask.BM unit) : M World unit :=
  let! bitcask := Open.open (fun names => names) (Config.new StoreType.Bitcask) in
  fun w =>
    let (o, s) := body (bitcask, w) in
    (o, snd (snd (Compaction.drop_handle s))).

(** [assert_eq!(bitcask.get(key)?, value)] *)
Definition reads (key : string) (value : option string) : Bitcask.BM unit :=
  let! v := Bitcask.get 1 (lit key) in
  assert_eq v (lit <$> value).

Definition set_ (key value : string) : Bitcask.BM unit := Bitcask.set_ (lit key) (lit value).

(** [assert!(!fs::exists(name)?)] *)
Definition is_gone (name : string) : Bitcask.BM unit :=
  let! e := on_snd (exists_ (lit name)) in assert_ (negb e).

Definition write (name : string) (bytes : list byte) : M World unit := fs_write (lit name) bytes.

Definition record (ts : Z) (key value : string) : list byte :=
  Command.serialize (Set_ ts (lit key) (lit value)).

Definition hint_record (file_id ts offset : Z) (len : Z) (key : string) : list byte :=
  IndexValue.serialize {| IndexValue.file_id := file_id; IndexValue.ts := ts;
    IndexValue.offset := offset; IndexValue.len := len |} (lit key).

Definition replay_ignores_truncated_tail : M World unit :=
  let! file := open_create (lit "000001.data") in
  let! now := unix_now in
  let valid := record (as_secs now) "alpha" "beta" in
  file_write_all file valid ;;!
  let truncated := [x12; x00; x00; x00] ++ lit "incomplete" in
  file_write_all file truncated ;;!
  with_store (
    reads "alpha" (Some "beta") ;;!
    let! len := on_snd (metadata_len file) in assert_eq len (blen valid)).

Definition replay_uses_hint_file_for_sealed_files : M World unit :=
  let sealed := record 1 "alpha" "beta" in
  write "000001.data" sealed ;;!
  write "000002.data" (record 2 "gamma" "delta") ;;!
  write "000001.hint" (hint_record 1 1 0 (blen sealed) "zeta") ;;!
  with_store (
    reads "zeta" (Some "beta") ;;!
    reads "alpha" None ;;!
    reads "gamma" (Some "delta")).

Definition hint_of_later_file_overrides_earlier_data_replay : M World unit :=
  write "000001.data" (record 1 "k" "old") ;;!
  let new := record 2 "k" "new" in
  write "000002.data" new ;;!
  write "000002.hint" (hint_record 2 2 0 (blen new) "k") ;;!
  write "000003.data" (record 3 "other" "x") ;;!
  with_store (
    reads "k" (Some "new") ;;!
    reads "other" (Some "x")).

Definition writes_after_reopen_onto_compacted_file_survive : M World unit :=
  write "000001.data" (record 1 "a" "1") ;;!
  let compacted := record 2 "b" "2" in
  write "000002.data" compacted ;;!
  write "000002.hint" (hint_record 2 2 0 (blen compacted) "b") ;;!
  with_store (
    set_ "c" "3" ;;!
    reads "c" (Some "3")) ;;!
  with_store (
    reads "a" (Some "1") ;;!
    reads "b" (Some "2") ;;!
    reads "c" (Some "3")).

Definition torn_hint_file_falls_back_to_data_replay : M World unit :=
  let sealed := record 1 "alpha" "beta" in
  write "000001.data" sealed ;;!
  write "000002.data" (record 2 "gamma" "delta") ;;!
  write "000001.hint" (hint_record 1 1 0 (blen sealed) "zeta" ++ [xaa; xbb; xcc]) ;;!
  with_store (
    reads "alpha" (Some "beta") ;;!
    reads "gamma" (Some "delta") ;;!
    is_gone "000001.hint").

Definition crash_before_merge_rename_recovers_from_sources : M World unit :=
  write "000001.data" (record 1 "k1" "a") ;;!
  write "000002.data" (record 2 "k2" "b") ;;!
  write "000005.data.compact" (lit "half-written merge output") ;;!
  write "000005.hint" (lit "half-written hint") ;;!
  write "000010.data" [] ;;!
  with_store (
    reads "k1" (Some "a") ;;!
    reads "k2" (Some "b") ;;!
    is_gone "000005.data.compact" ;;!
    is_gone "000005.hint" ;;!
    set_ "k3" "c") ;;!
  with_store (
    reads "k1" (Some "a") ;;!
    reads "k3" (Some "c")).

Definition merged_output : M World unit :=
  let rec_k := record 3 "k" "new" in
  let rec_k2 := record 1 "k2" "x" in
  write "000003.data" (rec_k ++ rec_k2) ;;!
  write "000003.hint" (hint_record 3 3 0 (blen rec_k) "k" ++
    hint_record 3 1 (blen rec_k) (blen rec_k2) "k2") ;;!
  write "000010.data" [].

Definition crash_after_rename_before_deletion_prefers_outputs : M World unit :=
  write "000001.data" (record 1 "k" "old" ++ record 1 "k2" "x") ;;!
  write "000002.data" (record 3 "k" "new") ;;!
  merged_output ;;!
  with_store (
    reads "k" (Some "new") ;;!
    reads "k2" (Some "x")).

Definition crash_during_source_deletion_prefers_outputs : M World unit :=
  write "000002.data" (record 3 "k" "new") ;;!
  merged_output ;;!
  with_store (
    reads "k" (Some "new") ;;!
    reads "k2" (Some "x") ;;!
    set_ "k3" "y" ;;!
    reads "k3" (Some "y")).

(** Every unit test of the engine passes on the model. *)
Lemma engine_tests_pass : Forall (passes empty_dir)
  [replay_ignores_truncated_tail; replay_uses_hint_file_for_sealed_files;
   hint_of_later_file_overrides_earlier_data_replay;
   writes_after_reopen_onto_compacted_file_survive; torn_hint_file_falls_back_to_data_replay;
   crash_before_merge_rename_recovers_from_sources;
   crash_after_rename_before_deletion_prefers_outputs;
   crash_during_source_deletion_prefers_outputs].
Proof. run_tests. Qed.
