(* ===== verification/NetTests.v ===== *)
(** * The unit tests of the protocols

    The tests of src/network/protocol.rs and src/network/resp.rs, run on the
    model. A [Vec<u8>] is a writer without a buffer that never fails. *)

From Stdlib Require Import ZArith Lia Strings.Byte.
From stdpp Require Import base numbers list strings gmap.
From S2P Require Import Prelude Bytes Streams Text KvStore Protocol Resp Server Testing.

Local Open Scope Z_scope.

(** The bytes that [c] writes to an empty [Vec<u8>]. *)
Definition written {S} (c : M Sink unit) : M S (list byte) :=
  local tcp_sink (unwrap c ;;! gets sent).

(** Reading from [Cursor::new(wire)]. *)
Definition over {S A} (wire : list byte) (c : M Stream A) : M S A := local (cursor_over wire) c.

(** [FakeStore]: a map, and an error that every call returns when it is set. *)
Record FakeStore : Type := {
  map : gmap (list byte) (list byte);
  fail_with : option KvsError
}.

Definition fake_new : FakeStore := {| map := ∅; fail_with := None |}.
Definition failing (e : KvsError) : FakeStore := {| map := ∅; fail_with := Some e |}.

Definition unless_failing {A} (c : M FakeStore A) : M FakeStore A := fun s =>
  match fail_with s with Some e => (Err e, s) | None => c s end.

Definition fake_set (k v : list byte) : M FakeStore unit := unless_failing (
  modify (fun s => {| map := <[k := v]> (map s); fail_with := fail_with s |})).

Definition fake_remove (k : list byte) : M FakeStore unit := unless_failing (
  let! m := gets map in
  modify (fun s => {| map := delete k (map s); fail_with := fail_with s |}) ;;!
  match m !! k with Some _ => ret tt | None => throw KeyNotFound end).

Definition fake_get (k : list byte) : M FakeStore (option (list byte)) := unless_failing (
  gets (fun s => map s !! k)).

#[local] Instance fake_store : KvStore FakeStore := {
  kv_set := fake_set; kv_remove := fake_remove; kv_get := fake_get
}.

(** [assert_eq!(execute(&store, req), resp)] *)
Definition executes (req : Request) (resp : Response) : M FakeStore unit :=
  let! r := execute req in assert_eq r resp.

(** ** protocol.rs *)

Module ProtocolTests.
Import Protocol.

Definition HEADER_LEN : Z := 5.

Definition frame (msg_type : byte) (payload : list byte) : M unit (list byte) :=
  written (write_frame msg_type payload).

(** One frame is read from [wire], and nothing is left of it. *)
Definition only_frame (wire : list byte) : M unit (byte * list byte) :=
  over wire (
    let! r := unwrap read_frame in
    let! rest := gets avail in
    assert_eq rest [] ;;!
    match r with Some f => ret f | None => panic end).

Definition request_roundtrip_ (req : Request) : Test :=
  let! wire := written (write_request req) in
  let! f := only_frame wire in
  let '(msg_type, payload) := f in
  let! decoded := unwrap (of_outcome (decode_request msg_type payload)) in
  assert_eq decoded req.

Definition response_roundtrip_ (resp : Response) : Test :=
  let! wire := written (write_response resp) in
  let! f := only_frame wire in
  let '(msg_type, payload) := f in
  let! decoded := unwrap (of_outcome (decode_response msg_type payload)) in
  assert_eq decoded resp.

Definition assert_invalid_data {A} (c : M unit A) : Test := assert_err is_invalid_data c.
Definition assert_eof {A} (c : M unit A) : Test := assert_err is_eof c.

Definition frame_layout_is_type_then_le_len_then_payload : Test :=
  let! wire := frame x07 (lit "abc") in
  assert_eq wire ([x07; x03; x00; x00; x00] ++ lit "abc").

Definition empty_stream_is_clean_eof : Test :=
  let! r := over [] (unwrap read_frame) in assert_eq r None.

Definition empty_payload_frame_roundtrips : Test :=
  let! wire := frame RESP_OK [] in
  assert_eq (blen wire) HEADER_LEN ;;!
  let! r := over wire (unwrap read_frame) in
  assert_eq r (Some (RESP_OK, [])).

Definition truncated_frame_is_eof_not_none : Test :=
  let! wire := frame REQ_GET (lit "key") in
  for_each (seq 1 (length wire - 1)) (fun prefix_len =>
    assert_eof (over (take prefix_len wire) read_frame)).

Definition multiple_frames_are_read_in_order : Test :=
  let! f1 := frame x01 (lit "first") in
  let! f2 := frame x02 [] in
  let! f3 := frame x03 (lit "third") in
  over (f1 ++ f2 ++ f3) (
    let! r := unwrap read_frame in assert_eq r (Some (x01, lit "first")) ;;!
    let! r := unwrap read_frame in assert_eq r (Some (x02, [])) ;;!
    let! r := unwrap read_frame in assert_eq r (Some (x03, lit "third")) ;;!
    let! r := unwrap read_frame in assert_eq r None).

Definition oversized_length_is_rejected_before_allocating : Test :=
  assert_invalid_data (over (REQ_GET :: u32_to_le_bytes (MAX_PAYLOAD + 1)) read_frame) ;;!
  assert_invalid_data (over (REQ_GET :: u32_to_le_bytes u32_max) read_frame).

Definition request_roundtrip_all_variants : Test :=
  request_roundtrip_ (RGet (lit "key1")) ;;!
  request_roundtrip_ (RRm (lit "key2")) ;;!
  request_roundtrip_ (RSet (lit "key3") (lit "value3")).

Definition request_roundtrip_empty_and_unicode : Test :=
  request_roundtrip_ (RGet []) ;;!
  request_roundtrip_ (RSet [] []) ;;!
  request_roundtrip_ (RSet (lit "ключ") (lit "значение 🚀")).

Definition set_payload_layout : Test :=
  let! wire := written (write_request (RSet (lit "ab") (lit "xyz"))) in
  assert_eq (zdrop HEADER_LEN wire) ([x02; x00; x00; x00] ++ lit "abxyz").

Definition set_with_value_containing_key_bytes_is_unambiguous : Test :=
  request_roundtrip_ (RSet (lit "aa") (lit "aaaa")).

Definition decode_request_ (msg_type : byte) (payload : list byte) : M unit Request :=
  of_outcome (decode_request msg_type payload).

Definition unknown_request_type_is_rejected : Test :=
  assert_err is_unexpected_command_type (decode_request_ xc8 (lit "key")).

Definition invalid_utf8_key_is_rejected : Test :=
  assert_invalid_data (decode_request_ REQ_GET [xff; xfe]) ;;!
  assert_invalid_data (decode_request_ REQ_RM [xff; xfe]) ;;!
  assert_invalid_data (decode_request_ REQ_SET (u32_to_le_bytes 1 ++ [xff] ++ lit "ok")) ;;!
  assert_invalid_data (decode_request_ REQ_SET (u32_to_le_bytes 1 ++ lit "k" ++ [xff])).

Definition set_payload_shorter_than_length_prefix_is_rejected : Test :=
  for_each (seq 0 4) (fun len => assert_invalid_data (decode_request_ REQ_SET (replicate len x00))).

Definition set_key_len_exceeding_payload_is_rejected : Test :=
  assert_invalid_data (decode_request_ REQ_SET (u32_to_le_bytes 10 ++ lit "short")) ;;!
  assert_invalid_data (decode_request_ REQ_SET (u32_to_le_bytes u32_max ++ lit "k")).

Definition response_roundtrip_all_variants : Test :=
  response_roundtrip_ ROk ;;!
  response_roundtrip_ (RValue (lit "value")) ;;!
  response_roundtrip_ (RValue []) ;;!
  for_each [CKeyNotFound; CInternal; CInvalidRequest] (fun code => response_roundtrip_ (RError code)).

Definition error_response_is_single_code_byte : Test :=
  let! wire := written (write_response (RError CKeyNotFound)) in
  assert_eq (zdrop HEADER_LEN wire) [byte_of_Z (ErrorCode.as_u8 CKeyNotFound)].

Definition decode_response_ (msg_type : byte) (payload : list byte) : M unit Response :=
  of_outcome (decode_response msg_type payload).

Definition unknown_response_type_is_rejected : Test :=
  assert_err is_unexpected_command_type (decode_response_ xc8 []).

Definition error_response_without_code_is_rejected : Test :=
  assert_invalid_data (decode_response_ RESP_ERROR []).

Definition error_response_with_unknown_code_is_rejected : Test :=
  assert_err (fun _ => true) (decode_response_ RESP_ERROR [x00]) ;;!
  assert_err (fun _ => true) (decode_response_ RESP_ERROR [x2a]).

Definition value_response_must_be_utf8 : Test :=
  assert_err (fun e => bool_decide (e = Utf8)) (decode_response_ RESP_VALUE [xff]).

Definition execute_maps_store_results_to_responses : Test :=
  local fake_new (
    executes (RGet (lit "k")) (RError CKeyNotFound) ;;!
    executes (RRm (lit "k")) (RError CKeyNotFound) ;;!
    executes (RSet (lit "k") (lit "v")) ROk ;;!
    executes (RGet (lit "k")) (RValue (lit "v")) ;;!
    executes (RRm (lit "k")) ROk ;;!
    executes (RGet (lit "k")) (RError CKeyNotFound)).

Definition execute_maps_internal_store_errors_to_internal_code : Test :=
  local (failing Corruption) (executes (RGet (lit "k")) (RError CInternal)) ;;!
  local (failing (Io Other)) (executes (RSet (lit "k") (lit "v")) (RError CInternal)).

(** [while let Some((ty, payload)) = read_frame(&mut reader).unwrap() { .. }] on
    the client's side; a frame has at least five bytes. *)
Fixpoint read_replies (fuel : nat) : M Stream (list Response) :=
  match fuel with
  | O => panic
  | S fuel =>
      let! r := unwrap read_frame in
      match r with
      | None => ret []
      | Some (ty, payload) =>
          let! reply := unwrap (of_outcome (decode_response ty payload)) in
          let! replies := read_replies fuel in
          ret (reply :: replies)
      end
  end.

(** The server's side is [frames_loop], the loop of [handle]. *)
Definition full_request_response_cycle_over_a_byte_stream : Test :=
  let! inbound := written (
    write_request (RSet (lit "a") (lit "1")) ;;!
    write_request (RGet (lit "a")) ;;!
    write_request (RGet (lit "missing"))) in
  let! outbound := local (fake_new, (cursor_over inbound, tcp_sink)) (
    unwrap (frames_loop (S (length inbound))) ;;! gets (fun s => sent (snd (snd s)))) in
  let! replies := over outbound (read_replies (S (length outbound))) in
  assert_eq replies [ROk; RValue (lit "1"); RError CKeyNotFound].

Lemma protocol_tests_pass : Forall (passes tt)
  [frame_layout_is_type_then_le_len_then_payload; empty_stream_is_clean_eof;
   empty_payload_frame_roundtrips; truncated_frame_is_eof_not_none;
   multiple_frames_are_read_in_order; oversized_length_is_rejected_before_allocating;
   request_roundtrip_all_variants; request_roundtrip_empty_and_unicode; set_payload_layout;
   set_with_value_containing_key_bytes_is_unambiguous; unknown_request_type_is_rejected;
   invalid_utf8_key_is_rejected; set_payload_shorter_than_length_prefix_is_rejected;
   set_key_len_exceeding_payload_is_rejected; response_roundtrip_all_variants;
   error_response_is_single_code_byte; unknown_response_type_is_rejected;
   error_response_without_code_is_rejected; error_response_with_unknown_code_is_rejected;
   value_response_must_be_utf8; execute_maps_store_results_to_responses;
   execute_maps_internal_store_errors_to_internal_code;
   full_request_response_cycle_over_a_byte_stream].
Proof. run_tests. Qed.

End ProtocolTests.

(** ** resp.rs *)

Module RespTests.
Import Resp.

#[local] Instance RespValue_eq_dec : EqDecision RespValue.
Proof.
  refine (fix go (a b : RespValue) : Decision (a = b) :=
    match a, b with
    | SimpleString s, SimpleString s' => cast_if (decide (s = s'))
    | RespError s, RespError s' => cast_if (decide (s = s'))
    | Integer i, Integer i' => cast_if (decide (i = i'))
    | BulkString s, BulkString s' => cast_if (decide (s = s'))
    | Array None, Array None => left eq_refl
    | Array (Some l), Array (Some l') => cast_if (@list_eq_dec _ go l l')
    | _, _ => right _
    end); clear go; abstract congruence.
Defined.

#[local] Instance RespRequest_eq_dec : EqDecision RespRequest.
Proof. solve_decision. Defined.

(** The bytes of lines that end with CRLF. *)
Definition wire (lines : list string) : list byte := concat ((fun l => lit l ++ CRLF) <$> lines).

Definition read_frame_ (bytes : list byte) : M unit (option (list byte)) := over bytes read_frame_resp.
Definition parse_ (bytes : list byte) : M unit RespValue := of_outcome (parse_resp bytes).
Definition decode_ (bytes : list byte) : M unit RespRequest := of_outcome (decode_request_resp bytes).

Definition frame (bytes : list byte) : M unit (list byte) :=
  let! r := unwrap (read_frame_ bytes) in match r with Some f => ret f | None => panic end.

Definition encoded (cmd : RespCommand) (resp : Response) : M unit (list byte) :=
  written (write_response_resp cmd resp).

Definition assert_protocol_error {A} (c : M unit A) : Test :=
  assert_err (fun e => match e with
                       | InvalidData m => bool_decide (take 14 m = lit "Protocol error")
                       | _ => false
                       end) c.
Definition assert_eof {A} (c : M unit A) : Test := assert_err is_eof c.

Definition frame_reads_exactly_one_value : Test :=
  over (wire ["*2"; "$3"; "GET"; "$1"; "k"; "+OK"]) (
    let! r := unwrap read_frame_resp in assert_eq r (Some (wire ["*2"; "$3"; "GET"; "$1"; "k"])) ;;!
    let! r := unwrap read_frame_resp in assert_eq r (Some (wire ["+OK"])) ;;!
    let! r := unwrap read_frame_resp in assert_eq r None).

Definition empty_stream_is_clean_eof : Test :=
  let! r := unwrap (read_frame_ []) in assert_eq r None.

Definition bulk_string_may_contain_crlf : Test :=
  let w := wire ["$4"; "a"; "b"] in
  let! f := frame w in assert_eq f w ;;!
  let! v := unwrap (parse_ w) in assert_eq v (BulkString (Some (lit "a" ++ CRLF ++ lit "b"))).

Definition truncated_frame_is_an_error_not_none : Test :=
  let w := wire ["*2"; "$3"; "GET"; "$1"; "k"] in
  for_each (seq 1 (length w - 1)) (fun prefix_len =>
    assert_err (fun _ => true) (read_frame_ (take prefix_len w))) ;;!
  assert_eof (read_frame_ (wire ["*1"])) ;;!
  assert_eof (read_frame_ (wire ["$3"] ++ lit "ab")).

Definition oversized_lengths_are_rejected_before_allocating : Test :=
  assert_protocol_error (read_frame_ (lit "$" ++ show_u64 (Protocol.MAX_PAYLOAD + 1) ++ CRLF)) ;;!
  assert_protocol_error (read_frame_ (lit "*" ++ show_u64 (MAX_ARRAY_LEN + 1) ++ CRLF)) ;;!
  assert_protocol_error (read_frame_ (wire ["$99999999999"])).

Definition malformed_frames_are_protocol_errors : Test :=
  assert_protocol_error (read_frame_ (lit "*1" ++ [x0a])) ;;!
  assert_protocol_error (read_frame_ (wire ["$x"])) ;;!
  assert_protocol_error (read_frame_ (wire ["$-2"])) ;;!
  assert_protocol_error (read_frame_ (wire ["$2"; "abcd"])) ;;!
  assert_protocol_error (read_frame_ (wire ["?"])) ;;!
  assert_protocol_error (read_frame_ (wire ["GET k"])).

Definition deep_nesting_is_framed_but_not_parsed : Test :=
  let w := wire (replicate (Z.to_nat MAX_DEPTH + 2) "*1") ++ wire ["+x"] in
  let! f := frame w in assert_eq f w ;;!
  assert_protocol_error (parse_ w).

Definition nested_arrays_are_framed_iteratively : Test :=
  over (wire ["*2"; "*2"; ":1"; "*0"; "$1"; "x"; "+tail"]) (
    let! r := unwrap read_frame_resp in
    assert_eq r (Some (wire ["*2"; "*2"; ":1"; "*0"; "$1"; "x"])) ;;!
    let! r := unwrap read_frame_resp in assert_eq r (Some (wire ["+tail"]))).

(** [assert_eq!(parse_resp(w).unwrap(), v)] *)
Definition parses (w : list string) (v : RespValue) : Test :=
  let! r := unwrap (parse_ (wire w)) in assert_eq r v.

Definition parses_every_type : Test :=
  parses ["+OK"] (SimpleString (lit "OK")) ;;!
  parses ["-ERR x"] (RespError (lit "ERR x")) ;;!
  parses [":-42"] (Integer (-42)) ;;!
  parses ["$-1"] (BulkString None) ;;!
  parses ["$0"; ""] (BulkString (Some [])) ;;!
  parses ["*-1"] (Array None) ;;!
  parses ["*0"] (Array (Some [])) ;;!
  parses ["*2"; "$3"; "GET"; ":1"] (Array (Some [BulkString (Some (lit "GET")); Integer 1])).

Definition parse_rejects_trailing_bytes_and_short_input : Test :=
  assert_protocol_error (parse_ (wire ["+OK"; "+OK"])) ;;!
  assert_protocol_error (parse_ (wire ["$3"; "ab"])) ;;!
  assert_protocol_error (parse_ (wire ["*2"; "+a"])) ;;!
  assert_protocol_error (parse_ (wire [":abc"])).

Definition kv (bytes : list byte) : M unit Request :=
  let! r := unwrap (decode_ bytes) in
  match r with Kv req => ret req | _ => panic end.

(** [assert_eq!(kv(w), req)] *)
Definition decodes (w : list string) (req : Request) : Test :=
  let! r := kv (wire w) in assert_eq r req.

Definition decodes_commands_case_insensitively : Test :=
  decodes ["*2"; "$3"; "get"; "$1"; "k"] (RGet (lit "k")) ;;!
  decodes ["*3"; "$3"; "SeT"; "$1"; "k"; "$2"; "vv"] (RSet (lit "k") (lit "vv")) ;;!
  decodes ["*2"; "$3"; "DEL"; "$1"; "a"] (RRm (lit "a")).

Definition decodes_config_get_without_touching_the_store : Test :=
  let! r := unwrap (decode_ (wire ["*3"; "$6"; "CONFIG"; "$3"; "GET"; "$4"; "save"])) in
  assert_eq r (ConfigGet [lit "save"]) ;;!
  let! r := unwrap (decode_ (wire ["*4"; "$6"; "config"; "$3"; "get"; "$1"; "a"; "$1"; "b"])) in
  assert_eq r (ConfigGet [lit "a"; lit "b"]).

Definition config_get_replies_with_name_value_pairs : Test :=
  let! out := written (write_config_get [lit "save"]) in
  assert_eq out (wire ["*2"; "$4"; "save"; "$0"; ""]) ;;!
  let! out := written (write_config_get [lit "a"; lit "bb"]) in
  assert_eq out (wire ["*4"; "$1"; "a"; "$0"; ""; "$2"; "bb"; "$0"; ""]) ;;!
  let! out := written (write_config_get []) in
  assert_eq out (wire ["*0"]).

Definition decodes_empty_and_unicode_arguments : Test :=
  decodes ["*3"; "$3"; "SET"; "$0"; ""; "$0"; ""] (RSet [] []) ;;!
  decodes ["*3"; "$3"; "SET"; "$8"; "ключ"; "$4"; "🚀"] (RSet (lit "ключ") (lit "🚀")).

(** [assert_eq!(decode_error_message(&decode_request_resp(w).unwrap_err()), text)] *)
Definition complains (bytes : list byte) (text : string) : Test :=
  let! e := unwrap_err (decode_ bytes) in
  assert_eq (decode_error_message (fun _ => []) e) (lit text).

Definition bad_commands_carry_redis_error_text : Test :=
  complains (wire ["*1"; "$4"; "NOPE"]) "unknown command 'NOPE'" ;;!
  complains (wire ["*1"; "$3"; "GET"]) "wrong number of arguments for 'get' command" ;;!
  complains (wire ["*2"; "$3"; "SET"; "$1"; "k"]) "wrong number of arguments for 'set' command" ;;!
  complains (wire ["*3"; "$3"; "DEL"; "$1"; "a"; "$1"; "b"])
    "wrong number of arguments for 'del' command" ;;!
  complains (wire ["*2"; "$3"; "GET"; "$1"] ++ [xff] ++ CRLF) "invalid utf-8" ;;!
  complains (wire ["*3"; "$6"; "CONFIG"; "$3"; "SET"; "$1"; "x"])
    "unknown subcommand for 'config' command".

Definition request_must_be_array_of_bulk_strings : Test :=
  assert_protocol_error (decode_ (wire ["+GET"])) ;;!
  assert_protocol_error (decode_ (wire ["*0"])) ;;!
  assert_protocol_error (decode_ (wire ["*-1"])) ;;!
  assert_protocol_error (decode_ (wire ["*1"; ":1"])) ;;!
  assert_protocol_error (decode_ (wire ["*2"; "$3"; "GET"; "$-1"])).

(** [assert_eq!(encoded(cmd, &resp), w)] *)
Definition encodes (cmd : RespCommand) (resp : Response) (w : list string) : Test :=
  let! out := encoded cmd resp in assert_eq out (wire w).

Definition response_encoding_follows_redis_semantics : Test :=
  let not_found := RError CKeyNotFound in
  let internal := RError CInternal in
  encodes CGet (RValue (lit "v")) ["$1"; "v"] ;;!
  encodes CGet (RValue []) ["$0"; ""] ;;!
  encodes CGet (RValue (lit "a" ++ CRLF ++ lit "b")) ["$4"; "a"; "b"] ;;!
  encodes CGet not_found ["$-1"] ;;!
  encodes CSet ROk ["+OK"] ;;!
  encodes CDel ROk [":1"] ;;!
  encodes CDel not_found [":0"] ;;!
  for_each [CGet; CSet; CDel] (fun cmd => encodes cmd internal ["-ERR Internal server error"]).

Definition error_message_cannot_break_framing : Test :=
  let! out := written (write_error (lit "bad" ++ CRLF ++ lit "thing")) in
  assert_eq out (wire ["-ERR bad  thing"]).

Definition responses_parse_back : Test :=
  for_each [(CSet, ROk); (CDel, ROk); (CGet, RValue (lit "x" ++ CRLF ++ lit "y"));
            (CGet, RError CKeyNotFound); (CDel, RError CKeyNotFound); (CGet, RError CInternal)]
    (fun '(cmd, resp) =>
       let! w := encoded cmd resp in
       let! f := frame w in assert_eq f w ;;!
       unwrap (parse_ w) ;;! ret tt).

(** The loop of the test: [handle_resp] without its flushes. *)
(** [FakeStore] of these tests: a map. *)
Definition MapStore : Type := gmap (list byte) (list byte).

Definition map_set (k v : list byte) : M MapStore unit := modify <[k := v]>.

Definition map_remove (k : list byte) : M MapStore unit := fun m =>
  (match m !! k with Some _ => Ok tt | None => Err KeyNotFound end, delete k m).

Definition map_get (k : list byte) : M MapStore (option (list byte)) := gets (lookup k).

#[local] Instance map_store : KvStore MapStore := {
  kv_set := map_set; kv_remove := map_remove; kv_get := map_get
}.

Fixpoint session (fuel : nat) : M (MapStore * (Stream * Sink)) unit :=
  match fuel with
  | O => panic
  | S fuel =>
      let! r := unwrap (on_reader read_frame_resp) in
      match r with
      | None => ret tt
      | Some frame =>
          match decode_request_resp frame with
          | Ok (Kv req) =>
              let cmd := command_of req in
              let! resp := on_fst (execute req) in
              unwrap (on_writer (write_response_resp cmd resp))
          | Ok (ConfigGet names) => unwrap (on_writer (write_config_get names))
          | Err e => unwrap (on_writer (write_error (decode_error_message (fun _ => []) e)))
          | Panic => panic
          end ;;!
          session fuel
      end
  end.

Definition pipelined_session_over_a_byte_stream : Test :=
  let inbound := wire
    ["*3"; "$6"; "CONFIG"; "$3"; "GET"; "$4"; "save";
     "*3"; "$3"; "SET"; "$1"; "a"; "$1"; "1";
     "*2"; "$3"; "GET"; "$1"; "a";
     "*2"; "$3"; "GET"; "$7"; "missing";
     "*1"; "$5"; "BOGUS";
     "*2"; "$3"; "DEL"; "$1"; "a";
     "*2"; "$3"; "DEL"; "$1"; "a"] in
  let! outbound := local (∅ : MapStore, (cursor_over inbound, tcp_sink)) (
    session (S (length inbound)) ;;! gets (fun s => sent (snd (snd s)))) in
  assert_eq outbound (wire
    ["*2"; "$4"; "save"; "$0"; ""; "+OK"; "$1"; "1"; "$-1"; "-ERR unknown command 'BOGUS'";
     ":1"; ":0"]).

Lemma resp_tests_pass : Forall (passes tt)
  [frame_reads_exactly_one_value; empty_stream_is_clean_eof; bulk_string_may_contain_crlf;
   truncated_frame_is_an_error_not_none; oversized_lengths_are_rejected_before_allocating;
   malformed_frames_are_protocol_errors; deep_nesting_is_framed_but_not_parsed;
   nested_arrays_are_framed_iteratively; parses_every_type;
   parse_rejects_trailing_bytes_and_short_input; decodes_commands_case_insensitively;
   decodes_config_get_without_touching_the_store; config_get_replies_with_name_value_pairs;
   decodes_empty_and_unicode_arguments; bad_commands_carry_redis_error_text;
   request_must_be_array_of_bulk_strings; response_encoding_follows_redis_semantics;
   error_message_cannot_break_framing; responses_parse_back; pipelined_session_over_a_byte_stream].
Proof. run_tests. Qed.

End RespTests.
