(* ===== verification/IntegrationTests.v ===== *)
(** * The integration tests

    Tests of src/tests/tests.rs that use one thread, run on the model with the Bitcask
    engine: a new directory is opened, used, closed and opened again. A clone of a
    handle is the same handle, and dropping one of two does nothing. *)

From Stdlib Require Import ZArith Lia Strings.Byte.
From stdpp Require Import base numbers list strings gmap.
From S2P Require Import Prelude Bytes Crc CommandFormat HintFormat Streams Text Names Config FileSystem Lock Engine Load Merge KvStore Programs Testing CodecTests.
Import LockFileTests(fs_write, empty_dir).

Local Open Scope Z_scope.

#[local] Existing Instance crc32_ieee.

(** [Store], with a database of another engine that no test here opens. *)
Abbreviation TheStore := (Store (Bitcask.Handle * World) (SledStore.SledStore (gmap (list byte) (list byte)))).

Definition Store_open (c : Config.Config) : M World TheStore :=
  store_open (fun names => names) (fun _ w => (inr ∅, w)) c.

(** [let store = Store::open(config)?; body; drop(store)] *)
Definition with_store (c : Config.Config) (body : M TheStore unit) : M World unit :=
  let! s := Store_open c in
  fun w => let (o, s') := body s in (o, drop_store (fun _ w => w) s' w).

Definition config (store_type : StoreType.StoreType) : Config.Config := Config.new store_type.

(** [Config { durability_policy, ..Config::new(..) }] *)
Definition with_policy (p : DurabilityPolicy) (c : Config.Config) : Config.Config :=
  {| Config.durability_policy := p; Config.file_size_threshold := Config.file_size_threshold c;
     Config.compaction_threshold := Config.compaction_threshold c;
     Config.flush_threshold_millis := Config.flush_threshold_millis c; Config.store_type := Config.store_type c |}.

(** [Config { file_size_threshold, compaction_threshold, ..Config::new(..) }] *)
Definition with_thresholds (file_size compaction : Z) (c : Config.Config) : Config.Config :=
  {| Config.durability_policy := Config.durability_policy c; Config.file_size_threshold := file_size;
     Config.compaction_threshold := compaction;
     Config.flush_threshold_millis := Config.flush_threshold_millis c; Config.store_type := Config.store_type c |}.

Definition set_ (key value : string) : M TheStore unit := kv_set (lit key) (lit value).

(** [assert_eq!(store.get(key)?, value)] *)
Definition reads (key : string) (value : option string) : M TheStore unit :=
  let! v := kv_get (lit key) in assert_eq v (lit <$> value).

(** A call on the directory of an open store. *)
Definition in_dir {A} (c : M World A) : M TheStore A := fun s =>
  match s with
  | StBitcask (h, w) => let (o, w') := c w in (o, StBitcask (h, w'))
  | StSled _ => (Panic, s)
  end.

Section engine_tests.
Context (store_type : StoreType.StoreType).

Definition set_then_get_with_sync_on_every_put : M World unit :=
  let config := with_policy SyncOnEveryPut (config store_type) in
  with_store config (set_ "key1" "value1" ;;! reads "key1" (Some "value1")) ;;!
  with_store config (reads "key1" (Some "value1")).

Definition set_then_get_with_sync_on_interval : M World unit :=
  with_store (with_policy SyncOnInterval (config store_type)) (
    set_ "key1" "value1" ;;! reads "key1" (Some "value1") ;;!
    set_ "key2" "value2" ;;! reads "key2" (Some "value2")).

Definition get_stored_value : M World unit :=
  with_store (config store_type) (
    set_ "key1" "value1" ;;! set_ "key2" "value2" ;;!
    reads "key1" (Some "value1") ;;! reads "key2" (Some "value2")) ;;!
  with_store (config store_type) (
    reads "key1" (Some "value1") ;;! reads "key2" (Some "value2")).

Definition overwrite_value : M World unit :=
  with_store (config store_type) (
    set_ "key1" "value1" ;;! reads "key1" (Some "value1") ;;!
    set_ "key1" "value2" ;;! reads "key1" (Some "value2")) ;;!
  with_store (config store_type) (
    reads "key1" (Some "value2") ;;! set_ "key1" "value3" ;;! reads "key1" (Some "value3")).

Definition get_non_existent_value : M World unit :=
  with_store (config store_type) (set_ "key1" "value1" ;;! reads "key2" None) ;;!
  with_store (config store_type) (reads "key2" None).

Definition remove_non_existent_key : M World unit :=
  with_store (config store_type) (assert_err (fun e => bool_decide (e = KeyNotFound)) (kv_remove (lit "key1"))).

Definition removed_key_stays_removed_after_reopen : M World unit :=
  with_store (config store_type) (
    set_ "key1" "value1" ;;! set_ "key2" "value2" ;;! unwrap (kv_remove (lit "key1")) ;;!
    reads "key1" None) ;;!
  with_store (config store_type) (reads "key1" None ;;! reads "key2" (Some "value2")).

Definition record_larger_than_file_threshold_roundtrips : M World unit :=
  let config := with_thresholds 1024 (Config.compaction_threshold (config store_type)) (config store_type) in
  let big := replicate 4096 x78 in
  let reads_big := let! v := kv_get (lit "big") in assert_eq v (Some big) in
  with_store config (
    kv_set (lit "big") big ;;! set_ "small" "y" ;;! reads_big ;;! reads "small" (Some "y")) ;;!
  with_store config (reads_big ;;! reads "small" (Some "y")).

Definition empty_key_and_empty_value_roundtrip : M World unit :=
  with_store (config store_type) (
    set_ "" "empty-key" ;;! set_ "k" "" ;;! reads "" (Some "empty-key") ;;! reads "k" (Some "")) ;;!
  with_store (config store_type) (
    reads "" (Some "empty-key") ;;! reads "k" (Some "") ;;! kv_remove (lit "") ;;! reads "" None).

Definition clone_shares_state_and_dropping_one_handle_is_harmless : M World unit :=
  with_store (config store_type) (
    set_ "k1" "v1" ;;! reads "k1" (Some "v1") ;;!
    set_ "k2" "v2" ;;! reads "k1" (Some "v1") ;;! reads "k2" (Some "v2")) ;;!
  with_store (config store_type) (reads "k1" (Some "v1") ;;! reads "k2" (Some "v2")).

Definition is_locked (e : KvsError) : bool := bool_decide (e = StoreLocked).

Definition second_open_fails_while_store_is_locked : M World unit :=
  with_store (config store_type) (
    set_ "k" "v" ;;!
    assert_err is_locked (in_dir (Store_open (config store_type))) ;;!
    assert_err is_locked (in_dir (Store_open (config store_type)))) ;;!
  with_store (config store_type) (reads "k" (Some "v")).

Definition directory_created_by_other_engine_is_refused : M World unit :=
  let other := match store_type with
               | StoreType.Bitcask => StoreType.Sled
               | StoreType.Sled => StoreType.Bitcask
               end in
  with_store (config store_type) (set_ "k" "v") ;;!
  let! err := unwrap_err (Store_open (config other)) in
  assert_eq err (EngineMismatch (StoreType.as_str store_type) (StoreType.as_str other)) ;;!
  with_store (config store_type) (reads "k" (Some "v")).

End engine_tests.

(** The tests of the [KvStore] contract pass with the Bitcask engine. *)
Lemma integration_tests_pass : Forall (passes empty_dir) (
  (fun test => test StoreType.Bitcask) <$>
   [set_then_get_with_sync_on_every_put; set_then_get_with_sync_on_interval; get_stored_value;
    overwrite_value; get_non_existent_value; remove_non_existent_key;
    removed_key_stays_removed_after_reopen; record_larger_than_file_threshold_roundtrips;
    empty_key_and_empty_value_roundtrip;
    clone_shares_state_and_dropping_one_handle_is_harmless;
    second_open_fails_while_store_is_locked; directory_created_by_other_engine_is_refused]).
Proof. cbn [fmap list_fmap]. run_tests. Qed.

(** ** Tests of Bitcask's files *)

(** [let store = Bitcask::open(config)?; body; drop(store)] *)
Definition with_bitcask (c : Config.Config) (body : Bitcask.BM unit) : M World unit :=
  let! h := Open.open (fun names => names) c in
  fun w => let (o, s) := body (h, w) in (o, snd (snd (Compaction.drop_handle s))).

Definition set (key value : list byte) : Bitcask.BM unit := Bitcask.set_ key value.

Definition get_is (key : list byte) (value : option (list byte)) : Bitcask.BM unit :=
  let! v := Bitcask.get 1 key in assert_eq v value.

Definition open_removes_compact_leftovers_but_keeps_foreign_files : M World unit :=
  fs_write (lit "notes.txt") (lit "do not delete") ;;!
  fs_write (lit "000007.data.compact") (lit "half-written merge output") ;;!
  with_bitcask (config StoreType.Bitcask) (set (lit "k") (lit "v") ;;! get_is (lit "k") (Some (lit "v"))) ;;!
  let! foreign := path_exists (lit "notes.txt") in assert_ foreign ;;!
  let! leftover := path_exists (lit "000007.data.compact") in assert_ (negb leftover).

Section bitcask_tests.
(** Does the compaction thread run after a pass of writes that woke it, or only when the
    store is dropped? *)
Context (soon : bool).

Definition filler_value : list byte := replicate 32 x76.

Definition filler_key (i : Z) : list byte := lit "filler" ++ show_u64 i.

Definition write_filler_pass : Bitcask.BM unit :=
  for_each (seqZ 0 100) (fun i => set (filler_key i) filler_value) ;;!
  if soon then Compaction.thread_turn else ret tt.

Definition assert_filler_pass : Bitcask.BM unit :=
  for_each (seqZ 0 100) (fun i => get_is (filler_key i) (Some filler_value)).

Definition small_config : Config.Config := with_thresholds 2048 2048 (config StoreType.Bitcask).

Definition overwrite_after_compaction_survives_reopen : M World unit :=
  with_bitcask small_config (
    set (lit "k1") (lit "old") ;;!
    write_filler_pass ;;! write_filler_pass ;;!
    set (lit "k1") (lit "new") ;;! get_is (lit "k1") (Some (lit "new"))) ;;!
  with_bitcask (config StoreType.Bitcask) (
    get_is (lit "k1") (Some (lit "new")) ;;! get_is (lit "filler0") (Some filler_value)).

(** [name.ends_with(".hint")] *)
Definition is_hint_name (name : Name) : bool :=
  bool_decide (drop (length name - 5) name = lit ".hint").

Definition remove_then_compaction_does_not_resurrect : M World unit :=
  with_bitcask small_config (
    set (lit "victim") (lit "resurrect-me-not") ;;!
    write_filler_pass ;;! Bitcask.remove (lit "victim") ;;! write_filler_pass ;;!
    get_is (lit "victim") None) ;;!
  with_bitcask small_config (
    get_is (lit "victim") None ;;! get_is (lit "filler0") (Some filler_value)).

(** The first lines of the tests below. *)
Definition filled : M World unit := with_bitcask small_config (write_filler_pass ;;! write_filler_pass).

(** What the three tests do with the directory. *)
Definition hint_files_have_siblings : M World unit :=
  let! names := read_dir (fun names => names) in
  let hints := omap (fun name => (fun stem => (name, stem)) <$> strip_suffix (lit ".hint") name) names in
  for_each hints (fun '(name, stem) =>
    let! sibling := path_exists (stem ++ lit ".data") in assert_ sibling) ;;!
  let! lens := gets (fun w => (fun '(name, _) => match dir w !! name with
                                           | Some h => blen (bytes_of w h)
                                           | None => 0
                                           end) <$> hints) in
  assert_ (1 <=? length hints)%nat ;;!
  assert_ (existsb (fun n => 0 <? n) lens).

Definition hint_paths (names : list Name) : list Name := filter (fun name => is_hint_name name = true) names.

Definition hints_agree_with_data : M World unit :=
  let! names := read_dir (fun names => names) in
  assert_ (negb (bool_decide (hint_paths names = []))) ;;!
  with_bitcask small_config assert_filler_pass ;;!
  for_each (hint_paths names) (fun path =>
    let! there := path_exists path in assert_ there ;;! remove_file path) ;;!
  with_bitcask small_config assert_filler_pass.

Definition corrupt_and_orphan_hints : M World unit :=
  fs_write (lit "000099.hint") (lit "orphan") ;;!
  fs_write (lit "abc.hint") (lit "not ours") ;;!
  let! names := read_dir (fun names => names) in
  for_each names (fun name =>
    if is_hint_name name && negb (bool_decide (name = lit "000099.hint"))
    then fs_write name (lit "this is not a hint record") else ret tt) ;;!
  with_bitcask small_config (
    assert_filler_pass ;;!
    let! orphan := on_snd (path_exists (lit "000099.hint")) in assert_ (negb orphan) ;;!
    let! foreign := on_snd (path_exists (lit "abc.hint")) in assert_ foreign).

Definition merge_writes_hint_files_next_to_outputs : M World unit := filled ;;! hint_files_have_siblings.
Definition open_survives_corrupt_and_orphan_hint_files : M World unit := filled ;;! corrupt_and_orphan_hints.
Definition reopen_from_hints_matches_replay_from_data : M World unit := filled ;;! hints_agree_with_data.

End bitcask_tests.

Definition rotation_splits_log_into_multiple_files : M World unit :=
  let value := replicate 64 x76 in
  let key i := lit "key" ++ show_u64 i in
  with_bitcask (with_thresholds 4096 (Config.compaction_threshold (config StoreType.Bitcask)) (config StoreType.Bitcask))
    (for_each (seqZ 0 200) (fun i => set (key i) value)) ;;!
  let! names := read_dir (fun names => names) in
  let data_files := filter (fun n => length n = length (lit "000001.data") /\ ends_with (lit ".data") n = true) names in
  assert_ (2 <=? length data_files)%nat ;;!
  with_bitcask (config StoreType.Bitcask) (for_each (seqZ 0 200) (fun i => get_is (key i) (Some value))).

(** Tests that begin alike are run from where they differ. *)
Lemma passes_after {S} (first : M S unit) (tests : list (M S unit)) s :
  (let (o, s') := first s in Forall (fun o => o = Ok tt) (o :: ((fun test => fst (test s')) <$> tests))) ->
  Forall (passes s) ((fun test => first ;;! test) <$> tests).
Proof.
  destruct (first s) as [o s'] eqn:E. intros [-> H]%Forall_cons. apply Forall_fmap. apply Forall_fmap in H.
  eapply Forall_impl; [exact H|]. intros test Ht. unfold passes. cbn. by rewrite (bind_ok _ _ _ _ _ E).
Qed.

(** The tests of Bitcask's files pass: the key is overwritten or removed and a merge moves
    the others; the hint files are damaged, or deleted, after the merge that the drop of the
    store runs. *)
Lemma bitcask_tests_pass : Forall (passes empty_dir)
  [open_removes_compact_leftovers_but_keeps_foreign_files;
   overwrite_after_compaction_survives_reopen true;
   remove_then_compaction_does_not_resurrect true;
   rotation_splits_log_into_multiple_files].
Proof. run_tests. Qed.

Lemma hint_tests_pass : Forall (passes empty_dir)
  [merge_writes_hint_files_next_to_outputs false;
   open_survives_corrupt_and_orphan_hint_files false;
   reopen_from_hints_matches_replay_from_data false].
Proof.
  apply (passes_after (filled false) [hint_files_have_siblings; corrupt_and_orphan_hints; hints_agree_with_data]).
  vm_compute. repeat constructor.
Qed.
