(* ===== verification/ConcurrentTests.v ===== *)
(** * The integration tests with several threads

    Two tests of src/tests/tests.rs start threads on clones of one store. A run of the
    model cannot try every schedule, so they are proved: the threads make the calls of
    the tests, in any interleaving of their steps (and, for Bitcask, of the merge
    thread's), and what the tests assert holds. A thread of a test is known by its
    calls and returns in what is seen of the run. *)

From Stdlib Require Import ZArith Lia Strings.Byte.
From stdpp Require Import base numbers list strings gmap.
From S2P Require Import Prelude Bytes Crc Text Config FileSystem Engine Load Merge MergeSteps System Inv EngineProofs Recovery MergeState Interference Phases SystemProofs SystemTheorems Closing Threads OneWriter.

Local Open Scope Z_scope.

(** ** What every test does at its end *)

(** Reads write nothing. *)
Lemma reads_write_nothing k t es :
  (forall t op, Call t op ∈ es -> exists key, op = OGet key) -> omap (writes_key k) (calls t es) = [].
Proof.
  intros Hget. destruct (omap _ _) as [|x l] eqn:E; [done|exfalso].
  assert (x ∈ omap (writes_key k) (calls t es)) as Hx by (rewrite E; left).
  apply list_elem_of_omap in Hx as (op & Hop & Hx). apply list_elem_of_omap in Hop as ([t' op'|t' r] & Hin & Ho); [|done].
  cbn in Ho. case_decide; [|done]. injection Ho as ->. by destruct (Hget t' op Hin) as [key ->].
Qed.

Section check.
Context {St : Type} `{ThreadedLaws St}.

(** Reads that nobody disturbs give the values of the map. *)
Lemma check_reads l s m es s' k :
  follows s (idle_map m) -> bounded_run l s -> Forall op_text (invoked l) -> run_on l s = Some (es, s') ->
  (forall t op, Call t op ∈ es -> exists key, op = OGet key) ->
  Forall (fun r => value r = m !! k) (reads (watch k es)).
Proof.
  intros Hf Hb Ht Hrun Hget.
  assert (only_writer k 0 es) as Hown.
  { intros t op Hin Hw. destruct (Hget t op Hin) as [key ->]. by destruct Hw. }
  destruct (run_register l s m es s' k 0 Hf Hb Ht Hrun Hown) as (sp & n & idx & _ & _ & Hg).
  assert (written (watch k es) = []) as Hw.
  { by rewrite (watch_written k 0), reads_write_nothing. }
  apply Forall_lookup. intros b r Hb'. pose proof (g_reads _ _ _ _ _ _ _ Hg) as Hr.
  destruct (Forall2_lookup_l _ _ _ _ _ Hr Hb') as (i & _ & _ & Hi). unfold history in Hi. rewrite Hw in Hi.
  destruct i; [by injection Hi as ->|done].
Qed.

(** When all calls have returned, every key with one writer has what was written last. *)
Lemma joined_map l s m es s' :
  follows s (idle_map m) -> bounded_run l s -> Forall op_text (invoked l) -> run_on l s = Some (es, s') ->
  (forall t, length (returns t es) = length (calls t es)) ->
  exists m', follows s' (idle_map m') /\
    forall k owner, only_writer k owner es ->
      last (m !! k :: omap (writes_key k) (calls owner es)) = Some (m' !! k).
Proof.
  intros Hf Hb Ht Hrun Hj. destruct (run_follows l s es s' _ Hf Hb Ht Hrun) as (sp & Hsp & Hf').
  pose proof (joined_idle _ _ _ Hsp Hj) as Hidle. exists (Spec.map sp). rewrite <- Hidle. split; [done|].
  intros k owner Hown.
  destruct (register_run k (m !! k) owner _ _ _ _ _ _ Hsp (unwatched_register k m owner) Hown) as (n & idx & Hg).
  pose proof (g_done _ _ _ _ _ _ _ Hg) as Hd. unfold undone_write in Hd. rewrite Hidle in Hd. cbn [idle_map Spec.threads] in Hd.
  rewrite lookup_empty in Hd. rewrite <- (watch_written k owner) by done.
  rewrite <- (g_value _ _ _ _ _ _ _ Hg). unfold history. rewrite last_lookup. cbn [length Nat.pred]. f_equal.
  fold (watch k es) in *. destruct (current (watch k es) !! owner); lia.
Qed.

End check.

(** ** [concurrent_writers_do_not_lose_writes] *)

Definition WRITERS : Z := 4.
Definition KEYS_PER_WRITER : Z := 300.

(** [format!("w{w}k{i}")], [format!("w{w}v{i}p{pass}")] *)
Definition w_key (w i : Z) : list byte := lit "w" ++ show_u64 w ++ lit "k" ++ show_u64 i.
Definition w_value (w i pass : Z) : list byte :=
  lit "w" ++ show_u64 w ++ lit "v" ++ show_u64 i ++ lit "p" ++ show_u64 pass.

(** The calls of a writer. *)
Definition writer (w : Z) : list Op :=
  pass ← seqZ 0 2; (fun i => OSet (w_key w i) (w_value w i pass)) <$> seqZ 0 KEYS_PER_WRITER.

Lemma show_u64_inj a b : is_u64 a -> is_u64 b -> show_u64 a = show_u64 b -> a = b.
Proof. intros Ha Hb E. apply (f_equal parse_u64) in E. rewrite !parse_show_u64 in E by done. by injection E. Qed.

Lemma w_key_inj w i w' i' :
  0 <= w < WRITERS -> 0 <= w' < WRITERS -> is_u64 i -> is_u64 i' -> w_key w i = w_key w' i' -> w = w' /\ i = i'.
Proof.
  unfold WRITERS, w_key. intros Hw Hw' Hi Hi' E. apply app_inv_head in E.
  assert (forall a, a = 0 \/ a = 1 \/ a = 2 \/ a = 3 -> length (show_u64 a) = 1%nat /\ is_u64 a) as H1
    by (intros a [->|[->|[->| ->]]]; vm_compute; intuition discriminate).
  destruct (H1 w) as [L1 U1]; [lia|]. destruct (H1 w') as [L2 U2]; [lia|].
  apply app_inj_1 in E as [E1 E2]; [|congruence]. apply app_inv_head in E2.
  split; by apply show_u64_inj.
Qed.

Lemma omap_image {A B C} (f : B -> option C) (g : A -> B) (l : list A) : omap f (g <$> l) = omap (fun x => f (g x)) l.
Proof. induction l as [|x l IH]; [done|]. cbn. by rewrite IH. Qed.

(** One element of a range. *)
Lemma omap_one {A} (f : Z -> option A) n i x :
  0 <= i < n -> f i = Some x -> (forall j, 0 <= j < n -> j <> i -> f j = None) -> omap f (seqZ 0 n) = [x].
Proof.
  intros Hi Hf Hn. replace n with (i + (1 + (n - i - 1))) by lia.
  rewrite !seqZ_app, !omap_app by lia.
  assert (forall l, (forall j, j ∈ l -> f j = None) -> omap f l = []) as Hnil.
  { induction l as [|j l IH]; intros Hl; [done|]. cbn. rewrite (Hl j) by left. apply IH. intros j' Hj. apply Hl. by right. }
  rewrite (Hnil (seqZ 0 i)), (Hnil (seqZ (0 + i + 1) _)) by (intros j Hj%elem_of_seqZ; apply Hn; lia).
  change (seqZ (0 + i) 1) with [0 + (0 + i)]. cbn [omap list_omap app]. by rewrite Z.add_0_l, Z.add_0_l, Hf.
Qed.

Lemma writer_writes w i :
  0 <= w < WRITERS -> 0 <= i < KEYS_PER_WRITER ->
  omap (writes_key (w_key w i)) (writer w) = [Some (w_value w i 0); Some (w_value w i 1)].
Proof.
  intros Hw Hi.
  assert (forall pass, omap (writes_key (w_key w i))
    ((fun i => OSet (w_key w i) (w_value w i pass)) <$> seqZ 0 KEYS_PER_WRITER) = [Some (w_value w i pass)]) as Hp.
  { intros pass. rewrite omap_image. apply (omap_one _ _ i); [done|cbn; by rewrite decide_True|].
    intros j Hj Hne. cbn. rewrite decide_False; [done|]. intros E.
    apply w_key_inj in E as [_ E]; [done|done|done|unfold KEYS_PER_WRITER in *; ulia..]. }
  unfold writer. change (seqZ 0 2) with [0; 1]. cbn [mbind list_bind]. by rewrite app_nil_r, omap_app, !Hp.
Qed.

Section writers.
Context {St : Type} `{ThreadedLaws St}.

(** The test, up to the reopening: the writers make their calls on a new store, in any
    interleaving, and are joined; then the main thread reads. Every call of a writer
    has returned [Ok(())], and every read gives the value of the second pass, which is
    what the store has. *)
Lemma concurrent_writers_do_not_lose_writes l1 s es1 s1 l2 es2 s2 :
  follows s (idle_map ∅) ->
  bounded_run l1 s -> Forall op_text (invoked l1) -> run_on l1 s = Some (es1, s1) ->
  (forall t, calls t es1 = if decide (Z.of_nat t < WRITERS) then writer (Z.of_nat t) else []) ->
  (forall t, length (returns t es1) = length (calls t es1)) ->
  bounded_run l2 s1 -> Forall op_text (invoked l2) -> run_on l2 s1 = Some (es2, s2) ->
  (forall t op, Call t op ∈ es2 -> exists key, op = OGet key) ->
  (forall t r, Ret t r ∈ es1 -> fine r) /\
  exists m, follows s1 (idle_map m) /\
    forall w i, 0 <= w < WRITERS -> 0 <= i < KEYS_PER_WRITER ->
      m !! w_key w i = Some (w_value w i 1) /\
      Forall (fun r => value r = Some (w_value w i 1)) (reads (watch (w_key w i) es2)).
Proof.
  intros Hf Hb1 Ht1 Hrun1 Hcalls Hj Hb2 Ht2 Hrun2 Hget. split.
  { intros t r Hin. destruct (run_follows l1 s es1 s1 _ Hf Hb1 Ht1 Hrun1) as (sp & Hsp & _).
    eapply spec_run_fine; [exact Hsp| |exact Hin]. intros t' r'. cbn. by rewrite lookup_empty. }
  destruct (joined_map l1 s ∅ es1 s1 Hf Hb1 Ht1 Hrun1 Hj) as (m & Hf1 & Hm). exists m. split; [done|].
  intros w i Hw Hi. assert (m !! w_key w i = Some (w_value w i 1)) as Hv.
  { assert (only_writer (w_key w i) (Z.to_nat w) es1) as Hown.
    { intros t op Hin Hwr. assert (op ∈ calls t es1) as Hop.
      { apply list_elem_of_omap. exists (Call t op). split; [done|]. cbn. by rewrite decide_True. }
      rewrite Hcalls in Hop. case_decide as Hlt; [|by apply not_elem_of_nil in Hop].
      apply list_elem_of_bind in Hop as (pass & Hop & _). apply list_elem_of_fmap in Hop as (j & -> & Hj'%elem_of_seqZ).
      cbn in Hwr. case_decide as E; [|by destruct Hwr].
      apply w_key_inj in E as [E _]; [lia|lia|done|unfold KEYS_PER_WRITER in *; ulia..]. }
    specialize (Hm _ _ Hown). rewrite Hcalls, Z2Nat.id, decide_True, writer_writes in Hm by lia.
    by injection Hm as <-. }
  split; [done|]. rewrite <- Hv. by eapply check_reads.
Qed.

End writers.

(** ** Reopening *)

Section reopen.
Context `{Crc : Crc32} (order : list Name -> list Name) (order_perm : forall l, order l ≡ₚ l).

(** [drop(store)] joins the merge thread, which is then waiting with no signal left;
    [Bitcask::open] finds the map again. *)
Lemma drop_and_reopen s m c :
  follows s (idle_map m) -> merger s = Merger.Waiting -> Bitcask.compaction_tx (handle s) <> Some true ->
  Config.durability_policy c <> SyncOnEveryPut ->
  exists h' w', Compaction.drop_handle (handle s, world s) = (Ok tt, (h', w')) /\
    (spacious 1 c w' ->
     exists hd w'', Open.open order c w' = (Ok hd, w'') /\ follows (booted hd w'') (idle_map m)).
Proof using order_perm.
  intros (base & t & mi & [Hph _ Hv _ _ _]) Hw Htx Hp. rewrite Hw in Hph. destruct Hph as [_ He].
  destruct (close_engine _ _ _ _ _ He Htx) as (h' & w' & Hrun & Hd & Hf & Hi & Hc & Hl).
  exists h', w'. split; [done|]. intros Hs.
  assert (resting w' m) as Hr.
  { split_and!; try done. exists (base ++ later t), (cur t), (cmds t), []. split_and!; [done|by left|].
    by rewrite <- log_of_eq, Hv. }
  destruct (open_resting order order_perm 1 c w' m Hr ltac:(lia) Hs) as (hd & w'' & Hopen & Ho & Hcfg & _).
  exists hd, w''. split; [done|]. apply ready_sim.
  destruct Ho as (front & cur & cmds & He' & Hx & _ & _ & Hm). exists front, cur, cmds.
  split_and!; try done; [by eapply handles_exact_good|]. by rewrite Hcfg.
Qed.

(** The end of the writers' test with Bitcask: the writers are joined, the main thread
    reads, the store is dropped and opened again, and the main thread reads again. *)
Lemma writers_survive_reopen l1 s es1 s1 l2 es2 s2 c :
  follows s (idle_map ∅) ->
  bounded_run l1 s -> Forall op_text (invoked l1) -> run_on l1 s = Some (es1, s1) ->
  (forall t, calls t es1 = if decide (Z.of_nat t < WRITERS) then writer (Z.of_nat t) else []) ->
  (forall t, length (returns t es1) = length (calls t es1)) ->
  bounded_run l2 s1 -> Forall op_text (invoked l2) -> run_on l2 s1 = Some (es2, s2) ->
  (forall t op, Call t op ∈ es2 -> exists key, op = OGet key) ->
  (forall t, length (returns t es2) = length (calls t es2)) ->
  merger s2 = Merger.Waiting -> Bitcask.compaction_tx (handle s2) <> Some true ->
  Config.durability_policy c <> SyncOnEveryPut ->
  exists h' w', Compaction.drop_handle (handle s2, world s2) = (Ok tt, (h', w')) /\
    (spacious 1 c w' ->
     exists hd w'', Open.open order c w' = (Ok hd, w'') /\
     forall l3 es3 s3, bounded_run l3 (booted hd w'') -> Forall op_text (invoked l3) ->
       run_on l3 (booted hd w'') = Some (es3, s3) -> (forall t op, Call t op ∈ es3 -> exists key, op = OGet key) ->
       forall w i, 0 <= w < WRITERS -> 0 <= i < KEYS_PER_WRITER ->
         Forall (fun r => value r = Some (w_value w i 1)) (reads (watch (w_key w i) es3))).
Proof using order_perm.
  intros Hf Hb1 Ht1 Hrun1 Hcalls Hj1 Hb2 Ht2 Hrun2 Hget Hj2 Hw Htx Hp.
  destruct (concurrent_writers_do_not_lose_writes l1 s es1 s1 l2 es2 s2) as [_ (m & Hf1 & Hm)]; try done.
  destruct (joined_map l2 s1 m es2 s2 Hf1 Hb2 Ht2 Hrun2 Hj2) as (m2 & Hf2 & Hm2).
  assert (forall k, m2 !! k = m !! k) as Hsame.
  { intros k. assert (only_writer k 0 es2) as Hown.
    { intros t op Hin [x Hx]. by destruct (Hget t op Hin) as [key ->]. }
    specialize (Hm2 k 0%nat Hown). rewrite (reads_write_nothing k 0 es2) in Hm2 by done. by injection Hm2. }
  destruct (drop_and_reopen s2 m2 c Hf2 Hw Htx Hp) as (h' & w' & Hd & Ho). exists h', w'. split; [done|].
  intros Hs. destruct (Ho Hs) as (hd & w'' & Hopen & Hf3). exists hd, w''. split; [done|].
  intros l3 es3 s3 Hb3 Ht3 Hrun3 Hget3 w i Hwr Hi. destruct (Hm w i Hwr Hi) as [Hv _].
  rewrite <- Hv, <- Hsame. by eapply check_reads.
Qed.
End reopen.

(** ** [concurrent_readers_with_one_writer] *)

Definition KEYS : Z := 16.

(** [format!("key{k}")], [format!("{key}:{i}")] *)
Definition r_key (k : Z) : list byte := lit "key" ++ show_u64 k.
Definition generation (key : list byte) (i : Z) : list byte := key ++ lit ":" ++ show_u64 i.

(** The writer's calls from the [i]-th on, and [live] at their end. *)
Fixpoint writer_loop (writes : nat) (i : Z) (live : gmap (list byte) (list byte))
  : list Op * gmap (list byte) (list byte) :=
  match writes with
  | O => ([], live)
  | S writes =>
      let key := r_key (i mod KEYS) in
      if (i mod 17 =? 16) && bool_decide (is_Some (live !! key)) then
        let (ops, live') := writer_loop writes (i + 1) (delete key live) in (ORemove key :: ops, live')
      else
        let value := generation key i in
        let (ops, live') := writer_loop writes (i + 1) (<[key := value]> live) in (OSet key value :: ops, live')
  end.

(** Generations that go up, with removals in between. *)
Fixpoint ascending (key : list byte) (lo : Z) (vs : list (option (list byte))) : Prop :=
  match vs with
  | [] => True
  | None :: vs => ascending key lo vs
  | Some v :: vs => exists g, lo <= g /\ v = generation key g /\ ascending key g vs
  end.

Lemma ascending_weaken key lo lo' vs : lo' <= lo -> ascending key lo vs -> ascending key lo' vs.
Proof.
  revert lo. induction vs as [|[v|] vs IH]; intros lo Hle; [done| |by apply IH].
  intros (g & Hg & Hv & Ha). exists g. split_and!; [lia|done|done].
Qed.

Lemma ascending_prefix key lo vs vs' : vs `prefix_of` vs' -> ascending key lo vs' -> ascending key lo vs.
Proof.
  intros [rest ->]. revert lo. induction vs as [|[v|] vs IH]; intros lo; [done| |by apply IH].
  intros (g & Hg & Hv & Ha). exists g. split_and!; [done|done|by apply IH].
Qed.

Lemma ascending_later key lo vs i v :
  ascending key lo vs -> vs !! i = Some (Some v) -> exists g, lo <= g /\ v = generation key g.
Proof.
  revert lo i. induction vs as [|x vs IH]; intros lo i Ha Hi; [done|].
  destruct i as [|i]; [injection Hi as ->; destruct Ha as (g & Hg & Hv & _); by exists g|]. cbn in Hi.
  destruct x as [x|]; [|by eapply IH]. destruct Ha as (g & Hg & _ & Ha).
  destruct (IH _ _ Ha Hi) as (g' & Hg' & Hv). exists g'. split; [lia|done].
Qed.

Lemma ascending_ordered key lo vs i j v v' :
  ascending key lo vs -> (i <= j)%nat -> vs !! i = Some (Some v) -> vs !! j = Some (Some v') ->
  exists g g', v = generation key g /\ v' = generation key g' /\ lo <= g <= g'.
Proof.
  revert lo i j. induction vs as [|x vs IH]; intros lo i j Ha Hij Hi Hj; [done|].
  destruct i as [|i].
  - injection Hi as ->. destruct Ha as (g & Hg & Hv & Ha).
    destruct j as [|j]; [injection Hj as ->; exists g, g; split_and!; [done|done|lia|lia]|].
    destruct (ascending_later _ _ _ _ _ Ha Hj) as (g' & Hg' & Hv'). exists g, g'. by split_and!.
  - destruct j as [|j]; [lia|]. cbn in Hi, Hj. destruct x as [x|]; [|by apply (IH lo i j); [|lia|..]].
    destruct Ha as (g0 & Hg0 & _ & Ha). destruct (IH g0 i j Ha ltac:(lia) Hi Hj) as (g & g' & Hv & Hv' & Hg).
    exists g, g'. split_and!; [done|done|lia|lia].
Qed.

(** What the program writes to a key goes up, and ends with what [live] has. *)
Lemma writer_loop_values writes i live k :
  ascending k i (omap (writes_key k) (fst (writer_loop writes i live))) /\
  last (live !! k :: omap (writes_key k) (fst (writer_loop writes i live))) =
    Some (snd (writer_loop writes i live) !! k).
Proof.
  revert i live. induction writes as [|writes IH]; intros i live; [done|]. cbn [writer_loop].
  set (key := r_key (i mod KEYS)). case_match.
  - destruct (IH (i + 1) (delete key live)) as [Ha Hl]. destruct (writer_loop writes (i + 1) (delete key live)) as [ops live'].
    cbn [fst snd omap list_omap writes_key] in *. rewrite lookup_delete in Hl. case_decide as E.
    + split; [eapply (ascending_weaken k (i + 1)); [lia|done]|]. by rewrite last_cons_cons.
    + split; [by eapply (ascending_weaken k (i + 1)); [lia|]|done].
  - destruct (IH (i + 1) (<[key := generation key i]> live)) as [Ha Hl].
    destruct (writer_loop writes (i + 1) (<[key := generation key i]> live)) as [ops live'].
    cbn [fst snd omap list_omap writes_key] in *. rewrite lookup_insert in Hl. case_decide as E.
    + split; [|by rewrite last_cons_cons]. exists i. split_and!; [lia|by rewrite E|]. by eapply (ascending_weaken k (i + 1)); [lia|].
    + split; [by eapply (ascending_weaken k (i + 1)); [lia|]|done].
Qed.

Section readers.
Context {St : Type} `{ThreadedLaws St}.

(** The test while its threads run: the main thread is somewhere in its writes, the
    others read. No read fails; a value that is read belongs to the key that was asked
    for; and its generation is not below that of a read that had returned before, in
    whatever thread. *)
Lemma concurrent_readers_with_one_writer l s es s' writes k :
  follows s (idle_map ∅) -> bounded_run l s -> Forall op_text (invoked l) -> run_on l s = Some (es, s') ->
  calls 0 es `prefix_of` fst (writer_loop writes 0 ∅) ->
  (forall t op, Call t op ∈ es -> t <> 0%nat -> exists key, op = OGet key) ->
  (forall t r, Ret t r ∈ es -> fine r) /\
  (forall b r v, reads (watch k es) !! b = Some r -> value r = Some v -> exists g, 0 <= g /\ v = generation k g) /\
  (forall a b r r' v v', reads (watch k es) !! a = Some r -> reads (watch k es) !! b = Some r' -> (a < since r')%nat ->
     value r = Some v -> value r' = Some v' ->
     exists g g', v = generation k g /\ v' = generation k g' /\ 0 <= g <= g').
Proof.
  intros Hf Hb Ht Hrun Hpre Hget.
  assert (only_writer k 0 es) as Hown.
  { intros t op Hin [x Hx]. destruct (decide (t = 0%nat)) as [|Hne]; [done|].
    by destruct (Hget t op Hin Hne) as [key ->]. }
  destruct (run_register l s ∅ es s' k 0 Hf Hb Ht Hrun Hown) as (sp & n & idx & Hsp & _ & Hg).
  rewrite lookup_empty in Hg. assert (ascending k 0 (history None (watch k es))) as Hasc.
  { unfold history. rewrite (watch_written k 0) by done. destruct Hpre as [rest Hrest].
    change (ascending k 0 (omap (writes_key k) (calls 0 es))).
    eapply ascending_prefix; [|apply (writer_loop_values writes 0 ∅ k)]. rewrite Hrest, omap_app. by eexists. }
  assert (forall b r v, reads (watch k es) !! b = Some r -> value r = Some v ->
    exists i, idx !! b = Some i /\ history None (watch k es) !! i = Some (Some v)) as Hread.
  { intros b r v Hr Hv. destruct (Forall2_lookup_l _ _ _ _ _ (g_reads _ _ _ _ _ _ _ Hg) Hr) as (i & Hi & _ & Hh).
    exists i. by rewrite <- Hv. }
  split_and!.
  - intros t r Hin. eapply spec_run_fine; [exact Hsp| |exact Hin]. intros t' r'. cbn. by rewrite lookup_empty.
  - intros b r v Hr Hv. destruct (Hread b r v Hr Hv) as (i & _ & Hh). by eapply ascending_later.
  - intros a b r r' v v' Hr Hr' Hlt Hv Hv'. destruct (Hread a r v Hr Hv) as (i & Hi & Hh).
    destruct (Hread b r' v' Hr' Hv') as (j & Hj & Hh'). destruct (g_order _ _ _ _ _ _ _ Hg b r' Hr') as [_ Hord].
    eapply ascending_ordered; [exact Hasc|by eapply Hord|done|done].
Qed.

(** The end of the test: when the writer is done and the readers are joined, the store
    has what [live] has. *)
Lemma readers_final_state l s es s' writes :
  follows s (idle_map ∅) -> bounded_run l s -> Forall op_text (invoked l) -> run_on l s = Some (es, s') ->
  calls 0 es = fst (writer_loop writes 0 ∅) ->
  (forall t op, Call t op ∈ es -> t <> 0%nat -> exists key, op = OGet key) ->
  (forall t, length (returns t es) = length (calls t es)) ->
  follows s' (idle_map (snd (writer_loop writes 0 ∅))).
Proof.
  intros Hf Hb Ht Hrun Hcalls Hget Hj.
  destruct (joined_map l s ∅ es s' Hf Hb Ht Hrun Hj) as (m & Hf' & Hm).
  replace (snd (writer_loop writes 0 ∅)) with m; [done|]. apply map_eq. intros k.
  assert (only_writer k 0 es) as Hown.
  { intros t op Hin [x Hx]. destruct (decide (t = 0%nat)) as [|Hne]; [done|].
    by destruct (Hget t op Hin Hne) as [key ->]. }
  specialize (Hm k 0%nat Hown). rewrite Hcalls, (proj2 (writer_loop_values writes 0 ∅ k)) in Hm. by injection Hm.
Qed.

End readers.
