(* ===== verification/RandomTest.v ===== *)
(** * The integration test with random calls

    [random_ops_match_in_memory_model] of src/tests/tests.rs makes 3000 calls drawn
    from one seed and compares the store with a [HashMap]. It is proved for every
    seed and every number of calls, so that nothing has to be run: once for any store
    that satisfies [KvStoreLaws] and keeps its map from one opening to the next, and
    from that for [Store] with the Bitcask engine. *)

From Stdlib Require Import ZArith Lia Strings.Byte.
From stdpp Require Import base numbers list strings gmap.
From S2P Require Import Prelude Bytes Crc Text Config FileSystem Engine Load Merge Inv EngineProofs Closing KvStore RespProofs Programs Testing CodecTests IntegrationTests.

Local Open Scope Z_scope.

Abbreviation Model := (gmap (list byte) (list byte)).

(** [Rng::next] *)
Definition next : M Z Z := fun x =>
  let x := Z.lxor x (Z.shiftl x 13 mod 2 ^ 64) in
  let x := Z.lxor x (Z.shiftr x 7) in
  let x := Z.lxor x (Z.shiftl x 17 mod 2 ^ 64) in
  (Ok x, x).

Section random.
Context {St W : Type} `{!KvStore St}.
(** [Store::open(config())], [drop(store)]; the order in which a [HashMap] is walked. *)
Context (open : M W St) (close : St -> W -> W) (iter : Model -> list (list byte * list byte)).

(** The variables of the test: the store and what it was opened on, the model, the
    random numbers. *)
Definition Vars : Type := (St * W) * (Model * Z).

Definition on_store {A} (c : M St A) : M Vars A := on_fst (on_fst c).
Definition on_model {A} (c : M Model A) : M Vars A := on_snd (on_fst c).

(** [rng.next() % n] *)
Definition draw (n : Z) : M Vars Z := let! x := on_snd (on_snd next) in ret (x mod n).

(** [result.is_ok()] *)
Definition is_ok {A} (c : M St A) : M St bool := mcatch c (fun _ => ret true) (fun _ => ret false).

Definition random_op : M Vars unit :=
  let! k := draw 50 in
  let key := lit "key" ++ show_u64 k in
  let! choice := draw 10 in
  if choice <=? 6 then
    let! v := draw 1000 in
    let value := lit "value" ++ show_u64 v in
    on_store (kv_set key value) ;;!
    on_model (modify (<[key := value]>))
  else if choice <=? 8 then
    let! expected := on_model (fun m => (Ok (m !! key), delete key m)) in
    let! result := on_store (is_ok (kv_remove key)) in
    assert_eq result (bool_decide (is_Some expected))
  else
    let! v := on_store (kv_get key) in
    let! expected := on_model (gets (fun m => m !! key)) in
    assert_eq v expected.

(** [drop(store); store = Store::open(config())?] *)
Definition reopen : M Vars unit := fun '((s, w), x) =>
  match open (close s w) with
  | (Ok s', w') => (Ok tt, ((s', w'), x))
  | (Err e, w') => (Err e, ((s, w'), x))
  | (Panic, w') => (Panic, ((s, w'), x))
  end.

(** [for (k, v) in &model { assert_eq!(store.get(k)?.as_deref(), Some(v.as_str())) }] *)
Definition check_model : M Vars unit :=
  let! m := on_model (gets (fun m => m)) in
  for_each (iter m) (fun '(k, v) => let! got := on_store (kv_get k) in assert_eq got (Some v)).

Definition random_step (step : Z) : M Vars unit :=
  random_op ;;!
  if step mod 1000 =? 999 then reopen ;;! check_model else ret tt.

Definition random_ops_match_in_memory_model (seed steps : Z) : M W unit :=
  let! s := open in
  fun w => let (o, x) := for_each (seqZ 0 steps) random_step ((s, w), (∅, seed)) in
           (o, close (fst (fst x)) (snd (fst x))).

(** ** It passes *)

Context `{!KvStoreLaws St}.
(** What the store leaves behind when it is closed, and when there is room in it for
    the calls up to the next time. *)
Context (rests : W -> Model -> Prop) (roomy : W -> Prop).
Context (open_law : forall w m, rests w m -> roomy w ->
  exists s w', open w = (Ok s, w') /\ kv_holds 1001 s m).
Context (close_law : forall s w m, kv_holds 1 s m -> rests (close s w) m).
Context (iter_law : forall m k v, (k, v) ∈ iter m -> m !! k = Some v).

(** Every directory that is opened again has room. *)
Fixpoint reopens_fit (steps : list Z) (x : Vars) : Prop :=
  match steps with
  | [] => True
  | step :: steps =>
      let x1 := snd (random_op x) in
      (step mod 1000 = 999 -> roomy (close (fst (fst x1)) (snd (fst x1)))) /\
      reopens_fit steps (snd (random_step step x))
  end.

(** At the start of a step: the store holds the model and has room for the calls up to
    the next reopening. *)
Definition in_step (step : Z) (x : Vars) : Prop :=
  kv_holds (1001 - step mod 1000) (fst (fst x)) (fst (snd x)).

Lemma numbered_small a b :
  0 <= a < 10 ^ 10 -> 0 <= b < 10 ^ 10 -> small (lit "key" ++ show_u64 a) (lit "value" ++ show_u64 b).
Proof.
  intros Ha Hb. split.
  - pose proof (dec_digits_length 20 10 a Ha ltac:(lia)). pose proof (dec_digits_length 20 10 b Hb ltac:(lia)).
    unfold blen, show_u64. rewrite !length_app. change (length (lit "key")) with 3%nat.
    change (length (lit "value")) with 5%nat. unfold u32_max. lia.
  - apply utf8_valid_ascii. apply Forall_app. split; [by repeat constructor|].
    eapply Forall_impl; [apply show_u64_digits; lia|]. intros y Hy. unfold is_digit, in_range in Hy. lia.
Qed.

Lemma draw_run n x : 0 < n -> exists k r, draw n x = (Ok k, (fst x, (fst (snd x), r))) /\ 0 <= k < n.
Proof. intros Hn. eexists _, _. split; [done|]. by apply Z.mod_pos_bound. Qed.

(** One call and its check. *)
Lemma random_op_run n s w m r :
  kv_holds n s m -> 0 < n ->
  exists s' m' r', random_op ((s, w), (m, r)) = (Ok tt, ((s', w), (m', r'))) /\ kv_holds (n - 1) s' m'.
Proof using Type*.
  intros Hh Hn. unfold random_op.
  destruct (draw_run 50 ((s, w), (m, r)) ltac:(lia)) as (k & r1 & Hk & Hkb). mstep Hk. cbn [fst snd].
  destruct (draw_run 10 ((s, w), (m, r1)) ltac:(lia)) as (c & r2 & Hc & _). mstep Hc. cbn [fst snd].
  set (key := lit "key" ++ show_u64 k). destruct (c <=? 6); [|destruct (c <=? 8)].
  - destruct (draw_run 1000 ((s, w), (m, r2)) ltac:(lia)) as (v & r3 & Hv & Hvb). mstep Hv. cbn [fst snd].
    destruct (kv_set_law n s m key (lit "value" ++ show_u64 v) Hh Hn) as (s' & Hs & Hh').
    { apply numbered_small; lia. }
    exists s', (<[key := lit "value" ++ show_u64 v]> m), r3. split; [|done].
    unfold bind, on_store, on_model, on_fst, on_snd. cbn [fst snd]. by rewrite Hs.
  - destruct (kv_remove_law n s m key Hh Hn) as (s' & Hs & Hh').
    exists s', (delete key m), r2. split; [|done].
    unfold bind, on_store, on_model, on_fst, on_snd, is_ok, mcatch. cbn [fst snd]. rewrite Hs.
    by destruct (m !! key).
  - destruct (kv_get_law n s m key Hh) as (s' & Hs & Hh').
    exists s', m, r2. split; [|eapply kv_mono; [exact Hh'|lia]].
    unfold bind, on_store, on_model, on_fst, on_snd. cbn [fst snd]. rewrite Hs. cbn [fst snd gets].
    unfold assert_eq. by rewrite bool_decide_true.
Qed.

Lemma check_model_run n s w m r :
  kv_holds n s m ->
  exists s', check_model ((s, w), (m, r)) = (Ok tt, ((s', w), (m, r))) /\ kv_holds n s' m.
Proof using iter_law.
  unfold check_model, bind at 1, on_model, on_snd, on_fst, gets. cbn [fst snd].
  assert (forall k v, (k, v) ∈ iter m -> m !! k = Some v) as Hin by apply iter_law.
  revert s Hin. induction (iter m) as [|[k v] l IH]; intros s Hin Hh; [by exists s|].
  destruct (kv_get_law n s m k Hh) as (s1 & Hg & Hh1).
  destruct (IH s1 ltac:(intros k' v' H; apply Hin; by right) Hh1) as (s' & Hl & Hh'). exists s'. split; [|done].
  cbn [for_each]. unfold bind, on_store, on_fst. cbn [fst snd]. rewrite Hg, (Hin k v) by left.
  unfold assert_eq. rewrite bool_decide_true by done. exact Hl.
Qed.

Lemma random_step_run step x :
  in_step step x -> (step mod 1000 = 999 ->
    let x1 := snd (random_op x) in roomy (close (fst (fst x1)) (snd (fst x1)))) ->
  exists x', random_step step x = (Ok tt, x') /\ in_step (step + 1) x'.
Proof using open_law close_law iter_law.
  destruct x as [[s w] [m r]]. unfold in_step. cbn [fst snd]. intros Hh Hroom.
  pose proof (Z.mod_pos_bound step 1000 ltac:(lia)) as Hb.
  destruct (random_op_run _ s w m r Hh ltac:(lia)) as (s1 & m1 & r1 & Hop & Hh1).
  unfold random_step. mstep Hop. rewrite Hop in Hroom. cbn [fst snd] in Hroom.
  destruct (Z.eqb_spec (step mod 1000) 999) as [E|E].
  - destruct (open_law (close s1 w) m1) as (s2 & w2 & Ho & Hh2); [apply close_law|by apply Hroom|].
    { eapply kv_mono; [exact Hh1|lia]. }
    assert (reopen ((s1, w), (m1, r1)) = (Ok tt, ((s2, w2), (m1, r1)))) as Hre by (unfold reopen; by rewrite Ho).
    mstep Hre. destruct (check_model_run _ s2 w2 m1 r1 Hh2) as (s3 & -> & Hh3).
    eexists. split; [done|]. cbn [fst snd]. eapply kv_mono; [exact Hh3|].
    pose proof (Z.mod_pos_bound (step + 1) 1000 ltac:(lia)). lia.
  - eexists. split; [done|]. cbn [fst snd]. eapply kv_mono; [exact Hh1|].
    rewrite <- Z.add_mod_idemp_l, (Z.mod_small (step mod 1000 + 1)) by lia. lia.
Qed.

(** The test passes for every seed and every number of steps. *)
Lemma random_ops_pass seed steps w :
  rests w ∅ -> roomy w ->
  (forall s w', open w = (Ok s, w') -> reopens_fit (seqZ 0 steps) ((s, w'), (∅, seed))) ->
  passes w (random_ops_match_in_memory_model seed steps).
Proof using open_law close_law iter_law.
  intros Hw Hr Hfit. destruct (open_law w ∅ Hw Hr) as (s & w' & Ho & Hh). specialize (Hfit s w' Ho).
  unfold passes, random_ops_match_in_memory_model. mstep Ho.
  assert (in_step 0 ((s, w'), (∅, seed))) as Hi by done. revert Hfit Hi.
  generalize ((s, w'), ((∅ : Model), seed)). intros x.
  assert (forall n i x, reopens_fit (seqZ i (Z.of_nat n)) x -> in_step i x ->
    fst (for_each (seqZ i (Z.of_nat n)) random_step x) = Ok tt) as Hrun.
  { clear -open_law close_law iter_law. induction n as [|n IH]; intros i x; [done|].
    rewrite Nat2Z.inj_succ, seqZ_cons by lia. rewrite Z.pred_succ, <- Z.add_1_r.
    cbn [reopens_fit for_each]. intros [Hroom Hfit] Hi.
    destruct (random_step_run i x Hi Hroom) as (x' & Hs & Hi'). rewrite Hs in Hfit. mstep Hs.
    apply IH; [exact Hfit|exact Hi']. }
  intros Hfit Hi. destruct (Z.lt_ge_cases steps 0).
  - rewrite seqZ_nil by lia. done.
  - rewrite <- (Z2Nat.id steps) in Hfit |- * by lia. specialize (Hrun _ _ _ Hfit Hi).
    by destruct (for_each (seqZ 0 _) random_step x).
Qed.
End random.

(** ** Bitcask *)

Section bitcask.
Context `{Crc : Crc32} {Db : Type} `{!SledStore.SledDb Db}.
Context (order : list Name -> list Name) (order_perm : forall l, order l ≡ₚ l).
Context (db_open : option Z -> World -> (SledStore.SledError + Db) * World) (db_drop : Db -> World -> World).
Context (iter : Model -> list (list byte * list byte)).
Context (iter_law : forall m k v, (k, v) ∈ iter m -> m !! k = Some v).

Definition random_config : Config.Config := with_thresholds 2048 2048 (config StoreType.Bitcask).

(** On a new directory, in whatever order directories and maps are listed, as long as the
    directories that are opened have room for a thousand writes. *)
Lemma random_ops_match_bitcask seed steps w :
  startable w ∅ -> spacious 1001 random_config w ->
  let open := store_open order db_open random_config in
  (forall s w', open w = (Ok s, w') ->
    reopens_fit open (drop_store db_drop) iter (spacious 1001 random_config)
      (seqZ 0 steps) ((s, w'), (∅, seed))) ->
  passes w (random_ops_match_in_memory_model open (drop_store db_drop) iter seed steps).
Proof using order_perm iter_law.
  intros Hw Hs open Hfit.
  apply (random_ops_pass (KvStoreLaws0 := opened_laws) open (drop_store db_drop) iter startable (spacious 1001 random_config)); try done.
  - clear Hw Hs Hfit. intros w' m Hw Hs.
    destruct (open_startable order order_perm 1001 random_config w' m Hw ltac:(lia) Hs) as (hd & w1 & Ho & Hof & _).
    exists (StBitcask (hd, w1)), w1. split; [unfold open, store_open; cbn; by rewrite Ho|]. by exists (hd, w1).
  - intros s w' m ([h w1] & -> & Hof). destruct (close_store 1 h w1 m Hof ltac:(lia)) as (h2 & w2 & Hd & Hr).
    left. cbn [drop_store]. by rewrite Hd.
Qed.
End bitcask.

(** The first calls with the seed of the test, run. *)
#[local] Existing Instance crc32_ieee.

Lemma random_ops_run : passes LockFileTests.empty_dir
  (random_ops_match_in_memory_model (Store_open random_config) (drop_store (fun _ w => w)) map_to_list 0xDEADBEEF 25).
Proof. vm_compute. reflexivity. Qed.
